(* ===== verification/_CoqProject ===== *)
-Q . S2P
Prelude.v
CxxString.v
OrdMap.v
FileSystem.v
MemTable.v
BloomFilter.v
SSTable.v
SSTableIndex.v
SSTableReader.v
Manifest.v
Compactor.v
Crc32.v
Wal.v
FlushWorker.v
KVStore.v
KVWrites.v
KVReads.v
KVSteps.v
KVRecovery.v
KVSnapshot.v
KVMapSnapshot.v
KVInterface.v
ObjectStore.v
ObjectSpec.v
ObjectTypes.v
ObjectDurability.v
Raft.v
RaftElection.v
RaftTimers.v
RaftSpec.v
RaftConcurrent.v
RaftLog.v
RaftHistory.v
RaftSerial.v
RaftCommit.v
RaftProposal.v
RaftDelay.v
Server.v
Client.v
Cli.v
StorageDemos.v
Benchmarks.v
ObjectDemos.v
RaftDemo.v
Startup.v
