(* ===== verification/Prelude.v ===== *)
(** * VeriStore: a verification development

    VeriStore is a C++ storage engine: a log-structured key-value store with
    multi-version reads, an object store on top of it, and a Raft node that
    replicates commands to several stores.  This library models the code under
    [src/src] and [src/include/kv] and proves what makes it correct.

    ** How the program works

    - A client calls [KVStore] ([kv_store.cpp]).  [put] and [del] take the next
      sequence number, append a record to the write-ahead log's buffer
      ([wal.cpp]), update the latest-value map and the MemTable ([memtable.cpp]),
      and flush the log at group-commit boundaries.  [get] reads the map;
      [get_at] reads versions from the MemTable, the immutable MemTable and the
      SSTables, newest first ([sstable_reader.cpp] with the sparse index of
      [sstable_index.cpp] and the filter of [bloom_filter.cpp]).
    - A full MemTable is handed to the flush worker's thread ([flush_worker.cpp]),
      which writes an SSTable ([sstable.cpp]), appends its path to the manifest
      ([manifest.cpp]) and posts a completion.  A later [get_at] drains the
      completions and may compact the two oldest tables ([compactor.cpp]).
    - [open] loads a snapshot, replays the log, reads the manifest and starts the
      worker.
    - [ObjectStore] ([object_store.cpp]) splits objects into chunks stored under
      keys of the key-value store; a metadata record is the commit point.
    - [RaftNode] ([raft.cpp], [raft_transport.cpp]) elects leaders and replicates
      a log of commands, applied through [ApplyPut] and [ApplyDel].
    - [server_main.cpp], [cluster_demo.cpp] and [kv_client.cpp] speak a line
      protocol over sockets.

    ** Files, in dependency order

    - [Prelude]: byte strings (lists of [ascii]), machine integers ([N] with
      [wrap w] where an operation can leave [w] bits), the state monad [ST],
      tactics and shared lemmas.
    - [CxxString], [OrdMap], [FileSystem]: what the code uses of the C++ standard
      library and of POSIX: string search, [getline], formatted extraction and
      printing; [std::map] as an ordered association list; files with an explicit
      list of outcomes, from which every system call takes its next one (success,
      a short transfer, an interruption or a failure) and which a theorem
      quantifies over when it says "whatever fails".
    - [MemTable], [BloomFilter], [SSTable], [SSTableIndex], [SSTableReader],
      [Manifest], [Compactor], [Crc32], [Wal], [FlushWorker]: one file per class;
      the state of the class is a record of the same name and each method a
      definition of the same name.  The worker's thread is [run_step], one step
      per stretch between two of its interactions with shared state or files.
    - [KVStore]: the store and all its operations.  [KVWrites], [KVReads],
      [KVSteps], [KVRecovery], [KVSnapshot], [KVMapSnapshot]: theorems on writes, on
      versioned reads and compaction, on the interleaving of clients with the flush
      worker, on crashes and restarts, and on the two kinds of snapshot file.
    - [KVInterface]: the class [KVApi] of the operations that the object store
      uses, its contract [KVLaws] over an abstract map, and the instance that
      discharges the contract for [KVStore].  [ObjectStore] is written and
      [ObjectSpec] proved against the contract alone; [ObjectTypes] is the typing of
      the keys that every operation preserves.  [ObjectDurability] composes the
      object store with the store's log and its recovery.
    - [Raft]: the node, one function per critical section of its mutex, and the
      loops and proposals as sequences of sections over the in-process transport.
      [RaftElection]: all nodes' threads interleaved as a step relation, and
      election safety.  [RaftSpec]: handlers, replication, commitment and the
      apply loop over the class [StateMachine], which [KVStore] implements.
      [RaftConcurrent]: a proposal as one more thread of that relation, section by
      section; [Raft.Propose] is its run with no other thread in between.
      [RaftLog]: the step relation with the requests in flight, and log matching for
      the runs in which a proposal's entry is still the last of the log when its
      request is built, which the code does not check.
    - [RaftTimers]: the cluster with the nodes' timers and the two sections in
      which an election thread decides, as a refinement of [RaftElection].
    - [RaftHistory], [RaftSerial], [RaftCommit], [RaftProposal]: the safety of
      commitment.  [RaftHistory] is the argument over what nodes have voted with,
      led with and acknowledged, apart from any state; [RaftSerial] the step
      relation in which the exchanges of a leader with a peer do not overlap, the
      request of a proposal is built while its entry is the last of the log, and a
      response is processed in the term of its request, with the invariant that
      ties it to a history; [RaftCommit] the preservation of the invariant and the
      theorems; [RaftProposal] the proposals as runs of that relation.  The code
      does not keep to this discipline: [RaftDelay] has runs of its functions that
      lose committed entries and break log matching without it.
    - [Server]: the connection loop, the command handlers and the client's
      redirection.  [Client]: the three servers of the cluster demo as one system,
      and the client, over socket calls whose outcomes are arguments.
    - [Cli], [StorageDemos], [Benchmarks], [ObjectDemos], [RaftDemo], [Startup]:
      the programs whole, from input, disk, clock readings and the order of the
      threads to output, exit status and disk.  [Benchmarks] computes with
      binary64 numbers and prints them as the code does; [RaftDemo] runs one
      iteration of a node's loop at a time, in any order; [Startup] has the mains
      of the two servers, with their listening sockets and accept loops.

    ** What the theorems show

    The principal theorems carry a number C1 to C40 in their comments.

    - Durability and recovery: a crash recovers a prefix of the writes that
      contains every explicitly flushed one (C1, C26); replay recovers exactly
      the complete records, stops at corruption, terminates on any input and is
      undisturbed by failing calls (C9, C29, C30); flushing keeps earlier records
      (C16); the checksum is CRC-32 (C34); a snapshot restores the MemTable
      (C31), and a checkpoint keeps only that (C27).
    - Reads: the MVCC rule for [get_at] over all layers (C7), the latest-value
      view (C17), compaction invisible to reads and crash safe (C8), the MemTable
      as a log of writes (C25), SSTables as MemTables on disk (C23, C37), the
      sparse index within its file (C24), no false negatives (C35), atomic
      manifest replacement (C36).
    - Concurrency: the store's invariant under every interleaving with the
      worker (C15); completions mean durable tables (C12); stopping drains the
      queue (C28).
    - Objects: put then get (C10), also by another process after a crash (C11),
      the typed key space (C14), garbage collection (C13) and listing (C33).
    - Raft: election safety under every interleaving (C2); the replication of
      proposals among all other threads (C18): a majority has held the entry, though
      it need not hold it still; log matching under the condition of [RaftLog] (C5);
      convergence of two matching logs by heartbeats (C19), the commit index (C21),
      the apply loop (C22), the stability of a leader that is heard in time and whose
      followers decide soon after they look at their timers (C20).  With serialised
      exchanges in a cluster of odd size, committed entries are never lost and never
      differ between nodes (C3), a leader has all that was committed before it (C6),
      and what a proposal acknowledged survives (C4).
    - Programs: the servers' framing (C38), a client's put from any node to the
      leader, and, without other threads in between, to a majority of the logs (C39), what the cluster stores was sent to it (C40),
      the command-line program as a session on a map (C32).

    Theorems without a number complete the components: vote granting
    ([request_vote_contract], [RaftSpec]), completion of a flush and its wait for
    [fsync] ([flush_completes], [flush_needs_sync], [Wal]), group commit ([group_commit_flushes], [KVWrites]), isolation of puts and
    the metadata codec ([put_preserves_other_objects], [metadata_roundtrip],
    [ObjectSpec]), command routing ([put_command_routed], [Server]), deletion of an
    object ([delete_object], [ObjectSpec]), the snapshot of the map
    ([map_snapshot_roundtrip], [KVMapSnapshot]), reads around a put
    ([put_versioned_reads], [KVReads]), the flushed queue ([stop_flushes_queue],
    [FlushWorker]), the detection of every changed byte
    ([crc32_detects_byte_change], [Crc32]), the benchmarks' counts, output and CSV
    files ([StorageDemos], [Benchmarks]), the demos' output ([StorageDemos],
    [ObjectDemos]), the values of the Raft demo ([raft_demo_values], [RaftDemo]), the
    stand-alone server ([kv_server_main], [Startup]), timers as a choice among runs
    and elections after silence ([timed_run], [silence_elects], [RaftTimers]).  Others
    state where the code departs from what it means to do: [handover_hides_entries] and
    [failed_flush_blocks] ([KVSteps]), [pending_flush_skips_group_commit]
    ([KVWrites]), [checkpoint_resets_sequence] and [reopened_id_reuses_live_table]
    ([KVRecovery]), [failed_snapshot_replaces] ([KVMapSnapshot]), [flush_retry_loses_records] and [torn_tail_hides_later_appends]
    ([Wal]), [torn_append_glues] ([Manifest]), [format_truncates_values] ([SSTable]),
    [object_keys_injective_without_colons] and [gc_between_chunks_and_commit]
    ([ObjectSpec]), [stale_append_truncates], [single_node_never_leads],
    [restarted_node_votes_twice] and [even_cluster_commits_alone] ([RaftSpec]),
    [acknowledged_entry_cut] ([RaftConcurrent]), [overlapping_proposals_diverge]
    ([RaftLog]), [delayed_request_loses_commit], [stale_response_loses_commit] and
    [late_request_diverges] ([RaftDelay]), [election_despite_heartbeat]
    ([RaftTimers]), [stand_alone_server_is_read_only] ([Server]), [put_without_log_is_silent]
    ([Cli]), [short_read_misdirects] ([Client]).

    ** Conventions and bounds

    - An operation that holds its object's mutex throughout is one function; the
      store and the world are passed explicitly.
    - A crash is one of the process: what a system call has written to a file stays
      there, and what the process holds in memory, the buffered log records included,
      is lost but for an arbitrary prefix that a write in progress has put into the
      file.  The loss of written pages in a power failure is not modelled; [fsync]
      therefore changes no file and decides only what [flush] returns.
    - Loops that are not structural take fuel, and the fuel is proved to be
      enough: a write loop has the record's length plus the outcomes left, a
      replay loop the file's length plus the outcomes left ([replay_fuel]), the
      output-name loop one more than the number of live tables, the line loop one
      more than the length of the pending input, and the worker's drain
      [steps_left].
    - Parameters: the size of [Version] ([Abi]), the order that [std::sort] leaves
      among equal timestamps ([SortVersions]), the iteration order of an
      unordered map ([MapOrder]), [std::hash] ([StdHash]) and the clock (a list of
      readings), the outcomes of socket calls and the order in which the threads of
      the programs run.  Each is instantiated by a concrete value in the witnesses.

    ** What is not modelled

    The clocks themselves, whose readings are arguments, and the number that
    [BENCH] prints; the creation of the benchmarks' directory; what the Raft nodes
    trace to standard error; the generator behind the election timeouts, whose draws are
    arguments; failed memory allocation; [write_all] of [wal.cpp], which the program does not
    call.  A Raft node keeps its
    state in memory only: the step relations have no restart of a node, and
    [restarted_node_votes_twice] shows that election safety would not survive one. *)

From Stdlib Require Export Ascii String.
From stdpp Require Export base option numbers sorting gmap strings.
From stdpp Require Export list.

(** ** Byte strings

    A [std::string] is a list of [ascii] characters (a character is a byte). *)

Abbreviation str := (list ascii).

Declare Scope cxx_scope.
Delimit Scope cxx_scope with cxx.

(** [b# "text"] is the byte string of a source literal. *)
Notation "'b#' s" := (list_ascii_of_string s%string)
  (at level 1, s at level 0, only parsing) : cxx_scope.
Open Scope cxx_scope.

Definition code (c : ascii) : N := N_of_ascii c.
Definition chr (n : N) : ascii := ascii_of_N n.

(** ** Machine integers

    A [w]-bit unsigned integer is an [N]; every operation of the source that
    can leave the range is followed by the [wrap] of its width. *)

Definition wrap (w n : N) : N := (n mod 2 ^ w)%N.
Abbreviation wrap8 := (wrap 8).
Abbreviation wrap16 := (wrap 16).
Abbreviation wrap32 := (wrap 32).
Abbreviation wrap64 := (wrap 64).

Definition fits (w n : N) : Prop := (n < 2 ^ w)%N.
Abbreviation u8 := (fits 8).
Abbreviation u32 := (fits 32).
Abbreviation u64 := (fits 64).

#[export] Instance fits_dec w n : Decision (fits w n).
Proof. unfold fits. apply _. Defined.

(** ** Effects

    Code that mutates state is a function of a small state monad; its [do]
    notation is stdpp's [x ← m; k] and [m ;; k]. *)

Definition ST (S A : Type) : Type := S → A * S.

#[export] Instance ST_ret {S} : MRet (ST S) := λ A a s, (a, s).
#[export] Instance ST_bind {S} : MBind (ST S) :=
  λ A B f m s, let '(a, s') := m s in f a s'.

Definition gets {S A} (f : S → A) : ST S A := λ s, (f s, s).
Definition modify {S} (f : S → S) : ST S unit := λ s, (tt, f s).

(** A range-for loop whose body may return early, with [Some r]. *)
Fixpoint for_each {S A R} (l : list A) (body : A → ST S (option R)) : ST S (option R) :=
  match l with
  | [] => mret None
  | a :: l' =>
      o ← body a;
      match o with
      | Some r => mret (Some r)
      | None => for_each l' body
      end
  end.

(** ** Automation *)

Create HintDb veristore discriminated.
#[export] Hint Constants Opaque : veristore.
#[export] Hint Variables Opaque : veristore.

(** Case analysis on the scrutinee of the first [match] or [if] of the goal
    or of a hypothesis, keeping the equation. *)
Ltac case_goal :=
  match goal with
  | |- context [match ?x with _ => _ end] => destruct x eqn:?; simplify_eq/=
  end.
Ltac case_hyp H :=
  match type of H with
  | context [match ?x with _ => _ end] => destruct x eqn:?; simplify_eq/=
  end.

(** Unfolds the state monad's operations in the goal. *)
Ltac unfold_st := cbv [mbind mret ST_bind ST_ret gets modify].

(** ** Generic lemmas *)

Lemma ST_bind_run {S A B} (m : ST S A) (f : A → ST S B) s a s' :
  m s = (a, s') → (m ≫= f) s = f a s'.
Proof. intros H. unfold mbind, ST_bind. by rewrite H. Qed.

Lemma fits_wrap (w n : N) : fits w (wrap w n).
Proof. apply N.mod_lt. apply N.pow_nonzero. lia. Qed.

Lemma wrap_fits (w n : N) : fits w n → wrap w n = n.
Proof. intros H. by apply N.mod_small. Qed.

Lemma code_lt (c : ascii) : (code c < 256)%N.
Proof. apply N_ascii_bounded. Qed.

Lemma chr_code (c : ascii) : chr (code c) = c.
Proof. apply ascii_N_embedding. Qed.

Lemma code_chr (n : N) : (n < 256)%N → code (chr n) = n.
Proof. apply N_ascii_embedding. Qed.

Lemma code_inj (a b : ascii) : code a = code b → a = b.
Proof. intros H. by rewrite <-(chr_code a), H, chr_code. Qed.

(** *** Bits *)

Lemma testbit_wrap w n i : N.testbit (wrap w n) i = (i <? w)%N && N.testbit n i.
Proof.
  unfold wrap. destruct (N.ltb_spec i w).
  - by rewrite N.mod_pow2_bits_low.
  - by rewrite N.mod_pow2_bits_high.
Qed.

Lemma land_pow2_testbit a o : (N.land a (2 ^ o) =? 0)%N = negb (N.testbit a o).
Proof.
  destruct (N.testbit a o) eqn:E; simpl.
  - apply N.eqb_neq. intros H. assert (N.testbit (N.land a (2 ^ o)) o = true) as F.
    { rewrite N.land_spec, E, N.pow2_bits_true. done. }
    by rewrite H, N.bits_0 in F.
  - apply N.eqb_eq. apply N.bits_inj. intros i. rewrite N.land_spec, N.bits_0.
    destruct (decide (i = o)) as [->|]; [by rewrite E|].
    rewrite N.pow2_bits_false by done. apply andb_false_r.
Qed.

Lemma fits_testbit w n : fits w n ↔ ∀ i, (w ≤ i)%N → N.testbit n i = false.
Proof.
  split.
  - intros H i Hi. rewrite <-(wrap_fits w n H), testbit_wrap.
    by rewrite (proj2 (N.ltb_ge _ _)).
  - intros H. replace n with (wrap w n); [apply fits_wrap|].
    apply N.bits_inj. intros i. rewrite testbit_wrap. destruct (N.ltb_spec i w); [done|].
    by rewrite H.
Qed.

Lemma fits_lxor w a b : fits w a → fits w b → fits w (N.lxor a b).
Proof.
  rewrite !fits_testbit. intros Ha Hb i Hi. by rewrite N.lxor_spec, Ha, Hb.
Qed.

Lemma lxor_inj_r a b c : N.lxor a b = N.lxor a c → b = c.
Proof.
  intros H. apply (f_equal (N.lxor a)) in H.
  by rewrite <-!N.lxor_assoc, N.lxor_nilpotent, !N.lxor_0_l in H.
Qed.

Lemma lxor_inj_l a b c : N.lxor b a = N.lxor c a → b = c.
Proof. rewrite !(N.lxor_comm _ a). apply lxor_inj_r. Qed.

#[export] Hint Resolve fits_wrap fits_lxor code_lt : veristore.
