(* ===== verification/CxxString.v ===== *)
(** * C++ strings, streams and decimal conversions

    The parts of the C++ standard library the storage engine's text formats
    rest on: [std::string] comparison and searching, [std::getline],
    [operator>>] on an [istringstream], [std::ws], [std::stoull]/[stoul]/[stoi]
    and the decimal/hexadecimal output of [operator<<] and [std::to_string]. *)

From S2P Require Import Prelude.

Module CxxString.

(** ** Ordering

    [std::string]'s [operator<] compares bytes as unsigned characters,
    lexicographically. *)

Fixpoint compare (a b : str) : comparison :=
  match a, b with
  | [], [] => Eq
  | [], _ :: _ => Lt
  | _ :: _, [] => Gt
  | x :: a', y :: b' =>
      match N.compare (code x) (code y) with
      | Eq => compare a' b'
      | c => c
      end
  end.

Definition ltb (a b : str) : bool :=
  match compare a b with Lt => true | _ => false end.

Definition lt (a b : str) : Prop := compare a b = Lt.

#[global] Instance lt_dec a b : Decision (lt a b).
Proof. unfold lt. apply _. Defined.

Lemma compare_refl a : compare a a = Eq.
Proof. induction a as [|x a IH]; simpl; [done|]. by rewrite N.compare_refl. Qed.

Lemma compare_eq a b : compare a b = Eq → a = b.
Proof.
  revert b. induction a as [|x a IH]; intros [|y b]; simpl; try done.
  destruct (N.compare_spec (code x) (code y)) as [H| |]; try done.
  intros ->%IH. by rewrite (code_inj _ _ H).
Qed.

Lemma compare_antisym a b : compare b a = CompOpp (compare a b).
Proof.
  revert b. induction a as [|x a IH]; intros [|y b]; simpl; try done.
  rewrite (N.compare_antisym (code x)). rewrite IH.
  by destruct (N.compare (code x) (code y)).
Qed.

Lemma ltb_lt a b : ltb a b = true ↔ lt a b.
Proof. unfold ltb, lt. by destruct (compare a b). Qed.

Lemma ltb_false a b : ltb a b = false ↔ ¬ lt a b.
Proof. rewrite <-ltb_lt. by destruct (ltb a b). Qed.

Lemma lt_trans a b c : lt a b → lt b c → lt a c.
Proof.
  unfold lt. revert b c. induction a as [|x a IH]; intros [|y b] [|z c]; simpl; try done.
  destruct (N.compare_spec (code x) (code y)) as [E|E|E]; try done;
    destruct (N.compare_spec (code y) (code z)) as [F|F|F]; try done; intros.
  - rewrite E, F, N.compare_refl. eauto.
  - rewrite E. by rewrite (proj2 (N.compare_lt_iff _ _) F).
  - rewrite <-F. by rewrite (proj2 (N.compare_lt_iff _ _) E).
  - by rewrite (proj2 (N.compare_lt_iff _ _) (N.lt_trans _ _ _ E F)).
Qed.

#[global] Instance lt_strict : StrictOrder lt.
Proof.
  split.
  - intros a. unfold complement, lt. by rewrite compare_refl.
  - intros a b c. apply lt_trans.
Qed.

#[global] Instance lt_trichotomy : Trichotomy lt.
Proof.
  intros a b. unfold lt. rewrite (compare_antisym a b).
  destruct (compare a b) eqn:E; simpl; auto using compare_eq.
Qed.

Lemma lt_irrefl a : ¬ lt a a.
Proof. apply irreflexivity, _. Qed.

Lemma not_lt_cases a b : ¬ lt a b → a = b ∨ lt b a.
Proof. destruct (trichotomy lt a b) as [?|[?|?]]; tauto. Qed.

(** ** Searching and slicing *)

(** [s.find(c, from)]. *)
Fixpoint find_from (c : ascii) (s : str) (i from : nat) : option nat :=
  match s with
  | [] => None
  | x :: s' =>
      if decide (from ≤ i ∧ x = c) then Some i else find_from c s' (S i) from
  end.
Definition find (c : ascii) (s : str) (from : nat) : option nat :=
  find_from c s 0 from.

(** [s.rfind(c)] and [s.find_last_of(c)] for one character. *)
Fixpoint rfind (c : ascii) (s : str) : option nat :=
  match s with
  | [] => None
  | x :: s' =>
      match rfind c s' with
      | Some i => Some (S i)
      | None => if decide (x = c) then Some 0 else None
      end
  end.

(** [s.rfind(prefix, 0) == 0]. *)
Fixpoint starts_with (p s : str) : bool :=
  match p, s with
  | [], _ => true
  | _ :: _, [] => false
  | x :: p', y :: s' => if decide (x = y) then starts_with p' s' else false
  end.

(** [s.rfind(pat)] for a string. *)
Fixpoint rfind_str (pat s : str) : option nat :=
  match s with
  | [] => if decide (pat = []) then Some 0 else None
  | _ :: s' =>
      match rfind_str pat s' with
      | Some i => Some (S i)
      | None => if starts_with pat s then Some 0 else None
      end
  end.

(** [s.substr(pos, len)] and [s.substr(pos)]. *)
Definition substr (s : str) (pos len : nat) : str := take len (drop pos s).
Definition substr_from (s : str) (pos : nat) : str := drop pos s.

(** ** Lines: [while (std::getline(in, line))] *)

Definition nl : ascii := chr 10.
Definition tab : ascii := chr 9.

(** One [std::getline(in, line, d)] on the unread characters: [None] is a
    failed read, otherwise the line and what is left unread. *)
Fixpoint until (d : ascii) (s : str) : str * str :=
  match s with
  | [] => ([], [])
  | c :: s' =>
      if decide (c = d) then ([], s')
      else let '(l, r) := until d s' in (c :: l, r)
  end.
Definition getline (d : ascii) (s : str) : option (str * str) :=
  match s with [] => None | _ => Some (until d s) end.

(** The lines a [getline] loop visits, in order. *)
Fixpoint lines (s : str) : list str :=
  match s with
  | [] => []
  | c :: s' =>
      if decide (c = nl) then [] :: lines s'
      else match lines s' with
           | [] => [[c]]
           | l :: ls => (c :: l) :: ls
           end
  end.

(** [lines] is what iterating [getline] until it fails produces. *)
Lemma lines_getline s :
  lines s = match getline nl s with None => [] | Some (l, r) => l :: lines r end.
Proof.
  destruct s as [|c s]; [done|]. cbn [getline].
  revert c. induction s as [|c' s IH]; intros c; simpl.
  - by case_decide.
  - case_decide as Hc; [done|]. specialize (IH c'). cbn [lines] in IH. rewrite IH.
    simpl. case_decide; [done|]. by destruct (until nl s).
Qed.

Lemma until_drop d s : (until d s).2 = drop (length (until d s).1 + 1) s.
Proof.
  induction s as [|c s IH]; simpl; [done|]. case_decide; [done|].
  by destruct (until d s) as [l r].
Qed.

(** What is left to read after one line. *)
Lemma lines_drop s l ls : lines s = l :: ls → lines (drop (length l + 1) s) = ls.
Proof.
  rewrite lines_getline. unfold getline. destruct s as [|c s]; [done|].
  pose proof (until_drop nl (c :: s)) as Hd. destruct (until nl (c :: s)) as [l' r].
  cbn [fst snd] in Hd. intros E. injection E as <- <-. by rewrite <-Hd.
Qed.

(** A line that is not the last one ends in a newline. *)
Lemma lines_newline s l l' ls : lines s = l :: l' :: ls → s !! length l = Some nl.
Proof.
  revert l l' ls. induction s as [|c s IH]; intros l l' ls; cbn [lines]; [done|].
  case_decide as Hc; [intros [= <- _]; by subst c|].
  destruct (lines s) as [|l1 ls1]; [done|]. intros [= <- ->]. by eapply IH.
Qed.

Lemma until_app d l r : d ∉ l → until d (l ++ d :: r) = (l, r).
Proof.
  induction l as [|c l IH]; simpl; intros Hn.
  - by rewrite decide_True.
  - rewrite decide_False by set_solver. rewrite IH by set_solver. done.
Qed.

Lemma until_none d l : d ∉ l → until d l = (l, []).
Proof.
  induction l as [|c l IH]; simpl; intros Hn; [done|].
  rewrite decide_False by set_solver. rewrite IH by set_solver. done.
Qed.

Lemma getline_app d l r : d ∉ l → getline d (l ++ d :: r) = Some (l, r).
Proof.
  intros. unfold getline. rewrite until_app by done. by destruct l.
Qed.

Lemma getline_last d l : d ∉ l → l ≠ [] → getline d l = Some (l, []).
Proof. intros. unfold getline. rewrite until_none by done. by destruct l. Qed.

Lemma lines_app l s : nl ∉ l → lines (l ++ nl :: s) = l :: lines s.
Proof. intros. rewrite lines_getline, getline_app by done. done. Qed.

(** A file of newline-terminated lines is read back line by line. *)
(** A non-empty last line without its newline. *)
Lemma lines_single l : l ≠ [] → nl ∉ l → lines l = [l].
Proof.
  induction l as [|c l IH]; intros Hne Hl; [done|]. apply not_elem_of_cons in Hl as [Hc Hl]. simpl.
  rewrite decide_False by congruence. destruct l as [|d l]; [done|]. by rewrite IH.
Qed.

Lemma lines_concat (ls : list str) :
  Forall (λ l, nl ∉ l) ls → lines (concat ((λ l, l ++ [nl]) <$> ls)) = ls.
Proof.
  induction 1 as [|l ls Hl _ IH]; [done|].
  rewrite fmap_cons. cbn [concat]. rewrite <-app_assoc. cbn [app].
  by rewrite lines_app, IH.
Qed.

Lemma lines_no_nl s : Forall (λ l, nl ∉ l) (lines s).
Proof.
  induction s as [|c s IH]; simpl; [constructor|].
  case_decide; [constructor; [apply not_elem_of_nil|done]|].
  destruct (lines s) as [|l ls].
  - repeat constructor. rewrite list_elem_of_singleton. congruence.
  - apply Forall_cons in IH as [? ?]. constructor; [|done].
    rewrite elem_of_cons. naive_solver.
Qed.

(** ** Lemmas on searching *)

Lemma find_from_split c s : ∀ i from,
  match find_from c s i from with
  | Some j => ∃ l r, drop (from - i) s = l ++ c :: r ∧ c ∉ l ∧ j = Nat.max i from + length l ∧
                j < i + length s
  | None => c ∉ drop (from - i) s
  end.
Proof.
  induction s as [|x s IH]; intros i from; simpl.
  { rewrite drop_nil. apply not_elem_of_nil. }
  destruct (decide (from ≤ i ∧ x = c)) as [[Hle ->]|Hn].
  - replace (from - i) with 0 by lia. exists [], s. cbn. split_and!; [done|set_solver|lia|lia].
  - specialize (IH (S i) from). destruct (decide (from ≤ i)) as [Hle|Hgt].
    + replace (from - i) with 0 by lia. replace (from - S i) with 0 in IH by lia. cbn [drop] in *.
      assert (x ≠ c) as Hx by tauto. destruct (find_from c s (S i) from) as [j|].
      * destruct IH as (l & r & Hs & Hl & Hj & Hb). exists (x :: l), r.
        split_and!; [cbn; f_equal; exact Hs| |cbn [length]; lia|lia].
        apply not_elem_of_cons. split; [congruence|done].
      * apply not_elem_of_cons. split; [congruence|done].
    + replace (from - i) with (S (from - S i)) by lia. cbn [drop].
      destruct (find_from c s (S i) from) as [j|]; [|done].
      destruct IH as (l & r & Hs & Hl & Hj & Hb). exists l, r. split_and!; [done|done|lia|lia].
Qed.

Lemma find_none_drop c s from : c ∉ drop from s → find c s from = None.
Proof.
  intros Hc. pose proof (find_from_split c s 0 from) as H. rewrite Nat.sub_0_r in H. unfold find.
  destruct (find_from c s 0 from) as [j|]; [|done]. destruct H as (l & r & E & _).
  rewrite E in Hc. set_solver.
Qed.

Lemma find_drop c s from l r :
  drop from s = l ++ c :: r → c ∉ l → find c s from = Some (from + length l).
Proof.
  intros E Hl. pose proof (find_from_split c s 0 from) as H. rewrite Nat.sub_0_r in H. unfold find.
  destruct (find_from c s 0 from) as [j|]; [|exfalso; rewrite E in H; set_solver].
  destruct H as (l' & r' & E' & Hl' & -> & _). rewrite E in E'.
  apply (f_equal (until c)) in E'. rewrite !until_app in E' by done. injection E' as -> _. by f_equal.
Qed.

(** ** Formatted extraction *)

(** [isspace] in the C locale. *)
Definition is_space (c : ascii) : bool :=
  let n := code c in
  (n =? 32)%N || ((9 <=? n)%N && (n <=? 13)%N).

(** [in >> std::ws]. *)
Fixpoint skip_ws (s : str) : str :=
  match s with
  | [] => []
  | c :: s' => if is_space c then skip_ws s' else s
  end.

Fixpoint span_word (s : str) : str * str :=
  match s with
  | [] => ([], [])
  | c :: s' =>
      if is_space c then ([], s)
      else let '(w, r) := span_word s' in (c :: w, r)
  end.

(** [in >> std::string]: fails when no character is extracted. *)
Definition read_word (s : str) : option (str * str) :=
  match span_word (skip_ws s) with
  | ([], _) => None
  | (w, r) => Some (w, r)
  end.

(** [in >> char]. *)
Definition read_char (s : str) : option (ascii * str) :=
  match skip_ws s with
  | [] => None
  | c :: r => Some (c, r)
  end.

Definition is_digit (c : ascii) : bool :=
  let n := code c in (48 <=? n)%N && (n <=? 57)%N.
Definition digit_val (c : ascii) : N := (code c - 48)%N.

(** The longest run of digits, as (number of digits, value, rest). *)
Fixpoint read_digits (s : str) (k : nat) (acc : N) : nat * N * str :=
  match s with
  | [] => (k, acc, [])
  | c :: s' =>
      if is_digit c then read_digits s' (S k) (10 * acc + digit_val c)%N
      else (k, acc, s)
  end.

(** [strtoull] and [in >> uint64_t], after white space: an optional sign,
    then digits; no digit or a magnitude above [2^64 - 1] is an error, and a
    minus sign negates modulo [2^64]. *)
Definition read_unsigned (s : str) : option (N * str) :=
  let '(neg, s1) :=
    match s with
    | c :: s' =>
        if decide (c = "-"%char) then (true, s')
        else if decide (c = "+"%char) then (false, s') else (false, s)
    | [] => (false, [])
    end in
  match read_digits s1 0 0 with
  | (O, _, _) => None
  | (_, n, r) =>
      if decide (fits 64 n)
      then Some (if neg : bool then wrap64 (2 ^ 64 - n)%N else n, r)
      else None
  end.

(** [in >> uint64_t]. *)
Definition read_u64 (s : str) : option (N * str) := read_unsigned (skip_ws s).

(** [std::stoull(s)]; [None] is a thrown [invalid_argument]/[out_of_range].
    [std::stoul] agrees with it where [unsigned long] has 64 bits. *)
Definition stoull (s : str) : option N := fst <$> read_unsigned (skip_ws s).

(** [std::stoi(s)]: a signed 32-bit result or an exception. *)
Definition stoi (s : str) : option Z :=
  let '(neg, s1) :=
    match skip_ws s with
    | c :: s' =>
        if decide (c = "-"%char) then (true, s')
        else if decide (c = "+"%char) then (false, s') else (false, c :: s')
    | [] => (false, [])
    end in
  match read_digits s1 0 0 with
  | (O, _, _) => None
  | (_, n, _) =>
      let z := if neg : bool then (- Z.of_N n)%Z else Z.of_N n in
      if decide (- 2 ^ 31 ≤ z < 2 ^ 31)%Z then Some z else None
  end.

(** ** Printing numbers *)

Definition digit_chr (d : N) : ascii :=
  if (d <? 10)%N then chr (48 + d) else chr (87 + d).

Fixpoint print_fuel (fuel : nat) (base n : N) : str :=
  match fuel with
  | O => [digit_chr (n mod base)%N]
  | S f =>
      if (n <? base)%N then [digit_chr n]
      else print_fuel f base (n / base)%N ++ [digit_chr (n mod base)%N]
  end.

(** [out << n] / [std::to_string(n)] and [out << std::hex << n]. The fuel
    [log2 n] is an upper bound on the number of divisions by the base. *)
Definition print (base n : N) : str := print_fuel (N.to_nat (N.log2 n)) base n.
Definition dec (n : N) : str := print 10 n.
Definition hex (n : N) : str := print 16 n.

(** ** Lemmas on extraction *)

Definition word (s : str) : Prop := Forall (λ c, is_space c = false) s.
Definition digits (s : str) : Prop := Forall (λ c, is_digit c = true) s.

#[global] Instance word_dec s : Decision (word s).
Proof. unfold word. apply _. Defined.

Lemma digit_not_space c : is_digit c = true → is_space c = false.
Proof.
  unfold is_digit, is_space. intros [H1 H2]%andb_prop.
  apply N.leb_le in H1. apply N.leb_le in H2.
  apply orb_false_intro; [apply N.eqb_neq; lia|].
  apply andb_false_iff. right. apply N.leb_gt. lia.
Qed.

Lemma digits_word s : digits s → word s.
Proof. intros H. eapply Forall_impl; [exact H|]. apply digit_not_space. Qed.

Lemma word_not_elem c s : is_space c = true → word s → c ∉ s.
Proof.
  intros Hc Hs Hin. unfold word in Hs. rewrite Forall_forall in Hs.
  specialize (Hs c Hin). congruence.
Qed.

Lemma skip_ws_head c s : is_space c = false → skip_ws (c :: s) = c :: s.
Proof. simpl. by intros ->. Qed.

Lemma skip_ws_space c s : is_space c = true → skip_ws (c :: s) = skip_ws s.
Proof. simpl. by intros ->. Qed.

Lemma span_word_app w c r :
  word w → is_space c = true → span_word (w ++ c :: r) = (w, c :: r).
Proof.
  intros Hw Hc. induction Hw as [|x w Hx _ IH]; simpl.
  - by rewrite Hc.
  - by rewrite Hx, IH.
Qed.

(** A non-empty word followed by white space is extracted exactly. *)
Lemma read_word_app w c r :
  word w → w ≠ [] → is_space c = true → read_word (w ++ c :: r) = Some (w, c :: r).
Proof.
  intros Hw Hne Hc. unfold read_word. destruct w as [|x w]; [done|].
  simpl app. rewrite skip_ws_head by (by inversion Hw).
  change (x :: w ++ c :: r) with ((x :: w) ++ c :: r).
  by rewrite span_word_app.
Qed.

Lemma read_digits_app ds r k acc :
  digits ds → (match r with [] => True | c :: _ => is_digit c = false end) →
  read_digits (ds ++ r) k acc =
    (length ds + k, foldl (λ a c, 10 * a + digit_val c)%N acc ds, r).
Proof.
  intros Hd Hr. revert k acc. induction Hd as [|c ds Hc _ IH]; intros k acc; simpl.
  - destruct r as [|c r]; simpl; [done|]. by rewrite Hr.
  - rewrite Hc, IH. f_equal. f_equal. lia.
Qed.

(** ** Printing and reading back *)

Lemma digit_chr_code d : (d < 10)%N → code (digit_chr d) = (48 + d)%N.
Proof.
  intros H. unfold digit_chr. rewrite (proj2 (N.ltb_lt _ _) H).
  apply code_chr. lia.
Qed.

Lemma digit_chr_digit d : (d < 10)%N → is_digit (digit_chr d) = true.
Proof.
  intros H. unfold is_digit. rewrite digit_chr_code by done.
  apply andb_true_intro. split; apply N.leb_le; lia.
Qed.

Lemma digit_chr_val d : (d < 10)%N → digit_val (digit_chr d) = d.
Proof. intros H. unfold digit_val. rewrite digit_chr_code by done. lia. Qed.

Lemma print_fuel_digits f n : digits (print_fuel f 10 n).
Proof.
  revert n. induction f as [|f IH]; intros n; simpl.
  - constructor; [|constructor]. apply digit_chr_digit, N.mod_lt. done.
  - case_match eqn:E.
    + constructor; [|constructor]. apply digit_chr_digit. by apply N.ltb_lt.
    + apply Forall_app. split; [apply IH|].
      constructor; [|constructor]. apply digit_chr_digit, N.mod_lt. done.
Qed.

Lemma print_fuel_value f n :
  (n < 2 ^ N.of_nat (S f))%N →
  foldl (λ a c, 10 * a + digit_val c)%N 0%N (print_fuel f 10 n) = n.
Proof.
  revert n. induction f as [|f IH]; intros n Hn; cbn [print_fuel].
  - simpl in Hn. rewrite N.mod_small by lia. cbn [foldl].
    rewrite digit_chr_val; lia.
  - case_match eqn:E.
    + apply N.ltb_lt in E. cbn [foldl]. rewrite digit_chr_val; lia.
    + rewrite foldl_app. cbn [foldl]. rewrite IH.
      * rewrite digit_chr_val by (apply N.mod_lt; done).
        pose proof (N.div_mod n 10). lia.
      * apply N.Div0.div_lt_upper_bound.
        rewrite Nat2N.inj_succ, N.pow_succ_r' in Hn. lia.
Qed.

Lemma dec_digits n : digits (dec n).
Proof. apply print_fuel_digits. Qed.

Lemma dec_value n : foldl (λ a c, 10 * a + digit_val c)%N 0%N (dec n) = n.
Proof.
  apply print_fuel_value. rewrite Nat2N.inj_succ, N2Nat.id.
  destruct n as [|p]; [done|]. apply N.log2_spec. lia.
Qed.

Lemma print_fuel_nonempty f b n : print_fuel f b n ≠ [].
Proof. destruct f; simpl; [done|]. case_match; [done|]. by destruct (print_fuel _ _ _). Qed.

Lemma dec_nonempty n : dec n ≠ [].
Proof. apply print_fuel_nonempty. Qed.

Lemma dec_inj m n : dec m = dec n → m = n.
Proof. intros H. by rewrite <-(dec_value m), H, dec_value. Qed.

Lemma digit_neq_sign c : is_digit c = true → c ≠ "-"%char ∧ c ≠ "+"%char.
Proof. by split; intros ->. Qed.

(** What [operator<<] prints, [operator>>] and [stoull] read back. *)
Lemma read_unsigned_dec n r :
  fits 64 n → (match r with [] => True | c :: _ => is_digit c = false end) →
  read_unsigned (dec n ++ r) = Some (n, r).
Proof.
  intros Hn Hr. pose proof (dec_digits n) as Hd.
  pose proof (read_digits_app (dec n) r 0 0%N Hd Hr) as E.
  rewrite dec_value in E. pose proof (dec_nonempty n) as Hne.
  unfold read_unsigned. destruct (dec n) as [|c ds]; [done|].
  inversion Hd as [|? ? Hc Hds]; subst.
  destruct (digit_neq_sign c Hc). cbn [app] in *.
  rewrite !decide_False by done. rewrite E. simpl. by rewrite decide_True.
Qed.

Lemma dec_skip_ws n r : skip_ws (dec n ++ r) = dec n ++ r.
Proof.
  pose proof (dec_digits n) as Hd. pose proof (dec_nonempty n) as Hne.
  destruct (dec n) as [|c ds]; [done|]. inversion Hd; subst.
  apply skip_ws_head. by apply digit_not_space.
Qed.

Lemma read_u64_dec n r :
  fits 64 n → (match r with [] => True | c :: _ => is_digit c = false end) →
  read_u64 (dec n ++ r) = Some (n, r).
Proof. intros. unfold read_u64. rewrite dec_skip_ws. by apply read_unsigned_dec. Qed.

Lemma stoull_dec n : fits 64 n → stoull (dec n) = Some n.
Proof.
  intros H. unfold stoull. pose proof (read_u64_dec n [] H I) as E.
  unfold read_u64 in E. rewrite app_nil_r in E. by rewrite E.
Qed.

Lemma tab_space : is_space tab = true.
Proof. done. Qed.
Lemma nl_space : is_space nl = true.
Proof. done. Qed.

Lemma dec_no_tab n : tab ∉ dec n.
Proof. apply word_not_elem; [done|]. apply digits_word, dec_digits. Qed.

Lemma dec_no_nl n : nl ∉ dec n.
Proof. apply word_not_elem; [done|]. apply digits_word, dec_digits. Qed.

Lemma stoi_dec n : (n < 2 ^ 31)%N → stoi (dec n) = Some (Z.of_N n).
Proof.
  intros Hn. pose proof (dec_digits n) as Hd.
  pose proof (read_digits_app (dec n) [] 0 0%N Hd I) as E.
  rewrite dec_value, app_nil_r in E. pose proof (dec_nonempty n) as Hne.
  pose proof (dec_skip_ws n []) as Hs. rewrite app_nil_r in Hs.
  unfold stoi. rewrite Hs. destruct (dec n) as [|c ds]; [done|].
  inversion Hd as [|? ? Hc Hds]; subst. destruct (digit_neq_sign c Hc).
  rewrite !decide_False by done. rewrite E. simpl. rewrite decide_True by lia. done.
Qed.

(** A printed number of [w] bits has at most [w] digits. *)
Lemma print_fuel_length f b n : length (print_fuel f b n) ≤ S f.
Proof.
  revert n. induction f as [|f IH]; intros n; cbn [print_fuel]; [done|].
  case_match; [cbn; lia|]. rewrite length_app. cbn. specialize (IH (n / b)%N). lia.
Qed.

Lemma print_length w b n : (0 < w)%N → fits w n → length (print b n) ≤ N.to_nat w.
Proof.
  intros Hw Hn. unfold print. pose proof (print_fuel_length (N.to_nat (N.log2 n)) b n).
  assert (N.log2 n < w)%N; [|lia]. destruct (decide (n = 0%N)) as [->|]; [done|].
  apply N.log2_lt_pow2; [lia|done].
Qed.

(** No tab in a hexadecimal number either. *)
Lemma digit_chr_not_tab d : (d < 16)%N → digit_chr d ≠ tab.
Proof.
  intros Hd E. apply (f_equal code) in E. unfold digit_chr, tab in E.
  destruct (N.ltb_spec d 10); rewrite !code_chr in E by lia; lia.
Qed.

Lemma hex_no_tab n : tab ∉ hex n.
Proof.
  unfold hex, print. generalize (N.to_nat (N.log2 n)) as f. intros f. revert n.
  induction f as [|f IH]; intros n; cbn [print_fuel].
  - intros H%list_elem_of_singleton. symmetry in H. apply digit_chr_not_tab in H; [done|].
    by apply N.mod_lt.
  - destruct (N.ltb_spec n 16).
    + intros H1%list_elem_of_singleton. symmetry in H1. by apply digit_chr_not_tab in H1.
    + rewrite elem_of_app. intros [H1|H1%list_elem_of_singleton]; [by apply IH in H1|].
      symmetry in H1. apply digit_chr_not_tab in H1; [done|]. by apply N.mod_lt.
Qed.

End CxxString.

#[export] Hint Resolve CxxString.dec_no_tab CxxString.dec_no_nl
  CxxString.tab_space CxxString.nl_space CxxString.dec_digits
  CxxString.dec_nonempty : veristore.
