(* ===== verification/OrdMap.v ===== *)
(** * [std::map] with string keys

    An ordered map is the list of its bindings in iteration order, strictly
    increasing in the key ([CxxString.lt]).  The operations are the ones the
    sources call: [find], [m\[k\]] followed by an update, [try_emplace],
    [upper_bound] and iteration. *)

From S2P Require Import Prelude CxxString.

Module OrdMap.

Section OrdMap.
Context {A : Type}.
Implicit Types (m : list (str * A)) (k : str).

(** [m.find(k)]. *)
Fixpoint find (k : str) (m : list (str * A)) : option A :=
  match m with
  | [] => None
  | (k', a) :: m' => if decide (k' = k) then Some a else find k m'
  end.

(** [auto& r = m\[k\]; r = f(r)], where [f] sees [None] when the key was absent. *)
Fixpoint update (k : str) (f : option A → A) (m : list (str * A)) : list (str * A) :=
  match m with
  | [] => [(k, f None)]
  | (k', a) :: m' =>
      match CxxString.compare k k' with
      | Lt => (k, f None) :: m
      | Eq => (k', f (Some a)) :: m'
      | Gt => (k', a) :: update k f m'
      end
  end.

(** [m.try_emplace(k, a)]. *)
Definition try_emplace (k : str) (a : A) (m : list (str * A)) : list (str * A) :=
  update k (λ o, default a o) m.

(** The bindings before [m.upper_bound(k)], in order: the keys [≤ k]. *)
Fixpoint upto (k : str) (m : list (str * A)) : list (str * A) :=
  match m with
  | [] => []
  | (k', a) :: m' => if CxxString.ltb k k' then [] else (k', a) :: upto k m'
  end.

Definition sorted m : Prop := StronglySorted CxxString.lt m.*1.

(** ** Laws *)

Lemma find_lt_None k m : Forall (CxxString.lt k) m.*1 → find k m = None.
Proof.
  induction m as [|[k' a] m IH]; simpl; [done|]. intros [Hk Hm]%Forall_cons.
  rewrite decide_False by (intros ->; by apply (CxxString.lt_irrefl k)). auto.
Qed.

Lemma find_update_eq k f m : sorted m → find k (update k f m) = Some (f (find k m)).
Proof.
  unfold sorted. induction m as [|[k' a] m IH]; simpl; intros S; [by rewrite decide_True|].
  apply StronglySorted_inv in S as [S F].
  destruct (CxxString.compare k k') eqn:E; simpl.
  - apply CxxString.compare_eq in E as ->. by rewrite !decide_True.
  - rewrite decide_True by done.
    rewrite decide_False by (intros ->; by apply (CxxString.lt_irrefl k)).
    rewrite find_lt_None; [done|]. eapply Forall_impl; [exact F|].
    intros x. by apply CxxString.lt_trans.
  - assert (k' ≠ k) by (intros ->; by rewrite CxxString.compare_refl in E).
    rewrite !decide_False by done. by apply IH.
Qed.

Lemma find_update_ne k k2 f m : k ≠ k2 → find k2 (update k f m) = find k2 m.
Proof.
  intros Hne. induction m as [|[k' a] m IH]; simpl; [by rewrite decide_False|].
  destruct (CxxString.compare k k') eqn:E; simpl.
  - apply CxxString.compare_eq in E as ->. by rewrite !decide_False.
  - by rewrite decide_False.
  - by rewrite IH.
Qed.

Lemma update_keys k f m x : x ∈ (update k f m).*1 ↔ x = k ∨ x ∈ m.*1.
Proof.
  induction m as [|[k' a] m IH]; simpl; [set_solver|].
  destruct (CxxString.compare k k') eqn:E; simpl.
  - apply CxxString.compare_eq in E as ->. set_solver.
  - set_solver.
  - rewrite !elem_of_cons, IH. set_solver.
Qed.

Lemma sorted_update k f m : sorted m → sorted (update k f m).
Proof.
  unfold sorted. induction m as [|[k' a] m IH]; simpl; intros S.
  - repeat constructor.
  - destruct (CxxString.compare k k') eqn:E; simpl; [done| |].
    + constructor; [done|]. apply StronglySorted_inv in S as [_ S].
      constructor; [done|]. eapply Forall_impl; [exact S|].
      intros x. by apply CxxString.lt_trans.
    + apply StronglySorted_inv in S as [S1 S2]. constructor; [by apply IH|].
      apply Forall_forall. intros x [->|Hx]%update_keys.
      * unfold CxxString.lt. rewrite CxxString.compare_antisym, E. done.
      * rewrite Forall_forall in S2. by apply S2.
Qed.

Lemma find_update k k2 f m :
  sorted m →
  find k2 (update k f m) = if decide (k = k2) then Some (f (find k m)) else find k2 m.
Proof.
  intros S. case_decide; subst.
  - by apply find_update_eq.
  - by apply find_update_ne.
Qed.

Lemma find_Some_elem k a m : find k m = Some a → (k, a) ∈ m.
Proof.
  induction m as [|[k' a'] m IH]; simpl; [done|]. case_decide; intros; simplify_eq.
  - by left.
  - right. auto.
Qed.

Lemma elem_find k a m : sorted m → (k, a) ∈ m → find k m = Some a.
Proof.
  unfold sorted. induction m as [|[k' a'] m IH]; simpl; intros S Hin; [by inversion Hin|].
  apply StronglySorted_inv in S as [S1 S2]. apply elem_of_cons in Hin as [?|Hin].
  - simplify_eq. by rewrite decide_True.
  - rewrite decide_False; [by auto|]. intros ->.
    rewrite Forall_forall in S2. apply (CxxString.lt_irrefl k), S2.
    apply list_elem_of_fmap. by exists (k, a).
Qed.

Lemma find_None k m : find k m = None ↔ k ∉ m.*1.
Proof.
  induction m as [|[k' a] m IH]; simpl; [set_solver|]. case_decide; set_solver.
Qed.

Lemma find_update_value k f m v k2 :
  (k2, v) ∈ update k f m → (k2, v) ∈ m ∨ (k2 = k ∧ ∃ o, v = f o ∧ (o = None ∨ ∃ a, o = Some a ∧ (k, a) ∈ m)).
Proof.
  induction m as [|[k' a] m IH]; simpl.
  - rewrite list_elem_of_singleton. intros ?; simplify_eq. right. eauto.
  - destruct (CxxString.compare k k') eqn:E.
    + apply CxxString.compare_eq in E as ->. rewrite !elem_of_cons.
      intros [?|?]; simplify_eq; [|by auto]. right. split; [done|].
      exists (Some a). split; [done|]. right. exists a. split; [done|]. by left.
    + rewrite !elem_of_cons. intros [?|?]; simplify_eq; [|by auto]. right. eauto.
    + rewrite !elem_of_cons. intros [?|Hin]; [by auto|].
      destruct (IH Hin) as [?|(-> & o & -> & [->|(a' & -> & ?)])]; [by auto| |].
      * right. eauto 6.
      * right. split; [done|]. exists (Some a'). split; [done|]. right.
        exists a'. split; [done|]. rewrite elem_of_cons. by auto.
Qed.

(** Two sorted maps with the same lookups are the same list of bindings. *)
Lemma ext m1 m2 :
  sorted m1 → sorted m2 → (∀ k, find k m1 = find k m2) → m1 = m2.
Proof.
  unfold sorted. revert m2. induction m1 as [|[k1 a1] m1 IH]; intros [|[k2 a2] m2] S1 S2 E.
  - done.
  - specialize (E k2). simpl in E. by rewrite decide_True in E.
  - specialize (E k1). simpl in E. by rewrite decide_True in E.
  - cbn in S1, S2. apply StronglySorted_inv in S1 as [S1 F1].
    apply StronglySorted_inv in S2 as [S2 F2].
    assert (Hk : k1 = k2).
    { destruct (decide (k1 = k2)) as [|N]; [done|].
      pose proof (E k1) as E1. pose proof (E k2) as E2. simpl in E1, E2.
      rewrite decide_True, decide_False in E1 by done.
      rewrite decide_False, decide_True in E2 by done.
      symmetry in E1. apply find_Some_elem in E1. apply find_Some_elem in E2.
      rewrite Forall_forall in F1, F2.
      assert (k1 ∈ m2.*1) by (apply list_elem_of_fmap; by exists (k1, a1)).
      assert (k2 ∈ m1.*1) by (apply list_elem_of_fmap; by exists (k2, a2)).
      exfalso. apply (CxxString.lt_irrefl k1). eapply CxxString.lt_trans; eauto. }
    subst k2. pose proof (E k1) as E1. cbn in E1. rewrite !decide_True in E1 by done.
    simplify_eq. f_equal. apply IH; [done|done|]. intros k. specialize (E k). cbn in E.
    case_decide; [|done]. subst k.
    rewrite (proj2 (find_None k1 m1)), (proj2 (find_None k1 m2)); [done| |];
      intros Hin; rewrite Forall_forall in F1, F2;
      apply (CxxString.lt_irrefl k1); auto.
Qed.

End OrdMap.
End OrdMap.

#[export] Hint Resolve OrdMap.sorted_update : veristore.
