(* ===== verification/FileSystem.v ===== *)
(** * Files, streams and system calls

    The outside world of the storage engine: the files by path, and the
    outcomes of the system calls to come.  Every fallible call consumes one
    outcome; when the list is exhausted all later calls succeed, so every
    finite pattern of failures and short transfers is some initial list, and a
    world with no outcomes left is the failure-free one.

    What a stream or a descriptor is given is in the file at once, as far as the
    call's outcome lets it: the buffers of a stream and of the kernel are not
    modelled, so a process that stops loses no byte it has written, and [flush] and
    [fsync] only report an outcome. *)

From S2P Require Import Prelude.

(** What the next system call does: complete; transfer at most [k] bytes;
    be interrupted ([EINTR]); fail. *)
Inductive outcome := Done | Short (k : nat) | Intr | Fault.

Record World := mkWorld {
  files : gmap str str;
  faults : list outcome;
}.

Abbreviation io := (ST World).

(** A [std::ofstream]: the file it writes and its [operator bool]. *)
Record ofstream := mkOfs { ofs_path : str; ofs_good : bool }.

Module FileSystem.

Definition next : io outcome := λ w,
  match faults w with
  | [] => (Done, w)
  | o :: os => (o, mkWorld (files w) os)
  end.

Definition set_files (f : gmap str str → gmap str str) : io unit :=
  modify (λ w, mkWorld (f (files w)) (faults w)).

Definition succeeds (o : outcome) : bool :=
  match o with Fault => false | _ => true end.

(** ** C++ file streams *)

(** [std::ofstream out(path)]: creates or truncates. *)
Definition open_trunc (path : str) : io ofstream :=
  o ← next;
  if succeeds o
  then set_files <[path := []]> ;; mret (mkOfs path true)
  else mret (mkOfs path false).

(** [std::ofstream out(path, std::ios::app)]: creates if missing. *)
Definition open_app (path : str) : io ofstream :=
  o ← next;
  if succeeds o
  then set_files (λ fs, <[path := default [] (fs !! path)]> fs) ;; mret (mkOfs path true)
  else mret (mkOfs path false).

Definition append_to (path data : str) : io unit :=
  set_files (λ fs, <[path := default [] (fs !! path) ++ data]> fs).

(** [out << data].  A failing write leaves some prefix of the data in the file
    and the stream not good; a stream that is not good ignores writes. *)
Definition write (out : ofstream) (data : str) : io ofstream :=
  if ofs_good out then
    o ← next;
    match o with
    | Done | Intr => append_to (ofs_path out) data ;; mret out
    | Short k =>
        append_to (ofs_path out) (take k data) ;; mret (mkOfs (ofs_path out) false)
    | Fault => mret (mkOfs (ofs_path out) false)
    end
  else mret out.

(** [out.flush()]. *)
Definition flush (out : ofstream) : io ofstream :=
  if ofs_good out then
    o ← next;
    mret (mkOfs (ofs_path out) (succeeds o))
  else mret out.

(** [std::ifstream in(path)], read to the end; [None] when it cannot be opened. *)
Definition read_file (path : str) : io (option str) :=
  o ← next;
  if succeeds o then gets (λ w, files w !! path) else mret None.

(** [std::rename(from, to) == 0], atomic on the target. *)
Definition rename (from to : str) : io bool :=
  o ← next;
  c ← gets (λ w, files w !! from);
  match c with
  | Some data =>
      if succeeds o
      then set_files (λ fs, <[to := data]> (delete from fs)) ;; mret true
      else mret false
  | None => mret false
  end.

(** [std::remove(path)]. *)
Definition remove (path : str) : io bool :=
  o ← next;
  c ← gets (λ w, files w !! path);
  match c with
  | Some _ => if succeeds o then set_files (delete path) ;; mret true else mret false
  | None => mret false
  end.

(** ** What each call may do to the files *)

Lemma next_files w : files (next w).2 = files w.
Proof. unfold next. by destruct (faults w). Qed.

Lemma next_nofault w : faults w = [] → next w = (Done, w).
Proof. unfold next. by intros ->. Qed.

Lemma open_trunc_spec path w out w' :
  open_trunc path w = (out, w') →
  ofs_path out = path ∧
  files w' = if ofs_good out then <[path := []]> (files w) else files w.
Proof.
  unfold open_trunc, set_files. unfold_st.
  pose proof (next_files w) as Hf. destruct (next w) as [o w1]. simpl in Hf.
  destruct (succeeds o); intros; simplify_eq/=; by rewrite Hf.
Qed.

Lemma open_app_spec path w out w' :
  open_app path w = (out, w') →
  ofs_path out = path ∧
  files w' = if ofs_good out then <[path := default [] (files w !! path)]> (files w)
             else files w.
Proof.
  unfold open_app, set_files. unfold_st.
  pose proof (next_files w) as Hf. destruct (next w) as [o w1]. simpl in Hf.
  destruct (succeeds o); intros; simplify_eq/=; by rewrite Hf.
Qed.

(** A write extends the file by the data, or by a prefix of it and the stream
    goes bad. *)
Lemma write_spec out data w out' w' :
  write out data w = (out', w') →
  ofs_path out' = ofs_path out ∧
  (ofs_good out' = true → ofs_good out = true) ∧
  ∃ pre, pre `prefix_of` data ∧
    (ofs_good out' = true → pre = data) ∧
    (files w' = <[ofs_path out := default [] (files w !! ofs_path out) ++ pre]> (files w)
     ∨ files w' = files w ∧ ofs_good out' = false).
Proof.
  unfold write, append_to, set_files. unfold_st. destruct (ofs_good out) eqn:G; cycle 1.
  { intros; simplify_eq/=. repeat split; [congruence|]. exists [].
    split; [apply prefix_nil|]. rewrite G. split; [done|]. by right. }
  pose proof (next_files w) as Hf. destruct (next w) as [o w1]. simpl in Hf.
  destruct o; intros; simplify_eq/=; (split; [done|]); (split; [done|]); rewrite ?Hf.
  - exists data. split; [done|]. split; [done|]. by left.
  - exists (take k data). split; [apply prefix_take|]. split; [done|]. by left.
  - exists data. split; [done|]. split; [done|]. by left.
  - exists []. split; [apply prefix_nil|]. split; [done|]. by right.
Qed.

Lemma flush_spec out w out' w' :
  flush out w = (out', w') →
  ofs_path out' = ofs_path out ∧ files w' = files w ∧
  (ofs_good out' = true → ofs_good out = true).
Proof.
  unfold flush. unfold_st. destruct (ofs_good out) eqn:G; [|intros; simplify_eq; repeat split; congruence].
  pose proof (next_files w) as Hf. destruct (next w) as [o w1]. simpl in Hf.
  intros; by simplify_eq/=.
Qed.

Lemma read_file_files path w : files (read_file path w).2 = files w.
Proof.
  unfold read_file. unfold_st. pose proof (next_files w) as Hf.
  destruct (next w) as [o w1]. by destruct (succeeds o).
Qed.

Lemma read_file_Some path w c w' :
  read_file path w = (Some c, w') → files w !! path = Some c ∧ files w' = files w.
Proof.
  unfold read_file. unfold_st. pose proof (next_files w) as Hf.
  destruct (next w) as [o w1]. simpl in Hf.
  destruct (succeeds o); intros; simplify_eq/=. by rewrite <-Hf.
Qed.

Lemma rename_spec from to w r w' :
  rename from to w = (r, w') →
  if r then ∃ c, files w !! from = Some c ∧ files w' = <[to := c]> (delete from (files w))
  else files w' = files w.
Proof.
  unfold rename, set_files. unfold_st. pose proof (next_files w) as Hf.
  destruct (next w) as [o w1]. simpl in Hf.
  destruct (files w1 !! from) eqn:E; [destruct (succeeds o)|]; intros; simplify_eq/=; [|done..].
  rewrite <-Hf. eauto.
Qed.

Lemma remove_spec path w r w' :
  remove path w = (r, w') →
  files w' = if r then delete path (files w) else files w.
Proof.
  unfold remove, set_files. unfold_st. pose proof (next_files w) as Hf.
  destruct (next w) as [o w1]. simpl in Hf.
  destruct (files w1 !! path) eqn:E; [destruct (succeeds o)|]; intros; simplify_eq/=; by rewrite ?Hf.
Qed.

(** ** The failure-free world *)

Section NoFault.
Context (w : World) (Hw : faults w = []).

Lemma open_trunc_ok path :
  open_trunc path w = (mkOfs path true, mkWorld (<[path := []]> (files w)) []).
Proof using Hw.
  unfold open_trunc. unfold_st. rewrite next_nofault by done. simpl.
  unfold set_files, modify. by rewrite Hw.
Qed.

Lemma open_app_ok path :
  open_app path w =
  (mkOfs path true, mkWorld (<[path := default [] (files w !! path)]> (files w)) []).
Proof using Hw.
  unfold open_app. unfold_st. rewrite next_nofault by done. simpl.
  unfold set_files, modify. by rewrite Hw.
Qed.

Lemma write_ok path data :
  write (mkOfs path true) data w =
  (mkOfs path true, mkWorld (<[path := default [] (files w !! path) ++ data]> (files w)) []).
Proof using Hw.
  unfold write. unfold_st. simpl. rewrite next_nofault by done. simpl.
  unfold append_to, set_files, modify. by rewrite Hw.
Qed.

Lemma flush_ok path : flush (mkOfs path true) w = (mkOfs path true, w).
Proof using Hw. unfold flush. unfold_st. simpl. by rewrite next_nofault. Qed.

Lemma read_file_ok path : read_file path w = (files w !! path, w).
Proof using Hw. unfold read_file. unfold_st. by rewrite next_nofault. Qed.

Lemma rename_ok from to c :
  files w !! from = Some c →
  rename from to w = (true, mkWorld (<[to := c]> (delete from (files w))) []).
Proof using Hw.
  intros E. unfold rename. unfold_st. rewrite next_nofault by done. rewrite E. simpl.
  unfold set_files, modify. by rewrite Hw.
Qed.

Lemma remove_ok path :
  remove path w =
  match files w !! path with
  | Some _ => (true, mkWorld (delete path (files w)) [])
  | None => (false, w)
  end.
Proof using Hw.
  unfold remove. unfold_st. rewrite next_nofault by done.
  destruct (files w !! path); simpl; [|done]. unfold set_files, modify. by rewrite Hw.
Qed.
End NoFault.

End FileSystem.
