(* ===== verification/MemTable.v ===== *)
(** * Versions, lookup results and the MemTable

    Models [version.h], [lookup_result.h] and [memtable.{h,cpp}].  The mutex of
    a MemTable makes each operation atomic, so an operation is one function of
    the table. *)

From S2P Require Import Prelude CxxString OrdMap.

(** [Timestamp] is [uint64_t]. *)
Abbreviation Timestamp := N (only parsing).

Record Version := mkVersion { timestamp : Timestamp; value : option str }.

Definition is_tombstone (v : Version) : bool :=
  match value v with None => true | Some _ => false end.

Inductive LookupState := NotFound | Value | Tombstone.
Record LookupResult := mkLookup { state : LookupState; result : option str }.

Definition not_found : LookupResult := mkLookup NotFound None.
Definition found_value (v : str) : LookupResult := mkLookup Value (Some v).
Definition tombstone : LookupResult := mkLookup Tombstone None.

#[export] Instance Version_eq_dec : EqDecision Version.
Proof. solve_decision. Defined.
#[export] Instance LookupState_eq_dec : EqDecision LookupState.
Proof. solve_decision. Defined.
#[export] Instance LookupResult_eq_dec : EqDecision LookupResult.
Proof. solve_decision. Defined.

(** [MemTable::Entries = std::map<std::string, std::vector<Version>>]. *)
Abbreviation Entries := (list (str * list Version)).

(** [sizeof(Version)] is chosen by the ABI; [sizeof(Timestamp)] is 8. *)
Class Abi := sizeof_Version : N.
Definition sizeof_Timestamp : N := 8.
(** The 64-bit libstdc++ value: 8 bytes and an [optional] of a 32-byte string. *)
Definition libstdcxx_abi : Abi := 48%N.

Module MemTable.

Record MemTable := mkMemTable {
  entries_ : Entries;
  approximate_size_bytes_ : N;
}.

Definition empty_table : MemTable := mkMemTable [] 0.

Section Operations.
Context `{Abi}.

Definition size (s : str) : N := N.of_nat (length s).

(** [entries\[key\].push_back(v)]. *)
Definition push_back (key : str) (v : Version) (e : Entries) : Entries :=
  OrdMap.update key (λ o, default [] o ++ [v]) e.

Definition put (key : str) (ts : Timestamp) (val : str) (m : MemTable) : MemTable :=
  mkMemTable
    (push_back key (mkVersion ts (Some val)) (entries_ m))
    (wrap64 (approximate_size_bytes_ m +
             (size key + size val + sizeof_Timestamp + sizeof_Version))).

Definition del (key : str) (ts : Timestamp) (m : MemTable) : MemTable :=
  mkMemTable
    (push_back key (mkVersion ts None) (entries_ m))
    (wrap64 (approximate_size_bytes_ m +
             (size key + sizeof_Timestamp + sizeof_Version))).

(** The loop over the versions from the newest to the oldest. *)
Fixpoint scan (read_timestamp : Timestamp) (newest_first : list Version) : LookupResult :=
  match newest_first with
  | [] => not_found
  | v :: older =>
      if (timestamp v <=? read_timestamp)%N then
        match value v with
        | None => tombstone
        | Some s => found_value s
        end
      else scan read_timestamp older
  end.

Definition get_at (key : str) (read_timestamp : Timestamp) (m : MemTable) : LookupResult :=
  match OrdMap.find key (entries_ m) with
  | None => not_found
  | Some versions => scan read_timestamp (reverse versions)
  end.

Definition key_count (m : MemTable) : N := N.of_nat (length (entries_ m)).
Definition approximate_size_bytes (m : MemTable) : N := approximate_size_bytes_ m.
Definition empty (m : MemTable) : bool :=
  match entries_ m with [] => true | _ => false end.
Definition clear (m : MemTable) : MemTable := mkMemTable [] 0.
Definition snapshot_entries (m : MemTable) : Entries := entries_ m.
Definition take_entries (m : MemTable) : Entries * MemTable :=
  (entries_ m, mkMemTable [] 0).

(** ** Specification *)

(** All versions of a key, oldest first. *)
Definition versions_of (key : str) (e : Entries) : list Version :=
  default [] (OrdMap.find key e).

(** The visibility rule: the newest version not newer than the read. *)
Definition visible (vs : list Version) (t : Timestamp) (v : Version) : Prop :=
  v ∈ vs ∧ (timestamp v ≤ t)%N ∧
  ∀ v', v' ∈ vs → (timestamp v' ≤ t)%N → (timestamp v' ≤ timestamp v)%N.

Definition result_of (v : Version) : LookupResult :=
  match value v with None => tombstone | Some s => found_value s end.

Definition older (v1 v2 : Version) : Prop := (timestamp v1 < timestamp v2)%N.
Definition ordered (vs : list Version) : Prop := StronglySorted older vs.

(** Bytes accounted to one key and its versions. *)
Definition version_bytes (key : str) (v : Version) : N :=
  size key + match value v with Some s => size s | None => 0 end +
  sizeof_Timestamp + sizeof_Version.
Definition binding_bytes (b : str * list Version) : N :=
  foldr (λ v n, version_bytes b.1 v + n)%N 0%N b.2.
Definition entries_bytes (e : Entries) : N :=
  foldr (λ b n, binding_bytes b + n)%N 0%N e.

(** Well-formed entries: keys strictly increasing, every key has a version,
    versions strictly increasing in time. *)
Record wf_entries (e : Entries) : Prop := mkWfEntries {
  wf_sorted : OrdMap.sorted e;
  wf_versions : Forall (λ b, b.2 ≠ [] ∧ ordered b.2) e;
}.

Record wf (m : MemTable) : Prop := mkWf {
  wf_ents : wf_entries (entries_ m);
  wf_size : approximate_size_bytes_ m = wrap64 (entries_bytes (entries_ m));
}.

(** [t] is newer than everything stored under [key]. *)
Definition newer (key : str) (t : Timestamp) (e : Entries) : Prop :=
  ∀ v, v ∈ versions_of key e → (timestamp v < t)%N.

(** ** Lemmas *)

Lemma scan_visible t vs v :
  ordered vs → visible vs t v → scan t (reverse vs) = result_of v.
Proof.
  induction vs as [|x vs IH] using rev_ind; intros Ho (Hin & Hle & Hmax).
  - by apply not_elem_of_nil in Hin.
  - rewrite reverse_app. simpl. unfold ordered in Ho.
    apply StronglySorted_app in Ho as (Hlt & Ho & _).
    destruct (N.leb_spec (timestamp x) t) as [Hx|Hx].
    + assert (v = x) as ->; [|done].
      apply elem_of_app in Hin as [Hin|Hin%list_elem_of_singleton]; [|done].
      exfalso. specialize (Hlt v x Hin (list_elem_of_here _ _)). unfold older in Hlt.
      specialize (Hmax x). rewrite elem_of_app, list_elem_of_singleton in Hmax.
      specialize (Hmax (or_intror eq_refl) Hx). lia.
    + apply IH; [done|]. split_and!; [|done|].
      * apply elem_of_app in Hin as [?|Hin%list_elem_of_singleton]; [done|]. subst. lia.
      * intros v' Hv'. apply Hmax. apply elem_of_app. by left.
Qed.

Lemma scan_app t l1 l2 :
  scan t (l1 ++ l2) =
    if decide (Exists (λ v, timestamp v ≤ t)%N l1) then scan t l1 else scan t l2.
Proof.
  induction l1 as [|v l1 IH]; cbn [app scan].
  - rewrite decide_False; [done|]. by intros ?%Exists_nil.
  - destruct (N.leb_spec (timestamp v) t).
    + rewrite decide_True; [done|]. by left.
    + rewrite IH. repeat case_decide; try done.
      * exfalso. match goal with Hn : ¬ Exists _ (_ :: _) |- _ => apply Hn; by right end.
      * match goal with Hn : Exists _ (_ :: _) |- _ => apply Exists_cons in Hn as [?|?] end; [lia|done].
Qed.

Lemma Exists_rev (P : Version → Prop) vs : Exists P (reverse vs) ↔ Exists P vs.
Proof. rewrite !Exists_exists. by setoid_rewrite elem_of_reverse. Qed.

(** Splitting off the oldest version. *)
Lemma scan_reverse_cons t v vs :
  scan t (reverse (v :: vs)) =
    if decide (Exists (λ v, timestamp v ≤ t)%N vs) then scan t (reverse vs)
    else if (timestamp v <=? t)%N then result_of v else not_found.
Proof.
  rewrite reverse_cons, scan_app.
  destruct (decide (Exists (λ v, timestamp v ≤ t)%N vs)).
  - rewrite decide_True; [done|by apply Exists_rev].
  - rewrite decide_False; [done|by rewrite Exists_rev].
Qed.

Lemma scan_none t vs :
  (∀ v, v ∈ vs → (t < timestamp v)%N) → scan t vs = not_found.
Proof.
  induction vs as [|x vs IH]; intros Hv; simpl; [done|].
  rewrite (proj2 (N.leb_gt _ _)) by (apply Hv; by left).
  apply IH. intros. apply Hv. by right.
Qed.

Lemma visible_dec vs t :
  (∃ v, visible vs t v) ∨ (∀ v, v ∈ vs → (t < timestamp v)%N).
Proof.
  induction vs as [|x vs IH]; [right; intros v Hv; inversion Hv|].
  destruct IH as [(v & Hin & Hle & Hmax)|Hnone].
  - left. destruct (N.leb_spec (timestamp x) t); [destruct (N.leb_spec (timestamp x) (timestamp v))|].
    + exists v. split_and!; [by right|done|]. intros v' [->|?]%elem_of_cons; auto.
    + exists x. split_and!; [by left|done|]. intros v' [->|Hv']%elem_of_cons ?; [lia|].
      specialize (Hmax v' Hv'). lia.
    + exists v. split_and!; [by right|done|]. intros v' [->|?]%elem_of_cons; [lia|auto].
  - destruct (N.leb_spec (timestamp x) t).
    + left. exists x. split_and!; [by left|done|].
      intros v' [->|Hv']%elem_of_cons ?; [lia|]. specialize (Hnone v' Hv'). lia.
    + right. intros v [->|?]%elem_of_cons; auto.
Qed.

Lemma get_at_versions key t m :
  get_at key t m = scan t (reverse (versions_of key (entries_ m))).
Proof. unfold get_at, versions_of. by destruct (OrdMap.find key _). Qed.

Lemma versions_of_ordered key e : wf_entries e → ordered (versions_of key e).
Proof.
  intros [_ Hv]. unfold versions_of. destruct (OrdMap.find key e) as [vs|] eqn:E; [|constructor].
  apply OrdMap.find_Some_elem in E. rewrite Forall_forall in Hv. by apply Hv in E as [_ ?].
Qed.

Lemma versions_of_push key k2 v e :
  OrdMap.sorted e →
  versions_of k2 (push_back key v e) =
    if decide (key = k2) then versions_of k2 e ++ [v] else versions_of k2 e.
Proof.
  intros S. unfold versions_of, push_back. rewrite OrdMap.find_update by done.
  case_decide; by subst.
Qed.

Lemma newer_app key t e : newer key t e ↔ Forall (λ v, timestamp v < t)%N (versions_of key e).
Proof. unfold newer. by rewrite Forall_forall. Qed.

Lemma ordered_snoc vs v :
  ordered vs → Forall (λ v', timestamp v' < timestamp v)%N vs → ordered (vs ++ [v]).
Proof.
  intros Ho Hn. apply StronglySorted_app. split_and!; [|done|repeat constructor].
  intros x y Hx ->%list_elem_of_singleton. rewrite Forall_forall in Hn. by apply Hn.
Qed.

Lemma push_back_wf key v e :
  wf_entries e → newer key (timestamp v) e → wf_entries (push_back key v e).
Proof.
  intros [S Hv] Hn. split; [by apply OrdMap.sorted_update|].
  apply Forall_forall. intros [k vs] Hin.
  apply OrdMap.find_update_value in Hin as [Hin|(-> & o & -> & Ho)].
  - rewrite Forall_forall in Hv. by apply Hv.
  - split; [by destruct (default [] o)|]. simpl.
    destruct Ho as [->|(vs & -> & Hin)]; [repeat constructor|].
    apply OrdMap.elem_find in Hin; [|done]. simpl.
    apply newer_app in Hn. unfold versions_of in Hn. rewrite Hin in Hn.
    apply ordered_snoc; [|done]. apply OrdMap.find_Some_elem in Hin.
    rewrite Forall_forall in Hv. by apply Hv in Hin as [_ ?].
Qed.

(** In time-ordered versions a timestamp identifies its version. *)
Lemma ordered_inj vs v1 v2 :
  ordered vs → v1 ∈ vs → v2 ∈ vs → timestamp v1 = timestamp v2 → v1 = v2.
Proof.
  induction 1 as [|v vs Ho IH F]; [by intros ?%not_elem_of_nil|].
  rewrite Forall_forall in F. unfold older in F.
  intros [->|H1]%elem_of_cons [->|H2]%elem_of_cons E; auto.
  - specialize (F _ H2). lia.
  - specialize (F _ H1). lia.
Qed.

Lemma binding_bytes_snoc key vs v :
  binding_bytes (key, vs ++ [v]) = (binding_bytes (key, vs) + version_bytes key v)%N.
Proof. unfold binding_bytes. simpl. induction vs as [|x vs IH]; simpl; lia. Qed.

Lemma entries_bytes_push key v e :
  entries_bytes (push_back key v e) = (entries_bytes e + version_bytes key v)%N.
Proof.
  unfold push_back. induction e as [|[k vs] e IH]; cbn [OrdMap.update].
  - unfold entries_bytes, binding_bytes. simpl. lia.
  - destruct (CxxString.compare key k) eqn:E.
    + apply CxxString.compare_eq in E as ->. unfold entries_bytes. cbn [foldr].
      change (default [] (Some vs)) with vs. rewrite binding_bytes_snoc. lia.
    + unfold entries_bytes, binding_bytes. simpl. lia.
    + unfold entries_bytes in *. cbn [foldr]. rewrite IH. lia.
Qed.

Lemma wrap_add_l w a b : wrap w (wrap w a + b) = wrap w (a + b).
Proof. unfold wrap. apply N.Div0.add_mod_idemp_l. Qed.

Lemma put_version_bytes key ts val :
  version_bytes key (mkVersion ts (Some val)) =
  (size key + size val + sizeof_Timestamp + sizeof_Version)%N.
Proof. done. Qed.

Lemma del_version_bytes key ts :
  version_bytes key (mkVersion ts None) = (size key + sizeof_Timestamp + sizeof_Version)%N.
Proof. unfold version_bytes. simpl. lia. Qed.

Lemma put_wf key ts val m : wf m → newer key ts (entries_ m) → wf (put key ts val m).
Proof.
  intros [We Ws] Hn. split; simpl; [by apply push_back_wf|].
  by rewrite Ws, entries_bytes_push, wrap_add_l, put_version_bytes.
Qed.

Lemma del_wf key ts m : wf m → newer key ts (entries_ m) → wf (del key ts m).
Proof.
  intros [We Ws] Hn. split; simpl; [by apply push_back_wf|].
  by rewrite Ws, entries_bytes_push, wrap_add_l, del_version_bytes.
Qed.

Lemma empty_wf : wf empty_table.
Proof. repeat constructor. Qed.

(** A read after appending a newer version: at or after its time it sees the
    new version, before it nothing changed. *)
Lemma scan_snoc t vs v :
  scan t (reverse (vs ++ [v])) =
    if (timestamp v <=? t)%N then result_of v else scan t (reverse vs).
Proof. by rewrite reverse_app. Qed.

Lemma get_at_put key k2 ts val t m :
  OrdMap.sorted (entries_ m) →
  get_at k2 t (put key ts val m) =
    if decide (key = k2 ∧ (ts ≤ t)%N) then found_value val else get_at k2 t m.
Proof.
  intros S. rewrite !get_at_versions. simpl. rewrite versions_of_push by done.
  case_decide as Hk; subst.
  - rewrite scan_snoc. simpl. destruct (N.leb_spec ts t).
    + by rewrite decide_True.
    + rewrite decide_False by lia. done.
  - by rewrite decide_False by naive_solver.
Qed.

Lemma get_at_del key k2 ts t m :
  OrdMap.sorted (entries_ m) →
  get_at k2 t (del key ts m) =
    if decide (key = k2 ∧ (ts ≤ t)%N) then tombstone else get_at k2 t m.
Proof.
  intros S. rewrite !get_at_versions. simpl. rewrite versions_of_push by done.
  case_decide as Hk; subst.
  - rewrite scan_snoc. simpl. destruct (N.leb_spec ts t).
    + by rewrite decide_True.
    + rewrite decide_False by lia. done.
  - by rewrite decide_False by naive_solver.
Qed.

(** ** The table as a log of writes *)

(** A write: its key, its time, and its value unless it deletes. *)
Record Write := mkWrite { w_key : str; w_version : Version }.

Definition apply_write (m : MemTable) (x : Write) : MemTable :=
  match value (w_version x) with
  | Some s => put (w_key x) (timestamp (w_version x)) s m
  | None => del (w_key x) (timestamp (w_version x)) m
  end.

Definition run_writes (xs : list Write) : MemTable := foldl apply_write empty_table xs.

(** What a reader at [t] expects of a history: the last write to the key that is
    not newer than [t]. *)
Definition lookup_log (key : str) (t : Timestamp) (xs : list Write) : LookupResult :=
  match last (filter (λ x, w_key x = key ∧ timestamp (w_version x) ≤ t)%N xs) with
  | Some x => result_of (w_version x)
  | None => not_found
  end.

Lemma apply_write_entries m x :
  entries_ (apply_write m x) = push_back (w_key x) (w_version x) (entries_ m).
Proof. destruct x as [k [ts [s|]]]; done. Qed.

Lemma apply_write_get x key t m :
  OrdMap.sorted (entries_ m) →
  get_at key t (apply_write m x) =
    if decide (w_key x = key ∧ (timestamp (w_version x) ≤ t)%N)
    then result_of (w_version x) else get_at key t m.
Proof.
  intros S. destruct x as [k [ts [s|]]]; unfold apply_write; cbn [w_version value w_key timestamp].
  - by rewrite get_at_put.
  - by rewrite get_at_del.
Qed.

Lemma apply_write_wf x m :
  wf m → newer (w_key x) (timestamp (w_version x)) (entries_ m) → wf (apply_write m x).
Proof.
  intros Hm Hn. destruct x as [k [ts [s|]]]; unfold apply_write; cbn in *; [by apply put_wf|by apply del_wf].
Qed.

(** Every stored version comes from a write. *)
Lemma run_writes_versions xs key v :
  OrdMap.sorted (entries_ (run_writes xs)) ∧
  (v ∈ versions_of key (entries_ (run_writes xs)) → mkWrite key v ∈ xs).
Proof.
  induction xs as [|x xs [S IH]] using rev_ind.
  { split; [constructor|]. intros Hin. by apply not_elem_of_nil in Hin. }
  unfold run_writes. rewrite foldl_app. cbn [foldl]. fold (run_writes xs).
  rewrite apply_write_entries. split; [by apply OrdMap.sorted_update|].
  rewrite versions_of_push by done. rewrite elem_of_app, list_elem_of_singleton.
  case_decide as Hk; [|by intros; left; apply IH].
  rewrite elem_of_app, list_elem_of_singleton. intros [Hv| ->]; [by left; apply IH|].
  right. destruct x. by subst.
Qed.


(** A sequence of writes with increasing timestamps. *)
Lemma run_writes_log xs :
  StronglySorted (λ x y, timestamp (w_version x) < timestamp (w_version y))%N xs →
  wf (run_writes xs) ∧
  ∀ key t, get_at key t (run_writes xs) = lookup_log key t xs.
Proof.
  induction xs as [|x xs IH] using rev_ind; intros S.
  { split; [apply empty_wf|done]. }
  apply StronglySorted_app in S as (Hlt & S & _). destruct (IH S) as [Hwf Hget].
  unfold run_writes. rewrite foldl_app. cbn [foldl]. fold (run_writes xs). split.
  - apply apply_write_wf; [done|]. intros v Hv. apply run_writes_versions in Hv.
    by apply (Hlt _ x Hv), list_elem_of_here.
  - intros key t. rewrite apply_write_get by apply Hwf. rewrite Hget.
    unfold lookup_log. rewrite filter_app. case_decide as Hc.
    + rewrite filter_cons_True, filter_nil by done. by rewrite last_snoc.
    + rewrite filter_cons_False, filter_nil by done. by rewrite app_nil_r.
Qed.

End Operations.
(** ** Properties *)

(** C25: The MemTable refines the log of its writes.  After any sequence of puts
    and deletes with increasing timestamps the table is well formed, accounts
    its size exactly (modulo 2^64), and a read of any key at any time returns
    what the last write to the key not newer than the read left, a tombstone
    included. *)
Theorem memtable_refines_log `{Abi} xs :
  StronglySorted (λ x y, timestamp (w_version x) < timestamp (w_version y))%N xs →
  wf (run_writes xs) ∧
  ∀ key t, get_at key t (run_writes xs) = lookup_log key t xs.
Proof. apply run_writes_log. Qed.

Lemma memtable_refines_log_witness :
  let xs := [mkWrite (b# "k") (mkVersion 1 (Some (b# "v"))); mkWrite (b# "j") (mkVersion 2 (Some (b# "w")));
             mkWrite (b# "k") (mkVersion 3 None)] in
  @wf libstdcxx_abi (@run_writes libstdcxx_abi xs) ∧
  get_at (b# "k") 2 (@run_writes libstdcxx_abi xs) = found_value (b# "v") ∧
  get_at (b# "k") 3 (@run_writes libstdcxx_abi xs) = tombstone.
Proof.
  cbv zeta. destruct (@memtable_refines_log libstdcxx_abi
    [mkWrite (b# "k") (mkVersion 1 (Some (b# "v"))); mkWrite (b# "j") (mkVersion 2 (Some (b# "w")));
     mkWrite (b# "k") (mkVersion 3 None)]) as [Hwf Hget].
  - repeat constructor; done.
  - split; [exact Hwf|]. rewrite !Hget. split; vm_compute; reflexivity.
Defined.

End MemTable.

#[export] Hint Resolve MemTable.put_wf MemTable.del_wf MemTable.empty_wf
  MemTable.push_back_wf : veristore.
