(* ===== verification/BloomFilter.v ===== *)
(** * The Bloom filter

    Models [bloom_filter.{h,cpp}]: the bit array as a vector of bytes, the
    seeded FNV-1a hash with its 64-bit wrap-around, [add] and
    [possibly_contains]. *)

From S2P Require Import Prelude.

Module BloomFilter.

Record BloomFilter := mkBloom {
  bit_count_ : N;
  hash_count_ : N;
  bits_ : list N;       (** [std::vector<std::uint8_t>] *)
}.

(** ** Operations *)

Definition make (bit_count hash_count : N) : BloomFilter :=
  let bc := N.max bit_count 8 in
  mkBloom bc (N.max hash_count 1) (replicate (N.to_nat (wrap64 (bc + 7) / 8)) 0%N).

Definition hash_step (hash : N) (byte : ascii) : N :=
  wrap64 (N.lxor hash (code byte) * 1099511628211).

Definition hash_with_seed (key : str) (seed : N) : N :=
  let hash := N.lxor 1469598103934665603 seed in
  let hash := foldl hash_step hash key in
  let hash := N.lxor hash (N.shiftr hash 33) in
  let hash := wrap64 (hash * 0xff51afd7ed558ccd) in
  N.lxor hash (N.shiftr hash 33).

(** [static_cast<uint8_t>(1U << bit_offset)]. *)
Definition bit_mask (bit_offset : N) : N := wrap8 (N.shiftl 1 bit_offset).

Definition set_bit (bit_index : N) (bits : list N) : list N :=
  let byte_index := N.to_nat (bit_index / 8) in
  let bit_offset := (bit_index mod 8)%N in
  alter (λ b, wrap8 (N.lor b (bit_mask bit_offset))) byte_index bits.

Definition get_bit (bit_index : N) (bits : list N) : bool :=
  let byte_index := N.to_nat (bit_index / 8) in
  let bit_offset := (bit_index mod 8)%N in
  negb (N.land (default 0%N (bits !! byte_index)) (bit_mask bit_offset) =? 0)%N.

(** The bit probed by the [i]-th hash function. *)
Definition probe (f : BloomFilter) (key : str) (i : N) : N :=
  (hash_with_seed key (wrap64 (0x9e3779b97f4a7c15 * wrap64 (i + 1))) mod bit_count_ f)%N.

(** The loop counter's values [0 .. hash_count_ - 1]. *)
Definition rounds (f : BloomFilter) : list N :=
  N.of_nat <$> seq 0 (N.to_nat (hash_count_ f)).

Definition add (key : str) (f : BloomFilter) : BloomFilter :=
  mkBloom (bit_count_ f) (hash_count_ f)
    (foldl (λ bits i, set_bit (probe f key i) bits) (bits_ f) (rounds f)).

Definition possibly_contains (key : str) (f : BloomFilter) : bool :=
  forallb (λ i, get_bit (probe f key i) (bits_ f)) (rounds f).

Definition bit_count (f : BloomFilter) : N := bit_count_ f.
Definition hash_count (f : BloomFilter) : N := hash_count_ f.

(** ** Invariant: the array holds every bit index below [bit_count_], bytes
    are bytes, and the constructor's clamps hold. *)
Record wf (f : BloomFilter) : Prop := mkWf {
  wf_count : (8 ≤ bit_count_ f)%N;
  wf_hashes : (1 ≤ hash_count_ f)%N;
  wf_length : N.of_nat (length (bits_ f)) = ((bit_count_ f + 7) / 8)%N;
  wf_bytes : Forall (fits 8) (bits_ f);
}.

(** ** Lemmas *)

Lemma byte_index_lt f i :
  wf f → (i < bit_count_ f)%N → N.to_nat (i / 8) < length (bits_ f).
Proof.
  intros [H8 _ Hl _] Hi.
  pose proof (N.div_mod' i 8) as E1. pose proof (N.mod_lt i 8 ltac:(done)).
  pose proof (N.div_mod' (bit_count_ f + 7) 8) as E2.
  pose proof (N.mod_lt (bit_count_ f + 7) 8 ltac:(done)).
  rewrite <-Hl in E2. clear Hl.
  set (q := (i / 8)%N) in *. set (r := (i mod 8)%N) in *.
  set (r2 := ((bit_count_ f + 7) mod 8)%N) in *. clearbody q r r2. lia.
Qed.

Lemma bit_mask_pow o : (o < 8)%N → bit_mask o = (2 ^ o)%N.
Proof.
  intros. unfold bit_mask. rewrite N.shiftl_1_l. apply wrap_fits.
  unfold fits. apply N.pow_lt_mono_r; lia.
Qed.

Lemma mod8_lt i : (i mod 8 < 8)%N.
Proof. by apply N.mod_lt. Qed.

Lemma get_bit_testbit i bits :
  get_bit i bits = N.testbit (default 0%N (bits !! N.to_nat (i / 8))) (i mod 8).
Proof.
  unfold get_bit. rewrite bit_mask_pow by apply mod8_lt.
  by rewrite land_pow2_testbit, negb_involutive.
Qed.

Lemma get_set_bit i j bits :
  N.to_nat (i / 8) < length bits →
  get_bit j (set_bit i bits) = (i =? j)%N || get_bit j bits.
Proof.
  intros Hl. rewrite !get_bit_testbit. unfold set_bit.
  rewrite bit_mask_pow by apply mod8_lt.
  destruct (decide (N.to_nat (i / 8) = N.to_nat (j / 8))) as [E|E].
  - rewrite <-E, list_lookup_alter, decide_True by done.
    apply lookup_lt_is_Some in Hl as [b ->]. simpl.
    rewrite testbit_wrap, N.lor_spec.
    rewrite (proj2 (N.ltb_lt _ _) (mod8_lt j)). simpl.
    destruct (N.eqb_spec i j) as [->|Hij].
    + by rewrite N.pow2_bits_true, orb_true_r.
    + rewrite N.pow2_bits_false; [by rewrite orb_false_r|]. intros Hm. apply Hij.
      pose proof (N.div_mod' i 8). pose proof (N.div_mod' j 8). lia.
  - rewrite list_lookup_alter, decide_False by done.
    destruct (N.eqb_spec i j) as [->|]; [done|]. done.
Qed.

Lemma set_bit_length i bits : length (set_bit i bits) = length bits.
Proof. apply length_alter. Qed.

Lemma set_bit_bytes i bits : Forall (fits 8) bits → Forall (fits 8) (set_bit i bits).
Proof. intros H. apply Forall_alter; [done|]. intros. apply fits_wrap. Qed.

Lemma probe_lt f key i : wf f → (probe f key i < bit_count_ f)%N.
Proof. intros [H _ _ _]. apply N.mod_lt. lia. Qed.

(** [add] sets the probed bits and only those. *)
Lemma add_bits f key j (l : list N) bits :
  (∀ i, i ∈ l → N.to_nat (probe f key i / 8) < length bits) →
  get_bit j (foldl (λ bits i, set_bit (probe f key i) bits) bits l) =
    existsb (λ i, probe f key i =? j)%N l || get_bit j bits.
Proof.
  revert bits. induction l as [|i l IH]; intros bits Hl; simpl; [done|].
  rewrite IH.
  - rewrite get_set_bit by (apply Hl; by left).
    by rewrite orb_assoc, (orb_comm (existsb _ _)).
  - intros. rewrite set_bit_length. apply Hl. by right.
Qed.

Lemma get_bit_add f key j :
  wf f →
  get_bit j (bits_ (add key f)) =
    existsb (λ i, probe f key i =? j)%N (rounds f) || get_bit j (bits_ f).
Proof.
  intros Hf. apply add_bits. intros. apply byte_index_lt; [done|]. by apply probe_lt.
Qed.

Lemma foldl_set_bit_length f key l bits :
  length (foldl (λ bits i, set_bit (probe f key i) bits) bits l) = length bits.
Proof.
  revert bits. induction l as [|i l IH]; intros bits; simpl; [done|].
  by rewrite IH, set_bit_length.
Qed.

Lemma foldl_set_bit_bytes f key l bits :
  Forall (fits 8) bits →
  Forall (fits 8) (foldl (λ bits i, set_bit (probe f key i) bits) bits l).
Proof.
  revert bits. induction l as [|i l IH]; intros bits Hb; simpl; [done|].
  apply IH. by apply set_bit_bytes.
Qed.

Lemma add_wf key f : wf f → wf (add key f).
Proof.
  intros [H1 H2 H3 H4]. split; simpl; [done|done| |by apply foldl_set_bit_bytes].
  by rewrite foldl_set_bit_length.
Qed.

Lemma make_wf bc hc : (N.max bc 8 + 7 < 2 ^ 64)%N → wf (make bc hc).
Proof.
  intros H. split; simpl; [lia|lia| |].
  - rewrite length_replicate, wrap_fits by done. lia.
  - by apply Forall_replicate.
Qed.

(** The membership test after insertions, key by key. *)
Lemma contains_add_self key f : wf f → possibly_contains key (add key f) = true.
Proof.
  intros Hf. apply forallb_forall. intros i Hi. rewrite get_bit_add by done.
  apply orb_true_iff. left. apply existsb_exists. exists i. split; [done|].
  apply N.eqb_refl.
Qed.

Lemma contains_add_mono key k2 f :
  wf f → possibly_contains key f = true → possibly_contains key (add k2 f) = true.
Proof.
  unfold possibly_contains. rewrite !forallb_forall. intros Hf H i Hi.
  rewrite get_bit_add by done. apply orb_true_iff. right. by apply H.
Qed.

Definition add_all (keys : list str) (f : BloomFilter) : BloomFilter :=
  foldl (λ f k, add k f) f keys.

Lemma add_all_wf keys f : wf f → wf (add_all keys f).
Proof.
  revert f. induction keys as [|k keys IH]; intros f Hf; simpl; [done|].
  apply IH. by apply add_wf.
Qed.

Lemma add_all_contains keys f key :
  wf f → key ∈ keys ∨ possibly_contains key f = true →
  possibly_contains key (add_all keys f) = true.
Proof.
  revert f. induction keys as [|k keys IH]; intros f Hf; simpl.
  - intros [H|H]; [by apply not_elem_of_nil in H|done].
  - rewrite elem_of_cons. intros [[->|H]|H]; apply IH; try (by apply add_wf); auto.
    + right. by apply contains_add_self.
    + right. by apply contains_add_mono.
Qed.

(** ** Properties *)

(** C35: A Bloom filter has no false negatives, and its accesses stay in bounds.
    From the constructor on, whatever its arguments and whatever keys are added,
    the filter is well formed, every bit a key probes lies in the array, and
    every added key is reported as possibly contained. *)
Theorem bloom_no_false_negatives bc hc keys :
  (N.max bc 8 + 7 < 2 ^ 64)%N →
  let f := add_all keys (make bc hc) in
  wf f ∧
  (∀ key i, N.to_nat (probe f key i / 8) < length (bits_ f)) ∧
  (∀ key, key ∈ keys → possibly_contains key f = true).
Proof.
  intros Hb. cbv zeta. assert (W : wf (add_all keys (make bc hc))) by (by apply add_all_wf, make_wf).
  split_and!; [done| |].
  - intros key i. apply byte_index_lt; [done|]. by apply probe_lt.
  - intros key Hk. apply add_all_contains; [by apply make_wf|by left].
Qed.

Lemma bloom_no_false_negatives_witness :
  possibly_contains (list_ascii_of_string "a") (add_all [list_ascii_of_string "a"] (make 64 3)) = true.
Proof.
  apply (proj2 (proj2 (bloom_no_false_negatives 64 3 [list_ascii_of_string "a"] eq_refl))).
  apply list_elem_of_here.
Defined.

End BloomFilter.

#[export] Hint Resolve BloomFilter.add_wf BloomFilter.make_wf BloomFilter.add_all_wf : veristore.
