(* ===== verification/SSTable.v ===== *)
(** * SSTable files: the writer and the row format

    Models [sstable.{h,cpp}] and the row parsing that [sstable_reader.cpp],
    [sstable_index.cpp] and [compactor.cpp] share: one line per version,
    [key TAB timestamp TAB P TAB value] or [key TAB timestamp TAB D]. *)

From S2P Require Import Prelude CxxString OrdMap FileSystem MemTable.
Import CxxString.

Module SSTable.

(** ** Writing *)

(** What the chained [out <<] of one version prints. *)
Definition record (key : str) (v : Version) : str :=
  key ++ [tab] ++ dec (timestamp v) ++ [tab] ++
  (if is_tombstone v then b# "D"
   else b# "P" ++ [tab] ++ default [] (value v)) ++ [nl].

(** The versions in the order the two nested loops visit them. *)
Definition flatten (e : Entries) : list (str * Version) :=
  e ≫= λ b, (λ v, (b.1, v)) <$> b.2.

Fixpoint write_records (rs : list (str * Version)) (out : ofstream) : io (option ofstream) :=
  match rs with
  | [] => mret (Some out)
  | (key, v) :: rs' =>
      out ← FileSystem.write out (record key v);
      if ofs_good out then write_records rs' out else mret None
  end.

(** [SSTableWriter::write]. *)
Definition write (path : str) (entries : Entries) : io bool :=
  out ← FileSystem.open_trunc path;
  if negb (ofs_good out) then mret false
  else
    o ← write_records (flatten entries) out;
    match o with
    | None => mret false
    | Some out => out ← FileSystem.flush out; mret (ofs_good out)
    end.

(** ** Parsing a row *)

(** [row >> stored_key >> timestamp >> type]: the three fields and the unread
    rest of the line, or a failed extraction. *)
Definition parse_row (line : str) : option (str * Timestamp * ascii * str) :=
  '(key, r1) ← read_word line;
  '(ts, r2) ← read_u64 r1;
  '(ty, r3) ← read_char r2;
  Some (key, ts, ty, r3).

(** [std::getline(row >> std::ws, value)]. *)
Definition row_value (rest : str) : str := (until nl (skip_ws rest)).1.

(** ** Which keys and values the text format can carry *)

Definition key_ok (key : str) : Prop := word key ∧ key ≠ [].
Definition value_ok (s : str) : Prop :=
  nl ∉ s ∧ match s with [] => True | c :: _ => is_space c = false end.
Definition version_ok (v : Version) : Prop :=
  fits 64 (timestamp v) ∧ match value v with None => True | Some s => value_ok s end.
Definition row_ok (r : str * Version) : Prop := key_ok r.1 ∧ version_ok r.2.
Definition entries_ok (e : Entries) : Prop :=
  Forall (λ b, key_ok b.1 ∧ Forall version_ok b.2) e.

#[global] Instance key_ok_dec k : Decision (key_ok k).
Proof. unfold key_ok. apply _. Defined.
#[global] Instance value_ok_dec s : Decision (value_ok s).
Proof. unfold value_ok. destruct s; apply _. Defined.
#[global] Instance version_ok_dec v : Decision (version_ok v).
Proof. unfold version_ok. destruct (value v); apply _. Defined.
#[global] Instance entries_ok_dec e : Decision (entries_ok e).
Proof. unfold entries_ok. apply _. Defined.

(** The file the writer produces: the records' concatenation. *)
Definition render_rows (rs : list (str * Version)) : str :=
  concat ((λ r, record r.1 r.2) <$> rs).
Definition render (e : Entries) : str := render_rows (flatten e).

(** ** Lemmas: writing *)

Lemma render_rows_cons r rs : render_rows (r :: rs) = record r.1 r.2 ++ render_rows rs.
Proof. done. Qed.

Lemma render_rows_app r1 r2 : render_rows (r1 ++ r2) = render_rows r1 ++ render_rows r2.
Proof. unfold render_rows. by rewrite fmap_app, concat_app. Qed.

Lemma flatten_app e1 e2 : flatten (e1 ++ e2) = flatten e1 ++ flatten e2.
Proof. unfold flatten. apply bind_app. Qed.

Lemma flatten_cons k vs e : flatten ((k, vs) :: e) = ((λ v, (k, v)) <$> vs) ++ flatten e.
Proof. done. Qed.

Lemma write_records_spec rs out w o w' (c : str) :
  ofs_good out = true → files w !! ofs_path out = Some c →
  write_records rs out w = (o, w') →
  (∀ p, p ≠ ofs_path out → files w' !! p = files w !! p) ∧
  ∃ pre, pre `prefix_of` render_rows rs ∧ files w' !! ofs_path out = Some (c ++ pre) ∧
    match o with
    | Some out' => pre = render_rows rs ∧ ofs_good out' = true ∧ ofs_path out' = ofs_path out
    | None => True
    end.
Proof.
  revert out w c. induction rs as [|[k v] rs IH]; intros out w c Hg Hc; simpl.
  { unfold_st. intros; simplify_eq. split; [done|]. exists [].
    rewrite app_nil_r. split_and!; eauto using prefix_nil. }
  unfold mbind at 1, ST_bind at 1.
  destruct (FileSystem.write out (record k v) w) as [out1 w1] eqn:E.
  apply FileSystem.write_spec in E as (Hp & _ & pre & Hpre & Hfull & Hfs).
  rewrite Hc in Hfs. simpl in Hfs.
  assert (Hoth : ∀ p, p ≠ ofs_path out → files w1 !! p = files w !! p).
  { intros p Hne. destruct Hfs as [->|[-> _]]; [by rewrite lookup_insert_ne|done]. }
  destruct (ofs_good out1) eqn:G1.
  - destruct Hfs as [Hfs|[_ ?]]; [|done]. rewrite Hfull in Hfs by done.
    intros E. apply (IH _ _ (c ++ record k v)) in E; [|done|by rewrite Hfs, Hp, lookup_insert_eq].
    rewrite Hp in E. destruct E as (E1 & pre2 & Hpre2 & Hc2 & Ho). split.
    + intros p Hne. by rewrite E1, Hoth.
    + exists (record k v ++ pre2). rewrite app_assoc. split_and!; [|done|].
      * by apply prefix_app.
      * destruct o; [|done]. destruct Ho as (-> & ? & ?). done.
  - unfold_st. intros; simplify_eq. split; [done|].
    destruct Hfs as [Hfs|[Hfs _]]; rewrite Hfs.
    + exists pre. rewrite lookup_insert_eq. split_and!; [|done|done].
      by apply prefix_app_r.
    + exists []. rewrite app_nil_r. split_and!; [apply prefix_nil|done|done].
Qed.

(** Whatever the faults, only [path] changes; success leaves the whole
    rendering there, failure the old file or a prefix of the rendering. *)
Lemma write_table_spec path e w r w' :
  write path e w = (r, w') →
  (∀ p, p ≠ path → files w' !! p = files w !! p) ∧
  if r then files w' !! path = Some (render e)
  else files w' !! path = files w !! path ∨
       ∃ pre, pre `prefix_of` render e ∧ files w' !! path = Some pre.
Proof.
  unfold write. unfold mbind at 1, ST_bind at 1.
  destruct (FileSystem.open_trunc path w) as [out w1] eqn:E.
  apply FileSystem.open_trunc_spec in E as [Hp Hf].
  destruct (ofs_good out) eqn:G; simpl; cycle 1.
  { unfold_st. intros; simplify_eq. rewrite Hf. auto. }
  unfold mbind at 1, ST_bind at 1.
  destruct (write_records (flatten e) out w1) as [o w2] eqn:E.
  apply (write_records_spec _ _ _ _ _ []) in E; [|done|by rewrite Hf, Hp, lookup_insert_eq].
  rewrite Hp in E. destruct E as (Hoth & pre & Hpre & Hc & Ho). simpl in Hc.
  assert (Hoth2 : ∀ p, p ≠ path → files w2 !! p = files w !! p).
  { intros p Hne. rewrite Hoth by done. by rewrite Hf, lookup_insert_ne. }
  destruct o as [out2|].
  - destruct Ho as (-> & G2 & Hp2). unfold mbind, ST_bind.
    destruct (FileSystem.flush out2 w2) as [out3 w3] eqn:E.
    apply FileSystem.flush_spec in E as (_ & Hf3 & _).
    unfold_st. intros; simplify_eq. rewrite Hf3. split; [done|].
    destruct (ofs_good out3); [done|]. right. eauto.
  - unfold_st. intros; simplify_eq. split; [done|]. right. eauto.
Qed.

Lemma write_records_ok rs path w c :
  faults w = [] → files w !! path = Some c →
  write_records rs (mkOfs path true) w =
    (Some (mkOfs path true), mkWorld (<[path := c ++ render_rows rs]> (files w)) []).
Proof.
  revert w c. induction rs as [|[k v] rs IH]; intros w c Hw Hc; simpl.
  - unfold_st. rewrite app_nil_r, insert_id by done. rewrite <-Hw. by destruct w.
  - unfold mbind at 1, ST_bind at 1. rewrite FileSystem.write_ok by done. simpl.
    rewrite Hc. simpl. rewrite (IH _ (c ++ record k v)); simpl; [|done|by rewrite lookup_insert_eq].
    by rewrite insert_insert_eq, render_rows_cons, app_assoc.
Qed.

Lemma write_table_ok path e w :
  faults w = [] →
  write path e w = (true, mkWorld (<[path := render e]> (files w)) []).
Proof.
  intros Hw. unfold write. unfold mbind at 1, ST_bind at 1.
  rewrite FileSystem.open_trunc_ok by done. simpl.
  unfold mbind at 1, ST_bind at 1.
  rewrite (write_records_ok _ _ _ []); simpl; [|done|by rewrite lookup_insert_eq].
  unfold mbind, ST_bind. rewrite FileSystem.flush_ok by done. simpl.
  unfold_st. by rewrite insert_insert_eq.
Qed.

(** ** Lemmas: reading rows back *)

Lemma key_ok_no_nl k : key_ok k → nl ∉ k.
Proof. intros [Hw _]. by apply word_not_elem. Qed.

(** A record is one line. *)
Definition record_line (r : str * Version) : str :=
  r.1 ++ [tab] ++ dec (timestamp r.2) ++ [tab] ++
  (if is_tombstone r.2 then b# "D" else b# "P" ++ [tab] ++ default [] (value r.2)).

Lemma record_eq r : record r.1 r.2 = record_line r ++ [nl].
Proof. unfold record, record_line. by rewrite <-!app_assoc. Qed.

Lemma record_line_no_nl r : row_ok r → nl ∉ record_line r.
Proof.
  intros [Hk [_ Hv]]. unfold record_line, is_tombstone.
  rewrite !not_elem_of_app. split_and!.
  - by apply key_ok_no_nl.
  - by rewrite list_elem_of_singleton.
  - apply dec_no_nl.
  - by rewrite list_elem_of_singleton.
  - destruct (value r.2) as [s|]; simpl.
    + destruct Hv as [Hv _]. rewrite !not_elem_of_cons. split_and!; done.
    + by rewrite list_elem_of_singleton.
Qed.

Lemma record_line_nonempty r : row_ok r → record_line r ≠ [].
Proof. intros [[_ Hk] _]. unfold record_line. by destruct r.1. Qed.

Lemma lines_render rs : Forall row_ok rs → lines (render_rows rs) = record_line <$> rs.
Proof.
  intros H. unfold render_rows.
  assert ((λ r, record r.1 r.2) <$> rs = (λ l, l ++ [nl]) <$> (record_line <$> rs)) as ->.
  { rewrite <-list_fmap_compose. apply list_fmap_ext. intros. apply record_eq. }
  apply lines_concat. apply Forall_fmap. eapply Forall_impl; [exact H|].
  intros r. apply record_line_no_nl.
Qed.

Definition row_type (v : Version) : ascii := if is_tombstone v then "D"%char else "P"%char.
Definition row_rest (v : Version) : str :=
  match value v with None => [] | Some s => tab :: s end.

(** A row parses to its own fields, whatever the value. *)
Lemma parse_record k v :
  key_ok k → fits 64 (timestamp v) →
  parse_row (record_line (k, v)) = Some (k, timestamp v, row_type v, row_rest v).
Proof.
  destruct v as [ts val]. intros [Hk Hne] Hts. unfold parse_row, record_line. simpl in *.
  rewrite (read_word_app k tab) by done. cbn [mbind option_bind].
  unfold read_u64. rewrite skip_ws_space by done. rewrite dec_skip_ws.
  rewrite read_unsigned_dec by done. cbn [mbind option_bind].
  unfold read_char. rewrite skip_ws_space by done.
  destruct val as [s|]; done.
Qed.

Lemma parse_record_line r :
  row_ok r →
  parse_row (record_line r) = Some (r.1, timestamp r.2, row_type r.2, row_rest r.2).
Proof. destruct r as [k v]. intros [Hk [Hts _]]. by apply parse_record. Qed.

Lemma row_value_rest s : value_ok s → row_value (tab :: s) = s.
Proof.
  intros [Hn Hs]. unfold row_value. rewrite skip_ws_space by done.
  destruct s as [|c s]; [done|]. rewrite skip_ws_head by done. by rewrite until_none.
Qed.

Lemma entries_ok_rows e : entries_ok e → Forall row_ok (flatten e).
Proof.
  unfold flatten. induction 1 as [|[k vs] e [Hk Hv] _ IH]; simpl; [constructor|].
  apply Forall_app. split; [|done]. apply Forall_fmap.
  eapply Forall_impl; [exact Hv|]. intros v Hv'. by split.
Qed.

(** ** Properties *)

(** C37: Writing an SSTable under any write failures touches no other file, and
    success means the complete table is there: a failed write leaves the old
    file or a prefix of the table, never other bytes. *)
Theorem sstable_write_safe path e w :
  let '(r, w') := write path e w in
  (∀ p, p ≠ path → files w' !! p = files w !! p) ∧
  if r then files w' !! path = Some (render e)
  else files w' !! path = files w !! path ∨
       ∃ pre, pre `prefix_of` render e ∧ files w' !! path = Some pre.
Proof. destruct (write path e w) as [r w'] eqn:E. by apply write_table_spec. Qed.

(** What the text format cannot carry.  The writer accepts every value, but a
    reader of the row of a value with white space in front returns it without the
    white space, and the row of a value with a line break ends at the break: it
    reads as the part before it, and what follows is read as a row of its own. *)
Theorem format_truncates_values k ts sp a b :
  key_ok k → fits 64 ts → Forall (λ c, is_space c = true) sp → value_ok a →
  (∃ rest, parse_row (record_line (k, mkVersion ts (Some (sp ++ a)))) =
     Some (k, ts, "P"%char, rest) ∧ row_value rest = a) ∧
  lines (record k (mkVersion ts (Some (a ++ nl :: b)))) =
    record_line (k, mkVersion ts (Some a)) :: lines (b ++ [nl]).
Proof.
  intros Hk Hts Hsp Ha. split.
  - exists (tab :: sp ++ a). rewrite parse_record by done. split; [done|].
    rewrite <-(row_value_rest a) at 2 by done. unfold row_value. do 2 f_equal.
    rewrite !skip_ws_space by done. induction Hsp as [|c sp Hc _ IH]; [done|].
    cbn [app]. by rewrite skip_ws_space.
  - assert (record k (mkVersion ts (Some (a ++ nl :: b))) =
      record_line (k, mkVersion ts (Some a)) ++ nl :: b ++ [nl]) as ->.
    { unfold record, record_line. cbn. rewrite <-!app_assoc. cbn. by rewrite <-!app_assoc. }
    apply lines_app, record_line_no_nl. by split.
Qed.

Lemma format_truncates_values_witness :
  let r := (b# "k", mkVersion 1 (Some (b# "  v"))) in
  ∃ rest, parse_row (record_line r) = Some (b# "k", 1%N, "P"%char, rest) ∧ row_value rest = b# "v".
Proof.
  cbv zeta. apply (format_truncates_values (b# "k") 1 (b# "  ") (b# "v") []).
  - by apply (bool_decide_unpack _).
  - reflexivity.
  - by repeat constructor.
  - by apply (bool_decide_unpack _).
Defined.

End SSTable.
