(* ===== verification/SSTableIndex.v ===== *)
(** * The sparse index

    Models [sstable_index.{h,cpp}].  [build] walks the lines of an SSTable with
    the stream offset at which each begins; [find_start_offset] picks where a
    lookup of a key may start reading. *)

From S2P Require Import Prelude CxxString OrdMap FileSystem MemTable SSTable.
Import CxxString.

Module SSTableIndex.

Record SSTableIndex := mkIndex {
  stride_ : N;
  index_ : list (str * N);   (** [std::map<std::string, std::streampos>] *)
}.

(** ** Operations *)

Definition make (stride : N) : SSTableIndex :=
  mkIndex (if decide (stride = 0%N) then 1%N else stride) [].

(** The loop over the lines.  [off] is [tellg()] before the line is read; the
    line and its newline take it forward.  ([record_number] counts lines of a
    file whose offsets are 64-bit, so it does not wrap.) *)
Fixpoint build_rows (stride : N) (ls : list str) (off record_number : N)
    (previous_key : str) (group_offset : N) (index : list (str * N)) : list (str * N) :=
  match ls with
  | [] => index
  | line :: ls' =>
      let off' := (off + N.of_nat (length line) + 1)%N in
      match read_word line with
      | None => build_rows stride ls' off' record_number previous_key group_offset index
      | Some (key, _) =>
          let '(previous_key, group_offset) :=
            if decide (record_number = 0%N ∨ key ≠ previous_key)
            then (key, off) else (previous_key, group_offset) in
          let index :=
            if (record_number mod stride =? 0)%N
            then OrdMap.try_emplace key group_offset index else index in
          build_rows stride ls' off' (record_number + 1) previous_key group_offset index
      end
  end.

Definition build (path : str) (ix : SSTableIndex) : io (bool * SSTableIndex) :=
  c ← FileSystem.read_file path;
  match c with
  | None => mret (false, ix)
  | Some content =>
      mret (true, mkIndex (stride_ ix) (build_rows (stride_ ix) (lines content) 0 0 [] 0 []))
  end.

Definition find_start_offset (key : str) (ix : SSTableIndex) : option N :=
  match index_ ix with
  | [] => None
  | (_, begin_offset) :: _ =>
      match last (OrdMap.upto key (index_ ix)) with
      | None => Some begin_offset      (** [it == index_.begin()] *)
      | Some (_, o) => Some o          (** [--it] *)
      end
  end.

Definition entries (ix : SSTableIndex) : list (str * N) := index_ ix.

(** ** Invariant *)

(** [o] is where the rows of [k] begin in the rendering of [e]. *)
Definition group_start (e : Entries) (k : str) (o : N) : Prop :=
  ∃ e1 vs e2, e = e1 ++ (k, vs) :: e2 ∧ o = N.of_nat (length (SSTable.render e1)).

Definition sound (e : Entries) (index : list (str * N)) : Prop :=
  OrdMap.sorted index ∧ Forall (λ b, group_start e b.1 b.2) index.

(** ** Lemmas *)

Lemma upto_le k (index : list (str * N)) b :
  b ∈ OrdMap.upto k index → b ∈ index ∧ ¬ lt k b.1.
Proof.
  induction index as [|[k' a] index IH]; simpl; [by intros ?%not_elem_of_nil|].
  destruct (ltb k k') eqn:E; [by intros ?%not_elem_of_nil|].
  rewrite !elem_of_cons. intros [->|Hb].
  - split; [by left|]. simpl. by apply ltb_false.
  - apply IH in Hb as [? ?]. auto.
Qed.

Lemma upto_nil k (index : list (str * N)) k' a rest :
  index = (k', a) :: rest → last (OrdMap.upto k index) = None → lt k k'.
Proof.
  intros ->. simpl. destruct (ltb k k') eqn:E; [by apply ltb_lt in E|].
  intros H%last_None. done.
Qed.

Lemma try_emplace_sound e k o index :
  sound e index → group_start e k o → sound e (OrdMap.try_emplace k o index).
Proof.
  intros [S Hi] Hg. split; [by apply OrdMap.sorted_update|].
  apply Forall_forall. intros [k2 a] Hin.
  apply OrdMap.find_update_value in Hin as [Hin|(-> & o' & -> & [->|(a & -> & Hin)])].
  - rewrite Forall_forall in Hi. by apply Hi.
  - done.
  - rewrite Forall_forall in Hi. by apply Hi in Hin.
Qed.

(** Entries already in the index keep their keys. *)
Lemma build_rows_keys stride ls off n prev g index x :
  x ∈ index.*1 → x ∈ (build_rows stride ls off n prev g index).*1.
Proof.
  revert off n prev g index. induction ls as [|l ls IH]; intros off n prev g index Hx; simpl; [done|].
  destruct (read_word l) as [[k r]|]; [|by apply IH].
  destruct (decide (n = 0%N ∨ k ≠ prev)), (n mod stride =? 0)%N; apply IH; try done;
    apply OrdMap.update_keys; by right.
Qed.

Lemma read_word_record k v :
  SSTable.key_ok k → ∃ r, read_word (SSTable.record_line (k, v)) = Some (k, r).
Proof.
  intros [? ?]. eexists. unfold SSTable.record_line. simpl. by apply read_word_app.
Qed.

Lemma record_length k v :
  N.of_nat (length (SSTable.record k v)) =
  (N.of_nat (length (SSTable.record_line (k, v))) + 1)%N.
Proof.
  change (SSTable.record k v) with (SSTable.record (k, v).1 (k, v).2).
  rewrite SSTable.record_eq, length_app. simpl. lia.
Qed.

(** The rows of one key after its first row keep the group's offset and the
    soundness of the index. *)
Lemma build_group stride k g vs e ls off n index :
  SSTable.key_ok k → sound e index → group_start e k g → n ≠ 0%N →
  ∃ n' index',
    build_rows stride (((λ v, SSTable.record_line (k, v)) <$> vs) ++ ls) off n k g index =
      build_rows stride ls
        (off + N.of_nat (length (SSTable.render_rows ((λ v, (k, v)) <$> vs))))%N n' k g index' ∧
    n' ≠ 0%N ∧ sound e index'.
Proof.
  intros Hk Hs Hg. revert off n index Hs. induction vs as [|v vs IH]; intros off n index Hs Hn.
  { exists n, index. simpl. by rewrite N.add_0_r. }
  destruct (read_word_record k v Hk) as [r Hw].
  rewrite !fmap_cons. cbn [app build_rows]. rewrite Hw.
  rewrite decide_False by naive_solver.
  edestruct (IH (off + N.of_nat (length (SSTable.record_line (k, v))) + 1)%N (n + 1)%N)
    as (n' & index' & E & Hn' & Hs'); cycle 2.
  - exists n', index'. rewrite E. split_and!; [|done|done]. f_equal.
    rewrite SSTable.render_rows_cons, length_app, Nat2N.inj_add. cbn [fst snd].
    rewrite record_length. lia.
  - destruct (n mod stride =? 0)%N; [by apply try_emplace_sound|done].
  - lia.
Qed.

Lemma build_sound stride e1 e2 n prev g index :
  let e := e1 ++ e2 in
  OrdMap.sorted e → SSTable.entries_ok e2 → Forall (λ b, b.2 ≠ []) e2 →
  (n = 0%N ∨ prev ∉ e2.*1) → sound e index →
  sound e (build_rows stride (SSTable.record_line <$> SSTable.flatten e2)
             (N.of_nat (length (SSTable.render e1))) n prev g index).
Proof.
  cbv zeta. revert e1 n prev g index.
  induction e2 as [|[k vs] e2 IH]; intros e1 n prev g index Hsort Hok Hne Hprev Hs; [done|].
  apply Forall_cons in Hok as [[Hk Hv] Hok]. apply Forall_cons in Hne as [Hvs Hne].
  simpl in Hk, Hvs. destruct vs as [|v vs]; [done|].
  destruct (read_word_record k v Hk) as [r Hw].
  assert (Hg : group_start (e1 ++ (k, v :: vs) :: e2) k (N.of_nat (length (SSTable.render e1))))
    by (by exists e1, (v :: vs), e2).
  rewrite SSTable.flatten_cons, fmap_app, <-list_fmap_compose, fmap_cons.
  unfold compose. cbn [app build_rows]. rewrite Hw.
  rewrite decide_True by (destruct Hprev; [by left|right]; intros ->; set_solver).
  edestruct (build_group stride k (N.of_nat (length (SSTable.render e1))) vs) as
    (n' & index' & E & Hn' & Hs'); [exact Hk| |exact Hg|..]; cycle 2.
  - rewrite E.
    replace (e1 ++ (k, v :: vs) :: e2) with ((e1 ++ [(k, v :: vs)]) ++ e2) in Hsort, Hs' |- *
      by (by rewrite <-app_assoc).
    eapply eq_ind; [eapply (IH (e1 ++ [(k, v :: vs)]) n' k _ index' Hsort Hok Hne _ Hs')|].
    + f_equal. unfold SSTable.render. rewrite SSTable.flatten_app, SSTable.render_rows_app, length_app.
      rewrite SSTable.flatten_cons, fmap_cons, app_nil_r, SSTable.render_rows_cons.
      rewrite length_app, !Nat2N.inj_add. cbn [fst snd]. rewrite record_length.
      lia.
  - destruct (n mod stride =? 0)%N; [by apply try_emplace_sound|done].
  - lia.
  Unshelve. right. unfold OrdMap.sorted in Hsort. rewrite !fmap_app in Hsort. simpl in Hsort.
    apply StronglySorted_app in Hsort as (Hlt & _ & _). intros Hin.
    apply (lt_irrefl k). apply Hlt; [|done]. apply elem_of_app. right. by left.
Qed.

Lemma build_first stride k vs e :
  SSTable.key_ok k → vs ≠ [] →
  k ∈ (build_rows stride (SSTable.record_line <$> SSTable.flatten ((k, vs) :: e)) 0 0 [] 0 []).*1.
Proof.
  intros Hk Hvs. destruct vs as [|v vs]; [done|].
  destruct (read_word_record k v Hk) as [r Hw].
  rewrite SSTable.flatten_cons, fmap_app, !fmap_cons. cbn [app build_rows]. rewrite Hw.
  rewrite decide_True by (by left). rewrite N.Div0.mod_0_l. apply build_rows_keys. by left.
Qed.

(** ** Files that no writer of the program produced *)

(** A line begins at byte [o]: the file does, or a newline is in front of it. *)
Definition line_start (content : str) (o : N) : Prop :=
  o = 0%N ∨ content !! N.to_nat (o - 1) = Some nl.

(** A line begins at byte [o], and has [k] as its first word. *)
Definition row_at (content : str) (k : str) (o : N) : Prop :=
  line_start content o ∧
  ∃ line ls r, lines (drop (N.to_nat o) content) = line :: ls ∧ read_word line = Some (k, r).

Lemma row_at_lt content k o : row_at content k o → (o < N.of_nat (length content))%N.
Proof.
  intros (_ & line & ls & r & E & _). destruct (N.lt_ge_cases o (N.of_nat (length content))); [done|].
  rewrite drop_ge in E by lia. done.
Qed.

Lemma build_rows_in_file content stride ls off n prev g index :
  lines (drop (N.to_nat off) content) = ls → (ls = [] ∨ line_start content off) →
  (n = 0%N ∨ row_at content prev g) →
  OrdMap.sorted index → Forall (λ b, row_at content b.1 b.2) index →
  let index' := build_rows stride ls off n prev g index in
  OrdMap.sorted index' ∧ Forall (λ b, row_at content b.1 b.2) index'.
Proof.
  cbv zeta. revert off n prev g index. induction ls as [|line ls IH]; intros off n prev g index Hl Ho Hg Hs Hi;
    [done|]. cbn [build_rows]. destruct Ho as [?|Ho]; [done|].
  assert (Hl' : lines (drop (N.to_nat (off + N.of_nat (length line) + 1)) content) = ls).
  { apply lines_drop in Hl. rewrite drop_drop in Hl. rewrite <-Hl. do 2 f_equal. lia. }
  assert (Ho' : ls = [] ∨ line_start content (off + N.of_nat (length line) + 1)).
  { destruct ls as [|l' ls]; [by left|right]. right. apply lines_newline in Hl. rewrite lookup_drop in Hl.
    rewrite <-Hl. f_equal. lia. }
  destruct (read_word line) as [[k r]|] eqn:Hw; [|by apply IH].
  set (pg := if decide _ then (k, off) else (prev, g)).
  assert (Hpg : pg.1 = k ∧ row_at content k pg.2).
  { subst pg. case_decide as Hd; cbn; [split; [done|]; split; [done|]; by exists line, ls, r|].
    destruct Hg as [->|Hg]; [tauto|]. destruct (decide (k = prev)) as [->|]; tauto. }
  destruct pg as [k' g']. cbn in Hpg. destruct Hpg as [-> Hk].
  apply IH; [done|done|by right|..]; (destruct (n mod stride =? 0)%N; [|done]).
  - by apply OrdMap.sorted_update.
  - apply Forall_forall. rewrite Forall_forall in Hi. intros [k2 a] Hin.
    apply OrdMap.find_update_value in Hin as [Hin|(-> & o' & -> & [->|(a & -> & Hin)])];
      [by apply Hi in Hin|done|by apply Hi in Hin].
Qed.

(** The first row is always indexed. *)
Lemma build_rows_nil stride ls off prev g :
  build_rows stride ls off 0 prev g [] = [] → Forall (λ l, read_word l = None) ls.
Proof.
  revert off. induction ls as [|line ls IH]; intros off; cbn [build_rows]; [done|].
  destruct (read_word line) as [[k r]|] eqn:Hw; [|by constructor; eauto].
  rewrite decide_True by (by left). rewrite N.Div0.mod_0_l. cbn [N.eqb]. intros E. exfalso.
  assert (k ∈ (build_rows stride ls (off + N.of_nat (length line) + 1) (0 + 1) k off
    (OrdMap.try_emplace k off [])).*1) as Hin by (apply build_rows_keys; by left).
  rewrite E in Hin. by apply not_elem_of_nil in Hin.
Qed.

Lemma find_start_offset_elem key ix o :
  find_start_offset key ix = Some o → ∃ k, (k, o) ∈ index_ ix.
Proof.
  unfold find_start_offset. destruct (index_ ix) as [|[k0 o0] rest] eqn:E; [done|].
  destruct (last _) as [[k a]|] eqn:El; intros ?; simplify_eq; [|exists k0; by left].
  exists k. apply last_Some_elem_of in El. by apply upto_le in El as [? _].
Qed.

(** C24: The index stays in the file.  Whatever bytes an SSTable file holds (torn,
    unsorted, with blank lines, of any version), [build] of it succeeds when it can be
    read and leaves the index alone when it cannot; every offset of the index is
    below the length of the file and is where a line with that key begins, so a
    lookup of any key starts at the beginning of a row inside the file, and it finds no
    start only in a file without rows. *)
Theorem index_offsets_in_file path ix w key :
  let '((b, ix1), w1) := build path ix w in
  files w1 = files w ∧
  if b then ∃ content, files w !! path = Some content ∧
    OrdMap.sorted (entries ix1) ∧
    Forall (λ e, row_at content e.1 e.2 ∧ (e.2 < N.of_nat (length content))%N) (entries ix1) ∧
    match find_start_offset key ix1 with
    | Some o => (o < N.of_nat (length content))%N ∧ ∃ k, row_at content k o
    | None => Forall (λ l, read_word l = None) (lines content)
    end
  else ix1 = ix.
Proof.
  unfold build. unfold mbind, ST_bind. pose proof (FileSystem.read_file_files path w) as Hf.
  destruct (FileSystem.read_file path w) as [[content|] w1] eqn:E; cbn in Hf |- *; [|done].
  split; [done|]. apply FileSystem.read_file_Some in E as [E _]. exists content. split; [done|].
  set (ix1 := mkIndex _ _).
  destruct (build_rows_in_file content (stride_ ix) (lines content) 0 0 [] 0 []) as [Hs Hi];
    [done|by right; left|by left|constructor|constructor|].
  change (build_rows _ _ _ _ _ _ _) with (entries ix1) in Hs, Hi. split; [done|]. split.
  - apply Forall_forall. rewrite Forall_forall in Hi. intros b Hb%Hi. split; [exact Hb|by eapply row_at_lt].
  - destruct (find_start_offset key ix1) as [o|] eqn:Eo.
    + apply find_start_offset_elem in Eo as [k Hin]. rewrite Forall_forall in Hi.
      apply Hi in Hin. cbn in Hin. split; [by eapply row_at_lt|by exists k].
    + apply (build_rows_nil (stride_ ix) _ 0 [] 0). revert Eo. unfold find_start_offset.
      change (build_rows _ _ _ _ _ _ _) with (index_ ix1).
      destruct (index_ ix1) as [|[] ?]; [done|]. by destruct (last _) as [[]|].
Qed.

End SSTableIndex.
