(* ===== verification/SSTableReader.v ===== *)
(** * The SSTable reader

    Models [sstable_reader.{h,cpp}]: construction (sparse index, Bloom filter,
    persistent stream) and the point lookup.  An SSTable is not modified while
    a reader holds it, so the persistent stream is the content at opening. *)

From S2P Require Import Prelude CxxString OrdMap FileSystem MemTable BloomFilter SSTable SSTableIndex.
Import CxxString.

Module SSTableReader.

Record SSTableReader := mkReader {
  path_ : str;
  reader_index : SSTableIndex.SSTableIndex;          (** [index_] *)
  bloom_filter_ : BloomFilter.BloomFilter;
  index_ready_ : bool;
  bloom_ready_ : bool;
  file_ : option str;                                (** the open stream's file *)
}.

(** ** Operations *)

(** The loop of [build_bloom_filter]: one [add] per non-empty line with a key. *)
Fixpoint add_keys (ls : list str) (f : BloomFilter.BloomFilter) : BloomFilter.BloomFilter :=
  match ls with
  | [] => f
  | line :: ls' =>
      if decide (line = []) then add_keys ls' f
      else match read_word line with
           | None => add_keys ls' f
           | Some (key, _) => add_keys ls' (BloomFilter.add key f)
           end
  end.

Definition build_bloom_filter (path : str) (f : BloomFilter.BloomFilter)
    : io (bool * BloomFilter.BloomFilter) :=
  c ← FileSystem.read_file path;
  match c with
  | None => mret (false, f)
  | Some content => mret (true, add_keys (lines content) f)
  end.

(** The constructor. *)
Definition make (path : str) (index_stride bloom_bits bloom_hashes : N) : io SSTableReader :=
  '(index_ready, index) ← SSTableIndex.build path (SSTableIndex.make index_stride);
  '(bloom_ready, bloom) ← build_bloom_filter path (BloomFilter.make bloom_bits bloom_hashes);
  file ← FileSystem.read_file path;
  mret (mkReader path index bloom index_ready bloom_ready file).

(** The constructor with its default arguments, as [KVStore] calls it. *)
Definition make_default (path : str) : io SSTableReader := make path 4 8192 4.

Definition is_open (r : SSTableReader) : bool :=
  match file_ r with Some _ => true | None => false end.

Definition possibly_contains (key : str) (r : SSTableReader) : bool :=
  negb (bloom_ready_ r) || BloomFilter.possibly_contains key (bloom_filter_ r).

(** The [while (std::getline(file_, line))] loop of [get_at]. *)
Fixpoint scan_rows (key : str) (read_timestamp : Timestamp) (ls : list str)
    (best : LookupResult) (best_timestamp : Timestamp) (found_visible_version : bool)
    : LookupResult :=
  match ls with
  | [] => best
  | line :: ls' =>
      if decide (line = []) then
        scan_rows key read_timestamp ls' best best_timestamp found_visible_version
      else
        match SSTable.parse_row line with
        | None => scan_rows key read_timestamp ls' best best_timestamp found_visible_version
        | Some (stored_key, ts, type, rest) =>
            if ltb key stored_key then best
            else if ltb stored_key key then
              scan_rows key read_timestamp ls' best best_timestamp found_visible_version
            else if (read_timestamp <? ts)%N then
              scan_rows key read_timestamp ls' best best_timestamp found_visible_version
            else if negb found_visible_version || (best_timestamp <=? ts)%N then
              let best :=
                if decide (type = "P"%char) then found_value (SSTable.row_value rest)
                else if decide (type = "D"%char) then tombstone else best in
              scan_rows key read_timestamp ls' best ts true
            else
              scan_rows key read_timestamp ls' best best_timestamp found_visible_version
        end
  end.

Definition start_offset (key : str) (r : SSTableReader) : N :=
  if index_ready_ r
  then default 0%N (SSTableIndex.find_start_offset key (reader_index r))
  else 0%N.

Definition get_at (key : str) (read_timestamp : Timestamp) (r : SSTableReader) : LookupResult :=
  if bloom_ready_ r && negb (BloomFilter.possibly_contains key (bloom_filter_ r))
  then not_found
  else
    match file_ r with
    | None => not_found
    | Some content =>
        scan_rows key read_timestamp
          (lines (drop (N.to_nat (start_offset key r)) content)) not_found 0 false
    end.

(** ** Lemmas: the scan over well-formed rows *)

(** The scan on parsed rows. *)
Fixpoint scan_records (key : str) (t : Timestamp) (rs : list (str * Version))
    (best : LookupResult) (bt : Timestamp) (found : bool) : LookupResult :=
  match rs with
  | [] => best
  | (k, v) :: rs' =>
      if ltb key k then best
      else if ltb k key then scan_records key t rs' best bt found
      else if (t <? timestamp v)%N then scan_records key t rs' best bt found
      else if negb found || (bt <=? timestamp v)%N
           then scan_records key t rs' (MemTable.result_of v) (timestamp v) true
           else scan_records key t rs' best bt found
  end.

Lemma scan_rows_records key t rs best bt found :
  Forall SSTable.row_ok rs →
  scan_rows key t (SSTable.record_line <$> rs) best bt found =
  scan_records key t rs best bt found.
Proof.
  intros H. revert best bt found. induction H as [|[k v] rs Hr _ IH]; intros best bt found; [done|].
  rewrite fmap_cons. cbn [scan_rows scan_records].
  rewrite decide_False by (by apply SSTable.record_line_nonempty).
  rewrite SSTable.parse_record_line by done. cbn [fst snd].
  destruct (ltb key k); [done|]. destruct (ltb k key); [done|].
  destruct (t <? timestamp v)%N; [done|].
  destruct (negb found || (bt <=? timestamp v)%N); [|done].
  rewrite IH. f_equal. destruct v as [ts [s|]]; [|done].
  destruct Hr as [_ [_ Hv]]. unfold SSTable.row_type, SSTable.row_rest. simpl in *.
  by rewrite SSTable.row_value_rest.
Qed.

Lemma scan_records_above key t rs best bt found :
  Forall (λ r, lt key r.1) rs → scan_records key t rs best bt found = best.
Proof.
  intros H. destruct H as [|[k v] rs Hk _]; simpl; [done|].
  simpl in Hk. by rewrite (proj2 (ltb_lt _ _) Hk).
Qed.

Lemma scan_records_below key t rs1 rs2 best bt found :
  Forall (λ r, lt r.1 key) rs1 →
  scan_records key t (rs1 ++ rs2) best bt found = scan_records key t rs2 best bt found.
Proof.
  induction 1 as [|[k v] rs1 Hk _ IH]; simpl; [done|]. simpl in Hk.
  rewrite (proj2 (ltb_lt k key) Hk).
  assert (ltb key k = false) as -> by
    (apply ltb_false; intros ?; apply (lt_irrefl k); by eapply lt_trans).
  done.
Qed.

(** One key's rows in time order: the running best becomes the newest visible
    version. *)
Lemma scan_records_group key t vs rs best bt found :
  MemTable.ordered vs → (found = true → Forall (λ v, bt ≤ timestamp v)%N vs) →
  Forall (λ r, lt key r.1) rs →
  scan_records key t (((λ v, (key, v)) <$> vs) ++ rs) best bt found =
    if decide (Exists (λ v, timestamp v ≤ t)%N vs)
    then MemTable.scan t (reverse vs) else best.
Proof.
  intros Ho Hb Hrs. revert best bt found Hb.
  induction vs as [|v vs IH]; intros best bt found Hb.
  { rewrite decide_False by (intros ?%Exists_nil; done). by apply scan_records_above. }
  rewrite fmap_cons. cbn [app scan_records].
  assert (ltb key key = false) as -> by (apply ltb_false, lt_irrefl).
  apply StronglySorted_inv in Ho as [Ho Hlt]. specialize (IH Ho).
  rewrite MemTable.scan_reverse_cons.
  destruct (N.ltb_spec t (timestamp v)) as [Hv|Hv].
  - rewrite IH by (intros Hf; specialize (Hb Hf); by apply Forall_cons in Hb as [_ ?]).
    destruct (decide (Exists (λ v, timestamp v ≤ t)%N vs)) as [He|He].
    + rewrite decide_True by (by right). done.
    + rewrite decide_False; [done|]. intros [?|?]%Exists_cons; [lia|done].
  - rewrite (decide_True (P := Exists _ (v :: vs))) by (by left).
    assert (negb found || (bt <=? timestamp v)%N = true) as ->.
    { destruct found; [|done]. specialize (Hb eq_refl). apply Forall_cons in Hb as [? _].
      simpl. by apply N.leb_le. }
    rewrite IH.
    + by rewrite (proj2 (N.leb_le _ _) Hv).
    + intros _. eapply Forall_impl; [exact Hlt|]. unfold MemTable.older. intros; lia.
Qed.

Lemma flatten_keys (P : str → Prop) (e : Entries) :
  Forall P e.*1 → Forall (λ r, P r.1) (SSTable.flatten e).
Proof.
  induction e as [|[k vs] e IH]; [constructor|]. rewrite fmap_cons.
  intros [Hk He]%Forall_cons. rewrite SSTable.flatten_cons. apply Forall_app. split; [|by apply IH].
  apply Forall_fmap, Forall_true. intros v. exact Hk.
Qed.

(** Scanning a whole sorted table looks the key up. *)
Lemma scan_sorted key t e :
  MemTable.wf_entries e →
  scan_records key t (SSTable.flatten e) not_found 0 false =
  MemTable.scan t (reverse (MemTable.versions_of key e)).
Proof.
  intros [S Hv]. unfold OrdMap.sorted in S. unfold MemTable.versions_of.
  induction e as [|[k vs] e IH]; [done|]. cbn in S.
  apply StronglySorted_inv in S as [S F]. apply Forall_cons in Hv as [[_ Ho] Hv].
  rewrite SSTable.flatten_cons. cbn [OrdMap.find]. destruct (trichotomy lt key k) as [L|[->|L]].
  - rewrite decide_False by (intros ->; by apply (lt_irrefl key)).
    assert (Fk : Forall (lt key) e.*1).
    { eapply Forall_impl; [exact F|]. intros x. by apply lt_trans. }
    rewrite OrdMap.find_lt_None by done. apply scan_records_above.
    apply Forall_app. split; [apply Forall_fmap, Forall_true; intros v; exact L|]. by apply flatten_keys.
  - rewrite decide_True by done. rewrite scan_records_group; [|done|done|by apply flatten_keys].
    simpl. case_decide as He; [done|]. symmetry. apply MemTable.scan_none.
    intros v Hin. rewrite elem_of_reverse in Hin. rewrite <-Forall_Exists_neg in He.
    rewrite Forall_forall in He. specialize (He v Hin). simpl in He. lia.
  - rewrite decide_False by (intros ->; by apply (lt_irrefl key)).
    rewrite scan_records_below; [by apply IH|].
    apply Forall_fmap, Forall_true. intros v. exact L.
Qed.

(** ** Lemmas: index and Bloom filter *)

Lemma drop_render e1 e2 :
  drop (N.to_nat (N.of_nat (length (SSTable.render e1)))) (SSTable.render (e1 ++ e2)) =
  SSTable.render e2.
Proof.
  rewrite Nat2N.id. unfold SSTable.render.
  rewrite SSTable.flatten_app, SSTable.render_rows_app. by rewrite drop_app_length.
Qed.

Lemma wf_entries_app_r e1 e2 : MemTable.wf_entries (e1 ++ e2) → MemTable.wf_entries e2.
Proof.
  intros [S Hv]. unfold OrdMap.sorted in *. split.
  - unfold OrdMap.sorted. rewrite fmap_app in S. by apply StronglySorted_app in S as (_ & _ & ?).
  - by apply Forall_app in Hv as [_ ?].
Qed.

(** Starting at any group whose earlier keys are all below the requested key,
    or anywhere when the key is below the whole table, changes nothing. *)
Lemma scan_from_group key t e1 e2 :
  MemTable.wf_entries (e1 ++ e2) →
  Forall (λ k, lt k key) e1.*1 ∨ Forall (lt key) (e1 ++ e2).*1 →
  scan_records key t (SSTable.flatten e2) not_found 0 false =
  scan_records key t (SSTable.flatten (e1 ++ e2)) not_found 0 false.
Proof.
  intros _ [H|H]; rewrite SSTable.flatten_app.
  - rewrite scan_records_below; [done|]. by apply (flatten_keys (λ k, lt k key)).
  - rewrite fmap_app in H. apply Forall_app in H as [H1 H2].
    rewrite !scan_records_above; [done| |by apply flatten_keys].
    apply Forall_app. split; by apply flatten_keys.
Qed.

Lemma lt_last_key (e1 e2 : Entries) k vs key :
  OrdMap.sorted (e1 ++ (k, vs) :: e2) → ¬ lt key k → Forall (λ k, lt k key) e1.*1.
Proof.
  unfold OrdMap.sorted. rewrite fmap_app. intros (Hlt & _ & _)%StronglySorted_app Hk.
  apply Forall_forall. intros x Hx.
  assert (lt x k) by (apply Hlt; [done|by left]).
  destruct (not_lt_cases _ _ Hk) as [->|?]; [done|]. by eapply lt_trans.
Qed.

(** The index offset is a group start from which the lookup is complete. *)
Lemma find_start_offset_complete stride key t e o :
  MemTable.wf_entries e → SSTable.entries_ok e →
  SSTableIndex.find_start_offset key
    (SSTableIndex.mkIndex stride
       (SSTableIndex.build_rows stride (lines (SSTable.render e)) 0 0 [] 0 [])) = Some o →
  scan_rows key t (lines (drop (N.to_nat o) (SSTable.render e))) not_found 0 false =
  scan_rows key t (lines (SSTable.render e)) not_found 0 false.
Proof.
  intros Hwf Hok. pose proof Hwf as [S Hv].
  set (ix := SSTableIndex.build_rows _ _ _ _ _ _ _).
  assert (Hne : Forall (λ b : str * list Version, b.2 ≠ []) e).
  { eapply Forall_impl; [exact Hv|]. by intros ? [? _]. }
  assert (Hix : SSTableIndex.sound e ix).
  { unfold ix, SSTable.render. rewrite SSTable.lines_render by (by apply SSTable.entries_ok_rows).
    apply (SSTableIndex.build_sound stride [] e); try done; [by left|]. split; constructor. }
  assert (Hgo : ∀ e1 e2, e = e1 ++ e2 →
    Forall (λ k, lt k key) e1.*1 ∨ Forall (lt key) e.*1 →
    scan_rows key t (lines (drop (N.to_nat (N.of_nat (length (SSTable.render e1))))
      (SSTable.render e))) not_found 0 false =
    scan_rows key t (lines (SSTable.render e)) not_found 0 false).
  { intros e1 e2 -> Hcase. rewrite drop_render. unfold SSTable.render.
    apply Forall_app in Hok as Hok'. destruct Hok' as [_ Hok2].
    rewrite !SSTable.lines_render by (by apply SSTable.entries_ok_rows).
    rewrite !scan_rows_records by (by apply SSTable.entries_ok_rows).
    by apply scan_from_group. }
  assert (Hfirst : ∀ kf vf e', e = (kf, vf) :: e' → kf ∈ ix.*1).
  { intros kf vf e' ->. unfold ix, SSTable.render.
    rewrite SSTable.lines_render by (by apply SSTable.entries_ok_rows).
    apply Forall_cons in Hok as [[Hk _] _]. apply Forall_cons in Hne as [? _].
    by apply SSTableIndex.build_first. }
  clearbody ix. unfold SSTableIndex.find_start_offset. cbn [SSTableIndex.index_].
  destruct Hix as [Six Hsound]. rewrite Forall_forall in Hsound.
  destruct ix as [|[k0 o0] ix']; [done|].
  destruct (last (OrdMap.upto key ((k0, o0) :: ix'))) as [[k' o']|] eqn:El.
  - intros ?; simplify_eq. apply last_Some_elem_of in El.
    apply SSTableIndex.upto_le in El as [Hin Hk].
    apply Hsound in Hin as (e1 & vs & e2 & He & Ho). simpl in Ho. subst o.
    eapply Hgo; [exact He|]. left. rewrite He in S. by eapply lt_last_key.
  - intros ?; simplify_eq. apply (SSTableIndex.upto_nil key _ k0 o ix') in El; [|done].
    destruct (Hsound (k0, o) (list_elem_of_here _ _)) as (e1 & vs & e2 & He & Ho).
    simpl in He, Ho. subst o.
    eapply Hgo; [exact He|]. right.
    destruct e as [|[kf vf] e']; [by destruct e1|].
    pose proof (Hfirst kf vf e' eq_refl) as Hkf.
    unfold OrdMap.sorted in Six, S. cbn in Six, Hkf, S.
    apply StronglySorted_inv in Six as [_ Fix]. apply StronglySorted_inv in S as [_ Fe].
    assert (lt key kf).
    { apply elem_of_cons in Hkf as [->|Hkf]; [done|].
      rewrite Forall_forall in Fix. eapply lt_trans; [exact El|]. by apply Fix. }
    cbn. constructor; [done|]. eapply Forall_impl; [exact Fe|]. intros x. by apply lt_trans.
Qed.

Lemma add_keys_rows rs f :
  Forall SSTable.row_ok rs →
  add_keys (SSTable.record_line <$> rs) f = BloomFilter.add_all rs.*1 f.
Proof.
  intros H. revert f. induction H as [|[k v] rs Hr _ IH]; intros f; [done|].
  rewrite fmap_cons. cbn [add_keys]. rewrite decide_False by (by apply SSTable.record_line_nonempty).
  destruct Hr as [Hk _]. destruct (SSTableIndex.read_word_record k v Hk) as [r ->]. apply IH.
Qed.

(** The index and the Bloom filter together change no answer. *)
Lemma get_at_render key t e stride bits hashes :
  MemTable.wf_entries e → SSTable.entries_ok e → (N.max bits 8 + 7 < 2 ^ 64)%N →
  get_at key t
    (mkReader [] (SSTableIndex.mkIndex stride
        (SSTableIndex.build_rows stride (lines (SSTable.render e)) 0 0 [] 0 []))
      (add_keys (lines (SSTable.render e)) (BloomFilter.make bits hashes))
      true true (Some (SSTable.render e))) =
  MemTable.scan t (reverse (MemTable.versions_of key e)).
Proof.
  intros Hwf Hok Hb.
  assert (Hfull : scan_rows key t (lines (SSTable.render e)) not_found 0 false =
    MemTable.scan t (reverse (MemTable.versions_of key e))).
  { unfold SSTable.render. rewrite SSTable.lines_render by (by apply SSTable.entries_ok_rows).
    rewrite scan_rows_records by (by apply SSTable.entries_ok_rows). by apply scan_sorted. }
  unfold get_at. cbn [bloom_ready_ bloom_filter_ file_].
  set (f := add_keys _ _). destruct (BloomFilter.possibly_contains key f) eqn:Ef; cbn [negb andb].
  - unfold start_offset. cbn [index_ready_ reader_index].
    destruct (SSTableIndex.find_start_offset _ _) as [o|] eqn:Eo; simpl.
    + by rewrite (find_start_offset_complete stride key t e).
    + by rewrite drop_0.
  - unfold MemTable.versions_of. destruct (OrdMap.find key e) as [vs|] eqn:Ek; [|done].
    exfalso. apply OrdMap.find_Some_elem in Ek.
    unfold f, SSTable.render in Ef. rewrite SSTable.lines_render in Ef by (by apply SSTable.entries_ok_rows).
    rewrite add_keys_rows in Ef by (by apply SSTable.entries_ok_rows).
    rewrite BloomFilter.add_all_contains in Ef; [done|by apply BloomFilter.make_wf|].
    left. destruct Hwf as [_ Hv]. rewrite Forall_forall in Hv. destruct (Hv _ Ek) as [Hne _].
    destruct vs as [|v vs]; [done|]. apply list_elem_of_fmap. exists (key, v). split; [done|].
    apply list_elem_of_bind. exists (key, v :: vs). split; [by left|done].
Qed.

Lemma make_ok path c stride bits hashes w :
  faults w = [] → files w !! path = Some c →
  let st := if decide (stride = 0%N) then 1%N else stride in
  make path stride bits hashes w =
    (mkReader path
      (SSTableIndex.mkIndex st (SSTableIndex.build_rows st (lines c) 0 0 [] 0 []))
      (add_keys (lines c) (BloomFilter.make bits hashes)) true true (Some c), w).
Proof.
  intros Hw Hc. unfold make, SSTableIndex.build, build_bloom_filter. unfold_st.
  rewrite !FileSystem.read_file_ok by done. rewrite Hc.
  rewrite !FileSystem.read_file_ok by done. rewrite Hc.
  rewrite !FileSystem.read_file_ok by done. by rewrite Hc.
Qed.

(** ** Properties *)

(** C23: A flushed table answers as the MemTable it was written from.  Writing the
    entries of a well-formed MemTable, whose keys are words and whose values have no
    newline and no leading white space, in a world without failures, and opening the file with any index stride and filter size gives a
    reader whose lookups, at every key and time, are the MemTable's. *)
Theorem reader_answers_as_memtable path e stride bits hashes w key t :
  faults w = [] → MemTable.wf_entries e → SSTable.entries_ok e → (N.max bits 8 + 7 < 2 ^ 64)%N →
  let '(ok, w1) := SSTable.write path e w in
  let '(r, w2) := make path stride bits hashes w1 in
  ok = true ∧ is_open r = true ∧ w2 = w1 ∧
  get_at key t r = MemTable.get_at key t (MemTable.mkMemTable e 0).
Proof.
  intros Hw Hwf Hok Hb. rewrite SSTable.write_table_ok by done.
  erewrite make_ok; [|done|cbn; apply lookup_insert_eq].
  split_and!; [done|done|done|]. rewrite MemTable.get_at_versions. cbn [MemTable.entries_].
  rewrite <-(get_at_render key t e (if decide (stride = 0%N) then 1%N else stride) bits hashes) by done.
  done.
Qed.

Lemma reader_answers_as_memtable_witness :
  let e := [(b# "a", [mkVersion 1 (Some (b# "x")); mkVersion 3 None]); (b# "b", [mkVersion 2 (Some (b# "y z"))])] in
  let '(ok, w1) := SSTable.write (b# "t") e (mkWorld ∅ []) in
  let '(r, w2) := make (b# "t") 1 64 2 w1 in
  ok = true ∧ is_open r = true ∧ w2 = w1 ∧
  get_at (b# "a") 2 r = MemTable.get_at (b# "a") 2 (MemTable.mkMemTable e 0).
Proof.
  apply reader_answers_as_memtable; [reflexivity| |by apply (bool_decide_unpack _)|reflexivity].
  split; repeat constructor; done.
Defined.

End SSTableReader.
