(* ===== verification/Manifest.v ===== *)
(** * The manifest of live SSTables

    Models [manifest.{h,cpp}]: a text file with one SSTable path per line,
    appended to by the flush worker and atomically replaced by compaction. *)

From S2P Require Import Prelude CxxString FileSystem.
Import CxxString.

Module Manifest.

(** A [Manifest] object is its [path_]; empty until [open]. *)
Abbreviation Manifest := str (only parsing).

(** ** Operations *)

Definition open (path : str) : io (bool * Manifest) :=
  out ← FileSystem.open_app path;
  mret (ofs_good out, path).

Definition load_sstables (path_ : Manifest) : io (list str) :=
  if decide (path_ = []) then mret []
  else
    c ← FileSystem.read_file path_;
    match c with
    | None => mret []
    | Some content => mret (filter (λ line : str, line ≠ []) (lines content))
    end.

Definition append_sstable (sstable_path : str) (path_ : Manifest) : io bool :=
  if decide (path_ = []) then mret false
  else
    existing ← load_sstables path_;
    if decide (sstable_path ∈ existing) then mret true
    else
      out ← FileSystem.open_app path_;
      if negb (ofs_good out) then mret false
      else
        out ← FileSystem.write out (sstable_path ++ [nl]);
        out ← FileSystem.flush out;
        mret (ofs_good out).

(** The loop of [replace_sstables]; [None] is the early [return false]. *)
Fixpoint write_paths (paths : list str) (out : ofstream) : io (option ofstream) :=
  match paths with
  | [] => mret (Some out)
  | path :: paths' =>
      out ← FileSystem.write out (path ++ [nl]);
      if ofs_good out then write_paths paths' out else mret None
  end.

Definition replace_sstables (sstable_paths : list str) (path_ : Manifest) : io bool :=
  if decide (path_ = []) then mret false
  else
    let temp_path := path_ ++ b# ".tmp" in
    out ← FileSystem.open_trunc temp_path;
    if negb (ofs_good out) then mret false
    else
      o ← write_paths sstable_paths out;
      match o with
      | None => mret false
      | Some out =>
          out ← FileSystem.flush out;
          if negb (ofs_good out) then mret false
          else
            renamed ← FileSystem.rename temp_path path_;
            if negb renamed then FileSystem.remove temp_path ;; mret false
            else mret true
      end.

(** ** Specification *)

(** The manifest file holding a list of paths. *)
Definition render (paths : list str) : str := concat ((λ p : str, p ++ [nl]) <$> paths).

(** A path the line format can carry. *)
Definition path_ok (p : str) : Prop := p ≠ [] ∧ nl ∉ p.

#[global] Instance path_ok_dec p : Decision (path_ok p).
Proof. unfold path_ok. apply _. Defined.

(** The paths a reader of the manifest at [path_] sees. *)
Definition live (path_ : Manifest) (w : World) : list str :=
  match files w !! path_ with
  | None => []
  | Some c => filter (λ line : str, line ≠ []) (lines c)
  end.

(** ** Lemmas *)

Lemma filter_nonempty ps : Forall path_ok ps → filter (λ p : str, p ≠ []) ps = ps.
Proof.
  induction 1 as [|p ps [Hp _] _ IH]; [done|]. rewrite filter_cons_True by done. by rewrite IH.
Qed.

Lemma paths_no_nl ps : Forall path_ok ps → Forall (λ l : str, nl ∉ l) ps.
Proof. intros H. eapply Forall_impl; [exact H|]. by intros p [_ ?]. Qed.

Lemma live_render path_ ps w :
  Forall path_ok ps → files w !! path_ = Some (render ps) → live path_ w = ps.
Proof.
  intros Hps Hc. unfold live, render in *. rewrite Hc.
  rewrite lines_concat by (by apply paths_no_nl). by apply filter_nonempty.
Qed.

Lemma render_app ps qs : render (ps ++ qs) = render ps ++ render qs.
Proof. unfold render. by rewrite fmap_app, concat_app. Qed.

Lemma load_ok path_ w :
  faults w = [] → path_ ≠ [] → load_sstables path_ w = (live path_ w, w).
Proof.
  intros Hw Hp. unfold load_sstables. rewrite decide_False by done. unfold_st.
  rewrite FileSystem.read_file_ok by done. unfold live. by destruct (files w !! path_).
Qed.

(** What [load_sstables] may return and what it leaves of the files. *)
Lemma load_spec path_ w r w' :
  load_sstables path_ w = (r, w') → files w' = files w ∧ (r = [] ∨ r = live path_ w).
Proof.
  unfold load_sstables. case_decide as Hp; unfold_st.
  { intros; simplify_eq. auto. }
  destruct (FileSystem.read_file path_ w) as [[c|] w1] eqn:E.
  - apply FileSystem.read_file_Some in E as [Hc Hf]. intros; simplify_eq.
    split; [done|]. right. unfold live. by rewrite Hc.
  - pose proof (FileSystem.read_file_files path_ w) as Hf. rewrite E in Hf. simpl in Hf.
    intros; simplify_eq. auto.
Qed.

Lemma write_paths_spec ps out w o w' (c : str) :
  ofs_good out = true → files w !! ofs_path out = Some c →
  write_paths ps out w = (o, w') →
  (∀ p, p ≠ ofs_path out → files w' !! p = files w !! p) ∧
  match o with
  | Some out' => files w' !! ofs_path out = Some (c ++ render ps) ∧
                 ofs_good out' = true ∧ ofs_path out' = ofs_path out
  | None => True
  end.
Proof.
  revert out w c. induction ps as [|p ps IH]; intros out w c Hg Hc; simpl.
  { unfold_st. intros; simplify_eq. by rewrite app_nil_r. }
  unfold mbind at 1, ST_bind at 1.
  destruct (FileSystem.write out (p ++ [nl]) w) as [out1 w1] eqn:E.
  apply FileSystem.write_spec in E as (Hp & _ & pre & Hpre & Hfull & Hfs).
  rewrite Hc in Hfs. simpl in Hfs.
  assert (Hoth : ∀ q, q ≠ ofs_path out → files w1 !! q = files w !! q).
  { intros q Hne. destruct Hfs as [->|[-> _]]; [by rewrite lookup_insert_ne|done]. }
  destruct (ofs_good out1) eqn:G1; [|unfold_st; intros; by simplify_eq].
  destruct Hfs as [Hfs|[_ ?]]; [|done]. rewrite Hfull in Hfs by done.
  intros E. apply (IH _ _ (c ++ p ++ [nl])) in E; [|done|by rewrite Hfs, Hp, lookup_insert_eq].
  rewrite Hp in E. destruct E as (E1 & Ho). split.
  - intros q Hne. by rewrite E1, Hoth.
  - destruct o as [out2|]; [|done]. rewrite <-(app_assoc c) in Ho. exact Ho.
Qed.

Lemma temp_ne (path_ : str) : path_ ++ b# ".tmp" ≠ path_.
Proof. intros H. apply (f_equal length) in H. rewrite length_app in H. simpl in H. lia. Qed.

(** Replacement is atomic whatever fails: on [true] the manifest is the new
    list, on [false] it is the old file; no other file but the temporary one
    changes. *)
Lemma replace_spec ps path_ w r w' :
  replace_sstables ps path_ w = (r, w') →
  (∀ p, p ≠ path_ → p ≠ path_ ++ b# ".tmp" → files w' !! p = files w !! p) ∧
  files w' !! path_ = (if r then Some (render ps) else files w !! path_).
Proof.
  unfold replace_sstables. case_decide as Hne; [unfold_st; intros; by simplify_eq|].
  set (tmp := path_ ++ b# ".tmp"). pose proof (temp_ne path_) as Htmp. fold tmp in Htmp.
  unfold mbind at 1, ST_bind at 1.
  destruct (FileSystem.open_trunc tmp w) as [out w1] eqn:E.
  apply FileSystem.open_trunc_spec in E as [Hp Hf].
  destruct (ofs_good out) eqn:G; simpl; [|unfold_st; intros; simplify_eq; by rewrite Hf].
  unfold mbind at 1, ST_bind at 1.
  destruct (write_paths ps out w1) as [o w2] eqn:E.
  apply (write_paths_spec _ _ _ _ _ []) in E; [|done|by rewrite Hf, Hp, lookup_insert_eq].
  rewrite Hp in E. destruct E as [Hoth Ho].
  assert (H2 : ∀ p, p ≠ tmp → files w2 !! p = files w !! p).
  { intros p Hpt. rewrite Hoth by done. by rewrite Hf, lookup_insert_ne. }
  destruct o as [out2|]; [|unfold_st; intros; simplify_eq; auto].
  destruct Ho as (Hc & _ & _). simpl in Hc.
  unfold mbind at 1, ST_bind at 1.
  destruct (FileSystem.flush out2 w2) as [out3 w3] eqn:E.
  apply FileSystem.flush_spec in E as (_ & Hf3 & _).
  destruct (ofs_good out3); simpl; [|unfold_st; intros; simplify_eq; rewrite Hf3; auto].
  unfold mbind at 1, ST_bind at 1.
  destruct (FileSystem.rename tmp path_ w3) as [ren w4] eqn:E.
  apply FileSystem.rename_spec in E. rewrite Hf3 in E. destruct ren.
  - destruct E as (c & Hc' & Hf4). unfold_st. simpl. intros; simplify_eq. rewrite Hf4. split.
    + intros p Hp1 Hp2. rewrite lookup_insert_ne by done. rewrite lookup_delete_ne by done. auto.
    + by rewrite lookup_insert_eq.
  - simpl. unfold mbind, ST_bind. destruct (FileSystem.remove tmp w4) as [rm w5] eqn:E5.
    apply FileSystem.remove_spec in E5. rewrite E in E5.
    unfold_st. intros; simplify_eq. rewrite E5. destruct rm.
    + split; [intros p Hp1 Hp2|]; rewrite lookup_delete_ne by done; auto.
    + auto.
Qed.

Lemma write_paths_ok ps path w c :
  faults w = [] → files w !! path = Some c →
  write_paths ps (mkOfs path true) w =
    (Some (mkOfs path true), mkWorld (<[path := c ++ render ps]> (files w)) []).
Proof.
  revert w c. induction ps as [|p ps IH]; intros w c Hw Hc; cbn [write_paths].
  - unfold_st. unfold render. simpl. rewrite app_nil_r, insert_id by done.
    rewrite <-Hw. by destruct w.
  - unfold mbind at 1, ST_bind at 1. rewrite FileSystem.write_ok by done. simpl.
    rewrite Hc. simpl. rewrite (IH _ (c ++ p ++ [nl])); simpl; [|done|by rewrite lookup_insert_eq].
    rewrite insert_insert_eq, <-app_assoc. done.
Qed.

Lemma replace_ok ps path_ w :
  faults w = [] → path_ ≠ [] →
  replace_sstables ps path_ w =
    (true, mkWorld (<[path_ := render ps]> (delete (path_ ++ b# ".tmp") (files w))) []).
Proof.
  intros Hw Hne. unfold replace_sstables. rewrite decide_False by done.
  unfold mbind at 1, ST_bind at 1. rewrite FileSystem.open_trunc_ok by done. simpl.
  unfold mbind at 1, ST_bind at 1.
  rewrite (write_paths_ok _ _ _ []); simpl; [|done|by rewrite lookup_insert_eq].
  unfold mbind at 1, ST_bind at 1. rewrite FileSystem.flush_ok by done. simpl.
  unfold mbind, ST_bind. erewrite FileSystem.rename_ok; [|done|].
  - unfold_st. simpl. by rewrite insert_insert_eq, delete_insert_eq.
  - simpl. by rewrite lookup_insert_eq.
Qed.

Lemma append_ok p path_ ps w :
  faults w = [] → path_ ≠ [] → Forall path_ok ps →
  files w !! path_ = Some (render ps) →
  append_sstable p path_ w =
    (true, if decide (p ∈ ps) then w
           else mkWorld (<[path_ := render (ps ++ [p])]> (files w)) []).
Proof.
  intros Hw Hne Hps Hc. unfold append_sstable. rewrite decide_False by done.
  unfold mbind at 1, ST_bind at 1. rewrite load_ok by done.
  rewrite (live_render _ ps) by done. case_decide; [done|].
  unfold mbind at 1, ST_bind at 1. rewrite FileSystem.open_app_ok by done. simpl.
  rewrite Hc. simpl. unfold mbind at 1, ST_bind at 1.
  rewrite FileSystem.write_ok by done. simpl. rewrite lookup_insert_eq. simpl.
  unfold mbind, ST_bind. rewrite FileSystem.flush_ok by done. unfold_st. simpl.
  rewrite insert_insert_eq, render_app. unfold render at 3. simpl. by rewrite app_nil_r.
Qed.

Lemma render_single p : render [p] = p ++ [nl].
Proof. unfold render. simpl. by rewrite app_nil_r. Qed.

(** Appending under any failures: success leaves the path in the list, a
    failure at most a torn last line. *)
Lemma append_spec p path_ ps w r w' :
  Forall path_ok ps → files w !! path_ = Some (render ps) →
  append_sstable p path_ w = (r, w') →
  (∀ q, q ≠ path_ → files w' !! q = files w !! q) ∧
  if r then files w' !! path_ = Some (render ps) ∧ p ∈ ps ∨
            files w' !! path_ = Some (render (ps ++ [p]))
  else ∃ pre, pre `prefix_of` p ++ [nl] ∧ files w' !! path_ = Some (render ps ++ pre).
Proof.
  intros Hps Hc. unfold append_sstable. case_decide as Hne.
  { unfold_st. intros; simplify_eq. split; [done|]. exists []. rewrite app_nil_r.
    split; [apply prefix_nil|done]. }
  unfold mbind at 1, ST_bind at 1. destruct (load_sstables path_ w) as [ex w1] eqn:E1.
  apply load_spec in E1 as [Hf1 Hex]. case_decide as Hin.
  { unfold_st. intros; simplify_eq. rewrite Hf1. split; [done|]. left. split; [done|].
    destruct Hex as [->|Hex]; [by apply not_elem_of_nil in Hin|].
    by rewrite Hex, (live_render path_ ps w) in Hin. }
  unfold mbind at 1, ST_bind at 1. destruct (FileSystem.open_app path_ w1) as [out w2] eqn:E2.
  apply FileSystem.open_app_spec in E2 as [Hp Hf2]. destruct (ofs_good out) eqn:G; rewrite ?G in Hf2; simpl; cycle 1.
  { unfold_st. intros; simplify_eq. rewrite Hf2, Hf1. split; [done|]. exists [].
    rewrite app_nil_r. split; [apply prefix_nil|done]. }
  unfold mbind at 1, ST_bind at 1. destruct (FileSystem.write out _ w2) as [out3 w3] eqn:E3.
  apply FileSystem.write_spec in E3 as (_ & _ & pre & Hpre & Hgood & Hf3).
  unfold mbind at 1, ST_bind at 1. destruct (FileSystem.flush out3 w3) as [out4 w4] eqn:E4.
  apply FileSystem.flush_spec in E4 as (_ & Hf4 & Hg4). unfold_st. intros; simplify_eq.
  rewrite Hf1, Hc in Hf2. simpl in Hf2. rewrite insert_id in Hf2 by done.
  rewrite Hf4. rewrite Hf2, Hc in Hf3. simpl in Hf3.
  destruct Hf3 as [Hf3|[Hf3 Hbad]]; rewrite Hf3.
  - split; [intros q Hq; by rewrite lookup_insert_ne|]. rewrite lookup_insert_eq.
    destruct (ofs_good out4) eqn:G4; [|by exists pre].
    rewrite Hgood by auto. right. by rewrite render_app, render_single.
  - split; [done|]. destruct (ofs_good out4) eqn:G4; [by rewrite Hg4 in Hbad|].
    exists []. rewrite app_nil_r. split; [apply prefix_nil|done].
Qed.

(** The lines of a manifest whose last line is torn. *)
Lemma lines_torn ps pre :
  Forall path_ok ps → path_ok pre → lines (render ps ++ pre) = ps ++ [pre].
Proof.
  intros Hps [Hpn Hpl]. induction Hps as [|q ps [_ Hq] _ IH]; [by apply lines_single|].
  unfold render. rewrite fmap_cons. cbn [concat]. rewrite <-!app_assoc. cbn [app].
  rewrite lines_app by done. fold (render ps). by rewrite IH.
Qed.

(** ** Properties *)

(** C36: Replacing the manifest is atomic.  Whatever writes, flushes or renames
    fail, the manifest holds the complete new list when [true] is returned and
    is unchanged when [false] is, and no other file changes but the temporary
    one. *)
Theorem replace_atomic ps path_ w :
  let '(r, w') := replace_sstables ps path_ w in
  (∀ p, p ≠ path_ → p ≠ path_ ++ b# ".tmp" → files w' !! p = files w !! p) ∧
  files w' !! path_ = (if r then Some (render ps) else files w !! path_) ∧
  (r = true → Forall path_ok ps → live path_ w' = ps).
Proof.
  destruct (replace_sstables ps path_ w) as [r w'] eqn:E. apply replace_spec in E as [H1 H2].
  split_and!; [done|done|]. intros -> Hps. by apply live_render.
Qed.

(** Appending under any failures keeps the old list: success adds the path to
    it, and a failure leaves at most a torn last line. *)
Theorem append_keeps_list p path_ ps w :
  Forall path_ok ps → path_ok p → files w !! path_ = Some (render ps) →
  let '(r, w') := append_sstable p path_ w in
  (∀ q, q ≠ path_ → files w' !! q = files w !! q) ∧
  (if r then p ∈ live path_ w' ∧ ps `prefix_of` live path_ w' else True) ∧
  ∃ pre, pre `prefix_of` p ++ [nl] ∧ files w' !! path_ = Some (render ps ++ pre).
Proof.
  intros Hps Hp Hc. destruct (append_sstable p path_ w) as [r w'] eqn:E.
  apply (append_spec p path_ ps) in E as [H1 H2]; [|done..]. split; [done|].
  destruct r; [|split; [done|exact H2]]. destruct H2 as [[H2 Hin]|H2].
  - rewrite (live_render _ ps) by done. split; [done|]. exists [].
    rewrite app_nil_r. split; [apply prefix_nil|done].
  - rewrite (live_render _ (ps ++ [p])) by (try done; by apply Forall_app; split; [|constructor]).
    split.
    + split; [set_solver|by apply prefix_app_r].
    + exists (p ++ [nl]). split; [done|]. by rewrite H2, render_app, render_single.
Qed.

(** A torn last line swallows the next append: both paths are lost to readers. *)
Theorem torn_append_glues ps pre p path_ w :
  faults w = [] → path_ ≠ [] → Forall path_ok ps → path_ok pre → path_ok p → p ∉ ps → p ≠ pre →
  files w !! path_ = Some (render ps ++ pre) →
  let '(r, w') := append_sstable p path_ w in
  r = true ∧ live path_ w' = ps ++ [pre ++ p].
Proof.
  intros Hw Hne Hps Hpre Hp Hin Hpp Hc.
  assert (Hlive : live path_ w = ps ++ [pre]).
  { unfold live. rewrite Hc. transitivity (filter (λ l : str, l ≠ []) (ps ++ [pre])).
    - f_equal. by apply lines_torn.
    - apply filter_nonempty. apply Forall_app. by split; [|constructor]. }
  unfold append_sstable. rewrite decide_False by done.
  unfold mbind at 1, ST_bind at 1. rewrite load_ok by done.
  rewrite Hlive, decide_False by set_solver.
  unfold mbind at 1, ST_bind at 1. rewrite FileSystem.open_app_ok by done. simpl.
  split; [done|]. rewrite Hc, lookup_insert_eq, insert_insert_eq. cbn [default].
  apply live_render.
  - apply Forall_app. split; [done|]. constructor; [|constructor].
    destruct Hpre as [? ?], Hp as [? ?]. split; [by destruct pre|]. by rewrite not_elem_of_app.
  - cbn. rewrite lookup_insert_eq. f_equal.
    by rewrite render_app, render_single, <-!app_assoc.
Qed.

End Manifest.
