(* ===== verification/Compactor.v ===== *)
(** * Compaction

    Models [compactor.{h,cpp}]: loading SSTables into one map, sorting each
    key's versions by time, dropping repeated timestamps, writing the result. *)

From S2P Require Import Prelude CxxString OrdMap FileSystem MemTable SSTable.
Import CxxString.

(** [std::sort] with the timestamp comparison: some sorted permutation; the
    order it leaves among equal timestamps is the library's choice. *)
Definition not_newer (v1 v2 : Version) : Prop := (timestamp v1 ≤ timestamp v2)%N.

Class SortVersions := {
  sort_versions : list Version → list Version;
  sort_versions_perm vs : sort_versions vs ≡ₚ vs;
  sort_versions_sorted vs : StronglySorted not_newer (sort_versions vs);
}.

#[export] Instance not_newer_dec v1 v2 : Decision (not_newer v1 v2).
Proof. unfold not_newer. apply _. Defined.
#[export] Instance not_newer_total : Total not_newer.
Proof. intros v1 v2. unfold not_newer. lia. Qed.
#[export] Instance not_newer_trans : Transitive not_newer.
Proof. intros v1 v2 v3. unfold not_newer. lia. Qed.

(** One such sort. *)
Definition merge_sort_versions : SortVersions := {|
  sort_versions := merge_sort not_newer;
  sort_versions_perm vs := merge_sort_Permutation not_newer vs;
  sort_versions_sorted vs := StronglySorted_merge_sort not_newer vs;
|}.

Module Compactor.

(** ** Operations *)

(** The line loop of [load_sstable]: the flag it returns and the map it filled. *)
Fixpoint load_rows (ls : list str) (merged : Entries) : bool * Entries :=
  match ls with
  | [] => (true, merged)
  | line :: ls' =>
      if decide (line = []) then load_rows ls' merged
      else
        match SSTable.parse_row line with
        | None => (false, merged)
        | Some (key, ts, type, rest) =>
            if decide (type = "P"%char) then
              load_rows ls'
                (MemTable.push_back key (mkVersion ts (Some (SSTable.row_value rest))) merged)
            else if decide (type = "D"%char) then
              load_rows ls' (MemTable.push_back key (mkVersion ts None) merged)
            else (false, merged)
        end
  end.

Definition load_sstable (path : str) (merged : Entries) : io (bool * Entries) :=
  c ← FileSystem.read_file path;
  match c with
  | None => mret (false, merged)
  | Some content => mret (load_rows (lines content) merged)
  end.

(** The loop over the inputs; [None] is the early [return false]. *)
Fixpoint load_all (paths : list str) (merged : Entries) : io (option Entries) :=
  match paths with
  | [] => mret (Some merged)
  | path :: paths' =>
      '(ok, merged) ← load_sstable path merged;
      if negb ok then mret None else load_all paths' merged
  end.

(** [std::unique] on equal timestamps: the first version of each run stays. *)
Fixpoint unique_after (kept : Version) (vs : list Version) : list Version :=
  match vs with
  | [] => []
  | v :: vs' =>
      if decide (timestamp kept = timestamp v) then unique_after kept vs'
      else v :: unique_after v vs'
  end.
Definition unique (vs : list Version) : list Version :=
  match vs with
  | [] => []
  | v :: vs' => v :: unique_after v vs'
  end.

Definition normalise `{SortVersions} (merged : Entries) : Entries :=
  (λ b, (b.1, unique (sort_versions b.2))) <$> merged.

Definition compact `{SortVersions} (input_paths : list str) (output_path : str) : io bool :=
  if decide (input_paths = []) then mret false
  else
    o ← load_all input_paths [];
    match o with
    | None => mret false
    | Some merged => SSTable.write output_path (normalise merged)
    end.

(** ** Specification *)

(** The versions two tables hold together agree where their times coincide. *)
Definition consistent (e1 e2 : Entries) : Prop :=
  ∀ key v1 v2, v1 ∈ MemTable.versions_of key e1 → v2 ∈ MemTable.versions_of key e2 →
    timestamp v1 = timestamp v2 → v1 = v2.

Definition merge_tables (es : list Entries) : Entries :=
  foldl (foldl (λ m r, MemTable.push_back r.1 r.2 m)) [] (SSTable.flatten <$> es).

(** ** Lemmas: loading *)

Lemma load_rows_records rs m :
  Forall SSTable.row_ok rs →
  load_rows (SSTable.record_line <$> rs) m =
    (true, foldl (λ m r, MemTable.push_back r.1 r.2 m) m rs).
Proof.
  intros H. revert m. induction H as [|[k v] rs Hr _ IH]; intros m; [done|].
  rewrite fmap_cons. cbn [load_rows foldl fst snd].
  rewrite decide_False by (by apply SSTable.record_line_nonempty).
  rewrite SSTable.parse_record_line by done. cbn [fst snd].
  destruct v as [ts [s|]]; unfold SSTable.row_type, SSTable.row_rest; simpl.
  - rewrite IH. destruct Hr as [_ [_ Hv]]. by rewrite SSTable.row_value_rest.
  - by rewrite IH.
Qed.

Lemma load_all_ok paths es m w :
  faults w = [] → Forall SSTable.entries_ok es →
  Forall2 (λ p e, files w !! p = Some (SSTable.render e)) paths es →
  load_all paths m w =
    (Some (foldl (foldl (λ m r, MemTable.push_back r.1 r.2 m)) m (SSTable.flatten <$> es)), w).
Proof.
  intros Hw Hok HF. revert m Hok. induction HF as [|p e paths es Hp _ IH]; intros m Hok; [done|].
  apply Forall_cons in Hok as [He Hok]. cbn [load_all].
  unfold mbind at 1, ST_bind at 1. unfold load_sstable. unfold mbind at 1, ST_bind at 1.
  rewrite FileSystem.read_file_ok, Hp by done.
  unfold SSTable.render. rewrite SSTable.lines_render by (by apply SSTable.entries_ok_rows).
  rewrite load_rows_records by (by apply SSTable.entries_ok_rows).
  unfold mret at 1, ST_ret at 1. cbn [negb]. rewrite IH by done. done.
Qed.

Lemma foldl_push_sorted rs m :
  OrdMap.sorted m → OrdMap.sorted (foldl (λ m r, MemTable.push_back r.1 r.2 m) m rs).
Proof.
  revert m. induction rs as [|r rs IH]; intros m Hm; simpl; [done|].
  apply IH. by apply OrdMap.sorted_update.
Qed.

Lemma versions_foldl_push key rs m :
  OrdMap.sorted m →
  MemTable.versions_of key (foldl (λ m r, MemTable.push_back r.1 r.2 m) m rs) =
  MemTable.versions_of key m ++ (filter (λ r, r.1 = key) rs).*2.
Proof.
  revert m. induction rs as [|[k v] rs IH]; intros m Hm; simpl; [by rewrite app_nil_r|].
  rewrite IH by (by apply OrdMap.sorted_update).
  rewrite MemTable.versions_of_push by done. rewrite filter_cons. simpl.
  repeat case_decide; subst; try done. by rewrite <-app_assoc.
Qed.

Lemma filter_key_all (key k : str) vs :
  (filter (λ r, r.1 = key) ((λ v : Version, (k, v)) <$> vs)).*2 = if decide (k = key) then vs else [].
Proof.
  induction vs as [|v vs IH]; [by case_decide|]. rewrite fmap_cons, filter_cons. cbn [fst].
  destruct (decide (k = key)) as [E|E]; by rewrite ?fmap_cons, IH.
Qed.

Lemma versions_flatten key e :
  OrdMap.sorted e →
  (filter (λ r, r.1 = key) (SSTable.flatten e)).*2 = MemTable.versions_of key e.
Proof.
  unfold OrdMap.sorted, MemTable.versions_of. induction e as [|[k vs] e IH]; intros S; [done|].
  cbn in S. apply StronglySorted_inv in S as [S F].
  rewrite SSTable.flatten_cons, filter_app, fmap_app, filter_key_all. cbn [OrdMap.find].
  rewrite IH by done. case_decide; subst; [|done].
  rewrite OrdMap.find_lt_None by done. simpl. by rewrite app_nil_r.
Qed.

Lemma merge_sorted es m :
  OrdMap.sorted m →
  OrdMap.sorted (foldl (foldl (λ m r, MemTable.push_back r.1 r.2 m)) m (SSTable.flatten <$> es)).
Proof.
  revert m. induction es as [|e es IH]; intros m Hm; simpl; [done|].
  apply IH. by apply foldl_push_sorted.
Qed.

Lemma merge2_versions key e1 e2 :
  OrdMap.sorted e1 → OrdMap.sorted e2 →
  MemTable.versions_of key (merge_tables [e1; e2]) =
  MemTable.versions_of key e1 ++ MemTable.versions_of key e2.
Proof.
  intros S1 S2. unfold merge_tables. cbn [fmap list_fmap foldl].
  assert (OrdMap.sorted (A := list Version) []) by constructor.
  rewrite versions_foldl_push by (by apply foldl_push_sorted).
  rewrite versions_foldl_push by done. by rewrite !versions_flatten.
Qed.

(** ** Lemmas: sorting and deduplication *)

Lemma unique_after_ordered kept vs :
  StronglySorted not_newer (kept :: vs) → MemTable.ordered (kept :: unique_after kept vs).
Proof.
  revert kept. induction vs as [|v vs IH]; intros kept S; simpl; [repeat constructor|].
  apply StronglySorted_inv in S as [S F]. apply Forall_cons in F as [Hv F].
  case_decide as Ht.
  - apply IH. apply StronglySorted_inv in S as [S _]. by constructor.
  - specialize (IH v S). constructor; [done|].
    assert (Hlt : MemTable.older kept v) by (unfold MemTable.older, not_newer in *; lia).
    constructor; [done|]. apply StronglySorted_inv in IH as [_ IH].
    eapply Forall_impl; [exact IH|]. unfold MemTable.older in *. intros; lia.
Qed.

Lemma unique_ordered vs : StronglySorted not_newer vs → MemTable.ordered (unique vs).
Proof. destruct vs as [|v vs]; [constructor|]. apply unique_after_ordered. Qed.

Lemma unique_after_elem kept vs v : v ∈ unique_after kept vs → v ∈ vs.
Proof.
  revert kept. induction vs as [|x vs IH]; intros kept; simpl; [done|].
  case_decide; rewrite !elem_of_cons; naive_solver.
Qed.

Lemma unique_elem vs v : v ∈ unique vs → v ∈ vs.
Proof.
  destruct vs as [|x vs]; [done|]. simpl. rewrite !elem_of_cons.
  intros [?|?%unique_after_elem]; auto.
Qed.

(** Every timestamp survives deduplication. *)
Lemma unique_after_cover kept vs v :
  v ∈ vs → ∃ v', v' ∈ kept :: unique_after kept vs ∧ timestamp v' = timestamp v.
Proof.
  revert kept. induction vs as [|x vs IH]; intros kept Hin; [by apply not_elem_of_nil in Hin|].
  simpl. apply elem_of_cons in Hin as [->|Hin]; case_decide.
  - exists kept. split; [by left|done].
  - exists x. split; [by right; left|done].
  - by apply IH.
  - destruct (IH x Hin) as (v' & Hv' & ?). exists v'. split; [by right|done].
Qed.

Lemma unique_cover vs v : v ∈ vs → ∃ v', v' ∈ unique vs ∧ timestamp v' = timestamp v.
Proof.
  destruct vs as [|x vs]; [by intros ?%not_elem_of_nil|]. simpl.
  intros [->|Hin]%elem_of_cons; [exists x; split; [by left|done]|]. by apply unique_after_cover.
Qed.

Section Normalise.
Context `{SortVersions}.

Lemma normalise_versions key m :
  MemTable.versions_of key (normalise m) = unique (sort_versions (MemTable.versions_of key m)) ∨
  MemTable.versions_of key m = [] ∧ MemTable.versions_of key (normalise m) = [].
Proof using.
  unfold MemTable.versions_of, normalise. induction m as [|[k vs] m IH]; [by right|].
  rewrite fmap_cons. cbn [OrdMap.find fst snd]. case_decide; [by left|]. exact IH.
Qed.

Lemma normalise_keys m : (normalise m).*1 = m.*1.
Proof using. unfold normalise. rewrite <-list_fmap_compose. done. Qed.

Lemma normalise_wf m :
  OrdMap.sorted m → Forall (λ b, b.2 ≠ []) m → MemTable.wf_entries (normalise m).
Proof using.
  intros S Hne. split; [unfold OrdMap.sorted; by rewrite normalise_keys|].
  unfold normalise. apply Forall_fmap. eapply Forall_impl; [exact Hne|].
  intros [k vs] Hvs. simpl in *. split.
  - pose proof (sort_versions_perm vs) as P. destruct (sort_versions vs); [|done].
    by apply Permutation_nil_l in P.
  - apply unique_ordered, sort_versions_sorted.
Qed.

Lemma normalise_ok m : SSTable.entries_ok m → SSTable.entries_ok (normalise m).
Proof using.
  intros Hok. unfold normalise, SSTable.entries_ok. apply Forall_fmap.
  eapply Forall_impl; [exact Hok|]. intros [k vs] [Hk Hv]. simpl in *. split; [done|].
  apply Forall_forall. intros v Hin%unique_elem. rewrite sort_versions_perm in Hin.
  rewrite Forall_forall in Hv. by apply Hv.
Qed.

(** The newest visible version of the union is what the merged key answers,
    when versions of one time agree. *)
Lemma normalise_visible key m t v :
  (∀ v1 v2, v1 ∈ MemTable.versions_of key m → v2 ∈ MemTable.versions_of key m →
     timestamp v1 = timestamp v2 → v1 = v2) →
  MemTable.visible (MemTable.versions_of key m) t v →
  MemTable.scan t (reverse (MemTable.versions_of key (normalise m))) = MemTable.result_of v.
Proof using.
  intros Hagree (Hin & Hle & Hmax).
  destruct (normalise_versions key m) as [->|[E _]]; [|rewrite E in Hin; by apply not_elem_of_nil in Hin].
  set (vs := MemTable.versions_of key m) in *.
  assert (Hsub : ∀ x, x ∈ unique (sort_versions vs) → x ∈ vs).
  { intros x Hx%unique_elem. by rewrite sort_versions_perm in Hx. }
  apply MemTable.scan_visible; [apply unique_ordered, sort_versions_sorted|].
  split_and!; [|done|].
  - destruct (unique_cover (sort_versions vs) v) as (v' & Hv' & Ht); [by rewrite sort_versions_perm|].
    assert (v' = v) as <- by auto. done.
  - intros v' Hv'. by apply Hmax, Hsub.
Qed.

End Normalise.

Lemma push_back_ok key v m :
  SSTable.key_ok key → SSTable.version_ok v → SSTable.entries_ok m →
  SSTable.entries_ok (MemTable.push_back key v m).
Proof.
  intros Hk Hv Hm. apply Forall_forall. intros [k vs] Hin.
  unfold SSTable.entries_ok in Hm. rewrite Forall_forall in Hm.
  apply OrdMap.find_update_value in Hin as [Hin|(-> & o & -> & Ho)]; [by apply Hm in Hin|].
  split; [done|]. apply Forall_app. split; [|by constructor].
  destruct Ho as [->|(vs & -> & Hin)]; [constructor|]. by apply Hm in Hin as [_ ?].
Qed.

Lemma foldl_push_ok rs m :
  Forall SSTable.row_ok rs → SSTable.entries_ok m →
  SSTable.entries_ok (foldl (λ m r, MemTable.push_back r.1 r.2 m) m rs).
Proof.
  intros Hr. revert m. induction Hr as [|[k v] rs [Hk Hv] _ IH]; intros m Hm; simpl; [done|].
  apply IH. by apply push_back_ok.
Qed.

Lemma push_back_nonempty key v m :
  Forall (λ b : str * list Version, b.2 ≠ []) m →
  Forall (λ b : str * list Version, b.2 ≠ []) (MemTable.push_back key v m).
Proof.
  intros Hm. apply Forall_forall. intros [k vs] Hin. rewrite Forall_forall in Hm.
  apply OrdMap.find_update_value in Hin as [Hin|(-> & o & -> & Ho)]; [by apply Hm in Hin|].
  simpl. by destruct (default [] o).
Qed.

Lemma foldl_push_nonempty rs m :
  Forall (λ b : str * list Version, b.2 ≠ []) m →
  Forall (λ b : str * list Version, b.2 ≠ []) (foldl (λ m r, MemTable.push_back r.1 r.2 m) m rs).
Proof.
  revert m. induction rs as [|r rs IH]; intros m Hm; simpl; [done|].
  apply IH. by apply push_back_nonempty.
Qed.

Lemma merge2_ok e1 e2 :
  SSTable.entries_ok e1 → SSTable.entries_ok e2 →
  SSTable.entries_ok (merge_tables [e1; e2]).
Proof.
  intros H1 H2. unfold merge_tables. cbn [fmap list_fmap foldl].
  apply foldl_push_ok; [by apply SSTable.entries_ok_rows|].
  apply foldl_push_ok; [by apply SSTable.entries_ok_rows|]. constructor.
Qed.

Lemma merge2_wf `{SortVersions} e1 e2 : MemTable.wf_entries (normalise (merge_tables [e1; e2])).
Proof.
  apply normalise_wf.
  - apply merge_sorted. constructor.
  - unfold merge_tables. cbn [fmap list_fmap foldl]. do 2 apply foldl_push_nonempty. constructor.
Qed.

Lemma compact2_ok `{SortVersions} p1 p2 out e1 e2 w :
  faults w = [] → SSTable.entries_ok e1 → SSTable.entries_ok e2 →
  files w !! p1 = Some (SSTable.render e1) → files w !! p2 = Some (SSTable.render e2) →
  compact [p1; p2] out w =
    (true, mkWorld (<[out := SSTable.render (normalise (merge_tables [e1; e2]))]> (files w)) []).
Proof.
  intros Hw H1 H2 F1 F2. unfold compact. rewrite decide_False by done.
  unfold mbind, ST_bind. rewrite (load_all_ok _ [e1; e2]); [|done|by repeat constructor|by repeat constructor].
  by rewrite SSTable.write_table_ok.
Qed.

(** The merged table answers with the newest visible version of the union. *)
Lemma merge2_agree key e1 e2 v1 v2 :
  MemTable.wf_entries e1 → MemTable.wf_entries e2 → consistent e1 e2 →
  v1 ∈ MemTable.versions_of key (merge_tables [e1; e2]) →
  v2 ∈ MemTable.versions_of key (merge_tables [e1; e2]) →
  timestamp v1 = timestamp v2 → v1 = v2.
Proof.
  intros W1 W2 Hc.
  rewrite merge2_versions by (by apply MemTable.wf_sorted).
  rewrite !elem_of_app. intros [H1|H1] [H2|H2] E.
  - eapply MemTable.ordered_inj; [by apply (MemTable.versions_of_ordered key e1)|done..].
  - by eapply Hc.
  - symmetry. by eapply Hc.
  - eapply MemTable.ordered_inj; [by apply (MemTable.versions_of_ordered key e2)|done..].
Qed.

Lemma normalise_none `{SortVersions} key t m :
  (∀ v, v ∈ MemTable.versions_of key m → (t < timestamp v)%N) →
  MemTable.scan t (reverse (MemTable.versions_of key (normalise m))) = not_found.
Proof.
  intros Hn. apply MemTable.scan_none. intros v. rewrite elem_of_reverse.
  destruct (normalise_versions key m) as [->|[_ ->]]; [|by intros ?%not_elem_of_nil].
  intros Hin%unique_elem. rewrite sort_versions_perm in Hin. by apply Hn.
Qed.

(** ** Lemmas: compaction under any failures *)

Lemma load_all_spec paths es m w o w' :
  Forall SSTable.entries_ok es →
  Forall2 (λ p e, files w !! p = Some (SSTable.render e)) paths es →
  load_all paths m w = (o, w') →
  files w' = files w ∧
  ∀ merged, o = Some merged →
    merged = foldl (foldl (λ m r, MemTable.push_back r.1 r.2 m)) m (SSTable.flatten <$> es).
Proof.
  intros Hok HF. revert m w w' Hok HF. revert es. induction paths as [|p paths IH]; intros es m w w' Hok HF.
  - apply Forall2_nil_inv_l in HF as ->. cbn. unfold_st. intros; simplify_eq. naive_solver.
  - apply Forall2_cons_inv_l in HF as (e & es' & Hp & HF & ->).
    apply Forall_cons in Hok as [He Hok]. cbn [load_all]. unfold load_sstable.
    unfold mbind at 1, ST_bind at 1. unfold mbind at 1, ST_bind at 1.
    destruct (FileSystem.read_file p w) as [[c|] w1] eqn:E.
    + apply FileSystem.read_file_Some in E as [Hc Hf]. rewrite Hp in Hc. simplify_eq.
      unfold SSTable.render. rewrite SSTable.lines_render by (by apply SSTable.entries_ok_rows).
      rewrite load_rows_records by (by apply SSTable.entries_ok_rows).
      unfold mret at 1, ST_ret at 1. cbn [negb]. intros R.
      apply (IH es') in R as [Hf' R]; [|done|by rewrite Hf]. split; [congruence|]. exact R.
    + pose proof (FileSystem.read_file_files p w) as Hf. rewrite E in Hf. simpl in Hf.
      unfold_st. simpl. intros; simplify_eq. done.
Qed.

(** Whatever fails, only the output file changes, and success leaves the
    complete merged table there. *)
Lemma compact2_spec `{SortVersions} p1 p2 out e1 e2 w r w' :
  SSTable.entries_ok e1 → SSTable.entries_ok e2 →
  files w !! p1 = Some (SSTable.render e1) → files w !! p2 = Some (SSTable.render e2) →
  compact [p1; p2] out w = (r, w') →
  (∀ p, p ≠ out → files w' !! p = files w !! p) ∧
  (r = true → files w' !! out = Some (SSTable.render (normalise (merge_tables [e1; e2])))).
Proof.
  intros H1 H2 F1 F2. unfold compact. rewrite decide_False by done.
  unfold mbind, ST_bind. destruct (load_all [p1; p2] [] w) as [o w1] eqn:E.
  apply (load_all_spec _ [e1; e2]) in E as [Hf Ho]; [|by repeat constructor|by repeat constructor].
  destruct o as [merged|]; [|unfold_st; intros; simplify_eq; by rewrite Hf].
  intros W. apply SSTable.write_table_spec in W as [Hoth W]. rewrite Hf in Hoth.
  split; [done|]. intros ->. by rewrite W, (Ho merged).
Qed.

End Compactor.
