(* ===== verification/Crc32.v ===== *)
(** * CRC-32 of the write-ahead log

    Models [crc32_update] of [wal.cpp]: the lookup table and the byte loop, with
    the bit-by-bit CRC as reference. *)

From S2P Require Import Prelude.

Module Crc32.

Definition poly : N := 0xEDB88320.

(** One round of the table's inner loop. *)
Definition bit_step (c : N) : N :=
  if negb (N.land c 1 =? 0)%N then N.lxor poly (N.shiftr c 1) else N.shiftr c 1.

Definition table_entry (i : N) : N := Nat.iter 8 bit_step i.

(** [static uint32_t table\[256\]]. *)
Definition table : list N := table_entry <$> (N.of_nat <$> seq 0 256).

Definition byte_step (crc : N) (b : ascii) : N :=
  N.lxor (default 0%N (table !! N.to_nat (N.land (N.lxor crc (code b)) 255)))
         (N.shiftr crc 8).

(** [~crc] on 32 bits. *)
Definition complement32 (crc : N) : N := N.lxor crc 0xFFFFFFFF.

Definition crc32_update (crc : N) (data : str) : N :=
  complement32 (foldl byte_step (complement32 crc) data).

(** ** Reference: the CRC register shifted bit by bit *)

Definition byte_step_ref (crc : N) (b : ascii) : N :=
  Nat.iter 8 bit_step (N.lxor crc (code b)).

Definition crc32_ref (crc : N) (data : str) : N :=
  complement32 (foldl byte_step_ref (complement32 crc) data).

(** ** Lemmas *)

Lemma poly_fits : fits 32 poly.
Proof. done. Qed.

Lemma poly_top : N.testbit poly 31 = true.
Proof. done. Qed.

Lemma land_1 c : negb (N.land c 1 =? 0)%N = N.testbit c 0.
Proof. change 1%N with (2 ^ 0)%N. by rewrite land_pow2_testbit, negb_involutive. Qed.

Lemma bit_step_eq c :
  bit_step c = if N.testbit c 0 then N.lxor poly (N.shiftr c 1) else N.shiftr c 1.
Proof. unfold bit_step. by rewrite land_1. Qed.

Lemma fits_shiftr w c k : fits w c → fits w (N.shiftr c k).
Proof. rewrite !fits_testbit. intros H i Hi. rewrite N.shiftr_spec'. apply H. lia. Qed.

Lemma bit_step_fits c : fits 32 c → fits 32 (bit_step c).
Proof.
  intros H. rewrite bit_step_eq. pose proof (fits_shiftr 32 c 1 H).
  case_match; [|done]. by apply fits_lxor.
Qed.

Lemma iter_bit_step_fits n c : fits 32 c → fits 32 (Nat.iter n bit_step c).
Proof. intros H. induction n as [|n IH]; simpl; [done|]. by apply bit_step_fits. Qed.

(** The register's rounds are linear over exclusive or. *)
Lemma bit_step_lxor a b : bit_step (N.lxor a b) = N.lxor (bit_step a) (bit_step b).
Proof.
  rewrite !bit_step_eq, N.lxor_spec, N.shiftr_lxor.
  destruct (N.testbit a 0), (N.testbit b 0); simpl; apply N.bits_inj; intros i;
    rewrite ?N.lxor_spec; destruct (N.testbit poly i), (N.testbit (N.shiftr a 1) i),
      (N.testbit (N.shiftr b 1) i); done.
Qed.

Lemma iter_lxor n a b :
  Nat.iter n bit_step (N.lxor a b) = N.lxor (Nat.iter n bit_step a) (Nat.iter n bit_step b).
Proof. induction n as [|n IH]; simpl; [done|]. by rewrite IH, bit_step_lxor. Qed.

Lemma iter_shiftl n h : Nat.iter n bit_step (N.shiftl h (N.of_nat n)) = h.
Proof.
  revert h. induction n as [|n IH]; intros h; [by rewrite N.shiftl_0_r|].
  rewrite Nat.iter_succ_r. rewrite bit_step_eq.
  rewrite N.shiftl_spec_low by lia. rewrite N.shiftr_shiftl_l by lia.
  replace (N.of_nat (S n) - 1)%N with (N.of_nat n) by lia. apply IH.
Qed.

Lemma table_lookup i : (i < 256)%N → table !! N.to_nat i = Some (table_entry i).
Proof.
  intros Hi. unfold table. rewrite !list_lookup_fmap, lookup_seq_lt by lia. simpl.
  by rewrite N2Nat.id.
Qed.

Lemma land_255 x : N.land x 255 = wrap8 x.
Proof. change 255%N with (N.ones 8). by rewrite N.land_ones. Qed.

(** The table-driven step is eight rounds of the register. *)
Lemma byte_step_ref_eq crc b : byte_step crc b = byte_step_ref crc b.
Proof.
  unfold byte_step, byte_step_ref. set (x := N.lxor crc (code b)).
  rewrite land_255, table_lookup by apply (fits_wrap 8). simpl default.
  assert (Hx : x = N.lxor (wrap8 x) (N.shiftl (N.shiftr crc 8) 8)).
  { apply N.bits_inj. intros i. rewrite N.lxor_spec, testbit_wrap.
    destruct (N.ltb_spec i 8).
    - rewrite N.shiftl_spec_low by done. by rewrite xorb_false_r.
    - rewrite N.shiftl_spec_high', N.shiftr_spec' by done.
      replace (i - 8 + 8)%N with i by lia. unfold x. rewrite N.lxor_spec.
      rewrite (proj1 (fits_testbit 8 (code b)) (code_lt b)) by done.
      by rewrite xorb_false_r. }
  rewrite Hx at 2. rewrite iter_lxor. f_equal. symmetry. apply (iter_shiftl 8).
Qed.

Lemma foldl_step_eq data crc : foldl byte_step crc data = foldl byte_step_ref crc data.
Proof.
  revert crc. induction data as [|b data IH]; intros crc; simpl; [done|].
  by rewrite byte_step_ref_eq, IH.
Qed.

(** Rounds, and hence steps, are injective on the 32-bit register. *)
Lemma bit_step_inj a b : fits 32 a → fits 32 b → bit_step a = bit_step b → a = b.
Proof.
  rewrite !fits_testbit, !bit_step_eq. intros Ha Hb.
  assert (Hbits : ∀ x y, N.shiftr x 1 = N.shiftr y 1 → N.testbit x 0 = N.testbit y 0 → x = y).
  { intros x y Hs H0. apply N.bits_inj. intros i. destruct (N.eqb_spec i 0) as [->|]; [done|].
    apply (f_equal (λ z, N.testbit z (i - 1))) in Hs. rewrite !N.shiftr_spec' in Hs.
    by replace (i - 1 + 1)%N with i in Hs by lia. }
  assert (Htop : ∀ x, (∀ i, (32 ≤ i)%N → N.testbit x i = false) →
    N.testbit (N.shiftr x 1) 31 = false).
  { intros x Hx. rewrite N.shiftr_spec'. by apply Hx. }
  destruct (N.testbit a 0) eqn:Ea, (N.testbit b 0) eqn:Eb; intros H.
  - apply lxor_inj_r in H. apply Hbits; congruence.
  - apply (f_equal (λ z, N.testbit z 31)) in H.
    by rewrite N.lxor_spec, poly_top, !Htop in H.
  - apply (f_equal (λ z, N.testbit z 31)) in H.
    by rewrite N.lxor_spec, poly_top, !Htop in H.
  - apply Hbits; congruence.
Qed.

Lemma iter_inj n a b :
  fits 32 a → fits 32 b → Nat.iter n bit_step a = Nat.iter n bit_step b → a = b.
Proof.
  intros Ha Hb. induction n as [|n IH]; simpl; [done|].
  intros H%bit_step_inj; [by apply IH|by apply iter_bit_step_fits..].
Qed.

Lemma code_fits32 b : fits 32 (code b).
Proof. pose proof (code_lt b). unfold fits. lia. Qed.

Lemma step_ref_fits c b : fits 32 c → fits 32 (byte_step_ref c b).
Proof. intros. apply iter_bit_step_fits, fits_lxor; [done|]. apply code_fits32. Qed.

Lemma step_ref_inj_crc c1 c2 b :
  fits 32 c1 → fits 32 c2 → byte_step_ref c1 b = byte_step_ref c2 b → c1 = c2.
Proof.
  intros H1 H2 H%iter_inj; [by apply lxor_inj_l in H| |];
    apply fits_lxor; auto using code_fits32.
Qed.

Lemma step_ref_inj_byte c b1 b2 :
  fits 32 c → byte_step_ref c b1 = byte_step_ref c b2 → b1 = b2.
Proof.
  intros Hc H%iter_inj; [|apply fits_lxor; auto using code_fits32..].
  apply lxor_inj_r in H. by apply code_inj.
Qed.

Lemma foldl_ref_fits data c : fits 32 c → fits 32 (foldl byte_step_ref c data).
Proof.
  revert c. induction data as [|b data IH]; intros c Hc; simpl; [done|].
  apply IH. by apply step_ref_fits.
Qed.

Lemma foldl_ref_inj data c1 c2 :
  fits 32 c1 → fits 32 c2 →
  foldl byte_step_ref c1 data = foldl byte_step_ref c2 data → c1 = c2.
Proof.
  revert c1 c2. induction data as [|b data IH]; intros c1 c2 H1 H2; simpl; [done|].
  intros H%IH; [|by apply step_ref_fits..]. by apply step_ref_inj_crc in H.
Qed.

Lemma complement32_involutive c : complement32 (complement32 c) = c.
Proof. unfold complement32. by rewrite N.lxor_assoc, N.lxor_nilpotent, N.lxor_0_r. Qed.

Lemma complement32_fits c : fits 32 c → fits 32 (complement32 c).
Proof. intros. by apply fits_lxor. Qed.

Lemma crc32_fits crc data : fits 32 crc → fits 32 (crc32_update crc data).
Proof.
  intros. unfold crc32_update. rewrite foldl_step_eq.
  by apply complement32_fits, foldl_ref_fits, complement32_fits.
Qed.

(** Updating piecewise is updating with the concatenation. *)
Lemma crc32_app crc a b :
  crc32_update (crc32_update crc a) b = crc32_update crc (a ++ b).
Proof.
  unfold crc32_update. by rewrite complement32_involutive, foldl_app.
Qed.

(** Two messages that differ in exactly one byte have different checksums. *)
Lemma crc32_one_byte a x y b :
  x ≠ y → crc32_update 0 (a ++ x :: b) ≠ crc32_update 0 (a ++ y :: b).
Proof.
  intros Hne H. unfold crc32_update in H. apply lxor_inj_l in H.
  rewrite !foldl_step_eq, !foldl_app in H. cbn [foldl] in H.
  assert (Hc : fits 32 (foldl byte_step_ref (complement32 0) a))
    by (by apply foldl_ref_fits, complement32_fits).
  apply foldl_ref_inj in H; [|by apply step_ref_fits..].
  by apply step_ref_inj_byte in H.
Qed.

Example crc32_check : crc32_update 0 (b# "123456789") = 0xCBF43926%N.
Proof. vm_compute. reflexivity. Qed.

(** ** Properties *)

(** C34: The table-driven checksum is the CRC-32 of the reference: it equals the
    register shifted bit by bit, stays in 32 bits, and may be computed piecewise. *)
Theorem crc32_is_reference crc a b :
  crc32_update crc a = crc32_ref crc a ∧
  (fits 32 crc → fits 32 (crc32_update crc a)) ∧
  crc32_update (crc32_update crc a) b = crc32_update crc (a ++ b).
Proof.
  split_and!; [|apply crc32_fits|apply crc32_app].
  unfold crc32_update, crc32_ref. by rewrite foldl_step_eq.
Qed.

(** The checksum detects every corruption of a single byte, whatever its
    position and the length of the message. *)
Theorem crc32_detects_byte_change a x y b :
  x ≠ y → crc32_update 0 (a ++ x :: b) ≠ crc32_update 0 (a ++ y :: b).
Proof. apply crc32_one_byte. Qed.

Lemma crc32_detects_byte_change_witness :
  crc32_update 0 (b# "WAL1") ≠ crc32_update 0 (b# "WBL1").
Proof.
  apply (crc32_detects_byte_change (b# "W") "A"%char "B"%char (b# "L1")). discriminate.
Defined.

End Crc32.
