(* ===== verification/Wal.v ===== *)
(** * The write-ahead log

    Models [wal.{h,cpp}]: the record codec, the group-commit buffer, [flush]
    with its write loop, [replay_into] with its read loop and validity checks,
    [truncate_to_last_good], [open] and [close].  Multi-byte header fields are
    little-endian, as [memcpy] of the packed struct leaves them on the
    platforms the project builds for.  [lseek] on a regular file does not
    fail. *)

From S2P Require Import Prelude FileSystem MemTable Crc32.

Module Wal.

(** ** The record format *)

Inductive Type_ := Put | Del.

#[global] Instance Type_eq_dec : EqDecision Type_.
Proof. solve_decision. Defined.

(** A logged mutation. *)
Record LogRecord := mkLogRecord {
  lr_type : Type_;
  lr_seq : N;
  lr_key : str;
  lr_val : str;
}.

(** [struct WalHeader], packed. *)
Record WalHeader := mkHeader {
  magic : N; version : N; type : N; key_len : N; val_len : N; seq : N;
}.

Definition kMagic : N := 0x474C564B.
Definition kVersion : N := 1.
Definition type_code (t : Type_) : N := match t with Put => 1 | Del => 2 end.

(** [n] little-endian bytes of a value, and their value. *)
Fixpoint le_bytes (n : nat) (x : N) : str :=
  match n with
  | O => []
  | S n' => chr (x mod 256) :: le_bytes n' (x / 256)
  end.
Fixpoint le_value (s : str) : N :=
  match s with
  | [] => 0
  | c :: s' => code c + 256 * le_value s'
  end.

Definition header_bytes (h : WalHeader) : str :=
  le_bytes 4 (magic h) ++ le_bytes 2 (version h) ++ le_bytes 1 (type h) ++
  le_bytes 4 (key_len h) ++ le_bytes 4 (val_len h) ++ le_bytes 8 (seq h).

(** [sizeof(WalHeader)]. *)
Definition header_size : nat := 23.

Definition field (pos len : nat) (s : str) : N := le_value (take len (drop pos s)).
Definition header_of (s : str) : WalHeader :=
  mkHeader (field 0 4 s) (field 4 2 s) (field 6 1 s) (field 7 4 s) (field 11 4 s) (field 15 8 s).

(** ** The log object *)

Record Wal := mkWal {
  buffer_ : list str;
  fd_ : option nat;          (** the descriptor's file offset; [None] is -1 *)
  path_ : str;
  last_good_offset_ : N;
}.

Definition empty_wal : Wal := mkWal [] None [] 0.

Definition set_fd (fd : option nat) (l : Wal) : Wal :=
  mkWal (buffer_ l) fd (path_ l) (last_good_offset_ l).

(** ** System calls on the log's file *)

Inductive read_result := Got (bytes : str) | Eintr | Eio.

Definition content_of (path : str) (w : World) : str := default [] (files w !! path).

(** [::read(fd, buf, n)] at offset [pos]; an empty result is end of file. *)
Definition sys_read (path : str) (pos n : nat) : io read_result :=
  o ← FileSystem.next;
  content ← gets (content_of path);
  let available := take n (drop pos content) in
  mret match o with
       | Done => Got available
       | Short k => Got (take (S k) available)
       | Intr => Eintr
       | Fault => Eio
       end.

(** Bytes written at an offset; a gap past the end reads as zeros. *)
Definition write_at (pos : nat) (data content : str) : str :=
  take pos content ++ replicate (pos - length content) (chr 0) ++ data ++
  drop (pos + length data) content.

(** [::write(fd, p, n)] at offset [pos]: the number of bytes written, or -1. *)
Definition sys_write (path : str) (pos : nat) (data : str) : io (option nat) :=
  o ← FileSystem.next;
  let put d := FileSystem.set_files
    (λ fs, <[path := write_at pos d (default [] (fs !! path))]> fs) in
  match o with
  | Done => put data ;; mret (Some (length data))
  | Short k => put (take k data) ;; mret (Some (Nat.min k (length data)))
  | Intr | Fault => mret None
  end.

Definition sys_fsync : io bool :=
  o ← FileSystem.next; mret (FileSystem.succeeds o).

(** ** Operations *)

Definition open (path : str) (l : Wal) : io (bool * Wal) :=
  o ← FileSystem.next;
  if FileSystem.succeeds o then
    FileSystem.set_files (λ fs, <[path := default [] (fs !! path)]> fs) ;;
    content ← gets (content_of path);
    mret (true, mkWal (buffer_ l) (Some (length content)) path 0)
  else mret (false, mkWal (buffer_ l) None path (last_good_offset_ l)).

Definition close (l : Wal) : Wal :=
  match fd_ l with Some _ => set_fd None l | None => l end.

Definition make_header (t : Type_) (s : N) (key value : str) : WalHeader :=
  mkHeader kMagic kVersion (type_code t)
    (wrap32 (N.of_nat (length key))) (wrap32 (N.of_nat (length value))) s.

(** The bytes of one record, checksum last. *)
Definition encode (t : Type_) (s : N) (key value : str) : str :=
  let h := header_bytes (make_header t s key value) in
  let crc := Crc32.crc32_update 0 h in
  let crc := Crc32.crc32_update crc key in
  let crc := match t with Put => Crc32.crc32_update crc value | Del => crc end in
  h ++ key ++ match t with Put => value | Del => [] end ++ le_bytes 4 crc.

Definition write_record (t : Type_) (s : N) (key value : str) (l : Wal) : bool * Wal :=
  match fd_ l with
  | None => (false, l)
  | Some _ =>
      (true, mkWal (buffer_ l ++ [encode t s key value]) (fd_ l) (path_ l) (last_good_offset_ l))
  end.

Definition append_put (s : N) (key value : str) (l : Wal) : bool * Wal :=
  write_record Put s key value l.
Definition append_del (s : N) (key : str) (l : Wal) : bool * Wal :=
  write_record Del s key [] l.

(** The inner loop of [flush]: write until nothing is left, or fail.  Every
    iteration writes a byte or uses up an outcome, so [fuel] above their number
    is never exhausted. *)
Fixpoint write_loop (fuel : nat) (path : str) (pos : nat) (p : str) : io (bool * nat) :=
  match fuel with
  | O => mret (false, pos)
  | S f =>
      if decide (p = []) then mret (true, pos)
      else
        w ← sys_write path pos p;
        match w with
        | None => mret (false, pos)
        | Some n => write_loop f path (pos + n) (drop n p)
        end
  end.

Definition write_all_fuel (p : str) (w : World) : nat := S (length p + length (faults w)).

Fixpoint flush_records (path : str) (pos : nat) (recs : list str) : io (bool * nat) :=
  match recs with
  | [] => mret (true, pos)
  | rec :: recs' =>
      fuel ← gets (write_all_fuel rec);
      '(ok, pos) ← write_loop fuel path pos rec;
      if negb ok then mret (false, pos) else flush_records path pos recs'
  end.

Definition flush (l : Wal) : io (bool * Wal) :=
  match fd_ l with
  | None => mret (false, l)
  | Some pos =>
      if decide (buffer_ l = []) then mret (true, l)
      else
        '(ok, pos) ← flush_records (path_ l) pos (buffer_ l);
        let l := set_fd (Some pos) l in
        if negb ok then mret (false, l)
        else
          synced ← sys_fsync;
          if negb synced then mret (false, l)
          else mret (true, mkWal [] (fd_ l) (path_ l) (last_good_offset_ l))
  end.

(** [read_exact]: loops over short reads and [EINTR]; [None] on error or end
    of file, otherwise the bytes; with the offset reached. *)
Fixpoint read_loop (fuel : nat) (path : str) (pos n : nat) (got : str) : io (option str * nat) :=
  match fuel with
  | O => mret (None, pos)
  | S f =>
      if decide (n ≤ length got) then mret (Some got, pos)
      else
        r ← sys_read path pos (n - length got);
        match r with
        | Eintr => read_loop f path pos n got
        | Eio => mret (None, pos)
        | Got [] => mret (None, pos)
        | Got bytes => read_loop f path (pos + length bytes) n (got ++ bytes)
        end
  end.

Definition read_exact (path : str) (pos n : nat) : io (option str * nat) :=
  fuel ← gets (λ w, S (n + length (faults w)));
  read_loop fuel path pos n [].

(** [n && !read_exact(..)] in the sources: nothing is read when [n] is 0. *)
Definition read_if (cond : bool) (path : str) (pos n : nat) : io (option str * nat) :=
  if cond && negb (n =? 0) then read_exact path pos n else mret (Some [], pos).

(** One iteration of the replay loop: leave it, retry the header read, or the
    record and the offset behind it. *)
Inductive step := Stop | Retry | Applied (r : LogRecord) (pos : nat).

Definition type_of (n : N) : option Type_ :=
  if (n =? 1)%N then Some Put else if (n =? 2)%N then Some Del else None.

Definition read_record (path : str) (pos : nat) : io step :=
  r ← sys_read path pos header_size;
  match r with
  | Eintr => mret Retry
  | Eio => mret Stop
  | Got hb =>
      if decide (length hb ≠ header_size) then mret Stop
      else
        let h := header_of hb in
        if negb ((magic h =? kMagic) && (version h =? kVersion))%N then mret Stop
        else
          match type_of (type h) with
          | None => mret Stop
          | Some t =>
              let is_put := match t with Put => true | Del => false end in
              '(k, pos1) ← read_if true path (pos + header_size) (N.to_nat (key_len h));
              match k with
              | None => mret Stop
              | Some key =>
                  '(v, pos2) ← read_if is_put path pos1 (N.to_nat (val_len h));
                  match v with
                  | None => mret Stop
                  | Some val =>
                      '(c, pos3) ← read_exact path pos2 4;
                      match c with
                      | None => mret Stop
                      | Some cb =>
                          let crc := Crc32.crc32_update 0 hb in
                          let crc := Crc32.crc32_update crc key in
                          let crc := if is_put then Crc32.crc32_update crc val else crc in
                          if decide (crc = le_value cb)
                          then mret (Applied (mkLogRecord t (seq h) key val) pos3)
                          else mret Stop
                      end
                  end
              end
          end
  end.

Section Replay.
Context `{Abi}.

(** The tables of the store that replay rebuilds, as a friend of [KVStore]. *)
Abbreviation Tables := (gmap str str * MemTable.MemTable)%type.

Definition apply_record (r : LogRecord) (t : Tables) : Tables :=
  match lr_type r with
  | Put => (<[lr_key r := lr_val r]> t.1, MemTable.put (lr_key r) (lr_seq r) (lr_val r) t.2)
  | Del => (delete (lr_key r) t.1, MemTable.del (lr_key r) (lr_seq r) t.2)
  end.

(** The [for (;;)] loop.  Every iteration consumes bytes or an outcome. *)
Fixpoint replay_loop (fuel : nat) (path : str) (pos : nat)
    (t : Tables) (max_seq last_good : N) : io (Tables * N * N) :=
  match fuel with
  | O => mret (t, max_seq, last_good)
  | S f =>
      r ← read_record path pos;
      match r with
      | Stop => mret (t, max_seq, last_good)
      | Retry => replay_loop f path pos t max_seq last_good
      | Applied rec pos' =>
          replay_loop f path pos' (apply_record rec t)
            (N.max max_seq (lr_seq rec)) (N.of_nat pos')
      end
  end.

Definition replay_fuel (path : str) (w : World) : nat :=
  S (length (content_of path w) + length (faults w)).

(** Returns the flag, [max_seq], the tables and the log. *)
Definition replay_into (t : Tables) (l : Wal) : io (bool * N * Tables * Wal) :=
  match fd_ l with
  | None => mret (false, 0%N, t, l)
  | Some _ =>
      fuel ← gets (replay_fuel (path_ l));
      '(t, max_seq, last_good) ← replay_loop fuel (path_ l) 0 t 0 0;
      end_ ← gets (λ w, length (content_of (path_ l) w));
      mret (true, max_seq, t, mkWal (buffer_ l) (Some end_) (path_ l) last_good)
  end.
End Replay.

(** [::ftruncate]: the file is cut or extended with zeros; the descriptor's
    offset stays where it was. *)
Definition truncate_to_last_good (l : Wal) : io bool :=
  match fd_ l with
  | None => mret false
  | Some _ =>
      o ← FileSystem.next;
      if FileSystem.succeeds o then
        let n := N.to_nat (last_good_offset_ l) in
        FileSystem.set_files (λ fs,
          <[path_ l := let c := default [] (fs !! path_ l) in
                       take n c ++ replicate (n - length c) (chr 0)]> fs) ;;
        mret true
      else mret false
  end.

(** ** Specification *)

(** The bytes of a sequence of records. *)
Definition encode_record (r : LogRecord) : str :=
  encode (lr_type r) (lr_seq r) (lr_key r) (lr_val r).
Definition log_bytes (rs : list LogRecord) : str := concat (encode_record <$> rs).

(** Records the header's field widths can carry. *)
Definition record_ok (r : LogRecord) : Prop :=
  fits 64 (lr_seq r) ∧ fits 32 (N.of_nat (length (lr_key r))) ∧
  fits 32 (N.of_nat (length (lr_val r))) ∧ (lr_type r = Del → lr_val r = []).

#[global] Instance record_ok_dec r : Decision (record_ok r).
Proof. unfold record_ok. apply _. Defined.

(** One record off the front of a byte string, and its length: the effect of
    one loop iteration when no system call fails. *)
Definition parse (s : str) : option (LogRecord * nat) :=
  let hb := take header_size s in
  let h := header_of hb in
  if decide (length hb ≠ header_size) then None
  else if negb ((magic h =? kMagic) && (version h =? kVersion))%N then None
  else
    match type_of (type h) with
    | None => None
    | Some t =>
        let klen := N.to_nat (key_len h) in
        let vlen := match t with Put => N.to_nat (val_len h) | Del => 0 end in
        let body := drop header_size s in
        let key := take klen body in
        let val := take vlen (drop klen body) in
        let cb := take 4 (drop (klen + vlen) body) in
        if decide (length body < klen + vlen + 4) then None
        else if decide (Crc32.crc32_update 0 (hb ++ key ++ val) = le_value cb)
             then Some (mkLogRecord t (seq h) key val, header_size + klen + vlen + 4)
             else None
    end.

Fixpoint parse_all (fuel : nat) (s : str) : list LogRecord * nat :=
  match fuel with
  | O => ([], 0)
  | S f =>
      match parse s with
      | None => ([], 0)
      | Some (r, n) => let '(rs, m) := parse_all f (drop n s) in (r :: rs, n + m)
      end
  end.

(** How many leading records lie wholly within the first [n] bytes. *)
Fixpoint complete (rs : list LogRecord) (n : nat) : list LogRecord :=
  match rs with
  | [] => []
  | r :: rs' =>
      let l := length (encode_record r) in
      if decide (l ≤ n) then r :: complete rs' (n - l) else []
  end.

(** ** Lemmas: little-endian fields *)

Lemma le_bytes_length n x : length (le_bytes n x) = n.
Proof. revert x. induction n as [|n IH]; intros x; simpl; [done|]. by rewrite IH. Qed.

Lemma le_value_bytes n x : le_value (le_bytes n x) = (x mod 256 ^ N.of_nat n)%N.
Proof.
  revert x. induction n as [|n IH]; intros x; cbn [le_bytes le_value].
  - by rewrite N.mod_1_r.
  - rewrite IH, code_chr by (by apply N.mod_lt).
    rewrite Nat2N.inj_succ, N.pow_succ_r'.
    rewrite N.Div0.mod_mul_r. done.
Qed.

Lemma le_value_bytes_fits n w x :
  w = (8 * N.of_nat n)%N → fits w x → le_value (le_bytes n x) = x.
Proof.
  intros -> H. rewrite le_value_bytes. apply N.mod_small. unfold fits in H.
  by rewrite N.pow_mul_r in H.
Qed.

Lemma le_value_inj a b : length a = length b → le_value a = le_value b → a = b.
Proof.
  revert b. induction a as [|x a IH]; intros [|y b] Hl; try done. cbn [le_value].
  intros H. pose proof (code_lt x). pose proof (code_lt y).
  assert (code x = code y ∧ le_value a = le_value b) as [?%code_inj ?] by lia.
  subst. f_equal. apply IH; [by injection Hl|done].
Qed.

Lemma header_bytes_length h : length (header_bytes h) = header_size.
Proof. unfold header_bytes. rewrite !length_app, !le_bytes_length. done. Qed.

Definition header_ok (h : WalHeader) : Prop :=
  fits 32 (magic h) ∧ fits 16 (version h) ∧ fits 8 (type h) ∧
  fits 32 (key_len h) ∧ fits 32 (val_len h) ∧ fits 64 (seq h).

Lemma field_app (pos len : nat) (s a b c : str) :
  s = a ++ b ++ c → length a = pos → length b = len → field pos len s = le_value b.
Proof. intros -> <- <-. unfold field. by rewrite drop_app_length, take_app_length. Qed.

(** Decoding the header's bytes gives the header back. *)
Lemma header_of_bytes h : header_ok h → header_of (header_bytes h) = h.
Proof.
  intros (H1 & H2 & H3 & H4 & H5 & H6). unfold header_of, header_bytes.
  destruct h as [m v t k l q]. simpl in *.
  set (a := le_bytes 4 m). set (b := le_bytes 2 v). set (c := le_bytes 1 t).
  set (d := le_bytes 4 k). set (e := le_bytes 4 l). set (f := le_bytes 8 q).
  assert (length a = 4 ∧ length b = 2 ∧ length c = 1 ∧ length d = 4 ∧ length e = 4 ∧ length f = 8)
    as (La & Lb & Lc & Ld & Le & Lf) by (unfold a, b, c, d, e, f; rewrite !le_bytes_length; done).
  f_equal.
  - rewrite (field_app 0 4 _ [] a _) by done. by apply (le_value_bytes_fits 4 32).
  - rewrite (field_app 4 2 _ a b _) by done. by apply (le_value_bytes_fits 2 16).
  - rewrite (field_app 6 1 _ (a ++ b) c (d ++ e ++ f))
      by (rewrite <-?app_assoc, ?length_app; done || lia).
    by apply (le_value_bytes_fits 1 8).
  - rewrite (field_app 7 4 _ (a ++ b ++ c) d (e ++ f))
      by (rewrite <-?app_assoc, ?length_app; done || lia).
    by apply (le_value_bytes_fits 4 32).
  - rewrite (field_app 11 4 _ (a ++ b ++ c ++ d) e f)
      by (rewrite <-?app_assoc, ?length_app; done || lia).
    by apply (le_value_bytes_fits 4 32).
  - rewrite (field_app 15 8 _ (a ++ b ++ c ++ d ++ e) f [])
      by (rewrite ?app_nil_r, <-?app_assoc, ?length_app; done || lia).
    by apply (le_value_bytes_fits 8 64).
Qed.

(** ** Lemmas: parsing encoded records *)

(** What a well-formed record checksums: header, key and (for a Put) value. *)
Definition header_for (r : LogRecord) : WalHeader :=
  make_header (lr_type r) (lr_seq r) (lr_key r) (lr_val r).
Definition payload (r : LogRecord) : str :=
  header_bytes (header_for r) ++ lr_key r ++ lr_val r.

Definition val_length (t : Type_) (h : WalHeader) : nat :=
  match t with Put => N.to_nat (val_len h) | Del => 0 end.

(** [parse] on bytes laid out as header, key, value and checksum. *)
Lemma parse_layout s hb key val cb rest h t :
  s = hb ++ key ++ val ++ cb ++ rest →
  length hb = header_size → header_of hb = h →
  magic h = kMagic → version h = kVersion → type_of (type h) = Some t →
  N.to_nat (key_len h) = length key → val_length t h = length val → length cb = 4 →
  parse s =
    if decide (Crc32.crc32_update 0 (hb ++ key ++ val) = le_value cb)
    then Some (mkLogRecord t (seq h) key val, header_size + length key + length val + 4)
    else None.
Proof.
  intros -> Lh Hh Hm Hv Ht Lk Lv Lc. unfold parse.
  rewrite take_app_length' by done. rewrite drop_app_length' by done.
  rewrite decide_False by (by intros []). rewrite Hh, Hm, Hv, !N.eqb_refl. cbn [andb negb].
  rewrite Ht, Lk. unfold val_length in Lv. rewrite Lv.
  rewrite decide_False by (rewrite !length_app; lia).
  rewrite take_app_length, drop_app_length, take_app_length.
  rewrite (app_assoc key), drop_app_length' by (by rewrite length_app).
  by rewrite take_app_length'.
Qed.

Lemma header_for_ok r : record_ok r → header_ok (header_for r).
Proof.
  intros (Hs & Hk & Hv & _). unfold header_ok, header_for, make_header. simpl.
  split_and!; try apply fits_wrap; try done. by destruct (lr_type r).
Qed.

Lemma type_of_code t : type_of (type_code t) = Some t.
Proof. by destruct t. Qed.

Lemma val_length_for r :
  record_ok r → val_length (lr_type r) (header_for r) = length (lr_val r).
Proof.
  intros (_ & _ & Hv & Hd). unfold val_length, header_for, make_header. simpl.
  destruct (lr_type r); [rewrite wrap_fits by done; lia|by rewrite Hd].
Qed.

Lemma key_length_for r :
  record_ok r → N.to_nat (key_len (header_for r)) = length (lr_key r).
Proof. intros (_ & Hk & _). simpl. rewrite wrap_fits by done. lia. Qed.

Lemma encode_record_eq r :
  record_ok r →
  encode_record r = payload r ++ le_bytes 4 (Crc32.crc32_update 0 (payload r)).
Proof.
  intros (_ & _ & _ & Hd). unfold encode_record, encode, payload, header_for.
  destruct (lr_type r).
  - by rewrite !Crc32.crc32_app, <-!app_assoc.
  - rewrite (Hd eq_refl). by rewrite !app_nil_r, !Crc32.crc32_app, <-!app_assoc.
Qed.

Lemma payload_length r :
  length (payload r) = header_size + length (lr_key r) + length (lr_val r).
Proof. unfold payload. rewrite !length_app, header_bytes_length. lia. Qed.

Lemma encode_length r :
  record_ok r →
  length (encode_record r) = header_size + length (lr_key r) + length (lr_val r) + 4.
Proof. intros H. by rewrite encode_record_eq, length_app, payload_length, le_bytes_length. Qed.

Lemma crc_value r :
  le_value (le_bytes 4 (Crc32.crc32_update 0 (payload r))) = Crc32.crc32_update 0 (payload r).
Proof. apply (le_value_bytes_fits 4 32); [done|]. by apply Crc32.crc32_fits. Qed.

(** An encoded record parses back to itself, whatever follows. *)
Lemma parse_encode r rest :
  record_ok r →
  parse (encode_record r ++ rest) = Some (r, length (encode_record r)).
Proof.
  intros Hr. rewrite encode_length by done. rewrite encode_record_eq by done.
  rewrite (parse_layout _ (header_bytes (header_for r)) (lr_key r) (lr_val r)
    (le_bytes 4 (Crc32.crc32_update 0 (payload r))) rest (header_for r) (lr_type r));
    eauto using header_bytes_length, header_of_bytes, header_for_ok, key_length_for,
      val_length_for, type_of_code, le_bytes_length.
  - fold (payload r). rewrite crc_value, decide_True by done. by destruct r.
  - unfold payload. by rewrite <-!app_assoc.
  - apply type_of_code.
Qed.

(** A proper prefix of a record does not parse. *)
Lemma parse_torn r p :
  record_ok r → p `prefix_of` encode_record r → length p < length (encode_record r) →
  parse p = None.
Proof.
  intros Hr [rest Hp] Hl. rewrite encode_length in Hl by done.
  unfold parse. case_decide as Hh; [done|].
  assert (Hh' : header_size ≤ length p).
  { destruct (decide (length (take header_size p) = header_size)) as [E|]; [|done].
    rewrite length_take in E. lia. }
  assert (Htake : take header_size p = header_bytes (header_for r)).
  { transitivity (take header_size (encode_record r)).
    - rewrite Hp, take_app_le by done. done.
    - rewrite encode_record_eq by done. unfold payload. rewrite <-!app_assoc.
      rewrite take_app_length'; [done|]. by rewrite header_bytes_length. }
  rewrite Htake, (header_of_bytes (header_for r)) by (by apply header_for_ok).
  case_match; [done|]. change (type (header_for r)) with (type_code (lr_type r)).
  rewrite type_of_code.
  rewrite key_length_for by done.
  pose proof (val_length_for r Hr) as Hv. unfold val_length in Hv. rewrite Hv.
  rewrite decide_True; [done|]. rewrite length_drop. lia.
Qed.

Lemma parse_nil : parse [] = None.
Proof. done. Qed.

(** Record lengths are positive, so a log is at least as long as its record
    count and the fuel of [parse_all] suffices. *)
Lemma log_bytes_length rs : Forall record_ok rs → length rs ≤ length (log_bytes rs).
Proof.
  induction 1 as [|r rs Hr _ IH]; [done|]. unfold log_bytes in *. rewrite fmap_cons.
  cbn [concat length]. rewrite length_app, encode_length by done. lia.
Qed.

Lemma parse_all_log rs tail fuel :
  Forall record_ok rs → parse tail = None → length rs < fuel →
  parse_all fuel (log_bytes rs ++ tail) = (rs, length (log_bytes rs)).
Proof.
  intros Hrs Ht. revert fuel. induction Hrs as [|r rs Hr _ IH]; intros fuel Hf.
  - destruct fuel as [|f]; [lia|]. simpl. by rewrite Ht.
  - destruct fuel as [|f]; [simpl in Hf; lia|]. simpl in Hf. unfold log_bytes. rewrite fmap_cons.
    cbn [concat parse_all]. rewrite <-app_assoc, parse_encode by done.
    rewrite drop_app_length. fold (log_bytes rs). rewrite IH by lia. by rewrite length_app.
Qed.

Lemma parse_all_nil fuel s m : parse_all fuel s = ([], m) → m = 0.
Proof.
  destruct fuel as [|f]; simpl; [congruence|].
  destruct (parse s) as [[r n]|]; [|congruence]. by destruct (parse_all f _).
Qed.

Lemma complete_ok rs n : Forall record_ok rs → Forall record_ok (complete rs n).
Proof.
  intros H. revert n. induction H as [|r rs Hr _ IH]; intros n; simpl; [constructor|].
  case_decide; [by constructor|constructor].
Qed.

(** A log cut at any byte is its complete records and a tail that does not parse. *)
Lemma take_log rs n :
  Forall record_ok rs →
  ∃ tail, take n (log_bytes rs) = log_bytes (complete rs n) ++ tail ∧ parse tail = None.
Proof.
  intros H. revert n. induction H as [|r rs Hr _ IH]; intros n.
  - exists []. by destruct n.
  - unfold log_bytes. rewrite fmap_cons. cbn [concat complete]. fold (log_bytes rs).
    case_decide as Hl.
    + destruct (IH (n - length (encode_record r))) as (tail & E & Ht).
      exists tail. split; [|done]. rewrite take_app_ge by done. rewrite E.
      unfold log_bytes. rewrite fmap_cons. cbn [concat]. by rewrite app_assoc.
    + exists (take n (encode_record r)). rewrite take_app_le by lia. split; [done|].
      apply (parse_torn r); [done|apply prefix_take|]. rewrite length_take. lia.
Qed.

(** ** Lemmas: reading in a failure-free world *)

Section ReadOk.
Context (w : World) (Hw : faults w = []) (path : str).

Lemma sys_read_ok pos n :
  sys_read path pos n w = (Got (take n (drop pos (content_of path w))), w).
Proof using Hw. unfold sys_read. unfold_st. by rewrite FileSystem.next_nofault. Qed.

Lemma read_exact_ok pos n :
  let avail := drop pos (content_of path w) in
  if decide (n ≤ length avail)
  then read_exact path pos n w = (Some (take n avail), pos + n, w)
  else ∃ pos', read_exact path pos n w = (None, pos', w).
Proof using Hw.
  cbv zeta. unfold read_exact, gets. unfold mbind at 1 2, ST_bind at 1 2. rewrite Hw, Nat.add_0_r.
  cbn [read_loop length]. rewrite !Nat.sub_0_r. set (avail := drop pos (content_of path w)).
  destruct (decide (n ≤ 0)) as [Hn|Hn].
  { replace n with 0 by lia. rewrite decide_True by lia. by rewrite take_0, Nat.add_0_r. }
  unfold mbind at 1 2, ST_bind at 1 2. rewrite sys_read_ok. fold avail.
  destruct (take n avail) as [|c bs] eqn:E.
  { assert (length (take n avail) = 0) as Hl by (by rewrite E). rewrite length_take in Hl.
    rewrite decide_False by lia. by eexists. }
  destruct n as [|n]; [lia|]. cbn [read_loop app].
  assert (Hlen : length (c :: bs) = Nat.min (S n) (length avail)) by (by rewrite <-E, length_take).
  destruct (decide (S n ≤ length avail)) as [Ha|Ha].
  - rewrite decide_True by lia. unfold mret, ST_ret. repeat f_equal. lia.
  - rewrite decide_False by lia. unfold mbind at 1, ST_bind at 1. rewrite sys_read_ok.
    assert (drop (length (c :: bs)) avail = []) as Hd by (apply drop_ge; lia).
    assert (drop (pos + length (c :: bs)) (content_of path w) = []) as ->
      by (rewrite <-drop_drop; exact Hd).
    rewrite take_nil. by eexists.
Qed.

Lemma read_if_ok (b : bool) pos n :
  let avail := drop pos (content_of path w) in
  let m := if b then n else 0 in
  if decide (m ≤ length avail)
  then read_if b path pos n w = (Some (take m avail), pos + m, w)
  else ∃ pos', read_if b path pos n w = (None, pos', w).
Proof using Hw.
  cbv zeta. unfold read_if. destruct b; cbn [andb].
  - destruct (Nat.eqb_spec n 0) as [->|Hn]; cbn [negb].
    + rewrite decide_True by lia. by rewrite take_0, Nat.add_0_r.
    + apply read_exact_ok.
  - rewrite decide_True by lia. by rewrite take_0, Nat.add_0_r.
Qed.

(** One iteration of the loop is [parse] on the unread bytes. *)
Lemma read_record_ok pos :
  read_record path pos w =
    (match parse (drop pos (content_of path w)) with
     | Some (r, n) => Applied r (pos + n)
     | None => Stop
     end, w).
Proof using Hw.
  unfold read_record, parse. unfold mbind at 1, ST_bind at 1. rewrite sys_read_ok.
  set (s := drop pos (content_of path w)). set (hb := take header_size s).
  case_decide; [done|]. destruct (negb _); [done|].
  destruct (type_of (type (header_of hb))) as [t|]; [|done].
  set (klen := N.to_nat (key_len (header_of hb))).
  set (vlen := N.to_nat (val_len (header_of hb))).
  assert (Hs : ∀ k, drop (pos + k) (content_of path w) = drop k s)
    by (intros; unfold s; by rewrite drop_drop).
  set (body := drop header_size s).
  unfold mbind at 1, ST_bind at 1.
  pose proof (read_if_ok true (pos + header_size) klen) as R1. cbn zeta in R1.
  rewrite Hs in R1. fold body in R1.
  set (m := match t with Put => vlen | Del => 0 end).
  destruct (decide (klen ≤ length body)) as [L1|L1]; cycle 1.
  { destruct R1 as [p' ->]. rewrite decide_True by lia. done. }
  rewrite R1. unfold mbind at 1, ST_bind at 1.
  pose proof (read_if_ok (match t with Put => true | Del => false end)
    (pos + header_size + klen) vlen) as R2. cbn zeta in R2.
  rewrite <-Nat.add_assoc, Hs, <-drop_drop in R2. fold body in R2.
  rewrite <-Nat.add_assoc.
  replace (if match t with Put => true | Del => false end then vlen else 0) with m in R2
    by (by destruct t).
  rewrite length_drop in R2.
  destruct (decide (m ≤ length body - klen)) as [L2|L2]; cycle 1.
  { destruct R2 as [p' ->]. rewrite decide_True by lia. done. }
  rewrite R2. unfold mbind at 1, ST_bind at 1.
  pose proof (read_exact_ok (pos + (header_size + klen) + m) 4) as R3. cbn zeta in R3.
  rewrite <-Nat.add_assoc, Hs, <-Nat.add_assoc, <-drop_drop in R3. fold body in R3.
  rewrite length_drop in R3. rewrite <-!Nat.add_assoc in *.
  destruct (decide (4 ≤ length body - (klen + m))) as [L3|L3]; cycle 1.
  { destruct R3 as [p' ->]. rewrite decide_True by lia. done. }
  rewrite R3. rewrite (decide_False (P := _ < _)) by lia.
  replace (if match t with Put => true | Del => false end
    then Crc32.crc32_update (Crc32.crc32_update (Crc32.crc32_update 0 hb) (take klen body))
           (take m (drop klen body))
    else Crc32.crc32_update (Crc32.crc32_update 0 hb) (take klen body))
    with (Crc32.crc32_update 0 (hb ++ take klen body ++ take m (drop klen body))).
  - case_decide; [|done]. unfold mret, ST_ret. repeat f_equal; lia.
  - destruct t; unfold m; [by rewrite !Crc32.crc32_app, ?app_assoc|].
    by rewrite take_0, app_nil_r, !Crc32.crc32_app.
Qed.

End ReadOk.

Lemma N_max_assoc_fold (l : list N) (a : N) : foldl N.max a l = N.max a (foldl N.max 0%N l).
Proof.
  revert a. induction l as [|x l IH]; intros a; simpl; [lia|].
  rewrite (IH (N.max a x)), (IH (N.max 0 x)). lia.
Qed.

Section ReplayOk.
Context `{Abi}.

Lemma replay_loop_ok w path fuel pos t ms lg :
  faults w = [] →
  let '(rs, m) := parse_all fuel (drop pos (content_of path w)) in
  replay_loop fuel path pos t ms lg w =
    ((foldl (λ t r, apply_record r t) t rs, foldl N.max ms (lr_seq <$> rs),
      match rs with [] => lg | _ => N.of_nat (pos + m) end), w).
Proof using.
  intros Hw. revert pos t ms lg. induction fuel as [|f IH]; intros pos t ms lg; [done|].
  cbn [parse_all replay_loop]. unfold mbind, ST_bind. rewrite read_record_ok by done.
  destruct (parse (drop pos (content_of path w))) as [[r n]|]; [|done].
  specialize (IH (pos + n) (apply_record r t) (N.max ms (lr_seq r)) (N.of_nat (pos + n))).
  rewrite <-drop_drop in IH. destruct (parse_all f _) as [rs m] eqn:E. rewrite IH. simpl.
  destruct rs; [|by rewrite Nat.add_assoc].
  apply parse_all_nil in E as ->. by rewrite Nat.add_0_r.
Qed.

(** Replaying a file that is a log followed by bytes that do not parse. *)
Lemma replay_log w l pos rs tail t :
  faults w = [] → fd_ l = Some pos → Forall record_ok rs →
  content_of (path_ l) w = log_bytes rs ++ tail → parse tail = None →
  replay_into t l w =
    (true, foldl N.max 0%N (lr_seq <$> rs), foldl (λ t r, apply_record r t) t rs,
     mkWal (buffer_ l) (Some (length (log_bytes rs ++ tail))) (path_ l)
       (N.of_nat (length (log_bytes rs))), w).
Proof using.
  intros Hw Hfd Hrs Hc Ht. unfold replay_into. rewrite Hfd. unfold gets.
  unfold mbind at 1, ST_bind at 1. unfold mbind at 1, ST_bind at 1.
  pose proof (replay_loop_ok w (path_ l) (replay_fuel (path_ l) w) 0 t 0 0 Hw) as E.
  rewrite drop_0, Hc in E. rewrite parse_all_log in E; [|done|done|].
  - rewrite E. unfold mbind, ST_bind, mret, ST_ret. rewrite Hc. by destruct rs.
  - unfold replay_fuel. rewrite Hc, length_app. pose proof (log_bytes_length rs Hrs). lia.
Qed.

End ReplayOk.

(** ** Lemmas: a corrupted byte *)

Lemma field_other (pos len : nat) (a b : str) x y :
  length a < pos ∨ pos + len ≤ length a →
  field pos len (a ++ x :: b) = field pos len (a ++ y :: b).
Proof.
  unfold field. intros [H|H]; f_equal.
  - rewrite !drop_app_ge by lia. destruct (pos - length a) eqn:E; [lia|done].
  - rewrite !drop_app_le by lia. rewrite !take_app_le by (rewrite length_drop; lia). done.
Qed.

(** [parse] rejects a layout whose header keeps type and lengths but whose
    checksum does not match. *)
Lemma parse_bad_crc hb key val cb rest t :
  length hb = header_size → length cb = 4 →
  type_of (type (header_of hb)) = Some t →
  N.to_nat (key_len (header_of hb)) = length key →
  val_length t (header_of hb) = length val →
  Crc32.crc32_update 0 (hb ++ key ++ val) ≠ le_value cb →
  parse (hb ++ key ++ val ++ cb ++ rest) = None.
Proof.
  intros Lh Lc Ht Lk Lv Hne.
  destruct (decide (magic (header_of hb) = kMagic ∧ version (header_of hb) = kVersion)) as [[Hm Hv]|Hbad].
  - rewrite (parse_layout _ hb key val cb rest (header_of hb) t) by done. by rewrite decide_False.
  - unfold parse. rewrite take_app_length' by done.
    rewrite decide_False by (by intros []).
    destruct (N.eqb_spec (magic (header_of hb)) kMagic),
      (N.eqb_spec (version (header_of hb)) kVersion); try done. by destruct Hbad.
Qed.

(** The bytes 6 to 14 of the header: type, key length and value length. *)
Definition length_bytes (i : nat) : Prop := 6 ≤ i < 15.

Lemma parse_corrupt_header r a x y b rest :
  record_ok r → header_bytes (header_for r) = a ++ x :: b → x ≠ y →
  ¬ length_bytes (length a) →
  parse ((a ++ y :: b) ++ lr_key r ++ lr_val r ++
    le_bytes 4 (Crc32.crc32_update 0 (payload r)) ++ rest) = None.
Proof.
  intros Hr E Hne Hi.
  assert (Hsame : ∀ pos len, 6 ≤ pos → pos + len ≤ 15 →
    field pos len (a ++ y :: b) = field pos len (header_bytes (header_for r))).
  { intros pos len H1 H2. rewrite E. apply field_other. unfold length_bytes in Hi. lia. }
  assert (Hty : type (header_of (a ++ y :: b)) = type (header_for r)).
  { rewrite <-(header_of_bytes (header_for r)) by (by apply header_for_ok).
    simpl. apply Hsame; lia. }
  assert (Hkl : key_len (header_of (a ++ y :: b)) = key_len (header_for r)).
  { rewrite <-(header_of_bytes (header_for r)) by (by apply header_for_ok).
    simpl. apply Hsame; lia. }
  assert (Hvl : val_len (header_of (a ++ y :: b)) = val_len (header_for r)).
  { rewrite <-(header_of_bytes (header_for r)) by (by apply header_for_ok).
    simpl. apply Hsame; lia. }
  apply (parse_bad_crc _ _ _ _ _ (lr_type r)).
  - transitivity (length (header_bytes (header_for r))).
    + rewrite E, !length_app. done.
    + apply header_bytes_length.
  - apply le_bytes_length.
  - rewrite Hty. apply type_of_code.
  - rewrite Hkl. by apply key_length_for.
  - rewrite <-(val_length_for r) by done. unfold val_length. by rewrite Hvl.
  - rewrite crc_value. unfold payload. rewrite E, <-!app_assoc. cbn [app].
    intros H. by apply Crc32.crc32_one_byte in H.
Qed.

Lemma parse_corrupt_body r a x y b rest :
  record_ok r → lr_key r ++ lr_val r = a ++ x :: b → x ≠ y →
  parse (header_bytes (header_for r) ++ (a ++ y :: b) ++
    le_bytes 4 (Crc32.crc32_update 0 (payload r)) ++ rest) = None.
Proof.
  intros Hr E Hne.
  set (kv := a ++ y :: b).
  assert (Hl : length kv = length (lr_key r) + length (lr_val r)).
  { unfold kv. rewrite <-length_app, E, !length_app. done. }
  rewrite <-(take_drop (length (lr_key r)) kv), <-app_assoc.
  apply (parse_bad_crc _ _ _ _ _ (lr_type r)).
  - apply header_bytes_length.
  - apply le_bytes_length.
  - rewrite (header_of_bytes (header_for r)) by (by apply header_for_ok). apply type_of_code.
  - rewrite (header_of_bytes (header_for r)), key_length_for, length_take by (done || by apply header_for_ok). lia.
  - rewrite (header_of_bytes (header_for r)), val_length_for, length_drop by (done || by apply header_for_ok). lia.
  - rewrite take_drop, crc_value. unfold payload. rewrite E. unfold kv.
    rewrite !(app_assoc (header_bytes _)). cbn [app].
    intros H. by apply Crc32.crc32_one_byte in H.
Qed.

Lemma split_left (s1 s2 a b : str) x :
  s1 ++ s2 = a ++ x :: b → length a < length s1 → ∃ b1, s1 = a ++ x :: b1 ∧ b = b1 ++ s2.
Proof.
  intros E Hl. apply app_eq_inv in E as [(k & -> & E)|(k & -> & E)].
  - destruct k as [|z k]; simpl in E.
    + rewrite app_nil_r in Hl. lia.
    + injection E as <- ->. by exists k.
  - rewrite length_app in Hl. lia.
Qed.

Lemma split_right (s1 s2 a b : str) x :
  s1 ++ s2 = a ++ x :: b → length s1 ≤ length a → ∃ a2, a = s1 ++ a2 ∧ s2 = a2 ++ x :: b.
Proof.
  intros E Hl. apply app_eq_inv in E as [(k & -> & E)|(k & -> & E)].
  - rewrite length_app in Hl. destruct k; simpl in Hl; [|lia].
    exists []. by rewrite !app_nil_r.
  - by exists k.
Qed.

(** One corrupted byte outside the type and length fields is detected. *)
Lemma parse_corrupt r a x y b rest :
  record_ok r → encode_record r = a ++ x :: b → x ≠ y → ¬ length_bytes (length a) →
  parse (a ++ y :: b ++ rest) = None.
Proof.
  intros Hr E Hne Hi. rewrite encode_record_eq in E by done. unfold payload in E.
  rewrite <-app_assoc in E.
  destruct (decide (length a < header_size)) as [H1|H1].
  { apply split_left in E as (b1 & E & ->); [|by rewrite header_bytes_length].
    rewrite <-!app_assoc. change (y :: b1 ++ ?t) with ((y :: b1) ++ t).
    rewrite (app_assoc a). by apply (parse_corrupt_header r a x). }
  apply split_right in E as (a1 & -> & E); [|rewrite header_bytes_length; lia].
  destruct (decide (length a1 < length (lr_key r ++ lr_val r))) as [H2|H2].
  { apply split_left in E as (b1 & E & ->); [|done].
    rewrite <-!app_assoc. change (y :: b1 ++ ?t) with ((y :: b1) ++ t).
    rewrite (app_assoc a1). by apply (parse_corrupt_body r a1 x). }
  apply split_right in E as (a2 & -> & E); [|lia].
  rewrite <-!app_assoc. change (y :: b ++ rest) with ((y :: b) ++ rest).
  rewrite (app_assoc a2).
  apply (parse_bad_crc _ _ _ _ _ (lr_type r)).
  - apply header_bytes_length.
  - transitivity (length (a2 ++ x :: b)); [by rewrite !length_app|].
    rewrite <-E. apply le_bytes_length.
  - rewrite (header_of_bytes (header_for r)) by (by apply header_for_ok). apply type_of_code.
  - rewrite (header_of_bytes (header_for r)) by (by apply header_for_ok). by apply key_length_for.
  - rewrite (header_of_bytes (header_for r)) by (by apply header_for_ok). by apply val_length_for.
  - change (header_bytes (header_for r) ++ lr_key r ++ lr_val r) with (payload r).
    rewrite <-(crc_value r). unfold payload at 1. rewrite E. intros H.
    apply le_value_inj in H; [|by rewrite !length_app].
    apply app_inv_head in H. congruence.
Qed.

(** ** Lemmas: [flush] under failures *)

Lemma write_at_end data content : write_at (length content) data content = content ++ data.
Proof.
  unfold write_at. rewrite take_ge, Nat.sub_diag, drop_ge by lia. cbn. by rewrite app_nil_r.
Qed.

(** [w'] differs from [w] by the bytes [pre] appended to [path]. *)
Definition appended (path pre : str) (w w' : World) : Prop :=
  content_of path w' = content_of path w ++ pre ∧
  ∀ q, q ≠ path → files w' !! q = files w !! q.

Lemma appended_nil path w w' : files w' = files w → appended path [] w w'.
Proof. intros E. split; [|by rewrite E]. unfold content_of. by rewrite E, app_nil_r. Qed.

Lemma appended_trans path p1 p2 w1 w2 w3 :
  appended path p1 w1 w2 → appended path p2 w2 w3 → appended path (p1 ++ p2) w1 w3.
Proof.
  intros [E1 F1] [E2 F2]. split; [by rewrite E2, E1, app_assoc|].
  intros q Hq. by rewrite F2, F1.
Qed.

Lemma sys_write_spec path p w n w' :
  sys_write path (length (content_of path w)) p w = (n, w') →
  match n with
  | Some k => k ≤ length p ∧ appended path (take k p) w w'
  | None => files w' = files w
  end.
Proof.
  unfold sys_write, FileSystem.set_files. unfold_st.
  pose proof (FileSystem.next_files w) as Hf. destruct (FileSystem.next w) as [o w1].
  simpl in Hf. destruct o; intros; simplify_eq/=; try done.
  all: split; [lia|]; split; [|by intros q Hq; simpl; rewrite lookup_insert_ne, Hf].
  all: unfold content_of at 1; simpl; rewrite lookup_insert_eq; simpl.
  all: rewrite Hf; change (default [] (files w !! path)) with (content_of path w).
  all: rewrite write_at_end; f_equal.
  - by rewrite take_ge.
  - rewrite <-take_take, (take_ge p (length p)) by lia. done.
Qed.

Lemma sys_write_faults path pos p w n w' :
  sys_write path pos p w = (Some n, w') →
  length (faults w') ≤ length (faults w) ∧
  (n < length p → length (faults w') < length (faults w)).
Proof.
  unfold sys_write, FileSystem.set_files, FileSystem.next. unfold_st.
  destruct (faults w) as [|o os] eqn:E; [|destruct o]; intros; simplify_eq/=; rewrite ?E; simpl; lia.
Qed.

Lemma write_loop_spec fuel path p w ok pos' w' :
  write_loop fuel path (length (content_of path w)) p w = ((ok, pos'), w') →
  ∃ pre, pre `prefix_of` p ∧ appended path pre w w' ∧
    pos' = length (content_of path w') ∧ (ok = true → pre = p).
Proof.
  revert p w. induction fuel as [|f IH]; intros p w; cbn [write_loop].
  { unfold_st. intros; simplify_eq. exists []. split; [apply prefix_nil|].
    split; [by apply appended_nil|]. done. }
  case_decide as Hp.
  { subst. unfold_st. intros; simplify_eq. exists []. split; [done|].
    split; [by apply appended_nil|]. done. }
  unfold mbind, ST_bind.
  destruct (sys_write path _ p w) as [[n|] w1] eqn:E; apply sys_write_spec in E; cycle 1.
  { unfold_st. intros; simplify_eq. exists []. split; [apply prefix_nil|].
    split; [by apply appended_nil|]. split; [|done]. unfold content_of. by rewrite E. }
  destruct E as [Hn A]. intros R.
  assert (length (content_of path w) + n = length (content_of path w1)) as Hl.
  { destruct A as [-> _]. rewrite length_app, length_take. lia. }
  rewrite Hl in R. destruct (IH _ _ R) as (pre & Hpre & A' & -> & Hok).
  exists (take n p ++ pre). split.
  { rewrite <-(take_drop n p) at 2. by apply prefix_app. }
  split; [by eapply appended_trans|]. split; [done|].
  intros ->. by rewrite Hok, take_drop.
Qed.

(** Enough fuel: [write_all_fuel] is never the reason to stop. *)
Lemma write_loop_fuel fuel path pos p w :
  write_all_fuel p w ≤ fuel →
  write_loop fuel path pos p w = write_loop (write_all_fuel p w) path pos p w.
Proof.
  cut (∀ f1 f2 p pos w, write_all_fuel p w ≤ f1 → write_all_fuel p w ≤ f2 →
    write_loop f1 path pos p w = write_loop f2 path pos p w); [by eauto|].
  clear. unfold write_all_fuel. induction f1 as [|f1 IH]; intros [|f2] p pos w H1 H2; [lia..|].
  cbn [write_loop]. case_decide as Hp; [done|]. unfold mbind, ST_bind.
  destruct (sys_write path pos p w) as [[n|] w1] eqn:E; [|done].
  pose proof (sys_write_faults _ _ _ _ _ _ E) as [F1 F2].
  assert (0 < length p) by (destruct p; [done|simpl; lia]).
  apply IH; rewrite length_drop; destruct (decide (n < length p)); lia.
Qed.

(** Every outstanding outcome moves data: no interrupt, no failure. *)
Definition reliable (w : World) : Prop :=
  Forall (λ o, match o with Done | Short _ => True | _ => False end) (faults w).

Lemma sys_write_reliable path pos p w :
  reliable w → ∃ n w', sys_write path pos p w = (Some n, w') ∧ reliable w'.
Proof.
  unfold reliable, sys_write, FileSystem.set_files, FileSystem.next. unfold_st. intros H.
  destruct (faults w) as [|o os] eqn:E; simpl.
  - eexists _, _. split; [done|]. simpl. by rewrite E.
  - inversion_clear H. destruct o; try done; eexists _, _; split; try done.
Qed.

(** Short writes are retried to completion. *)
Lemma write_loop_reliable fuel path pos p w :
  reliable w → write_all_fuel p w ≤ fuel →
  ∃ pos' w', write_loop fuel path pos p w = ((true, pos'), w') ∧ reliable w'.
Proof.
  unfold write_all_fuel. revert p pos w. induction fuel as [|f IH]; intros p pos w Hr Hf; [lia|].
  cbn [write_loop]. case_decide as Hp; [by eexists _, _|]. unfold mbind, ST_bind.
  destruct (sys_write_reliable path pos p w Hr) as (n & w1 & E & Hr1). rewrite E.
  pose proof (sys_write_faults _ _ _ _ _ _ E) as [F1 F2].
  assert (0 < length p) by (destruct p; [done|simpl; lia]).
  apply IH; [done|]. rewrite length_drop; destruct (decide (n < length p)); lia.
Qed.

Lemma flush_records_spec path recs w ok pos' w' :
  flush_records path (length (content_of path w)) recs w = ((ok, pos'), w') →
  ∃ pre, pre `prefix_of` concat recs ∧ appended path pre w w' ∧
    pos' = length (content_of path w') ∧ (ok = true → pre = concat recs).
Proof.
  revert w. induction recs as [|r recs IH]; intros w; cbn [flush_records concat].
  { unfold_st. intros; simplify_eq. exists []. split; [done|]. split; [by apply appended_nil|]. done. }
  unfold gets. unfold mbind at 1, ST_bind at 1. unfold mbind at 1, ST_bind at 1.
  destruct (write_loop _ path _ r w) as [[b p1] w1] eqn:E.
  apply write_loop_spec in E as (pre & Hp & A & -> & Hb). destruct b; simpl.
  - rewrite Hb in * by done. intros R. destruct (IH _ R) as (pre' & Hp' & A' & -> & Hok).
    exists (r ++ pre'). split; [by apply prefix_app|]. split; [by eapply appended_trans|].
    split; [done|]. intros ->. by rewrite Hok.
  - unfold_st. intros; simplify_eq. exists pre. split; [|done].
    destruct Hp as [k ->]. rewrite <-app_assoc. by eexists.
Qed.

(** A flush appends the buffer and empties it, or appends a prefix of it and
    keeps it. *)
Lemma flush_appends l w ok l' w' :
  fd_ l = Some (length (content_of (path_ l) w)) →
  flush l w = ((ok, l'), w') →
  ∃ pre, pre `prefix_of` concat (buffer_ l) ∧ appended (path_ l) pre w w' ∧
    fd_ l' = Some (length (content_of (path_ l) w')) ∧ path_ l' = path_ l ∧
    (if ok then pre = concat (buffer_ l) ∧ buffer_ l' = [] else buffer_ l' = buffer_ l).
Proof.
  intros Hfd. unfold flush. rewrite Hfd. case_decide as Hb.
  { unfold_st. intros; simplify_eq. exists []. rewrite Hb. split; [done|].
    split; [by apply appended_nil|]. done. }
  unfold mbind at 1, ST_bind at 1.
  destruct (flush_records _ _ _ w) as [[b p1] w1] eqn:E.
  apply flush_records_spec in E as (pre & Hp & A & -> & Hok). destruct b; simpl.
  - unfold sys_fsync. unfold_st. pose proof (FileSystem.next_files w1) as Hn.
    destruct (FileSystem.next w1) as [o w2]. simpl in Hn.
    assert (A2 : appended (path_ l) pre w w2).
    { rewrite <-(app_nil_r pre). eapply appended_trans; [done|by apply appended_nil]. }
    assert (Hc : content_of (path_ l) w1 = content_of (path_ l) w2)
      by (unfold content_of; by rewrite Hn).
    destruct (FileSystem.succeeds o); simpl; intros; simplify_eq; exists pre; rewrite Hc;
      (split; [done|]); (split; [done|]); simpl; auto.
  - unfold_st. intros; simplify_eq. exists pre. by repeat split; [|apply A..].
Qed.

Lemma flush_records_reliable path pos recs w :
  reliable w →
  ∃ pos' w', flush_records path pos recs w = ((true, pos'), w') ∧ reliable w'.
Proof.
  revert pos w. induction recs as [|r recs IH]; intros pos w Hr; cbn [flush_records].
  { by eexists _, _. }
  unfold gets. unfold mbind at 1, ST_bind at 1. unfold mbind at 1, ST_bind at 1.
  destruct (write_loop_reliable (write_all_fuel r w) path pos r w Hr ltac:(done))
    as (p1 & w1 & E & H1). rewrite E. simpl. by apply IH.
Qed.

Lemma flush_reliable l pos w :
  fd_ l = Some pos → reliable w → ∃ l' w', flush l w = ((true, l'), w').
Proof.
  intros Hfd Hr. unfold flush. rewrite Hfd. case_decide; [by eexists _, _|].
  unfold mbind at 1, ST_bind at 1.
  destruct (flush_records_reliable (path_ l) pos (buffer_ l) w Hr) as (p1 & w1 & E & H1).
  rewrite E. simpl. unfold sys_fsync, FileSystem.next. unfold_st. unfold reliable in H1.
  destruct (faults w1) as [|o os]; simpl; [by eexists _, _|].
  inversion_clear H1. destruct o; try done; simpl; by eexists _, _.
Qed.

(** In a failure-free world a flush leaves the world failure-free. *)
Lemma sys_write_calm path pos p w :
  faults w = [] → faults (sys_write path pos p w).2 = [].
Proof.
  intros Hw. unfold sys_write, FileSystem.set_files. unfold_st.
  by rewrite FileSystem.next_nofault by done.
Qed.

Lemma write_loop_calm fuel path pos p w :
  faults w = [] → faults (write_loop fuel path pos p w).2 = [].
Proof.
  revert pos p w. induction fuel as [|f IH]; intros pos p w Hw; cbn [write_loop]; [done|].
  case_decide; [done|]. unfold mbind, ST_bind. pose proof (sys_write_calm path pos p w Hw) as Hc.
  destruct (sys_write path pos p w) as [[n|] w1]; [by apply IH|done].
Qed.

Lemma flush_calm l w : faults w = [] → faults (flush l w).2 = [].
Proof.
  intros Hw. unfold flush. destruct (fd_ l) as [pos|]; [|done]. case_decide; [done|].
  unfold mbind at 1, ST_bind at 1.
  assert (Hr : ∀ recs pos w, faults w = [] → faults (flush_records (path_ l) pos recs w).2 = []).
  { clear. induction recs as [|r recs IH]; intros pos w Hw; cbn [flush_records]; [done|].
    unfold gets. unfold mbind, ST_bind. pose proof (write_loop_calm (write_all_fuel r w) (path_ l) pos r w Hw) as Hc.
    destruct (write_loop _ _ _ r w) as [[[] p1] w1]; [by apply IH|done]. }
  specialize (Hr (buffer_ l) pos w Hw). destruct (flush_records _ _ _ w) as [[[] p1] w1]; [|done].
  cbn. unfold sys_fsync. unfold_st. by rewrite FileSystem.next_nofault by done.
Qed.

(** ** Lemmas: [read_exact] and [replay_into] under failures *)

(** What a read sequence does: it consumes outcomes and leaves the files. *)
Definition read_only (w w' : World) : Prop :=
  files w' = files w ∧ length (faults w') ≤ length (faults w).

#[global] Instance read_only_preorder : PreOrder read_only.
Proof.
  split; [done|]. intros w1 w2 w3 [E1 L1] [E2 L2]. split; [congruence|lia].
Qed.

Lemma sys_read_spec path pos n w r w' :
  sys_read path pos n w = (r, w') →
  read_only w w' ∧
  match r with
  | Got bs => bs `prefix_of` take n (drop pos (content_of path w)) ∧
      (bs = [] → take n (drop pos (content_of path w)) = [])
  | Eintr => length (faults w') < length (faults w)
  | Eio => True
  end.
Proof.
  unfold sys_read, FileSystem.next, read_only. unfold_st.
  set (av := take n (drop pos (content_of path w))).
  destruct (faults w) as [|o os] eqn:E; [|destruct o]; intros; simplify_eq/=; rewrite ?E; simpl.
  all: repeat split; try lia; try done.
  - unfold content_of. simpl. change (take n _) with av. apply prefix_take.
  - change (take n _) with av. by destruct av.
Qed.

(** A successful [read_exact] returns the file's bytes, whatever short reads
    and interrupts it met on the way. *)
Lemma read_loop_spec fuel path pos0 n got w r pos' w' :
  read_loop fuel path (pos0 + length got) n got w = ((r, pos'), w') →
  length got ≤ n → got = take (length got) (drop pos0 (content_of path w)) →
  read_only w w' ∧
  ∀ bs, r = Some bs → bs = take n (drop pos0 (content_of path w)) ∧ length bs = n ∧ pos' = pos0 + n.
Proof.
  revert got w. induction fuel as [|f IH]; intros got w; cbn [read_loop].
  { unfold_st. intros; by simplify_eq. }
  case_decide as Hd.
  { unfold_st. intros R Hl Hg; simplify_eq. split; [done|]. intros bs ?; simplify_eq.
    assert (length bs = n) as <- by lia. done. }
  unfold mbind, ST_bind. intros R Hl Hg.
  destruct (sys_read path _ _ w) as [r1 w1] eqn:E. apply sys_read_spec in E as [Hro E].
  assert (Hc : content_of path w1 = content_of path w) by (unfold content_of; by rewrite (proj1 Hro)).
  destruct r1 as [[|c bs]| |]; simpl in R.
  - unfold mret, ST_ret in R. by simplify_eq.
  - set (d := c :: bs) in *. destruct E as [[k Hk] _].
    assert (Hlen : length d ≤ n - length got).
    { apply (f_equal length) in Hk. rewrite length_take, length_app in Hk. lia. }
    change (S (length bs)) with (length d) in R.
    rewrite <-Nat.add_assoc, <-length_app in R.
    apply IH in R as [Hro' R].
    + split; [by etransitivity|]. by rewrite <-Hc.
    + rewrite length_app. lia.
    + rewrite Hc, length_app, <-take_take_drop, <-Hg. f_equal. rewrite drop_drop.
      apply (f_equal (take (length d))) in Hk. rewrite take_take, take_app_length in Hk.
      rewrite Nat.min_l in Hk by done. by symmetry.
  - apply IH in R as [Hro' R]; [|done|by rewrite Hc]. split; [by etransitivity|]. by rewrite <-Hc.
  - unfold mret, ST_ret in R. by simplify_eq.
Qed.

Lemma read_exact_spec path pos n w r pos' w' :
  read_exact path pos n w = ((r, pos'), w') →
  read_only w w' ∧
  ∀ bs, r = Some bs → bs = take n (drop pos (content_of path w)) ∧ length bs = n ∧ pos' = pos + n.
Proof.
  unfold read_exact, gets. unfold mbind, ST_bind. rewrite <-(Nat.add_0_r pos) at 1.
  intros R. apply (read_loop_spec _ path pos n []) in R; [done|simpl; lia|done].
Qed.

Lemma read_if_spec b path pos n w r pos' w' :
  read_if b path pos n w = ((r, pos'), w') →
  let m := if b then n else 0 in
  read_only w w' ∧
  ∀ bs, r = Some bs → bs = take m (drop pos (content_of path w)) ∧ length bs = m ∧ pos' = pos + m.
Proof.
  unfold read_if. destruct b; simpl.
  - destruct (Nat.eqb_spec n 0) as [->|]; simpl; [|apply read_exact_spec].
    unfold_st. intros; simplify_eq. split; [done|]. intros; simplify_eq. by rewrite Nat.add_0_r.
  - unfold_st. intros; simplify_eq. split; [done|]. intros; simplify_eq. by rewrite Nat.add_0_r.
Qed.

(** Under any failures an iteration applies the record [parse] finds, and only
    then; otherwise it stops or retries. *)
Lemma read_record_spec path pos w s w' :
  read_record path pos w = (s, w') →
  read_only w w' ∧
  match s with
  | Applied r pos' => ∃ n, parse (drop pos (content_of path w)) = Some (r, n) ∧ pos' = pos + n
  | Retry => length (faults w') < length (faults w)
  | Stop => True
  end.
Proof.
  unfold read_record. unfold mbind at 1, ST_bind at 1.
  destruct (sys_read path pos header_size w) as [r1 w1] eqn:E.
  apply sys_read_spec in E as [Hro E]. destruct r1 as [hb| |]; [|by unfold_st; intros; simplify_eq..].
  case_decide as Hl; [by unfold_st; intros; simplify_eq|].
  set (s0 := drop pos (content_of path w)) in *.
  assert (hb = take header_size s0) as ->.
  { apply prefix_length_eq; [apply E|]. rewrite length_take. lia. }
  destruct (negb _) eqn:Em; [by unfold_st; intros; simplify_eq|].
  destruct (type_of _) as [t|] eqn:Et; [|by unfold_st; intros; simplify_eq].
  set (h := header_of (take header_size s0)) in *.
  unfold mbind at 1, ST_bind at 1.
  destruct (read_if true _ _ _ w1) as [[r1 p1] w2] eqn:E1.
  apply read_if_spec in E1 as [Hro1 E1].
  destruct r1 as [key|]; [|unfold_st; intros; simplify_eq; split; [by etransitivity|done]].
  unfold mbind at 1, ST_bind at 1.
  destruct (read_if _ _ p1 _ w2) as [[r2 p2] w3] eqn:E2.
  apply read_if_spec in E2 as [Hro2 E2].
  destruct r2 as [val|];
    [|unfold_st; intros; simplify_eq; split; [by repeat (etransitivity; [eassumption|])|done]].
  unfold mbind at 1, ST_bind at 1.
  destruct (read_exact _ p2 _ w3) as [[r3 p3] w4] eqn:E3.
  apply read_exact_spec in E3 as [Hro3 E3].
  assert (read_only w w4) as Hro4 by (by repeat (etransitivity; [eassumption|])).
  destruct r3 as [cb|]; [|by unfold_st; intros; simplify_eq].
  destruct (E1 _ eq_refl) as (-> & L1 & ->). destruct (E2 _ eq_refl) as (-> & L2 & ->).
  destruct (E3 _ eq_refl) as (-> & L3 & ->). clear E1 E2 E3.
  assert (content_of path w1 = content_of path w ∧ content_of path w2 = content_of path w ∧
    content_of path w3 = content_of path w) as (C1 & C2 & C3).
  { unfold content_of, read_only in *. intuition congruence. }
  rewrite C1 in *. rewrite C2 in *. rewrite C3 in *.
  case_decide as Hcrc; unfold_st; intros; simplify_eq; split; [done| |done..].
  unfold parse. fold s0 h. rewrite decide_False by (by intros []). rewrite Em, Et.
  set (m := if match t with Put => true | Del => false end then N.to_nat (val_len h) else 0) in *.
  replace (match t with Put => N.to_nat (val_len h) | Del => 0 end) with m by (by destruct t).
  assert (drop header_size s0 = drop (pos + header_size) (content_of path w)) as ->
    by apply drop_drop.
  set (body := drop (pos + header_size) _) in *.
  assert (Hd : ∀ k, drop (pos + header_size + k) (content_of path w) = drop k body)
    by (intros; unfold body; by rewrite drop_drop).
  rewrite Hd in *. rewrite <-(Nat.add_assoc (pos + header_size)), Hd in Hcrc, L3.
  rewrite length_take, length_drop in L3.
  rewrite decide_False by lia.
  exists (header_size + N.to_nat (key_len h) + m + 4). split; [|lia].
  rewrite decide_True; [done|]. rewrite <-Hcrc, !Crc32.crc32_app. unfold m. destruct t; [done|].
  by rewrite take_0, app_nil_r.
Qed.

Lemma parse_advances s r n : parse s = Some (r, n) → 0 < n ≤ length s.
Proof.
  unfold parse. case_decide as Hl; [done|].
  rewrite length_take in Hl. destruct (negb _); [done|].
  destruct (type_of _); [|done]. case_decide as Hb; [done|].
  case_decide; [|done]. intros; simplify_eq. rewrite length_drop in Hb. unfold header_size in *. lia.
Qed.

Section ReplayFaults.
Context `{Abi}.

(** The loop's fuel measure: unread bytes and outstanding outcomes. *)
Definition replay_measure (path : str) (pos : nat) (w : World) : nat :=
  (length (content_of path w) - pos) + length (faults w).

Lemma read_record_measure path pos w s w' :
  read_record path pos w = (s, w') →
  match s with
  | Stop => True
  | Retry => replay_measure path pos w' < replay_measure path pos w
  | Applied _ pos' => replay_measure path pos' w' < replay_measure path pos w
  end.
Proof.
  intros E. apply read_record_spec in E as [[Hf Hl] E]. unfold replay_measure, content_of.
  rewrite Hf. destruct s; [done|lia|]. destruct E as (n & Hp & ->).
  apply parse_advances in Hp. rewrite length_drop in Hp. unfold content_of in Hp. lia.
Qed.

Lemma replay_loop_fuel path pos t ms lg w f1 f2 :
  replay_measure path pos w < f1 → replay_measure path pos w < f2 →
  replay_loop f1 path pos t ms lg w = replay_loop f2 path pos t ms lg w.
Proof.
  revert f2 pos t ms lg w. induction f1 as [|f1 IH]; intros [|f2] pos t ms lg w H1 H2; [lia..|].
  cbn [replay_loop]. unfold mbind, ST_bind.
  destruct (read_record path pos w) as [s w1] eqn:E. apply read_record_measure in E.
  destruct s; [done| |]; apply IH; lia.
Qed.

(** Under any failures the loop applies a prefix of the records in the file. *)
Lemma replay_loop_prefix path fuel pos t ms lg w :
  ∃ rs lg' w', replay_loop fuel path pos t ms lg w =
      ((foldl (λ t r, apply_record r t) t rs, foldl N.max ms (lr_seq <$> rs), lg'), w') ∧
    read_only w w' ∧
    ∀ f, fuel ≤ f → rs `prefix_of` (parse_all f (drop pos (content_of path w))).1.
Proof.
  revert pos t ms lg w. induction fuel as [|f IH]; intros pos t ms lg w.
  { exists [], lg, w. split; [done|]. split; [done|]. intros. apply prefix_nil. }
  cbn [replay_loop]. unfold mbind, ST_bind.
  destruct (read_record path pos w) as [s w1] eqn:E. apply read_record_spec in E as [Hro E].
  assert (content_of path w1 = content_of path w) as Hc
    by (unfold content_of; by rewrite (proj1 Hro)).
  destruct s as [| |r pos'].
  - exists [], lg, w1. split; [done|]. split; [done|]. intros. apply prefix_nil.
  - destruct (IH pos t ms lg w1) as (rs & lg' & w' & -> & Hro' & Hp).
    exists rs, lg', w'. split; [done|]. split; [by etransitivity|].
    intros g Hg. rewrite <-Hc. apply Hp. lia.
  - destruct E as (n & Hpar & ->).
    destruct (IH (pos + n) (apply_record r t) (N.max ms (lr_seq r)) (N.of_nat (pos + n)) w1)
      as (rs & lg' & w' & -> & Hro' & Hp).
    exists (r :: rs), lg', w'. split; [done|]. split; [by etransitivity|].
    intros [|g] Hg; [lia|]. cbn [parse_all]. rewrite Hpar, drop_drop.
    rewrite <-Hc. specialize (Hp g ltac:(lia)). destruct (parse_all g _) as [rs' m].
    by apply prefix_cons.
Qed.

End ReplayFaults.

(** ** Lemmas: what follows a torn record *)

Lemma kMagic_bytes : le_bytes 4 kMagic = [chr 0x4B; chr 0x56; chr 0x4C; chr 0x47].
Proof. reflexivity. Qed.

Lemma encode_magic r : ∃ s, encode_record r = le_bytes 4 kMagic ++ s.
Proof.
  unfold encode_record, encode, header_bytes, make_header. simpl magic.
  rewrite <-!app_assoc. by eexists.
Qed.

(** One to three bytes left of a record, followed by whole records, do not
    parse: the magic number is misaligned. *)
Lemma parse_misaligned r0 r rest k :
  1 ≤ k ≤ 3 → parse (take k (encode_record r0) ++ encode_record r ++ rest) = None.
Proof.
  intros Hk. destruct (encode_magic r0) as [s0 ->], (encode_magic r) as [s ->].
  rewrite kMagic_bytes. unfold parse. case_decide; [done|].
  assert (k = 1 ∨ k = 2 ∨ k = 3) as [-> | [-> | ->]] by lia; reflexivity.
Qed.

Lemma parse_misaligned_nil r0 k : 1 ≤ k ≤ 3 → parse (take k (encode_record r0)) = None.
Proof.
  intros Hk. unfold parse. rewrite take_take, decide_True; [done|].
  rewrite length_take. unfold header_size. lia.
Qed.

(** ** The world after the failures *)

(** The same files with no failure outstanding: the disk a later process finds. *)
Definition calm (w : World) : World := mkWorld (files w) [].

(** The tables replay builds from records. *)
Definition replayed `{Abi} (rs : list LogRecord) : gmap str str * MemTable.MemTable :=
  foldl (λ t r, apply_record r t) (∅, MemTable.empty_table) rs.

(** The tables recovered from the file at [path], by [open] and [replay_into]. *)
Definition recovered `{Abi} (path : str) (w : World) : gmap str str * MemTable.MemTable :=
  let '((_, l), w) := open path empty_wal w in
  let '((_, _, t, _), _) := replay_into (∅, MemTable.empty_table) l w in t.

Lemma open_ok path l w :
  faults w = [] →
  open path l w = ((true, mkWal (buffer_ l) (Some (length (content_of path w))) path 0),
    mkWorld (<[path := content_of path w]> (files w)) []).
Proof.
  intros Hw. unfold open, FileSystem.set_files. unfold_st.
  rewrite FileSystem.next_nofault by done. simpl. rewrite Hw. unfold content_of at 1. simpl.
  rewrite lookup_insert_eq. done.
Qed.

Lemma recovered_log `{Abi} path w rs tail :
  faults w = [] → content_of path w = log_bytes rs ++ tail → Forall record_ok rs →
  parse tail = None → recovered path w = replayed rs.
Proof.
  intros Hw Hc Hrs Ht. unfold recovered. rewrite open_ok by done. rewrite Hc.
  erewrite replay_log; [done|done|done|exact Hrs| |exact Ht].
  unfold content_of. simpl. by rewrite lookup_insert_eq.
Qed.

Lemma complete_take rs n : ∃ k, complete rs n = take k rs.
Proof.
  revert n. induction rs as [|r rs IH]; intros n; simpl; [by exists 0|].
  case_decide; [|by exists 0]. destruct (IH (n - length (encode_record r))) as [k Hk].
  exists (S k). simpl. by f_equal.
Qed.

Lemma log_bytes_app rs1 rs2 : log_bytes (rs1 ++ rs2) = log_bytes rs1 ++ log_bytes rs2.
Proof. unfold log_bytes. by rewrite fmap_app, concat_app. Qed.

(** A prefix of a log recovers to a prefix of its records. *)
Lemma recovered_prefix `{Abi} path w rs0 rs pre :
  faults w = [] → Forall record_ok rs0 → Forall record_ok rs →
  content_of path w = log_bytes rs0 ++ pre → pre `prefix_of` log_bytes rs →
  ∃ k, recovered path w = replayed (rs0 ++ take k rs).
Proof.
  intros Hw H0 H1 Hc Hp.
  destruct (take_log rs (length pre) H1) as (tail & E & Ht).
  assert (pre = take (length pre) (log_bytes rs)) as Hpre.
  { destruct Hp as [q ->]. by rewrite take_app_length. }
  destruct (complete_take rs (length pre)) as [k Hk]. exists k. rewrite <-Hk.
  apply (recovered_log _ _ _ tail); [done| |by apply Forall_app; split; [|apply complete_ok]|done].
  rewrite log_bytes_app, <-app_assoc, <-E, <-Hpre. done.
Qed.

(** A write that stops after [k] bytes and then fails. *)
Lemma write_loop_torn path p k w :
  faults w = [Short k; Fault] → k < length p →
  write_loop (write_all_fuel p w) path (length (content_of path w)) p w =
    ((false, length (content_of path w) + k),
     mkWorld (<[path := content_of path w ++ take k p]> (files w)) []).
Proof.
  intros Hw Hk. unfold write_all_fuel. rewrite Hw. simpl length.
  replace (S (length p + 2)) with (S (S (S (length p)))) by lia. cbn [write_loop].
  rewrite decide_False by (by intros ->; simpl in Hk; lia).
  unfold sys_write, FileSystem.next, FileSystem.set_files. unfold_st. rewrite Hw. simpl.
  rewrite Nat.min_l by lia. rewrite decide_False; cycle 1.
  { intros E. apply (f_equal length) in E. rewrite length_drop in E. simpl in E. lia. }
  change (default [] (files w !! path)) with (content_of path w). by rewrite write_at_end.
Qed.

Lemma flush_torn l p buf k w :
  faults w = [Short k; Fault] → k < length p →
  fd_ l = Some (length (content_of (path_ l) w)) → buffer_ l = p :: buf →
  flush l w =
    ((false, set_fd (Some (length (content_of (path_ l) w) + k)) l),
     mkWorld (<[path_ l := content_of (path_ l) w ++ take k p]> (files w)) []).
Proof.
  intros Hw Hk Hfd Hb. unfold flush. rewrite Hfd, Hb. rewrite decide_False by done.
  cbn [flush_records]. unfold gets. unfold mbind, ST_bind. by rewrite (write_loop_torn _ _ k).
Qed.

(** ** Properties *)

Section Properties.
Context `{Abi}.

(** C9: Crash recovery.  A log file cut at any byte [n], as a crash during a
    write leaves it, replays to exactly the records that lie wholly within the
    first [n] bytes, in order; the torn record behind them is ignored. *)
Theorem replay_recovers_complete_records path w rs n :
  faults w = [] → Forall record_ok rs →
  content_of path w = take n (log_bytes rs) →
  recovered path w = replayed (complete rs n).
Proof using.
  intros Hw Hrs Hc. destruct (take_log rs n Hrs) as (tail & E & Ht).
  apply (recovered_log _ _ _ tail); [done|congruence|by apply complete_ok|done].
Qed.

(** C16: Durability of [flush].  Take a log file that consists of whole records, with
    the descriptor at its end, as [open] and every successful flush leave it.
    Whatever short writes, interrupts and failures the system calls meet, reopening
    the log after [flush] recovers all records that were in the file before it
    followed by a prefix of the buffered ones; when [flush] returns true that prefix
    is the whole buffer, which is emptied, and when it returns false the buffer is
    kept.  A flush that failed in the middle of a record leaves a file to which this
    no longer applies: a retry may return true with records that replay does not
    reach ([flush_retry_loses_records]). *)
Theorem flush_durable l w rs0 rs ok l' w' :
  fd_ l = Some (length (content_of (path_ l) w)) →
  content_of (path_ l) w = log_bytes rs0 →
  buffer_ l = encode_record <$> rs →
  Forall record_ok rs0 → Forall record_ok rs →
  flush l w = ((ok, l'), w') →
  ∃ k, recovered (path_ l) (calm w') = replayed (rs0 ++ take k rs) ∧
    if ok then take k rs = rs ∧ buffer_ l' = [] else buffer_ l' = buffer_ l.
Proof using.
  intros Hfd Hc Hb H0 H1 Hf.
  destruct (flush_appends l w ok l' w' Hfd Hf) as (pre & Hp & [Hc' _] & _ & _ & Hok).
  rewrite Hb in Hp, Hok. fold (log_bytes rs) in Hp, Hok. rewrite Hc in Hc'.
  destruct ok.
  - destruct Hok as [-> Hnil]. exists (length rs). rewrite take_ge by done.
    split; [|done]. apply (recovered_log _ _ _ []); [done| |by apply Forall_app|done].
    rewrite log_bytes_app, app_nil_r. exact Hc'.
  - destruct (recovered_prefix (path_ l) (calm w') rs0 rs pre) as [k Hk]; try done.
    exists k. rewrite <-Hb in Hok. done.
Qed.

(** Short writes do not fail a [flush]: when no outstanding system call is
    interrupted or fails, the write loop of [flush] terminates with every byte
    written and [flush] returns true. *)
Theorem flush_completes l pos w :
  fd_ l = Some pos → reliable w → ∃ l' w', flush l w = ((true, l'), w').
Proof using. apply flush_reliable. Qed.

(** [flush] waits for [fsync].  When all bytes are written and the call after them
    fails, [flush] returns false and keeps the buffer. *)
Theorem flush_needs_sync l pos w p1 w1 os :
  fd_ l = Some pos → buffer_ l ≠ [] →
  flush_records (path_ l) pos (buffer_ l) w = ((true, p1), w1) → faults w1 = Fault :: os →
  (flush l w).1 = (false, set_fd (Some p1) l).
Proof using.
  intros Hfd Hb E Hw. unfold flush. rewrite Hfd, decide_False by done.
  unfold mbind at 1, ST_bind at 1. rewrite E. cbn. unfold sys_fsync, FileSystem.next. unfold_st. by rewrite Hw.
Qed.

(** C29: Corruption is detected.  If one byte of a record is changed, outside
    the type and length fields of its header, replay stops before it: exactly
    the records in front of the corrupted one are recovered, whatever follows. *)
Theorem replay_stops_at_corruption path w rs r a x y b rest :
  faults w = [] → Forall record_ok rs → record_ok r →
  encode_record r = a ++ x :: b → x ≠ y → ¬ length_bytes (length a) →
  content_of path w = log_bytes rs ++ a ++ y :: b ++ rest →
  recovered path w = replayed rs.
Proof using.
  intros Hw Hrs Hr E Hne Hi Hc.
  apply (recovered_log _ _ _ (a ++ y :: b ++ rest)); [done..|]. by apply (parse_corrupt r a x).
Qed.

(** C30: Replay terminates and is safe under read failures.  With any pattern of
    short reads, interrupts and failures the loop, given the fuel
    [replay_fuel], never stops for want of fuel, leaves every file as it was,
    and applies a prefix of the valid records of the file. *)
Theorem replay_total_and_safe path t w f :
  replay_fuel path w ≤ f →
  replay_loop f path 0 t 0 0 w = replay_loop (replay_fuel path w) path 0 t 0 0 w ∧
  ∃ rs lg w', replay_loop f path 0 t 0 0 w =
      ((foldl (λ t r, apply_record r t) t rs, foldl N.max 0%N (lr_seq <$> rs), lg), w') ∧
    files w' = files w ∧ rs `prefix_of` (parse_all f (content_of path w)).1.
Proof using.
  intros Hf. split.
  - apply replay_loop_fuel; unfold replay_measure, replay_fuel in *; lia.
  - destruct (replay_loop_prefix path f 0 t 0 0 w) as (rs & lg & w' & E & [Hro _] & Hp).
    exists rs, lg, w'. split; [done|]. split; [done|]. by apply Hp.
Qed.

(** Replay does not remove a torn tail.  It moves the descriptor to the end
    of the file, so after a crash that left one to three bytes of a record the
    records that are appended and flushed successfully afterwards lie behind
    bytes that no later replay gets past: none of them is ever recovered. *)
Theorem torn_tail_hides_later_appends l0 w rs r0 k r rs' b m t l w1 l' w' :
  faults w = [] → Forall record_ok rs → record_ok r0 → Forall record_ok (r :: rs') →
  1 ≤ k ≤ 3 → fd_ l0 = Some 0 → buffer_ l0 = [] →
  content_of (path_ l0) w = log_bytes rs ++ take k (encode_record r0) →
  replay_into (∅, MemTable.empty_table) l0 w = ((b, m, t, l), w1) →
  flush (mkWal (encode_record <$> (r :: rs')) (fd_ l) (path_ l) (last_good_offset_ l)) w1
    = ((true, l'), w') →
  t = replayed rs ∧ recovered (path_ l0) (calm w') = replayed rs.
Proof using.
  intros Hw Hrs Hr0 Hr' Hk Hfd Hb Hc Hre Hfl. rewrite fmap_cons in Hfl.
  assert (parse (take k (encode_record r0)) = None) as Ht by (by apply parse_misaligned_nil).
  erewrite replay_log in Hre; [|done|done|exact Hrs|exact Hc|exact Ht]. simplify_eq.
  apply flush_appends in Hfl as (pre & _ & [Hc' _] & _ & _ & [-> _]); [|cbn [fd_ path_]; by rewrite Hc].
  split; [done|]. cbn [buffer_ path_] in Hc'. rewrite Hc, <-app_assoc in Hc'.
  eapply (recovered_log _ (calm w')); [done|exact Hc'|done|by apply parse_misaligned].
Qed.

(** A retried [flush] can report success and lose its records.  [flush]
    keeps its whole buffer when a write fails part-way; if one to three bytes
    of the first record had been written, the retry appends the buffer behind
    them and returns true, and replay recovers none of it. *)
Theorem flush_retry_loses_records l w rs r rs' k :
  faults w = [Short k; Fault] → 1 ≤ k ≤ 3 →
  Forall record_ok rs → Forall record_ok (r :: rs') →
  fd_ l = Some (length (content_of (path_ l) w)) → content_of (path_ l) w = log_bytes rs →
  buffer_ l = encode_record <$> (r :: rs') →
  ∃ l1 w1 l2 w2, flush l w = ((false, l1), w1) ∧ flush l1 w1 = ((true, l2), w2) ∧
    recovered (path_ l) (calm w2) = replayed rs.
Proof using.
  intros Hw Hk Hrs Hr' Hfd Hc Hb. pose proof (Forall_inv Hr') as Hr.
  rewrite fmap_cons in Hb. pose proof (encode_length r Hr).
  assert (Hlt : k < length (encode_record r)) by (unfold header_size in *; lia).
  pose proof (flush_torn l _ _ k w Hw Hlt Hfd Hb) as E1.
  set (l1 := set_fd _ l) in E1. set (w1 := mkWorld _ _) in E1.
  assert (Hc1 : content_of (path_ l) w1 = log_bytes rs ++ take k (encode_record r)).
  { unfold w1, content_of at 1. simpl. by rewrite lookup_insert_eq, Hc. }
  assert (Hfd1 : fd_ l1 = Some (length (content_of (path_ l1) w1))).
  { change (path_ l1) with (path_ l). rewrite Hc1, length_app, length_take, <-Hc. simpl. f_equal. lia. }
  destruct (flush_reliable l1 _ w1 Hfd1) as (l2 & w2 & Hf); [by constructor|].
  exists l1, w1, l2, w2. split; [done|]. split; [done|].
  apply flush_appends in Hf as (pre & _ & [Hc' _] & _ & _ & [-> _]); [|done].
  change (buffer_ l1) with (buffer_ l) in Hc'. change (path_ l1) with (path_ l) in Hc'.
  rewrite Hc1, Hb, <-app_assoc in Hc'.
  eapply (recovered_log _ (calm w2)); [done|exact Hc'|done|by apply parse_misaligned].
Qed.

End Properties.

(** ** Witnesses *)

Definition example_path : str := b# "wal.log".
Definition example_put : LogRecord := mkLogRecord Put 1 (b# "a") (b# "x").
Definition example_del : LogRecord := mkLogRecord Del 2 (b# "a") [].
Definition example_world (content : str) (os : list outcome) : World :=
  mkWorld {[ example_path := content ]} os.
Definition example_log (buf : list str) (pos : nat) : Wal := mkWal buf (Some pos) example_path 0.

Lemma replay_recovers_complete_records_witness :
  let w := example_world (take 40 (log_bytes [example_put; example_del])) [] in
  @recovered libstdcxx_abi example_path w = @replayed libstdcxx_abi [example_put].
Proof.
  apply (@replay_recovers_complete_records libstdcxx_abi example_path _
    [example_put; example_del] 40).
  - reflexivity.
  - by apply (bool_decide_unpack _).
  - vm_compute. reflexivity.
Defined.

Lemma flush_durable_witness :
  let '((ok, l'), w') := flush (example_log [encode_record example_put] 0)
    (example_world [] [Short 5; Fault]) in
  ∃ k, @recovered libstdcxx_abi example_path (calm w') =
      @replayed libstdcxx_abi ([] ++ take k [example_put]) ∧
    if ok then take k [example_put] = [example_put] ∧ buffer_ l' = []
    else buffer_ l' = [encode_record example_put].
Proof.
  destruct (flush (example_log _ 0) _) as [[ok l'] w'] eqn:E.
  apply (@flush_durable libstdcxx_abi (example_log [encode_record example_put] 0)
    (example_world [] [Short 5; Fault]) [] [example_put] ok l' w').
  - reflexivity.
  - reflexivity.
  - reflexivity.
  - constructor.
  - by apply (bool_decide_unpack _).
  - exact E.
Defined.

Lemma flush_completes_witness :
  ∃ l' w', flush (example_log [encode_record example_put] 0)
    (example_world [] [Short 1; Done; Short 0; Short 7]) = ((true, l'), w').
Proof.
  apply (flush_completes _ 0); [reflexivity|].
  unfold reliable. simpl. repeat constructor.
Defined.

Lemma replay_stops_at_corruption_witness :
  let bad := <[25 := chr 99]> (encode_record example_put) in
  let w := example_world (encode_record example_put ++ bad ++ encode_record example_del) [] in
  @recovered libstdcxx_abi example_path w = @replayed libstdcxx_abi [example_put].
Proof.
  apply (@replay_stops_at_corruption libstdcxx_abi example_path _ [example_put] example_put
    (take 25 (encode_record example_put)) (default (chr 0) (encode_record example_put !! 25))
    (chr 99) (drop 26 (encode_record example_put)) (encode_record example_del)).
  - reflexivity.
  - by apply (bool_decide_unpack _).
  - by apply (bool_decide_unpack _).
  - vm_compute. reflexivity.
  - vm_compute. discriminate.
  - vm_compute. lia.
  - vm_compute. reflexivity.
Defined.

Lemma replay_total_and_safe_witness :
  let w := example_world (log_bytes [example_put; example_del]) [Intr; Short 30; Short 0; Fault] in
  let t := (∅, MemTable.empty_table) in
  ∃ rs lg w', @replay_loop libstdcxx_abi 100 example_path 0 t 0 0 w =
      ((foldl (λ t r, @apply_record libstdcxx_abi r t) t rs, foldl N.max 0%N (lr_seq <$> rs), lg), w') ∧
    files w' = files w ∧
    rs `prefix_of` (parse_all 100 (content_of example_path w)).1.
Proof.
  apply (@replay_total_and_safe libstdcxx_abi). vm_compute. lia.
Defined.

Lemma torn_tail_hides_later_appends_witness :
  let w := example_world (log_bytes [example_put] ++ take 2 (encode_record example_del)) [] in
  let '((b, m, t, l), w1) :=
    @replay_into libstdcxx_abi (∅, MemTable.empty_table) (example_log [] 0) w in
  ∃ l' w', flush (mkWal (encode_record <$> [example_del]) (fd_ l) (path_ l) (last_good_offset_ l)) w1
      = ((true, l'), w') ∧
    @recovered libstdcxx_abi example_path (calm w') = @replayed libstdcxx_abi [example_put].
Proof.
  intros w. destruct (@replay_into libstdcxx_abi (∅, MemTable.empty_table) (example_log [] 0) w)
    as [[[[b m] t] l] w1] eqn:E.
  destruct (flush (mkWal (encode_record <$> [example_del]) (fd_ l) (path_ l) (last_good_offset_ l)) w1)
    as [[ok l'] w'] eqn:F.
  assert (ok = true) as ->.
  { vm_compute in E. injection E as <- <- <- <- <-. vm_compute in F. congruence. }
  exists l', w'. split; [reflexivity|].
  apply (@torn_tail_hides_later_appends libstdcxx_abi (example_log [] 0)
    (example_world (log_bytes [example_put] ++ take 2 (encode_record example_del)) [])
    [example_put] example_del 2 example_del [] b m t l w1 l' w').
  - reflexivity.
  - by apply (bool_decide_unpack _).
  - by apply (bool_decide_unpack _).
  - by apply (bool_decide_unpack _).
  - lia.
  - reflexivity.
  - reflexivity.
  - vm_compute. reflexivity.
  - exact E.
  - exact F.
Defined.

Lemma flush_retry_loses_records_witness :
  let l := example_log [encode_record example_del] 29 in
  ∃ l1 w1 l2 w2,
    flush l (example_world (log_bytes [example_put]) [Short 3; Fault]) = ((false, l1), w1) ∧
    flush l1 w1 = ((true, l2), w2) ∧
    @recovered libstdcxx_abi example_path (calm w2) = @replayed libstdcxx_abi [example_put].
Proof.
  apply (@flush_retry_loses_records libstdcxx_abi (example_log [encode_record example_del] 29)
    (example_world (log_bytes [example_put]) [Short 3; Fault]) [example_put] example_del [] 3).
  - reflexivity.
  - lia.
  - by apply (bool_decide_unpack _).
  - by apply (bool_decide_unpack _).
  - vm_compute. reflexivity.
  - vm_compute. reflexivity.
  - reflexivity.
Defined.

End Wal.
