(* ===== verification/FlushWorker.v ===== *)
(** * The background flush worker

    Models [flush_worker.{h,cpp}].  The worker's mutex makes [start],
    [enqueue], [poll_completion] and each critical section of [run] atomic; the
    thread's program is the step function [run_step], one atomic section or one
    group of file operations per step, so that the store's operations
    interleave with it.  [stop] joins the thread: it waits while the thread takes
    the steps that are left, and only returns once the thread has left its loop. *)

From S2P Require Import Prelude CxxString FileSystem MemTable SSTable Manifest.
Import CxxString.

Module FlushWorker.

Record FlushTask := mkTask {
  task_sstable_path : str;
  task_manifest_path : str;
  task_entries : Entries;
}.

(** Where the thread is in [run]; a thread that has not been created or has
    been joined is [NoThread]. *)
Inductive thread :=
  | NoThread
  | Waiting                       (** at [cv_.wait] *)
  | Writing (t : FlushTask)       (** before [SSTableWriter::write] *)
  | Opening (t : FlushTask)       (** before [manifest.open] *)
  | Appending (t : FlushTask)     (** before [manifest.append_sstable] *)
  | Completing (t : FlushTask)    (** before the push of the completion *)
  | Exited.                       (** left the loop *)

(** A [FlushCompletion] is its path. *)
Record FlushWorker := mkWorker {
  tasks_ : list FlushTask;
  completions_ : list str;
  worker_ : thread;
  started_ : bool;
  stopping_ : bool;
}.

Definition empty_worker : FlushWorker := mkWorker [] [] NoThread false false.

Definition at_ (th : thread) (fw : FlushWorker) : FlushWorker :=
  mkWorker (tasks_ fw) (completions_ fw) th (started_ fw) (stopping_ fw).

(** ** Operations *)

Definition start (fw : FlushWorker) : FlushWorker :=
  if started_ fw then fw
  else mkWorker (tasks_ fw) (completions_ fw) Waiting true false.

Definition enqueue (sstable_path manifest_path : str) (entries : Entries) (fw : FlushWorker)
    : bool * FlushWorker :=
  if negb (started_ fw) || stopping_ fw then (false, fw)
  else (true, mkWorker (tasks_ fw ++ [mkTask sstable_path manifest_path entries])
                (completions_ fw) (worker_ fw) (started_ fw) (stopping_ fw)).

Definition pending_tasks (fw : FlushWorker) : N := N.of_nat (length (tasks_ fw)).

Definition poll_completion (fw : FlushWorker) : option str * FlushWorker :=
  match completions_ fw with
  | [] => (None, fw)
  | p :: ps => (Some p, mkWorker (tasks_ fw) ps (worker_ fw) (started_ fw) (stopping_ fw))
  end.

(** The thread can take a step: it exists, has not exited, and is not blocked
    on the condition variable. *)
Definition runnable (fw : FlushWorker) : bool :=
  match worker_ fw with
  | NoThread | Exited => false
  | Waiting => stopping_ fw || match tasks_ fw with [] => false | _ => true end
  | _ => true
  end.

(** One step of [run]; a blocked thread stays where it is. *)
Definition run_step (fw : FlushWorker) : io FlushWorker :=
  match worker_ fw with
  | NoThread | Exited => mret fw
  | Waiting =>
      match tasks_ fw with
      | [] => mret (if stopping_ fw then at_ Exited fw else fw)
      | t :: ts =>
          mret (mkWorker ts (completions_ fw) (Writing t) (started_ fw) (stopping_ fw))
      end
  | Writing t =>
      ok ← SSTable.write (task_sstable_path t) (task_entries t);
      mret (at_ (if (ok : bool) then Opening t else Waiting) fw)
  | Opening t =>
      '(ok, _) ← Manifest.open (task_manifest_path t);
      mret (at_ (if (ok : bool) then Appending t else Waiting) fw)
  | Appending t =>
      ok ← Manifest.append_sstable (task_sstable_path t) (task_manifest_path t);
      mret (at_ (if (ok : bool) then Completing t else Waiting) fw)
  | Completing t =>
      mret (mkWorker (tasks_ fw) (completions_ fw ++ [task_sstable_path t]) Waiting
              (started_ fw) (stopping_ fw))
  end.

Fixpoint run_steps (n : nat) (fw : FlushWorker) : io FlushWorker :=
  match n with
  | O => mret fw
  | S n' => if runnable fw then (fw ← run_step fw; run_steps n' fw) else mret fw
  end.

(** Steps a stopping thread can still take: five per task and one to exit. *)
Definition phase_steps (th : thread) : nat :=
  match th with
  | NoThread | Exited => 0
  | Waiting => 1
  | Completing _ => 2
  | Appending _ => 3
  | Opening _ => 4
  | Writing _ => 5
  end.
Definition steps_left (fw : FlushWorker) : nat :=
  5 * length (tasks_ fw) + phase_steps (worker_ fw).

Definition request_stop (fw : FlushWorker) : FlushWorker :=
  mkWorker (tasks_ fw) (completions_ fw) (worker_ fw) (started_ fw) true.

(** [worker_.join(); started_ = false]: a thread that has not exited keeps the
    caller waiting, and the worker as it is. *)
Definition join (fw : FlushWorker) : FlushWorker :=
  match worker_ fw with
  | Exited => mkWorker (tasks_ fw) (completions_ fw) NoThread false (stopping_ fw)
  | _ => fw
  end.

Definition stop (fw : FlushWorker) : io FlushWorker :=
  if negb (started_ fw) then mret fw
  else
    fw ← run_steps (steps_left fw) (request_stop fw);
    mret (join fw).

(** ** Invariant *)

(** The flag says whether there is a thread. *)
Definition wf (fw : FlushWorker) : Prop :=
  if started_ fw then worker_ fw ≠ NoThread ∧ (worker_ fw = Exited → stopping_ fw = true ∧ tasks_ fw = [])
  else worker_ fw = NoThread.

Lemma wf_empty : wf empty_worker.
Proof. done. Qed.

Lemma wf_start fw : wf fw → wf (start fw).
Proof. unfold wf, start. destruct (started_ fw) eqn:E; simpl; [by rewrite E|done]. Qed.

Lemma wf_enqueue p m e fw : wf fw → wf (enqueue p m e fw).2.
Proof.
  unfold wf, enqueue. destruct (started_ fw) eqn:E; simpl; rewrite ?E; [|done].
  destruct (stopping_ fw) eqn:S; simpl; rewrite ?E, ?S; [done|].
  intros [H1 H2]. split; [done|]. intros H. by destruct (H2 H).
Qed.

Lemma wf_poll fw : wf fw → wf (poll_completion fw).2.
Proof. unfold poll_completion. by destruct (completions_ fw). Qed.

Lemma run_step_flags fw w :
  started_ (run_step fw w).1 = started_ fw ∧ stopping_ (run_step fw w).1 = stopping_ fw.
Proof.
  unfold run_step. destruct (worker_ fw); unfold_st; try done.
  - destruct (tasks_ fw); [|done]. by destruct (stopping_ fw) eqn:E; simpl; rewrite ?E.
  - by destruct (SSTable.write _ _ w) as [[] ?].
  - by destruct (Manifest.open _ w) as [[[] ?] ?].
  - by destruct (Manifest.append_sstable _ _ w) as [[] ?].
Qed.

(** Every step of a runnable thread brings it closer to its exit. *)
Lemma run_step_measure fw w :
  runnable fw = true → steps_left (run_step fw w).1 < steps_left fw.
Proof.
  unfold runnable, run_step, steps_left. destruct (worker_ fw); unfold_st; try done; intros Hr.
  - destruct (tasks_ fw) eqn:E; simpl in *; [|lia].
    rewrite orb_false_r in Hr. rewrite Hr. simpl. rewrite E. simpl. lia.
  - destruct (SSTable.write _ _ w) as [[] ?]; simpl; lia.
  - destruct (Manifest.open _ w) as [[[] ?] ?]; simpl; lia.
  - destruct (Manifest.append_sstable _ _ w) as [[] ?]; simpl; lia.
  - simpl. lia.
Qed.

Lemma run_step_thread fw w :
  worker_ fw ≠ NoThread → worker_ (run_step fw w).1 ≠ NoThread.
Proof.
  unfold run_step. destruct (worker_ fw) eqn:E; unfold_st; try (simpl; congruence).
  - destruct (tasks_ fw); [destruct (stopping_ fw)|]; simpl; by rewrite ?E.
  - by destruct (SSTable.write _ _ w) as [[] ?].
  - by destruct (Manifest.open _ w) as [[[] ?] ?].
  - by destruct (Manifest.append_sstable _ _ w) as [[] ?].
Qed.

Lemma wf_run_step fw w : wf fw → wf (run_step fw w).1.
Proof.
  unfold wf. pose proof (run_step_flags fw w) as [-> ->].
  destruct (started_ fw); [|intros E; unfold run_step; by rewrite E].
  intros [H1 H2]. split; [by apply run_step_thread|].
  unfold run_step. destruct (worker_ fw) eqn:E; unfold_st; try done.
  - destruct (tasks_ fw) eqn:T; [|done].
    destruct (stopping_ fw); simpl; rewrite ?T; [done|by rewrite E].
  - by destruct (SSTable.write _ _ w) as [[] ?].
  - by destruct (Manifest.open _ w) as [[[] ?] ?].
  - by destruct (Manifest.append_sstable _ _ w) as [[] ?].
  - simpl. rewrite E. auto.
Qed.

(** Under a pending stop the thread ends, with no task left. *)
Lemma run_steps_exit n fw w :
  wf fw → started_ fw = true → stopping_ fw = true → steps_left fw ≤ n →
  let fw' := (run_steps n fw w).1 in
  worker_ fw' = Exited ∧ tasks_ fw' = [] ∧ started_ fw' = true ∧ stopping_ fw' = true.
Proof.
  revert fw w. induction n as [|n IH]; intros fw w Hwf Hst Hsp Hn; cbn [run_steps].
  - unfold wf in Hwf. rewrite Hst in Hwf. destruct Hwf as [H1 H2].
    unfold steps_left in Hn. cbn. destruct (worker_ fw); simpl in Hn; try lia; [done|].
    repeat split; [by apply H2|done..].
  - destruct (runnable fw) eqn:R.
    + unfold_st. pose proof (run_step_measure fw w R) as M.
      pose proof (wf_run_step fw w Hwf) as W. pose proof (run_step_flags fw w) as [F1 F2].
      destruct (run_step fw w) as [fw1 w1]. simpl in *. apply IH; congruence || lia.
    + unfold wf in Hwf. rewrite Hst in Hwf. destruct Hwf as [H1 H2]. cbn.
      unfold runnable in R. rewrite Hsp in R. destruct (worker_ fw); try done.
      repeat split; [by apply H2|done..].
Qed.

(** A stop request does not disturb the thread, which then leaves its loop. *)
Lemma stop_exits fw w :
  wf fw → started_ fw = true →
  let fw' := (run_steps (steps_left fw) (request_stop fw) w).1 in
  worker_ fw' = Exited ∧ tasks_ fw' = [] ∧ started_ fw' = true ∧ stopping_ fw' = true.
Proof.
  intros Hwf Hst. apply run_steps_exit; [|done|done|done].
  unfold wf in *. simpl. rewrite Hst in *. split; [apply Hwf|]. intros H. by destruct (proj2 Hwf H).
Qed.

Lemma wf_stop fw w : wf fw → wf (stop fw w).1.
Proof.
  unfold stop. destruct (started_ fw) eqn:E; simpl; [|done]. intros Hwf.
  pose proof (stop_exits fw w Hwf E) as X. unfold_st. destruct (run_steps _ _ w) as [fw1 w1].
  cbn in *. destruct X as (X & _). unfold join. by rewrite X.
Qed.

(** ** Lemmas: one task *)

(** The effect of a task on the files when nothing fails. *)
Definition flush_files (t : FlushTask) (ps : list str) (fs : gmap str str) : gmap str str :=
  let p := task_sstable_path t in
  <[task_manifest_path t := Manifest.render (if decide (p ∈ ps) then ps else ps ++ [p])]>
    (<[p := SSTable.render (task_entries t)]> fs).

Lemma open_existing path c w :
  faults w = [] → files w !! path = Some c → Manifest.open path w = ((true, path), w).
Proof.
  intros Hw Hc. unfold Manifest.open. unfold_st. rewrite FileSystem.open_app_ok by done.
  rewrite Hc. simpl. rewrite insert_id by done. rewrite <-Hw. by destruct w.
Qed.

(** Five steps take the next task through when nothing fails. *)
Lemma run_task_ok n t ts cs st sp ps w :
  faults w = [] → task_manifest_path t ≠ [] → task_manifest_path t ≠ task_sstable_path t →
  Forall Manifest.path_ok ps → files w !! task_manifest_path t = Some (Manifest.render ps) →
  run_steps (5 + n) (mkWorker (t :: ts) cs Waiting st sp) w =
  run_steps n (mkWorker ts (cs ++ [task_sstable_path t]) Waiting st sp)
    (mkWorld (flush_files t ps (files w)) []).
Proof.
  intros Hw Hm Hne Hps Hc. cbn [plus run_steps runnable worker_ tasks_].
  rewrite orb_true_r. unfold mbind, ST_bind. cbn [run_step worker_ tasks_ mret ST_ret].
  cbn [runnable worker_ started_ stopping_ completions_ run_step].
  unfold mbind, ST_bind. rewrite SSTable.write_table_ok by done. cbn.
  unfold mbind, ST_bind.
  erewrite open_existing; [|done|cbn; by rewrite lookup_insert_ne]. cbn.
  unfold mbind, ST_bind. rewrite (Manifest.append_ok _ _ ps); [|done|done|done|cbn; by rewrite lookup_insert_ne].
  cbn. unfold flush_files.
  destruct (decide (task_sstable_path t ∈ ps)); [|done].
  rewrite (insert_id _ (task_manifest_path t)); [done|]. by rewrite lookup_insert_ne.
Qed.

(** ** Lemmas: a queue of tasks *)

Definition add_path (ps : list str) (p : str) : list str :=
  if decide (p ∈ ps) then ps else ps ++ [p].

(** Tasks that can be flushed one after the other: all for the manifest [m],
    with distinct proper paths. *)
Definition tasks_ok (m : str) (ts : list FlushTask) : Prop :=
  m ≠ [] ∧ Forall (λ t, task_manifest_path t = m ∧ task_sstable_path t ≠ m ∧
                        Manifest.path_ok (task_sstable_path t)) ts ∧
  NoDup (task_sstable_path <$> ts).

Lemma add_path_ok ps p : Forall Manifest.path_ok ps → Manifest.path_ok p →
  Forall Manifest.path_ok (add_path ps p).
Proof.
  intros Hps Hp. unfold add_path. case_decide; [done|]. by apply Forall_app_2, Forall_singleton.
Qed.

Lemma run_tasks_ok m ts : ∀ n cs st sp ps w,
  faults w = [] → tasks_ok m ts → Forall Manifest.path_ok ps →
  files w !! m = Some (Manifest.render ps) →
  ∃ fs, run_steps (5 * length ts + n) (mkWorker ts cs Waiting st sp) w =
      run_steps n (mkWorker [] (cs ++ (task_sstable_path <$> ts)) Waiting st sp) (mkWorld fs []) ∧
    fs !! m = Some (Manifest.render (foldl add_path ps (task_sstable_path <$> ts))) ∧
    (∀ t, t ∈ ts → fs !! task_sstable_path t = Some (SSTable.render (task_entries t))) ∧
    (∀ p, p ≠ m → p ∉ task_sstable_path <$> ts → fs !! p = files w !! p).
Proof.
  induction ts as [|t ts IH]; intros n cs st sp ps w Hw (Hm & Hts & Hnd) Hps Hc.
  - exists (files w). rewrite app_nil_r. split; [|split; [done|split; [|done]]].
    + simpl. f_equal. rewrite <-Hw. by destruct w.
    + intros t Ht. by apply not_elem_of_nil in Ht.
  - apply Forall_cons in Hts as [(Hmt & Hne & Hp) Hts].
    rewrite fmap_cons in Hnd. apply NoDup_cons in Hnd as [Hnin Hnd].
    replace (5 * length (t :: ts) + n) with (5 + (5 * length ts + n)) by (simpl; lia).
    rewrite (run_task_ok _ _ _ _ _ _ ps) by (rewrite ?Hmt; done).
    destruct (IH n (cs ++ [task_sstable_path t]) st sp (add_path ps (task_sstable_path t))
      (mkWorld (flush_files t ps (files w)) [])) as (fs & -> & Hman & Hfs & Hoth);
      [done|done|by apply add_path_ok|cbn; unfold flush_files; by rewrite Hmt, lookup_insert_eq|].
    exists fs. rewrite fmap_cons, <-app_assoc. split; [done|]. split; [done|]. split.
    + intros t' [->|Ht']%elem_of_cons; [|by apply Hfs].
      rewrite Hoth by done. cbn. unfold flush_files.
      by rewrite Hmt, lookup_insert_ne, lookup_insert_eq.
    + intros p Hpm [Hpt Hpn]%not_elem_of_cons. rewrite Hoth by done. cbn. unfold flush_files.
      rewrite Hmt. by rewrite !lookup_insert_ne by done.
Qed.

(** ** Properties *)

(** C28: [stop] terminates and drains.  From any well-formed state with a running
    thread, whatever system calls fail on the way, the thread leaves its loop after
    at most five steps for each queued task and those of the one it has in hand; so
    the join returns, with no task left in the queue, no thread, and the worker not
    started. *)
Theorem stop_drains_queue fw w :
  wf fw → started_ fw = true →
  worker_ (run_steps (steps_left fw) (request_stop fw) w).1 = Exited ∧
  let fw' := (stop fw w).1 in
  tasks_ fw' = [] ∧ started_ fw' = false ∧ worker_ fw' = NoThread ∧ wf fw'.
Proof.
  intros Hwf Hst. cbv zeta. pose proof (wf_stop fw w Hwf) as Hwf'. revert Hwf'.
  unfold stop. rewrite Hst. simpl. unfold mbind, ST_bind. pose proof (stop_exits fw w Hwf Hst) as E.
  simpl in E. destruct (run_steps _ _ w) as [fw1 w1]. simpl in *. destruct E as (E & Et & _).
  unfold join. rewrite E. by rewrite Et.
Qed.

(** Nothing queued is lost.  When no system call fails, stopping a waiting
    worker writes every queued table to its path, lists all the paths in the
    manifest after those it held, reports the completions in queue order, and
    touches no other file. *)
Theorem stop_flushes_queue m ts cs ps w :
  faults w = [] → tasks_ok m ts → Forall Manifest.path_ok ps →
  files w !! m = Some (Manifest.render ps) →
  let '(fw', w') := stop (mkWorker ts cs Waiting true false) w in
  completions_ fw' = cs ++ (task_sstable_path <$> ts) ∧
  Manifest.live m w' = foldl add_path ps (task_sstable_path <$> ts) ∧
  (∀ t, t ∈ ts → files w' !! task_sstable_path t = Some (SSTable.render (task_entries t))) ∧
  (∀ p, p ≠ m → p ∉ task_sstable_path <$> ts → files w' !! p = files w !! p).
Proof.
  intros Hw Hts Hps Hc. unfold stop. cbn [negb started_].
  change (steps_left _) with (5 * length ts + 1). unfold request_stop. cbn [tasks_ completions_ worker_ started_].
  destruct (run_tasks_ok m ts 1 cs true true ps w Hw Hts Hps Hc) as (fs & E & Hman & Hfs & Hoth).
  unfold mbind, ST_bind. rewrite E. cbn. split; [done|]. split; [|done].
  apply Manifest.live_render; [|done].
  destruct Hts as (_ & Hts & _). clear -Hts Hps. revert ps Hps.
  induction Hts as [|t ts (_ & _ & Hp) _ IH]; intros ps Hps; [done|].
  rewrite fmap_cons. apply IH. by apply add_path_ok.
Qed.


(** ** Witnesses *)

Definition example_manifest : str := b# "MANIFEST".
Definition example_entries : Entries := [(b# "k", [mkVersion 1 (Some (b# "v"))])].
Definition example_task : FlushTask := mkTask (b# "t0.sst") example_manifest example_entries.
Definition example_world (os : list outcome) : World :=
  mkWorld {[ example_manifest := Manifest.render [b# "old.sst"] ]} os.

Lemma stop_drains_queue_witness :
  let fw := mkWorker [example_task] [] Waiting true false in
  let w := example_world [Fault; Short 3] in
  worker_ (run_steps 6 (request_stop fw) w).1 = Exited ∧
  let fw' := (stop fw w).1 in
  tasks_ fw' = [] ∧ started_ fw' = false ∧ worker_ fw' = NoThread ∧ wf fw'.
Proof.
  apply (stop_drains_queue (mkWorker [example_task] [] Waiting true false));
    [split; [discriminate|discriminate]|reflexivity].
Defined.

Lemma stop_flushes_queue_witness :
  let '(fw', w') := stop (mkWorker [example_task] [] Waiting true false) (example_world []) in
  completions_ fw' = [] ++ (task_sstable_path <$> [example_task]) ∧
  Manifest.live example_manifest w' = foldl add_path [b# "old.sst"] [b# "t0.sst"] ∧
  (∀ t, t ∈ [example_task] → files w' !! task_sstable_path t = Some (SSTable.render (task_entries t))) ∧
  (∀ p, p ≠ example_manifest → p ∉ task_sstable_path <$> [example_task] →
    files w' !! p = files (example_world []) !! p).
Proof.
  apply (stop_flushes_queue example_manifest [example_task] [] [b# "old.sst"] (example_world [])).
  - reflexivity.
  - split; [discriminate|]. split; [|by apply (bool_decide_unpack _)].
    repeat constructor; by apply (bool_decide_unpack _).
  - by apply (bool_decide_unpack _).
  - reflexivity.
Defined.


End FlushWorker.
