(* ===== verification/KVStore.v ===== *)
(** * The key-value store

    Models [kv_store.{h,cpp}]: the latest-value map, the MVCC read path over
    the memtable, the immutable memtable and the SSTables, the write path
    through the WAL, flushing, completion draining, compaction, checkpoints and
    recovery.  Every public operation holds the store's mutex, so an operation
    is one function of the store and the world; the flush worker's steps
    ([FlushWorker.run_step]) run between operations.  A [std::map] that was
    moved from is empty. *)

From S2P Require Import Prelude CxxString OrdMap FileSystem MemTable SSTable SSTableReader Manifest Compactor Wal FlushWorker.
Import CxxString.

(** The order in which an [unordered_map] is iterated. *)
Class MapOrder := {
  map_order : gmap str str → list (str * str);
  map_order_perm m : map_order m ≡ₚ map_to_list m;
}.

Definition some_map_order : MapOrder :=
  {| map_order := map_to_list; map_order_perm m := Permutation_refl _ |}.

Module KVStore.

Record KVStore := mkStore {
  map_ : gmap str str;
  memtable_ : MemTable.MemTable;
  immutable_memtable_ : option Entries;
  sstable_paths_ : list str;
  flush_worker_ : FlushWorker.FlushWorker;
  next_sstable_id_ : N;
  manifest_ : str;
  manifest_path_ : str;
  wal_ : Wal.Wal;
  seq_ : N;
  group_commit_every_ : N;
  opened_ : bool;
}.

Definition kMemTableFlushThresholdBytes : N := 4 * 1024 * 1024.
Definition kCompactionTrigger : nat := 4.
Definition snapshot_path : str := b# "/tmp/kv.snapshot".

(** A store as it is constructed. *)
Definition new_store : KVStore :=
  mkStore ∅ MemTable.empty_table None [] FlushWorker.empty_worker 0 []
    (b# "/tmp/veristore-MANIFEST") Wal.empty_wal 0 5 false.

(** ** Field updates and the effects of an operation *)

Definition set_map (m : gmap str str) (s : KVStore) : KVStore :=
  mkStore m (memtable_ s) (immutable_memtable_ s) (sstable_paths_ s) (flush_worker_ s)
    (next_sstable_id_ s) (manifest_ s) (manifest_path_ s) (wal_ s) (seq_ s)
    (group_commit_every_ s) (opened_ s).
Definition set_memtable (m : MemTable.MemTable) (s : KVStore) : KVStore :=
  mkStore (map_ s) m (immutable_memtable_ s) (sstable_paths_ s) (flush_worker_ s)
    (next_sstable_id_ s) (manifest_ s) (manifest_path_ s) (wal_ s) (seq_ s)
    (group_commit_every_ s) (opened_ s).
Definition set_immutable (i : option Entries) (s : KVStore) : KVStore :=
  mkStore (map_ s) (memtable_ s) i (sstable_paths_ s) (flush_worker_ s)
    (next_sstable_id_ s) (manifest_ s) (manifest_path_ s) (wal_ s) (seq_ s)
    (group_commit_every_ s) (opened_ s).
Definition set_sstables (l : list str) (s : KVStore) : KVStore :=
  mkStore (map_ s) (memtable_ s) (immutable_memtable_ s) l (flush_worker_ s)
    (next_sstable_id_ s) (manifest_ s) (manifest_path_ s) (wal_ s) (seq_ s)
    (group_commit_every_ s) (opened_ s).
Definition set_worker (fw : FlushWorker.FlushWorker) (s : KVStore) : KVStore :=
  mkStore (map_ s) (memtable_ s) (immutable_memtable_ s) (sstable_paths_ s) fw
    (next_sstable_id_ s) (manifest_ s) (manifest_path_ s) (wal_ s) (seq_ s)
    (group_commit_every_ s) (opened_ s).
Definition set_next_id (n : N) (s : KVStore) : KVStore :=
  mkStore (map_ s) (memtable_ s) (immutable_memtable_ s) (sstable_paths_ s) (flush_worker_ s)
    n (manifest_ s) (manifest_path_ s) (wal_ s) (seq_ s) (group_commit_every_ s) (opened_ s).
Definition set_manifest (m : str) (s : KVStore) : KVStore :=
  mkStore (map_ s) (memtable_ s) (immutable_memtable_ s) (sstable_paths_ s) (flush_worker_ s)
    (next_sstable_id_ s) m (manifest_path_ s) (wal_ s) (seq_ s) (group_commit_every_ s) (opened_ s).
Definition set_wal (l : Wal.Wal) (s : KVStore) : KVStore :=
  mkStore (map_ s) (memtable_ s) (immutable_memtable_ s) (sstable_paths_ s) (flush_worker_ s)
    (next_sstable_id_ s) (manifest_ s) (manifest_path_ s) l (seq_ s)
    (group_commit_every_ s) (opened_ s).
Definition set_seq (n : N) (s : KVStore) : KVStore :=
  mkStore (map_ s) (memtable_ s) (immutable_memtable_ s) (sstable_paths_ s) (flush_worker_ s)
    (next_sstable_id_ s) (manifest_ s) (manifest_path_ s) (wal_ s) n
    (group_commit_every_ s) (opened_ s).
Definition set_commit_every (n : N) (s : KVStore) : KVStore :=
  mkStore (map_ s) (memtable_ s) (immutable_memtable_ s) (sstable_paths_ s) (flush_worker_ s)
    (next_sstable_id_ s) (manifest_ s) (manifest_path_ s) (wal_ s) (seq_ s) n (opened_ s).
Definition set_opened (b : bool) (s : KVStore) : KVStore :=
  mkStore (map_ s) (memtable_ s) (immutable_memtable_ s) (sstable_paths_ s) (flush_worker_ s)
    (next_sstable_id_ s) (manifest_ s) (manifest_path_ s) (wal_ s) (seq_ s)
    (group_commit_every_ s) b.

(** An operation runs on the store and the world. *)
Abbreviation kv := (ST (KVStore * World)).

Definition get_st {A} (f : KVStore → A) : kv A := gets (λ e, f e.1).
Definition update_st (f : KVStore → KVStore) : kv unit := modify (λ e, (f e.1, e.2)).
Definition lift {A} (m : io A) : kv A := λ e, let '(a, w) := m e.2 in (a, (e.1, w)).

(** A call on the WAL member. *)
Definition on_wal {A} (m : Wal.Wal → io (A * Wal.Wal)) : kv A :=
  l ← get_st wal_;
  '(a, l) ← lift (m l);
  update_st (set_wal l) ;; mret a.

(** ** SSTable identifiers and compaction *)

Definition sst_suffix : str := b# ".sst".

Definition extract_sstable_id (path : str) : N :=
  match rfind "-"%char path, rfind_str sst_suffix path with
  | Some dash, Some dot =>
      if decide (dot ≤ dash + 1) then 0
      else default 0%N (stoull (substr path (dash + 1) (dot - dash - 1)))
  | _, _ => 0
  end.

Definition sstable_name (id : N) : str := b# "/tmp/veristore-" ++ dec id ++ sst_suffix.
Definition compacted_name (id : N) : str := b# "/tmp/veristore-compacted-" ++ dec id ++ sst_suffix.

#[global] Arguments sstable_name : simpl never.
#[global] Arguments compacted_name : simpl never.

(** The [do .. while] loop that picks an output name: one of
    [length paths + 1] successive names is not among the paths. *)
Fixpoint pick_output (fuel : nat) (id : N) (paths : list str) : str * N :=
  match fuel with
  | O => (compacted_name id, wrap64 (id + 1))
  | S f =>
      let output := compacted_name id in
      let id := wrap64 (id + 1) in
      if decide (output ∈ paths) then pick_output f id paths else (output, id)
  end.

Section Operations.
Context `{Abi, SortVersions, MapOrder}.

Definition maybe_compact_sstables_unlocked : kv bool :=
  paths ← get_st sstable_paths_;
  match paths with
  | first :: second :: rest =>
      if decide (length paths < kCompactionTrigger) then mret true
      else if decide (first = second) then
        update_st (set_sstables (first :: rest)) ;;
        manifest ← get_st manifest_;
        lift (Manifest.replace_sstables (first :: rest) manifest)
      else
        id ← get_st next_sstable_id_;
        let '(output, id) := pick_output (length paths) id paths in
        update_st (set_next_id id) ;;
        let temp_output := output ++ b# ".tmp" in
        compacted ← lift (Compactor.compact [first; second] temp_output);
        if negb compacted then mret false
        else
          renamed ← lift (FileSystem.rename temp_output output);
          if negb renamed then
            lift (FileSystem.remove temp_output) ;; mret false
          else
            let updated_paths := output :: rest in
            manifest ← get_st manifest_;
            replaced ← lift (Manifest.replace_sstables updated_paths manifest);
            if negb replaced then
              lift (FileSystem.remove output) ;; mret false
            else
              update_st (set_sstables updated_paths) ;;
              lift (FileSystem.remove first) ;;
              lift (FileSystem.remove second) ;;
              mret true
  | _ => mret true
  end.

(** ** Flushing *)

Definition maybe_flush_memtable_unlocked : kv bool :=
  memtable ← get_st memtable_;
  if (MemTable.approximate_size_bytes memtable <? kMemTableFlushThresholdBytes)%N then mret true
  else
    immutable ← get_st immutable_memtable_;
    match immutable with
    | Some _ => mret false
    | None =>
        let '(entries, memtable) := MemTable.take_entries memtable in
        update_st (set_memtable memtable) ;;
        update_st (set_immutable (Some entries)) ;;
        if decide (entries = []) then update_st (set_immutable None) ;; mret true
        else
          id ← get_st next_sstable_id_;
          update_st (set_next_id (wrap64 (id + 1))) ;;
          manifest_path ← get_st manifest_path_;
          update_st (set_immutable (Some [])) ;;        (* std::move of its entries *)
          worker ← get_st flush_worker_;
          let '(queued, worker) :=
            FlushWorker.enqueue (sstable_name id) manifest_path entries worker in
          update_st (set_worker worker) ;;
          mret queued
    end.

(** The [while (poll_completion)] loop; the flag is [added_new_sstable]. *)
Fixpoint drain_loop (fuel : nat) (added : bool) : kv bool :=
  match fuel with
  | O => mret added
  | S f =>
      worker ← get_st flush_worker_;
      let '(completion, worker) := FlushWorker.poll_completion worker in
      match completion with
      | None => mret added
      | Some path =>
          update_st (set_worker worker) ;;
          paths ← get_st sstable_paths_;
          (if decide (path ∈ paths) then mret tt
           else update_st (set_sstables (paths ++ [path]))) ;;
          update_st (set_immutable None) ;;
          drain_loop f (added || bool_decide (path ∉ paths))
      end
  end.

Definition drain_completed_flushes_unlocked : kv unit :=
  fuel ← get_st (λ s, S (length (FlushWorker.completions_ (flush_worker_ s))));
  added ← drain_loop fuel false;
  if (added : bool) then maybe_compact_sstables_unlocked ;; mret tt else mret tt.

(** ** Reads *)

Definition lookup_entries (entries : Entries) (key : str) (read_timestamp : Timestamp)
    : LookupResult :=
  match OrdMap.find key entries with
  | None => not_found
  | Some versions => MemTable.scan read_timestamp (reverse versions)
  end.

(** The SSTables, newest first. *)
Fixpoint lookup_sstables (paths : list str) (key : str) (read_timestamp : Timestamp)
    : io (option str) :=
  match paths with
  | [] => mret None
  | path :: paths' =>
      reader ← SSTableReader.make_default path;
      let r := SSTableReader.get_at key read_timestamp reader in
      match state r with
      | Value => mret (result r)
      | Tombstone => mret None
      | NotFound => lookup_sstables paths' key read_timestamp
      end
  end.

Definition get (key : str) (s : KVStore) : option str := map_ s !! key.

Definition get_at (key : str) (read_timestamp : Timestamp) : kv (option str) :=
  drain_completed_flushes_unlocked ;;
  memtable ← get_st memtable_;
  let mem_result := MemTable.get_at key read_timestamp memtable in
  match state mem_result with
  | Value => mret (result mem_result)
  | Tombstone => mret None
  | NotFound =>
      immutable ← get_st immutable_memtable_;
      let immutable_result :=
        match immutable with
        | Some entries => lookup_entries entries key read_timestamp
        | None => not_found
        end in
      match state immutable_result with
      | Value => mret (result immutable_result)
      | Tombstone => mret None
      | NotFound =>
          paths ← get_st sstable_paths_;
          lift (lookup_sstables (reverse paths) key read_timestamp)
      end
  end.

Definition size (s : KVStore) : N := N.of_nat (base.size (map_ s)).

Definition list_keys_with_prefix (prefix : str) (s : KVStore) : list str :=
  (filter (λ kv, starts_with prefix kv.1 = true) (map_order (map_ s))).*1.

(** ** Writes *)

(** The group-commit step at the end of [put] and [del]. *)
Definition group_commit (s : N) : kv bool :=
  every ← get_st group_commit_every_;
  if decide (s mod every = 0)%N then on_wal Wal.flush else mret true.

Definition put (key value : str) : kv unit :=
  opened ← get_st opened_;
  if negb opened then mret tt
  else
    s ← get_st (λ st, wrap64 (seq_ st + 1));
    update_st (set_seq s) ;;
    appended ← on_wal (λ l, mret (Wal.append_put s key value l));
    if negb appended then mret tt
    else
      update_st (λ st, set_map (<[key := value]> (map_ st)) st) ;;
      update_st (λ st, set_memtable (MemTable.put key s value (memtable_ st)) st) ;;
      flushed ← maybe_flush_memtable_unlocked;
      if negb flushed then mret tt
      else group_commit s ;; mret tt.

Definition del (key : str) : kv bool :=
  opened ← get_st opened_;
  if negb opened then mret false
  else
    current ← get_st (λ st, map_ st !! key);
    match current with
    | None => mret false
    | Some _ =>
        s ← get_st (λ st, wrap64 (seq_ st + 1));
        update_st (set_seq s) ;;
        appended ← on_wal (λ l, mret (Wal.append_del s key l));
        if negb appended then mret false
        else
          update_st (λ st, set_memtable (MemTable.del key s (memtable_ st)) st) ;;
          update_st (λ st, set_map (delete key (map_ st)) st) ;;
          flushed ← maybe_flush_memtable_unlocked;
          if negb flushed then mret false else group_commit s
    end.

Definition set_group_commit_every (n : Z) : kv unit :=
  update_st (set_commit_every (if decide (n ≤ 0)%Z then 1%N else Z.to_N n)).

Definition flush_wal : kv bool := on_wal Wal.flush.

(** The Raft state machine interface. *)
Definition ApplyPut (key value : str) : kv unit :=
  update_st (λ st, set_map (<[key := value]> (map_ st)) st).
Definition ApplyDel (key : str) : kv unit :=
  update_st (λ st, set_map (delete key (map_ st)) st).

(** ** Snapshots *)

(** The write loop of [save_snapshot]; it does not test the stream. *)
Fixpoint write_bindings (kvs : list (str * str)) (out : ofstream) : io ofstream :=
  match kvs with
  | [] => mret out
  | (k, v) :: kvs' =>
      out ← FileSystem.write out (k ++ [tab] ++ v ++ [nl]);
      write_bindings kvs' out
  end.

Definition save_snapshot (path : str) (s : KVStore) : io bool :=
  let tmp := path ++ b# ".tmp" in
  out ← FileSystem.open_trunc tmp;
  if negb (ofs_good out) then mret false
  else
    out ← write_bindings (map_order (map_ s)) out;
    _ ← FileSystem.flush out;                             (* out.close() *)
    renamed ← FileSystem.rename tmp path;
    mret renamed.

(** [while (in >> k >> v)]. *)
Fixpoint read_pairs (fuel : nat) (input : str) (m : gmap str str) : gmap str str :=
  match fuel with
  | O => m
  | S f =>
      match read_word input with
      | None => m
      | Some (k, r1) =>
          match read_word r1 with
          | None => m
          | Some (v, r2) => read_pairs f r2 (<[k := v]> m)
          end
      end
  end.

Definition load_snapshot (path : str) : kv bool :=
  c ← lift (FileSystem.read_file path);
  match c with
  | None => mret false
  | Some content =>
      update_st (set_map (read_pairs (S (length content)) content ∅)) ;; mret true
  end.

(** One line of the versioned snapshot: key, timestamp text, type, and the
    value when there is a third tab; [None] where the two tabs are missing. *)
Definition split_line (line : str) : option (str * str * str * option str) :=
  match find tab line 0 with
  | None => None
  | Some first_tab =>
      match find tab line (first_tab + 1) with
      | None => None
      | Some second_tab =>
          let key := substr line 0 first_tab in
          let timestamp_text := substr line (first_tab + 1) (second_tab - first_tab - 1) in
          match find tab line (second_tab + 1) with
          | None => Some (key, timestamp_text, substr_from line (second_tab + 1), None)
          | Some third_tab =>
              Some (key, timestamp_text,
                    substr line (second_tab + 1) (third_tab - second_tab - 1),
                    Some (substr_from line (third_tab + 1)))
          end
      end
  end.

(** The line loop of [load_from_file_unlocked] over the map, the memtable and
    [seq_]; the flag is its return value. *)
Fixpoint load_lines (ls : list str) (m : gmap str str) (mt : MemTable.MemTable) (seq : N)
    : bool * gmap str str * MemTable.MemTable * N :=
  match ls with
  | [] => (true, m, mt, seq)
  | line :: ls' =>
      if decide (line = []) then load_lines ls' m mt seq
      else
        match split_line line with
        | None => (false, m, mt, seq)
        | Some (key, timestamp_text, type, value) =>
            match stoull timestamp_text with
            | None => (false, m, mt, seq)
            | Some ts =>
                if decide (type = b# "P") then
                  match value with
                  | None => (false, m, mt, seq)
                  | Some v =>
                      load_lines ls' (<[key := v]> m) (MemTable.put key ts v mt) (N.max seq ts)
                  end
                else if decide (type = b# "D") then
                  load_lines ls' (delete key m) (MemTable.del key ts mt) (N.max seq ts)
                else (false, m, mt, seq)
            end
        end
  end.

Definition load_from_file_unlocked (path : str) : kv bool :=
  c ← lift (FileSystem.read_file path);
  match c with
  | None => mret false
  | Some content =>
      seq ← get_st seq_;
      mt ← get_st memtable_;
      let '(ok, m, mt, seq) := load_lines (lines content) ∅ (MemTable.clear mt) seq in
      update_st (set_map m) ;;
      update_st (set_memtable mt) ;;
      update_st (set_seq seq) ;;
      mret ok
  end.

(** [if (!out) return false] after each version; the closing flush's outcome is
    not looked at. *)
Definition save_to_file_unlocked (path : str) (s : KVStore) : io bool :=
  out ← FileSystem.open_trunc path;
  if negb (ofs_good out) then mret false
  else
    o ← SSTable.write_records
      (SSTable.flatten (MemTable.snapshot_entries (memtable_ s))) out;
    match o with
    | None => mret false
    | Some out => _ ← FileSystem.flush out; mret true
    end.

Definition load_from_file (path : str) : kv bool := load_from_file_unlocked path.
Definition save_to_file (path : str) (s : KVStore) : io bool := save_to_file_unlocked path s.

Definition checkpoint (snapshot_path wal_path : str) : kv bool :=
  opened ← get_st opened_;
  if negb opened then mret false
  else
    s ← get_st id;
    saved ← lift (save_to_file_unlocked snapshot_path s);
    if negb saved then mret false
    else
      on_wal (λ l, mret (tt, Wal.close l)) ;;
      lift (FileSystem.remove wal_path) ;;
      reopened ← on_wal (Wal.open wal_path);
      mret reopened.

(** ** Opening *)

(** The call [wal_.replay_into( *this, max_seq)]: it writes the map and the
    memtable and returns the flag and [max_seq]. *)
Definition replay_wal : kv (bool * N) :=
  s ← get_st id;
  '(ok, max_seq, t, l) ← lift (Wal.replay_into (map_ s, memtable_ s) (wal_ s));
  update_st (set_map t.1) ;;
  update_st (set_memtable t.2) ;;
  update_st (set_wal l) ;;
  mret (ok, max_seq).

Definition open (wal_path : str) : kv bool :=
  opened ← get_st opened_;
  if (opened : bool) then mret true
  else
    load_from_file_unlocked snapshot_path ;;
    wal_opened ← on_wal (Wal.open wal_path);
    if negb wal_opened then mret false
    else
      '(replayed, max_seq) ← replay_wal;
      if negb replayed then mret false
      else
        update_st (set_seq max_seq) ;;
        update_st (set_opened true) ;;
        manifest_path ← get_st manifest_path_;
        '(manifest_opened, manifest) ← lift (Manifest.open manifest_path);
        update_st (set_manifest manifest) ;;
        if negb manifest_opened then mret false
        else
          paths ← lift (Manifest.load_sstables manifest);
          update_st (set_sstables paths) ;;
          update_st (set_next_id
            (foldl (λ id path, N.max id (wrap64 (extract_sstable_id path + 1))) 0%N paths)) ;;
          maybe_compact_sstables_unlocked ;;
          update_st (λ s, set_worker (FlushWorker.start (flush_worker_ s)) s) ;;
          update_st (λ s, set_next_id (N.of_nat (length (sstable_paths_ s))) s) ;;
          mret true.

End Operations.

End KVStore.
