(* ===== verification/KVWrites.v ===== *)
(** * The store's write path

    Lemmas and properties of [put], [del], [maybe_flush_memtable_unlocked] and
    group commit (definitions in [KVStore.v]). *)

From S2P Require Import Prelude CxxString OrdMap FileSystem MemTable SSTable Manifest Compactor Wal FlushWorker KVStore.
Import CxxString.

Module KVWrites.
Import KVStore.

(** Runs the primitive effects of an operation of the store. *)
Ltac run_kv :=
  cbv [mbind mret ST_bind ST_ret gets modify get_st update_st lift on_wal]; cbn [fst snd negb].

(** ** What a memtable flush request changes *)

(** The parts of the store a flush request leaves alone. *)
Record same_log (s s' : KVStore) : Prop := mkSameLog {
  same_map : map_ s' = map_ s;
  same_wal : wal_ s' = wal_ s;
  same_seq : seq_ s' = seq_ s;
  same_opened : opened_ s' = opened_ s;
  same_every : group_commit_every_ s' = group_commit_every_ s;
  same_sstables : sstable_paths_ s' = sstable_paths_ s;
  same_manifest : manifest_ s' = manifest_ s;
  same_manifest_path : manifest_path_ s' = manifest_path_ s;
}.

#[global] Instance same_log_preorder : PreOrder same_log.
Proof. split; [by constructor|]. intros s1 s2 s3 [] []. constructor; congruence. Qed.

(** The memtable is full and cannot be handed over. *)
Definition full (s : KVStore) : bool :=
  (kMemTableFlushThresholdBytes <=? MemTable.approximate_size_bytes (memtable_ s))%N.
Definition accepting (fw : FlushWorker.FlushWorker) : bool :=
  FlushWorker.started_ fw && negb (FlushWorker.stopping_ fw).

(** The store after its memtable was handed to the worker. *)
Definition handed_over (s : KVStore) : KVStore :=
  let id := next_sstable_id_ s in
  set_worker
    (FlushWorker.enqueue (sstable_name id) (manifest_path_ s)
      (MemTable.entries_ (memtable_ s)) (flush_worker_ s)).2
    (set_immutable (Some []) (set_next_id (wrap64 (id + 1))
      (set_memtable (MemTable.mkMemTable [] 0) s))).

Lemma maybe_flush_run s w :
  maybe_flush_memtable_unlocked (s, w) =
    if full s then
      match immutable_memtable_ s with
      | Some _ => (false, (s, w))
      | None =>
          match MemTable.entries_ (memtable_ s) with
          | [] => (true, (set_immutable None (set_memtable (MemTable.mkMemTable [] 0) s), w))
          | _ => (accepting (flush_worker_ s), (handed_over s, w))
          end
      end
    else (true, (s, w)).
Proof.
  unfold maybe_flush_memtable_unlocked, full. run_kv. rewrite N.ltb_antisym.
  destruct (_ <=? _)%N eqn:E; cbn [negb fst snd]; [|done].
  destruct (immutable_memtable_ s) eqn:I; [done|]. unfold MemTable.take_entries.
  destruct (MemTable.entries_ (memtable_ s)) as [|b e] eqn:M.
  - reflexivity.
  - rewrite decide_False by done. unfold handed_over. cbn. rewrite M. unfold FlushWorker.enqueue, accepting.
    destruct (FlushWorker.started_ _) eqn:E1, (FlushWorker.stopping_ _) eqn:E2; cbn; reflexivity.
Qed.

Lemma maybe_flush_frame s w b s' w' :
  maybe_flush_memtable_unlocked (s, w) = (b, (s', w')) → same_log s s' ∧ w' = w.
Proof.
  rewrite maybe_flush_run. intros E. repeat case_hyp E; (split; [by constructor|done]).
Qed.

(** ** The effect of a write *)

(** A write that passed its guards: the store behind the log append and the
    updates of the two tables. *)
Section Writes.
Context `{Abi}.

Definition applied (r : Wal.LogRecord) (s : KVStore) : KVStore :=
  let t := Wal.apply_record r (map_ s, memtable_ s) in
  set_memtable t.2 (set_map t.1
    (set_wal (Wal.mkWal (Wal.buffer_ (wal_ s) ++ [Wal.encode_record r]) (Wal.fd_ (wal_ s))
                (Wal.path_ (wal_ s)) (Wal.last_good_offset_ (wal_ s)))
      (set_seq (Wal.lr_seq r) s))).

Definition next_seq (s : KVStore) : N := wrap64 (seq_ s + 1).
Definition put_record (key value : str) (s : KVStore) : Wal.LogRecord :=
  Wal.mkLogRecord Wal.Put (next_seq s) key value.
Definition del_record (key : str) (s : KVStore) : Wal.LogRecord :=
  Wal.mkLogRecord Wal.Del (next_seq s) key [].

(** What both writes do once the tables are updated. *)
Definition finish (n : N) : kv bool :=
  flushed ← maybe_flush_memtable_unlocked;
  if negb flushed then mret false else group_commit n.

Lemma put_run key value s w :
  opened_ s = true → Wal.fd_ (wal_ s) ≠ None →
  put key value (s, w) =
    (tt, (finish (next_seq s) (applied (put_record key value s) s, w)).2).
Proof.
  intros Ho Hfd. unfold put, finish. run_kv. rewrite Ho. cbn.
  unfold Wal.append_put, Wal.write_record. cbn.
  destruct (Wal.fd_ (wal_ s)) eqn:E; [|done]. cbn. unfold applied, put_record. cbn. rewrite E.
  fold (next_seq s).
  destruct (maybe_flush_memtable_unlocked _) as [b [s1 w1]]. destruct b; cbn; [|done].
  by destruct (group_commit _ _).
Qed.

Lemma del_run key s w :
  opened_ s = true → Wal.fd_ (wal_ s) ≠ None →
  del key (s, w) =
    match map_ s !! key with
    | None => (false, (s, w))
    | Some _ => finish (next_seq s) (applied (del_record key s) s, w)
    end.
Proof.
  intros Ho Hfd. unfold del, finish. run_kv. rewrite Ho. cbn.
  destruct (map_ s !! key) eqn:M; [|done]. cbn.
  unfold Wal.append_del, Wal.write_record. cbn.
  destruct (Wal.fd_ (wal_ s)) eqn:E; [|done]. cbn. unfold applied, del_record. cbn. rewrite E.
  fold (next_seq s).
  destruct (maybe_flush_memtable_unlocked _) as [b [s1 w1]]. by destruct b.
Qed.

(** Group commit touches only the WAL member and the files. *)
Lemma group_commit_frame n s w b s' w' :
  group_commit n (s, w) = (b, (s', w')) → ∃ l, s' = set_wal l s ∧
    if decide (n mod group_commit_every_ s = 0)%N
    then Wal.flush (wal_ s) w = ((b, l), w')
    else b = true ∧ l = wal_ s ∧ w' = w.
Proof.
  unfold group_commit. run_kv. case_decide; cbn [fst snd].
  - destruct (Wal.flush (wal_ s) w) as [[b' l] w1]. cbn. intros; simplify_eq. by exists l.
  - intros; simplify_eq. exists (wal_ s'). by destruct s'.
Qed.

Lemma finish_frame n s w b s' w' :
  finish n (s, w) = (b, (s', w')) →
  map_ s' = map_ s ∧ seq_ s' = seq_ s ∧ opened_ s' = opened_ s ∧
  sstable_paths_ s' = sstable_paths_ s.
Proof.
  unfold finish. run_kv.
  destruct (maybe_flush_memtable_unlocked (s, w)) as [b1 [s1 w1]] eqn:E.
  apply maybe_flush_frame in E as [F ->]. destruct b1; cbn.
  - intros G. apply group_commit_frame in G as (l & -> & _). by destruct F.
  - intros; simplify_eq. by destruct F.
Qed.

End Writes.

(** ** Properties *)

Section Properties.
Context `{Abi}.

(** C17: The latest-value view.  On an open store, whatever system calls fail,
    [put] makes [get] return the new value and [del] makes it return nothing;
    no other key changes, the sequence number advances by one, and deleting an
    absent key returns false and changes nothing. *)
Theorem writes_update_latest_view key v s w :
  opened_ s = true → Wal.fd_ (wal_ s) ≠ None →
  (let s' := (put key v (s, w)).2.1 in
   get key s' = Some v ∧ (∀ k, k ≠ key → get k s' = get k s) ∧ seq_ s' = next_seq s) ∧
  (let '(b, (s', w')) := del key (s, w) in
   get key s' = None ∧ (∀ k, k ≠ key → get k s' = get k s) ∧
   if get key s then seq_ s' = next_seq s else b = false ∧ s' = s ∧ w' = w).
Proof using.
  intros Ho Hfd. unfold get. split.
  - rewrite put_run by done. destruct (finish _ _) as [b [s' w']] eqn:E. cbn [fst snd].
    apply finish_frame in E as (-> & -> & _ & _). simpl.
    split; [by rewrite lookup_insert_eq|]. split; [|done]. intros. by rewrite lookup_insert_ne.
  - rewrite del_run by done. destruct (map_ s !! key) eqn:M; [|done].
    destruct (finish _ _) as [b [s' w']] eqn:E.
    apply finish_frame in E as (-> & -> & _ & _). simpl.
    split; [by rewrite lookup_delete_eq|]. split; [|done]. intros. by rewrite lookup_delete_ne.
Qed.

(** Group commit.  When no system call fails or is interrupted, a [put]
    whose sequence number is a multiple of [group_commit_every_] and whose
    memtable is not full returns with every buffered record, its own included,
    appended to the log file and the buffer empty. *)
Theorem group_commit_flushes key v s w pos :
  opened_ s = true → Wal.fd_ (wal_ s) = Some pos →
  pos = length (Wal.content_of (Wal.path_ (wal_ s)) w) →
  full (applied (put_record key v s) s) = false →
  (next_seq s mod group_commit_every_ s = 0)%N → Wal.reliable w →
  let '(s', w') := (put key v (s, w)).2 in
  Wal.buffer_ (wal_ s') = [] ∧
  Wal.content_of (Wal.path_ (wal_ s)) w' =
    Wal.content_of (Wal.path_ (wal_ s)) w ++
    concat (Wal.buffer_ (wal_ s) ++ [Wal.encode_record (put_record key v s)]).
Proof using.
  intros Ho Hfd Hpos Hfull Hmod Hr. rewrite put_run by (done || congruence).
  unfold finish. run_kv. rewrite maybe_flush_run, Hfull. cbn [negb].
  destruct (group_commit _ _) as [b [s' w']] eqn:E. cbn [snd].
  apply group_commit_frame in E as (l & -> & E).
  change (group_commit_every_ (applied _ s)) with (group_commit_every_ s) in E.
  rewrite decide_True in E by done. set (l0 := wal_ (applied _ s)) in E.
  destruct (Wal.flush_reliable l0 pos w Hfd Hr) as (l2 & w2 & E2).
  rewrite E in E2. injection E2 as -> -> ->.
  apply Wal.flush_appends in E as (pre & _ & [Hc _] & _ & _ & [-> Hnil]).
  - split; [exact Hnil|exact Hc].
  - change (Wal.fd_ l0) with (Wal.fd_ (wal_ s)). by rewrite Hfd, Hpos.
Qed.

(** A pending flush suspends group commit.  While an immutable memtable is
    outstanding and the memtable has reached its threshold, a [put] leaves its
    record in the buffer and the disk untouched even at a group-commit
    boundary, and a [del] of a present key returns false although it has been
    applied. *)
Theorem pending_flush_skips_group_commit key v s w e :
  opened_ s = true → Wal.fd_ (wal_ s) ≠ None → immutable_memtable_ s = Some e →
  full (applied (put_record key v s) s) = true →
  full (applied (del_record key s) s) = true →
  put key v (s, w) = (tt, (applied (put_record key v s) s, w)) ∧
  (get key s ≠ None → del key (s, w) = (false, (applied (del_record key s) s, w))).
Proof using.
  intros Ho Hfd Hi Hp Hd. unfold get. split.
  - rewrite put_run by done. unfold finish. run_kv. rewrite maybe_flush_run, Hp.
    change (immutable_memtable_ (applied _ s)) with (immutable_memtable_ s). by rewrite Hi.
  - rewrite del_run by done. intros Hk. destruct (map_ s !! key) eqn:M; [|done].
    unfold finish. run_kv. rewrite maybe_flush_run, Hd.
    change (immutable_memtable_ (applied _ s)) with (immutable_memtable_ s). by rewrite Hi.
Qed.

End Properties.

(** ** Witnesses *)

(** An open store with an empty log, about to reach a group-commit boundary. *)
Definition example_wal_path : str := b# "wal.log".
Definition example_store : KVStore :=
  mkStore {[ b# "a" := b# "1" ]} MemTable.empty_table None [] FlushWorker.empty_worker 0 []
    (b# "MANIFEST") (Wal.mkWal [] (Some 0) example_wal_path 0) 4 5 true.
Definition example_world (os : list outcome) : World := mkWorld {[ example_wal_path := [] ]} os.

Lemma writes_update_latest_view_witness :
  (let s' := (@put libstdcxx_abi (b# "b") (b# "2") (example_store, example_world [Fault])).2.1 in
   get (b# "b") s' = Some (b# "2") ∧ (∀ k, k ≠ b# "b" → get k s' = get k example_store) ∧
   seq_ s' = next_seq example_store) ∧
  (let '(b, (s', w')) := @del libstdcxx_abi (b# "b") (example_store, example_world [Fault]) in
   get (b# "b") s' = None ∧ (∀ k, k ≠ b# "b" → get k s' = get k example_store) ∧
   if get (b# "b") example_store then seq_ s' = next_seq example_store
   else b = false ∧ s' = example_store ∧ w' = example_world [Fault]).
Proof.
  apply (@writes_update_latest_view libstdcxx_abi (b# "b") (b# "2") example_store (example_world [Fault])).
  - reflexivity.
  - discriminate.
Defined.

Lemma group_commit_flushes_witness :
  let '(s', w') := (@put libstdcxx_abi (b# "b") (b# "2") (example_store, example_world [Short 3])).2 in
  Wal.buffer_ (wal_ s') = [] ∧
  Wal.content_of example_wal_path w' =
    Wal.content_of example_wal_path (example_world [Short 3]) ++
    concat ([] ++ [Wal.encode_record (put_record (b# "b") (b# "2") example_store)]).
Proof.
  apply (@group_commit_flushes libstdcxx_abi (b# "b") (b# "2") example_store (example_world [Short 3]) 0).
  - reflexivity.
  - reflexivity.
  - reflexivity.
  - reflexivity.
  - reflexivity.
  - repeat constructor.
Defined.

End KVWrites.
