(* ===== verification/KVReads.v ===== *)
(** * The store's read path and compaction

    Lemmas and properties of [get_at], [drain_completed_flushes_unlocked] and
    [maybe_compact_sstables_unlocked] (definitions in [KVStore.v]). *)

From S2P Require Import Prelude CxxString OrdMap FileSystem MemTable SSTable SSTableIndex SSTableReader BloomFilter Manifest Compactor Wal FlushWorker KVStore KVWrites.
Import CxxString.

Module KVReads.
Import KVStore KVWrites Compactor.

(** ** Specification of a versioned read *)

(** The value a lookup result carries. *)
Definition value_of (r : LookupResult) : option str :=
  match state r with Value => result r | _ => None end.

(** The file at [p] is a well-formed SSTable holding [e]. *)
Record table_at (w : World) (p : str) (e : Entries) : Prop := mkTableAt {
  table_file : files w !! p = Some (SSTable.render e);
  table_wf : MemTable.wf_entries e;
  table_ok : SSTable.entries_ok e;
}.

(** The live SSTables, oldest first, hold the tables [es]. *)
Definition tables (ps : list str) (w : World) (es : list Entries) : Prop :=
  Forall2 (table_at w) ps es.

(** All versions of a key in some tables, oldest table first. *)
Definition table_versions (key : str) (es : list Entries) : list Version :=
  concat (MemTable.versions_of key <$> es).

(** All versions of a key in the store: SSTables, immutable memtable, memtable. *)
Definition all_versions (key : str) (s : KVStore) (es : list Entries) : list Version :=
  table_versions key es ++
  MemTable.versions_of key (default [] (immutable_memtable_ s)) ++
  MemTable.versions_of key (MemTable.entries_ (memtable_ s)).

(** No completion is waiting to be drained. *)
Definition quiet (s : KVStore) : Prop := FlushWorker.completions_ (flush_worker_ s) = [].

(** ** Lemmas: layered lookup *)

Lemma scan_state_not_found t vs :
  state (MemTable.scan t vs) = NotFound ↔ ¬ Exists (λ v, timestamp v ≤ t)%N vs.
Proof.
  induction vs as [|v vs IH]; simpl; [split; [by intros _ ?%Exists_nil|done]|].
  rewrite Exists_cons. destruct (N.leb_spec (timestamp v) t).
  - destruct (value v); simpl; naive_solver.
  - rewrite IH. split; [intros ? [?|?]; [lia|done]|naive_solver].
Qed.

Lemma scan_not_found t vs : state (MemTable.scan t vs) = NotFound → MemTable.scan t vs = not_found.
Proof.
  intros E%scan_state_not_found. apply MemTable.scan_none. intros v Hv.
  destruct (N.ltb_spec t (timestamp v)); [done|]. exfalso. apply E, Exists_exists. by exists v.
Qed.

(** Scanning a concatenation is scanning the layers in turn. *)
Lemma scan_layer t l1 l2 :
  MemTable.scan t (l1 ++ l2) =
    match state (MemTable.scan t l1) with
    | NotFound => MemTable.scan t l2
    | _ => MemTable.scan t l1
    end.
Proof.
  rewrite MemTable.scan_app. case_decide as He.
  - destruct (state (MemTable.scan t l1)) eqn:E; try done.
    by apply scan_state_not_found in E.
  - apply scan_state_not_found in He. by rewrite He.
Qed.

Lemma value_of_layer t l1 l2 :
  value_of (MemTable.scan t (l1 ++ l2)) =
    match state (MemTable.scan t l1) with
    | NotFound => value_of (MemTable.scan t l2)
    | _ => value_of (MemTable.scan t l1)
    end.
Proof. rewrite scan_layer. by destruct (state _). Qed.

Lemma reader_get_at_table p e key t w :
  faults w = [] → table_at w p e →
  ∃ r, SSTableReader.make_default p w = (r, w) ∧
    SSTableReader.get_at key t r = MemTable.scan t (reverse (MemTable.versions_of key e)).
Proof.
  intros Hw [Hf Hwf Hok]. unfold SSTableReader.make_default.
  rewrite (SSTableReader.make_ok p (SSTable.render e)) by done. eexists. split; [done|].
  rewrite <-(SSTableReader.get_at_render key t e 4 8192 4) by done. done.
Qed.

Lemma table_versions_snoc key es e :
  table_versions key (es ++ [e]) = table_versions key es ++ MemTable.versions_of key e.
Proof. unfold table_versions. rewrite fmap_app, concat_app. simpl. by rewrite app_nil_r. Qed.

Lemma lookup_sstables_ok ps es key t w :
  faults w = [] → tables ps w es →
  lookup_sstables (reverse ps) key t w =
    (value_of (MemTable.scan t (reverse (table_versions key es))), w).
Proof.
  intros Hw. revert es. induction ps as [|p ps IH] using rev_ind; intros es Ht.
  - apply Forall2_nil_inv_l in Ht as ->. done.
  - apply Forall2_app_inv_l in Ht as (es1 & es2 & Ht1 & Ht2 & ->).
    apply Forall2_cons_inv_l in Ht2 as (e & ? & He & ->%Forall2_nil_inv_l & ->).
    rewrite reverse_app. cbn [lookup_sstables reverse rev_append app].
    rewrite table_versions_snoc, reverse_app, value_of_layer.
    destruct (reader_get_at_table p e key t w Hw He) as (r & E & G).
    change (reverse [p]) with [p]. cbn [app lookup_sstables].
    unfold mbind, ST_bind. rewrite E. rewrite G. unfold value_of at 2 3.
    destruct (state _) eqn:S; [by apply IH|done..].
Qed.

Lemma drain_quiet `{SortVersions} s w :
  quiet s → drain_completed_flushes_unlocked (s, w) = (tt, (s, w)).
Proof.
  intros Hq. unfold drain_completed_flushes_unlocked. run_kv. rewrite Hq. cbn [length drain_loop].
  run_kv. unfold FlushWorker.poll_completion. by rewrite Hq.
Qed.

Lemma lookup_entries_scan e key t :
  lookup_entries e key t = MemTable.scan t (reverse (MemTable.versions_of key e)).
Proof. unfold lookup_entries, MemTable.versions_of. by destruct (OrdMap.find key e). Qed.

(** The layered read is one scan over all versions, newest layer first. *)
Lemma get_at_scan `{SortVersions} key t s w es :
  quiet s → faults w = [] → tables (sstable_paths_ s) w es →
  get_at key t (s, w) =
    (value_of (MemTable.scan t (reverse (all_versions key s es))), (s, w)).
Proof.
  intros Hq Hw Ht. unfold get_at. unfold mbind at 1, ST_bind at 1. rewrite drain_quiet by done.
  run_kv. unfold all_versions. rewrite !reverse_app, <-!app_assoc.
  rewrite value_of_layer, MemTable.get_at_versions.
  destruct (state (MemTable.scan t (reverse (MemTable.versions_of key (MemTable.entries_ _))))) eqn:E1;
    cbn [fst snd]; [|unfold value_of; by rewrite E1..].
  rewrite value_of_layer.
  set (r := match immutable_memtable_ s with Some _ => _ | None => _ end).
  assert (r = MemTable.scan t (reverse (MemTable.versions_of key (default [] (immutable_memtable_ s))))) as ->.
  { unfold r. destruct (immutable_memtable_ s); [apply lookup_entries_scan|done]. }
  destruct (state (MemTable.scan t (reverse (MemTable.versions_of key (default _ _))))) eqn:E2;
    cbn [fst snd]; [|unfold value_of; by rewrite E2..].
  by rewrite (lookup_sstables_ok _ es) by done.
Qed.

(** ** Lemmas: the compaction output's name *)

Lemma compacted_name_inj i j : compacted_name i = compacted_name j → i = j.
Proof.
  unfold compacted_name. intros E. apply app_inv_head in E. apply app_inv_tail in E.
  by apply dec_inj.
Qed.

Lemma pick_output_spec fuel id paths :
  (id + N.of_nat fuel < 2 ^ 64)%N →
  ∃ k, k ≤ fuel ∧
    (pick_output fuel id paths).1 = compacted_name (id + N.of_nat k) ∧
    (∀ j, j < k → compacted_name (id + N.of_nat j) ∈ paths) ∧
    (k < fuel → compacted_name (id + N.of_nat k) ∉ paths).
Proof.
  revert id. induction fuel as [|f IH]; intros id Hid; cbn [pick_output].
  { exists 0. rewrite N.add_0_r. repeat split; intros; lia. }
  case_decide as Hin; cycle 1.
  { exists 0. rewrite N.add_0_r. repeat split; intros; [lia|lia|done]. }
  rewrite wrap_fits by (unfold fits; lia).
  destruct (IH (id + 1)%N ltac:(lia)) as (k & Hk & -> & Hall & Hlast). exists (S k).
  assert (∀ j, (id + 1 + N.of_nat j = id + N.of_nat (S j))%N) as Hsuc by (intros; lia).
  rewrite Hsuc in *. repeat split; [lia| |intros; apply Hlast; lia].
  intros [|j] Hj; [by rewrite N.add_0_r|]. rewrite <-Hsuc. apply Hall. lia.
Qed.

(** The loop's fuel is enough: the name it returns is not a live path. *)
Lemma pick_output_fresh id paths :
  (id + N.of_nat (length paths) < 2 ^ 64)%N →
  (pick_output (length paths) id paths).1 ∉ paths.
Proof.
  intros Hid. destruct (pick_output_spec _ id paths Hid) as (k & Hk & -> & Hall & Hlast).
  destruct (decide (k = length paths)) as [->|]; [|apply Hlast; lia].
  intros Hin. set (names := (λ j, compacted_name (id + N.of_nat j)) <$> seq 0 (S (length paths))).
  assert (NoDup names) as Hnd.
  { apply (NoDup_fmap_2_strong _ _); [|apply NoDup_seq].
    intros i j _ _ E%compacted_name_inj. lia. }
  assert (names ⊆ paths) as Hsub.
  { intros x (j & -> & Hj)%list_elem_of_fmap. apply elem_of_seq in Hj.
    destruct (decide (j = length paths)) as [->|]; [done|]. apply Hall. lia. }
  pose proof (submseteq_length _ _ (NoDup_submseteq _ _ Hnd Hsub)) as Hl.
  unfold names in Hl. rewrite length_fmap, length_seq in Hl. lia.
Qed.

(** ** Lemmas: compaction *)

(** The oldest two tables merge without changing any read. *)
Lemma scan_merged `{SortVersions} key t e1 e2 :
  MemTable.wf_entries e1 → MemTable.wf_entries e2 → consistent e1 e2 →
  MemTable.ordered (MemTable.versions_of key e1 ++ MemTable.versions_of key e2) →
  MemTable.scan t (reverse (MemTable.versions_of key (normalise (merge_tables [e1; e2])))) =
  MemTable.scan t (reverse (MemTable.versions_of key e1 ++ MemTable.versions_of key e2)).
Proof.
  intros W1 W2 Hc Ho.
  pose proof (merge2_versions key e1 e2 (MemTable.wf_sorted _ W1) (MemTable.wf_sorted _ W2)) as E.
  destruct (MemTable.visible_dec (MemTable.versions_of key e1 ++ MemTable.versions_of key e2) t)
    as [[v Hv]|Hn].
  - rewrite (MemTable.scan_visible _ (_ ++ _) v) by done.
    apply normalise_visible; [|by rewrite E].
    intros v1 v2. by apply merge2_agree.
  - rewrite (MemTable.scan_none t (reverse (_ ++ _))).
    + apply normalise_none. by rewrite E.
    + intros v. rewrite elem_of_reverse. apply Hn.
Qed.

Section Compaction.
Context `{SortVersions}.

Definition tmp (p : str) : str := p ++ b# ".tmp".
#[local] Arguments tmp : simpl never.

(** The output name the next compaction picks, and the identifier behind it. *)
Definition output_of (s : KVStore) : str :=
  (pick_output (length (sstable_paths_ s)) (next_sstable_id_ s) (sstable_paths_ s)).1.
Definition next_id_of (s : KVStore) : N :=
  (pick_output (length (sstable_paths_ s)) (next_sstable_id_ s) (sstable_paths_ s)).2.

(** The files compaction uses are apart from each other: live tables, the
    output, the manifest and the temporary files. *)
Record names_apart (s : KVStore) : Prop := mkApart {
  apart_paths : NoDup (sstable_paths_ s);
  apart_out : output_of s ∉ sstable_paths_ s;
  apart_out_tmp : tmp (output_of s) ∉ sstable_paths_ s;
  apart_manifest : manifest_ s ∉ output_of s :: tmp (output_of s) :: sstable_paths_ s;
  apart_manifest_tmp : tmp (manifest_ s) ∉ output_of s :: tmp (output_of s) :: sstable_paths_ s;
}.

Lemma tmp_ne p : tmp p ≠ p.
Proof using.
  unfold tmp. intros E. apply (f_equal length) in E. rewrite length_app in E. simpl in E. lia.
Qed.

(** The table the two oldest tables merge into. *)
Definition merged (e1 e2 : Entries) : Entries := normalise (merge_tables [e1; e2]).

Lemma maybe_compact_run s w first second rest :
  sstable_paths_ s = first :: second :: rest → kCompactionTrigger ≤ length (sstable_paths_ s) →
  first ≠ second →
  maybe_compact_sstables_unlocked (s, w) =
    let out := output_of s in
    let s1 := set_next_id (next_id_of s) s in
    let '(compacted, w) := compact [first; second] (tmp out) w in
    if negb compacted then (false, (s1, w))
    else
      let '(renamed, w) := FileSystem.rename (tmp out) out w in
      if negb renamed then (false, (s1, (FileSystem.remove (tmp out) w).2))
      else
        let '(replaced, w) := Manifest.replace_sstables (out :: rest) (manifest_ s) w in
        if negb replaced then (false, (s1, (FileSystem.remove out w).2))
        else (true, (set_sstables (out :: rest) s1,
                     (FileSystem.remove second (FileSystem.remove first w).2).2)).
Proof using.
  intros Hp Hl Hne. unfold maybe_compact_sstables_unlocked, output_of, next_id_of. run_kv.
  rewrite Hp in *. rewrite decide_False by (unfold kCompactionTrigger in *; lia).
  rewrite decide_False by done. cbn [fst snd].
  destruct (pick_output _ _ _) as [out id] eqn:E. cbn [fst snd]. fold (tmp out).
  destruct (compact [first; second] (tmp out) w) as [[] w1]; cbn; [|done].
  destruct (FileSystem.rename (tmp out) out w1) as [[] w2]; cbn.
  - destruct (Manifest.replace_sstables (out :: rest) (manifest_ s) w2) as [[] w3]; cbn.
    + destruct (FileSystem.remove first w3) as [? w4]. cbn.
      by destruct (FileSystem.remove second w4).
    + by destruct (FileSystem.remove out w3).
  - by destruct (FileSystem.remove (tmp out) w2).
Qed.

Lemma remove_other q p w : p ≠ q → files (FileSystem.remove q w).2 !! p = files w !! p.
Proof using.
  intros Hne. destruct (FileSystem.remove q w) as [b w'] eqn:E. apply FileSystem.remove_spec in E.
  simpl. rewrite E. destruct b; [|done]. by rewrite lookup_delete_ne.
Qed.

(** The effect of a compaction under any failures. *)
Lemma maybe_compact_spec s w first second rest e1 e2 b s' w' :
  sstable_paths_ s = first :: second :: rest → kCompactionTrigger ≤ length (sstable_paths_ s) →
  names_apart s → table_at w first e1 → table_at w second e2 →
  maybe_compact_sstables_unlocked (s, w) = (b, (s', w')) →
  let out := output_of s in
  (∀ p, p ∈ rest → files w' !! p = files w !! p) ∧
  if b then
    s' = set_sstables (out :: rest) (set_next_id (next_id_of s) s) ∧
    files w' !! out = Some (SSTable.render (merged e1 e2)) ∧
    files w' !! manifest_ s = Some (Manifest.render (out :: rest))
  else
    s' = set_next_id (next_id_of s) s ∧
    (∀ p, p ∈ first :: second :: rest → files w' !! p = files w !! p) ∧
    files w' !! manifest_ s = files w !! manifest_ s.
Proof using.
  intros Hp Hl [Hnd Ho Hot Hm Hmt] [F1 _ O1] [F2 _ O2] E out.
  rewrite Hp in *. fold out in Ho, Hot, Hm, Hmt. pose proof (tmp_ne out) as Hto.
  assert (first ≠ second ∧ first ∉ rest ∧ second ∉ rest) as (Hfs & Hfr & Hsr) by
    (apply NoDup_cons in Hnd as [? [? _]%NoDup_cons]; set_solver).
  rewrite <-Hp in Hl. rewrite (maybe_compact_run s w first second rest) in E by done.
  fold out in E. cbv zeta in E.
  destruct (compact [first; second] (tmp out) w) as [r1 w1] eqn:E1.
  apply (compact2_spec _ _ _ e1 e2) in E1 as [C1 C2]; [|done..].
  assert (G1 : ∀ p, p ∈ manifest_ s :: first :: second :: rest → files w1 !! p = files w !! p)
    by (intros p Hin; apply C1; set_solver).
  destruct r1; cbn in E; [|injection E as <- <- <-; split; [|split; [done|split]]; intros; apply G1; set_solver].
  destruct (FileSystem.rename (tmp out) out w1) as [r2 w2] eqn:E2.
  apply FileSystem.rename_spec in E2. destruct r2; cbn in E; cycle 1.
  { injection E as <- <- <-.
    assert (∀ p, p ∈ manifest_ s :: first :: second :: rest →
      files (FileSystem.remove (tmp out) w2).2 !! p = files w !! p) as G2.
    { intros p Hin. rewrite remove_other by set_solver. rewrite E2. by apply G1. }
    split; [|split; [done|split]]; intros; apply G2; set_solver. }
  destruct E2 as (c & Hc & E2). rewrite C2 in Hc by done. injection Hc as <-.
  assert (G2 : ∀ p, p ∈ manifest_ s :: first :: second :: rest → files w2 !! p = files w !! p).
  { intros p Hin. rewrite E2, lookup_insert_ne, lookup_delete_ne by set_solver. by apply G1. }
  destruct (Manifest.replace_sstables (out :: rest) (manifest_ s) w2) as [r3 w3] eqn:E3.
  apply Manifest.replace_spec in E3 as [M1 M2]. fold (tmp (manifest_ s)) in M1.
  assert (G3 : ∀ p, p ∈ first :: second :: rest → files w3 !! p = files w !! p).
  { intros p Hin. rewrite M1 by set_solver. apply G2. set_solver. }
  destruct r3; cbn in E; injection E as <- <- <-.
  - assert (G4 : ∀ p, p ≠ first → p ≠ second →
      files (FileSystem.remove second (FileSystem.remove first w3).2).2 !! p = files w3 !! p)
      by (intros; by rewrite !remove_other).
    split; [intros p Hin; rewrite G4 by set_solver; apply G3; set_solver|].
    split; [done|]. rewrite !G4 by set_solver.
    split; [|done]. by rewrite M1, E2, lookup_insert_eq by set_solver.
  - assert (G4 : ∀ p, p ≠ out → files (FileSystem.remove out w3).2 !! p = files w3 !! p)
      by (intros; by rewrite remove_other).
    split; [intros p Hin; rewrite G4 by set_solver; apply G3; set_solver|].
    split; [done|]. split; [intros p Hin; rewrite G4 by set_solver; by apply G3|].
    rewrite G4, M2 by set_solver. apply G2. set_solver.
Qed.

Lemma maybe_compact_ok s w first second rest e1 e2 :
  sstable_paths_ s = first :: second :: rest → kCompactionTrigger ≤ length (sstable_paths_ s) →
  first ≠ second → faults w = [] → manifest_ s ≠ [] →
  table_at w first e1 → table_at w second e2 →
  (maybe_compact_sstables_unlocked (s, w)).1 = true.
Proof using.
  intros Hp Hl Hne Hw Hm [F1 _ O1] [F2 _ O2].
  rewrite (maybe_compact_run s w first second rest) by done. cbv zeta.
  rewrite (compact2_ok _ _ _ e1 e2) by done. cbn [negb].
  erewrite FileSystem.rename_ok; [|done|cbn; by rewrite lookup_insert_eq]. cbn [negb].
  by rewrite Manifest.replace_ok.
Qed.

Lemma tables_same ps w w' es :
  tables ps w es → (∀ p, p ∈ ps → files w' !! p = files w !! p) → tables ps w' es.
Proof using.
  unfold tables. induction 1 as [|p e ps es [Hf Hwf Hok] _ IH]; intros Hs; constructor.
  - constructor; [|done|done]. rewrite Hs; [done|by left].
  - apply IH. intros q Hq. apply Hs. by right.
Qed.

Lemma table_versions_cons key e es :
  table_versions key (e :: es) = MemTable.versions_of key e ++ table_versions key es.
Proof using. done. Qed.

(** Scanning is determined by what scanning the oldest layers answers. *)
Lemma scan_layers_eq t l l1 l2 :
  MemTable.scan t l1 = MemTable.scan t l2 → MemTable.scan t (l ++ l1) = MemTable.scan t (l ++ l2).
Proof using. intros E. by rewrite !scan_layer, E. Qed.

Lemma ordered_app_l l1 l2 : MemTable.ordered (l1 ++ l2) → MemTable.ordered l1.
Proof using. by intros (_ & ? & _)%StronglySorted_app. Qed.

Lemma ordered_consistent e1 e2 :
  (∀ key, MemTable.ordered (MemTable.versions_of key e1 ++ MemTable.versions_of key e2)) →
  consistent e1 e2.
Proof using.
  intros Ho key v1 v2 I1 I2 E. specialize (Ho key).
  apply StronglySorted_app in Ho as (Hlt & _ & _). specialize (Hlt v1 v2 I1 I2).
  unfold MemTable.older in Hlt. lia.
Qed.

(** Reads of a store are ordered when no layer holds a version older than one
    in an older layer. *)
Definition layers_ordered (s : KVStore) (es : list Entries) : Prop :=
  ∀ key, MemTable.ordered (all_versions key s es).

Lemma merged_scan key t s e1 e2 es :
  MemTable.wf_entries e1 → MemTable.wf_entries e2 → layers_ordered s (e1 :: e2 :: es) →
  MemTable.scan t (reverse (all_versions key s (merged e1 e2 :: es))) =
  MemTable.scan t (reverse (all_versions key s (e1 :: e2 :: es))).
Proof using.
  intros W1 W2 Ho. unfold all_versions. rewrite !table_versions_cons.
  rewrite (app_assoc (MemTable.versions_of key e1)), <-!(app_assoc (_ ++ _) (table_versions _ _)).
  rewrite <-(app_assoc (MemTable.versions_of key (merged e1 e2))).
  rewrite (reverse_app (MemTable.versions_of key (merged e1 e2))), (reverse_app (_ ++ _) (table_versions _ _ ++ _)).
  assert (Ho' : ∀ k, MemTable.ordered (MemTable.versions_of k e1 ++ MemTable.versions_of k e2)).
  { intros k. specialize (Ho k). unfold all_versions in Ho.
    rewrite !table_versions_cons, (app_assoc (MemTable.versions_of k e1)), <-app_assoc in Ho.
    by apply ordered_app_l in Ho. }
  apply scan_layers_eq, scan_merged; [done|done|by apply ordered_consistent|done].
Qed.

(** ** Properties *)

(** C7: The versioned read.  When no completion is pending, no read fails, every live
    path names a well-formed table, and the versions of each key, from the oldest
    table to the memtable, have increasing timestamps, [get_at key t] changes nothing and answers the MVCC rule over the memtable,
    the immutable memtable and all live SSTables, index and Bloom filter
    notwithstanding: the value of the newest version of the key not newer than
    [t], nothing when that version is a tombstone or when every version of the
    key is newer than [t].  The order of the layers is what one process keeps; a
    checkpoint and a restart break it, since [open] restarts [seq_]
    ([checkpoint_resets_sequence] in [KVRecovery]). *)
Theorem get_at_mvcc key t s w es :
  quiet s → faults w = [] → tables (sstable_paths_ s) w es → layers_ordered s es →
  ∃ r, get_at key t (s, w) = (r, (s, w)) ∧
    (∀ v, MemTable.visible (all_versions key s es) t v → r = value v) ∧
    ((∀ v, v ∈ all_versions key s es → (t < timestamp v)%N) → r = None).
Proof using.
  intros Hq Hw Ht Ho. eexists. split; [by apply get_at_scan|]. split.
  - intros v Hv. rewrite (MemTable.scan_visible _ _ v) by (done || apply Ho).
    unfold MemTable.result_of. by destruct (value v).
  - intros Hn. rewrite MemTable.scan_none; [done|]. intros v. rewrite elem_of_reverse. apply Hn.
Qed.

(** Versioned reads around a write.  After a [put] that does not hand the
    memtable over, [get_at] at or after the new timestamp returns the new value
    of that key (read your writes), and every other versioned read, earlier
    times of the same key included, answers as before (stable snapshots). *)
Theorem put_versioned_reads `{Abi} key v s w es :
  opened_ s = true → Wal.fd_ (wal_ s) = Some (length (Wal.content_of (Wal.path_ (wal_ s)) w)) →
  quiet s → faults w = [] → tables (sstable_paths_ s) w es →
  Wal.path_ (wal_ s) ∉ sstable_paths_ s → MemTable.wf (memtable_ s) →
  full (applied (put_record key v s) s) = false →
  let '(_, e') := put key v (s, w) in
  ∀ k t, (get_at k t e').1 =
    if decide (k = key ∧ (next_seq s ≤ t)%N) then Some v else (get_at k t (s, w)).1.
Proof using.
  intros Ho Hfd Hq Hw Ht Hp Hwf Hfull. rewrite put_run by (done || congruence).
  unfold finish. run_kv. rewrite maybe_flush_run, Hfull. cbn [negb].
  set (s1 := applied _ s). destruct (group_commit _ _) as [b [s' w']] eqn:E. cbn [snd].
  apply group_commit_frame in E as (l & -> & E).
  assert (faults w' = [] ∧ tables (sstable_paths_ s) w' es) as [Hw' Ht'].
  { revert E. case_decide; [|by intros (_ & _ & ->)]. intros E. split.
    - pose proof (Wal.flush_calm (wal_ s1) w Hw) as C. by rewrite E in C.
    - apply Wal.flush_appends in E as (pre & _ & [_ Hoth] & _); [|exact Hfd].
      eapply tables_same; [done|]. intros p Hin. apply Hoth. intros ->. by apply Hp. }
  intros k t. rewrite (get_at_scan k t s w es), (get_at_scan k t (set_wal l s1) w' es) by done.
  cbn [fst]. unfold all_versions. cbn [memtable_ set_wal immutable_memtable_].
  change (immutable_memtable_ s1) with (immutable_memtable_ s).
  change (MemTable.entries_ (memtable_ s1)) with
    (MemTable.push_back key (mkVersion (next_seq s) (Some v)) (MemTable.entries_ (memtable_ s))).
  rewrite MemTable.versions_of_push by (apply MemTable.wf_sorted, Hwf).
  destruct (decide (key = k)) as [->|Hk]; [|rewrite decide_False by naive_solver; done].
  rewrite !app_assoc, MemTable.scan_snoc. cbn [timestamp].
  destruct (N.leb_spec (next_seq s) t).
  - by rewrite decide_True.
  - rewrite decide_False by (intros [_ ?]; lia). done.
Qed.

(** C8: Compaction is invisible to reads and crash safe.  Take at least four live
    paths that name well-formed tables, file names that are apart from each other
    ([names_apart]) and layers whose versions have increasing timestamps, as for the
    versioned read.  Whatever system calls fail, after [maybe_compact_sstables_unlocked] the live list again names
    well-formed tables and every versioned read of every key answers as before;
    on success the manifest lists the new live tables, on failure it is
    unchanged. *)
Theorem compaction_preserves_reads s w es b s' w' :
  kCompactionTrigger ≤ length (sstable_paths_ s) → names_apart s →
  tables (sstable_paths_ s) w es → layers_ordered s es →
  maybe_compact_sstables_unlocked (s, w) = (b, (s', w')) →
  ∃ es', tables (sstable_paths_ s') w' es' ∧
    (∀ key t, MemTable.scan t (reverse (all_versions key s' es')) =
              MemTable.scan t (reverse (all_versions key s es))) ∧
    files w' !! manifest_ s = (if b then Some (Manifest.render (sstable_paths_ s'))
                               else files w !! manifest_ s).
Proof using.
  intros Hl Ha Ht Ho E.
  destruct (sstable_paths_ s) as [|first [|second rest]] eqn:Hp;
    [exfalso; clear -Hl; unfold kCompactionTrigger in Hl; simpl in Hl; lia..|].
  apply Forall2_cons_inv_l in Ht as (e1 & es1 & T1 & Ht & ->).
  apply Forall2_cons_inv_l in Ht as (e2 & es2 & T2 & Ht & ->).
  rewrite <-Hp in Hl.
  destruct (maybe_compact_spec s w first second rest e1 e2 b s' w' Hp Hl Ha T1 T2 E) as [Hr Hb].
  destruct b.
  - destruct Hb as (-> & Hout & Hman). exists (merged e1 e2 :: es2). cbn [sstable_paths_ set_sstables].
    split; [|split; [|done]].
    + constructor; [|by eapply tables_same].
      constructor; [done|apply merge2_wf|].
      destruct T1, T2. by apply normalise_ok, merge2_ok.
    + intros key t. destruct T1, T2. by apply (merged_scan key t s).
  - destruct Hb as (-> & Hall & Hman). exists (e1 :: e2 :: es2). cbn [sstable_paths_ set_next_id].
    rewrite Hp. split; [|done]. eapply tables_same; [|exact Hall].
    constructor; [done|]. by constructor.
Qed.

(** Compaction makes progress: with four or more distinct live tables and
    no failing system call it succeeds and there is one live table less. *)
Theorem compaction_succeeds s w es :
  kCompactionTrigger ≤ length (sstable_paths_ s) → names_apart s → manifest_ s ≠ [] →
  faults w = [] → tables (sstable_paths_ s) w es →
  ∃ s' w', maybe_compact_sstables_unlocked (s, w) = (true, (s', w')) ∧
    S (length (sstable_paths_ s')) = length (sstable_paths_ s).
Proof using.
  intros Hl Ha Hm Hw Ht.
  destruct (sstable_paths_ s) as [|first [|second rest]] eqn:Hp;
    [exfalso; clear -Hl; unfold kCompactionTrigger in Hl; simpl in Hl; lia..|].
  apply Forall2_cons_inv_l in Ht as (e1 & es1 & T1 & Ht & ->).
  apply Forall2_cons_inv_l in Ht as (e2 & es2 & T2 & Ht & ->).
  rewrite <-Hp in Hl. pose proof (apart_paths _ Ha) as Hnd. rewrite Hp in Hnd.
  assert (first ≠ second) as Hne by (apply NoDup_cons in Hnd as [? _]; set_solver).
  pose proof (maybe_compact_ok s w first second rest e1 e2 Hp Hl Hne Hw Hm T1 T2) as Hb.
  destruct (maybe_compact_sstables_unlocked (s, w)) as [b [s' w']] eqn:E. simpl in Hb. subst b.
  exists s', w'. split; [done|].
  destruct (maybe_compact_spec s w first second rest e1 e2 true s' w' Hp Hl Ha T1 T2 E) as [_ (-> & _)].
  done.
Qed.

End Compaction.

(** ** Witnesses *)

(** A store with four live tables and a memtable, all holding the key [k]. *)
Definition example_tables : list Entries :=
  [[(b# "k", [mkVersion 1 (Some (b# "one"))])];
   [(b# "k", [mkVersion 2 (Some (b# "two")); mkVersion 3 None])];
   [(b# "k", [mkVersion 5 (Some (b# "five"))])];
   [(b# "k", [mkVersion 6 None])]].
Definition example_paths : list str := sstable_name <$> [0; 1; 2; 3]%N.
Definition example_manifest : str := b# "MANIFEST".
Definition example_log : str := b# "wal.log".
Definition example_memtable : MemTable.MemTable := @MemTable.put libstdcxx_abi (b# "k") 8 (b# "eight") MemTable.empty_table.
Definition example_store : KVStore :=
  mkStore {[ b# "k" := b# "eight" ]} example_memtable None example_paths FlushWorker.empty_worker 4
    example_manifest (b# "/tmp/veristore-MANIFEST") (Wal.mkWal [] (Some 0) example_log 0) 8 5 true.
Definition example_world (os : list outcome) : World :=
  mkWorld (<[example_log := []]> (<[example_manifest := Manifest.render example_paths]>
    (list_to_map (zip example_paths (SSTable.render <$> example_tables))))) os.

Lemma single_table_at w p k vs :
  files w !! p = Some (SSTable.render [(k, vs)]) → vs ≠ [] → MemTable.ordered vs →
  SSTable.entries_ok [(k, vs)] → table_at w p [(k, vs)].
Proof. intros Hf Hne Ho Hok. split; [done| |done]. split; repeat constructor; done. Qed.

Lemma example_tables_live os : tables example_paths (example_world os) example_tables.
Proof.
  unfold tables, example_paths, example_tables. cbn [fmap list_fmap].
  repeat apply Forall2_cons_2; [apply single_table_at; [vm_compute; reflexivity|discriminate
    |repeat constructor; done|by apply (bool_decide_unpack _)]..|apply Forall2_nil_2].
Qed.

Lemma example_layers : layers_ordered example_store example_tables.
Proof.
  intros key. unfold all_versions, table_versions, MemTable.versions_of. cbn.
  destruct (decide (["k"%char] = key)) as [<-|]; cbn; repeat constructor.
Qed.

#[local] Existing Instances libstdcxx_abi merge_sort_versions.

Lemma get_at_mvcc_witness :
  ∃ r, get_at (b# "k") 5 (example_store, example_world []) = (r, (example_store, example_world [])) ∧
    (∀ v, MemTable.visible (all_versions (b# "k") example_store example_tables) 5 v → r = value v) ∧
    ((∀ v, v ∈ all_versions (b# "k") example_store example_tables → (5 < timestamp v)%N) → r = None).
Proof.
  apply (get_at_mvcc (b# "k") 5 example_store (example_world []) example_tables).
  - reflexivity.
  - reflexivity.
  - apply example_tables_live.
  - apply example_layers.
Defined.

Lemma put_versioned_reads_witness :
  let '(_, e') := put (b# "k") (b# "nine") (example_store, example_world []) in
  ∀ k t, (get_at k t e').1 =
    if decide (k = b# "k" ∧ (next_seq example_store ≤ t)%N) then Some (b# "nine")
    else (get_at k t (example_store, example_world [])).1.
Proof.
  apply (put_versioned_reads (b# "k") (b# "nine") example_store (example_world [])
    example_tables).
  - reflexivity.
  - reflexivity.
  - reflexivity.
  - reflexivity.
  - apply example_tables_live.
  - by apply (bool_decide_unpack _).
  - apply MemTable.put_wf; [apply MemTable.empty_wf|]. intros v Hv. by apply not_elem_of_nil in Hv.
  - vm_compute. reflexivity.
Defined.

Lemma compaction_preserves_reads_witness :
  let '(b, (s', w')) :=
    maybe_compact_sstables_unlocked (example_store, example_world [Done; Short 4; Fault]) in
  ∃ es', tables (sstable_paths_ s') w' es' ∧
    (∀ key t, MemTable.scan t (reverse (all_versions key s' es')) =
              MemTable.scan t (reverse (all_versions key example_store example_tables))) ∧
    files w' !! manifest_ example_store =
      (if b then Some (Manifest.render (sstable_paths_ s'))
       else files (example_world [Done; Short 4; Fault]) !! manifest_ example_store).
Proof.
  destruct (maybe_compact_sstables_unlocked
    (example_store, example_world [Done; Short 4; Fault])) as [b [s' w']] eqn:E.
  apply (compaction_preserves_reads example_store
    (example_world [Done; Short 4; Fault]) example_tables b s' w').
  - vm_compute. lia.
  - split; by apply (bool_decide_unpack _).
  - apply example_tables_live.
  - apply example_layers.
  - exact E.
Defined.

End KVReads.
