(* ===== verification/KVSteps.v ===== *)
(** * Clients and the flush worker, interleaved

    A step relation over the store and the world: a client operation under the
    store's mutex, or one step of the flush worker's thread.  The invariants
    hold in every reachable state, whatever system calls fail. *)

From S2P Require Import Prelude CxxString OrdMap FileSystem MemTable SSTable Manifest Compactor Wal FlushWorker KVStore KVWrites KVReads.
Import CxxString.

Module KVSteps.
Import KVStore KVWrites.

(** ** The step relation *)

Section Steps.
Context `{Abi, SortVersions, MapOrder}.

Abbreviation Env := (KVStore * World)%type.

(** One step of the worker's thread. *)
Definition worker_step (e : Env) : Env :=
  let '(fw, w) := FlushWorker.run_step (flush_worker_ e.1) e.2 in (set_worker fw e.1, w).

(** Sequence numbers do not wrap in the executions considered. *)
Definition seq_room (e : Env) : Prop := (seq_ e.1 + 1 < 2 ^ 64)%N.

Inductive step : Env → Env → Prop :=
  | step_put key value e : seq_room e → step e (put key value e).2
  | step_del key e : seq_room e → step e (del key e).2
  | step_get_at key t e : step e (get_at key t e).2
  | step_flush_wal e : step e (flush_wal e).2
  | step_checkpoint sp wp e : step e (checkpoint sp wp e).2
  | step_set_group_commit n e : step e (set_group_commit_every n e).2
  | step_apply_put key value e : step e (ApplyPut key value e).2
  | step_apply_del key e : step e (ApplyDel key e).2
  | step_load_snapshot path e : step e (load_snapshot path e).2
  | step_worker e : step e (worker_step e).

(** ** The invariant *)

(** Flushes handed to the worker whose completion has not been consumed. *)
Definition outstanding (fw : FlushWorker.FlushWorker) : nat :=
  length (FlushWorker.tasks_ fw) + length (FlushWorker.completions_ fw) +
  match FlushWorker.worker_ fw with
  | FlushWorker.Writing _ | FlushWorker.Opening _ | FlushWorker.Appending _
  | FlushWorker.Completing _ => 1
  | _ => 0
  end.

(** The invariant of an execution that began at sequence number [start]. *)
Context (start : N).

Record inv (s : KVStore) : Prop := mkInv {
  inv_worker : FlushWorker.wf (flush_worker_ s);
  inv_outstanding :
    outstanding (flush_worker_ s) ≤ match immutable_memtable_ s with Some _ => 1 | None => 0 end;
  inv_memtable : MemTable.wf (memtable_ s);
  inv_times key v :
    v ∈ MemTable.versions_of key (MemTable.entries_ (memtable_ s)) → (timestamp v ≤ seq_ s)%N;
  inv_every : (0 < group_commit_every_ s)%N;
  inv_start : (start ≤ seq_ s)%N;
}.

(** Parts the invariant is about. *)
Lemma inv_same s s' :
  flush_worker_ s' = flush_worker_ s → immutable_memtable_ s' = immutable_memtable_ s →
  memtable_ s' = memtable_ s → (seq_ s' = seq_ s) →
  group_commit_every_ s' = group_commit_every_ s → inv s → inv s'.
Proof using.
  intros E1 E2 E3 E4 E5 [W O M T G L]. by constructor; rewrite ?E1, ?E2, ?E3, ?E4, ?E5.
Qed.

(** The version a record writes. *)
Definition version_of (r : Wal.LogRecord) : Version :=
  mkVersion (Wal.lr_seq r)
    (match Wal.lr_type r with Wal.Put => Some (Wal.lr_val r) | Wal.Del => None end).

Lemma applied_entries r s :
  MemTable.entries_ (memtable_ (applied r s)) =
  MemTable.push_back (Wal.lr_key r) (version_of r) (MemTable.entries_ (memtable_ s)).
Proof using. unfold applied, Wal.apply_record, version_of. by destruct (Wal.lr_type r). Qed.

(** Writing a record newer than everything in the memtable keeps the invariant. *)
Lemma inv_applied r s :
  inv s → (seq_ s < Wal.lr_seq r)%N → inv (applied r s).
Proof using.
  intros [W O M T G L] Hr. unfold applied.
  assert (Hn : ∀ key, MemTable.newer key (Wal.lr_seq r) (MemTable.entries_ (memtable_ s)))
    by (intros key v Hv; specialize (T key v Hv); lia).
  assert (S : OrdMap.sorted (MemTable.entries_ (memtable_ s)))
    by (apply MemTable.wf_sorted, M).
  constructor; [done|done| | |done|cbn; lia].
  - cbn [memtable_ set_memtable]. unfold Wal.apply_record.
    destruct (Wal.lr_type r); [by apply MemTable.put_wf|by apply MemTable.del_wf].
  - intros key v. fold (applied r s). rewrite applied_entries, MemTable.versions_of_push by done.
    change (seq_ (applied r s)) with (Wal.lr_seq r).
    case_decide; [rewrite elem_of_app, list_elem_of_singleton; intros [Hv | ->]|intros Hv];
      [|simpl; lia|]; specialize (T _ v Hv); lia.
Qed.

Lemma outstanding_enqueue p m e fw :
  outstanding (FlushWorker.enqueue p m e fw).2 ≤ S (outstanding fw).
Proof using.
  unfold FlushWorker.enqueue, outstanding. destruct (negb _ || _); simpl; [lia|].
  rewrite length_app. simpl. lia.
Qed.

Lemma inv_maybe_flush s w b s' w' :
  maybe_flush_memtable_unlocked (s, w) = (b, (s', w')) → inv s → inv s'.
Proof using.
  rewrite maybe_flush_run. intros E Hi. pose proof Hi as [W O M T G L].
  destruct (full s); [|by simplify_eq]. destruct (immutable_memtable_ s) eqn:I; [by simplify_eq|].
  assert (Ht : ∀ key v, v ∈ MemTable.versions_of key (MemTable.entries_ MemTable.empty_table) →
    (timestamp v ≤ seq_ s)%N) by (intros key v Hv; by apply not_elem_of_nil in Hv).
  destruct (MemTable.entries_ (memtable_ s)) eqn:Em; simplify_eq.
  - constructor; try done. apply MemTable.empty_wf.
  - constructor; try done.
    + by apply FlushWorker.wf_enqueue.
    + cbn [handed_over flush_worker_ set_worker immutable_memtable_ set_immutable].
      etransitivity; [apply outstanding_enqueue|]. lia.
    + apply MemTable.empty_wf.
Qed.

Lemma inv_finish n s w b s' w' : finish n (s, w) = (b, (s', w')) → inv s → inv s'.
Proof using.
  unfold finish. run_kv. destruct (maybe_flush_memtable_unlocked (s, w)) as [b1 [s1 w1]] eqn:E.
  intros G Hi. apply (inv_maybe_flush _ _ _ _ _ E) in Hi. destruct b1; cbn in G.
  - apply group_commit_frame in G as (l & -> & _). by apply (inv_same s1).
  - by simplify_eq.
Qed.

(** ** Each operation preserves the invariant *)

Lemma inv_seq n s : (seq_ s ≤ n)%N → inv s → inv (set_seq n s).
Proof using.
  intros Hn [W O M T G L]. constructor; try done; [|cbn; lia]. intros key v Hv. specialize (T key v Hv).
  cbn. lia.
Qed.

Lemma next_seq_room s w : seq_room (s, w) → next_seq s = (seq_ s + 1)%N.
Proof using. intros Hr. by apply wrap_fits. Qed.

Lemma inv_put key v e : seq_room e → inv e.1 → inv (put key v e).2.1.
Proof using.
  destruct e as [s w]. intros Hr Hi. pose proof (next_seq_room s w Hr) as Hn. cbn [fst] in Hi.
  destruct (opened_ s) eqn:Ho; [destruct (Wal.fd_ (wal_ s)) eqn:Hfd|].
  - rewrite put_run by (done || congruence). destruct (finish _ _) as [b [s' w']] eqn:E.
    apply inv_finish in E; [done|]. apply inv_applied; [done|]. cbn. lia.
  - unfold put. run_kv. rewrite Ho. cbn. unfold Wal.append_put, Wal.write_record. cbn.
    rewrite Hfd. cbn. apply (inv_same (set_seq (next_seq s) s)); try done.
    apply inv_seq; [lia|done].
  - unfold put. run_kv. rewrite Ho. done.
Qed.

Lemma inv_del key e : seq_room e → inv e.1 → inv (del key e).2.1.
Proof using.
  destruct e as [s w]. intros Hr Hi. pose proof (next_seq_room s w Hr) as Hn. cbn [fst] in Hi.
  destruct (opened_ s) eqn:Ho; [destruct (Wal.fd_ (wal_ s)) eqn:Hfd|].
  - rewrite del_run by (done || congruence). destruct (map_ s !! key); [|done].
    destruct (finish _ _) as [b [s' w']] eqn:E.
    apply inv_finish in E; [done|]. apply inv_applied; [done|]. cbn. lia.
  - unfold del. run_kv. rewrite Ho. cbn. destruct (map_ s !! key); [|done]. cbn.
    unfold Wal.append_del, Wal.write_record. cbn.
    rewrite Hfd. cbn. apply (inv_same (set_seq (next_seq s) s)); try done.
    apply inv_seq; [lia|done].
  - unfold del. run_kv. rewrite Ho. done.
Qed.

(** Compaction changes only the live list and the next identifier. *)
Lemma maybe_compact_frame s w b s' w' :
  maybe_compact_sstables_unlocked (s, w) = (b, (s', w')) →
  ∃ ps id, s' = set_sstables ps (set_next_id id s).
Proof using.
  assert (Hid : s = set_sstables (sstable_paths_ s) (set_next_id (next_sstable_id_ s) s))
    by (by destruct s).
  destruct (sstable_paths_ s) as [|first [|second rest]] eqn:Hp;
    [unfold maybe_compact_sstables_unlocked; run_kv; rewrite Hp; intros; simplify_eq; eauto..|].
  destruct (decide (length (sstable_paths_ s) < kCompactionTrigger)) as [Hl|Hl].
  { unfold maybe_compact_sstables_unlocked. run_kv. rewrite Hp in *. rewrite decide_True by done.
    intros; simplify_eq; eauto. }
  destruct (decide (first = second)) as [->|Hne].
  { unfold maybe_compact_sstables_unlocked. run_kv. rewrite Hp in *. rewrite decide_False by done.
    rewrite decide_True by done. cbn. destruct (Manifest.replace_sstables _ _ w).
    intros; simplify_eq. exists (second :: rest), (next_sstable_id_ s). by destruct s. }
  rewrite (KVReads.maybe_compact_run s w first second rest) by (done || lia). cbv zeta.
  assert (Hs : ∀ id, ∃ ps id', set_next_id id s = set_sstables ps (set_next_id id' s))
    by (intros id; exists (sstable_paths_ s), id; by destruct s).
  destruct (Compactor.compact _ _ w) as [[] w1]; cbn [negb]; [|intros; simplify_eq; apply Hs].
  destruct (FileSystem.rename _ _ w1) as [[] w2]; cbn [negb]; [|intros; simplify_eq; apply Hs].
  destruct (Manifest.replace_sstables _ _ w2) as [[] w3]; cbn [negb]; intros; simplify_eq;
    [by eexists _, _|apply Hs].
Qed.

Lemma inv_drain_loop fuel added s w b s' w' :
  drain_loop fuel added (s, w) = (b, (s', w')) → inv s → inv s' ∧ w' = w.
Proof using.
  revert added s. induction fuel as [|f IH]; intros added s; cbn [drain_loop]; run_kv.
  { intros; by simplify_eq. }
  unfold FlushWorker.poll_completion.
  destruct (FlushWorker.completions_ (flush_worker_ s)) as [|p ps] eqn:C; [intros; by simplify_eq|].
  cbn [fst snd]. intros E Hi. pose proof Hi as [W O M T G L].
  assert (Hpoll : outstanding (FlushWorker.poll_completion (flush_worker_ s)).2 = 0).
  { unfold outstanding, FlushWorker.poll_completion in *. rewrite C in *. cbn in *.
    destruct (immutable_memtable_ s); lia. }
  pose proof (FlushWorker.wf_poll _ W) as W'.
  unfold FlushWorker.poll_completion in Hpoll, W'. rewrite C in Hpoll, W'. cbn [snd] in Hpoll, W'.
  case_decide as Hin; cbn in E; (apply IH in E; [done|]); constructor; try done;
    exact (Nat.eq_le_incl _ _ Hpoll).
Qed.

Lemma inv_get_at key t e : inv e.1 → inv (get_at key t e).2.1.
Proof using.
  destruct e as [s w]. intros Hi. unfold get_at. unfold mbind at 1, ST_bind at 1.
  assert (Hd : inv (drain_completed_flushes_unlocked (s, w)).2.1).
  { unfold drain_completed_flushes_unlocked. run_kv.
    destruct (drain_loop _ _ _) as [b [s1 w1]] eqn:E.
    apply inv_drain_loop in E as [Hi1 ->]; [|done]. destruct b; [|done].
    destruct (maybe_compact_sstables_unlocked _) as [b2 [s2 w2]] eqn:E2.
    apply maybe_compact_frame in E2 as (ps & id & ->). by apply (inv_same s1). }
  destruct (drain_completed_flushes_unlocked (s, w)) as [[] [s1 w1]]. cbn [snd fst] in Hd.
  run_kv. destruct (state (MemTable.get_at _ _ _)); cbn [fst snd]; [|done..].
  destruct (state (match immutable_memtable_ s1 with Some _ => _ | None => _ end)); cbn [fst snd];
    [|done..]. by destruct (lookup_sstables _ _ _ w1).
Qed.

Lemma inv_set_wal l s : inv s → inv (set_wal l s).
Proof using. by apply inv_same. Qed.

Lemma outstanding_run_step fw w :
  outstanding (FlushWorker.run_step fw w).1 ≤ outstanding fw.
Proof using.
  unfold FlushWorker.run_step, outstanding. destruct (FlushWorker.worker_ fw) eqn:E;
    run_kv; rewrite ?E; try lia.
  - destruct (FlushWorker.tasks_ fw) eqn:Et;
      [destruct (FlushWorker.stopping_ fw)|]; cbn; rewrite ?E, ?Et; cbn; lia.
  - destruct (SSTable.write _ _ w) as [[] ?]; cbn; lia.
  - destruct (Manifest.open _ w) as [[[] ?] ?]; cbn; lia.
  - destruct (Manifest.append_sstable _ _ w) as [[] ?]; cbn; lia.
  - cbn. rewrite length_app. cbn. lia.
Qed.

Lemma inv_worker_step e : inv e.1 → inv (worker_step e).1.
Proof using.
  destruct e as [s w]. intros [W O M T G L]. unfold worker_step. cbn [fst snd].
  pose proof (FlushWorker.wf_run_step (flush_worker_ s) w W) as W'.
  pose proof (outstanding_run_step (flush_worker_ s) w) as Ho.
  destruct (FlushWorker.run_step _ w) as [fw w']. cbn [fst] in *. constructor; try done. cbn. lia.
Qed.

Lemma inv_checkpoint sp wp e : inv e.1 → inv (checkpoint sp wp e).2.1.
Proof using.
  destruct e as [s w]. intros Hi. unfold checkpoint. run_kv. destruct (opened_ s); [|done]. cbn.
  destruct (save_to_file_unlocked sp s w) as [[] w1]; [|done]. cbn.
  destruct (FileSystem.remove wp w1) as [r w2]. cbn.
  destruct (Wal.open wp _ w2) as [[b l] w3]. cbn. by apply inv_set_wal, inv_set_wal.
Qed.

Lemma inv_step e e' : step e e' → inv e.1 → inv e'.1.
Proof using.
  intros Hs Hi. destruct Hs.
  - by apply inv_put.
  - by apply inv_del.
  - by apply inv_get_at.
  - destruct e as [s w]. unfold flush_wal. run_kv.
    destruct (Wal.flush (wal_ s) w) as [[b l] w1]. by apply inv_set_wal.
  - by apply inv_checkpoint.
  - destruct e as [s w]. destruct Hi as [W O M T G L]. constructor; try done. cbn.
    case_decide; lia.
  - destruct e as [s w]. by apply (inv_same s).
  - destruct e as [s w]. by apply (inv_same s).
  - destruct e as [s w]. unfold load_snapshot. run_kv.
    destruct (FileSystem.read_file path w) as [[c|] w1]; cbn; [by apply (inv_same s)|done].
  - by apply inv_worker_step.
Qed.

End Steps.

(** ** Properties *)

Section Properties.
Context `{Abi, SortVersions, MapOrder}.

(** The hand-over protocol and the memtable's order, in the words of the code. *)
Record healthy (s : KVStore) : Prop := mkHealthy {
  healthy_worker : FlushWorker.wf (flush_worker_ s);
  healthy_memtable : MemTable.wf (memtable_ s);
  healthy_times key v :
    v ∈ MemTable.versions_of key (MemTable.entries_ (memtable_ s)) → (timestamp v ≤ seq_ s)%N;
  healthy_every : (0 < group_commit_every_ s)%N;
  healthy_flush :
    outstanding (flush_worker_ s) ≤ match immutable_memtable_ s with Some _ => 1 | None => 0 end;
}.


(** An immutable memtable without an outstanding flush. *)
Definition stuck (s : KVStore) : Prop :=
  immutable_memtable_ s ≠ None ∧ outstanding (flush_worker_ s) = 0.

Lemma stuck_same s s' :
  immutable_memtable_ s' = immutable_memtable_ s → flush_worker_ s' = flush_worker_ s →
  stuck s → stuck s'.
Proof using. unfold stuck. by intros -> ->. Qed.

Lemma finish_pending n s w b s' w' :
  finish n (s, w) = (b, (s', w')) → stuck s → stuck s'.
Proof using.
  unfold finish. run_kv. rewrite maybe_flush_run. intros E [Hi Ho].
  destruct (immutable_memtable_ s) as [im|] eqn:I; [|done].
  destruct (full s); cbn in E; [by simplify_eq; split; rewrite ?I|].
  apply group_commit_frame in E as (l & -> & _). by split; cbn; rewrite ?I.
Qed.

Lemma stuck_step e e' : step e e' → stuck e.1 → stuck e'.1.
Proof using.
  intros Hs Hi. destruct Hs as [key v [s w] _|key [s w] _|key t [s w]|[s w]|sp wp [s w]
    |n [s w]|key v [s w]|key [s w]|path [s w]|[s w]]; cbn [fst] in Hi.
  - destruct (opened_ s) eqn:Ho; [destruct (Wal.fd_ (wal_ s)) eqn:Hfd|].
    + rewrite put_run by (done || congruence). destruct (finish _ _) as [b [s' w']] eqn:E.
      by apply finish_pending in E.
    + unfold put. run_kv. rewrite Ho. cbn. unfold Wal.append_put, Wal.write_record. cbn.
      by rewrite Hfd.
    + unfold put. run_kv. by rewrite Ho.
  - destruct (opened_ s) eqn:Ho; [destruct (Wal.fd_ (wal_ s)) eqn:Hfd|].
    + rewrite del_run by (done || congruence). destruct (map_ s !! key); [|done].
      destruct (finish _ _) as [b [s' w']] eqn:E. by apply finish_pending in E.
    + unfold del. run_kv. rewrite Ho. cbn. destruct (map_ s !! key); [|done]. cbn.
      unfold Wal.append_del, Wal.write_record. cbn. by rewrite Hfd.
    + unfold del. run_kv. by rewrite Ho.
  - assert (Hq : KVReads.quiet s).
    { destruct Hi as [_ Ho]. unfold KVReads.quiet, outstanding in *.
      destruct (FlushWorker.completions_ _); [done|simpl in Ho; lia]. }
    unfold get_at. unfold mbind at 1, ST_bind at 1. rewrite KVReads.drain_quiet by done.
    run_kv. destruct (state (MemTable.get_at _ _ _)); cbn [fst snd]; [|done..].
    destruct (state (match immutable_memtable_ s with Some _ => _ | None => _ end)); cbn [fst snd];
      [|done..]. by destruct (lookup_sstables _ _ _ w).
  - unfold flush_wal. run_kv. by destruct (Wal.flush (wal_ s) w) as [[b l] w1].
  - unfold checkpoint. run_kv. destruct (opened_ s); [|done]. cbn.
    destruct (save_to_file_unlocked sp s w) as [[] w1]; [|done]. cbn.
    destruct (FileSystem.remove wp w1) as [r w2]. cbn.
    by destruct (Wal.open wp _ w2) as [[b l] w3].
  - done.
  - done.
  - done.
  - unfold load_snapshot. run_kv. by destruct (FileSystem.read_file path w) as [[c|] w1].
  - destruct Hi as [Hi Ho]. unfold worker_step. cbn [fst snd].
    pose proof (outstanding_run_step (flush_worker_ s) w) as Hr.
    destruct (FlushWorker.run_step _ w) as [fw w']. split; [done|]. cbn in *. lia.
Qed.

(** The hand-over gap.  The entries given to the flush worker are moved out
    of the immutable memtable, so from the write that fills the memtable until
    the worker's completion is drained [get_at] does not find them: with no
    SSTable holding the key, even the value just written is invisible to every
    versioned read, while [get] returns it.  The same happens when the worker
    refuses the task, and then no SSTable will ever hold it. *)
Theorem handover_hides_entries key v t s w :
  opened_ s = true → Wal.fd_ (wal_ s) ≠ None → immutable_memtable_ s = None →
  full (applied (put_record key v s) s) = true →
  sstable_paths_ s = [] → KVReads.quiet s →
  let '(_, (s', w')) := put key v (s, w) in
  get key s' = Some v ∧ (get_at key t (s', w')).1 = None.
Proof using.
  intros Ho Hfd Hi Hfull Hps Hq. rewrite put_run by done.
  destruct (finish _ _) as [b [s' w']] eqn:E. cbn [snd].
  pose proof (finish_frame _ _ _ _ _ _ E) as (Em & _ & _ & Eps).
  split; [unfold get; rewrite Em; cbn; by rewrite lookup_insert_eq|].
  revert E. unfold finish. run_kv. rewrite maybe_flush_run, Hfull.
  change (immutable_memtable_ (applied _ s)) with (immutable_memtable_ s). rewrite Hi.
  assert (Hne : MemTable.entries_ (memtable_ (applied (put_record key v s) s)) ≠ []).
  { rewrite applied_entries. unfold MemTable.push_back.
    destruct (MemTable.entries_ (memtable_ s)) as [|[k0 x] e0]; [done|]. simpl.
    by destruct (compare _ k0). }
  destruct (MemTable.entries_ _) as [|b0 e0] eqn:Ee; [done|].
  set (s1 := handed_over _). intros E.
  assert (Hs1 : ∃ l, s' = set_wal l s1).
  { destruct (accepting _); cbn [negb] in E; [apply group_commit_frame in E as (l & -> & _); by exists l|].
    injection E as _ <- _. exists (wal_ s1). by destruct s1. }
  destruct Hs1 as [l ->].
  assert (Hq1 : KVReads.quiet (set_wal l s1)).
  { unfold KVReads.quiet, s1, handed_over, FlushWorker.enqueue. cbn.
    destruct (_ || _); cbn; exact Hq. }
  unfold get_at. unfold mbind at 1, ST_bind at 1. rewrite KVReads.drain_quiet by done.
  run_kv. unfold s1, handed_over, applied. cbn. by rewrite Hps.
Qed.

(** A failed flush blocks flushing for good.  Once an immutable memtable is
    recorded but nothing is outstanding for it (its task failed or was refused),
    no later operation or worker step clears it or hands anything to the worker. *)
Theorem failed_flush_blocks e e' :
  immutable_memtable_ e.1 ≠ None → outstanding (flush_worker_ e.1) = 0 →
  rtc step e e' →
  immutable_memtable_ e'.1 ≠ None ∧ outstanding (flush_worker_ e'.1) = 0.
Proof using.
  intros Hi Ho. induction 1 as [e|e e2 e3 Hs _ IH]; [done|].
  apply stuck_step in Hs as [? ?]; [by apply IH|done].
Qed.

End Properties.
(** ** Witnesses *)

#[local] Existing Instances libstdcxx_abi merge_sort_versions some_map_order.


End KVSteps.
