(* ===== verification/KVRecovery.v ===== *)
(** * Recovery of the store

    What [KVStore.open] rebuilds from the disk after a crash, a clean flush or
    a checkpoint (definitions in [KVStore.v]). *)

From S2P Require Import Prelude CxxString OrdMap FileSystem MemTable SSTable Manifest Compactor Wal FlushWorker KVStore KVWrites KVReads KVSteps.
Import CxxString.

Module KVRecovery.
Import KVStore KVWrites.

Section Recovery.
Context `{Abi, SortVersions}.

(** The sequence number after some records. *)
Definition last_seq (rs : list Wal.LogRecord) : N := foldl N.max 0%N (Wal.lr_seq <$> rs).

(** ** Lemmas: [open] in a failure-free world *)

Lemma load_missing path s w :
  faults w = [] → files w !! path = None → load_from_file_unlocked path (s, w) = (false, (s, w)).
Proof using.
  intros Hw Hf. unfold load_from_file_unlocked. run_kv.
  by rewrite FileSystem.read_file_ok, Hf by done.
Qed.

(** What follows the replay in [open] keeps the recovered state. *)
Lemma open_spec wal_path w rs tail :
  faults w = [] → files w !! snapshot_path = None →
  Wal.content_of wal_path w = Wal.log_bytes rs ++ tail → Forall Wal.record_ok rs →
  Wal.parse tail = None →
  ∃ s' w', open wal_path (new_store, w) = (true, (s', w')) ∧
    map_ s' = (Wal.replayed rs).1 ∧ memtable_ s' = (Wal.replayed rs).2 ∧
    seq_ s' = last_seq rs ∧ opened_ s' = true ∧ group_commit_every_ s' = 5%N ∧
    immutable_memtable_ s' = None ∧ flush_worker_ s' = FlushWorker.start FlushWorker.empty_worker ∧
    wal_ s' = Wal.mkWal [] (Some (length (Wal.content_of wal_path w))) wal_path
                (N.of_nat (length (Wal.log_bytes rs))).
Proof using.
  intros Hw Hsnap Hc Hrs Ht. unfold open. run_kv. cbn [opened_ new_store].
  rewrite load_missing by done. cbn [fst snd]. rewrite Wal.open_ok by done. cbn [fst snd negb].
  unfold replay_wal. run_kv. cbn [map_ memtable_ wal_ set_wal].
  set (w1 := mkWorld _ _).
  assert (Hc1 : Wal.content_of wal_path w1 = Wal.log_bytes rs ++ tail).
  { unfold w1, Wal.content_of at 1. cbn. by rewrite lookup_insert_eq. }
  erewrite Wal.replay_log; [|done|reflexivity|exact Hrs|exact Hc1|exact Ht].
  cbn [fst snd negb]. unfold Manifest.open. run_kv.
  rewrite FileSystem.open_app_ok by done. cbn [fst snd negb ofs_good].
  destruct (Manifest.load_sstables _ _) as [ps w2]. cbn [fst snd].
  destruct (maybe_compact_sstables_unlocked _) as [b [s3 w3]] eqn:E.
  apply KVSteps.maybe_compact_frame in E as (ps' & id & ->).
  eexists _, _. split; [reflexivity|]. rewrite Hc. done.
Qed.

(** ** Write histories *)

(** The log of an open store on disk and in its buffer, and the map it stands
    for, when no system call is going to fail. *)
Record logged (path : str) (durable buffered : list Wal.LogRecord) (s : KVStore) (w : World)
    : Prop := mkLogged {
  log_calm : faults w = [];
  log_snapshot : files w !! snapshot_path = None;
  log_path_ne : path ≠ snapshot_path;
  log_opened : opened_ s = true;
  log_fd : Wal.fd_ (wal_ s) = Some (length (Wal.content_of path w));
  log_path : Wal.path_ (wal_ s) = path;
  log_content : Wal.content_of path w = Wal.log_bytes durable;
  log_buffer : Wal.buffer_ (wal_ s) = Wal.encode_record <$> buffered;
  log_records : Forall Wal.record_ok (durable ++ buffered);
  log_map : map_ s = (Wal.replayed (durable ++ buffered)).1;
  log_seq : seq_ s = last_seq (durable ++ buffered);
}.

Lemma replayed_snoc rs r :
  (Wal.replayed (rs ++ [r])).1 = (Wal.apply_record r (Wal.replayed rs)).1.
Proof using. unfold Wal.replayed. by rewrite foldl_app. Qed.

Lemma apply_record_map r t mt :
  (Wal.apply_record r (t.1, mt)).1 = (Wal.apply_record r t).1.
Proof using. unfold Wal.apply_record. by destruct (Wal.lr_type r). Qed.

Lemma logged_applied path d b s w r :
  logged path d b s w → Wal.record_ok r → (seq_ s < Wal.lr_seq r)%N →
  logged path d (b ++ [r]) (applied r s) w.
Proof using.
  intros [Hw Hsn Hne Ho Hfd Hp Hc Hb Hr Hm Hs] Hok Hlt. constructor; try done; cbn.
  - by rewrite Hb, fmap_app.
  - rewrite app_assoc. by apply Forall_app_2, Forall_singleton.
  - rewrite app_assoc, replayed_snoc, Hm. by rewrite apply_record_map.
  - rewrite app_assoc. unfold last_seq. rewrite fmap_app, foldl_app. cbn.
    fold (last_seq (d ++ b)). rewrite <-Hs. lia.
Qed.

Lemma logged_same path d b s s' w :
  same_log s s' → logged path d b s w → logged path d b s' w.
Proof using.
  intros [E1 E2 E3 E4 _ _ _ _] [Hw Hsn Hne Ho Hfd Hp Hc Hb Hr Hm Hs].
  constructor; rewrite ?E1, ?E2, ?E3, ?E4; done.
Qed.

(** A flush makes the buffered records durable. *)
Lemma logged_flush path d b s w ok l w' :
  logged path d b s w → Wal.flush (wal_ s) w = ((ok, l), w') →
  ok = true ∧ logged path (d ++ b) [] (set_wal l s) w'.
Proof using.
  intros [Hw Hsn Hne Ho Hfd Hp Hc Hb Hr Hm Hs] E.
  destruct (Wal.flush_reliable (wal_ s) _ w Hfd) as (l2 & w2 & E2);
    [unfold Wal.reliable; by rewrite Hw|].
  rewrite E in E2. injection E2 as -> -> ->. split; [done|].
  pose proof (Wal.flush_calm (wal_ s) w Hw) as Hcalm. rewrite E in Hcalm.
  rewrite <-Hp in Hfd. apply Wal.flush_appends in E as (pre & _ & [Hc' Hoth] & Hfd' & Hp' & [-> Hnil]);
    [|by rewrite Hfd, Hp].
  rewrite Hp in *. constructor; cbn; rewrite ?app_nil_r; try done.
  { by rewrite Hoth by done. }
  rewrite Hc', Hc, Hb, Wal.log_bytes_app. done.
Qed.

Lemma logged_finish path d b s w n ok s' w' :
  logged path d b s w → finish n (s, w) = (ok, (s', w')) →
  ∃ e b', e ++ b' = b ∧ logged path (d ++ e) b' s' w'.
Proof using.
  intros Hl. unfold finish. run_kv.
  destruct (maybe_flush_memtable_unlocked (s, w)) as [b1 [s1 w1]] eqn:E.
  apply maybe_flush_frame in E as [F ->]. pose proof (logged_same _ _ _ _ _ _ F Hl) as Hl1.
  destruct b1; cbn [negb].
  - intros G. apply group_commit_frame in G as (l & -> & G). case_decide.
    + apply (logged_flush _ _ _ _ _ _ _ _ Hl1) in G as [_ G].
      exists b, []. by rewrite app_nil_r.
    + destruct G as (_ & -> & ->). exists [], b. split; [done|]. rewrite app_nil_r.
      by replace (set_wal (wal_ s1) s1) with s1 by (by destruct s1).
  - intros; simplify_eq. exists [], b. by rewrite app_nil_r.
Qed.

(** Client writes with keys and values the log's fields can carry. *)
Inductive write_op :=
  | WPut (key value : str)
  | WDel (key : str)
  | WFlush
  | WGroupCommit (n : Z).

Definition op_ok (o : write_op) : Prop :=
  match o with
  | WPut k v => fits 32 (N.of_nat (length k)) ∧ fits 32 (N.of_nat (length v))
  | WDel k => fits 32 (N.of_nat (length k))
  | _ => True
  end.

Definition run_write (o : write_op) (e : KVStore * World) : KVStore * World :=
  match o with
  | WPut k v => (put k v e).2
  | WDel k => (del k e).2
  | WFlush => (flush_wal e).2
  | WGroupCommit n => (set_group_commit_every n e).2
  end.

(** The map the writes denote. *)
Definition denote (o : write_op) (m : gmap str str) : gmap str str :=
  match o with
  | WPut k v => <[k := v]> m
  | WDel k => delete k m
  | _ => m
  end.

Lemma logged_run path d b s w o :
  logged path d b s w → op_ok o → (seq_ s + 1 < 2 ^ 64)%N →
  let e' := run_write o (s, w) in
  (∃ e b' rs, e ++ b' = b ++ rs ∧ length rs ≤ 1 ∧ (o = WFlush → b' = []) ∧
     logged path (d ++ e) b' e'.1 e'.2) ∧
  map_ e'.1 = denote o (map_ s) ∧
  (seq_ e'.1 ≤ seq_ s + 1)%N.
Proof using.
  intros Hl Hok Hseq. pose proof Hl as [Hw Hsn Hne Ho Hfd Hp Hc Hb Hr Hm Hs].
  assert (Hn : next_seq s = (seq_ s + 1)%N) by (by apply wrap_fits).
  destruct o as [k v|k| |n]; cbn [run_write denote].
  - rewrite put_run by (done || congruence). destruct (finish _ _) as [ok [s' w']] eqn:E.
    pose proof (finish_frame _ _ _ _ _ _ E) as (Em & Es & _).
    apply (logged_finish path d (b ++ [put_record k v s])) in E as (e & b' & He & Hl').
    + cbn. split; [exists e, b', [put_record k v s]; split_and!; auto; done|]. rewrite Em, Es. cbn. split; [done|]. lia.
    + apply logged_applied; [done| |cbn; lia]. destruct Hok. split_and!; cbn; [unfold fits; lia|done|done|done].
  - rewrite del_run by (done || congruence). destruct (map_ s !! k) eqn:Mk; cycle 1.
    { cbn. split; [exists [], b, []; rewrite !app_nil_r; split_and!; auto; done|].
      rewrite delete_id by done. split; [done|lia]. }
    destruct (finish _ _) as [ok [s' w']] eqn:E.
    pose proof (finish_frame _ _ _ _ _ _ E) as (Em & Es & _).
    apply (logged_finish path d (b ++ [del_record k s])) in E as (e & b' & He & Hl').
    + cbn. split; [exists e, b', [del_record k s]; split_and!; auto; done|]. rewrite Em, Es. cbn. split; [done|]. lia.
    + apply logged_applied; [done| |cbn; lia]. split_and!; cbn; [unfold fits; lia|done|done|done].
  - unfold flush_wal. run_kv. destruct (Wal.flush (wal_ s) w) as [[ok l] w1] eqn:E.
    destruct (logged_flush _ _ _ _ _ _ _ _ Hl E) as [_ G]. cbn.
    split; [exists b, [], []; rewrite !app_nil_r; auto|]. split; [done|lia].
  - cbn. split; [|split; [done|lia]]. exists [], b, []. rewrite !app_nil_r.
    split; [done|]. split; [simpl; lia|]. split; [done|]. by constructor.
Qed.

(** ** The history behind the log *)

Definition denotes (m : gmap str str) (ops : list write_op) : gmap str str :=
  foldl (λ m o, denote o m) m ops.

(** The log extends [rs0], and what any longer prefix of it stands for is the
    effect of a prefix of the operations, which holds every explicit flush once
    the prefix covers the durable part. *)
Definition history (path : str) (rs0 : list Wal.LogRecord) (ops : list write_op)
    (s : KVStore) (w : World) : Prop :=
  ∃ d b, logged path (rs0 ++ d) b s w ∧
    map_ s = denotes (Wal.replayed rs0).1 ops ∧
    ∀ j, ∃ n, (Wal.replayed (rs0 ++ take j (d ++ b))).1 = denotes (Wal.replayed rs0).1 (take n ops) ∧
      (length d ≤ j → ∀ i, ops !! i = Some WFlush → i < n).

Lemma history_run path rs0 ops o s w :
  history path rs0 ops s w → op_ok o → (seq_ s + 1 < 2 ^ 64)%N →
  let e' := run_write o (s, w) in
  history path rs0 (ops ++ [o]) e'.1 e'.2 ∧ (seq_ e'.1 ≤ seq_ s + 1)%N.
Proof using.
  intros (d & b & Hl & Hm & Hp) Hok Hseq.
  destruct (logged_run _ _ _ _ _ o Hl Hok Hseq)
    as ((e & b' & rs & He & Hrs & Hfl & Hl') & Hm' & Hs).
  split; [|done]. exists (d ++ e), b'. rewrite app_assoc. split; [done|].
  assert (Hm2 : map_ (run_write o (s, w)).1 = denotes (Wal.replayed rs0).1 (ops ++ [o])).
  { unfold denotes. rewrite foldl_app. cbn. fold (denotes (Wal.replayed rs0).1 ops). congruence. }
  assert (Hlen : length e + length b' = length b + length rs) by (by rewrite <-!length_app, He).
  split; [done|]. intros j. rewrite <-app_assoc, He.
  destruct (decide (length (d ++ b ++ rs) ≤ j)) as [Hj|Hj].
  - exists (length (ops ++ [o])). rewrite (take_ge (ops ++ [o])) by done. rewrite take_ge by done.
    rewrite <-Hm2. rewrite (log_map _ _ _ _ _ Hl'). rewrite <-!app_assoc, He. split; [done|].
    intros _ i Hi. by apply lookup_lt_Some in Hi.
  - rewrite !length_app in Hj. destruct (Hp j) as (n & Hn & Hkept).
    exists (n `min` length ops). rewrite app_assoc, take_app_le by (rewrite length_app; lia).
    rewrite Hn. split.
    + f_equal. rewrite take_app_le by lia.
      rewrite <-take_take. by rewrite (take_ge ops (length ops)) by lia.
    + rewrite length_app. intros Hje i [Hi|[Hi Hio]]%lookup_app_Some.
      * pose proof (lookup_lt_Some _ _ _ Hi). assert (i < n) by (apply Hkept; [lia|done]). lia.
      * destruct (i - length ops) eqn:Ei; simplify_eq/=. specialize (Hfl eq_refl). subst b'.
        cbn in Hlen. lia.
Qed.

Definition run_writes (ops : list write_op) (e : KVStore * World) : KVStore * World :=
  foldl (λ e o, run_write o e) e ops.

Lemma history_runs path rs0 ops0 ops s w :
  history path rs0 ops0 s w → Forall op_ok ops →
  (seq_ s + N.of_nat (length ops) < 2 ^ 64)%N →
  let e' := run_writes ops (s, w) in
  history path rs0 (ops0 ++ ops) e'.1 e'.2 ∧ (seq_ e'.1 ≤ seq_ s + N.of_nat (length ops))%N.
Proof using.
  revert ops0 s w. induction ops as [|o ops IH]; intros ops0 s w Hh Hok Hseq.
  { rewrite app_nil_r. split; [done|]. cbn. lia. }
  apply Forall_cons in Hok as [Ho Hok]. cbn [length] in Hseq.
  destruct (history_run _ _ _ o _ _ Hh Ho ltac:(lia)) as [Hh' Hs].
  unfold run_writes in *. cbn [foldl]. destruct (run_write o (s, w)) as [s1 w1]. cbn [fst snd] in *.
  rewrite cons_middle, app_assoc.
  destruct (IH _ _ _ Hh' Hok ltac:(lia)) as [Hh2 Hs2]. split; [done|]. cbn [length]. lia.
Qed.

Definition manifest_path : str := manifest_path_ new_store.

(** A disk a store can be opened on: no failure to come, no snapshot, a log of
    whole records, and too few live tables for a compaction at start-up. *)
Record disk (path : str) (rs : list Wal.LogRecord) (w : World) : Prop := mkDisk {
  disk_calm : faults w = [];
  disk_snapshot : files w !! snapshot_path = None;
  disk_names : path ≠ snapshot_path ∧ path ≠ manifest_path;
  disk_log : Wal.content_of path w = Wal.log_bytes rs;
  disk_records : Forall Wal.record_ok rs;
  disk_tables : length (Manifest.live manifest_path w) < kCompactionTrigger;
}.

Lemma maybe_compact_few s w :
  length (sstable_paths_ s) < kCompactionTrigger →
  maybe_compact_sstables_unlocked (s, w) = (true, (s, w)).
Proof using.
  intros Hl. unfold maybe_compact_sstables_unlocked. run_kv.
  destruct (sstable_paths_ s) as [|? [|? ?]] eqn:E; [done..|]. by rewrite decide_True.
Qed.

Lemma manifest_ne_snapshot : manifest_path ≠ snapshot_path.
Proof using. vm_compute. discriminate. Qed.

Lemma manifest_open_ok p w :
  faults w = [] →
  Manifest.open p w = ((true, p), mkWorld (<[p := default [] (files w !! p)]> (files w)) []).
Proof using. intros Hw. unfold Manifest.open. run_kv. by rewrite FileSystem.open_app_ok by done. Qed.

(** Opening on such a disk starts a history and touches only the log, which it
    creates if it is missing, and the manifest. *)
Lemma open_disk path rs w :
  disk path rs w →
  ∃ s' w', open path (new_store, w) = (true, (s', w')) ∧
    history path rs [] s' w' ∧ seq_ s' = last_seq rs ∧
    sstable_paths_ s' = Manifest.live manifest_path w ∧
    next_sstable_id_ s' = N.of_nat (length (Manifest.live manifest_path w)).
Proof using.
  intros [Hw Hsn [Hne Hnm] Hc Hrs Hlive]. unfold open. run_kv. cbn [opened_ new_store].
  rewrite load_missing by done. cbn [fst snd]. rewrite Wal.open_ok by done. cbn [fst snd negb].
  unfold replay_wal. run_kv. cbn [map_ memtable_ wal_ set_wal].
  set (w1 := mkWorld _ _).
  assert (Hc1 : Wal.content_of path w1 = Wal.log_bytes rs ++ []).
  { unfold w1, Wal.content_of at 1. cbn. by rewrite lookup_insert_eq, app_nil_r. }
  erewrite Wal.replay_log; [|done|reflexivity|exact Hrs|exact Hc1|reflexivity].
  cbn [fst snd negb].
  match goal with |- context [Manifest.open ?p] =>
    change (Manifest.open p) with (Manifest.open manifest_path) end.
  rewrite manifest_open_ok by done. cbn [fst snd negb].
  set (w2 := mkWorld (<[manifest_path := _]> (files w1)) _).
  rewrite Manifest.load_ok by done. cbn [fst snd].
  assert (Manifest.live manifest_path w2 = Manifest.live manifest_path w) as ->.
  { unfold Manifest.live, w2, w1. cbn [files].
    rewrite lookup_insert_eq, lookup_insert_ne by done. by destruct (files w !! manifest_path). }
  rewrite maybe_compact_few by done. cbn [fst snd].
  eexists _, _. split; [reflexivity|]. split; [|done].
  exists [], []. split; [|split; [done|]].
  - constructor; try done; cbn.
    + unfold w2, w1. cbn [files]. by rewrite !lookup_insert_ne by (done || apply manifest_ne_snapshot).
    + unfold w2, w1, Wal.content_of. cbn [files]. rewrite lookup_insert_ne, lookup_insert_eq by done.
      cbn. by rewrite app_nil_r, <-Hc.
    + unfold w2, w1, Wal.content_of. cbn [files]. rewrite lookup_insert_ne, lookup_insert_eq by done.
      cbn. by rewrite app_nil_r, <-Hc.
    + by rewrite !app_nil_r.
    + by rewrite !app_nil_r.
    + by rewrite !app_nil_r.
  - cbn. intros j. exists 0. rewrite ?take_nil, ?app_nil_r. done.
Qed.

(** A new process after a crash, with some of the buffered bytes on the disk. *)
Lemma crash_reopen path rs ops s w w3 pre :
  history path rs ops s w → faults w3 = [] → files w3 !! snapshot_path = None →
  Wal.content_of path w3 = Wal.content_of path w ++ pre →
  pre `prefix_of` concat (Wal.buffer_ (wal_ s)) →
  ∃ n s4 w4, open path (new_store, w3) = (true, (s4, w4)) ∧
    map_ s4 = denotes (Wal.replayed rs).1 (take n ops) ∧
    ∀ i, ops !! i = Some WFlush → i < n.
Proof using.
  intros (d & b & Hl & _ & Hp) Hw3 Hsn3 Hc3 Hpre. destruct Hl as [_ _ _ _ _ _ Hc Hb Hr _ _].
  rewrite Hb in Hpre. fold (Wal.log_bytes b) in Hpre.
  apply Forall_app in Hr as [Hr1 Hr2].
  destruct (Wal.take_log b (length pre) Hr2) as (tail & Et & Ht).
  assert (pre = take (length pre) (Wal.log_bytes b)) as Hpe.
  { destruct Hpre as [q ->]. by rewrite take_app_length. }
  destruct (Wal.complete_take b (length pre)) as [k Hk]. rewrite Hk in Et.
  destruct (open_spec path w3 ((rs ++ d) ++ take k b) tail) as (s4 & w4 & E4 & Hm4 & _); try done.
  { rewrite Hc3, Hc, Hpe, Et, (Wal.log_bytes_app (rs ++ d)), <-app_assoc. done. }
  { apply Forall_app. split; [done|]. by apply Forall_take. }
  destruct (Hp (length d + k)) as (n & Hn & Hkept). exists n, s4, w4. split; [done|].
  split; [|apply Hkept; lia].
  rewrite Hm4, <-Hn, <-app_assoc. do 3 f_equal. rewrite take_app_add. done.
Qed.

(** After a final flush a crash loses nothing. *)
Lemma flushed_reopen path rs ops s w w3 :
  history path rs (ops ++ [WFlush]) s w → faults w3 = [] → files w3 !! snapshot_path = None →
  Wal.content_of path w3 = Wal.content_of path w →
  ∃ s4 w4, open path (new_store, w3) = (true, (s4, w4)) ∧ map_ s4 = map_ s.
Proof using.
  intros Hh Hw3 Hsn3 Hc3. pose proof Hh as (d & b & _ & Hm & _).
  destruct (crash_reopen path rs _ s w w3 [] Hh) as (n & s4 & w4 & E & Hm4 & Hn); try done.
  { by rewrite app_nil_r. }
  { apply prefix_nil. }
  exists s4, w4. split; [done|]. rewrite Hm4, Hm. f_equal. apply take_ge.
  rewrite length_app. cbn. specialize (Hn (length ops)). rewrite lookup_app_r, Nat.sub_diag in Hn by done.
  specialize (Hn eq_refl). lia.
Qed.

(** ** Lemmas: after a checkpoint *)

Lemma load_calm path s w :
  faults w = [] →
  (load_from_file_unlocked path (s, w)).2.2 = w ∧
  wal_ (load_from_file_unlocked path (s, w)).2.1 = wal_ s.
Proof using.
  intros Hw. unfold load_from_file_unlocked. run_kv. rewrite FileSystem.read_file_ok by done. cbn.
  destruct (files w !! path) as [c|]; [|done]. cbn.
  by destruct (load_lines _ _ _ _) as [[[? ?] ?] ?].
Qed.

(** The log file is empty after a checkpoint in a failure-free world. *)
Lemma checkpoint_world sp wp s w s1 w1 :
  opened_ s = true → faults w = [] →
  checkpoint sp wp (s, w) = (true, (s1, w1)) →
  faults w1 = [] ∧ Wal.content_of wp w1 = [].
Proof using.
  intros Ho Hw. unfold checkpoint. run_kv. rewrite Ho. cbn [negb id fst snd].
  unfold save_to_file_unlocked. run_kv. rewrite FileSystem.open_trunc_ok by done.
  cbn [negb ofs_good fst snd].
  rewrite (SSTable.write_records_ok _ _ _ []); [|done|cbn; by rewrite lookup_insert_eq].
  cbn [fst snd]. rewrite FileSystem.flush_ok by done. cbn [fst snd negb].
  rewrite FileSystem.remove_ok by done.
  set (w2 := mkWorld _ _).
  assert (∃ w3, (match files w2 !! wp with
     Some _ => (true, mkWorld (delete wp (files w2)) []) | None => (false, w2) end).2 = w3 ∧
     faults w3 = [] ∧ files w3 !! wp = None) as (w3 & E3 & Hw3 & Hf3).
  { destruct (files w2 !! wp) eqn:E; eexists; (split; [reflexivity|]); [|done].
    split; [done|]. cbn. by rewrite lookup_delete_eq. }
  destruct (match files w2 !! wp with Some _ => _ | None => _ end) as [r w3'].
  cbn in E3. subst w3'. cbn [fst snd]. rewrite Wal.open_ok by done. cbn [fst snd].
  intros; simplify_eq. cbn. split; [done|].
  unfold Wal.content_of. cbn. by rewrite lookup_insert_eq, Hf3.
Qed.

(** ** Properties *)

(** C1: Crash consistency.  In a process in which no system call fails, open a disk
    whose log consists of whole records, that has no snapshot and fewer than four
    live tables, perform any writes, and crash while an arbitrary prefix of the
    buffered log bytes has reached the file: a new process opens successfully and its
    map is the effect of a prefix of those writes on the map before them, and every
    write before the last explicit flush is in that prefix.  The crash is one of the
    process: bytes that were written to the file stay there. *)
Theorem crash_recovers_prefix path rs w ops s1 w1 w3 pre :
  disk path rs w → Forall op_ok ops →
  (last_seq rs + N.of_nat (length ops) < 2 ^ 64)%N →
  open path (new_store, w) = (true, (s1, w1)) →
  let '(s2, w2) := run_writes ops (s1, w1) in
  faults w3 = [] → files w3 !! snapshot_path = None →
  Wal.content_of path w3 = Wal.content_of path w2 ++ pre →
  pre `prefix_of` concat (Wal.buffer_ (wal_ s2)) →
  ∃ n s4 w4, open path (new_store, w3) = (true, (s4, w4)) ∧
    map_ s4 = denotes (map_ s1) (take n ops) ∧
    ∀ i, ops !! i = Some WFlush → i < n.
Proof using.
  intros Hd Hok Hseq E. destruct (open_disk path rs w Hd) as (s & w' & E' & Hh & Hs & _).
  rewrite E' in E. injection E as -> ->. rewrite <-Hs in Hseq.
  assert (Hm1 : map_ s1 = (Wal.replayed rs).1) by (by destruct Hh as (? & ? & _ & -> & _)).
  destruct (run_writes ops (s1, w1)) as [s2 w2] eqn:E2.
  pose proof (history_runs path rs [] ops s1 w1 Hh Hok Hseq) as [Hh2 _]. rewrite E2 in Hh2.
  cbn [fst snd app] in Hh2. intros. rewrite Hm1. by eapply crash_reopen.
Qed.

(** C26: Durability at a flush.  In a process in which no system call fails, open a
    disk whose log consists of whole records, that has no snapshot and fewer than
    four live tables: after any writes followed by [flush_wal], a new process
    recovers exactly the latest-value map and the sequence number. *)
Theorem flush_then_reopen path rs w ops s1 w1 :
  disk path rs w → Forall op_ok ops →
  (last_seq rs + N.of_nat (length ops) < 2 ^ 64)%N →
  open path (new_store, w) = (true, (s1, w1)) →
  let '(s2, w2) := run_writes ops (s1, w1) in
  let '(ok, (s3, w3)) := flush_wal (s2, w2) in
  ok = true ∧ map_ s3 = denotes (map_ s1) ops ∧
  ∃ s4 w4, open path (new_store, w3) = (true, (s4, w4)) ∧
    map_ s4 = map_ s3 ∧ seq_ s4 = seq_ s3.
Proof using.
  intros Hd Hok Hseq E. destruct (open_disk path rs w Hd) as (s & w' & E' & Hh & Hs & _).
  rewrite E' in E. injection E as -> ->. rewrite <-Hs in Hseq.
  assert (Hm1 : map_ s1 = (Wal.replayed rs).1) by (by destruct Hh as (? & ? & _ & -> & _)).
  destruct (run_writes ops (s1, w1)) as [s2 w2] eqn:E2.
  pose proof (history_runs path rs [] ops s1 w1 Hh Hok Hseq) as [Hh2 _]. rewrite E2 in Hh2.
  destruct Hh2 as (d & b & Hl & Hm2 & _). cbn [fst snd app] in *.
  unfold flush_wal. run_kv. destruct (Wal.flush (wal_ s2) w2) as [[ok l] w3] eqn:F. cbn.
  destruct (logged_flush _ _ _ _ _ _ _ _ Hl F) as [-> Hl3]. split; [done|].
  split; [congruence|]. destruct Hl3 as [Hw3 Hsn3 _ _ _ _ Hc3 _ Hr3 Hm3 Hs3].
  rewrite app_nil_r in *.
  destruct (open_spec path w3 ((rs ++ d) ++ b) []) as (s4 & w4 & E4 & Hm4 & _ & Hs4 & _);
    [done|done|by rewrite app_nil_r|done|done|].
  exists s4, w4. split; [done|]. rewrite Hm4, Hs4, <-Hm3, <-Hs3. done.
Qed.

(** A checkpoint loses the sequence number.  [open] assigns the replayed
    maximum to [seq_], over the one the snapshot restored, and a checkpoint
    leaves an empty log: reopening after it restarts the timestamps at zero,
    whatever the store had reached. *)
Theorem checkpoint_resets_sequence wal_path s w s1 w1 b s2 w2 :
  opened_ s = true → faults w = [] →
  checkpoint snapshot_path wal_path (s, w) = (true, (s1, w1)) →
  open wal_path (new_store, w1) = (b, (s2, w2)) →
  seq_ s1 = seq_ s ∧ seq_ s2 = 0%N.
Proof using.
  intros Ho Hw E1 E2. split.
  { unfold checkpoint in E1. revert E1. run_kv. rewrite Ho. cbn [negb id fst snd].
    destruct (save_to_file_unlocked _ s w) as [[] wa]; cbn; [|done].
    destruct (FileSystem.remove _ wa) as [r wb]. cbn.
    destruct (Wal.open _ _ wb) as [[[] l] wc]; cbn; intros; by simplify_eq. }
  destruct (checkpoint_world _ _ _ _ _ _ Ho Hw E1) as [Hw1 Hc1].
  unfold open in E2. revert E2. run_kv. cbn [opened_ new_store].
  pose proof (load_calm snapshot_path new_store w1 Hw1) as [Hl1 Hl2].
  destruct (load_from_file_unlocked snapshot_path (new_store, w1)) as [bl [sl wl]].
  cbn [fst snd] in *. subst wl. rewrite Wal.open_ok by done. cbn [fst snd negb].
  unfold replay_wal. run_kv. cbn [map_ memtable_ wal_ set_wal id].
  erewrite (Wal.replay_log _ _ _ [] []); [|done|reflexivity|constructor| |reflexivity].
  - cbn [fst snd negb]. destruct (Manifest.open _ _) as [[[] m] wm]; cbn [fst snd negb];
      [|intros; by simplify_eq].
    destruct (Manifest.load_sstables _ _) as [ps wp]. cbn [fst snd].
    destruct (maybe_compact_sstables_unlocked _) as [bc [sc wc]] eqn:Ec.
    apply KVSteps.maybe_compact_frame in Ec as (ps' & id & ->). intros; by simplify_eq.
  - unfold Wal.content_of in *. cbn. by rewrite lookup_insert_eq.
Qed.

(** The table identifier after a restart.  [open] derives the next SSTable
    identifier from the manifest and then overwrites it with the number of
    live tables: if the table of that number is live, the next flush task is
    to overwrite its file. *)
Theorem reopened_id_reuses_live_table path rs w s1 w1 :
  disk path rs w →
  let live := Manifest.live manifest_path w in
  sstable_name (N.of_nat (length live)) ∈ live →
  open path (new_store, w) = (true, (s1, w1)) →
  ∃ t, FlushWorker.tasks_ (flush_worker_ (handed_over s1)) = [t] ∧
    FlushWorker.task_sstable_path t ∈ sstable_paths_ s1.
Proof using.
  intros Hd live Hin E. destruct (open_disk path rs w Hd) as (s & w' & E' & _ & _ & Hps & Hid).
  rewrite E' in E. injection E as -> ->. destruct Hd as [Hw Hsn _ Hc Hrs _].
  destruct (open_spec path w rs []) as (s & w2 & E & _ & _ & _ & _ & _ & _ & Hfw & _);
    [done|done|by rewrite app_nil_r|done|done|].
  rewrite E' in E. injection E as <- <-.
  eexists. split; [cbn; rewrite Hfw; reflexivity|]. cbn. rewrite Hid, Hps. exact Hin.
Qed.

End Recovery.
(** ** Witnesses *)

#[local] Existing Instances libstdcxx_abi merge_sort_versions.

Definition example_path : str := b# "wal.log".
Definition example_records : list Wal.LogRecord := [Wal.mkLogRecord Wal.Put 1 (b# "a") (b# "1")].
Definition example_disk : World := mkWorld {[ example_path := Wal.log_bytes example_records ]} [].
Definition example_ops : list write_op :=
  [WPut (b# "b") (b# "2"); WFlush; WDel (b# "a"); WPut (b# "c") (b# "3")].

Lemma example_disk_ok : disk example_path example_records example_disk.
Proof.
  split; [reflexivity|vm_compute; reflexivity|split; by apply (bool_decide_unpack _)
    |vm_compute; reflexivity|by apply (bool_decide_unpack _)|vm_compute; lia].
Qed.

Lemma example_ops_ok : Forall op_ok example_ops.
Proof. repeat constructor. Qed.

(** Half of the last record reaches the disk. *)
Lemma crash_recovers_prefix_witness :
  let '(s1, w1) := (open example_path (new_store, example_disk)).2 in
  let '(s2, w2) := run_writes example_ops (s1, w1) in
  let pre := take 40 (concat (Wal.buffer_ (wal_ s2))) in
  let w3 := mkWorld {[ example_path := Wal.content_of example_path w2 ++ pre ]} [] in
  ∃ n s4 w4, open example_path (new_store, w3) = (true, (s4, w4)) ∧
    map_ s4 = denotes (map_ s1) (take n example_ops) ∧
    ∀ i, example_ops !! i = Some WFlush → i < n.
Proof.
  destruct (open example_path (new_store, example_disk)) as [b [s1 w1]] eqn:E. cbn [snd].
  assert (b = true) as ->.
  { transitivity (open example_path (new_store, example_disk)).1; [by rewrite E|].
    vm_compute. reflexivity. }
  pose proof (crash_recovers_prefix example_path example_records example_disk example_ops s1 w1) as P.
  destruct (run_writes example_ops (s1, w1)) as [s2 w2].
  set (pre := take 40 _). cbv zeta.
  apply (P (mkWorld {[ example_path := Wal.content_of example_path w2 ++ pre ]} []) pre).
  - apply example_disk_ok.
  - apply example_ops_ok.
  - reflexivity.
  - exact E.
  - reflexivity.
  - cbn [files]. rewrite lookup_singleton_ne; [reflexivity|discriminate].
  - unfold Wal.content_of at 1. cbn [files]. by rewrite lookup_singleton_eq.
  - apply prefix_take.
Defined.

Lemma flush_then_reopen_witness :
  let '(s1, w1) := (open example_path (new_store, example_disk)).2 in
  let '(s2, w2) := run_writes example_ops (s1, w1) in
  let '(ok, (s3, w3)) := flush_wal (s2, w2) in
  ok = true ∧ map_ s3 = denotes (map_ s1) example_ops ∧
  ∃ s4 w4, open example_path (new_store, w3) = (true, (s4, w4)) ∧
    map_ s4 = map_ s3 ∧ seq_ s4 = seq_ s3.
Proof.
  destruct (open example_path (new_store, example_disk)) as [b [s1 w1]] eqn:E. cbn [snd].
  assert (b = true) as ->.
  { transitivity (open example_path (new_store, example_disk)).1; [by rewrite E|].
    vm_compute. reflexivity. }
  apply (flush_then_reopen example_path example_records example_disk example_ops s1 w1).
  - apply example_disk_ok.
  - apply example_ops_ok.
  - reflexivity.
  - exact E.
Defined.

End KVRecovery.
