(* ===== verification/KVSnapshot.v ===== *)
(** * Snapshots of the store

    The versioned snapshot of [save_to_file] and [load_from_file], which
    [checkpoint] and [open] use: what is written is read back, and what a store
    reopened after a checkpoint holds. *)

From S2P Require Import Prelude CxxString OrdMap FileSystem MemTable SSTable Manifest Compactor Wal FlushWorker KVStore KVWrites KVSteps KVRecovery.
Import CxxString.

Module KVSnapshot.
Import KVStore KVWrites KVRecovery.

(** ** What the snapshot format can carry *)

Definition snap_key_ok (key : str) : Prop := tab ∉ key ∧ nl ∉ key.
Definition snap_version_ok (v : Version) : Prop :=
  fits 64 (timestamp v) ∧ match value v with None => True | Some s => nl ∉ s end.
Definition snap_row_ok (r : str * Version) : Prop := snap_key_ok r.1 ∧ snap_version_ok r.2.
Definition snap_ok (e : Entries) : Prop := Forall snap_row_ok (SSTable.flatten e).

#[global] Instance snap_row_ok_dec r : Decision (snap_row_ok r).
Proof. unfold snap_row_ok, snap_key_ok, snap_version_ok. destruct (value r.2); apply _. Defined.
#[global] Instance snap_ok_dec e : Decision (snap_ok e).
Proof. unfold snap_ok. apply _. Defined.

(** ** Lines *)

Lemma snap_line_no_nl r : snap_row_ok r → nl ∉ SSTable.record_line r.
Proof.
  intros [[Ht Hk] [_ Hv]]. unfold SSTable.record_line, is_tombstone.
  rewrite !not_elem_of_app, list_elem_of_singleton. split_and!; [done|done|apply dec_no_nl|done|].
  destruct (value r.2) as [s|]; simpl; [|by rewrite list_elem_of_singleton].
  rewrite !not_elem_of_cons. done.
Qed.

Lemma snap_lines rs :
  Forall snap_row_ok rs → lines (SSTable.render_rows rs) = SSTable.record_line <$> rs.
Proof.
  intros H. unfold SSTable.render_rows.
  assert ((λ r, SSTable.record r.1 r.2) <$> rs = (λ l, l ++ [nl]) <$> (SSTable.record_line <$> rs)) as ->.
  { rewrite <-list_fmap_compose. apply list_fmap_ext. intros. apply SSTable.record_eq. }
  apply lines_concat. apply Forall_fmap. eapply Forall_impl; [exact H|]. apply snap_line_no_nl.
Qed.

Lemma split_record_line r :
  snap_row_ok r →
  split_line (SSTable.record_line r) =
    Some (r.1, dec (timestamp r.2), if is_tombstone r.2 then b# "D" else b# "P", value r.2).
Proof.
  destruct r as [k [ts v]]. intros [[Ht _] _]. cbn [fst snd] in *. unfold SSTable.record_line, split_line.
  cbn [fst snd timestamp]. set (ty := if is_tombstone _ then _ else _).
  set (s := k ++ [tab] ++ dec ts ++ [tab] ++ ty).
  assert (D1 : drop (length k + 1) s = dec ts ++ tab :: ty).
  { unfold s. replace (k ++ [tab] ++ dec ts ++ [tab] ++ ty) with ((k ++ [tab]) ++ dec ts ++ tab :: ty)
      by (by rewrite <-!app_assoc). apply drop_app_length'. rewrite length_app. done. }
  assert (D2 : drop (length k + 1 + length (dec ts) + 1) s = ty).
  { rewrite <-Nat.add_assoc, <-drop_drop, D1.
    replace (dec ts ++ tab :: ty) with ((dec ts ++ [tab]) ++ ty) by (by rewrite <-app_assoc).
    apply drop_app_length'. rewrite length_app. done. }
  rewrite (find_drop tab s 0 k (dec ts ++ tab :: ty)) by done. cbn [Nat.add].
  rewrite (find_drop tab s (length k + 1) (dec ts) ty) by (done || apply dec_no_tab).
  assert (S1 : substr s 0 (length k) = k) by (unfold substr, s; cbn; apply take_app_length).
  assert (S2 : substr s (length k + 1) (length k + 1 + length (dec ts) - length k - 1) = dec ts).
  { unfold substr. rewrite D1. apply take_app_length'. lia. }
  rewrite S1, S2. unfold ty, is_tombstone in *. cbn [value] in *. destruct v as [v|]; cbn [default] in *.
  - rewrite (find_drop tab s _ (b# "P") v) by (done || by apply (bool_decide_unpack _)).
    set (p2 := length k + 1 + length (dec ts)) in *. clearbody s.
    replace (substr s (p2 + 1) (p2 + 1 + length (b# "P") - p2 - 1)) with (b# "P"); cycle 1.
    { unfold substr. rewrite D2. replace (p2 + 1 + length (b# "P") - p2 - 1) with 1 by (cbn; lia). done. }
    do 2 f_equal. unfold substr_from.
    replace (p2 + 1 + length (b# "P") + 1) with (p2 + 1 + 2) by (cbn; lia).
    by rewrite <-drop_drop, D2.
  - rewrite find_none_drop by (rewrite D2; by apply (bool_decide_unpack _)).
    unfold substr_from. by rewrite D2.
Qed.

(** ** Loading *)

Section Load.
Context `{Abi}.

Definition row_map (m : gmap str str) (r : str * Version) : gmap str str :=
  match value r.2 with Some v => <[r.1 := v]> m | None => delete r.1 m end.
Definition row_table (mt : MemTable.MemTable) (r : str * Version) : MemTable.MemTable :=
  MemTable.apply_write mt (MemTable.mkWrite r.1 r.2).
Definition row_seq (n : N) (r : str * Version) : N := N.max n (timestamp r.2).

Lemma load_rows_run rs : ∀ m mt n,
  Forall snap_row_ok rs →
  load_lines (SSTable.record_line <$> rs) m mt n =
    (true, foldl row_map m rs, foldl row_table mt rs, foldl row_seq n rs).
Proof using.
  induction rs as [|[k [ts v]] rs IH]; intros m mt n Hok; [done|].
  apply Forall_cons in Hok as [Hr Hok]. rewrite fmap_cons. cbn [load_lines].
  rewrite decide_False by (unfold SSTable.record_line; intros E%(f_equal length);
    rewrite !length_app in E; cbn in E; lia).
  rewrite split_record_line by done. cbn [fst snd timestamp value is_tombstone].
  rewrite stoull_dec by (by destruct Hr as [_ [? _]]).
  destruct v as [v|].
  - rewrite decide_True by done. by rewrite IH.
  - rewrite decide_False by done. rewrite decide_True by done. by rewrite IH.
Qed.

(** *** What the rows of a table rebuild *)

Lemma row_table_entries rs mt :
  MemTable.entries_ (foldl row_table mt rs) =
    foldl (λ e r, MemTable.push_back r.1 r.2 e) (MemTable.entries_ mt) rs.
Proof using.
  revert mt. induction rs as [|r rs IH]; intros mt; cbn; [done|].
  rewrite IH. unfold row_table. by rewrite MemTable.apply_write_entries.
Qed.

Definition sized (mt : MemTable.MemTable) : Prop :=
  MemTable.approximate_size_bytes_ mt = wrap64 (MemTable.entries_bytes (MemTable.entries_ mt)).

Lemma row_sized mt r : sized mt → sized (row_table mt r).
Proof using.
  destruct r as [k [ts [v|]]]; intros Hs; unfold sized in *;
    (etransitivity; [|unfold row_table; rewrite MemTable.apply_write_entries, MemTable.entries_bytes_push;
      reflexivity]);
    cbn -[MemTable.version_bytes]; unfold MemTable.put, MemTable.del; cbn -[MemTable.version_bytes];
    by rewrite Hs, MemTable.wrap_add_l, ?MemTable.put_version_bytes, ?MemTable.del_version_bytes.
Qed.

Lemma row_table_sized rs mt : sized mt → sized (foldl row_table mt rs).
Proof using.
  revert mt. induction rs as [|r rs IH]; intros mt Hs; cbn [foldl]; [done|apply IH].
  by apply row_sized.
Qed.

Lemma rebuild_entries e :
  MemTable.wf_entries e →
  foldl (λ e r, MemTable.push_back r.1 r.2 e) [] (SSTable.flatten e) = e.
Proof using.
  intros [S Hv]. set (e' := foldl _ _ _).
  assert (Hnil : OrdMap.sorted (A := list Version) []) by constructor.
  assert (S' : OrdMap.sorted e') by (by apply Compactor.foldl_push_sorted).
  assert (Hne' : Forall (λ b : str * list Version, b.2 ≠ []) e') by (by apply Compactor.foldl_push_nonempty).
  assert (Hne : Forall (λ b : str * list Version, b.2 ≠ []) e)
    by (eapply Forall_impl; [exact Hv|by intros ? [? _]]).
  apply OrdMap.ext; [done|done|]. intros k.
  assert (E : MemTable.versions_of k e' = MemTable.versions_of k e).
  { unfold e'. rewrite Compactor.versions_foldl_push by done. by rewrite Compactor.versions_flatten. }
  assert (Hfind : ∀ e0, Forall (λ b : str * list Version, b.2 ≠ []) e0 →
    OrdMap.find k e0 = match MemTable.versions_of k e0 with [] => None | vs => Some vs end).
  { intros e0 H0. unfold MemTable.versions_of. destruct (OrdMap.find k e0) as [vs|] eqn:F; [|done].
    apply OrdMap.find_Some_elem in F. rewrite Forall_forall in H0. apply H0 in F. cbn in *. by destruct vs. }
  by rewrite !Hfind, E by done.
Qed.

Lemma row_map_lookup rs k :
  foldl row_map ∅ rs !! k = last (filter (λ r, r.1 = k) rs).*2 ≫= value.
Proof using.
  induction rs as [|[k' v] rs IH] using rev_ind; [done|].
  rewrite foldl_app, filter_app, fmap_app. cbn [foldl]. unfold row_map at 1. cbn [fst snd].
  destruct (decide (k' = k)) as [->|Hne].
  - rewrite filter_cons_True, filter_nil by done. cbn. rewrite last_snoc. cbn.
    destruct (value v); [by rewrite lookup_insert_eq|by rewrite lookup_delete_eq].
  - rewrite filter_cons_False, filter_nil by done. cbn. rewrite app_nil_r, <-IH.
    destruct (value v); [by rewrite lookup_insert_ne|by rewrite lookup_delete_ne].
Qed.

Lemma row_seq_max rs n :
  (n ≤ foldl row_seq n rs)%N ∧ ∀ r, r ∈ rs → (timestamp r.2 ≤ foldl row_seq n rs)%N.
Proof using.
  revert n. induction rs as [|r rs IH]; intros n; cbn [foldl]; [split; [done|intros r Hr; by apply not_elem_of_nil in Hr]|].
  destruct (IH (row_seq n r)) as [H1 H2]. unfold row_seq in * at 1. split; [unfold row_seq in *; lia|].
  intros r' [->|Hr']%elem_of_cons; [unfold row_seq in *; lia|by apply H2].
Qed.

Lemma flatten_elem k v e :
  OrdMap.sorted e → v ∈ MemTable.versions_of k e → (k, v) ∈ SSTable.flatten e.
Proof using.
  intros S Hv. unfold MemTable.versions_of in Hv. destruct (OrdMap.find k e) as [vs|] eqn:F; cbn in Hv;
    [|by apply not_elem_of_nil in Hv].
  apply OrdMap.find_Some_elem in F. apply list_elem_of_bind. exists (k, vs). split; [|done].
  cbn. apply list_elem_of_fmap. by exists v.
Qed.

(** *** The two calls in a world without failures *)

Lemma save_ok path s w :
  faults w = [] →
  save_to_file_unlocked path s w =
    (true, mkWorld (<[path := SSTable.render_rows (SSTable.flatten (MemTable.entries_ (memtable_ s)))]>
                      (files w)) []).
Proof using.
  intros Hw. unfold save_to_file_unlocked, MemTable.snapshot_entries. unfold_st.
  rewrite FileSystem.open_trunc_ok by done. cbn [fst snd ofs_good negb].
  rewrite (SSTable.write_records_ok _ path _ []); [|done|cbn; apply lookup_insert_eq].
  rewrite FileSystem.flush_ok by done. cbn [app files]. by rewrite insert_insert_eq.
Qed.

(** What loading entries [e] makes of a store. *)
Record loaded (e : Entries) (s0 s1 : KVStore) : Prop := mkLoaded {
  loaded_store : s1 = set_seq (seq_ s1) (set_memtable (memtable_ s1) (set_map (map_ s1) s0));
  loaded_table : memtable_ s1 = MemTable.mkMemTable e (wrap64 (MemTable.entries_bytes e));
  loaded_map k : map_ s1 !! k = last (MemTable.versions_of k e) ≫= value;
  loaded_seq : (seq_ s0 ≤ seq_ s1)%N;
  loaded_max k v : v ∈ MemTable.versions_of k e → (timestamp v ≤ seq_ s1)%N;
}.

Lemma load_file_ok path s0 w e :
  faults w = [] → MemTable.wf_entries e → snap_ok e →
  files w !! path = Some (SSTable.render_rows (SSTable.flatten e)) →
  ∃ s1, load_from_file_unlocked path (s0, w) = (true, (s1, w)) ∧ loaded e s0 s1.
Proof using.
  intros Hw We Hok Hf. unfold load_from_file_unlocked. run_kv.
  rewrite FileSystem.read_file_ok by done. cbn [files fst snd]. rewrite Hf.
  rewrite snap_lines by done. rewrite load_rows_run by done. eexists. split; [done|].
  split; cbn [memtable_ set_seq set_memtable set_map map_ seq_]; [by destruct s0| | |apply row_seq_max|].
  - assert (E : MemTable.entries_ (foldl row_table (MemTable.clear (memtable_ s0)) (SSTable.flatten e)) = e).
    { rewrite row_table_entries. by apply rebuild_entries. }
    pose proof (row_table_sized (SSTable.flatten e) (MemTable.clear (memtable_ s0)) eq_refl) as Hs.
    unfold sized in Hs. rewrite E in Hs. destruct (foldl row_table _ _) as [e1 n1]. cbn in *. by subst.
  - intros k. rewrite row_map_lookup. by rewrite Compactor.versions_flatten by apply We.
  - intros k v Hv. apply (flatten_elem _ _ _ (MemTable.wf_sorted _ We)) in Hv.
    by apply (proj2 (row_seq_max (SSTable.flatten e) (seq_ s0)) (k, v)).
Qed.

(** A checkpoint in such a world: the snapshot is written, the log is empty. *)
Lemma checkpoint_ok sp wp s w :
  opened_ s = true → faults w = [] → sp ≠ wp →
  ∃ w1, checkpoint sp wp (s, w) =
      (true, (set_wal (Wal.mkWal (Wal.buffer_ (wal_ s)) (Some 0) wp 0) s, w1)) ∧
    faults w1 = [] ∧
    files w1 = <[wp := []]> (<[sp := SSTable.render_rows
      (SSTable.flatten (MemTable.entries_ (memtable_ s)))]> (files w)).
Proof using.
  intros Ho Hw Hne. unfold checkpoint. run_kv. rewrite Ho. cbn [negb id fst snd].
  rewrite save_ok by done. cbn [negb fst snd]. rewrite FileSystem.remove_ok by done. cbn [files].
  set (fs := <[sp := _]> (files w)).
  set (w2 := (match fs !! wp with
     Some _ => (true, mkWorld (delete wp fs) []) | None => (false, mkWorld fs []) end).2).
  assert (Hw2 : faults w2 = [] ∧ files w2 = delete wp fs).
  { unfold w2. destruct (fs !! wp) eqn:E; [done|]. cbn. by rewrite delete_id. }
  assert (Hb : ∀ l : Wal.Wal, Wal.buffer_ (Wal.close l) = Wal.buffer_ l)
    by (intros l; unfold Wal.close; by destruct (Wal.fd_ l)).
  destruct (match fs !! wp with Some _ => _ | None => _ end) as [r w2'] eqn:E. cbn in w2. subst w2.
  cbn [fst snd]. rewrite Wal.open_ok by apply Hw2. cbn [wal_ set_wal fst snd]. rewrite Hb.
  destruct Hw2 as [Hw2 Hfs]. cbn [snd] in Hfs.
  assert (Hc : Wal.content_of wp w2' = []) by (unfold Wal.content_of; by rewrite Hfs, lookup_delete_eq).
  rewrite Hc. eexists. split; [reflexivity|]. split; [done|]. cbn [files].
  by rewrite Hfs, insert_delete_eq.
Qed.

Context `{SortVersions}.

(** Opening a disk with a snapshot and an empty log. *)
Lemma open_snapshot wp w e :
  faults w = [] → MemTable.wf_entries e → snap_ok e → wp ≠ manifest_path →
  files w !! snapshot_path = Some (SSTable.render_rows (SSTable.flatten e)) →
  Wal.content_of wp w = [] → length (Manifest.live manifest_path w) < kCompactionTrigger →
  ∃ s2 w2, open wp (new_store, w) = (true, (s2, w2)) ∧
    memtable_ s2 = MemTable.mkMemTable e (wrap64 (MemTable.entries_bytes e)) ∧
    (∀ k, get k s2 = last (MemTable.versions_of k e) ≫= value) ∧
    sstable_paths_ s2 = Manifest.live manifest_path w ∧ immutable_memtable_ s2 = None ∧
    opened_ s2 = true ∧ seq_ s2 = 0%N.
Proof using.
  intros Hw We Hok Hnm Hsn Hc Hlive. unfold open. run_kv. cbn [opened_ new_store].
  destruct (load_file_ok snapshot_path new_store w e Hw We Hok Hsn) as (s1 & -> & L). cbn [fst snd].
  destruct L as [Ls Lt Lm _ _]. rewrite Ls. cbn [wal_ set_seq set_memtable set_map new_store].
  rewrite Wal.open_ok by done. cbn [fst snd negb]. unfold replay_wal. run_kv.
  cbn [map_ memtable_ wal_ set_wal set_map set_seq set_memtable id].
  rewrite Hc. set (w1 := mkWorld (<[wp := []]> (files w)) []).
  erewrite (Wal.replay_log w1 _ _ [] []); [|done|reflexivity|constructor| |reflexivity]; cycle 1.
  { unfold w1, Wal.content_of. cbn. by rewrite lookup_insert_eq. }
  cbn [fst snd negb].
  match goal with |- context [Manifest.open ?p] =>
    change (Manifest.open p) with (Manifest.open manifest_path) end.
  rewrite manifest_open_ok by done. cbn [fst snd negb].
  set (w2 := mkWorld (<[manifest_path := _]> (files w1)) _).
  rewrite Manifest.load_ok by done. cbn [fst snd].
  assert (Manifest.live manifest_path w2 = Manifest.live manifest_path w) as ->.
  { unfold Manifest.live, w2, w1. cbn [files].
    rewrite lookup_insert_eq, lookup_insert_ne by done. by destruct (files w !! manifest_path). }
  rewrite maybe_compact_few by done. cbn [fst snd].
  eexists _, _. split; [reflexivity|]. by rewrite <-Lt.
Qed.

End Load.

(** ** Properties *)

(** C31: The versioned snapshot round trips.  In a world without failures, saving a
    store whose MemTable is well formed, has no tab or newline in a key and no newline
    in a value, and loading the file into any store restores exactly that
    MemTable, with all its versions and its accounted size; the map becomes the
    newest value of each of its keys, and the sequence number is at least every
    loaded timestamp. *)
Theorem snapshot_roundtrip `{Abi} path s s0 w :
  faults w = [] → MemTable.wf (memtable_ s) → snap_ok (MemTable.entries_ (memtable_ s)) →
  let '(saved, w1) := save_to_file path s w in
  let '(loaded, (s1, w2)) := load_from_file path (s0, w1) in
  saved = true ∧ loaded = true ∧ w2 = w1 ∧ memtable_ s1 = memtable_ s ∧
  (∀ k, get k s1 = last (MemTable.versions_of k (MemTable.entries_ (memtable_ s))) ≫= value) ∧
  (seq_ s0 ≤ seq_ s1)%N ∧
  (∀ k v, v ∈ MemTable.versions_of k (MemTable.entries_ (memtable_ s)) → (timestamp v ≤ seq_ s1)%N).
Proof.
  intros Hw [We Ws] Hok. unfold save_to_file, load_from_file. rewrite save_ok by done.
  destruct (load_file_ok path s0 (mkWorld (<[path := SSTable.render_rows
    (SSTable.flatten (MemTable.entries_ (memtable_ s)))]> (files w)) [])
    (MemTable.entries_ (memtable_ s))) as (s1 & -> & [_ Lt Lm Ls Lx]);
    [done|done|done|apply lookup_insert_eq|].
  split_and!; try done. rewrite Lt, <-Ws. by destruct (memtable_ s).
Qed.

(** C27: A checkpoint keeps the MemTable and forgets the rest.  Let the MemTable be
    well formed, with no tab or newline in a key and no newline in a value, and let the
    manifest list fewer than four tables.  After a checkpoint to the path [open]
    reads, in a world without failures, a new process holds exactly the checkpointed MemTable with all its versions, its
    map is the newest value of each of that table's keys, it has the same
    SSTables, and its sequence number is zero.  So [get] answers as before
    exactly for the keys whose map entry is the newest version in the MemTable:
    a key whose versions have all been flushed to SSTables reads as absent. *)
Theorem checkpoint_then_reopen `{Abi, SortVersions} wp s w s1 w1 :
  opened_ s = true → faults w = [] → MemTable.wf (memtable_ s) →
  snap_ok (MemTable.entries_ (memtable_ s)) → wp ≠ snapshot_path → wp ≠ manifest_path →
  length (Manifest.live manifest_path w) < kCompactionTrigger →
  checkpoint snapshot_path wp (s, w) = (true, (s1, w1)) →
  ∃ s2 w2, open wp (new_store, w1) = (true, (s2, w2)) ∧
    memtable_ s2 = memtable_ s ∧ sstable_paths_ s2 = Manifest.live manifest_path w ∧ seq_ s2 = 0%N ∧
    (∀ k, get k s2 = last (MemTable.versions_of k (MemTable.entries_ (memtable_ s))) ≫= value) ∧
    (∀ k, MemTable.versions_of k (MemTable.entries_ (memtable_ s)) = [] → get k s2 = None).
Proof.
  intros Ho Hw [We Ws] Hok Hsn Hnm Hlive E.
  destruct (checkpoint_ok snapshot_path wp s w Ho Hw (not_eq_sym Hsn)) as (w' & E' & Hw' & Hf).
  rewrite E in E'. injection E' as _ ->.
  assert (Hl : Manifest.live manifest_path w' = Manifest.live manifest_path w).
  { unfold Manifest.live. rewrite Hf, !lookup_insert_ne
      by (done || apply not_eq_sym, manifest_ne_snapshot). done. }
  destruct (open_snapshot wp w' (MemTable.entries_ (memtable_ s)))
    as (s2 & w2 & Eo & Hm & Hg & Hp & _ & _ & Hs); try done.
  { rewrite Hf, lookup_insert_ne, lookup_insert_eq by done. done. }
  { unfold Wal.content_of. by rewrite Hf, lookup_insert_eq. }
  { by rewrite Hl. }
  exists s2, w2. split_and!; try done; [|congruence|].
  - rewrite Hm, <-Ws. by destruct (memtable_ s).
  - intros k Hk. by rewrite Hg, Hk.
Qed.

Lemma snapshot_roundtrip_witness :
  let s := @set_memtable (@MemTable.del libstdcxx_abi (b# "k") 3
    (@MemTable.put libstdcxx_abi (b# "k") 2 (b# "some value") MemTable.empty_table)) new_store in
  let '(saved, w1) := save_to_file (b# "snap") s (mkWorld ∅ []) in
  let '(loaded, (s1, w2)) := @load_from_file libstdcxx_abi (b# "snap") (new_store, w1) in
  memtable_ s1 = memtable_ s ∧ get (b# "k") s1 = None.
Proof.
  set (mt := @MemTable.del libstdcxx_abi (b# "k") 3
    (@MemTable.put libstdcxx_abi (b# "k") 2 (b# "some value") MemTable.empty_table)).
  cbv zeta. pose proof (@snapshot_roundtrip libstdcxx_abi (b# "snap") (set_memtable mt new_store)
    new_store (mkWorld ∅ []) eq_refl) as P.
  destruct (save_to_file _ _ _) as [saved w1]. destruct (load_from_file _ _) as [loaded [s1 w2]].
  destruct P as (_ & _ & _ & Hm & Hg & _).
  - assert (W1 : @MemTable.wf libstdcxx_abi (@MemTable.put libstdcxx_abi (b# "k") 2 (b# "some value") MemTable.empty_table)).
    { apply MemTable.put_wf; [apply MemTable.empty_wf|]. intros v Hv. by apply not_elem_of_nil in Hv. }
    apply MemTable.del_wf; [exact W1|]. intros v Hv. vm_compute in Hv.
    apply list_elem_of_singleton in Hv as ->. reflexivity.
  - by apply (bool_decide_unpack _).
  - split; [exact Hm|]. rewrite Hg. reflexivity.
Defined.

#[local] Existing Instances libstdcxx_abi merge_sort_versions.

(** A store whose key [x] has left the MemTable with a flush. *)
Definition example_store : KVStore :=
  set_opened true (set_memtable (MemTable.put (b# "k") 2 (b# "v") MemTable.empty_table)
    (set_map {[ b# "k" := b# "v"; b# "x" := b# "1" ]} new_store)).

Lemma checkpoint_then_reopen_witness :
  let '(b1, (s1, w1)) := checkpoint snapshot_path (b# "wal") (example_store, mkWorld ∅ []) in
  ∃ s2 w2, open (b# "wal") (new_store, w1) = (true, (s2, w2)) ∧
    get (b# "k") s2 = Some (b# "v") ∧ get (b# "x") s2 = None ∧ get (b# "x") example_store = Some (b# "1").
Proof.
  destruct (checkpoint snapshot_path (b# "wal") (example_store, mkWorld ∅ [])) as [b1 [s1 w1]] eqn:E.
  assert (b1 = true) as ->.
  { transitivity (checkpoint snapshot_path (b# "wal") (example_store, mkWorld ∅ [])).1; [by rewrite E|].
    vm_compute. reflexivity. }
  destruct (checkpoint_then_reopen (b# "wal") example_store (mkWorld ∅ []) s1 w1)
    as (s2 & w2 & Eo & _ & _ & _ & Hg & Hx).
  - reflexivity.
  - reflexivity.
  - apply MemTable.put_wf; [apply MemTable.empty_wf|]. intros v Hv. by apply not_elem_of_nil in Hv.
  - by apply (bool_decide_unpack _).
  - vm_compute. discriminate.
  - vm_compute. discriminate.
  - vm_compute. lia.
  - exact E.
  - exists s2, w2. split; [exact Eo|]. split; [|split].
    + rewrite Hg. vm_compute. reflexivity.
    + apply Hx. vm_compute. reflexivity.
    + vm_compute. reflexivity.
Defined.

End KVSnapshot.
