(* ===== verification/KVMapSnapshot.v ===== *)
(** * The snapshot of the map

    [save_snapshot] and [load_snapshot], which write the latest-value map as lines of
    two words: what is written is read back when keys and values are words, and a
    failed write loses the snapshot that was there. *)

From S2P Require Import Prelude CxxString FileSystem KVStore KVWrites.
Import CxxString.

Module KVMapSnapshot.
Import KVStore KVWrites.

Section MapSnapshot.
Context `{MapOrder}.

(** What [save_snapshot] writes of a binding, and what [>>] reads back. *)
Definition binding_line (kv : str * str) : str := kv.1 ++ [tab] ++ kv.2 ++ [nl].
Definition binding_ok (kv : str * str) : Prop := word kv.1 ∧ kv.1 ≠ [] ∧ word kv.2 ∧ kv.2 ≠ [].

#[global] Instance binding_ok_dec kv : Decision (binding_ok kv).
Proof using. unfold binding_ok. apply _. Defined.

Lemma write_bindings_run path kvs w :
  faults w = [] →
  ∃ w', write_bindings kvs (mkOfs path true) w = (mkOfs path true, w') ∧ faults w' = [] ∧
    (∀ q, q ≠ path → files w' !! q = files w !! q) ∧
    default [] (files w' !! path) = default [] (files w !! path) ++ concat (binding_line <$> kvs) ∧
    (is_Some (files w !! path) → is_Some (files w' !! path)).
Proof.
  revert w. induction kvs as [|[k v] kvs IH]; intros w Hw.
  - exists w. cbn. by rewrite app_nil_r.
  - cbn [write_bindings]. unfold_st. rewrite FileSystem.write_ok by done.
    destruct (IH (mkWorld (<[path := default [] (files w !! path) ++ binding_line (k, v)]> (files w)) []) eq_refl)
      as (w' & E & Hw' & Hq & Hp & Hs).
    exists w'. split; [exact E|]. split; [done|]. split_and!.
    + intros q Hne. rewrite Hq by done. cbn. by rewrite lookup_insert_ne.
    + rewrite Hp. cbn [files fmap list_fmap concat]. rewrite lookup_insert_eq. cbn [default]. unfold id. by rewrite <-app_assoc.
    + intros _. apply Hs. cbn. by rewrite lookup_insert_eq.
Qed.

Lemma read_pairs_run kvs : ∀ fuel m,
  Forall binding_ok kvs → length kvs < fuel →
  read_pairs fuel (concat (binding_line <$> kvs)) m = foldl (λ m kv, <[kv.1 := kv.2]> m) m kvs.
Proof.
  induction kvs as [|[k v] kvs IH]; intros [|fuel] m Hok Hlen; cbn [length] in Hlen; try lia; [done|].
  apply Forall_cons in Hok as [(Hk & Nk & Hv & Nv) Hok]. cbn [fst snd] in *.
  cbn [read_pairs fmap list_fmap concat binding_line fst snd]. unfold binding_line at 1. cbn [fst snd].
  replace ((k ++ [tab] ++ v ++ [nl]) ++ concat (binding_line <$> kvs))
    with (k ++ tab :: v ++ nl :: concat (binding_line <$> kvs)) by (by rewrite <-!app_assoc).
  rewrite read_word_app by done.
  assert (Hr : read_word (tab :: v ++ nl :: concat (binding_line <$> kvs)) =
    Some (v, nl :: concat (binding_line <$> kvs))).
  { rewrite <-(read_word_app v nl) by done. unfold read_word. by rewrite skip_ws_space by done. }
  rewrite Hr. cbn [foldl fst snd]. rewrite <-(IH fuel (<[k := v]> m)) by (done || lia).
  destruct fuel as [|fuel]; [lia|]. cbn [read_pairs].
  assert (Hn : ∀ r, read_word (nl :: r) = read_word r) by (intros r; unfold read_word; by rewrite skip_ws_space by done).
  by rewrite Hn.
Qed.

Lemma foldl_bindings (kvs : list (str * str)) : ∀ m : gmap str str,
  NoDup kvs.*1 → (∀ k, k ∈ kvs.*1 → m !! k = None) →
  foldl (λ m kv, <[kv.1 := kv.2]> m) m kvs = list_to_map kvs ∪ m.
Proof.
  induction kvs as [|[k v] kvs IH]; intros m Hnd Hm; cbn in *; [by rewrite (left_id_L ∅ (∪))|].
  apply NoDup_cons in Hnd as [Hk Hnd]. rewrite IH; [|done|].
  - rewrite <-insert_union_r by (by apply not_elem_of_list_to_map). by rewrite insert_union_l.
  - intros k' Hk'. rewrite lookup_insert_ne by (by intros ->). apply Hm. by right.
Qed.

Lemma binding_lines_length kvs : length kvs ≤ length (concat (binding_line <$> kvs)).
Proof.
  induction kvs as [|[k v] kvs IH]; [done|]. cbn [fmap list_fmap concat length].
  rewrite length_app. unfold binding_line at 1. cbn [fst snd]. rewrite !length_app. cbn [length]. lia.
Qed.

(** *** Properties *)

(** The snapshot of the map round trips.  When keys and values are words (not empty,
    without white space), loading what [save_snapshot] wrote restores exactly the
    map, whatever order the bindings are written in. *)
Theorem map_snapshot_roundtrip path s s0 w :
  faults w = [] → map_Forall (λ k v, binding_ok (k, v)) (map_ s) →
  let '(saved, w1) := save_snapshot path s w in
  let '(loaded, (s1, w2)) := load_snapshot path (s0, w1) in
  saved = true ∧ loaded = true ∧ w2 = w1 ∧ s1 = set_map (map_ s) s0 ∧
  ∀ q, q ≠ path → q ≠ path ++ b# ".tmp" → files w1 !! q = files w !! q.
Proof.
  intros Hw Hok. unfold save_snapshot. set (tmp := path ++ b# ".tmp"). unfold_st.
  rewrite FileSystem.open_trunc_ok by done. cbn [negb ofs_good].
  destruct (write_bindings_run tmp (map_order (map_ s)) (mkWorld (<[tmp := []]> (files w)) []) eq_refl)
    as (w' & -> & Hw' & Hq & Hp & Hs).
  rewrite FileSystem.flush_ok by done. cbn [files] in *. rewrite lookup_insert_eq in *. cbn in Hp.
  destruct (Hs ltac:(done)) as [c Hc]. rewrite (FileSystem.rename_ok w' Hw' tmp path c Hc).
  rewrite Hc in Hp. cbn in Hp. subst c. unfold load_snapshot. run_kv.
  rewrite FileSystem.read_file_ok by done. cbn [files]. rewrite lookup_insert_eq. cbn -[read_pairs].
  set (kvs := map_order (map_ s)) in *. pose proof (map_order_perm (map_ s)) as Hperm. fold kvs in Hperm.
  assert (Hnd : NoDup kvs.*1) by (rewrite Hperm; apply NoDup_fst_map_to_list).
  assert (Hall : Forall binding_ok kvs).
  { rewrite Hperm. apply map_Forall_to_list in Hok. eapply Forall_impl; [exact Hok|]. by intros [k v]. }
  split_and!; [done|done|done| |].
  - rewrite read_pairs_run by (try done; pose proof (binding_lines_length kvs); lia).
    rewrite foldl_bindings by (done || (intros; apply lookup_empty)). rewrite (right_id_L ∅ (∪)).
    f_equal. rewrite <-(list_to_map_to_list (map_ s)). by apply list_to_map_proper.
  - intros q Hqp Hqt. rewrite lookup_insert_ne by done. rewrite lookup_delete_ne by done.
    rewrite Hq by done. by rewrite lookup_insert_ne.
Qed.

(** A failed write replaces the snapshot.  [save_snapshot] does not test the stream
    before the rename: on a full disk it reports success, and the snapshot that was
    there is gone. *)
Theorem failed_snapshot_replaces path s w f :
  map_ s ≠ ∅ → faults w = Done :: Fault :: f → FileSystem.succeeds (default Done (head f)) = true →
  (save_snapshot path s w).1 = true ∧ files (save_snapshot path s w).2 !! path = Some [].
Proof.
  intros Hne Hw Hf. unfold save_snapshot. set (tmp := path ++ b# ".tmp"). unfold_st.
  assert (E : ∃ kv kvs, map_order (map_ s) = kv :: kvs).
  { destruct (map_order (map_ s)) as [|kv kvs] eqn:E; [|by exists kv, kvs]. pose proof (map_order_perm (map_ s)) as P.
    rewrite E in P. symmetry in P. by apply Permutation_nil_r, map_to_list_empty_iff in P. }
  destruct E as ([k v] & kvs & ->). set (F := <[tmp := []]> (files w)).
  assert (E1 : FileSystem.open_trunc tmp w = (mkOfs tmp true, mkWorld F (Fault :: f))).
  { unfold FileSystem.open_trunc. unfold_st. unfold FileSystem.next. by rewrite Hw. }
  assert (Hbad : ∀ l u, write_bindings l (mkOfs tmp false) u = (mkOfs tmp false, u)).
  { intros l. induction l as [|[a b] l IH]; intros u; [done|exact (IH u)]. }
  assert (E2 : write_bindings ((k, v) :: kvs) (mkOfs tmp true) (mkWorld F (Fault :: f)) =
    (mkOfs tmp false, mkWorld F f)) by apply Hbad.
  assert (E3 : ∃ f', FileSystem.rename tmp path (mkWorld F f) = (true, mkWorld (<[path := []]> (delete tmp F)) f')).
  { unfold FileSystem.rename. unfold_st. unfold FileSystem.next. unfold F.
    destruct f as [|o f]; cbn in *; rewrite lookup_insert_eq; [|rewrite Hf]; cbn; by eexists. }
  destruct E3 as [f' E3]. rewrite E1. cbn [negb ofs_good]. rewrite E2.
  change (FileSystem.flush (mkOfs tmp false) (mkWorld F f)) with (mkOfs tmp false, mkWorld F f).
  cbv beta iota zeta. rewrite E3. split; [done|]. cbn. apply lookup_insert_eq.
Qed.

End MapSnapshot.

(** ** Witnesses *)

#[local] Existing Instance some_map_order.

Definition example_store : KVStore := set_map {[ b# "k" := b# "1"; b# "other" := b# "2,3" ]} new_store.

Lemma map_snapshot_roundtrip_witness :
  let '(saved, w1) := save_snapshot (b# "snap") example_store (mkWorld ∅ []) in
  let '(loaded, (s1, w2)) := load_snapshot (b# "snap") (new_store, w1) in
  saved = true ∧ get (b# "other") s1 = Some (b# "2,3").
Proof.
  pose proof (map_snapshot_roundtrip (b# "snap") example_store new_store (mkWorld ∅ []) eq_refl) as P.
  destruct (save_snapshot _ _ _) as [saved w1]. destruct (load_snapshot _ _) as [loaded [s1 w2]].
  destruct P as (Hs & _ & _ & -> & _); [|split; [exact Hs|reflexivity]].
  apply (bool_decide_unpack _). vm_compute. exact I.
Defined.

Lemma failed_snapshot_replaces_witness :
  (save_snapshot (b# "snap") example_store
     (mkWorld {[ b# "snap" := b# "the old snapshot" ]} [Done; Fault])).1 = true ∧
  files (save_snapshot (b# "snap") example_store
     (mkWorld {[ b# "snap" := b# "the old snapshot" ]} [Done; Fault])).2 !! b# "snap" = Some [].
Proof. apply (failed_snapshot_replaces (b# "snap") example_store _ []); [discriminate|reflexivity|reflexivity]. Defined.

End KVMapSnapshot.
