(* ===== verification/KVInterface.v ===== *)
(** * What the store promises its clients

    The object store and the Raft node use the key-value store only through a
    handful of operations.  [KVApi] is that interface, [KVLaws] its contract in
    terms of the latest-value map; clients are verified against the contract,
    and the instance at the end discharges it for [KVStore]. *)

From S2P Require Import Prelude CxxString FileSystem MemTable Compactor Wal FlushWorker KVStore KVWrites.
Import CxxString.

Class KVApi (S : Type) := {
  kv_get : str → S → option str;
  kv_put : str → str → S → S;
  kv_del : str → S → bool * S;
  kv_flush_wal : S → bool * S;
  kv_list : str → S → list str;
}.

Class KVLaws (S : Type) `{KVApi S} := {
  ready : S → Prop;
  view : S → gmap str str;
  get_law k s : kv_get k s = view s !! k;
  put_law k v s : ready s → ready (kv_put k v s) ∧ view (kv_put k v s) = <[k := v]> (view s);
  del_law k s : ready s →
    ready (kv_del k s).2 ∧ view (kv_del k s).2 = delete k (view s) ∧
    ((kv_del k s).1 = true → is_Some (view s !! k));
  flush_law s : ready s → ready (kv_flush_wal s).2 ∧ view (kv_flush_wal s).2 = view s;
  list_law p k s : k ∈ kv_list p s ↔ starts_with p k = true ∧ is_Some (view s !! k);
  list_nodup p s : NoDup (kv_list p s);
}.

(** ** The store implements the interface *)

Module KVInterface.
Import KVStore KVWrites.

Section Instance_.
Context `{Abi, MapOrder}.

#[global] Instance store_api : KVApi (KVStore * World) := {|
  kv_get k e := get k e.1;
  kv_put k v e := (put k v e).2;
  kv_del k e := del k e;
  kv_flush_wal e := flush_wal e;
  kv_list p e := list_keys_with_prefix p e.1;
|}.

(** An open store with an open log. *)
Definition store_ready (e : KVStore * World) : Prop :=
  opened_ e.1 = true ∧ Wal.fd_ (wal_ e.1) ≠ None.

Lemma flush_fd l w : Wal.fd_ l ≠ None → Wal.fd_ (Wal.flush l w).1.2 ≠ None.
Proof using.
  unfold Wal.flush. destruct (Wal.fd_ l) as [pos|] eqn:E; [|done]. intros _.
  case_decide; [cbn; by rewrite E|]. unfold mbind, ST_bind.
  destruct (Wal.flush_records _ _ _ w) as [[[] p] w1]; cbn; [|done].
  destruct (Wal.sys_fsync w1) as [[] w2]; cbn; done.
Qed.

Lemma finish_ready n s w :
  store_ready (s, w) → store_ready (finish n (s, w)).2 ∧ map_ (finish n (s, w)).2.1 = map_ s.
Proof using.
  intros [Ho Hfd]. cbn [fst] in *. destruct (finish n (s, w)) as [b [s' w']] eqn:E.
  pose proof (finish_frame _ _ _ _ _ _ E) as (Em & _ & Eo & _). split; [|done].
  split; [cbn; congruence|]. cbn [fst snd]. revert E. unfold finish. run_kv.
  destruct (maybe_flush_memtable_unlocked (s, w)) as [b1 [s1 w1]] eqn:E1.
  apply maybe_flush_frame in E1 as [F ->]. destruct b1; cbn [negb].
  - intros G. apply group_commit_frame in G as (l & -> & G). cbn [wal_ set_wal].
    rewrite (same_wal _ _ F) in G. case_decide.
    + pose proof (flush_fd (wal_ s) w Hfd) as P. by rewrite G in P.
    + by destruct G as (_ & -> & _).
  - intros; simplify_eq. by rewrite (same_wal _ _ F).
Qed.

Lemma put_ready k v e :
  store_ready e → store_ready (put k v e).2 ∧ map_ (put k v e).2.1 = <[k := v]> (map_ e.1).
Proof using.
  destruct e as [s w]. intros Hr. pose proof Hr as [Ho Hfd]. rewrite put_run by done. cbn [snd].
  destruct (finish_ready (next_seq s) (applied (put_record k v s) s) w) as [? Hm]; [done|].
  split; [done|]. by rewrite Hm.
Qed.

Lemma flush_ready e :
  store_ready e → store_ready (flush_wal e).2 ∧ map_ (flush_wal e).2.1 = map_ e.1.
Proof using.
  destruct e as [s w]. intros [Ho Hfd]. unfold flush_wal. run_kv.
  pose proof (flush_fd (wal_ s) w Hfd) as P. by destruct (Wal.flush (wal_ s) w) as [[b l] w1].
Qed.

Lemma starts_with_list p k s :
  k ∈ list_keys_with_prefix p s ↔ starts_with p k = true ∧ is_Some (map_ s !! k).
Proof using.
  unfold list_keys_with_prefix. rewrite list_elem_of_fmap. split.
  - intros ([k' v] & -> & Hin). rewrite list_elem_of_filter in Hin. destruct Hin as [Hp Hin].
    rewrite map_order_perm in Hin. apply elem_of_map_to_list in Hin. cbn in *. split; [done|by eexists].
  - intros [Hp [v Hv]]. exists (k, v). split; [done|]. rewrite list_elem_of_filter.
    split; [done|]. rewrite map_order_perm. by apply elem_of_map_to_list.
Qed.

Lemma list_keys_nodup p s : NoDup (list_keys_with_prefix p s).
Proof using.
  unfold list_keys_with_prefix. generalize (NoDup_fst_map_to_list (map_ s)).
  rewrite <-(fmap_Permutation fst _ _ (map_order_perm (map_ s))). generalize (map_order (map_ s)) as l.
  induction l as [|[k v] l IH]; intros Hl; [constructor|]. rewrite fmap_cons in Hl.
  apply NoDup_cons in Hl as [Hk Hl]. rewrite filter_cons. case_decide; [|by apply IH].
  rewrite fmap_cons. constructor; [|by apply IH]. intros Hin. apply Hk.
  apply list_elem_of_fmap in Hin as (kv & -> & Hin). apply list_elem_of_filter in Hin as [_ Hin].
  by apply list_elem_of_fmap_2.
Qed.

#[global] Instance store_laws : KVLaws (KVStore * World).
Proof using.
  refine {| ready := store_ready; view e := map_ e.1 |}.
  - done.
  - apply put_ready.
  - intros k [s w] Hr. pose proof Hr as [Ho Hfd]. cbn [kv_del store_api].
    rewrite del_run by done. destruct (map_ s !! k) eqn:M; cbn [fst].
    + destruct (finish_ready (next_seq s) (applied (del_record k s) s) w) as [? Hm]; [done|].
      split; [done|]. rewrite Hm. split; [done|]. rewrite M. by eexists.
    + split; [done|]. split; [by rewrite delete_id|done].
  - apply flush_ready.
  - intros p k [s w]. apply starts_with_list.
  - intros p [s w]. apply list_keys_nodup.
Defined.

End Instance_.
End KVInterface.
