(* ===== verification/ObjectStore.v ===== *)
(** * The object store

    Models [object_store.{h,cpp}], [object_store_types.h] and
    [object_store_key_codec.h] over the interface of [KVInterface.v]: the key
    codec, the metadata codec, buckets, chunked puts with their metadata commit
    point, gets, logical deletes, listing and chunk garbage collection.  The
    wall clock and [std::hash] are outside: readings are consumed from a list,
    the hash is a parameter. *)

From S2P Require Import Prelude CxxString KVInterface.
Import CxxString.

(** [std::hash<std::string_view>]. *)
Class StdHash := hash_bytes : str → N.

Module ObjectStore.

(** ** Data *)

(** [ObjectState] has the underlying type [uint8_t]: any 8-bit value. *)
Abbreviation ObjectState := N (only parsing).
Definition Pending : ObjectState := 0.
Definition Committed : ObjectState := 1.
Definition Deleted : ObjectState := 2.

Record BucketMetadata := mkBucket { bucket_name : str; bucket_created_at_epoch_ms : N }.

Record ObjectMetadata := mkMeta {
  object_id : str;
  bucket : str;
  key : str;
  size_bytes : N;
  chunk_count : N;
  chunk_size_bytes : N;
  content_type : str;
  etag : str;
  created_at_epoch_ms : N;
  updated_at_epoch_ms : N;
  state : ObjectState;
}.

Record PutObjectRequest := mkPut {
  req_bucket : str; req_key : str; req_data : str; req_content_type : str;
}.
Record PutObjectResult := mkPutResult {
  put_ok : bool; put_error : str; put_object_id : str; put_size_bytes : N;
  put_chunk_count : N; put_etag : str;
}.
Record GetObjectResult := mkGetResult {
  found : bool; get_error : str; metadata : option ObjectMetadata; data : str;
}.
Record ObjectListEntry := mkEntry {
  entry_key : str; entry_size_bytes : N; entry_content_type : str; entry_etag : str;
  entry_updated_at_epoch_ms : N;
}.
Record ListObjectsResult := mkListResult {
  list_ok : bool; list_error : str; objects : list ObjectListEntry;
}.
Record DeleteObjectResult := mkDeleteResult { del_ok : bool; del_error : str }.

(** ** The key codec *)

Definition colon : ascii := ":"%char.
Definition BucketMetaKey (bucket : str) : str := b# "bucket:" ++ bucket.
Definition ObjectMetaKey (bucket key : str) : str := b# "objmeta:" ++ bucket ++ [colon] ++ key.
Definition BucketIndexKey (bucket key : str) : str := b# "bucketidx:" ++ bucket ++ [colon] ++ key.
Definition ChunkKey (object_id : str) (index : N) : str :=
  b# "objchunk:" ++ object_id ++ [colon] ++ dec index.

(** ** The metadata codec *)

Definition serialize_metadata (m : ObjectMetadata) : str :=
  object_id m ++ [tab] ++ bucket m ++ [tab] ++ key m ++ [tab] ++
  dec (size_bytes m) ++ [tab] ++ dec (chunk_count m) ++ [tab] ++
  dec (chunk_size_bytes m) ++ [tab] ++ content_type m ++ [tab] ++ etag m ++ [tab] ++
  dec (created_at_epoch_ms m) ++ [tab] ++ dec (updated_at_epoch_ms m) ++ [tab] ++
  dec (state m).

Definition deserialize_metadata (s : str) : option ObjectMetadata :=
  '(object_id, s) ← getline tab s;
  '(bucket, s) ← getline tab s;
  '(key, s) ← getline tab s;
  '(size_bytes, s) ← getline tab s;
  '(chunk_count, s) ← getline tab s;
  '(chunk_size_bytes, s) ← getline tab s;
  '(content_type, s) ← getline tab s;
  '(etag, s) ← getline tab s;
  '(created_at, s) ← getline tab s;
  '(updated_at, s) ← getline tab s;
  '(state_str, s) ← getline tab s;
  size_bytes ← stoull size_bytes;
  chunk_count ← stoull chunk_count;
  chunk_size_bytes ← stoull chunk_size_bytes;
  created_at ← stoull created_at;
  updated_at ← stoull updated_at;
  state_int ← stoi state_str;
  Some (mkMeta object_id bucket key size_bytes (wrap32 chunk_count) (wrap32 chunk_size_bytes)
    content_type etag created_at updated_at (Z.to_N (state_int mod 256))).

Definition serialize_bucket_meta (b : BucketMetadata) : str :=
  bucket_name b ++ [tab] ++ dec (bucket_created_at_epoch_ms b).

Definition deserialize_bucket_meta (s : str) : option BucketMetadata :=
  '(name, s) ← getline tab s;
  '(created_at, s) ← getline tab s;
  created_at ← stoull created_at;
  Some (mkBucket name created_at).

(** ** Operations *)

Section Operations.
Context {S : Type} `{KVApi S, StdHash}.

(** The object store's view of the world: the store and the clock's readings to
    come; the clock stands still when they run out. *)
Record Env := mkEnv { kv_ : S; clock : list N; last_reading : N }.

Abbreviation os := (ST Env).

Definition now_epoch_ms : os N := λ e,
  match clock e with
  | [] => (wrap64 (last_reading e), e)
  | t :: ts => (wrap64 t, mkEnv (kv_ e) ts (wrap64 t))
  end.

Definition get_kv (k : str) : os (option str) := gets (λ e, kv_get k (kv_ e)).
Definition put_kv (k v : str) : os unit :=
  modify (λ e, mkEnv (kv_put k v (kv_ e)) (clock e) (last_reading e)).
Definition del_kv (k : str) : os bool := λ e,
  let '(b, s) := kv_del k (kv_ e) in (b, mkEnv s (clock e) (last_reading e)).
Definition flush_kv : os bool := λ e,
  let '(b, s) := kv_flush_wal (kv_ e) in (b, mkEnv s (clock e) (last_reading e)).
Definition list_kv (p : str) : os (list str) := gets (λ e, kv_list p (kv_ e)).

Definition compute_etag (data : str) : str := hex (hash_bytes data).

Definition make_object_id (bucket key : str) : os str :=
  t ← now_epoch_ms; mret (bucket ++ [colon] ++ key ++ [colon] ++ dec t).

(** The constructor's [chunk_size_bytes_]. *)
Definition chunk_size (chunk_size_bytes : N) : N :=
  if decide (chunk_size_bytes = 0%N) then 4096 else chunk_size_bytes.

Definition BucketExists (bucket : str) : os bool :=
  if decide (bucket = []) then mret false
  else v ← get_kv (BucketMetaKey bucket); mret (bool_decide (is_Some v)).

Definition CreateBucket (bucket : str) : os bool :=
  if decide (bucket = []) then mret false
  else
    existing ← get_kv (BucketMetaKey bucket);
    match existing with
    | Some _ => mret true
    | None =>
        t ← now_epoch_ms;
        put_kv (BucketMetaKey bucket) (serialize_bucket_meta (mkBucket bucket t)) ;;
        mret true
    end.

(** [chunk_count] and the bytes of one chunk. *)
Definition chunks_of (chunk_size_bytes_ total_size : N) : N :=
  wrap32 (wrap64 (total_size + chunk_size_bytes_ - 1) / chunk_size_bytes_).
Definition chunk_value (chunk_size_bytes_ : N) (data : str) (i : N) : str :=
  let total_size := N.of_nat (length data) in
  let start := (i * chunk_size_bytes_)%N in
  let end_ := N.min (start + chunk_size_bytes_) total_size in
  substr data (N.to_nat start) (N.to_nat (end_ - start)).

(** The chunk loop, from index [i], [n] chunks. *)
Fixpoint write_chunks (n : nat) (i : N) (object_id : str) (chunk_size_bytes_ : N) (data : str)
    : os unit :=
  match n with
  | O => mret tt
  | Datatypes.S n' =>
      put_kv (ChunkKey object_id i) (chunk_value chunk_size_bytes_ data i) ;;
      write_chunks n' (i + 1) object_id chunk_size_bytes_ data
  end.

(** From the metadata commit point to the end of [PutObject]. *)
Definition commit_object (chunk_size_bytes_ : N) (req : PutObjectRequest) (object_id : str)
    (now_ms : N) : os PutObjectResult :=
  let etag := compute_etag (req_data req) in
  let total_size := N.of_nat (length (req_data req)) in
  let chunk_count := chunks_of chunk_size_bytes_ total_size in
  let meta := mkMeta object_id (req_bucket req) (req_key req) total_size chunk_count
    chunk_size_bytes_ (req_content_type req) etag now_ms now_ms Committed in
  put_kv (ObjectMetaKey (req_bucket req) (req_key req)) (serialize_metadata meta) ;;
  put_kv (BucketIndexKey (req_bucket req) (req_key req)) object_id ;;
  flushed ← flush_kv;
  if (negb flushed) then mret (mkPutResult false (b# "failed to flush WAL") [] 0 0 [])
  else mret (mkPutResult true [] object_id total_size chunk_count etag).

Definition PutObject (chunk_size_bytes_ : N) (req : PutObjectRequest) : os PutObjectResult :=
  if decide (req_bucket req = []) then mret (mkPutResult false (b# "bucket is empty") [] 0 0 [])
  else if decide (req_key req = []) then
    mret (mkPutResult false (b# "object key is empty") [] 0 0 [])
  else
    exists_ ← BucketExists (req_bucket req);
    if negb exists_ then mret (mkPutResult false (b# "bucket does not exist") [] 0 0 [])
    else
      _ ← get_kv (ObjectMetaKey (req_bucket req) (req_key req));    (* only logged *)
      object_id ← make_object_id (req_bucket req) (req_key req);
      now_ms ← now_epoch_ms;
      let total_size := N.of_nat (length (req_data req)) in
      write_chunks (N.to_nat (chunks_of chunk_size_bytes_ total_size)) 0 object_id
        chunk_size_bytes_ (req_data req) ;;
      commit_object chunk_size_bytes_ req object_id now_ms.

(** The chunk loop of [GetObject]: the data, or the index of a missing chunk. *)
Fixpoint read_chunks (n : nat) (i : N) (object_id : str) (acc : str) : os (N + str) :=
  match n with
  | O => mret (inr acc)
  | Datatypes.S n' =>
      chunk ← get_kv (ChunkKey object_id i);
      match chunk with
      | None => mret (inl i)
      | Some c => read_chunks n' (i + 1) object_id (acc ++ c)
      end
  end.

Definition GetObject (bucket key : str) : os GetObjectResult :=
  raw_meta ← get_kv (ObjectMetaKey bucket key);
  match raw_meta with
  | None => mret (mkGetResult false (b# "object metadata not found") None [])
  | Some raw =>
      match deserialize_metadata raw with
      | None => mret (mkGetResult false (b# "failed to deserialize object metadata") None [])
      | Some meta =>
          if decide (state meta = Deleted) then
            mret (mkGetResult false (b# "object is deleted") None [])
          else
            r ← read_chunks (N.to_nat (chunk_count meta)) 0 (object_id meta) [];
            match r with
            | inl i => mret (mkGetResult false
                (b# "missing object chunk at index " ++ dec i) (Some meta) [])
            | inr bytes => mret (mkGetResult true [] (Some meta) bytes)
            end
      end
  end.

Definition DeleteObject (bucket_ key_ : str) : os DeleteObjectResult :=
  raw_meta ← get_kv (ObjectMetaKey bucket_ key_);
  match raw_meta with
  | None => mret (mkDeleteResult false (b# "object metadata not found"))
  | Some raw =>
      match deserialize_metadata raw with
      | None => mret (mkDeleteResult false (b# "failed to deserialize object metadata"))
      | Some m =>
          now ← now_epoch_ms;
          let m := mkMeta (object_id m) (bucket m) (key m) (size_bytes m) (chunk_count m)
            (chunk_size_bytes m) (content_type m) (etag m) (created_at_epoch_ms m) now Deleted in
          put_kv (ObjectMetaKey bucket_ key_) (serialize_metadata m) ;;
          _ ← del_kv (BucketIndexKey bucket_ key_);
          flushed ← flush_kv;
          if negb flushed then mret (mkDeleteResult false (b# "failed to flush WAL"))
          else mret (mkDeleteResult true [])
      end
  end.

(** The entry an index key contributes to a listing, if any. *)
Definition list_entry (bucket_ index_key : str) : os (option ObjectListEntry) :=
  let base_prefix := b# "bucketidx:" ++ bucket_ ++ [colon] in
  if decide (length index_key < length base_prefix) then mret None
  else
    raw_meta ← get_kv (ObjectMetaKey bucket_ (substr_from index_key (length base_prefix)));
    match raw_meta ≫= deserialize_metadata with
    | None => mret None
    | Some m =>
        if decide (state m = Deleted) then mret None
        else mret (Some (mkEntry (key m) (size_bytes m) (content_type m) (etag m)
                          (updated_at_epoch_ms m)))
    end.

Fixpoint list_entries (bucket_ : str) (index_keys : list str) : os (list ObjectListEntry) :=
  match index_keys with
  | [] => mret []
  | k :: ks =>
      o ← list_entry bucket_ k;
      es ← list_entries bucket_ ks;
      mret (match o with Some e => e :: es | None => es end)
  end.

Definition ListObjects (bucket_ prefix : str) : os ListObjectsResult :=
  if decide (bucket_ = []) then mret (mkListResult false (b# "bucket is empty") [])
  else
    exists_ ← BucketExists bucket_;
    if negb exists_ then mret (mkListResult false (b# "bucket does not exist") [])
    else
      index_keys ← list_kv (BucketIndexKey bucket_ prefix);
      es ← list_entries bucket_ index_keys;
      mret (mkListResult true [] es).

(** ** Garbage collection *)

Definition chunk_prefix : str := b# "objchunk:".

(** Step 1: the object ids of committed metadata. *)
Fixpoint reachable_ids (meta_keys : list str) : os (gset str) :=
  match meta_keys with
  | [] => mret ∅
  | k :: ks =>
      raw_meta ← get_kv k;
      ids ← reachable_ids ks;
      mret (match raw_meta ≫= deserialize_metadata with
            | Some m => if decide (state m = Committed) then {[ object_id m ]} ∪ ids else ids
            | None => ids
            end)
  end.

(** The object id in a chunk key; [None] where the loop skips the key. *)
Definition chunk_object_id (chunk_key : str) : option str :=
  match rfind colon chunk_key with
  | None => None
  | Some last_colon =>
      if decide (last_colon ≤ length chunk_prefix) then None
      else Some (substr chunk_key (length chunk_prefix) (last_colon - length chunk_prefix))
  end.

(** Step 2: delete the chunks of unreachable objects, counting them. *)
Fixpoint sweep (chunk_keys : list str) (ids : gset str) (deleted_chunks : N) : os N :=
  match chunk_keys with
  | [] => mret deleted_chunks
  | k :: ks =>
      match chunk_object_id k with
      | None => sweep ks ids deleted_chunks
      | Some id =>
          if decide (id ∈ ids) then sweep ks ids deleted_chunks
          else
            gone ← del_kv k;
            sweep ks ids (if (gone : bool) then deleted_chunks + 1 else deleted_chunks)
      end
  end.

Definition GarbageCollectChunks : os N :=
  meta_keys ← list_kv (b# "objmeta:");
  ids ← reachable_ids meta_keys;
  chunk_keys ← list_kv chunk_prefix;
  n ← sweep chunk_keys ids 0;
  _ ← flush_kv;
  mret n.

End Operations.
End ObjectStore.
