(* ===== verification/ObjectSpec.v ===== *)
(** * Correctness of the object store

    The metadata codec and key codec, then each operation against the contract
    of [KVInterface.v] (definitions in [ObjectStore.v]). *)

From S2P Require Import Prelude CxxString FileSystem MemTable Wal KVStore KVWrites KVInterface ObjectStore.
Import CxxString.

Module ObjectSpec.
Import ObjectStore.

(** ** The metadata codec *)

(** Metadata the tab-separated format can carry. *)
Record meta_ok (m : ObjectMetadata) : Prop := mkMetaOk {
  ok_id : tab ∉ object_id m;
  ok_bucket : tab ∉ bucket m;
  ok_key : tab ∉ key m;
  ok_type : tab ∉ content_type m;
  ok_etag : tab ∉ etag m;
  ok_size : fits 64 (size_bytes m);
  ok_count : fits 32 (chunk_count m);
  ok_chunk : fits 32 (chunk_size_bytes m);
  ok_created : fits 64 (created_at_epoch_ms m);
  ok_updated : fits 64 (updated_at_epoch_ms m);
  ok_state : fits 8 (state m);
}.

Lemma deserialize_serialize m :
  meta_ok m → deserialize_metadata (serialize_metadata m) = Some m.
Proof.
  intros [Hi Hb Hk Ht He Hs Hc Hz H1 H2 Hst]. unfold deserialize_metadata, serialize_metadata.
  cbn [app]. do 10 (rewrite getline_app by auto using dec_no_tab; cbn [mbind option_bind]).
  rewrite getline_last by auto using dec_no_tab, dec_nonempty. cbn [mbind option_bind].
  assert (∀ n, fits 32 n → fits 64 n) as H32 by (unfold fits; intros; lia).
  rewrite !stoull_dec by auto. cbn [mbind option_bind].
  rewrite stoi_dec by (unfold fits in Hst; lia). cbn [mbind option_bind].
  rewrite !wrap_fits by done. rewrite Z.mod_small by (unfold fits in Hst; lia).
  rewrite N2Z.id. by destruct m.
Qed.

Lemma until_no d s : d ∉ (until d s).1.
Proof.
  induction s as [|c s IH]; simpl; [apply not_elem_of_nil|]. case_decide; [apply not_elem_of_nil|].
  destruct (until d s) as [l r]. simpl in *. by apply not_elem_of_cons.
Qed.

Lemma getline_no d s l r : getline d s = Some (l, r) → d ∉ l.
Proof.
  unfold getline. destruct s as [|c s]; [done|]. intros E. pose proof (until_no d (c :: s)) as Hn.
  apply (inj Some) in E. by rewrite E in Hn.
Qed.

Lemma stoull_fits s n : stoull s = Some n → fits 64 n.
Proof.
  unfold stoull, read_unsigned. destruct (match skip_ws s with [] => _ | _ => _ end) as [neg s1].
  destruct (read_digits s1 0 0) as [[[|k] m] r]; [done|]. case_decide as Hf; [|done].
  cbn. intros E. injection E as <-. destruct neg; [apply fits_wrap|done].
Qed.

(** Whatever the stored bytes are, metadata that was read can be written back. *)
Lemma deserialize_ok s m : deserialize_metadata s = Some m → meta_ok m.
Proof.
  unfold deserialize_metadata. intros E.
  repeat match type of E with
  | (getline tab ?x ≫= _) = _ =>
      let E' := fresh "G" in
      destruct (getline tab x) as [[? ?]|] eqn:E'; [apply getline_no in E'|done];
      cbn [mbind option_bind] in E
  | (stoull ?x ≫= _) = _ =>
      let E' := fresh "F" in
      destruct (stoull x) eqn:E'; [apply stoull_fits in E'|done]; cbn [mbind option_bind] in E
  | (stoi ?x ≫= _) = _ => destruct (stoi x) as [z|]; [|done]; cbn [mbind option_bind] in E
  end.
  injection E as <-. constructor; cbn; try done; try apply fits_wrap.
  unfold fits. pose proof (Z.mod_pos_bound z 256 ltac:(lia)). lia.
Qed.

(** ** The key codec *)

Lemma starts_with_app p s : starts_with p (p ++ s) = true.
Proof. induction p as [|c p IH]; [done|]. simpl. by rewrite decide_True. Qed.

Lemma starts_with_prefix p s : starts_with p s = true → ∃ r, s = p ++ r.
Proof.
  revert s. induction p as [|c p IH]; intros s; [by exists s|].
  destruct s as [|x s]; [done|]. simpl. case_decide as Hc; [|done]. subst.
  intros [r ->]%IH. by exists r.
Qed.

Lemma chunk_key_inj id i j : ChunkKey id i = ChunkKey id j → i = j.
Proof.
  unfold ChunkKey. intros E. apply app_inv_head in E. apply app_inv_head in E.
  injection E as E. by apply dec_inj.
Qed.

Lemma rfind_app_none c a b : rfind c b = None → rfind c (a ++ c :: b) = Some (length a).
Proof.
  intros Hb. induction a as [|x a IH]; simpl; [|by rewrite IH].
  rewrite Hb. by rewrite decide_True.
Qed.

Lemma rfind_none c s : c ∉ s → rfind c s = None.
Proof.
  induction s as [|x s IH]; simpl; [done|]. intros [Hc Hs]%not_elem_of_cons.
  rewrite IH by done. by rewrite decide_False.
Qed.

Lemma dec_no_colon n : colon ∉ dec n.
Proof.
  intros Hin. pose proof (dec_digits n) as Hd. unfold digits in Hd.
  rewrite Forall_forall in Hd. by apply Hd in Hin.
Qed.

(** The object id is read back from a chunk key by the last colon. *)
Lemma chunk_object_id_key id i : id ≠ [] → chunk_object_id (ChunkKey id i) = Some id.
Proof.
  intros Hid. unfold chunk_object_id, ChunkKey. fold chunk_prefix.
  rewrite app_assoc. cbn [app].
  rewrite rfind_app_none by (apply rfind_none, dec_no_colon).
  rewrite length_app. rewrite decide_False.
  - unfold substr. rewrite <-app_assoc, drop_app_length.
    replace (length chunk_prefix + length id - length chunk_prefix) with (length id) by lia.
    by rewrite take_app_length.
  - destruct id; [done|]. simpl. lia.
Qed.

(** Keys of different kinds differ in their first bytes. *)
Lemma chunk_ne_meta id i b k : ChunkKey id i ≠ ObjectMetaKey b k.
Proof. unfold ChunkKey, ObjectMetaKey. discriminate. Qed.
Lemma chunk_ne_index id i b k : ChunkKey id i ≠ BucketIndexKey b k.
Proof. unfold ChunkKey, BucketIndexKey. discriminate. Qed.
Lemma meta_ne_index b k b' k' : ObjectMetaKey b k ≠ BucketIndexKey b' k'.
Proof. unfold ObjectMetaKey, BucketIndexKey. discriminate. Qed.
Lemma chunk_ne_bucket id i b : ChunkKey id i ≠ BucketMetaKey b.
Proof. unfold ChunkKey, BucketMetaKey. discriminate. Qed.

(** ** Chunking *)

Lemma chunk_value_eq cs data i :
  (0 < cs)%N →
  chunk_value cs data i = take (N.to_nat cs) (drop (N.to_nat (i * cs)) data).
Proof.
  intros Hcs. unfold chunk_value, substr.
  destruct (N.le_gt_cases (N.of_nat (length data)) (i * cs)) as [Hl|Hl].
  - rewrite !(drop_ge data) by lia. by rewrite !take_nil.
  - destruct (N.le_gt_cases (N.of_nat (length data)) (i * cs + cs)).
    + rewrite N.min_r by lia. rewrite !take_ge by (rewrite length_drop; lia). done.
    + rewrite N.min_l by lia. do 2 f_equal. lia.
Qed.

(** The chunks from index [i] on, [n] of them, concatenated. *)
Fixpoint chunks_from (n : nat) (i cs : N) (data : str) : str :=
  match n with
  | O => []
  | S n' => chunk_value cs data i ++ chunks_from n' (i + 1) cs data
  end.

Lemma chunks_from_eq n i cs data :
  (0 < cs)%N → chunks_from n i cs data =
    take (n * N.to_nat cs) (drop (N.to_nat (i * cs)) data).
Proof.
  intros Hcs. revert i. induction n as [|n IH]; intros i; simpl; [done|].
  rewrite IH, chunk_value_eq by done. rewrite <-take_take_drop, drop_drop.
  do 2 f_equal. f_equal. lia.
Qed.

(** Splitting into chunks loses nothing. *)
Lemma chunks_all cs data :
  (0 < cs)%N → fits 64 (N.of_nat (length data) + cs - 1) →
  fits 32 ((N.of_nat (length data) + cs - 1) / cs) →
  chunks_from (N.to_nat (chunks_of cs (N.of_nat (length data)))) 0 cs data = data.
Proof.
  intros Hcs H1 H2. rewrite chunks_from_eq by done. cbn. rewrite drop_0. apply take_ge.
  unfold chunks_of. rewrite (wrap_fits 64), (wrap_fits 32) by done.
  set (n := N.of_nat (length data)).
  assert (n ≤ (n + cs - 1) / cs * cs)%N.
  { pose proof (N.div_mod (n + cs - 1) cs ltac:(lia)). pose proof (N.mod_lt (n + cs - 1) cs ltac:(lia)). nia. }
  subst n. lia.
Qed.

(** ** The operations on the store's map *)

Section Spec.
Context {S : Type} `{KVLaws S, StdHash}.

Abbreviation OsEnv := (@Env S).
Definition map_of (e : OsEnv) : gmap str str := view (kv_ e).
Definition ok_env (e : OsEnv) : Prop := ready (kv_ e).

Ltac run_os := cbv [mbind mret ST_bind ST_ret gets modify get_kv put_kv list_kv]; cbn [fst snd].

Lemma put_kv_run k v e :
  ok_env e → ∃ e', put_kv k v e = (tt, e') ∧ ok_env e' ∧ map_of e' = <[k := v]> (map_of e).
Proof using. intros Hr. eexists. split; [done|]. by apply put_law. Qed.

Lemma del_kv_run k e :
  ok_env e → ∃ b e', del_kv k e = (b, e') ∧ ok_env e' ∧ map_of e' = delete k (map_of e).
Proof using.
  intros Hr. unfold del_kv. pose proof (del_law k (kv_ e) Hr) as (? & ? & _).
  destruct (kv_del k (kv_ e)) as [b s]. by eexists _, _.
Qed.

Lemma flush_kv_run e :
  ok_env e → ∃ b e', flush_kv e = (b, e') ∧ ok_env e' ∧ map_of e' = map_of e.
Proof using.
  intros Hr. unfold flush_kv. pose proof (flush_law (kv_ e) Hr) as (? & ?).
  destruct (kv_flush_wal (kv_ e)) as [b s]. by eexists _, _.
Qed.

Lemma now_run e :
  ok_env e → ∃ t e', now_epoch_ms e = (t, e') ∧ fits 64 t ∧ ok_env e' ∧ map_of e' = map_of e.
Proof using.
  intros Hr. unfold now_epoch_ms. destruct (clock e) as [|t ts]; eexists _, _;
    (split; [done|]); (split; [apply fits_wrap|done]).
Qed.

Lemma get_kv_run k e : get_kv k e = (map_of e !! k, e).
Proof using. unfold get_kv, gets. by rewrite get_law. Qed.

(** *** Reads are functions of the map *)

Fixpoint chunks_view (m : gmap str str) (n : nat) (i : N) (id acc : str) : N + str :=
  match n with
  | O => inr acc
  | Datatypes.S n' =>
      match m !! ChunkKey id i with
      | None => inl i
      | Some c => chunks_view m n' (i + 1) id (acc ++ c)
      end
  end.

Lemma read_chunks_run n i id acc e :
  read_chunks n i id acc e = (chunks_view (map_of e) n i id acc, e).
Proof using.
  revert i acc. induction n as [|n IH]; intros i acc; [done|]. cbn [read_chunks chunks_view].
  unfold mbind, ST_bind. rewrite get_kv_run. by destruct (map_of e !! _).
Qed.

Definition object_view (m : gmap str str) (b k : str) : GetObjectResult :=
  match m !! ObjectMetaKey b k with
  | None => mkGetResult false (b# "object metadata not found") None []
  | Some raw =>
      match deserialize_metadata raw with
      | None => mkGetResult false (b# "failed to deserialize object metadata") None []
      | Some meta =>
          if decide (state meta = Deleted) then mkGetResult false (b# "object is deleted") None []
          else
            match chunks_view m (N.to_nat (chunk_count meta)) 0 (object_id meta) [] with
            | inl i => mkGetResult false (b# "missing object chunk at index " ++ dec i) (Some meta) []
            | inr bytes => mkGetResult true [] (Some meta) bytes
            end
      end
  end.

Lemma GetObject_run b k e : GetObject b k e = (object_view (map_of e) b k, e).
Proof using.
  unfold GetObject, object_view. unfold mbind at 1, ST_bind at 1. rewrite get_kv_run.
  destruct (map_of e !! _) as [raw|]; [|done]. destruct (deserialize_metadata raw) as [m|]; [|done].
  case_decide; [done|]. unfold mbind, ST_bind. rewrite read_chunks_run.
  by destruct (chunks_view _ _ _ _ _).
Qed.

(** A read depends only on the metadata and the chunks it names. *)
Lemma chunks_view_ext m1 m2 n i id acc :
  (∀ j, (i ≤ j < i + N.of_nat n)%N → m1 !! ChunkKey id j = m2 !! ChunkKey id j) →
  chunks_view m1 n i id acc = chunks_view m2 n i id acc.
Proof using.
  revert i acc. induction n as [|n IH]; intros i acc Hj; [done|]. cbn [chunks_view].
  rewrite (Hj i) by lia. destruct (m2 !! _); [|done]. apply IH. intros j Hlt. apply Hj. lia.
Qed.

Lemma chunks_view_data m n i id acc cs data :
  (∀ j, (i ≤ j < i + N.of_nat n)%N → m !! ChunkKey id j = Some (chunk_value cs data j)) →
  chunks_view m n i id acc = inr (acc ++ chunks_from n i cs data).
Proof using.
  revert i acc. induction n as [|n IH]; intros i acc Hj; cbn [chunks_view chunks_from];
    [by rewrite app_nil_r|].
  rewrite (Hj i) by lia. rewrite IH; [by rewrite <-app_assoc|]. intros j Hlt. apply Hj. lia.
Qed.

(** *** Writes *)

Lemma write_chunks_run n i id cs data e :
  ok_env e → ∃ e', write_chunks n i id cs data e = (tt, e') ∧ ok_env e' ∧
    (∀ j, (i ≤ j < i + N.of_nat n)%N → map_of e' !! ChunkKey id j = Some (chunk_value cs data j)) ∧
    (∀ k, (∀ j, (i ≤ j < i + N.of_nat n)%N → k ≠ ChunkKey id j) → map_of e' !! k = map_of e !! k).
Proof using.
  revert i e. induction n as [|n IH]; intros i e Hr; cbn [write_chunks].
  { exists e. split; [done|]. split; [done|]. split; [intros; lia|done]. }
  unfold mbind, ST_bind. destruct (put_kv_run (ChunkKey id i) (chunk_value cs data i) e Hr)
    as (e1 & -> & Hr1 & Hm1).
  destruct (IH (i + 1)%N e1 Hr1) as (e2 & -> & Hr2 & Hin & Hout).
  exists e2. split; [done|]. split; [done|]. split.
  - intros j Hj. destruct (decide (j = i)) as [->|]; [|apply Hin; lia].
    rewrite Hout, Hm1, lookup_insert_eq; [done|]. intros j' Hj' E%chunk_key_inj. lia.
  - intros k Hk. rewrite Hout, Hm1, lookup_insert_ne; [done| |].
    + intros E. symmetry in E. by apply (Hk i); [lia|].
    + intros j Hj. apply Hk. lia.
Qed.

(** A put of chunks removes nothing. *)
Lemma write_chunks_keeps n i id cs data e k :
  ok_env e → is_Some (map_of e !! k) → is_Some (map_of (write_chunks n i id cs data e).2 !! k).
Proof using.
  revert i e. induction n as [|n IH]; intros i e Hr Hk; [done|]. cbn [write_chunks].
  unfold mbind, ST_bind. destruct (put_kv_run (ChunkKey id i) (chunk_value cs data i) e Hr)
    as (e1 & -> & Hr1 & Hm1).
  apply IH; [done|]. rewrite Hm1, lookup_insert_is_Some. destruct (decide (ChunkKey id i = k)); auto.
Qed.

Definition committed_meta (cs : N) (req : PutObjectRequest) (id : str) (t : N) : ObjectMetadata :=
  let n := N.of_nat (length (req_data req)) in
  mkMeta id (req_bucket req) (req_key req) n (chunks_of cs n) cs (req_content_type req)
    (compute_etag (req_data req)) t t Committed.

Lemma commit_object_run cs req id t e :
  ok_env e → ∃ r e', commit_object cs req id t e = (r, e') ∧ ok_env e' ∧
    map_of e' =
      <[BucketIndexKey (req_bucket req) (req_key req) := id]>
      (<[ObjectMetaKey (req_bucket req) (req_key req) :=
         serialize_metadata (committed_meta cs req id t)]> (map_of e)) ∧
    (put_ok r = true → put_object_id r = id ∧ put_size_bytes r = N.of_nat (length (req_data req))).
Proof using.
  intros Hr. unfold commit_object. unfold mbind, ST_bind.
  destruct (put_kv_run (ObjectMetaKey (req_bucket req) (req_key req))
    (serialize_metadata (committed_meta cs req id t)) e Hr) as (e1 & E1 & Hr1 & Hm1).
  unfold committed_meta in E1. cbv zeta in E1. rewrite E1.
  destruct (put_kv_run (BucketIndexKey (req_bucket req) (req_key req)) id e1 Hr1)
    as (e2 & -> & Hr2 & Hm2).
  destruct (flush_kv_run e2 Hr2) as (b & e3 & -> & Hr3 & Hm3).
  exists (if b then mkPutResult true [] id (N.of_nat (length (req_data req)))
    (chunks_of cs (N.of_nat (length (req_data req)))) (compute_etag (req_data req))
    else mkPutResult false (b# "failed to flush WAL") [] 0 0 []), e3.
  destruct b; (split; [done|]); (split; [done|]); (split; [congruence|]); done.
Qed.

(** A request whose strings fit the metadata format and whose sizes fit. *)
Record request_ok (cs : N) (req : PutObjectRequest) : Prop := mkReqOk {
  rq_bucket : req_bucket req ≠ [] ∧ tab ∉ req_bucket req;
  rq_key : req_key req ≠ [] ∧ tab ∉ req_key req;
  rq_type : tab ∉ req_content_type req;
  rq_chunk : (0 < cs)%N ∧ fits 32 cs;
  rq_size : fits 64 (N.of_nat (length (req_data req)) + cs - 1);
  rq_count : fits 32 ((N.of_nat (length (req_data req)) + cs - 1) / cs);
}.

Lemma committed_meta_ok cs req t :
  request_ok cs req → fits 64 t → ∀ t0,
  meta_ok (committed_meta cs req (req_bucket req ++ [colon] ++ req_key req ++ [colon] ++ dec t0) t).
Proof using.
  intros [[_ Hb] [_ Hk] Hct [Hc0 Hc] Hs Hn] Ht t0. constructor; cbn; try done.
  - rewrite elem_of_app, elem_of_cons, elem_of_app, elem_of_cons.
    intros [?|[?|[?|[?|?]]]]; try done. by apply (dec_no_tab t0).
  - apply hex_no_tab.
  - unfold fits in *. lia.
  - unfold chunks_of. apply fits_wrap.
Qed.

Lemma BucketExists_run b e :
  BucketExists b e = (bool_decide (b ≠ [] ∧ is_Some (map_of e !! BucketMetaKey b)), e).
Proof using.
  unfold BucketExists. case_decide as Hb; [by rewrite bool_decide_false by naive_solver|].
  unfold mbind, ST_bind. rewrite get_kv_run. unfold mret, ST_ret. f_equal.
  apply bool_decide_ext. naive_solver.
Qed.

(** The whole of a successful [PutObject]. *)
Lemma PutObject_run cs req e :
  ok_env e → request_ok cs req → is_Some (map_of e !! BucketMetaKey (req_bucket req)) →
  ∃ r e' t0 t, PutObject cs req e = (r, e') ∧ ok_env e' ∧ fits 64 t ∧
    let id := req_bucket req ++ [colon] ++ req_key req ++ [colon] ++ dec t0 in
    let m := committed_meta cs req id t in
    map_of e' !! ObjectMetaKey (req_bucket req) (req_key req) = Some (serialize_metadata m) ∧
    (∀ j, (j < chunk_count m)%N → map_of e' !! ChunkKey id j = Some (chunk_value cs (req_data req) j)) ∧
    (∀ k, k ≠ ObjectMetaKey (req_bucket req) (req_key req) →
       k ≠ BucketIndexKey (req_bucket req) (req_key req) →
       (∀ j, k ≠ ChunkKey id j) → map_of e' !! k = map_of e !! k) ∧
    (put_ok r = true → put_object_id r = id ∧ put_size_bytes r = N.of_nat (length (req_data req))) ∧
    map_of e' !! BucketIndexKey (req_bucket req) (req_key req) = Some id ∧
    (∀ k, is_Some (map_of e !! k) → is_Some (map_of e' !! k)).
Proof using.
  intros Hr Hok Hex. destruct (Hok) as [[Hb _] [Hk _] _ _ _ _].
  unfold PutObject. rewrite !decide_False by done.
  unfold mbind at 1, ST_bind at 1. rewrite BucketExists_run, bool_decide_true by done. cbn [negb].
  unfold mbind at 1, ST_bind at 1. rewrite get_kv_run. unfold make_object_id.
  unfold mbind at 1, ST_bind at 1. unfold mbind at 1, ST_bind at 1.
  destruct (now_run e Hr) as (t0 & e1 & -> & _ & Hr1 & Hm1). unfold mret, ST_ret.
  unfold mbind at 1, ST_bind at 1. destruct (now_run e1 Hr1) as (t & e2 & -> & Ht & Hr2 & Hm2).
  set (id := req_bucket req ++ _).
  unfold mbind at 1, ST_bind at 1.
  set (n := chunks_of cs (N.of_nat (length (req_data req)))).
  pose proof (λ k, write_chunks_keeps (N.to_nat n) 0 id cs (req_data req) e2 k Hr2) as Hkeep.
  destruct (write_chunks_run (N.to_nat n) 0 id cs (req_data req) e2 Hr2)
    as (e3 & E3 & Hr3 & Hin & Hout). rewrite E3 in *. cbn [snd] in Hkeep.
  destruct (commit_object_run cs req id t e3 Hr3) as (r & e4 & -> & Hr4 & Hm4 & Hres).
  exists r, e4, t0, t. split; [done|]. split; [done|]. split; [done|]. cbv zeta. fold id.
  split_and!; [| | |done|by rewrite Hm4, lookup_insert_eq|].
  - rewrite Hm4, lookup_insert_ne by (intros E; symmetry in E; by apply meta_ne_index in E).
    by rewrite lookup_insert_eq.
  - intros j Hj. cbn [chunk_count committed_meta] in Hj. fold n in Hj.
    rewrite Hm4, !lookup_insert_ne by
      (intros E; symmetry in E; first [by apply chunk_ne_index in E | by apply chunk_ne_meta in E]).
    apply Hin. lia.
  - intros k N1 N2 N3. rewrite Hm4, !lookup_insert_ne by done.
    rewrite Hout by (intros; apply N3). congruence.
  - intros k0 Hk0. rewrite Hm4. repeat (apply lookup_insert_is_Some'; right).
    apply Hkeep. rewrite Hm2, Hm1. done.
Qed.

(** The read after it. *)
Lemma PutObject_get cs req e :
  ok_env e → request_ok cs req → is_Some (map_of e !! BucketMetaKey (req_bucket req)) →
  let '(r, e1) := PutObject cs req e in
  let '(g, e2) := GetObject (req_bucket req) (req_key req) e1 in
  found g = true ∧ data g = req_data req ∧ e2 = e1 ∧
  ∃ m, metadata g = Some m ∧ bucket m = req_bucket req ∧ key m = req_key req ∧
    content_type m = req_content_type req ∧ size_bytes m = N.of_nat (length (req_data req)) ∧
    state m = Committed ∧ (put_ok r = true → put_object_id r = object_id m).
Proof using.
  intros Hr Hok Hex. destruct (PutObject_run cs req e Hr Hok Hex)
    as (r & e1 & t0 & t & -> & Hr1 & Ht & Hmeta & Hch & _ & Hres & _).
  rewrite GetObject_run. unfold object_view. rewrite Hmeta.
  rewrite deserialize_serialize by (by apply committed_meta_ok).
  rewrite decide_False by done. set (id := req_bucket req ++ _) in *.
  rewrite (chunks_view_data _ _ _ _ _ cs (req_data req)) by (intros j Hj; apply Hch; lia).
  destruct Hok as [_ _ _ [Hc0 _] Hs Hn]. cbn [app chunk_count committed_meta].
  rewrite chunks_all by done. cbn. split_and!; try done.
  eexists. split; [done|]. split_and!; try done. by intros [? _]%Hres.
Qed.

(** ** Listing *)

(** What a listing shows of the object stored under [b] and [k], if anything:
    its index key and readable metadata that is not deleted. *)
Definition listed (m : gmap str str) (b k : str) : option ObjectListEntry :=
  _ ← m !! BucketIndexKey b k;
  meta ← m !! ObjectMetaKey b k ≫= deserialize_metadata;
  if decide (state meta = Deleted) then None
  else Some (mkEntry (key meta) (size_bytes meta) (content_type meta) (etag meta)
               (updated_at_epoch_ms meta)).

Lemma list_entry_run b k e :
  is_Some (map_of e !! BucketIndexKey b k) →
  list_entry b (BucketIndexKey b k) e = (listed (map_of e) b k, e).
Proof using.
  intros [i Hi]. unfold list_entry, listed. rewrite Hi. cbn [mbind option_bind].
  assert (E : BucketIndexKey b k = (b# "bucketidx:" ++ b ++ [colon]) ++ k)
    by (unfold BucketIndexKey; by rewrite <-!app_assoc).
  rewrite E. rewrite decide_False by (rewrite length_app; lia).
  unfold substr_from. rewrite drop_app_length. unfold mbind at 1, ST_bind at 1.
  rewrite get_kv_run. destruct (map_of e !! ObjectMetaKey b k) as [raw|]; [|done]. cbn.
  destruct (deserialize_metadata raw); cbn; [|done]. by case_decide.
Qed.

Lemma list_entries_run b ks e :
  Forall (λ k, is_Some (map_of e !! BucketIndexKey b k)) ks →
  list_entries b (BucketIndexKey b <$> ks) e = (omap (listed (map_of e) b) ks, e).
Proof using.
  induction 1 as [|k ks Hk _ IH]; [done|]. rewrite fmap_cons. cbn [list_entries].
  unfold mbind at 1, ST_bind at 1. rewrite list_entry_run by done.
  unfold mbind at 1, ST_bind at 1. rewrite IH. cbn. by destruct (listed _ _ _).
Qed.

Lemma index_key_split b p k :
  starts_with (BucketIndexKey b p) k = true ↔
  ∃ k', k = BucketIndexKey b k' ∧ starts_with p k' = true.
Proof using.
  unfold BucketIndexKey. split.
  - intros (r & ->)%starts_with_prefix. exists (p ++ r). rewrite <-!app_assoc.
    split; [done|]. apply starts_with_app.
  - intros (k' & -> & (r & ->)%starts_with_prefix). rewrite !(assoc (++)), <-(assoc _ _ p r).
    rewrite (assoc (++) _ p r). apply starts_with_app.
Qed.

(** The object keys of a scan. *)
Lemma index_keys b p e : ∃ ks,
  kv_list (BucketIndexKey b p) (kv_ e) = BucketIndexKey b <$> ks ∧ NoDup ks ∧
  ∀ k, k ∈ ks ↔ starts_with p k = true ∧ is_Some (map_of e !! BucketIndexKey b k).
Proof using.
  set (l := kv_list _ _).
  assert (Hl : ∀ k, k ∈ l ↔ starts_with (BucketIndexKey b p) k = true ∧ is_Some (map_of e !! k))
    by (intros; apply list_law).
  assert (∃ ks, l = BucketIndexKey b <$> ks) as [ks E].
  { assert (Hin : ∀ k, k ∈ l → ∃ k', k = BucketIndexKey b k').
    { intros k [(k' & -> & _)%index_key_split _]%Hl. by eexists. }
    clear Hl. clearbody l. induction l as [|k l IH]; [by exists []|].
    destruct (Hin k) as [k' ->]; [by left|]. destruct IH as [ks ->]; [intros; apply Hin; by right|].
    by exists (k' :: ks). }
  exists ks. split; [done|]. assert (Inj (=) (=) (BucketIndexKey b)).
  { intros x y. unfold BucketIndexKey. intros Q%(inj _)%(inj _). by apply (inj _) in Q. }
  split.
  - apply (NoDup_fmap_1 (BucketIndexKey b)). rewrite <-E. apply list_nodup.
  - intros k. rewrite <-(list_elem_of_fmap_inj (BucketIndexKey b)), <-E, Hl, index_key_split. naive_solver.
Qed.

Lemma ListObjects_run b p e :
  let '(r, e1) := ListObjects b p e in
  e1 = e ∧ (list_ok r = true ↔ b ≠ [] ∧ is_Some (map_of e !! BucketMetaKey b)) ∧
  if list_ok r then ∃ ks, NoDup ks ∧
      (∀ k, k ∈ ks ↔ starts_with p k = true ∧ is_Some (listed (map_of e) b k)) ∧
      Some <$> objects r = listed (map_of e) b <$> ks ∧
      (∀ k, k ∈ ks → is_Some (metadata (GetObject b k e).1))
  else objects r = [].
Proof using.
  unfold ListObjects. case_decide as Hb; [by split_and!; [|split; [|intros []]|]|].
  unfold mbind at 1, ST_bind at 1. rewrite BucketExists_run.
  case_bool_decide as Hex; cbn [negb]; [|split_and!; [done|split; [done|by intros]|done]].
  unfold list_kv, gets. unfold mbind at 1, ST_bind at 1. cbn [fst snd].
  destruct (index_keys b p e) as (ks & -> & Hnd & Hks).
  unfold mbind, ST_bind. rewrite list_entries_run by (apply Forall_forall; intros k [_ ?]%Hks; done).
  cbn. split_and!; [done|done|]. exists (filter (λ k, is_Some (listed (map_of e) b k)) ks).
  split_and!; [by apply NoDup_filter| | |].
  - intros k. rewrite list_elem_of_filter, Hks. split; [naive_solver|]. intros [Hp Hl].
    split_and!; try done. destruct Hl as [x Hl]. unfold listed in Hl.
    by destruct (map_of e !! BucketIndexKey b k).
  - clear. induction ks as [|k ks IH]; [done|]. rewrite filter_cons. cbn.
    destruct (listed (map_of e) b k) eqn:E.
    + rewrite decide_True by done. cbn. by rewrite E, IH.
    + rewrite decide_False by (by intros []). done.
  - intros k [Hl _]%list_elem_of_filter. rewrite GetObject_run. unfold object_view, listed in *.
    destruct (map_of e !! BucketIndexKey b k); [|by destruct Hl].
    destruct (map_of e !! ObjectMetaKey b k) as [raw|]; [|by destruct Hl]. cbn in *.
    destruct (deserialize_metadata raw) as [m|]; [|by destruct Hl]. cbn in *.
    case_decide; [by destruct Hl|]. by destruct (chunks_view _ _ _ _ _).
Qed.

(** ** Deletion *)

Definition deleted_meta (m : ObjectMetadata) (t : N) : ObjectMetadata :=
  mkMeta (object_id m) (bucket m) (key m) (size_bytes m) (chunk_count m) (chunk_size_bytes m)
    (content_type m) (etag m) (created_at_epoch_ms m) t Deleted.

Lemma DeleteObject_run b k e :
  ok_env e → ∃ r e', DeleteObject b k e = (r, e') ∧ ok_env e' ∧
    match map_of e !! ObjectMetaKey b k ≫= deserialize_metadata with
    | Some m => ∃ t, meta_ok (deleted_meta m t) ∧
        map_of e' = delete (BucketIndexKey b k)
          (<[ObjectMetaKey b k := serialize_metadata (deleted_meta m t)]> (map_of e))
    | None => del_ok r = false ∧ e' = e
    end.
Proof using.
  intros Hr. unfold DeleteObject. unfold mbind at 1, ST_bind at 1. rewrite get_kv_run.
  destruct (map_of e !! ObjectMetaKey b k) as [raw|]; [|by eexists _, _]. cbn [mbind option_bind].
  destruct (deserialize_metadata raw) as [m|] eqn:Hm; [|by eexists _, _].
  unfold mbind, ST_bind. destruct (now_run e Hr) as (t & e1 & -> & Ht & Hr1 & Hm1).
  fold (deleted_meta m t).
  destruct (put_kv_run (ObjectMetaKey b k) (serialize_metadata (deleted_meta m t)) e1 Hr1)
    as (e2 & -> & Hr2 & Hm2).
  destruct (del_kv_run (BucketIndexKey b k) e2 Hr2) as (b3 & e3 & -> & Hr3 & Hm3).
  destruct (flush_kv_run e3 Hr3) as (b4 & e4 & -> & Hr4 & Hm4).
  assert (Hok : meta_ok (deleted_meta m t)) by (apply deserialize_ok in Hm as []; by constructor).
  destruct b4; cbn [negb]; unfold mret, ST_ret; eexists _, _; (split; [done|]); (split; [done|]);
    exists t; (split; [done|]); congruence.
Qed.

(** ** Garbage collection *)

(** The object ids of committed metadata under the keys [ks]. *)
Definition live_id (m : gmap str str) (id : str) : Prop :=
  ∃ k raw meta, starts_with (b# "objmeta:") k = true ∧ m !! k = Some raw ∧
    deserialize_metadata raw = Some meta ∧ state meta = Committed ∧ object_id meta = id.

Lemma reachable_ids_run ks e :
  ∃ ids, reachable_ids ks e = (ids, e) ∧
    ∀ id, id ∈ ids ↔ ∃ k raw meta, k ∈ ks ∧ map_of e !! k = Some raw ∧
      deserialize_metadata raw = Some meta ∧ state meta = Committed ∧ object_id meta = id.
Proof using.
  induction ks as [|k ks (ids & E & Hids)]; cbn [reachable_ids].
  { exists ∅. split; [done|]. set_solver. }
  unfold mbind, ST_bind. rewrite get_kv_run, E.
  eexists. split; [done|]. intros id.
  destruct (map_of e !! k) as [raw|] eqn:Hk; cbn [mbind option_bind].
  - destruct (deserialize_metadata raw) as [m|] eqn:Hd.
    + case_decide as Hst; rewrite ?elem_of_union, ?elem_of_singleton, Hids; split.
      * intros [->|(k' & raw' & m' & ? & ?)]; [exists k, raw, m; set_solver|].
        exists k', raw', m'. set_solver.
      * intros (k' & raw' & m' & [->|Hin]%elem_of_cons & Hl & Hd' & Hs' & Hi); [left; congruence|].
        right. by exists k', raw', m'.
      * intros (k' & raw' & m' & ? & ?). exists k', raw', m'. set_solver.
      * intros (k' & raw' & m' & [->|Hin]%elem_of_cons & Hl & Hd' & Hs' & Hi); [congruence|].
        by exists k', raw', m'.
    + rewrite Hids. split; intros (k' & raw' & m' & Hin & Hl & Hd' & Hr); exists k', raw', m'.
      * split; [by right|done].
      * apply elem_of_cons in Hin as [->|?]; [congruence|done].
  - rewrite Hids. split; intros (k' & raw' & m' & Hin & Hl & Hr); exists k', raw', m'.
    + split; [by right|done].
    + apply elem_of_cons in Hin as [->|?]; [congruence|done].
Qed.

(** A chunk key whose object id is not in [ids]. *)
Definition doomed (ids : gset str) (k : str) : bool :=
  match chunk_object_id k with
  | Some id => bool_decide (id ∉ ids)
  | None => false
  end.

Lemma sweep_run ks ids n e :
  ok_env e → ∃ n' e', sweep ks ids n e = (n', e') ∧ ok_env e' ∧
    ∀ k, map_of e' !! k =
      if bool_decide (k ∈ ks) && doomed ids k then None else map_of e !! k.
Proof using.
  revert n e. induction ks as [|k0 ks IH]; intros n e Hr; cbn [sweep].
  { exists n, e. split; [done|]. split; [done|]. intros k.
    by rewrite bool_decide_false by apply not_elem_of_nil. }
  assert (Hskip : doomed ids k0 = false → ∀ k, bool_decide (k ∈ k0 :: ks) && doomed ids k =
    bool_decide (k ∈ ks) && doomed ids k).
  { intros Hd k. destruct (decide (k = k0)) as [->|Hne]; [by rewrite Hd, !andb_false_r|].
    f_equal. apply bool_decide_ext. rewrite elem_of_cons. naive_solver. }
  unfold doomed in Hskip at 1. destruct (chunk_object_id k0) as [id|] eqn:Hc; cycle 1.
  { destruct (IH n e Hr) as (n' & e' & -> & Hr' & Hm). exists n', e'.
    split; [done|]. split; [done|]. intros k. by rewrite Hskip. }
  destruct (decide (id ∈ ids)) as [Hin|Hin].
  { destruct (IH n e Hr) as (n' & e' & -> & Hr' & Hm). exists n', e'.
    split; [done|]. split; [done|]. intros k. rewrite Hskip; [done|].
    rewrite bool_decide_false; [done|]. by intros ?. }
  unfold mbind, ST_bind. destruct (del_kv_run k0 e Hr) as (b & e1 & -> & Hr1 & Hm1).
  destruct (IH (if b then n + 1 else n)%N e1 Hr1) as (n' & e' & -> & Hr' & Hm).
  exists n', e'. split; [done|]. split; [done|]. intros k. rewrite Hm, Hm1.
  destruct (decide (k = k0)) as [->|Hne].
  - rewrite lookup_delete_eq, (bool_decide_true (k0 ∈ k0 :: ks)) by (by left).
    unfold doomed. rewrite Hc, (bool_decide_true (id ∉ ids)) by done. cbn.
    by destruct (bool_decide (k0 ∈ ks)).
  - rewrite lookup_delete_ne by done. f_equal.
    rewrite (bool_decide_ext (k ∈ k0 :: ks) (k ∈ ks)); [done|]. rewrite elem_of_cons. naive_solver.
Qed.

Lemma GarbageCollectChunks_run e :
  ok_env e → ∃ n e', GarbageCollectChunks e = (n, e') ∧ ok_env e' ∧
    ∀ k, (starts_with chunk_prefix k = true →
            ∀ id, chunk_object_id k = Some id → ¬ live_id (map_of e) id → map_of e' !! k = None) ∧
         ((starts_with chunk_prefix k = false ∨ chunk_object_id k = None ∨
           ∃ id, chunk_object_id k = Some id ∧ live_id (map_of e) id) →
          map_of e' !! k = map_of e !! k).
Proof using.
  intros Hr. unfold GarbageCollectChunks. unfold list_kv, gets.
  unfold mbind at 1, ST_bind at 1. unfold mbind at 1, ST_bind at 1.
  destruct (reachable_ids_run (kv_list (b# "objmeta:") (kv_ e)) e) as (ids & -> & Hids).
  unfold mbind at 1, ST_bind at 1. unfold mbind at 1, ST_bind at 1.
  destruct (sweep_run (kv_list chunk_prefix (kv_ e)) ids 0 e Hr) as (n & e1 & -> & Hr1 & Hm1).
  unfold mbind, ST_bind. destruct (flush_kv_run e1 Hr1) as (b & e2 & -> & Hr2 & Hm2).
  exists n, e2. split; [done|]. split; [done|].
  assert (Hlive : ∀ id, id ∈ ids ↔ live_id (map_of e) id).
  { intros id. rewrite Hids. unfold live_id. split; intros (k & raw & m & Hk & Hl & Hrest); exists k, raw, m.
    - apply list_law in Hk as [Hk _]. done.
    - split; [apply list_law; split; [done|by eexists]|done]. }
  intros k. rewrite Hm2, Hm1. unfold doomed. split.
  - intros Hk id Hc Hn. rewrite Hc, (bool_decide_true (id ∉ ids)) by (by rewrite Hlive).
    rewrite andb_true_r. destruct (bool_decide _) eqn:Hb; [done|].
    apply bool_decide_eq_false in Hb. rewrite list_law in Hb. unfold map_of.
    destruct (view (kv_ e) !! k) eqn:Hv; [|done]. exfalso. apply Hb. split; [done|by eexists].
  - intros Hk. destruct (bool_decide (k ∈ _)) eqn:Hb; [|done]. apply bool_decide_eq_true in Hb.
    apply list_law in Hb as [Hp _]. destruct Hk as [Hk|[->|(id & -> & Hid)]]; [congruence|done|].
    rewrite bool_decide_false; [done|]. rewrite <-Hlive in Hid. naive_solver.
Qed.

(** An empty object id is never collected. *)
Lemma chunk_object_id_nil i : chunk_object_id (ChunkKey [] i) = None.
Proof using.
  unfold chunk_object_id, ChunkKey. fold chunk_prefix. cbn [app].
  rewrite rfind_app_none by (apply rfind_none, dec_no_colon). by rewrite decide_True.
Qed.

Lemma live_id_dec m id : live_id m id ∨ ¬ live_id m id.
Proof using.
  destruct (decide (Exists (λ kv, starts_with (b# "objmeta:") kv.1 = true ∧
    option_map (λ x, (state x, object_id x)) (deserialize_metadata kv.2) = Some (Committed, id))
    (map_to_list m))) as [Hl|Hl]; [left|right].
  - apply Exists_exists in Hl as ([k raw] & Hin & Hk & Hd). apply elem_of_map_to_list in Hin.
    cbn in Hd. destruct (deserialize_metadata raw) as [x|] eqn:Hx; [|done].
    cbn in Hd. exists k, raw, x. by simplify_eq.
  - intros (k & raw & x & Hk & Hm & Hd & Hs & Hi). apply Hl, Exists_exists. exists (k, raw).
    split; [by apply elem_of_map_to_list|]. cbn. rewrite Hd. cbn. by rewrite Hs, Hi.
Qed.

(** ** Properties *)

(** C10: Put then get.  On a ready store with an existing bucket, for names and a
    content type without tabs and any data whose size and chunk count fit their fields, [PutObject] followed by
    [GetObject] returns exactly the data, with metadata naming the bucket, the
    key, the content type, the size and state Committed, whether or not the
    final WAL flush succeeded; a result that reports success carries the object
    id of that metadata. *)
Theorem put_get_object cs req e :
  ok_env e → request_ok cs req → is_Some (map_of e !! BucketMetaKey (req_bucket req)) →
  let '(r, e1) := PutObject cs req e in
  let '(g, e2) := GetObject (req_bucket req) (req_key req) e1 in
  found g = true ∧ data g = req_data req ∧ e2 = e1 ∧
  ∃ m, metadata g = Some m ∧ bucket m = req_bucket req ∧ key m = req_key req ∧
    content_type m = req_content_type req ∧ size_bytes m = N.of_nat (length (req_data req)) ∧
    state m = Committed ∧ (put_ok r = true → put_object_id r = object_id m).
Proof using. apply PutObject_get. Qed.

(** Isolation of puts.  A put leaves the result of reading another object
    as it was, when the other object's metadata key is different and its object
    id is not the one just made. *)
Theorem put_preserves_other_objects cs req e b k :
  ok_env e → request_ok cs req → is_Some (map_of e !! BucketMetaKey (req_bucket req)) →
  ObjectMetaKey b k ≠ ObjectMetaKey (req_bucket req) (req_key req) →
  (∀ raw m t, map_of e !! ObjectMetaKey b k = Some raw → deserialize_metadata raw = Some m →
     object_id m ≠ req_bucket req ++ [colon] ++ req_key req ++ [colon] ++ dec t) →
  (GetObject b k (PutObject cs req e).2).1 = (GetObject b k e).1.
Proof using.
  intros Hr Hok Hex Hne Hid. destruct (PutObject_run cs req e Hr Hok Hex)
    as (r & e1 & t0 & t & -> & Hr1 & Ht & _ & _ & Hout & _). cbn [snd].
  rewrite !GetObject_run. cbn [fst]. unfold object_view.
  rewrite Hout; [|done|apply meta_ne_index|intros j E; symmetry in E; by apply chunk_ne_meta in E].
  destruct (map_of e !! ObjectMetaKey b k) as [raw|] eqn:Hraw; [|done].
  destruct (deserialize_metadata raw) as [m|] eqn:Hm; [|done]. case_decide; [done|].
  rewrite (chunks_view_ext (map_of e1) (map_of e)); [done|]. intros j _.
  apply Hout; [apply chunk_ne_meta|apply chunk_ne_index|].
  intros j' E. specialize (Hid raw m t0 eq_refl Hm). apply Hid. unfold ChunkKey in E.
  apply app_inv_head in E.
  assert (rfind colon (object_id m ++ [colon] ++ dec j) = Some (length (object_id m))) as R1
    by (apply rfind_app_none, rfind_none, dec_no_colon).
  rewrite E in R1. set (id := req_bucket req ++ _) in *.
  assert (rfind colon (id ++ [colon] ++ dec j') = Some (length id)) as R2
    by (apply rfind_app_none, rfind_none, dec_no_colon).
  rewrite R1 in R2. injection R2 as R2. by apply app_inj_1 in E as [? _].
Qed.

(** Deletion.  Deleting an object whose metadata can be read makes every
    later read of it report that it is deleted, whatever bytes the metadata held
    and whether or not the WAL flush succeeded; a missing object is reported and
    nothing changes. *)
Theorem delete_object b k e :
  ok_env e →
  let '(r, e1) := DeleteObject b k e in
  match map_of e !! ObjectMetaKey b k ≫= deserialize_metadata with
  | Some _ => GetObject b k e1 = (mkGetResult false (b# "object is deleted") None [], e1)
  | None => del_ok r = false ∧ e1 = e
  end.
Proof using.
  intros Hr. destruct (DeleteObject_run b k e Hr) as (r & e1 & -> & Hr1 & Hm).
  destruct (map_of e !! _ ≫= _) as [m|]; [|done]. destruct Hm as (t & Hok & Hm1).
  rewrite GetObject_run. unfold object_view.
  rewrite Hm1, lookup_delete_ne, lookup_insert_eq by (intros E; symmetry in E; by apply meta_ne_index in E).
  by rewrite deserialize_serialize.
Qed.

(** C33: Listing is exact.  For an existing bucket [ListObjects] succeeds and
    returns, each once, the entries of exactly the object keys that start with
    the prefix and have an index key and readable, undeleted metadata; an object
    that is listed is one whose read does not report a missing, unreadable or
    deleted metadata record; a missing bucket is an error and lists nothing;
    nothing is changed. *)
Theorem list_objects_exact b p e :
  let '(r, e1) := ListObjects b p e in
  e1 = e ∧ (list_ok r = true ↔ b ≠ [] ∧ is_Some (map_of e !! BucketMetaKey b)) ∧
  if list_ok r then ∃ ks, NoDup ks ∧
      (∀ k, k ∈ ks ↔ starts_with p k = true ∧ is_Some (listed (map_of e) b k)) ∧
      Some <$> objects r = listed (map_of e) b <$> ks ∧
      (∀ k, k ∈ ks → is_Some (metadata (GetObject b k e).1))
  else objects r = [].
Proof using. apply ListObjects_run. Qed.

(** C13: Garbage collection is safe and complete.  [GarbageCollectChunks] changes
    the answer of no read of a committed or deleted object, touches no key that
    is not a chunk, and leaves no chunk whose object id is not the id of some
    committed metadata. *)
Theorem gc_safe_and_complete e b k :
  ok_env e →
  let e1 := (GarbageCollectChunks e).2 in
  (∀ key_, starts_with chunk_prefix key_ = false → map_of e1 !! key_ = map_of e !! key_) ∧
  (∀ id i, id ≠ [] → is_Some (map_of e1 !! ChunkKey id i) → live_id (map_of e) id) ∧
  ((∀ raw m, map_of e !! ObjectMetaKey b k = Some raw → deserialize_metadata raw = Some m →
      state m = Committed ∨ state m = Deleted) →
   (GetObject b k e1).1 = (GetObject b k e).1).
Proof using.
  intros Hr. cbv zeta. destruct (GarbageCollectChunks_run e Hr) as (n & e1 & -> & Hr1 & Hgc).
  cbn [snd]. split; [|split].
  - intros key_ Hk. apply Hgc. by left.
  - intros id i Hid [c Hc]. destruct (live_id_dec (map_of e) id) as [Hl|Hl]; [done|].
    destruct (Hgc (ChunkKey id i)) as [Hdel _].
    rewrite (Hdel eq_refl id) in Hc; [done|by apply chunk_object_id_key|done].
  - intros Hst. rewrite !GetObject_run. cbn [fst]. unfold object_view.
    rewrite (proj2 (Hgc (ObjectMetaKey b k))) by (by left).
    destruct (map_of e !! ObjectMetaKey b k) as [raw|] eqn:Hraw; [|done].
    destruct (deserialize_metadata raw) as [m|] eqn:Hm; [|done].
    destruct (Hst raw m eq_refl Hm) as [Hs|Hs]; [|by rewrite !decide_True].
    case_decide; [done|]. rewrite (chunks_view_ext (map_of e1) (map_of e)); [done|].
    intros j _. apply Hgc. right. destruct (decide (object_id m = [])) as [E|E].
    + left. rewrite E. apply chunk_object_id_nil.
    + right. exists (object_id m). split; [by apply chunk_object_id_key|].
      exists (ObjectMetaKey b k), raw, m. done.
Qed.

(** Garbage collection races with puts.  [PutObject] writes the chunks of an
    object before its metadata; a collection that runs in between, when no
    committed metadata names the new id yet, deletes them, and the object that
    is then committed cannot be read. *)
Theorem gc_between_chunks_and_commit cs req id t e :
  ok_env e → request_ok cs req → id ≠ [] → tab ∉ id → fits 64 t → req_data req ≠ [] →
  ¬ live_id (map_of e) id →
  let n := N.to_nat (chunks_of cs (N.of_nat (length (req_data req)))) in
  let e1 := (write_chunks n 0 id cs (req_data req) e).2 in
  let e2 := (GarbageCollectChunks e1).2 in
  let e3 := (commit_object cs req id t e2).2 in
  found (GetObject (req_bucket req) (req_key req) e3).1 = false ∧
  get_error (GetObject (req_bucket req) (req_key req) e3).1 =
    b# "missing object chunk at index 0".
Proof using.
  intros Hr Hok Hid Htab Ht Hdata Hlive n e1 e2 e3.
  destruct (write_chunks_run n 0 id cs (req_data req) e Hr) as (e1' & E1 & Hr1 & _ & Hout).
  assert (Hl1 : ¬ live_id (map_of e1') id).
  { intros (k & raw & m & Hk & Hl & Hrest). apply Hlive. exists k, raw, m. split; [done|].
    rewrite <-Hout; [done|]. intros j _ ->. discriminate. }
  destruct (GarbageCollectChunks_run e1' Hr1) as (g & e2' & E2 & Hr2 & Hgc).
  destruct (commit_object_run cs req id t e2' Hr2) as (r & e3' & E3 & Hr3 & Hm3 & _).
  assert (e3 = e3') as ->.
  { unfold e3, e2, e1. by rewrite E1; cbn [snd]; rewrite E2; cbn [snd]; rewrite E3. }
  assert (Hgone : map_of e3' !! ChunkKey id 0 = None).
  { rewrite Hm3, !lookup_insert_ne by
      (intros E; symmetry in E; first [by apply chunk_ne_index in E | by apply chunk_ne_meta in E]).
    destruct (Hgc (ChunkKey id 0)) as [Hdel _]. apply (Hdel eq_refl id); [|done].
    by apply chunk_object_id_key. }
  assert (Hn : ∃ p, N.to_nat (chunks_of cs (N.of_nat (length (req_data req)))) = Datatypes.S p).
  { destruct Hok as [_ _ _ [Hc0 _] Hs Hc]. unfold chunks_of.
    rewrite (wrap_fits 64), (wrap_fits 32) by done.
    assert (0 < N.of_nat (length (req_data req)))%N by (destruct (req_data req); [done|cbn; lia]).
    assert (1 ≤ (N.of_nat (length (req_data req)) + cs - 1) / cs)%N
      by (apply N.div_le_lower_bound; lia).
    exists (N.to_nat ((N.of_nat (length (req_data req)) + cs - 1) / cs) - 1). lia. }
  destruct Hn as [p Hp].
  rewrite GetObject_run. unfold object_view.
  rewrite Hm3, lookup_insert_ne by (intros E; symmetry in E; by apply meta_ne_index in E).
  rewrite lookup_insert_eq, deserialize_serialize.
  - rewrite decide_False by done. cbn [chunk_count committed_meta object_id]. rewrite Hp.
    cbn [chunks_view]. by rewrite <-Hm3, Hgone.
  - destruct Hok as [[_ Hb] [_ Hk] Hct [Hc0 Hc] Hs Hcount].
    constructor; cbn; try done; [apply hex_no_tab|unfold fits in *; lia|apply fits_wrap].
Qed.

End Spec.

(** The metadata codec round trips: metadata whose strings hold no tab and
    whose numbers fit their fields is read back as it was written, and whatever
    bytes [deserialize_metadata] accepts, writing the result back and reading it
    again gives the same metadata. *)
Theorem metadata_roundtrip m :
  (meta_ok m → deserialize_metadata (serialize_metadata m) = Some m) ∧
  (∀ s, deserialize_metadata s = Some m → deserialize_metadata (serialize_metadata m) = Some m).
Proof.
  split; [apply deserialize_serialize|]. intros s Hs. by eapply deserialize_serialize, deserialize_ok.
Qed.

(** Object keys.  For buckets without a colon the metadata keys of different
    objects differ; [CreateBucket] does not exclude a colon, and with one the
    keys of two different objects coincide. *)
Theorem object_keys_injective_without_colons b1 k1 b2 k2 :
  (colon ∉ b1 → colon ∉ b2 → ObjectMetaKey b1 k1 = ObjectMetaKey b2 k2 → b1 = b2 ∧ k1 = k2) ∧
  ObjectMetaKey (b1 ++ [colon] ++ b2) k1 = ObjectMetaKey b1 (b2 ++ [colon] ++ k1).
Proof.
  split.
  - unfold ObjectMetaKey. intros H1 H2 E. apply app_inv_head in E. cbn [app] in E.
    pose proof (until_app colon b1 k1 H1) as U1. rewrite E, until_app in U1 by done. by simplify_eq.
  - unfold ObjectMetaKey. by rewrite <-!app_assoc.
Qed.

(** ** Witnesses: the object store on the key-value store *)

#[local] Existing Instances libstdcxx_abi some_map_order.
#[local] Instance example_hash : StdHash := λ s, N.of_nat (length s).

(** An open store that holds one bucket. *)
Definition example_bucket : str := b# "b".
Definition example_store : KVStore.KVStore :=
  KVStore.set_map {[ BucketMetaKey example_bucket := b# "b" ]} KVWrites.example_store.
Definition example_env : ObjectStore.Env (S := KVStore.KVStore * World) :=
  mkEnv (example_store, KVWrites.example_world []) [1000; 1001; 1002]%N 0.
Definition example_request (k data : str) : PutObjectRequest :=
  mkPut example_bucket k data (b# "text/plain").

Lemma example_env_ok : ok_env example_env.
Proof. split; [reflexivity|discriminate]. Qed.

Lemma example_request_ok k data :
  bool_decide (k ≠ [] ∧ tab ∉ k ∧ length data < 100) = true → request_ok 4 (example_request k data).
Proof.
  intros (Hne & Ht & Hl)%bool_decide_eq_true. constructor; cbn.
  - split; by apply (bool_decide_unpack _).
  - done.
  - by apply (bool_decide_unpack _).
  - done.
  - unfold fits. lia.
  - unfold fits. apply N.le_lt_trans with (N.of_nat (length data) + 4 - 1)%N; [|lia].
    apply N.div_le_upper_bound; lia.
Qed.

Lemma put_get_object_witness :
  let '(r, e1) := PutObject 4 (example_request (b# "o") (b# "0123456789")) example_env in
  let '(g, e2) := GetObject example_bucket (b# "o") e1 in
  found g = true ∧ data g = b# "0123456789" ∧ e2 = e1 ∧
  ∃ m, metadata g = Some m ∧ bucket m = example_bucket ∧ key m = b# "o" ∧
    content_type m = b# "text/plain" ∧ size_bytes m = N.of_nat 10 ∧
    state m = Committed ∧ (put_ok r = true → put_object_id r = object_id m).
Proof.
  apply (put_get_object 4 (example_request (b# "o") (b# "0123456789")) example_env).
  - apply example_env_ok.
  - by apply example_request_ok.
  - by eexists.
Defined.

Lemma put_preserves_other_objects_witness :
  let e := (PutObject 4 (example_request (b# "o1") (b# "first")) example_env).2 in
  (GetObject example_bucket (b# "o1")
     (PutObject 4 (example_request (b# "o2") (b# "second")) e).2).1 =
  (GetObject example_bucket (b# "o1") e).1.
Proof.
  cbv zeta. apply put_preserves_other_objects.
  - split; [vm_compute; reflexivity|vm_compute; discriminate].
  - by apply example_request_ok.
  - vm_compute. by eexists.
  - vm_compute. discriminate.
  - intros raw m t Hraw Hm. vm_compute in Hraw. injection Hraw as <-.
    vm_compute in Hm. injection Hm as <-. cbn. discriminate.
Defined.

Lemma delete_object_witness :
  let e := (PutObject 4 (example_request (b# "o") (b# "0123456789")) example_env).2 in
  let '(r, e1) := DeleteObject example_bucket (b# "o") e in
  match map_of e !! ObjectMetaKey example_bucket (b# "o") ≫= deserialize_metadata with
  | Some _ => GetObject example_bucket (b# "o") e1 = (mkGetResult false (b# "object is deleted") None [], e1)
  | None => del_ok r = false ∧ e1 = e
  end.
Proof.
  cbv zeta. apply delete_object. split; [vm_compute; reflexivity|vm_compute; discriminate].
Defined.

Lemma list_objects_exact_witness :
  let e := (PutObject 4 (example_request (b# "o1") (b# "first")) example_env).2 in
  let e := (PutObject 4 (example_request (b# "p1") (b# "other")) e).2 in
  let '(r, e1) := ListObjects example_bucket (b# "o") e in
  e1 = e ∧ entry_key <$> objects r = [b# "o1"].
Proof.
  set (e0 := (PutObject 4 (example_request (b# "o1") (b# "first")) example_env).2). cbv zeta.
  set (e := (PutObject 4 (example_request (b# "p1") (b# "other")) e0).2).
  pose proof (list_objects_exact example_bucket (b# "o") e) as P.
  assert (E : entry_key <$> objects (ListObjects example_bucket (b# "o") e).1 = [b# "o1"])
    by (vm_compute; reflexivity).
  destruct (ListObjects _ _ e) as [r e1]. split; [apply P|exact E].
Defined.

Lemma gc_safe_and_complete_witness :
  let e := (PutObject 4 (example_request (b# "o") (b# "0123456789")) example_env).2 in
  let e1 := (GarbageCollectChunks e).2 in
  (∀ key_, starts_with chunk_prefix key_ = false → map_of e1 !! key_ = map_of e !! key_) ∧
  (∀ id i, id ≠ [] → is_Some (map_of e1 !! ChunkKey id i) → live_id (map_of e) id) ∧
  ((∀ raw m, map_of e !! ObjectMetaKey example_bucket (b# "o") = Some raw →
      deserialize_metadata raw = Some m → state m = Committed ∨ state m = Deleted) →
   (GetObject example_bucket (b# "o") e1).1 = (GetObject example_bucket (b# "o") e).1).
Proof.
  cbv zeta. apply gc_safe_and_complete. split; [vm_compute; reflexivity|vm_compute; discriminate].
Defined.

Lemma gc_between_chunks_and_commit_witness :
  let req := example_request (b# "o") (b# "0123456789") in
  let e1 := (write_chunks 3 0 (b# "b:o:1000") 4 (req_data req) example_env).2 in
  let e2 := (GarbageCollectChunks e1).2 in
  let e3 := (commit_object 4 req (b# "b:o:1000") 1001 e2).2 in
  found (GetObject (req_bucket req) (req_key req) e3).1 = false ∧
  get_error (GetObject (req_bucket req) (req_key req) e3).1 = b# "missing object chunk at index 0".
Proof.
  cbv zeta. apply (gc_between_chunks_and_commit 4 (example_request (b# "o") (b# "0123456789"))
    (b# "b:o:1000") 1001 example_env).
  - apply example_env_ok.
  - by apply example_request_ok.
  - discriminate.
  - by apply (bool_decide_unpack _).
  - reflexivity.
  - discriminate.
  - intros (k & raw & m & Hp & Hk & _). cbn in Hk.
    apply lookup_singleton_Some in Hk as [<- _]. vm_compute in Hp. discriminate.
Defined.

End ObjectSpec.
