(* ===== verification/ObjectTypes.v ===== *)
(** * The object store's key space is typed

    [typed] says what each key of the store holds: bucket records, object
    metadata, index entries and the chunks of committed objects, and how they
    refer to each other.  Every operation of [object_store.cpp] preserves it,
    and in a typed store no read fails on stored bytes. *)

From S2P Require Import Prelude CxxString FileSystem MemTable Wal KVStore KVWrites KVInterface ObjectStore ObjectSpec.
Import CxxString.

Module ObjectTypes.
Import ObjectStore ObjectSpec.

(** ** The type of a store *)

Definition meta_key (s : str) : str := b# "objmeta:" ++ s.
Definition index_key (s : str) : str := b# "bucketidx:" ++ s.

(** The chunks a piece of metadata names are there. *)
Definition complete (m : gmap str str) (meta : ObjectMetadata) : Prop :=
  ∀ i, (i < chunk_count meta)%N → is_Some (m !! ChunkKey (object_id meta) i).

(** Metadata under the suffix [s] of its key: it names its own key; committed, it
    is indexed and its chunks are there; otherwise it is deleted and not indexed. *)
Record meta_typed (m : gmap str str) (s : str) (meta : ObjectMetadata) : Prop := mkMetaTyped {
  mt_ok : meta_ok meta;
  mt_name : s = bucket meta ++ [colon] ++ key meta;
  mt_state : state meta = Committed ∧ complete m meta ∧ m !! index_key s = Some (object_id meta) ∨
             state meta = Deleted ∧ m !! index_key s = None;
}.

Record typed (m : gmap str str) : Prop := mkTyped {
  ty_bucket b raw : m !! BucketMetaKey b = Some raw →
    ∃ bm, deserialize_bucket_meta raw = Some bm ∧ bucket_name bm = b;
  ty_meta s raw : m !! meta_key s = Some raw →
    ∃ meta, deserialize_metadata raw = Some meta ∧ meta_typed m s meta;
  ty_index s : is_Some (m !! index_key s) → is_Some (m !! meta_key s);
}.

(** ** The operations as one type *)

Section Types.
Context {S : Type} `{KVLaws S, StdHash}.

Inductive Op :=
  | OCreate (b : str) | OPut (cs : N) (req : PutObjectRequest) | OGet (b k : str)
  | ODelete (b k : str) | OList (b p : str) | OCollect.

Definition run_op (o : Op) (e : @Env S) : @Env S :=
  match o with
  | OCreate b => (CreateBucket b e).2
  | OPut cs req => (PutObject cs req e).2
  | OGet b k => (GetObject b k e).2
  | ODelete b k => (DeleteObject b k e).2
  | OList b p => (ListObjects b p e).2
  | OCollect => (GarbageCollectChunks e).2
  end.

Definition run_ops (os : list Op) (e : @Env S) : @Env S := foldl (λ e o, run_op o e) e os.

(** Arguments the stored formats can carry. *)
Definition op_ok (o : Op) : Prop :=
  match o with
  | OCreate b => tab ∉ b
  | OPut cs req => request_ok cs req
  | _ => True
  end.

(** ** Keys *)

Lemma meta_key_eq b k : ObjectMetaKey b k = meta_key (b ++ [colon] ++ k).
Proof using. done. Qed.
Lemma index_key_eq b k : BucketIndexKey b k = index_key (b ++ [colon] ++ k).
Proof using. done. Qed.
Lemma meta_key_inj s t : meta_key s = meta_key t → s = t.
Proof using. by intros ?%app_inv_head. Qed.
Lemma index_key_inj s t : index_key s = index_key t → s = t.
Proof using. by intros ?%app_inv_head. Qed.

(** ** Each operation *)

Lemma typed_empty : typed ∅.
Proof using. split; intros *; rewrite !lookup_empty; [done|done|by intros []]. Qed.

Lemma bucket_meta_roundtrip b t :
  tab ∉ b → fits 64 t → deserialize_bucket_meta (serialize_bucket_meta (mkBucket b t)) = Some (mkBucket b t).
Proof using.
  intros Hb Ht. unfold deserialize_bucket_meta, serialize_bucket_meta. cbn [bucket_name app].
  rewrite getline_app by done. cbn [mbind option_bind].
  rewrite getline_last by auto using dec_no_tab, dec_nonempty. cbn [mbind option_bind].
  by rewrite stoull_dec.
Qed.

(** Keys the type does not mention, and more chunks, do not matter. *)
Lemma typed_mono m m' :
  typed m →
  (∀ k, starts_with chunk_prefix k = false → m' !! k = m !! k) →
  (∀ s raw meta, m !! meta_key s = Some raw → deserialize_metadata raw = Some meta →
     state meta = Committed → complete m meta → complete m' meta) →
  typed m'.
Proof using.
  intros [Tb Tm Ti] Hk Hc. split.
  - intros b raw. rewrite Hk by done. apply Tb.
  - intros s raw Hraw. rewrite Hk in Hraw by done. destruct (Tm _ _ Hraw) as (meta & Hd & [Hok Hn Hs]).
    exists meta. split; [done|]. split; [done|done|]. rewrite Hk by done.
    destruct Hs as [(Hst & Hcm & Hi)|Hs]; [left|by right]. split_and!; eauto.
  - intros s. rewrite !Hk by done. apply Ti.
Qed.

Lemma create_typed b e :
  ok_env e → tab ∉ b → typed (map_of e) →
  ok_env (CreateBucket b e).2 ∧ typed (map_of (CreateBucket b e).2).
Proof using.
  intros Hr Hb HT. unfold CreateBucket. case_decide; [done|].
  unfold mbind, ST_bind. rewrite get_kv_run. destruct (map_of e !! _) as [v|] eqn:Hv; [done|].
  destruct (now_run e Hr) as (t & e1 & -> & Ht & Hr1 & Hm1).
  destruct (put_kv_run (BucketMetaKey b) (serialize_bucket_meta (mkBucket b t)) e1 Hr1)
    as (e2 & -> & Hr2 & Hm2). cbn. split; [done|]. rewrite Hm2, Hm1. destruct HT as [Tb Tm Ti]. split.
  - intros b' raw. destruct (decide (b' = b)) as [->|Hne].
    + rewrite lookup_insert_eq. intros [= <-]. eexists. split; [by apply bucket_meta_roundtrip|done].
    + rewrite lookup_insert_ne; [apply Tb|]. intros E%app_inv_head. by subst.
  - intros s raw. rewrite lookup_insert_ne by done. intros Hraw.
    destruct (Tm _ _ Hraw) as (meta & Hd & [Hok Hn Hs]). exists meta. split; [done|].
    split; [done|done|]. rewrite lookup_insert_ne by done.
    destruct Hs as [(Hst & Hcm & Hi)|Hs]; [left|by right]. split_and!; [done| |done].
    intros i Hi'. rewrite lookup_insert_ne by done. by apply Hcm.
  - intros s. rewrite !lookup_insert_ne by done. apply Ti.
Qed.

Lemma put_typed cs req e :
  ok_env e → request_ok cs req → typed (map_of e) →
  ok_env (PutObject cs req e).2 ∧ typed (map_of (PutObject cs req e).2).
Proof using.
  intros Hr Hok HT.
  destruct (decide (is_Some (map_of e !! BucketMetaKey (req_bucket req)))) as [Hex|Hex]; cycle 1.
  { destruct Hok as [[Hb _] [Hk _] _ _ _ _]. unfold PutObject. rewrite !decide_False by done.
    unfold mbind, ST_bind. rewrite BucketExists_run, bool_decide_false by naive_solver. done. }
  destruct (PutObject_run cs req e Hr Hok Hex)
    as (r & e1 & t0 & t & -> & Hr1 & Ht & Hmeta & Hch & Hout & _ & Hidx & Hkeep).
  cbn [snd]. split; [done|]. rewrite meta_key_eq in Hmeta, Hout. rewrite index_key_eq in Hidx, Hout.
  set (s0 := req_bucket req ++ [colon] ++ req_key req) in *.
  set (id := req_bucket req ++ [colon] ++ req_key req ++ _) in *.
  destruct HT as [Tb Tm Ti]. split.
  - intros b raw. rewrite Hout by done. apply Tb.
  - intros s raw Hraw. destruct (decide (s = s0)) as [->|Hne].
    + rewrite Hmeta in Hraw. injection Hraw as <-. exists (committed_meta cs req id t).
      assert (Hm : meta_ok (committed_meta cs req id t)) by (by apply committed_meta_ok).
      split; [by apply deserialize_serialize|]. split; [done|done|]. left.
      split; [done|]. split; [|done]. intros i Hi. eexists. exact (Hch i Hi).
    + rewrite Hout in Hraw by (try done; by intros ?%meta_key_inj).
      destruct (Tm _ _ Hraw) as (meta & Hd & [Hmo Hn Hs]). exists meta. split; [done|].
      split; [done|done|]. rewrite Hout by (try done; by intros ?%index_key_inj).
      destruct Hs as [(Hst & Hcm & Hi)|Hs]; [left|by right]. split_and!; [done| |done].
      intros i Hi'. by apply Hkeep, Hcm.
  - intros s. destruct (decide (s = s0)) as [->|Hne]; [by rewrite Hmeta|].
    rewrite Hout by (try done; by intros ?%index_key_inj).
    intros Hs%Ti. by apply Hkeep.
Qed.

Lemma delete_typed b k e :
  ok_env e → typed (map_of e) →
  ok_env (DeleteObject b k e).2 ∧ typed (map_of (DeleteObject b k e).2).
Proof using.
  intros Hr HT. destruct (DeleteObject_run b k e Hr) as (r & e1 & -> & Hr1 & Hm). cbn [snd].
  split; [done|]. destruct HT as [Tb Tm Ti].
  destruct (map_of e !! ObjectMetaKey b k) as [raw|] eqn:Hraw; cbn [mbind option_bind] in Hm;
    [|by destruct Hm as [_ ->]].
  rewrite meta_key_eq in Hraw, Hm. rewrite index_key_eq in Hm.
  set (s0 := b ++ [colon] ++ k) in *. destruct (Tm _ _ Hraw) as (m & Hd & [Hmo Hn Hs]). rewrite Hd in Hm.
  destruct Hm as (t & Hok & ->). split.
  - intros b' raw'. rewrite lookup_delete_ne, lookup_insert_ne by done. apply Tb.
  - intros s raw'. rewrite lookup_delete_ne by done. destruct (decide (s = s0)) as [->|Hne].
    + rewrite lookup_insert_eq. intros [= <-]. exists (deleted_meta m t).
      split; [by apply deserialize_serialize|]. split; [done|done|]. right. by rewrite lookup_delete_eq.
    + rewrite lookup_insert_ne by (by intros ?%meta_key_inj). intros Hraw'.
      destruct (Tm _ _ Hraw') as (m' & Hd' & [Hmo' Hn' Hs']). exists m'. split; [done|].
      split; [done|done|]. rewrite lookup_delete_ne by (by intros ?%index_key_inj).
      rewrite lookup_insert_ne by done.
      destruct Hs' as [(Hst & Hcm & Hi)|Hs']; [left|by right]. split_and!; [done| |done].
      intros i Hi'. rewrite lookup_delete_ne, lookup_insert_ne by done. by apply Hcm.
  - intros s. rewrite (lookup_delete_ne _ _ (meta_key s)) by done.
    destruct (decide (s = s0)) as [->|Hne]; [by rewrite lookup_insert_eq|].
    rewrite lookup_delete_ne, !lookup_insert_ne
      by (try done; first [by intros ?%index_key_inj|by intros ?%meta_key_inj]).
    apply Ti.
Qed.

Lemma collect_typed e :
  ok_env e → typed (map_of e) →
  ok_env (GarbageCollectChunks e).2 ∧ typed (map_of (GarbageCollectChunks e).2).
Proof using.
  intros Hr HT. destruct (GarbageCollectChunks_run e Hr) as (n & e1 & -> & Hr1 & Hgc). cbn [snd].
  split; [done|]. apply (typed_mono (map_of e)); [done| |].
  - intros k Hk. apply Hgc. by left.
  - intros s raw meta Hraw Hd Hst Hcm i Hi. rewrite (proj2 (Hgc _)); [by apply Hcm|]. right.
    destruct (decide (object_id meta = [])) as [E|E]; [left; rewrite E; apply chunk_object_id_nil|].
    right. exists (object_id meta). split; [by apply chunk_object_id_key|].
    by exists (meta_key s), raw, meta.
Qed.

Lemma run_op_typed o e :
  op_ok o → ok_env e ∧ typed (map_of e) → ok_env (run_op o e) ∧ typed (map_of (run_op o e)).
Proof using.
  intros Ho [Hr HT]. destruct o; cbn in Ho |- *.
  - by apply create_typed.
  - by apply put_typed.
  - by rewrite GetObject_run.
  - by apply delete_typed.
  - pose proof (ListObjects_run b p e) as L. destruct (ListObjects b p e) as [r e1].
    by destruct L as (-> & _).
  - by apply collect_typed.
Qed.

Lemma run_ops_typed os e :
  Forall op_ok os → ok_env e ∧ typed (map_of e) →
  ok_env (run_ops os e) ∧ typed (map_of (run_ops os e)).
Proof using.
  intros Hos. revert e. induction Hos as [|o os Ho _ IH]; intros e He; [done|]. by apply IH, run_op_typed.
Qed.

(** Reads in a typed store. *)
Lemma chunks_view_found m n i id acc :
  (∀ j, (i ≤ j < i + N.of_nat n)%N → is_Some (m !! ChunkKey id j)) →
  ∃ bytes, chunks_view m n i id acc = inr bytes.
Proof using.
  revert i acc. induction n as [|n IH]; intros i acc Hj; [by eexists|]. cbn [chunks_view].
  destruct (Hj i) as [c ->]; [lia|]. apply IH. intros j ?. apply Hj. lia.
Qed.

Lemma typed_get m b k :
  typed m →
  match m !! ObjectMetaKey b k with
  | None => object_view m b k = mkGetResult false (b# "object metadata not found") None []
  | Some raw => ∃ meta, deserialize_metadata raw = Some meta ∧
      if decide (is_Some (m !! BucketIndexKey b k))
      then ∃ bytes, object_view m b k = mkGetResult true [] (Some meta) bytes
      else object_view m b k = mkGetResult false (b# "object is deleted") None []
  end.
Proof using.
  intros [_ Tm _]. unfold object_view. rewrite index_key_eq, meta_key_eq.
  destruct (m !! meta_key _) as [raw|] eqn:Hraw; [|done].
  destruct (Tm _ _ Hraw) as (meta & -> & [_ _ Hs]). exists meta. split; [done|].
  destruct Hs as [(Hst & Hc & ->)|(Hst & ->)].
  - rewrite decide_True by (by eexists). rewrite decide_False by (by rewrite Hst).
    destruct (chunks_view_found m (N.to_nat (chunk_count meta)) 0 (object_id meta) []) as [bytes ->];
      [|by eexists]. intros j Hj. apply Hc. lia.
  - rewrite decide_False by (by intros []). by rewrite decide_True.
Qed.

(** C14: The object store is type safe.  From a store whose keys are typed (the
    empty one is), any sequence of operations with arguments the formats can
    carry leaves a ready store whose keys are typed, whatever flushes failed; in
    it a read either reports missing metadata, or a deleted object, or returns the
    data, never unreadable metadata or a missing chunk, and it returns the data
    exactly for the objects that have an index key. *)
Theorem operations_keep_store_typed os e b k :
  ok_env e → typed (map_of e) → Forall op_ok os →
  let e1 := run_ops os e in
  let g := (GetObject b k e1).1 in
  ok_env e1 ∧ typed (map_of e1) ∧
  (found g = true ↔ is_Some (map_of e1 !! BucketIndexKey b k)) ∧
  (found g = false →
     get_error g = if decide (is_Some (map_of e1 !! ObjectMetaKey b k))
                   then b# "object is deleted" else b# "object metadata not found").
Proof using.
  intros Hr HT Hos e1 g. destruct (run_ops_typed os e Hos (conj Hr HT)) as [Hr1 HT1].
  split; [done|]. split; [done|]. subst g. rewrite GetObject_run. cbn [fst].
  pose proof (typed_get _ b k HT1) as G. fold e1 in HT1, G |- *. clearbody e1.
  destruct (map_of e1 !! ObjectMetaKey b k) as [raw|] eqn:Hraw.
  - destruct G as (meta & _ & G). rewrite (decide_True (P := is_Some (Some raw))) by done.
    case_decide as Hi; [destruct G as [bytes ->]|rewrite G]; (split; [|done]); by split.
  - rewrite G. rewrite (decide_False (P := is_Some None)) by (by intros []). split; [|done].
    split; [done|]. intros Hi. exfalso. apply (ty_index _ HT1) in Hi. rewrite meta_key_eq in Hraw.
    rewrite Hraw in Hi. by destruct Hi.
Qed.

End Types.

(** ** Witness *)

#[local] Existing Instances libstdcxx_abi some_map_order.
#[local] Instance example_hash : StdHash := λ s, N.of_nat (length s).

(** Two versions of one object, another object, a deletion and a collection. *)
Definition example_ops : list Op :=
  [OCreate example_bucket; OPut 4 (example_request (b# "o") (b# "first"));
   OPut 4 (example_request (b# "o") (b# "second")); OPut 4 (example_request (b# "p") (b# "other"));
   ODelete example_bucket (b# "p"); OCollect].

Lemma operations_keep_store_typed_witness :
  let e1 := run_ops example_ops (mkEnv (KVStore.set_map ∅ KVWrites.example_store,
    KVWrites.example_world []) [1000; 1001; 1002; 1003]%N 0) in
  typed (map_of e1) ∧
  found (GetObject example_bucket (b# "o") e1).1 = true ∧
  get_error (GetObject example_bucket (b# "p") e1).1 = b# "object is deleted".
Proof.
  set (e0 := mkEnv _ _ _). cbv zeta.
  assert (Hr : ok_env e0) by (split; [reflexivity|discriminate]).
  assert (Ho : Forall op_ok example_ops).
  { repeat constructor; try (by apply example_request_ok); by apply (bool_decide_unpack _). }
  pose proof (λ k, operations_keep_store_typed example_ops e0 example_bucket k Hr typed_empty Ho) as P.
  split; [apply (P [])|]. split; vm_compute; reflexivity.
Defined.

End ObjectTypes.
