(* ===== verification/ObjectDurability.v ===== *)
(** * Objects across restarts

    The object store on the key-value store, its write-ahead log and the disk:
    an object whose [PutObject] or [DeleteObject] has reported success is read
    back the same by a process that opens the disk afterwards. *)

From S2P Require Import Prelude CxxString FileSystem MemTable Compactor Wal FlushWorker KVStore KVWrites KVRecovery KVInterface ObjectStore ObjectSpec.
Import CxxString.

Module ObjectDurability.
Import KVStore KVRecovery ObjectStore ObjectSpec.

Section Durability.
Context `{Abi, SortVersions, MapOrder, StdHash}.

(** [std::hash] returns a [size_t]. *)
Context (hash_width : ∀ s, fits 64 (hash_bytes s)).

Abbreviation DiskEnv := (@Env (KVStore * World)).

(** ** Object operations as store writes *)

(** [e'] is [e] after the store writes [ops]. *)
Definition wrote (ops : list write_op) (e e' : DiskEnv) : Prop := kv_ e' = run_writes ops (kv_ e).

Lemma wrote_nil e e' : kv_ e' = kv_ e → wrote [] e e'.
Proof using. done. Qed.

Lemma wrote_trans ops1 ops2 e1 e2 e3 :
  wrote ops1 e1 e2 → wrote ops2 e2 e3 → wrote (ops1 ++ ops2) e1 e3.
Proof using. unfold wrote, run_writes. intros E1 E2. by rewrite foldl_app, <-E1. Qed.

Lemma put_kv_wrote k v e : wrote [WPut k v] e (put_kv k v e).2.
Proof using. done. Qed.

Lemma del_kv_wrote k e : wrote [WDel k] e (del_kv k e).2.
Proof using. unfold wrote, del_kv. cbn. by destruct (del k (kv_ e)). Qed.

Lemma flush_kv_wrote e : wrote [WFlush] e (flush_kv e).2.
Proof using. unfold wrote, flush_kv. cbn. by destruct (flush_wal (kv_ e)). Qed.

Lemma now_wrote (e : DiskEnv) : kv_ (now_epoch_ms e).2 = kv_ e.
Proof using. unfold now_epoch_ms. by destruct (clock e). Qed.

(** The writes of the chunk loop. *)
Fixpoint chunk_ops (n : nat) (i : N) (id : str) (cs : N) (data : str) : list write_op :=
  match n with
  | O => []
  | S n' => WPut (ChunkKey id i) (chunk_value cs data i) :: chunk_ops n' (i + 1) id cs data
  end.

Lemma write_chunks_wrote n i id cs data e :
  wrote (chunk_ops n i id cs data) e (write_chunks n i id cs data e).2.
Proof using.
  revert i e. induction n as [|n IH]; intros i e; [done|]. cbn [write_chunks chunk_ops].
  unfold mbind, ST_bind. pose proof (put_kv_wrote (ChunkKey id i) (chunk_value cs data i) e) as P.
  destruct (put_kv _ _ e) as [[] e1]. apply (wrote_trans [_] _ _ _ _ P), IH.
Qed.

(** The writes of a commit, the flush last. *)
Definition commit_ops (cs : N) (req : PutObjectRequest) (id : str) (t : N) : list write_op :=
  [WPut (ObjectMetaKey (req_bucket req) (req_key req)) (serialize_metadata (committed_meta cs req id t));
   WPut (BucketIndexKey (req_bucket req) (req_key req)) id].

Lemma commit_object_wrote cs req id t e :
  wrote (commit_ops cs req id t ++ [WFlush]) e (commit_object cs req id t e).2 ∧
  put_ok (commit_object cs req id t e).1 = (flush_wal (run_writes (commit_ops cs req id t) (kv_ e))).1.
Proof using.
  unfold commit_object, commit_ops. cbn [app]. unfold mbind, ST_bind.
  match goal with |- context [put_kv ?k ?v e] => pose proof (put_kv_wrote k v e) as P1 end.
  destruct (put_kv _ _ e) as [[] e1].
  match goal with |- context [put_kv ?k ?v e1] => pose proof (put_kv_wrote k v e1) as P2 end.
  destruct (put_kv _ _ e1) as [[] e2]. pose proof (flush_kv_wrote e2) as P3.
  pose proof (wrote_trans [_] [_] _ _ _ P1 P2) as P12. cbn [snd] in P12, P3.
  assert (F : (flush_kv e2).1 = (flush_wal (kv_ e2)).1).
  { unfold flush_kv. cbn. by destruct (flush_wal (kv_ e2)). }
  rewrite (P12 : kv_ e2 = _) in F. pose proof (wrote_trans _ _ _ _ _ P12 P3) as P123.
  destruct (flush_kv e2) as [b e3]. split; [by destruct b|].
  etransitivity; [|exact F]. by destruct b.
Qed.

Lemma PutObject_commit cs req e :
  req_bucket req ≠ [] → req_key req ≠ [] → is_Some (map_of e !! BucketMetaKey (req_bucket req)) →
  ∃ t0 t e3, fits 64 t0 ∧ fits 64 t ∧
    let id := req_bucket req ++ [colon] ++ req_key req ++ [colon] ++ dec t0 in
    wrote (chunk_ops (N.to_nat (chunks_of cs (N.of_nat (length (req_data req))))) 0 id cs (req_data req))
      e e3 ∧ PutObject cs req e = commit_object cs req id t e3.
Proof using.
  intros Hb Hk Hex. unfold PutObject. rewrite !decide_False by done.
  unfold mbind at 1, ST_bind at 1. rewrite BucketExists_run, bool_decide_true by done. cbn [negb].
  unfold mbind at 1, ST_bind at 1. rewrite get_kv_run. unfold make_object_id.
  unfold mbind at 1, ST_bind at 1. unfold mbind at 1, ST_bind at 1.
  pose proof (now_wrote e) as N1.
  assert (Hfit : ∀ e : DiskEnv, fits 64 (now_epoch_ms e).1).
  { intros e0. unfold now_epoch_ms. destruct (clock e0); apply fits_wrap. }
  pose proof (Hfit e) as F1. destruct (now_epoch_ms e) as [t0 e1]. unfold mret, ST_ret.
  unfold mbind at 1, ST_bind at 1. pose proof (now_wrote e1) as N2. pose proof (Hfit e1) as F2.
  destruct (now_epoch_ms e1) as [t e2]. cbn [fst snd] in *.
  set (id := req_bucket req ++ _). unfold mbind, ST_bind.
  set (n := N.to_nat _). pose proof (write_chunks_wrote n 0 id cs (req_data req) e2) as W.
  destruct (write_chunks n 0 id cs (req_data req) e2) as [[] e3].
  exists t0, t, e3. split_and!; [done|done| |done]. unfold wrote in *. by rewrite <-N1, <-N2.
Qed.

Lemma PutObject_wrote cs req e :
  req_bucket req ≠ [] → req_key req ≠ [] → is_Some (map_of e !! BucketMetaKey (req_bucket req)) →
  ∃ t0 t, fits 64 t0 ∧ fits 64 t ∧
    let id := req_bucket req ++ [colon] ++ req_key req ++ [colon] ++ dec t0 in
    let ops := chunk_ops (N.to_nat (chunks_of cs (N.of_nat (length (req_data req))))) 0 id cs
                 (req_data req) ++ commit_ops cs req id t in
    wrote (ops ++ [WFlush]) e (PutObject cs req e).2 ∧
    put_ok (PutObject cs req e).1 = (flush_wal (run_writes ops (kv_ e))).1.
Proof using.
  intros Hb Hk Hex. destruct (PutObject_commit cs req e Hb Hk Hex) as (t0 & t & e3 & F0 & F & W & E).
  exists t0, t. split; [done|]. split; [done|]. cbv zeta. rewrite E.
  destruct (commit_object_wrote cs req (req_bucket req ++ [colon] ++ req_key req ++ [colon] ++ dec t0) t e3)
    as [C1 C2]. split; [rewrite <-app_assoc; by eapply wrote_trans|].
  etransitivity; [exact C2|]. unfold run_writes. by rewrite foldl_app, (W : kv_ e3 = _).
Qed.

(** ** They fit the log's fields *)

(** Strings short enough for the 32-bit lengths of a log record. *)
Record sizes_ok (req : PutObjectRequest) : Prop := mkSizes {
  sz_bucket : (N.of_nat (length (req_bucket req)) < 2 ^ 28)%N;
  sz_key : (N.of_nat (length (req_key req)) < 2 ^ 28)%N;
  sz_type : (N.of_nat (length (req_content_type req)) < 2 ^ 28)%N;
}.

Lemma dec_short w n : (0 < w ≤ 64)%N → fits w n → length (dec n) ≤ 64.
Proof using. intros Hw Hn. pose proof (print_length w 10 n ltac:(lia) Hn). unfold dec. lia. Qed.

Lemma chunk_ops_ok n i id cs data :
  (N.of_nat (length id) < 2 ^ 30)%N → fits 32 cs → (i + N.of_nat n < 2 ^ 64)%N →
  Forall op_ok (chunk_ops n i id cs data).
Proof using.
  intros Hid Hcs. revert i. induction n as [|n IH]; intros i Hi; constructor; [|apply IH; lia].
  assert (length (dec i) ≤ 64) by (apply (dec_short 64); unfold fits; lia).
  split; cbn [op_ok].
  - unfold ChunkKey. rewrite !length_app. cbn [length list_ascii_of_string]. unfold fits. lia.
  - unfold chunk_value, substr. rewrite length_take. unfold fits in *. lia.
Qed.

Lemma commit_ops_ok cs req t0 t :
  request_ok cs req → sizes_ok req → fits 64 t0 → fits 64 t →
  Forall op_ok (commit_ops cs req (req_bucket req ++ [colon] ++ req_key req ++ [colon] ++ dec t0) t).
Proof using hash_width.
  intros [_ _ _ [Hc0 Hc] Hs Hn] [S1 S2 S3] F0 F.
  pose proof (dec_short 64 t0 ltac:(lia) F0) as D0. pose proof (dec_short 64 t ltac:(lia) F) as D.
  assert (Hlen : fits 64 (N.of_nat (length (req_data req)))).
  { unfold fits in *. lia. }
  pose proof (dec_short 64 _ ltac:(lia) Hlen) as D1. pose proof (dec_short 32 cs ltac:(lia) Hc) as D2.
  pose proof (dec_short 32 (chunks_of cs (N.of_nat (length (req_data req)))) ltac:(lia)
    (fits_wrap _ _)) as D3.
  pose proof (print_length 64 16 _ ltac:(lia) (hash_width (req_data req))) as D4.
  assert (L : ∀ a b : str, length (a ++ [colon] ++ b) = length a + S (length b))
    by (intros; by rewrite length_app).
  assert (T : ∀ a b : str, length (a ++ [tab] ++ b) = length a + S (length b))
    by (intros; by rewrite length_app).
  unfold commit_ops. repeat apply Forall_cons_2; [split|split|apply Forall_nil_2]; unfold fits.
  - unfold ObjectMetaKey. rewrite length_app, L. cbn [length list_ascii_of_string]. lia.
  - unfold serialize_metadata, committed_meta.
    cbn [object_id bucket key size_bytes chunk_count chunk_size_bytes content_type etag
      created_at_epoch_ms updated_at_epoch_ms state].
    unfold compute_etag, hex. rewrite !T, !L. change (length (dec Committed)) with 1. lia.
  - unfold BucketIndexKey. rewrite length_app, L. cbn [length list_ascii_of_string]. lia.
  - rewrite !L. lia.
Qed.

(** ** Histories *)

Lemma history_ready path rs ops s w : history path rs ops s w → KVInterface.store_ready (s, w).
Proof using. intros (d & b & [] & _). split; [done|]. cbn. congruence. Qed.

Lemma opened_history path rs w s1 w1 :
  disk path rs w → open path (new_store, w) = (true, (s1, w1)) →
  history path rs [] s1 w1 ∧ seq_ s1 = last_seq rs.
Proof using.
  intros Hd E. destruct (open_disk path rs w Hd) as (s & w' & E' & Hh & Hs & _).
  rewrite E' in E. by injection E as -> ->.
Qed.

(** A flush in a calm world succeeds. *)
Lemma history_flush path rs ops s w : history path rs ops s w → (flush_wal (s, w)).1 = true.
Proof using.
  intros (d & b & Hl & _). unfold flush_wal, on_wal.
  destruct (Wal.flush (wal_ s) w) as [[ok l] w1] eqn:E.
  destruct (logged_flush _ _ _ _ _ _ _ _ Hl E) as [-> _]. KVWrites.run_kv. by rewrite E.
Qed.

(** The history of an object put, up to its flush. *)
Lemma PutObject_history path rs ops s w cs req clk last :
  history path rs ops s w → request_ok cs req → sizes_ok req →
  is_Some (map_ s !! BucketMetaKey (req_bucket req)) →
  (seq_ s + chunks_of cs (N.of_nat (length (req_data req))) + 3 < 2 ^ 64)%N →
  let '(r, e1) := PutObject cs req (mkEnv (s, w) clk last) in
  put_ok r = true ∧ (seq_ (kv_ e1).1 ≤ seq_ s + chunks_of cs (N.of_nat (length (req_data req))) + 3)%N ∧
  ∃ ops', history path rs (ops' ++ [WFlush]) (kv_ e1).1 (kv_ e1).2.
Proof using hash_width.
  intros Hh Hok Hsz Hex Hseq. pose proof Hok as [[Hb _] [Hk _] _ [_ Hc] _ _].
  destruct (PutObject_wrote cs req (mkEnv (s, w) clk last) Hb Hk Hex) as (t0 & t & F0 & F & W).
  cbv zeta in W. set (pops := chunk_ops _ _ _ _ _ ++ _) in W. destruct W as [W1 W2].
  assert (Hlen : ∀ n i id, length (chunk_ops n i id cs (req_data req)) = n).
  { intros n. induction n as [|n IH]; intros i id; cbn; [done|]. by rewrite IH. }
  assert (Hpl : N.of_nat (length pops) = (chunks_of cs (N.of_nat (length (req_data req))) + 2)%N).
  { unfold pops. rewrite length_app, Hlen. cbn [length commit_ops]. lia. }
  assert (Hpok : Forall op_ok pops).
  { apply Forall_app. split; [|by apply commit_ops_ok].
    apply chunk_ops_ok; [|done|lia]. pose proof (dec_short 64 t0 ltac:(lia) F0). destruct Hsz.
    rewrite !length_app. cbn [length]. lia. }
  destruct (history_runs path rs ops pops s w Hh Hpok ltac:(lia)) as [Hh1 Hs1].
  destruct (PutObject cs req _) as [r e1]. cbn [fst snd] in *. unfold wrote in W1. cbn [kv_] in W1, W2.
  rewrite W1, W2. destruct (run_writes pops (s, w)) as [s1 w1] eqn:E. cbn [fst snd] in *.
  split; [by eapply history_flush|].
  unfold run_writes in *. rewrite foldl_app, E.
  destruct (history_run _ _ _ WFlush _ _ Hh1) as [Hh2 Hs2]; [done|lia|]. cbn [foldl].
  split; [lia|]. by exists (ops ++ pops).
Qed.

(** Creating a bucket, which may exist already. *)
Lemma CreateBucket_history path rs ops s w b clk last :
  history path rs ops s w → b ≠ [] → (N.of_nat (length b) < 2 ^ 28)%N → (seq_ s + 1 < 2 ^ 64)%N →
  let '(created, e1) := CreateBucket b (mkEnv (s, w) clk last) in
  created = true ∧ is_Some (map_of e1 !! BucketMetaKey b) ∧ (seq_ (kv_ e1).1 ≤ seq_ s + 1)%N ∧
  ∃ ops', history path rs ops' (kv_ e1).1 (kv_ e1).2.
Proof using.
  intros Hh Hb Hl Hseq. unfold CreateBucket. rewrite decide_False by done.
  unfold mbind at 1, ST_bind at 1. rewrite get_kv_run.
  destruct (map_of _ !! BucketMetaKey b) as [v|] eqn:Hv.
  { cbn. split; [done|]. split; [by exists v|]. split; [lia|by exists ops]. }
  unfold mbind at 1, ST_bind at 1. set (e := mkEnv (s, w) clk last).
  pose proof (now_wrote e) as N1.
  assert (F : fits 64 (now_epoch_ms e).1) by (unfold now_epoch_ms; destruct (clock e); apply fits_wrap).
  destruct (now_epoch_ms e) as [t e1]. cbn [fst snd] in *. unfold mbind, ST_bind.
  set (v := serialize_bucket_meta _).
  pose proof (put_kv_wrote (BucketMetaKey b) v e1) as W. unfold wrote in W. rewrite N1 in W.
  assert (Hready : ok_env e1) by (unfold ok_env; rewrite N1; by eapply history_ready).
  destruct (put_kv_run (BucketMetaKey b) v e1 Hready) as (e2 & E & _ & Hm).
  rewrite E in *. cbn [snd kv_] in W.
  destruct (history_run path rs ops (WPut (BucketMetaKey b) v) s w Hh) as [Hh2 Hs2]; [|done|].
  - pose proof (dec_short 64 t ltac:(lia) F). split; unfold fits, v, serialize_bucket_meta, BucketMetaKey;
      rewrite !length_app; cbn [length list_ascii_of_string bucket_name bucket_created_at_epoch_ms]; lia.
  - split; [done|]. split; [rewrite Hm, lookup_insert_eq; by eexists|].
    change (run_write _ (s, w)) with (run_writes [WPut (BucketMetaKey b) v] (s, w)) in Hh2, Hs2.
    change (kv_ e) with (s, w) in W. rewrite <-W in Hh2, Hs2. split; [done|by eexists].
Qed.

(** What a new process reads is what the old one read last. *)
Lemma same_map_reads (e1 e2 : DiskEnv) b k :
  map_of e1 = map_of e2 → (GetObject b k e1).1 = (GetObject b k e2).1.
Proof using. intros E. by rewrite !GetObject_run, E. Qed.

(** ** Later writes *)

(** A write that leaves an object's metadata and its chunks alone. *)
Definition spares (req : PutObjectRequest) (id : str) (o : write_op) : Prop :=
  match o with
  | WPut k _ | WDel k => k ≠ ObjectMetaKey (req_bucket req) (req_key req) ∧ ∀ j, k ≠ ChunkKey id j
  | WFlush | WGroupCommit _ => True
  end.

Definition avoids (key : str) (o : write_op) : Prop :=
  match o with WPut k _ | WDel k => k ≠ key | WFlush | WGroupCommit _ => True end.

Lemma denotes_spared key ops m : Forall (avoids key) ops → denotes m ops !! key = m !! key.
Proof using.
  intros Ho. revert m. induction Ho as [|o ops Ho _ IH]; intros m; [done|]. unfold denotes in *. cbn [foldl].
  rewrite IH. destruct o as [k v|k| |n]; cbn in *; [by rewrite lookup_insert_ne|by rewrite lookup_delete_ne|done|done].
Qed.

(** What is read of a put object depends on its metadata and chunks only. *)
Lemma PutObject_view cs req (e : DiskEnv) :
  let '(r, e1) := PutObject cs req e in
  ok_env e → request_ok cs req → is_Some (map_of e !! BucketMetaKey (req_bucket req)) → put_ok r = true →
  ∀ m, m !! ObjectMetaKey (req_bucket req) (req_key req) =
         map_of e1 !! ObjectMetaKey (req_bucket req) (req_key req) →
    (∀ j, m !! ChunkKey (put_object_id r) j = map_of e1 !! ChunkKey (put_object_id r) j) →
    found (object_view m (req_bucket req) (req_key req)) = true ∧
    data (object_view m (req_bucket req) (req_key req)) = req_data req.
Proof using.
  destruct (PutObject cs req e) as [r e1] eqn:E. intros Hr Hok Hex Hput m Hmeta Hch.
  destruct (PutObject_run cs req e Hr Hok Hex) as (r' & e' & t0 & t & E' & Hr1 & Ht & Hm & Hc & _ & Hres & _).
  rewrite E in E'. injection E' as <- <-. destruct (Hres Hput) as [Hid _]. rewrite Hid in Hch.
  unfold object_view. rewrite Hmeta, Hm. rewrite deserialize_serialize by (by apply committed_meta_ok).
  rewrite decide_False by done. set (id := req_bucket req ++ _) in *.
  rewrite (chunks_view_data _ _ _ _ _ cs (req_data req)) by (intros j Hj; rewrite Hch; apply Hc; lia).
  destruct Hok as [_ _ _ [Hc0 _] Hs Hn]. cbn [app chunk_count committed_meta]. by rewrite chunks_all.
Qed.

(** A crash after a flush and later writes loses at most later writes. *)
Lemma flushed_then_crash path rs ops later s w w3 pre :
  history path rs (ops ++ [WFlush]) s w → Forall op_ok later →
  (seq_ s + N.of_nat (length later) < 2 ^ 64)%N → faults w3 = [] → files w3 !! snapshot_path = None →
  Wal.content_of path w3 = Wal.content_of path (run_writes later (s, w)).2 ++ pre →
  pre `prefix_of` concat (Wal.buffer_ (wal_ (run_writes later (s, w)).1)) →
  ∃ k s4 w4, open path (new_store, w3) = (true, (s4, w4)) ∧ map_ s4 = denotes (map_ s) (take k later).
Proof using.
  intros Hh Hlater Hseq Hw3 Hsn3 Hc3 Hpre. pose proof Hh as (d & b & _ & Hm & _).
  destruct (history_runs path rs _ later s w Hh Hlater Hseq) as [Hh2 _].
  destruct (run_writes later (s, w)) as [s2 w2]. cbn [fst snd] in *.
  destruct (crash_reopen path rs _ s2 w2 w3 pre Hh2) as (n & s4 & w4 & E & Hm4 & Hn); try done.
  assert (Hlt : length ops < n).
  { apply Hn. rewrite lookup_app_l by (rewrite length_app; cbn; lia). by rewrite lookup_app_r, Nat.sub_diag. }
  exists (n - length (ops ++ [WFlush])), s4, w4. split; [done|].
  rewrite Hm4, Hm, take_app_ge by (rewrite length_app; cbn; lia). unfold denotes. by rewrite foldl_app.
Qed.

(** ** Properties *)

(** C11: Objects survive crashes.  In a process in which no system call fails, open
    a disk whose log is whole and that has no snapshot, perform any writes, and put
    an object into an existing bucket: the put reports success.  Perform any later
    writes that leave the object's metadata and chunk keys alone, and crash while an
    arbitrary part of the buffered log bytes has reached the file: a new process
    opens the disk, and while its calls do not fail it reads back exactly the
    object's data; without later writes it reads of every object what the first
    process would have read. *)
Theorem object_survives_crash path rs w s0 w0 ops s1 w1 cs req clk last later w3 pre :
  disk path rs w → open path (new_store, w) = (true, (s0, w0)) →
  Forall op_ok ops → run_writes ops (s0, w0) = (s1, w1) → Forall op_ok later →
  (last_seq rs + N.of_nat (length ops) + chunks_of cs (N.of_nat (length (req_data req))) + 3
    + N.of_nat (length later) < 2 ^ 64)%N →
  request_ok cs req → sizes_ok req → is_Some (map_ s1 !! BucketMetaKey (req_bucket req)) →
  let '(r, e1) := PutObject cs req (mkEnv (s1, w1) clk last) in
  let '(s2, w2) := run_writes later (kv_ e1) in
  Forall (spares req (put_object_id r)) later →
  faults w3 = [] → files w3 !! snapshot_path = None →
  Wal.content_of path w3 = Wal.content_of path w2 ++ pre → pre `prefix_of` concat (Wal.buffer_ (wal_ s2)) →
  put_ok r = true ∧
  ∃ s4 w4, open path (new_store, w3) = (true, (s4, w4)) ∧
    (∀ clk' last', let g := (GetObject (req_bucket req) (req_key req) (mkEnv (s4, w4) clk' last')).1 in
       found g = true ∧ data g = req_data req) ∧
    (later = [] → ∀ b k clk' last',
       (GetObject b k (mkEnv (s4, w4) clk' last')).1 = (GetObject b k e1).1).
Proof using hash_width.
  intros Hd Eo Hops Er Hlater Hseq Hok Hsz Hex.
  destruct (opened_history _ _ _ _ _ Hd Eo) as [Hh0 Hs0].
  destruct (history_runs path rs [] ops s0 w0 Hh0 Hops ltac:(lia)) as [Hh1 Hs1]. rewrite Er in Hh1, Hs1.
  cbn [fst snd app] in Hh1, Hs1.
  pose proof (PutObject_history path rs ops s1 w1 cs req clk last Hh1 Hok Hsz Hex ltac:(lia)) as P.
  pose proof (PutObject_view cs req (mkEnv (s1, w1) clk last)) as G.
  destruct (PutObject cs req _) as [r e1]. destruct P as (Hr & Hs2 & ops' & Hh2).
  destruct (run_writes later (kv_ e1)) as [s2 w2] eqn:El. intros Hsp Hw3 Hsn3 Hc3 Hpre.
  split; [done|].
  destruct (flushed_then_crash path rs ops' later (kv_ e1).1 (kv_ e1).2 w3 pre) as (k & s4 & w4 & E4 & Hm4);
    [done|done|lia|done|done|rewrite <-surjective_pairing, El; done..|].
  exists s4, w4. split; [done|]. split.
  - intros clk' last'. cbv zeta. rewrite GetObject_run. apply (G ltac:(by eapply history_ready) Hok Hex Hr (map_ s4)).
    + rewrite Hm4. apply denotes_spared, Forall_take. eapply Forall_impl; [exact Hsp|]. intros [] Ho; cbn in *; tauto.
    + intros j. rewrite Hm4. apply denotes_spared, Forall_take. eapply Forall_impl; [exact Hsp|].
      intros [] Ho; cbn in *; try done; destruct Ho; auto.
  - intros ->. rewrite take_nil in Hm4. intros. by apply same_map_reads.
Qed.

End Durability.

(** ** Witnesses *)

#[local] Existing Instances libstdcxx_abi merge_sort_versions some_map_order.
#[local] Instance example_hash : StdHash := λ s, wrap64 (N.of_nat (length s)).

Lemma example_hash_width s : fits 64 (hash_bytes s).
Proof. apply fits_wrap. Qed.

Definition example_ops : list write_op := [WPut (BucketMetaKey example_bucket) (b# "b")].
Definition example_opened : KVStore * World :=
  run_writes example_ops (open example_path (new_store, example_disk)).2.

(** A later write, which the crash loses but for its first bytes. *)
Definition example_later : list write_op := [WPut (b# "other") (b# "value")].

(** The object is there after the process is gone. *)
Lemma object_survives_crash_witness :
  let '(s1, w1) := example_opened in
  let req := example_request (b# "o") (b# "0123456789") in
  let '(r, e1) := PutObject 4 req (mkEnv (s1, w1) [1000]%N 0) in
  let '(s2, w2) := run_writes example_later (kv_ e1) in
  let pre := take 9 (concat (Wal.buffer_ (wal_ s2))) in
  let w3 := mkWorld {[ example_path := Wal.content_of example_path w2 ++ pre ]} [] in
  put_ok r = true ∧ ∃ s4 w4, open example_path (new_store, w3) = (true, (s4, w4)) ∧
    data (GetObject example_bucket (b# "o") (mkEnv (s4, w4) [] 0)).1 = b# "0123456789".
Proof.
  set (req := example_request (b# "o") (b# "0123456789")).
  destruct (open example_path (new_store, example_disk)) as [b [s0 w0]] eqn:E0.
  assert (b = true) as ->.
  { transitivity (open example_path (new_store, example_disk)).1; [by rewrite E0|].
    vm_compute. reflexivity. }
  assert (Hex : is_Some (map_ example_opened.1 !! BucketMetaKey example_bucket)).
  { exists (b# "b"). vm_compute. reflexivity. }
  assert (Er : run_writes example_ops (s0, w0) = example_opened)
    by (unfold example_opened; by rewrite E0).
  destruct example_opened as [s1 w1]. cbn [fst] in Hex.
  pose proof (λ w3 pre, object_survives_crash example_hash_width example_path example_records example_disk
    s0 w0 example_ops s1 w1 4 req [1000]%N 0 example_later w3 pre example_disk_ok E0) as P.
  cbv zeta. destruct (PutObject 4 req _) as [r e1]. destruct (run_writes example_later (kv_ e1)) as [s2 w2].
  set (pre := take 9 _). set (w3 := mkWorld _ []).
  destruct (P w3 pre) as (Hr & s4 & w4 & Eo & Hd & _).
  - repeat constructor.
  - exact Er.
  - repeat constructor.
  - reflexivity.
  - by apply example_request_ok.
  - by constructor.
  - exact Hex.
  - constructor; [|constructor]. split; [discriminate|]. intros j. discriminate.
  - reflexivity.
  - unfold w3. cbn [files]. rewrite lookup_singleton_ne; [reflexivity|discriminate].
  - unfold w3, Wal.content_of at 1. cbn [files]. by rewrite lookup_singleton_eq.
  - apply prefix_take.
  - split; [exact Hr|]. exists s4, w4. split; [exact Eo|]. apply (Hd [] 0%N).
Defined.

End ObjectDurability.
