(* ===== verification/Raft.v ===== *)
(** * The Raft node

    Models [raft.{h,cpp}] and [raft_transport.{h,cpp}].  Every section of the
    code between taking and releasing a node's mutex is one function of the
    node; the loops and the proposals are sequences of such sections with RPCs
    between them.  Timers ([last_heard_], [election_timeout_], [rng_]) only
    decide when [ElectionLoop] starts an election and are left out here: an election
    may start whenever the node is not the leader.  [RaftTimers] has them. *)

From S2P Require Import Prelude CxxString.

Module Raft.

(** ** Data *)

Inductive RaftRole := Follower | Candidate | Leader.
Inductive OpType := Put | Del.

#[global] Instance RaftRole_eq_dec : EqDecision RaftRole.
Proof. solve_decision. Defined.
#[global] Instance OpType_eq_dec : EqDecision OpType.
Proof. solve_decision. Defined.

Record LogEntry := mkLogEntry { term : N; op : OpType; key : str; value : str }.

#[global] Instance LogEntry_eq_dec : EqDecision LogEntry.
Proof. solve_decision. Defined.

Record RequestVoteReq := mkVoteReq {
  rv_term : N; candidate_id : Z; last_log_index : N; last_log_term : N;
}.
Record RequestVoteResp := mkVoteResp { rvr_term : N; vote_granted : bool }.
Record AppendEntriesReq := mkAppend {
  ae_term : N; ae_leader_id : Z; prev_log_index : N; prev_log_term : N;
  entries : list LogEntry; leader_commit : N;
}.
Record AppendEntriesResp := mkAppendResp { aer_term : N; success : bool }.

Record RaftNode := mkNode {
  id_ : Z;
  peers_ : list Z;
  running_ : bool;
  current_term_ : N;
  voted_for_ : option Z;
  log_ : list LogEntry;
  role_ : RaftRole;
  leader_id_ : option Z;
  commit_index_ : N;
  last_applied_ : N;
  next_index_ : gmap Z N;
  match_index_ : gmap Z N;
}.

(** The constructor. *)
Definition make (id : Z) (peers : list Z) : RaftNode :=
  mkNode id peers false 0 None [] Follower None 0 0 ∅ ∅.

Definition set_running (b : bool) (n : RaftNode) : RaftNode :=
  mkNode (id_ n) (peers_ n) b (current_term_ n) (voted_for_ n) (log_ n) (role_ n)
    (leader_id_ n) (commit_index_ n) (last_applied_ n) (next_index_ n) (match_index_ n).
Definition set_election (r : RaftRole) (l : option Z) (t : N) (v : option Z) (n : RaftNode) : RaftNode :=
  mkNode (id_ n) (peers_ n) (running_ n) t v (log_ n) r l (commit_index_ n) (last_applied_ n)
    (next_index_ n) (match_index_ n).
Definition set_log (l : list LogEntry) (n : RaftNode) : RaftNode :=
  mkNode (id_ n) (peers_ n) (running_ n) (current_term_ n) (voted_for_ n) l (role_ n)
    (leader_id_ n) (commit_index_ n) (last_applied_ n) (next_index_ n) (match_index_ n).
Definition set_commit (c : N) (n : RaftNode) : RaftNode :=
  mkNode (id_ n) (peers_ n) (running_ n) (current_term_ n) (voted_for_ n) (log_ n) (role_ n)
    (leader_id_ n) c (last_applied_ n) (next_index_ n) (match_index_ n).
Definition set_applied (a : N) (n : RaftNode) : RaftNode :=
  mkNode (id_ n) (peers_ n) (running_ n) (current_term_ n) (voted_for_ n) (log_ n) (role_ n)
    (leader_id_ n) (commit_index_ n) a (next_index_ n) (match_index_ n).
Definition set_indexes (nx mt : gmap Z N) (n : RaftNode) : RaftNode :=
  mkNode (id_ n) (peers_ n) (running_ n) (current_term_ n) (voted_for_ n) (log_ n) (role_ n)
    (leader_id_ n) (commit_index_ n) (last_applied_ n) nx mt.

(** ** Log helpers *)

Definition LastLogIndexLocked (n : RaftNode) : N := N.of_nat (length (log_ n)).
Definition LastLogTermLocked (n : RaftNode) : N :=
  match last (log_ n) with Some e => term e | None => 0 end.

Definition term_at (log : list LogEntry) (idx : N) : N :=
  if (idx =? 0)%N then 0
  else if (N.of_nat (length log) <? idx)%N then 0
  else match log !! N.to_nat (idx - 1) with Some e => term e | None => 0 end.
Definition TermAtLocked (n : RaftNode) (idx : N) : N := term_at (log_ n) idx.

Definition IsLeaderLocked (n : RaftNode) : bool := bool_decide (role_ n = Leader).

Definition IsUpToDateLocked (cand_last_idx cand_last_term : N) (n : RaftNode) : bool :=
  let my_term := LastLogTermLocked n in
  let my_idx := LastLogIndexLocked n in
  if negb (cand_last_term =? my_term)%N then (my_term <? cand_last_term)%N
  else (my_idx <=? cand_last_idx)%N.

(** ** Roles *)

Definition BecomeFollowerLocked (new_term : N) (leader : option Z) (n : RaftNode) : RaftNode :=
  set_election Follower leader new_term None n.

Definition BecomeCandidateLocked (n : RaftNode) : RaftNode :=
  set_election Candidate None (wrap64 (current_term_ n + 1)) (Some (id_ n)) n.

Definition BecomeLeaderLocked (n : RaftNode) : RaftNode :=
  let n := set_election Leader (Some (id_ n)) (current_term_ n) (voted_for_ n) n in
  let last := LastLogIndexLocked n in
  set_indexes
    (foldl (λ m p, <[p := wrap64 (last + 1)]> m) (next_index_ n) (peers_ n))
    (foldl (λ m p, <[p := 0%N]> m) (match_index_ n) (peers_ n)) n.

(** ** Commit *)

#[local] Instance N_le_total : Total N.le.
Proof. intros a b. lia. Qed.

Definition match_values (n : RaftNode) : list N :=
  LastLogIndexLocked n :: (map_to_list (match_index_ n)).*2.

(** [match_values\[match_values.size() / 2\]] of the sorted values. *)
Definition majority_index (vs : list N) : N :=
  default 0%N (merge_sort N.le vs !! (length vs `div` 2)).

Definition AdvanceCommitIndexLocked (n : RaftNode) : RaftNode :=
  let m := majority_index (match_values n) in
  if (commit_index_ n <? m)%N then
    if (TermAtLocked n m =? current_term_ n)%N then set_commit m n else n
  else n.

(** ** Replication *)

Definition BuildAppendEntriesLocked (peer_id : Z) (n : RaftNode) : AppendEntriesReq :=
  let next := default 1%N (next_index_ n !! peer_id) in
  let prev := if ((next =? 0) || (next =? 1))%N then 0%N else (next - 1)%N in
  let suffix :=
    if ((1 <=? next) && (next <=? N.of_nat (length (log_ n))))%N
    then drop (N.to_nat (next - 1)) (log_ n) else [] in
  mkAppend (current_term_ n) (id_ n) prev (TermAtLocked n prev) suffix (commit_index_ n).

(** ** RPC handlers *)

Definition OnRequestVote (req : RequestVoteReq) (n : RaftNode) : RequestVoteResp * RaftNode :=
  if (rv_term req <? current_term_ n)%N then (mkVoteResp (current_term_ n) false, n)
  else
    let n := if (current_term_ n <? rv_term req)%N
             then BecomeFollowerLocked (rv_term req) None n else n in
    let can_vote := match voted_for_ n with
                    | None => true
                    | Some v => bool_decide (v = candidate_id req)
                    end in
    if can_vote && IsUpToDateLocked (last_log_index req) (last_log_term req) n then
      (mkVoteResp (current_term_ n) true,
       set_election (role_ n) (leader_id_ n) (current_term_ n) (Some (candidate_id req)) n)
    else (mkVoteResp (current_term_ n) false, n).

Definition OnAppendEntries (req : AppendEntriesReq) (n : RaftNode) : AppendEntriesResp * RaftNode :=
  if (ae_term req <? current_term_ n)%N then (mkAppendResp (current_term_ n) false, n)
  else
    let n := if (current_term_ n <? ae_term req)%N
             then BecomeFollowerLocked (ae_term req) (Some (ae_leader_id req)) n
             else set_election Follower (Some (ae_leader_id req)) (current_term_ n) (voted_for_ n) n in
    if (LastLogIndexLocked n <? prev_log_index req)%N then
      (mkAppendResp (current_term_ n) false, n)
    else if negb (TermAtLocked n (prev_log_index req) =? prev_log_term req)%N then
      (mkAppendResp (current_term_ n) false, n)
    else
      let n :=
        match entries req with
        | [] => n
        | es =>
            let log := if (prev_log_index req <? LastLogIndexLocked n)%N
                       then take (N.to_nat (prev_log_index req)) (log_ n) else log_ n in
            set_log (log ++ es) n
        end in
      let n := if (commit_index_ n <? leader_commit req)%N
               then set_commit (N.min (leader_commit req) (LastLogIndexLocked n)) n else n in
      (mkAppendResp (current_term_ n) true, n).

(** ** The election loop *)

Definition needed (n : RaftNode) : N := (1 + N.of_nat (length (peers_ n))) / 2 + 1.

(** The section that starts an election: the node and its request. *)
Definition start_election (n : RaftNode) : RequestVoteReq * RaftNode :=
  let n := BecomeCandidateLocked n in
  (mkVoteReq (current_term_ n) (id_ n) (LastLogIndexLocked n) (LastLogTermLocked n), n).

(** The section after a vote response: whether the loop over the peers goes on,
    and the vote count. *)
Definition on_vote_response (term_started : N) (votes : N) (resp : RequestVoteResp) (n : RaftNode)
    : bool * N * RaftNode :=
  if bool_decide (role_ n ≠ Candidate) then (false, votes, n)
  else if negb (current_term_ n =? term_started)%N then (false, votes, n)
  else if (current_term_ n <? rvr_term resp)%N then
    (false, votes, BecomeFollowerLocked (rvr_term resp) None n)
  else
    let votes := if vote_granted resp then (votes + 1)%N else votes in
    if (needed n <=? votes)%N then (false, votes, BecomeLeaderLocked n)
    else (true, votes, n).

(** ** The heartbeat loop *)

Definition step_down (t : N) (n : RaftNode) : RaftNode := BecomeFollowerLocked t None n.

(** [m\[p\]] where it is only read, as in the trace output: a missing entry is
    created as 0. *)
Definition subscript (p : Z) (m : gmap Z N) : gmap Z N := <[p := default 0%N (m !! p)]> m.

(** The section after an append response from peer [p]. *)
Definition on_heartbeat_response (p : Z) (req : AppendEntriesReq) (resp : AppendEntriesResp)
    (n : RaftNode) : RaftNode :=
  if (current_term_ n <? aer_term resp)%N then step_down (aer_term resp) n
  else if success resp then
    let n := match entries req with
             | [] => n
             | es =>
                 let sent_last := wrap64 (prev_log_index req + N.of_nat (length es)) in
                 set_indexes (<[p := wrap64 (sent_last + 1)]> (next_index_ n))
                   (<[p := sent_last]> (match_index_ n)) n
             end in
    let n := AdvanceCommitIndexLocked n in
    set_indexes (subscript p (next_index_ n)) (subscript p (match_index_ n)) n
  else
    let n :=
      match next_index_ n !! p with
      | Some next =>
          if (1 <? next)%N
          then set_indexes (<[p := N.max 1 (next - 1)]> (next_index_ n)) (match_index_ n) n
          else n
      | None => n
      end in
    set_indexes (subscript p (next_index_ n)) (match_index_ n) n.

(** ** Proposals *)

(** The first section of [ProposePut] and [ProposeDel]. *)
Definition append_proposal (e : LogEntry) (n : RaftNode) : RaftNode := set_log (log_ n ++ [e]) n.

Definition put_entry (k v : str) (n : RaftNode) : LogEntry := mkLogEntry (current_term_ n) Put k v.
Definition del_entry (k : str) (n : RaftNode) : LogEntry := mkLogEntry (current_term_ n) Del k [].

(** The second section: the request for the single entry, from the log as it is
    then; [my_index - 1] wraps on an empty log. *)
Definition proposal_request (e : LogEntry) (n : RaftNode) : AppendEntriesReq :=
  let prev := if decide (LastLogIndexLocked n = 0%N) then (2 ^ 64 - 1)%N
              else (LastLogIndexLocked n - 1)%N in
  mkAppend (current_term_ n) (id_ n) prev (TermAtLocked n prev) [e] 0.

(** The section after a response: go on with the count, or leave the proposal
    with a result ([break] once enough acks are in). *)
Inductive proposal_step := Fails | Enough (acks : N) | Continue (acks : N).

Definition on_proposal_response (acks : N) (resp : AppendEntriesResp) (n : RaftNode)
    : proposal_step * RaftNode :=
  if negb (IsLeaderLocked n) then (Fails, n)
  else if (current_term_ n <? aer_term resp)%N then (Fails, step_down (aer_term resp) n)
  else
    let acks := if success resp then (acks + 1)%N else acks in
    if (needed n <=? acks)%N then (Enough acks, n) else (Continue acks, n).

(** The heartbeat request that follows a replicated proposal. *)
Definition commit_request (n : RaftNode) : AppendEntriesReq :=
  let last := LastLogIndexLocked n in
  mkAppend (current_term_ n) (id_ n) last (TermAtLocked n last) [] (commit_index_ n).

(** The section after each response to it: whether the loop goes on. *)
Definition on_commit_response (resp : AppendEntriesResp) (n : RaftNode) : bool * RaftNode :=
  if (current_term_ n <? aer_term resp)%N then (false, step_down (aer_term resp) n) else (true, n).

(** ** The apply loop *)

(** The locked section: the entry to apply, if any. *)
Definition take_committed (n : RaftNode) : option LogEntry * RaftNode :=
  if (last_applied_ n <? commit_index_ n)%N then
    let idx := (last_applied_ n + 1)%N in
    (log_ n !! N.to_nat (idx - 1), set_applied idx n)
  else (None, n).

(** ** The in-process transport and a cluster without concurrency *)

(** The registered nodes by id; [Register] and [Unregister]. *)
Abbreviation Transport := (gmap Z RaftNode).
Definition Register (n : RaftNode) (t : Transport) : Transport := <[id_ n := n]> t.
Definition Unregister (id : Z) (t : Transport) : Transport := delete id t.

Definition RequestVote (peer_id : Z) (req : RequestVoteReq) : ST Transport RequestVoteResp := λ t,
  match t !! peer_id with
  | None => (mkVoteResp (rv_term req) false, t)
  | Some n => let '(resp, n) := OnRequestVote req n in (resp, <[peer_id := n]> t)
  end.

Definition AppendEntries (peer_id : Z) (req : AppendEntriesReq) : ST Transport AppendEntriesResp := λ t,
  match t !! peer_id with
  | None => (mkAppendResp (ae_term req) false, t)
  | Some n => let '(resp, n) := OnAppendEntries req n in (resp, <[peer_id := n]> t)
  end.

(** Runs a section of node [id]. *)
Definition at_node {A} (id : Z) (dflt : A) (f : RaftNode → A * RaftNode) : ST Transport A := λ t,
  match t !! id with
  | None => (dflt, t)
  | Some n => let '(a, n) := f n in (a, <[id := n]> t)
  end.

(** The loop over the peers in [ElectionLoop]. *)
Fixpoint election_rounds (id : Z) (req : RequestVoteReq) (votes : N) (ps : list Z)
    : ST Transport unit :=
  match ps with
  | [] => mret tt
  | p :: ps' =>
      resp ← RequestVote p req;
      '(go_on, votes) ← at_node id (false, votes) (on_vote_response (rv_term req) votes resp);
      if (go_on : bool) then election_rounds id req votes ps' else mret tt
  end.

(** One iteration of [ElectionLoop] whose timeout has expired. *)
Definition run_election (id : Z) : ST Transport unit := λ t,
  match t !! id with
  | None => (tt, t)
  | Some n =>
      if decide (role_ n = Leader) then (tt, t)
      else
        let '(req, n') := start_election n in
        election_rounds id req 1 (peers_ n) (<[id := n']> t)
  end.

(** The loop over the peers in [HeartbeatLoop]. *)
Fixpoint heartbeat_rounds (id : Z) (ps : list Z) : ST Transport unit :=
  match ps with
  | [] => mret tt
  | p :: ps' => λ t,
      match t !! id with
      | None => (tt, t)
      | Some n =>
          if decide (role_ n ≠ Leader) then (tt, t)
          else
            let req := BuildAppendEntriesLocked p n in
            let '(resp, t) := AppendEntries p req t in
            let '(go_on, t) := at_node id false (λ n,
              ((aer_term resp <=? current_term_ n)%N, on_heartbeat_response p req resp n)) t in
            if (go_on : bool) then heartbeat_rounds id ps' t else (tt, t)
      end
  end.

(** The loop over the peers in a proposal: [None] is [return false]. *)
Fixpoint replicate_rounds (id : Z) (req : AppendEntriesReq) (acks : N) (ps : list Z)
    : ST Transport (option N) :=
  match ps with
  | [] => mret (Some acks)
  | p :: ps' =>
      resp ← AppendEntries p req;
      s ← at_node id Fails (on_proposal_response acks resp);
      match s with
      | Fails => mret None
      | Enough acks => mret (Some acks)
      | Continue acks => replicate_rounds id req acks ps'
      end
  end.

Fixpoint commit_rounds (id : Z) (req : AppendEntriesReq) (ps : list Z) : ST Transport unit :=
  match ps with
  | [] => mret tt
  | p :: ps' =>
      resp ← AppendEntries p req;
      go_on ← at_node id false (on_commit_response resp);
      if (go_on : bool) then commit_rounds id req ps' else mret tt
  end.

(** [ProposePut] and [ProposeDel] run with no other thread in between.  In the code
    other threads run between the sections: [RaftConcurrent.run_step] is the proposal
    as a thread among them, of which this is one run ([RaftConcurrent.Propose_run]). *)
Definition Propose (id : Z) (entry : RaftNode → LogEntry) : ST Transport bool := λ t,
  match t !! id with
  | None => (false, t)
  | Some n =>
      if negb (IsLeaderLocked n) then (false, t)
      else
        let e := entry n in
        let n := append_proposal e n in
        let '(acks, t) := replicate_rounds id (proposal_request e n) 1 (peers_ n) (<[id := n]> t) in
        match acks with
        | None => (false, t)
        | Some acks =>
            if (acks <? needed n)%N then (false, t)
            else
              match t !! id with
              | None => (true, t)
              | Some n => let '(_, t) := commit_rounds id (commit_request n) (peers_ n) t in (true, t)
              end
        end
  end.

Definition ProposePut (id : Z) (k v : str) : ST Transport bool := Propose id (put_entry k v).
Definition ProposeDel (id : Z) (k : str) : ST Transport bool := Propose id (del_entry k).

Definition Start (n : RaftNode) : RaftNode := set_running true n.
Definition Stop (n : RaftNode) : RaftNode := set_running false n.

End Raft.
