(* ===== verification/RaftElection.v ===== *)
(** * Elections in a cluster of Raft nodes

    A step relation in which the threads of all nodes interleave: elections
    proceed one RPC and one response at a time, any append request may arrive
    at any node at any time, and the other sections of [Raft.v] run whenever
    their thread could.  The main result is election safety. *)

From S2P Require Import Prelude Raft.

Module RaftElection.
Import Raft.

(** ** The cluster *)

(** An iteration of a node's [ElectionLoop] in progress: the request, the votes
    counted, the peers not asked yet, and a response not processed yet. *)
Record Election := mkElection {
  el_req : RequestVoteReq;
  el_votes : N;
  el_rest : list Z;
  el_resp : option RequestVoteResp;
}.

Record Cluster := mkCluster {
  nodes : gmap Z RaftNode;
  elections : gmap Z Election;
}.

Definition with_node (i : Z) (n : RaftNode) (c : Cluster) : Cluster :=
  mkCluster (<[i := n]> (nodes c)) (elections c).
Definition with_election (i : Z) (o : option Election) (c : Cluster) : Cluster :=
  mkCluster (nodes c) (match o with
                       | Some e => <[i := e]> (elections c)
                       | None => delete i (elections c)
                       end).

Inductive step (c : Cluster) : Cluster → Prop :=
  (** the election timeout of a node that is not leading *)
  | step_timeout i n req n' :
      nodes c !! i = Some n → role_ n ≠ Leader → elections c !! i = None →
      (current_term_ n + 1 < 2 ^ 64)%N →
      start_election n = (req, n') →
      step c (with_election i (Some (mkElection req 1 (peers_ n) None)) (with_node i n' c))
  (** the RPC to the next peer, executed there *)
  | step_ask i e p rest n resp n' :
      elections c !! i = Some e → el_resp e = None → el_rest e = p :: rest →
      nodes c !! p = Some n →
      OnRequestVote (el_req e) n = (resp, n') →
      step c (with_election i (Some (mkElection (el_req e) (el_votes e) rest (Some resp)))
               (with_node p n' c))
  (** the peer is not registered with the transport *)
  | step_ask_down i e p rest :
      elections c !! i = Some e → el_resp e = None → el_rest e = p :: rest →
      step c (with_election i (Some (mkElection (el_req e) (el_votes e) rest
                 (Some (mkVoteResp (rv_term (el_req e)) false)))) c)
  (** the candidate processes the response *)
  | step_collect i e resp n go_on votes n' :
      elections c !! i = Some e → el_resp e = Some resp → nodes c !! i = Some n →
      on_vote_response (rv_term (el_req e)) (el_votes e) resp n = (go_on, votes, n') →
      step c (with_election i
                (if go_on then Some (mkElection (el_req e) votes (el_rest e) None) else None)
                (with_node i n' c))
  (** no peer left *)
  | step_lost i e :
      elections c !! i = Some e → el_resp e = None → el_rest e = [] →
      step c (with_election i None c)
  (** any append request, from a heartbeat, a proposal, or out of date *)
  | step_append p req n :
      nodes c !! p = Some n → step c (with_node p (OnAppendEntries req n).2 c)
  (** a response to a heartbeat *)
  | step_heartbeat i p req resp n :
      nodes c !! i = Some n → step c (with_node i (on_heartbeat_response p req resp n) c)
  (** the sections of a proposal *)
  | step_propose i e n :
      nodes c !! i = Some n → IsLeaderLocked n = true → step c (with_node i (append_proposal e n) c)
  | step_proposal_response i acks resp n :
      nodes c !! i = Some n → step c (with_node i (on_proposal_response acks resp n).2 c)
  | step_commit_response i resp n :
      nodes c !! i = Some n → step c (with_node i (on_commit_response resp n).2 c)
  (** the apply loop *)
  | step_apply i n :
      nodes c !! i = Some n → step c (with_node i (take_committed n).2 c).

(** A freshly constructed cluster: every node has all the others as peers. *)
Definition initial (members : list Z) (c : Cluster) : Prop :=
  NoDup members ∧ elections c = ∅ ∧
  ∀ i n, nodes c !! i = Some n → ∃ peers, n = make i peers ∧ i :: peers ≡ₚ members.

(** ** Node updates *)

(** An update that keeps the node's promises: the term does not decrease, a
    vote stays within its term, leadership is not gained, and a node becomes a
    candidate only in a new term. *)
Record keeps (n n' : RaftNode) : Prop := mkKeeps {
  keeps_id : id_ n' = id_ n;
  keeps_peers : peers_ n' = peers_ n;
  keeps_term : (current_term_ n ≤ current_term_ n')%N;
  keeps_vote x : current_term_ n' = current_term_ n → voted_for_ n = Some x → voted_for_ n' = Some x;
  keeps_leader : role_ n' = Leader → role_ n = Leader ∧ current_term_ n' = current_term_ n;
  keeps_candidate : role_ n' = Candidate → current_term_ n' = current_term_ n → role_ n = Candidate;
}.

#[global] Instance keeps_preorder : PreOrder keeps.
Proof.
  split.
  - intros n. by constructor.
  - intros n1 n2 n3 [I1 P1 T1 V1 L1 C1] [I2 P2 T2 V2 L2 C2]. constructor; try congruence; [lia| | |].
    + intros x E Hv. assert (current_term_ n2 = current_term_ n1) by lia. apply V2; [lia|].
      by apply V1.
    + intros [L E]%L2. apply L1 in L as [? ?]. split; [done|congruence].
    + intros C E. apply C1; [apply C2; [done|lia]|lia].
Qed.

Lemma keeps_step_down t n : (current_term_ n < t)%N → keeps n (step_down t n).
Proof. intros Ht. constructor; cbn; try done; lia. Qed.

Lemma keeps_timeout n : (current_term_ n + 1 < 2 ^ 64)%N → keeps n (start_election n).2.
Proof. intros Ht. constructor; cbn; try done; rewrite wrap_fits by done; lia. Qed.

Lemma keeps_vote_request req n : keeps n (OnRequestVote req n).2.
Proof.
  unfold OnRequestVote. destruct (N.ltb_spec (rv_term req) (current_term_ n)); [done|].
  set (n1 := if (current_term_ n <? rv_term req)%N then _ else n).
  assert (K1 : keeps n n1).
  { unfold n1. destruct (N.ltb_spec (current_term_ n) (rv_term req)); [|done]. by apply keeps_step_down. }
  destruct (match voted_for_ n1 with None => true | Some v => _ end) eqn:Hv; cbn [andb]; [|done].
  destruct (IsUpToDateLocked _ _ n1); [|done]. etransitivity; [exact K1|].
  constructor; cbn; try done. intros x _ E. rewrite E in Hv. by apply bool_decide_eq_true in Hv as ->.
Qed.

Lemma keeps_append req n : keeps n (OnAppendEntries req n).2.
Proof.
  unfold OnAppendEntries. destruct (N.ltb_spec (ae_term req) (current_term_ n)); [done|].
  set (n1 := if (current_term_ n <? ae_term req)%N then _ else _).
  assert (K1 : keeps n n1).
  { unfold n1. destruct (N.ltb_spec (current_term_ n) (ae_term req)); constructor; cbn; try done; intros; lia. }
  destruct (LastLogIndexLocked n1 <? prev_log_index req)%N; [done|].
  destruct (negb _); [done|]. cbn [snd].
  set (n2 := match entries req with [] => n1 | _ => _ end).
  assert (K2 : keeps n n2) by (unfold n2; destruct (entries req); [done|]; by destruct K1; constructor).
  destruct (commit_index_ n2 <? leader_commit req)%N; [|done]. by destruct K2; constructor.
Qed.

Lemma keeps_heartbeat p req resp n : keeps n (on_heartbeat_response p req resp n).
Proof.
  unfold on_heartbeat_response. destruct (N.ltb_spec (current_term_ n) (aer_term resp)).
  { by apply keeps_step_down. }
  assert (A : ∀ m, keeps n m → keeps n (AdvanceCommitIndexLocked m)).
  { intros m [I P T V L C]. unfold AdvanceCommitIndexLocked.
    destruct (_ <? _)%N; [destruct (_ =? _)%N|]; by constructor. }
  assert (B : ∀ nx mt m, keeps n m → keeps n (set_indexes nx mt m)) by (intros ? ? ? []; by constructor).
  destruct (success resp); apply B.
  - apply A. destruct (entries req); [done|]. by apply B.
  - destruct (next_index_ n !! p) as [nx|]; [|done]. destruct (_ <? _)%N; [|done]. by apply B.
Qed.

Lemma keeps_proposal acks resp n : keeps n (on_proposal_response acks resp n).2.
Proof.
  unfold on_proposal_response. destruct (negb _); [done|].
  destruct (N.ltb_spec (current_term_ n) (aer_term resp)); [by apply keeps_step_down|].
  by destruct (_ <=? _)%N.
Qed.

Lemma keeps_commit resp n : keeps n (on_commit_response resp n).2.
Proof.
  unfold on_commit_response.
  destruct (N.ltb_spec (current_term_ n) (aer_term resp)); [by apply keeps_step_down|done].
Qed.

Lemma keeps_apply n : keeps n (take_committed n).2.
Proof. unfold take_committed. destruct (_ <? _)%N; [by constructor|done]. Qed.

(** What a granted vote and a won election mean at the node. *)
Lemma vote_granted_spec req n :
  vote_granted (OnRequestVote req n).1 = true →
  current_term_ (OnRequestVote req n).2 = rv_term req ∧
  voted_for_ (OnRequestVote req n).2 = Some (candidate_id req) ∧
  (current_term_ n = rv_term req →
     voted_for_ n = None ∨ voted_for_ n = Some (candidate_id req)).
Proof.
  unfold OnRequestVote. destruct (N.ltb_spec (rv_term req) (current_term_ n)) as [?|Hge]; [done|].
  set (n1 := if (current_term_ n <? rv_term req)%N then _ else n).
  assert (Ht : current_term_ n1 = rv_term req).
  { unfold n1. destruct (N.ltb_spec (current_term_ n) (rv_term req)); cbn; lia. }
  destruct (match voted_for_ n1 with None => true | Some v => _ end) eqn:Hv; cbn [andb]; [|done].
  destruct (IsUpToDateLocked _ _ n1); [|done]. intros _. cbn. split; [done|]. split; [done|].
  intros E. assert (n1 = n) as E1 by (unfold n1; by rewrite E, N.ltb_irrefl).
  rewrite E1 in Hv. destruct (voted_for_ n); [|by left]. apply bool_decide_eq_true in Hv as ->. by right.
Qed.

Lemma vote_response_spec t votes resp n go_on votes' n' :
  on_vote_response t votes resp n = (go_on, votes', n') →
  keeps n n' ∧ votes' = votes
  ∨ votes' = (if vote_granted resp then votes + 1 else votes)%N ∧
    (keeps n n' ∨
     go_on = false ∧ role_ n = Candidate ∧ role_ n' = Leader ∧ current_term_ n' = current_term_ n ∧ current_term_ n = t ∧
     voted_for_ n' = voted_for_ n ∧ id_ n' = id_ n ∧ peers_ n' = peers_ n ∧
     (needed n ≤ votes')%N ∧ n' = BecomeLeaderLocked n).
Proof.
  unfold on_vote_response. case_bool_decide as Hr; [intros; simplify_eq; by left|].
  assert (role_ n = Candidate) as Hcand by (by destruct (role_ n)).
  destruct (N.eqb_spec (current_term_ n) t) as [Et|]; cbn [negb]; [|intros; simplify_eq; by left].
  destruct (N.ltb_spec (current_term_ n) (rvr_term resp)).
  { intros; simplify_eq. left. split; [by apply keeps_step_down|done]. }
  destruct (N.leb_spec (needed n) (if vote_granted resp then votes + 1 else votes)%N);
    intros; simplify_eq; right; (split; [done|]); [right|by left].
  by repeat split.
Qed.

(** ** The invariant *)

Section Safety.
Context (members : list Z) (Hmembers : NoDup members).

(** Votes granted so far: voter, term, candidate. *)
Abbreviation Votes := (gset (Z * N * Z)).

(** A candidate's supporters [Q] in [G], and peers [rest] still to be asked. *)
Record supporters (G : Votes) (t : N) (i : Z) (votes : N) (rest Q : list Z) : Prop := mkSupp {
  supp_nodup : NoDup (Q ++ rest);
  supp_members : Q ++ rest ⊆ members;
  supp_votes : N.of_nat (length Q) = votes;
  supp_granted v : v ∈ Q → (v, t, i) ∈ G;
}.

Definition election_ok (G : Votes) (i : Z) (e : Election) : Prop :=
  candidate_id (el_req e) = i ∧
  ∃ Q, supporters G (rv_term (el_req e)) i (el_votes e) (el_rest e) Q ∧
    ∀ r, el_resp e = Some r → vote_granted r = true →
      ∃ v, v ∈ members ∧ v ∉ Q ++ el_rest e ∧ (v, rv_term (el_req e), i) ∈ G.

Definition quorum : N := N.of_nat (length members) / 2 + 1.

(** A quorum of members voted for [i] in term [t]. *)
Definition elected (G : Votes) (t : N) (i : Z) : Prop :=
  ∃ Q, NoDup Q ∧ Q ⊆ members ∧ (quorum ≤ N.of_nat (length Q))%N ∧ ∀ v, v ∈ Q → (v, t, i) ∈ G.

Record Inv (G : Votes) (c : Cluster) : Prop := mkInv {
  inv_vote p t x : (p, t, x) ∈ G →
    ∃ n, nodes c !! p = Some n ∧ (t ≤ current_term_ n)%N ∧
      (t = current_term_ n → voted_for_ n = Some x);
  inv_unique p t x y : (p, t, x) ∈ G → (p, t, y) ∈ G → x = y;
  inv_node i n : nodes c !! i = Some n → id_ n = i ∧ i :: peers_ n ≡ₚ members;
  inv_leader i n : nodes c !! i = Some n → role_ n = Leader → elected G (current_term_ n) i;
  inv_election i e : elections c !! i = Some e → election_ok G i e;
}.

(** A vote given in the step from [c] to [c']: that of a new candidate for itself,
    or one that answers the request of an election. *)
Inductive cast (c c' : Cluster) (v : Z) (t : N) : Z → Prop :=
  | cast_self n n' :
      nodes c !! v = Some n → nodes c' !! v = Some n' → (current_term_ n < t)%N →
      current_term_ n' = t → role_ n' = Candidate → log_ n' = log_ n → cast c c' v t v
  | cast_peer x e n :
      elections c !! x = Some e → nodes c !! v = Some n → rv_term (el_req e) = t →
      vote_granted (OnRequestVote (el_req e) n).1 = true → cast c c' v t x.

Definition votes_cast (G G' : Votes) (c c' : Cluster) : Prop :=
  G ⊆ G' ∧ ∀ v t x, (v, t, x) ∈ G' → (v, t, x) ∈ G ∨ cast c c' v t x.

Lemma votes_cast_same G c c' : votes_cast G G c c'.
Proof using. split; auto. Qed.

Lemma votes_cast_one G c c' v t x : cast c c' v t x → votes_cast G ({[ (v, t, x) ]} ∪ G) c c'.
Proof using.
  intros Hc. split; [apply union_subseteq_r|]. intros v' t' x'.
  rewrite elem_of_union, elem_of_singleton. intros [[= -> -> ->]|]; auto.
Qed.

Lemma needed_quorum n i : i :: peers_ n ≡ₚ members → needed n = quorum.
Proof using Hmembers.
  intros P%Permutation_length. unfold needed, quorum. cbn in P. rewrite <-P.
  do 2 f_equal. lia.
Qed.

Lemma inv_keeps G c i n n' :
  Inv G c → nodes c !! i = Some n → keeps n n' → Inv G (with_node i n' c).
Proof using Hmembers.
  intros [V U N0 L E] Hn [Kid Kp Kt Kv Kl _]. constructor; cbn [with_node nodes elections]; [| | | |done].
  - intros p t x Hg. destruct (V p t x Hg) as (m & Hm & Ht & Hvote).
    destruct (decide (p = i)) as [->|Hne]; [|exists m; by rewrite lookup_insert_ne].
    rewrite Hn in Hm. injection Hm as <-. exists n'. rewrite lookup_insert_eq. split; [done|].
    split; [lia|]. intros ->. apply Kv; [lia|]. apply Hvote. lia.
  - done.
  - intros j m. destruct (decide (j = i)) as [->|Hne].
    + rewrite lookup_insert_eq. intros [= <-]. rewrite Kid, Kp. by apply N0.
    + rewrite lookup_insert_ne by done. apply N0.
  - intros j m. destruct (decide (j = i)) as [->|Hne].
    + rewrite lookup_insert_eq. intros [= <-] [Hr ->]%Kl. by apply L.
    + rewrite lookup_insert_ne by done. apply L.
Qed.

Lemma supporters_mono G G' t i votes rest Q :
  G ⊆ G' → supporters G t i votes rest Q → supporters G' t i votes rest Q.
Proof using Hmembers. intros HG [A B C D]. constructor; auto. Qed.

Lemma election_ok_mono G G' i e : G ⊆ G' → election_ok G i e → election_ok G' i e.
Proof using Hmembers.
  intros HG (Hc & Q & HQ & Hp). split; [done|]. exists Q. split; [by eapply supporters_mono|].
  intros r Hr Hv. destruct (Hp r Hr Hv) as (v & ? & ? & ?). exists v. auto.
Qed.

(** Recording a vote that a node has just given. *)
Lemma inv_grant G c p n x :
  Inv G c → nodes c !! p = Some n → voted_for_ n = Some x →
  Inv ({[ (p, current_term_ n, x) ]} ∪ G) c.
Proof using Hmembers.
  intros [V U N0 L E] Hn Hv. constructor.
  - intros p' t' x'. rewrite elem_of_union, elem_of_singleton. intros [[= -> -> ->]|Hg]; [|by apply V].
    exists n. auto with lia.
  - assert (Hnew : ∀ y, (p, current_term_ n, y) ∈ G → y = x).
    { intros y Hg. destruct (V _ _ _ Hg) as (m & Hm & _ & Hvote). rewrite Hn in Hm.
      injection Hm as <-. specialize (Hvote eq_refl). congruence. }
    intros p' t' x' y'. rewrite !elem_of_union, !elem_of_singleton.
    intros [H1|H1] [H2|H2]; simplify_eq; auto; [symmetry; auto|eauto].
  - done.
  - intros i m Hm Hr. destruct (L i m Hm Hr) as (Q & ? & ? & ? & HQ). exists Q.
    split_and!; try done. intros v Hv'. apply elem_of_union. auto.
  - intros i e He. eapply election_ok_mono; [|by apply E]. set_solver.
Qed.

Lemma inv_set_election G c i e :
  Inv G c → election_ok G i e → Inv G (with_election i (Some e) c).
Proof using Hmembers.
  intros [V U N0 L E] He. constructor; try done. intros j e'. cbn.
  destruct (decide (j = i)) as [->|Hne]; [rewrite lookup_insert_eq; by intros [= <-]|].
  rewrite lookup_insert_ne by done. apply E.
Qed.

Lemma inv_drop_election G c i : Inv G c → Inv G (with_election i None c).
Proof using Hmembers.
  intros [V U N0 L E]. constructor; try done. intros j e'. cbn.
  rewrite lookup_delete_Some. intros [_ ?]. by apply E.
Qed.

(** ** Every step preserves it *)

Lemma inv_timeout G c i n req n' :
  Inv G c → nodes c !! i = Some n → (current_term_ n + 1 < 2 ^ 64)%N →
  start_election n = (req, n') →
  let c' := with_election i (Some (mkElection req 1 (peers_ n) None)) (with_node i n' c) in
  ∃ G', votes_cast G G' c c' ∧ Inv G' c'.
Proof using Hmembers.
  intros HI Hn Ht E c'. pose proof (inv_node _ _ HI i n Hn) as [Hid Hp].
  pose proof (keeps_timeout n Ht) as K. rewrite E in K. cbn [snd] in K.
  pose proof (inv_keeps _ _ _ _ _ HI Hn K) as HI'.
  assert (Hv : voted_for_ n' = Some i ∧ rv_term req = current_term_ n' ∧ candidate_id req = i).
  { unfold start_election in E. injection E as <- <-. cbn. rewrite Hid. done. }
  destruct Hv as (Hv & Hrt & Hci).
  assert (Hcast : cast c c' i (current_term_ n') i).
  { unfold start_election in E. injection E as <- <-. eapply cast_self; [exact Hn|apply lookup_insert_eq|..]; try done.
    cbn. rewrite wrap_fits by done. lia. }
  exists ({[ (i, current_term_ n', i) ]} ∪ G). split; [by apply votes_cast_one|]. apply inv_set_election.
  - apply inv_grant; [exact HI'|cbn; apply lookup_insert_eq|exact Hv].
  - split; [done|]. exists [i]. cbn [el_req el_votes el_rest]. rewrite Hrt. split; [|done].
    constructor; cbn; [by rewrite Hp|by rewrite Hp|done|].
    intros v ->%list_elem_of_singleton. set_solver.
Qed.

Lemma inv_ask G c i e p rest n resp n' :
  Inv G c → elections c !! i = Some e → el_rest e = p :: rest →
  nodes c !! p = Some n → OnRequestVote (el_req e) n = (resp, n') →
  let c' := with_election i (Some (mkElection (el_req e) (el_votes e) rest (Some resp)))
              (with_node p n' c) in
  ∃ G', votes_cast G G' c c' ∧ Inv G' c'.
Proof using Hmembers.
  intros HI He Hrest Hn E c'. pose proof (keeps_vote_request (el_req e) n) as K. rewrite E in K.
  pose proof (inv_keeps _ _ _ _ _ HI Hn K) as HI'.
  destruct (inv_election _ _ HI i e He) as (Hc & Q & [ND Hm Hl Hg] & _).
  rewrite Hrest in *.
  assert (HQ : NoDup (Q ++ rest) ∧ p ∉ Q ++ rest ∧ Q ++ rest ⊆ members ∧ p ∈ members).
  { rewrite <-Permutation_middle in ND, Hm. apply NoDup_cons in ND as [? ?]. set_solver. }
  destruct HQ as (ND' & Hnp & Hm' & Hpm).
  destruct (vote_granted resp) eqn:Hv.
  - pose proof (vote_granted_spec (el_req e) n) as S. rewrite E in S. cbn [fst snd] in S.
    destruct (S Hv) as (Hct & Hvf & _).
    exists ({[ (p, current_term_ n', candidate_id (el_req e)) ]} ∪ G). split.
    { rewrite Hct, Hc. apply votes_cast_one. eapply cast_peer; [done..|]. by rewrite E. }
    apply inv_set_election.
    + apply inv_grant; [exact HI'|cbn; apply lookup_insert_eq|exact Hvf].
    + split; [done|]. exists Q. cbn [el_req el_votes el_rest el_resp]. split.
      * constructor; try done. intros v Hin. apply elem_of_union. right. by apply Hg.
      * intros _ _ _. exists p. rewrite Hct, Hc. set_solver.
  - exists G. split; [apply votes_cast_same|]. apply inv_set_election; [done|]. split; [done|]. exists Q.
    split; [by constructor|].
    cbn. intros r [= <-]. by rewrite Hv.
Qed.

Lemma inv_ask_down G c i e p rest r :
  Inv G c → elections c !! i = Some e → el_rest e = p :: rest → vote_granted r = false →
  Inv G (with_election i (Some (mkElection (el_req e) (el_votes e) rest (Some r))) c).
Proof using Hmembers.
  intros HI He Hrest Hr. destruct (inv_election _ _ HI i e He) as (Hc & Q & [ND Hm Hl Hg] & _).
  rewrite Hrest in *. rewrite <-Permutation_middle in ND, Hm.
  apply inv_set_election; [done|]. split; [done|]. exists Q. split.
  - apply NoDup_cons in ND as [? ?]. constructor; try done. set_solver.
  - cbn. intros r' [= <-]. by rewrite Hr.
Qed.

Lemma inv_collect G c i e resp n go_on votes n' :
  Inv G c → elections c !! i = Some e → el_resp e = Some resp → nodes c !! i = Some n →
  on_vote_response (rv_term (el_req e)) (el_votes e) resp n = (go_on, votes, n') →
  Inv G (with_election i
    (if go_on then Some (mkElection (el_req e) votes (el_rest e) None) else None)
    (with_node i n' c)).
Proof using Hmembers.
  intros HI He Hresp Hn E. destruct (inv_election _ _ HI i e He) as (Hc & Q & HQ & Hpend).
  specialize (Hpend resp Hresp). apply vote_response_spec in E.
  assert (Hsup : ∃ Q', supporters G (rv_term (el_req e)) i
     (if vote_granted resp then el_votes e + 1 else el_votes e)%N (el_rest e) Q').
  { destruct (vote_granted resp); [|by exists Q]. destruct (Hpend eq_refl) as (v & Hv & Hnv & Hg).
    destruct HQ as [ND Hm Hl Hgr]. exists (v :: Q). constructor; cbn.
    - by apply NoDup_cons.
    - set_solver.
    - lia.
    - intros x [->|Hx]%elem_of_cons; auto. }
  destruct Hsup as (Q' & HQ').
  assert (Hel : ∀ c', Inv G c' → (votes = el_votes e ∨
      votes = (if vote_granted resp then el_votes e + 1 else el_votes e)%N) →
    Inv G (with_election i
      (if go_on then Some (mkElection (el_req e) votes (el_rest e) None) else None) c')).
  { intros c' HI' Hv. destruct go_on; [|by apply inv_drop_election].
    apply inv_set_election; [done|]. split; [done|].
    destruct Hv as [->| ->]; [exists Q|exists Q']; by split. }
  destruct E as [[K Hv]|[Hv [K|(-> & _ & Hrole & Ht & Htn & Hvf & Hid & Hp & Hneed & _)]]].
  - apply Hel; [by eapply inv_keeps|by left].
  - apply Hel; [by eapply inv_keeps|by right].
  - apply inv_drop_election. destruct (inv_node _ _ HI i n Hn) as [Hidn Hpn].
    destruct HI as [V U N0 L EL]. destruct HQ' as [ND Hm Hl Hgr]. constructor; cbn; [| | | |done].
    + intros p t x Hg. destruct (V p t x Hg) as (m & Hlm & Hlt & Hvote).
      destruct (decide (p = i)) as [->|Hne]; [|exists m; by rewrite lookup_insert_ne].
      rewrite Hn in Hlm. injection Hlm as <-. exists n'. rewrite lookup_insert_eq, Ht, Hvf. done.
    + done.
    + intros j m. destruct (decide (j = i)) as [->|Hne].
      * rewrite lookup_insert_eq. intros [= <-]. by rewrite Hid, Hp.
      * rewrite lookup_insert_ne by done. apply N0.
    + intros j m. destruct (decide (j = i)) as [->|Hne].
      * rewrite lookup_insert_eq. intros [= <-] _. exists Q'. rewrite Ht, Htn.
        split_and!; [by apply NoDup_app in ND as (? & _)|set_solver| |done].
        rewrite <-(needed_quorum n i) by done. lia.
      * rewrite lookup_insert_ne by done. apply L.
Qed.

(** The votes granted grow by those that the step gives. *)
Lemma inv_votes_step G c c' : Inv G c → step c c' → ∃ G', votes_cast G G' c c' ∧ Inv G' c'.
Proof using Hmembers.
  intros HI Hs. destruct Hs; [by eapply inv_timeout|by eapply inv_ask|..];
    exists G; (split; [apply votes_cast_same|]).
  - by eapply inv_ask_down.
  - by eapply inv_collect.
  - by apply inv_drop_election.
  - eapply inv_keeps; [done..|apply keeps_append].
  - eapply inv_keeps; [done..|apply keeps_heartbeat].
  - eapply inv_keeps; [done..|]. by constructor.
  - eapply inv_keeps; [done..|apply keeps_proposal].
  - eapply inv_keeps; [done..|apply keeps_commit].
  - eapply inv_keeps; [done..|apply keeps_apply].
Qed.

Lemma inv_cluster_step G c c' : Inv G c → step c c' → ∃ G', G ⊆ G' ∧ Inv G' c'.
Proof using Hmembers.
  intros HI Hs. destruct (inv_votes_step G c c' HI Hs) as (G' & [HG _] & HI'). by exists G'.
Qed.

Lemma inv_initial c : initial members c → Inv ∅ c.
Proof using Hmembers.
  intros (_ & He & Hn). constructor.
  - intros p t x Hg. by apply not_elem_of_empty in Hg.
  - intros p t x y Hg. by apply not_elem_of_empty in Hg.
  - intros i n Hi. destruct (Hn i n Hi) as (peers & -> & Hp). done.
  - intros i n Hi Hr. destruct (Hn i n Hi) as (peers & -> & Hp). done.
  - intros i e. by rewrite He, lookup_empty.
Qed.

(** Two quorums share a member. *)
Lemma quorums_meet Q1 Q2 :
  NoDup Q1 → NoDup Q2 → Q1 ⊆ members → Q2 ⊆ members →
  (quorum ≤ N.of_nat (length Q1))%N → (quorum ≤ N.of_nat (length Q2))%N →
  ∃ v, v ∈ Q1 ∧ v ∈ Q2.
Proof using Hmembers.
  intros N1 N2 S1 S2 L1 L2.
  destruct (decide (Exists (λ v, v ∈ Q2) Q1)) as [Hx|Hx].
  { apply Exists_exists in Hx as (v & ? & ?). by exists v. }
  exfalso. assert (NoDup (Q1 ++ Q2)) as ND.
  { apply NoDup_app. split_and!; [done| |done]. intros v H1 H2. apply Hx, Exists_exists. eauto. }
  assert (Q1 ++ Q2 ⊆ members) as HS by set_solver.
  pose proof (submseteq_length _ _ (NoDup_submseteq _ _ ND HS)) as Hl. rewrite length_app in Hl.
  unfold quorum in *. pose proof (N.div_mod (N.of_nat (length members)) 2 ltac:(lia)).
  pose proof (N.mod_lt (N.of_nat (length members)) 2 ltac:(lia)). lia.
Qed.

Lemma elected_mono G G' t i : G ⊆ G' → elected G t i → elected G' t i.
Proof using Hmembers. intros HG (Q & ? & ? & ? & HQ). exists Q. split_and!; auto. Qed.

(** A term has one elected candidate, if nobody votes twice in it. *)
Lemma elected_once (G : Votes) t i j :
  (∀ p x y, (p, t, x) ∈ G → (p, t, y) ∈ G → x = y) → elected G t i → elected G t j → i = j.
Proof using Hmembers.
  intros HU (Q1 & ? & ? & ? & G1) (Q2 & ? & ? & ? & G2).
  destruct (quorums_meet Q1 Q2) as (v & V1 & V2); try done.
  apply (HU v); [by apply G1|by apply G2].
Qed.

Lemma elected_unique G c t i j : Inv G c → elected G t i → elected G t j → i = j.
Proof using Hmembers. intros HI. apply elected_once. intros p. apply (inv_unique _ _ HI). Qed.

Lemma inv_reachable c0 c : initial members c0 → rtc step c0 c → ∃ G, Inv G c.
Proof using Hmembers.
  intros Hinit%inv_initial Hrtc. revert Hinit. generalize (∅ : Votes).
  induction Hrtc as [|c1 c2 c3 Hs _ IH]; intros G HI; [by exists G|].
  destruct (inv_cluster_step G c1 c2 HI Hs) as (G' & _ & HI'). by apply (IH G').
Qed.

End Safety.

(** ** Properties *)

(** C2: Election safety.  In every reachable state of a cluster whose nodes
    have each other as peers, whatever the interleaving of elections, append
    requests and other sections, two nodes that lead in the same term are the
    same node. *)
Theorem election_safety members c0 c i j n m :
  initial members c0 → rtc step c0 c →
  nodes c !! i = Some n → nodes c !! j = Some m →
  role_ n = Leader → role_ m = Leader → current_term_ n = current_term_ m → i = j.
Proof.
  intros Hinit Hrtc. pose proof Hinit as (Hnd & _).
  destruct (inv_reachable members Hnd c0 c Hinit Hrtc) as [G HI]. intros Hi Hj Ri Rj Et.
  apply (elected_unique members Hnd G c (current_term_ n)); [done|by eapply inv_leader|].
  rewrite Et. by eapply inv_leader.
Qed.

(** ** Witness: an election won *)

Definition example_members : list Z := [1; 2; 3]%Z.
Definition example_cluster : Cluster :=
  mkCluster (<[1%Z := make 1 [2; 3]%Z]> (<[2%Z := make 2 [1; 3]%Z]> {[3%Z := make 3 [1; 2]%Z]})) ∅.

Lemma example_initial : initial example_members example_cluster.
Proof.
  split; [by apply (bool_decide_unpack _)|]. split; [done|]. intros i n Hi.
  cbn in Hi. rewrite !lookup_insert_Some in Hi. rewrite lookup_singleton_Some in Hi.
  destruct Hi as [[<- <-]|[_ [[<- <-]|[_ [<- <-]]]]]; eexists; (split; [done|]);
    by apply (bool_decide_unpack _).
Qed.

(** Node 1 times out, asks node 2, which grants its vote, and wins. *)
Lemma example_election :
  ∃ c n, rtc step example_cluster c ∧ nodes c !! 1%Z = Some n ∧ role_ n = Leader ∧ current_term_ n = 1%N.
Proof.
  eexists _, _. split_and!.
  - eapply rtc_l; [eapply (step_timeout _ 1%Z); [reflexivity|discriminate|reflexivity..]|].
    eapply rtc_l; [eapply (step_ask _ 1%Z); [reflexivity|reflexivity|reflexivity|reflexivity|vm_compute; reflexivity]|].
    eapply rtc_once. eapply (step_collect _ 1%Z); [reflexivity|reflexivity|reflexivity|vm_compute; reflexivity].
  - vm_compute. reflexivity.
  - reflexivity.
  - reflexivity.
Qed.

Lemma election_safety_witness :
  ∃ c n, rtc step example_cluster c ∧ nodes c !! 1%Z = Some n ∧ role_ n = Leader ∧
    ∀ j m, nodes c !! j = Some m → role_ m = Leader → current_term_ m = current_term_ n → j = 1%Z.
Proof.
  destruct example_election as (c & n & Hrun & Hn & Hr & _). exists c, n.
  split; [exact Hrun|]. split; [exact Hn|]. split; [exact Hr|]. intros j m Hj Hm Ht.
  exact (election_safety example_members example_cluster c j 1%Z m n example_initial Hrun Hj Hn Hm Hr Ht).
Defined.

End RaftElection.
