(* ===== verification/RaftTimers.v ===== *)
(** * Timers of the Raft nodes

    What [Raft] and [RaftElection] leave out: when a node last heard from a leader
    or granted a vote ([last_heard_]), the time it waits ([election_timeout_]), and
    the two sections of [ElectionLoop] that decide whether an election starts.
    Every cluster with timers is a cluster of [RaftElection] ([timed_run]); a leader
    whose followers keep hearing from it keeps its place ([leader_stays]), and a
    node that hears nothing is soon a candidate ([silence_elects]).

    Times are nanoseconds of the steady clock.  The number that
    [uniform_int_distribution] draws is part of each step. *)

From S2P Require Import Prelude CxxString Raft RaftElection.

Module RaftTimers.
Import Raft RaftElection.

(** ** Nodes with timers *)

Definition kMinElectionMs : Z := 150.
Definition kMaxElectionMs : Z := 300.

(** [std::chrono::milliseconds], compared with a difference of readings. *)
Definition milliseconds (x : Z) : Z := (x * 1000000)%Z.

Record Timer := mkTimer { last_heard_ : Z; election_timeout_ : Z }.

(** The default member initialisers. *)
Definition new_timer : Timer := mkTimer 0 200.

(** A reading of the clock, and the number drawn after it. *)
Record Tick := mkTick { reading : Z; drawn : Z }.

Definition in_range (k : Tick) : Prop := (kMinElectionMs ≤ drawn k ≤ kMaxElectionMs)%Z.

Definition ResetElectionTimeoutLocked (k : Tick) (m : Timer) : Timer := mkTimer (last_heard_ m) (drawn k).

(** [last_heard_ = now()] and the reset that always follows it. *)
Definition hear (k : Tick) (m : Timer) : Timer :=
  ResetElectionTimeoutLocked k (mkTimer (reading k) (election_timeout_ m)).

Definition TimedNode : Type := RaftNode * Timer.

Definition Start (k : Tick) (x : TimedNode) : TimedNode :=
  if running_ x.1 then x else (Raft.Start x.1, hear k x.2).

Definition BecomeFollowerLocked (k : Tick) (new_term : N) (leader : option Z) (x : TimedNode) : TimedNode :=
  (Raft.BecomeFollowerLocked new_term leader x.1, hear k x.2).

Definition BecomeCandidateLocked (k : Tick) (x : TimedNode) : TimedNode :=
  (Raft.BecomeCandidateLocked x.1, hear k x.2).

(** The vote handler reads the clock when it follows a new term and when it grants
    the vote. *)
Definition OnRequestVote (k1 k2 : Tick) (req : RequestVoteReq) (x : TimedNode) : RequestVoteResp * TimedNode :=
  if (rv_term req <? current_term_ x.1)%N then (mkVoteResp (current_term_ x.1) false, x)
  else
    let x := if (current_term_ x.1 <? rv_term req)%N
             then BecomeFollowerLocked k1 (rv_term req) None x else x in
    let n := x.1 in
    let can_vote := match voted_for_ n with
                    | None => true
                    | Some v => bool_decide (v = candidate_id req)
                    end in
    if can_vote && IsUpToDateLocked (last_log_index req) (last_log_term req) n then
      (mkVoteResp (current_term_ n) true,
       (set_election (role_ n) (leader_id_ n) (current_term_ n) (Some (candidate_id req)) n, hear k2 x.2))
    else (mkVoteResp (current_term_ n) false, x).

(** Both branches after the term check read the clock. *)
Definition OnAppendEntries (k : Tick) (req : AppendEntriesReq) (x : TimedNode) : AppendEntriesResp * TimedNode :=
  let '(resp, n) := Raft.OnAppendEntries req x.1 in
  (resp, (n, if (ae_term req <? current_term_ x.1)%N then x.2 else hear k x.2)).

Definition start_election (k : Tick) (x : TimedNode) : RequestVoteReq * TimedNode :=
  let x := BecomeCandidateLocked k x in
  (mkVoteReq (current_term_ x.1) (id_ x.1) (LastLogIndexLocked x.1) (LastLogTermLocked x.1), x).

(** The sections after a response read the clock when they step down. *)
Definition on_vote_response (k : Tick) (term_started votes : N) (resp : RequestVoteResp) (x : TimedNode)
    : bool * N * TimedNode :=
  let '(go_on, votes, n) := Raft.on_vote_response term_started votes resp x.1 in
  let steps_down := bool_decide (role_ x.1 = Candidate) && (current_term_ x.1 =? term_started)%N &&
                    (current_term_ x.1 <? rvr_term resp)%N in
  (go_on, votes, (n, if steps_down then hear k x.2 else x.2)).

Definition on_heartbeat_response (k : Tick) (p : Z) (req : AppendEntriesReq) (resp : AppendEntriesResp)
    (x : TimedNode) : TimedNode :=
  (Raft.on_heartbeat_response p req resp x.1,
   if (current_term_ x.1 <? aer_term resp)%N then hear k x.2 else x.2).

Definition on_proposal_response (k : Tick) (acks : N) (resp : AppendEntriesResp) (x : TimedNode) : TimedNode :=
  ((Raft.on_proposal_response acks resp x.1).2,
   if IsLeaderLocked x.1 && (current_term_ x.1 <? aer_term resp)%N then hear k x.2 else x.2).

Definition on_commit_response (k : Tick) (resp : AppendEntriesResp) (x : TimedNode) : TimedNode :=
  ((Raft.on_commit_response resp x.1).2,
   if (current_term_ x.1 <? aer_term resp)%N then hear k x.2 else x.2).

(** What [ElectionLoop] copied in its first section, and its decision at time [t]:
    whether it goes back to sleep.  The time of the copy is not in the code; it is
    there to state how long the thread takes to decide. *)
Record Copy := mkCopy { my_role : RaftRole; my_timer : Timer; copied_at : Z }.

Definition keeps_waiting (c : Copy) (t : Z) : bool :=
  bool_decide (my_role c = Leader) ||
  bool_decide (t - last_heard_ (my_timer c) < milliseconds (election_timeout_ (my_timer c)))%Z.

(** ** Clusters with timers *)

(** The cluster, its timers, the time, and what each election thread that is
    about to decide has copied. *)
Record TimedCluster := mkTimed {
  cluster : Cluster;
  timers : gmap Z Timer;
  now : Z;
  copies : gmap Z Copy;
}.

Definition timed_at (s : TimedCluster) (i : Z) : option TimedNode :=
  match nodes (cluster s) !! i, timers s !! i with
  | Some n, Some m => Some (n, m)
  | _, _ => None
  end.

Definition with_timed (i : Z) (x : TimedNode) (s : TimedCluster) : TimedCluster :=
  mkTimed (with_node i x.1 (cluster s)) (<[i := x.2]> (timers s)) (now s) (copies s).
Definition with_timed_election (i : Z) (o : option Election) (s : TimedCluster) : TimedCluster :=
  mkTimed (with_election i o (cluster s)) (timers s) (now s) (copies s).
Definition with_copy (i : Z) (o : option Copy) (s : TimedCluster) : TimedCluster :=
  mkTimed (cluster s) (timers s) (now s) (match o with Some c => <[i := c]> (copies s) | None => delete i (copies s) end).
Definition at_time (t : Z) (s : TimedCluster) : TimedCluster := mkTimed (cluster s) (timers s) t (copies s).

(** A section whose last reading of the clock is [k] ends no earlier. *)
Definition reads (k : Tick) (s : TimedCluster) : Prop := (now s ≤ reading k)%Z ∧ in_range k.

Section Steps.
(** The append requests that may arrive at a node, and the terms that responses to
    append requests may carry. *)
Context (may_arrive : Z → AppendEntriesReq → Prop) (may_answer : N → Prop).

Inductive timed_step (s : TimedCluster) : TimedCluster → Prop :=
  (** time passes *)
  | t_wait t : (now s ≤ t)%Z → timed_step s (at_time t s)
  (** the election thread: the copy, the decision to wait, the decision to start *)
  | t_copy i n m :
      timed_at s i = Some (n, m) → elections (cluster s) !! i = None → copies s !! i = None →
      timed_step s (with_copy i (Some (mkCopy (role_ n) m (now s))) s)
  | t_sleep i c :
      copies s !! i = Some c → keeps_waiting c (now s) = true → timed_step s (with_copy i None s)
  | t_start i c x k req x' :
      copies s !! i = Some c → keeps_waiting c (now s) = false → timed_at s i = Some x → reads k s →
      (current_term_ x.1 + 1 < 2 ^ 64)%N → start_election k x = (req, x') →
      timed_step s (at_time (reading k) (with_copy i None
        (with_timed_election i (Some (mkElection req 1 (peers_ x.1) None)) (with_timed i x' s))))
  (** the votes *)
  | t_ask i e p rest x k1 k2 resp x' :
      elections (cluster s) !! i = Some e → el_resp e = None → el_rest e = p :: rest →
      timed_at s p = Some x → reads k1 s → reads k2 (at_time (reading k1) s) →
      OnRequestVote k1 k2 (el_req e) x = (resp, x') →
      timed_step s (at_time (reading k2)
        (with_timed_election i (Some (mkElection (el_req e) (el_votes e) rest (Some resp))) (with_timed p x' s)))
  | t_ask_down i e p rest :
      elections (cluster s) !! i = Some e → el_resp e = None → el_rest e = p :: rest →
      timed_step s (with_timed_election i (Some (mkElection (el_req e) (el_votes e) rest
                      (Some (mkVoteResp (rv_term (el_req e)) false)))) s)
  | t_collect i e resp x k go_on votes x' :
      elections (cluster s) !! i = Some e → el_resp e = Some resp → timed_at s i = Some x → reads k s →
      on_vote_response k (rv_term (el_req e)) (el_votes e) resp x = (go_on, votes, x') →
      timed_step s (at_time (reading k)
        (with_timed_election i (if go_on then Some (mkElection (el_req e) votes (el_rest e) None) else None)
          (with_timed i x' s)))
  | t_lost i e :
      elections (cluster s) !! i = Some e → el_resp e = None → el_rest e = [] →
      timed_step s (with_timed_election i None s)
  (** the append requests and the responses to them *)
  | t_append p req x k :
      may_arrive p req → timed_at s p = Some x → reads k s →
      timed_step s (at_time (reading k) (with_timed p (OnAppendEntries k req x).2 s))
  | t_heartbeat i p req resp x k :
      may_answer (aer_term resp) → timed_at s i = Some x → reads k s →
      timed_step s (at_time (reading k) (with_timed i (on_heartbeat_response k p req resp x) s))
  | t_proposal_response i acks resp x k :
      may_answer (aer_term resp) → timed_at s i = Some x → reads k s →
      timed_step s (at_time (reading k) (with_timed i (on_proposal_response k acks resp x) s))
  | t_commit_response i resp x k :
      may_answer (aer_term resp) → timed_at s i = Some x → reads k s →
      timed_step s (at_time (reading k) (with_timed i (on_commit_response k resp x) s))
  (** proposals and the apply loop do not use the clock *)
  | t_propose i e n m :
      timed_at s i = Some (n, m) → IsLeaderLocked n = true →
      timed_step s (with_timed i (append_proposal e n, m) s)
  | t_apply i n m :
      timed_at s i = Some (n, m) → timed_step s (with_timed i ((take_committed n).2, m) s).

End Steps.

(** A cluster whose nodes have just been started. *)
Definition started (members : list Z) (s : TimedCluster) : Prop :=
  initial members (cluster s) ∧ copies s = ∅ ∧
  ∀ i m, timers s !! i = Some m → ∃ k, m = hear k new_timer ∧ in_range k ∧ (reading k ≤ now s)%Z.

(** ** The timers do not change what the sections do *)

Lemma vote_erase k1 k2 req x resp x' :
  OnRequestVote k1 k2 req x = (resp, x') → Raft.OnRequestVote req x.1 = (resp, x'.1).
Proof.
  unfold OnRequestVote, Raft.OnRequestVote. destruct (rv_term req <? _)%N; [by intros [= <- <-]|].
  destruct (current_term_ x.1 <? rv_term req)%N; cbn [fst BecomeFollowerLocked]; cbv zeta;
    destruct (_ && _); by intros [= <- <-].
Qed.

Lemma start_erase k x req x' : start_election k x = (req, x') → Raft.start_election x.1 = (req, x'.1).
Proof. by intros [= <- <-]. Qed.

Lemma collect_erase k t v resp x g v' x' :
  on_vote_response k t v resp x = (g, v', x') → Raft.on_vote_response t v resp x.1 = (g, v', x'.1).
Proof. unfold on_vote_response. destruct (Raft.on_vote_response _ _ _ _) as [[g1 v1] n1]. by intros [= <- <- <-]. Qed.

Lemma append_erase k req x : (OnAppendEntries k req x).2.1 = (Raft.OnAppendEntries req x.1).2.
Proof. unfold OnAppendEntries. by destruct (Raft.OnAppendEntries _ _). Qed.

Lemma timed_at_Some s i x : timed_at s i = Some x ↔ nodes (cluster s) !! i = Some x.1 ∧ timers s !! i = Some x.2.
Proof.
  unfold timed_at. destruct (nodes (cluster s) !! i) as [n|], (timers s !! i) as [m|], x; split;
    try (by intros [=]); try (by intros [[=] [=]]); intros H; [by simplify_eq|]. by destruct H; simplify_eq/=.
Qed.

(** ** Timers *)

(** A timer in a cluster at time [t]. *)
Definition timer_ok (t : Z) (m : Timer) : Prop :=
  (last_heard_ m ≤ t)%Z ∧ (kMinElectionMs ≤ election_timeout_ m ≤ kMaxElectionMs)%Z.

(** What a section that ends at time [t] does to the timer. *)
Definition hears (t : Z) (m m' : Timer) : Prop :=
  m' = m ∨ ∃ k, in_range k ∧ (reading k ≤ t)%Z ∧ m' = mkTimer (reading k) (drawn k).

Lemma timer_ok_mono t t' m : (t ≤ t')%Z → timer_ok t m → timer_ok t' m.
Proof. intros Ht [H1 H2]. split; [lia|done]. Qed.

Lemma timer_ok_hears t m m' : timer_ok t m → hears t m m' → timer_ok t m'.
Proof. intros Hm [->|(k & Hk & Ht & ->)]; [done|by split]. Qed.

Lemma hears_if (b : bool) t k m : in_range k → (reading k ≤ t)%Z → hears t m (if b then hear k m else m).
Proof. destruct b; [right|by left]. by exists k. Qed.

Lemma hears_if' (b : bool) t k m : in_range k → (reading k ≤ t)%Z → hears t m (if b then m else hear k m).
Proof. intros Hk Ht. pose proof (hears_if (negb b) t k m Hk Ht) as H. by destruct b. Qed.

Lemma vote_hears k1 k2 req x resp x' :
  OnRequestVote k1 k2 req x = (resp, x') → in_range k1 → in_range k2 → (reading k1 ≤ reading k2)%Z →
  hears (reading k2) x.2 x'.2.
Proof.
  unfold OnRequestVote. intros E H1 H2 Hle. revert E. destruct (rv_term req <? _)%N; [intros [= _ <-]; by left|].
  destruct (current_term_ x.1 <? rv_term req)%N; cbn [fst snd BecomeFollowerLocked]; cbv zeta;
    destruct (_ && _); intros [= _ <-]; first [by left|right; by exists k2|right; by exists k1].
Qed.

Lemma append_hears k req x : in_range k → hears (reading k) x.2 (OnAppendEntries k req x).2.2.
Proof. intros Hk. unfold OnAppendEntries. destruct (Raft.OnAppendEntries _ _). by apply hears_if'. Qed.

Lemma collect_hears k t v resp x g v' x' :
  on_vote_response k t v resp x = (g, v', x') → in_range k → hears (reading k) x.2 x'.2.
Proof.
  unfold on_vote_response. intros E Hk. revert E. destruct (Raft.on_vote_response _ _ _ _) as [[g1 v1] n1].
  intros [= _ _ <-]. by apply hears_if.
Qed.

(** ** The invariant *)

Record TimedInv (s : TimedCluster) : Prop := mkTimedInv {
  ti_timer i m : timers s !! i = Some m → timer_ok (now s) m;
  ti_copy i c : copies s !! i = Some c → timer_ok (now s) (my_timer c);
  ti_thread i c : copies s !! i = Some c → elections (cluster s) !! i = None;
  ti_role i c n : copies s !! i = Some c → my_role c ≠ Leader → nodes (cluster s) !! i = Some n → role_ n ≠ Leader;
}.

Lemma inv_time t s : (now s ≤ t)%Z → TimedInv s → TimedInv (at_time t s).
Proof.
  intros Ht [I1 I2 I3 I4]. split; cbn; [|..|done|done]; intros i ? Hi; eapply timer_ok_mono; eauto.
Qed.

(** A section of node [i]. *)
Lemma inv_section s i x x' t :
  TimedInv s → timed_at s i = Some x → (now s ≤ t)%Z → hears t x.2 x'.2 →
  (elections (cluster s) !! i = None → role_ x'.1 = Leader → role_ x.1 = Leader) →
  TimedInv (at_time t (with_timed i x' s)).
Proof.
  intros HI [Hn Hm]%timed_at_Some Ht Hh Hr. apply (inv_time t) in HI; [|done]. destruct HI as [I1 I2 I3 I4].
  split; cbn in *; [|done|done|].
  - intros j m. destruct (decide (i = j)) as [<-|]; [rewrite lookup_insert_eq|rewrite lookup_insert_ne by done; eauto].
    intros [= <-]. eapply timer_ok_hears; eauto.
  - intros j c n Hc Hl. destruct (decide (i = j)) as [<-|]; [rewrite lookup_insert_eq|rewrite lookup_insert_ne by done; eauto].
    intros [= <-] E. by apply (I4 i c x.1 Hc Hl Hn), Hr; [apply (I3 i c)|].
Qed.

Lemma inv_election s i o : TimedInv s → copies s !! i = None ∨ o = None → TimedInv (with_timed_election i o s).
Proof.
  intros [I1 I2 I3 I4] Ho. split; cbn; [done|done| |by destruct o].
  intros j c Hc. destruct o as [e|]; cbn; [|apply lookup_delete_None; eauto].
  rewrite lookup_insert_ne; [eauto|]. intros <-. destruct Ho; congruence.
Qed.

Lemma inv_no_copy s i : TimedInv s → TimedInv (with_copy i None s).
Proof.
  intros [I1 I2 I3 I4]. split; cbn; [done|..]; intros j c; [..|intros n];
    intros [_ Hc]%lookup_delete_Some; eauto.
Qed.

Lemma inv_copy s i n m :
  TimedInv s → timed_at s i = Some (n, m) → elections (cluster s) !! i = None →
  TimedInv (with_copy i (Some (mkCopy (role_ n) m (now s))) s).
Proof.
  intros [I1 I2 I3 I4] [Hn Hm]%timed_at_Some He. split; cbn; [done|..]; intros j c; [..|intros n'];
    (intros [[<- <-]|[_ Hc]]%lookup_insert_Some; [|eauto]); cbn in *; eauto. congruence.
Qed.

Lemma no_copy_electing s i e : TimedInv s → elections (cluster s) !! i = Some e → copies s !! i = None.
Proof. intros [_ _ I3 _] He. destruct (copies s !! i) as [c|] eqn:Hc; [|done]. apply I3 in Hc. congruence. Qed.

(** ** Every step is one of the cluster *)

Section Refinement.
Context (may_arrive : Z → AppendEntriesReq → Prop) (may_answer : N → Prop).
Notation tstep := (timed_step may_arrive may_answer).

Lemma keeps_led n n' : keeps n n' → role_ n' = Leader → role_ n = Leader.
Proof. by intros K [? _]%(keeps_leader _ _ K). Qed.

Lemma step_inv s s' : tstep s s' → TimedInv s → TimedInv s'.
Proof.
  intros [] HI.
  - by apply inv_time.
  - by eapply inv_copy.
  - by apply inv_no_copy.
  - match goal with H : reads _ _ |- _ => destruct H as [Ht Hk] end.
    match goal with H : copies s !! i = Some c |- _ => rename H into Hc end.
    match goal with H : start_election _ _ = _ |- _ => rename H into Hs end.
    apply (inv_election (at_time (reading k) (with_timed i x' (with_copy i None s)))); [|left; by apply lookup_delete_eq].
    apply inv_section with x; [by apply inv_no_copy|done|done| |].
    + injection Hs as _ <-. right. by exists k.
    + intros _ Hl. injection Hs as _ <-. discriminate Hl.
  - match goal with H : reads k1 _ |- _ => destruct H as [Ht1 Hk1] end.
    match goal with H : reads k2 _ |- _ => destruct H as [Ht2 Hk2] end. cbn in Ht2.
    match goal with H : OnRequestVote _ _ _ _ = _ |- _ => rename H into Hv end.
    apply (inv_election (at_time (reading k2) (with_timed p x' s))); [|left; by eapply (no_copy_electing s)].
    apply inv_section with x; [done|done|lia|by eapply vote_hears|].
    intros _. apply keeps_led. apply vote_erase in Hv. pose proof (keeps_vote_request (el_req e) x.1) as K.
    by rewrite Hv in K.
  - apply inv_election; [done|left; by eapply (no_copy_electing s)].
  - match goal with H : reads _ _ |- _ => destruct H as [Ht Hk] end.
    apply (inv_election (at_time (reading k) (with_timed i x' s))); [|left; by eapply (no_copy_electing s)].
    apply inv_section with x; [done|done|done|by eapply collect_hears|]. intros. congruence.
  - apply inv_election; [done|by right].
  - match goal with H : reads _ _ |- _ => destruct H as [Ht Hk] end.
    apply inv_section with x; [done|done|done|by apply append_hears|].
    intros _. rewrite append_erase. apply keeps_led, keeps_append.
  - match goal with H : reads _ _ |- _ => destruct H as [Ht Hk] end.
    apply inv_section with x; [done|done|done|by apply hears_if|]. intros _. apply keeps_led, keeps_heartbeat.
  - match goal with H : reads _ _ |- _ => destruct H as [Ht Hk] end.
    apply inv_section with x; [done|done|done|by apply hears_if|]. intros _. apply keeps_led, keeps_proposal.
  - match goal with H : reads _ _ |- _ => destruct H as [Ht Hk] end.
    apply inv_section with x; [done|done|done|by apply hears_if|]. intros _. apply keeps_led, keeps_commit.
  - apply (inv_section s i (n, m) (append_proposal e n, m) (now s)); try done; by left.
  - apply (inv_section s i (n, m) ((take_committed n).2, m) (now s)); try done; [by left|].
    intros _. apply keeps_led, keeps_apply.
Qed.

Lemma step_cluster s s' :
  tstep s s' → TimedInv s → step (cluster s) (cluster s') ∨ cluster s' = cluster s.
Proof.
  intros [] HI; cbn; repeat match goal with H : timed_at _ _ = Some _ |- _ => apply timed_at_Some in H as [? ?] end;
    try (by right); left.
  - eapply step_timeout; [done| |by eapply ti_thread|done|by eapply start_erase].
    eapply ti_role; [done..| |done]. intros Hl. unfold keeps_waiting in *. by rewrite Hl in *.
  - eapply step_ask; [done..|by eapply vote_erase].
  - by eapply step_ask_down.
  - eapply step_collect; [done..|by eapply collect_erase].
  - by eapply step_lost.
  - rewrite append_erase. by apply step_append.
  - by apply step_heartbeat.
  - by apply step_proposal_response.
  - by apply step_commit_response.
  - by apply step_propose.
  - by apply step_apply.
Qed.

Lemma started_inv members s : started members s → TimedInv s.
Proof.
  intros (_ & Hc & Ht). split; [|by intros i c; rewrite Hc, lookup_empty..].
  intros i m (k & -> & Hk & Hn)%Ht. by split.
Qed.

Lemma timed_run_inv s s' : rtc tstep s s' → TimedInv s → TimedInv s' ∧ rtc step (cluster s) (cluster s').
Proof.
  induction 1 as [|s1 s2 s3 H1 _ IH]; intros HI; [done|].
  destruct (IH (step_inv _ _ H1 HI)) as [HI3 R]. split; [done|].
  destruct (step_cluster _ _ H1 HI) as [Hs| <-]; [by eapply rtc_l|done].
Qed.

End Refinement.

(** ** A leader whose followers hear from it *)

(** What may arrive while [L] leads in term [T]: requests of earlier terms, and
    those of [T], which are sent by [L] to others. *)
Definition from_leader (L : Z) (T : N) (p : Z) (req : AppendEntriesReq) : Prop :=
  (ae_term req < T)%N ∨ ae_term req = T ∧ p ≠ L.

(** Every other node has heard within the last [gap], and its election thread
    decides within [delay] of its copy. *)
Definition timely (L gap delay : Z) (s : TimedCluster) : Prop :=
  (∀ i m, i ≠ L → timers s !! i = Some m → now s - last_heard_ m ≤ gap)%Z ∧
  (∀ i c, i ≠ L → copies s !! i = Some c → now s - copied_at c ≤ delay)%Z.

(** The copies that other election threads hold were taken within [gap] of the time
    they hold. *)
Definition recent_copies (L gap : Z) (s : TimedCluster) : Prop :=
  ∀ i c, i ≠ L → copies s !! i = Some c → (copied_at c - last_heard_ (my_timer c) ≤ gap)%Z.

(** [L] leads in term [T], no election is in progress, and no node is in a later
    term. *)
Record leads (L : Z) (T : N) (s : TimedCluster) : Prop := mkLeads {
  ld_elections : elections (cluster s) = ∅;
  ld_leader : ∃ n, nodes (cluster s) !! L = Some n ∧ role_ n = Leader ∧ current_term_ n = T;
  ld_others i n : i ≠ L → nodes (cluster s) !! i = Some n → role_ n ≠ Leader ∧ (current_term_ n ≤ T)%N;
  ld_copy c : copies s !! L = Some c → my_role c = Leader;
}.

Section Leading.
Context (L : Z) (T : N).

(** A node's section that keeps what [leads] says of it. *)
Definition stays (i : Z) (n n' : RaftNode) : Prop :=
  if decide (i = L) then role_ n' = Leader ∧ current_term_ n' = T
  else role_ n' ≠ Leader ∧ (current_term_ n' ≤ T)%N.

Lemma leads_stays s i n : leads L T s → nodes (cluster s) !! i = Some n → stays i n n.
Proof.
  intros [_ (l & Hl & Hr & Ht) Ho _] Hn. unfold stays. case_decide as Hi; [|by eapply Ho].
  subst i. by simplify_eq.
Qed.

Lemma leads_section s i x x' t :
  leads L T s → timed_at s i = Some x → stays i x.1 x'.1 → leads L T (at_time t (with_timed i x' s)).
Proof.
  intros [He (l & Hl & Hr & Ht) Ho Hc] [Hn _]%timed_at_Some Hs. unfold stays in Hs. split; cbn; [done| | |done].
  - case_decide as Hi; [subst i; rewrite lookup_insert_eq|rewrite lookup_insert_ne by done]; eauto.
  - intros j n Hj. destruct (decide (i = j)) as [->|];
      [rewrite lookup_insert_eq|rewrite lookup_insert_ne by done; by apply Ho].
    rewrite decide_False in Hs by done. by intros [= <-].
Qed.

Lemma append_low req n : (ae_term req < current_term_ n)%N → (Raft.OnAppendEntries req n).2 = n.
Proof. intros H. unfold Raft.OnAppendEntries. by rewrite (proj2 (N.ltb_lt _ _) H). Qed.

Lemma append_term req n : current_term_ (Raft.OnAppendEntries req n).2 = N.max (current_term_ n) (ae_term req).
Proof.
  unfold Raft.OnAppendEntries. destruct (N.ltb_spec (ae_term req) (current_term_ n)); [cbn; lia|].
  cbv zeta. destruct (N.ltb_spec (current_term_ n) (ae_term req)); repeat case_match; cbn; lia.
Qed.

Lemma stays_append s i req n :
  leads L T s → nodes (cluster s) !! i = Some n → from_leader L T i req →
  stays i n (Raft.OnAppendEntries req n).2.
Proof.
  intros Hs Hn Hreq. pose proof (leads_stays s i n Hs Hn) as H. unfold stays in *. case_decide as Hi.
  - destruct H as [Hr Ht], Hreq as [Hreq|[_ ?]]; [|done]. rewrite append_low by lia. done.
  - split; [|rewrite append_term; destruct Hreq as [?|[? _]]; lia].
    intros Hl. destruct H as [H _]. by apply H, (keeps_led _ _ (keeps_append req n)).
Qed.

(** A section that keeps term and role, or is not the leader's. *)
Lemma stays_same s i n n' :
  leads L T s → nodes (cluster s) !! i = Some n → role_ n' = role_ n → current_term_ n' = current_term_ n → stays i n n'.
Proof.
  intros Hs Hn Er Et. pose proof (leads_stays s i n Hs Hn) as H. unfold stays in *. by rewrite Er, Et.
Qed.

Lemma stays_step_down s i n t :
  leads L T s → nodes (cluster s) !! i = Some n → (t ≤ T)%N → (current_term_ n < t)%N → stays i n (step_down t n).
Proof.
  intros Hs Hn Ht Hlt. pose proof (leads_stays s i n Hs Hn) as H. unfold stays in *. case_decide; [lia|]. by split.
Qed.

Lemma stays_heartbeat s i p req resp n :
  leads L T s → nodes (cluster s) !! i = Some n → (aer_term resp ≤ T)%N →
  stays i n (Raft.on_heartbeat_response p req resp n).
Proof.
  intros Hs Hn Ht. unfold Raft.on_heartbeat_response. destruct (N.ltb_spec (current_term_ n) (aer_term resp)).
  - by apply (stays_step_down s).
  - apply (stays_same s); [done..| |]; unfold AdvanceCommitIndexLocked; repeat case_match; done.
Qed.

Lemma stays_proposal s i acks resp n :
  leads L T s → nodes (cluster s) !! i = Some n → (aer_term resp ≤ T)%N →
  stays i n (Raft.on_proposal_response acks resp n).2.
Proof.
  intros Hs Hn Ht. unfold Raft.on_proposal_response. destruct (negb _); [by eapply leads_stays|].
  destruct (N.ltb_spec (current_term_ n) (aer_term resp)); [by apply (stays_step_down s)|].
  cbv zeta. destruct (_ <=? _)%N; by eapply leads_stays.
Qed.

Lemma stays_commit s i resp n :
  leads L T s → nodes (cluster s) !! i = Some n → (aer_term resp ≤ T)%N →
  stays i n (Raft.on_commit_response resp n).2.
Proof.
  intros Hs Hn Ht. unfold Raft.on_commit_response.
  destruct (N.ltb_spec (current_term_ n) (aer_term resp)); [by apply (stays_step_down s)|by eapply leads_stays].
Qed.

Context (gap delay : Z) (Hgap : (gap + delay < milliseconds kMinElectionMs)%Z).

Lemma no_start s i c :
  TimedInv s → leads L T s → recent_copies L gap s → timely L gap delay s → copies s !! i = Some c →
  keeps_waiting c (now s) = true.
Proof using Hgap.
  intros HI Hs Hrec [_ Ht] Hc. unfold keeps_waiting. apply orb_true_iff. destruct (decide (i = L)) as [->|Hi].
  - left. by apply bool_decide_eq_true, (ld_copy _ _ _ Hs).
  - right. apply bool_decide_eq_true. destruct (ti_copy _ HI i c Hc) as [_ [Hmin _]].
    specialize (Hrec i c Hi Hc). specialize (Ht i c Hi Hc). unfold milliseconds in *. lia.
Qed.

(** A copy is as recent as the timer it is taken from. *)
Lemma recent_step A R s s' :
  timed_step A R s s' → timely L gap delay s → recent_copies L gap s → recent_copies L gap s'.
Proof using.
  intros Hstep [Ht _] Hrec. destruct Hstep; try exact Hrec.
  - match goal with H : timed_at _ _ = Some _ |- _ => apply timed_at_Some in H as [_ Hm] end.
    intros j c Hj. cbn. intros [[<- <-]|[_ Hc]]%lookup_insert_Some; [|by apply (Hrec j)].
    cbn in *. by apply Ht with (i := i).
  - intros j c' Hj. cbn. intros [_ Hc]%lookup_delete_Some. by apply (Hrec j).
  - intros j c' Hj. cbn. intros [_ Hc]%lookup_delete_Some. by apply (Hrec j).
Qed.

Lemma leads_step s s' :
  timed_step (from_leader L T) (λ t, (t ≤ T)%N) s s' → TimedInv s → recent_copies L gap s →
  timely L gap delay s → leads L T s → leads L T s'.
Proof using Hgap.
  intros Hstep HI Hrec Ht Hs. pose proof (ld_elections _ _ _ Hs) as He.
  destruct Hstep; try (by rewrite He, lookup_empty in *);
    try match goal with H : timed_at _ _ = Some _ |- _ => pose proof (proj1 (timed_at_Some _ _ _) H) as [Hn _] end.
  - by destruct Hs.
  - destruct Hs as [? (l & Hl & Hr & Hlt) ? Hc]. split; cbn in *; [done|by exists l|done|].
    intros c [[<- <-]|[_ ?]]%lookup_insert_Some; [cbn; congruence|by apply Hc].
  - destruct Hs as [? ? ? Hc]. split; cbn in *; [done..|]. intros c' [_ ?]%lookup_delete_Some. by apply Hc.
  - pose proof (no_start s i c HI Hs Hrec Ht ltac:(done)). congruence.
  - apply leads_section with x; [done..|]. rewrite append_erase. by apply (stays_append s).
  - apply leads_section with x; [done..|]. by apply (stays_heartbeat s).
  - apply leads_section with x; [done..|]. by apply (stays_proposal s).
  - apply leads_section with x; [done..|]. by apply (stays_commit s).
  - apply (leads_section s i (n, m) (append_proposal e n, m) (now s)); [done..|]. by apply (stays_same s).
  - apply (leads_section s i (n, m) ((take_committed n).2, m) (now s)); [done..|].
    apply (stays_same s); [done..| |]; unfold take_committed; by destruct (_ <? _)%N.
Qed.

Lemma leads_run s s' :
  rtc (λ a b, timely L gap delay a ∧ timed_step (from_leader L T) (λ t, (t ≤ T)%N) a b) s s' →
  TimedInv s → recent_copies L gap s → leads L T s → TimedInv s' ∧ leads L T s'.
Proof using Hgap.
  induction 1 as [|s1 s2 s3 [Ht H1] _ IH]; intros HI Hrec Hs; [done|].
  apply IH; [by eapply step_inv|by eapply recent_step|by eapply leads_step].
Qed.

End Leading.

(** ** Properties *)

(** Timers only choose among the runs of the cluster.  A run of a cluster with
    timers is, timers apart, a run of the cluster in which an election may start
    whenever its node does not lead: although the election thread decides on a copy
    of the node's role, the role cannot have become the leader's since.  Every
    timeout stays between 150 and 300 milliseconds. *)
Theorem timed_run may_arrive may_answer members s s' :
  started members s → rtc (timed_step may_arrive may_answer) s s' →
  rtc step (cluster s) (cluster s') ∧
  ∀ i m, timers s' !! i = Some m →
    (last_heard_ m ≤ now s' ∧ kMinElectionMs ≤ election_timeout_ m ≤ kMaxElectionMs)%Z.
Proof.
  intros Hs R. destruct (timed_run_inv _ _ s s' R (started_inv members s Hs)) as [HI Hrun].
  split; [done|]. intros i m. apply (ti_timer _ HI).
Qed.


(** Silence elects.  When a node that is not leading has heard nothing for the
    longest timeout, its election thread decides to start an election whenever it
    looks, and then it is a candidate in the next term. *)
Theorem silence_elects may_arrive may_answer members s0 s i n m d :
  started members s0 → rtc (timed_step may_arrive may_answer) s0 s →
  timed_at s i = Some (n, m) → role_ n ≠ Leader → elections (cluster s) !! i = None → copies s !! i = None →
  (milliseconds kMaxElectionMs ≤ now s - last_heard_ m)%Z → (kMinElectionMs ≤ d ≤ kMaxElectionMs)%Z →
  (current_term_ n + 1 < 2 ^ 64)%N →
  (∀ t, (now s ≤ t)%Z → keeps_waiting (mkCopy (role_ n) m (now s)) t = false) ∧
  ∃ s' n' m' e, rtc (timed_step may_arrive may_answer) s s' ∧ timed_at s' i = Some (n', m') ∧
    role_ n' = Candidate ∧ current_term_ n' = (current_term_ n + 1)%N ∧ voted_for_ n' = Some (id_ n) ∧
    elections (cluster s') !! i = Some e ∧ el_rest e = peers_ n.
Proof.
  intros H0 R0 Hx Hr He Hc Hlong Hd Hfit.
  destruct (timed_run_inv _ _ s0 s R0 (started_inv members s0 H0)) as [HI _].
  assert (Hw : ∀ t, (now s ≤ t)%Z → keeps_waiting (mkCopy (role_ n) m (now s)) t = false).
  { intros t Ht. unfold keeps_waiting. cbn. rewrite bool_decide_eq_false_2 by done. apply bool_decide_eq_false_2.
    apply timed_at_Some in Hx as [_ Hm]. destruct (ti_timer _ HI i m Hm) as [_ [_ Hmax]].
    unfold milliseconds in *. lia. }
  split; [done|]. eexists _, _, _, _. split.
  - eapply rtc_l; [by eapply t_copy|]. eapply rtc_once.
    eapply (t_start _ _ _ i _ (n, m) (mkTick (now s) d));
      [by apply lookup_insert_eq|by apply Hw|exact Hx|by split|exact Hfit|reflexivity].
  - split_and!; [apply timed_at_Some; cbn; by rewrite !lookup_insert_eq|done|by apply wrap_fits|done
                |apply lookup_insert_eq|done].
Qed.

(** ** Witnesses *)

Definition at_ms (t d : Z) : Tick := mkTick (milliseconds t) d.

(** Three nodes started at time 0; node 1 drew the shortest timeout. *)
Definition example_timed : TimedCluster :=
  mkTimed example_cluster
    (<[1%Z := hear (at_ms 0 150) new_timer]> (<[2%Z := hear (at_ms 0 300) new_timer]>
      {[3%Z := hear (at_ms 0 300) new_timer]})) 0 ∅.

Lemma example_started : started example_members example_timed.
Proof.
  split; [exact example_initial|]. split; [done|]. intros i m. cbn.
  rewrite !lookup_insert_Some, lookup_singleton_Some.
  intros [[_ <-]|[_ [[_ <-]|[_ [_ <-]]]]]; eexists; (split; [reflexivity|]); by split.
Qed.

(** A heartbeat of node 1 in term 1. *)
Definition beat : AppendEntriesReq := mkAppend 1 1 0 0 [] 0.

Ltac compute_timed :=
  match goal with |- rtc ?R ?x ?y => let x' := eval vm_compute in x in change (rtc R x' y) end.
Ltac timed_next c := eapply rtc_l; [c|compute_timed].
Ltac now_reads := split; [by apply (bool_decide_unpack _); vm_compute|done].

Definition any_request (p : Z) (req : AppendEntriesReq) : Prop := True.
Definition any_term (t : N) : Prop := True.

Lemma leads_checked L T s :
  elections (cluster s) = ∅ →
  (∃ n, nodes (cluster s) !! L = Some n ∧ role_ n = Leader ∧ current_term_ n = T) →
  map_Forall (λ i n, i = L ∨ role_ n ≠ Leader ∧ (current_term_ n ≤ T)%N) (nodes (cluster s)) →
  copies s !! L = None → leads L T s.
Proof.
  intros He Hl Ho Hc. split; [done|done| |intros c; by rewrite Hc]. intros i n Hi Hn. by destruct (Ho i n Hn).
Qed.

Lemma timely_checked L gap delay s :
  map_Forall (λ i m, i = L ∨ (now s - last_heard_ m ≤ gap)%Z) (timers s) →
  map_Forall (λ i c, i = L ∨ (now s - copied_at c ≤ delay)%Z) (copies s) →
  timely L gap delay s.
Proof.
  intros Ht Hc. split; intros i ? Hi H; [by destruct (Ht i _ H)|by destruct (Hc i _ H)].
Qed.

(** Node 1 is elected by node 2 after 150 ms. *)
Ltac elect_first :=
  timed_next ltac:(apply (t_wait _ _ _ (milliseconds 150)); done);
  timed_next ltac:(eapply (t_copy _ _ _ 1%Z); reflexivity);
  timed_next ltac:(eapply (t_start _ _ _ 1%Z _ _ (at_ms 150 200)); [reflexivity|reflexivity|reflexivity|now_reads|reflexivity|reflexivity]);
  timed_next ltac:(eapply (t_ask _ _ _ 1%Z _ _ _ _ (at_ms 150 200) (at_ms 151 200));
      [reflexivity|reflexivity|reflexivity|reflexivity|now_reads|now_reads|vm_compute; reflexivity]);
  timed_next ltac:(eapply (t_collect _ _ _ 1%Z _ _ _ (at_ms 151 200));
      [reflexivity|reflexivity|reflexivity|now_reads|vm_compute; reflexivity]).

Ltac timely_now := apply timely_checked; apply (bool_decide_unpack _); vm_compute; done.
Ltac timed_stay c := eapply rtc_l; [split; [timely_now|c]|compute_timed].

(** At [t] ms a heartbeat reaches both followers, and node 2's election thread
    looks. *)
Ltac beat_at t :=
  timed_stay ltac:(apply (t_wait _ _ _ (milliseconds t)); done);
  timed_stay ltac:(eapply (t_append _ _ _ 2%Z beat _ (at_ms t 150)); [by right|reflexivity|now_reads]);
  timed_stay ltac:(eapply (t_append _ _ _ 3%Z beat _ (at_ms t 150)); [by right|reflexivity|now_reads]);
  timed_stay ltac:(eapply (t_copy _ _ _ 2%Z); reflexivity);
  timed_stay ltac:(eapply (t_sleep _ _ _ 2%Z); reflexivity).

(** Node 1 is elected after 150 ms, its first heartbeat reaches both others, and so
    do those of the next 200 ms. *)
Lemma example_timely_run :
  ∃ s s', rtc (timed_step any_request any_term) example_timed s ∧ leads 1 1 s ∧
    recent_copies 1 (milliseconds 100) s ∧
    rtc (λ a b, timely 1 (milliseconds 100) (milliseconds 40) a ∧ timed_step (from_leader 1 1) (λ t, (t ≤ 1)%N) a b) s s' ∧
    (now s + milliseconds 200 ≤ now s')%Z.
Proof.
  eexists _, _. split_and!.
  - elect_first.
    timed_next ltac:(eapply (t_append _ _ _ 2%Z beat _ (at_ms 151 150)); [done|reflexivity|now_reads]).
    timed_next ltac:(eapply (t_append _ _ _ 3%Z beat _ (at_ms 151 150)); [done|reflexivity|now_reads]).
    apply rtc_refl.
  - by apply leads_checked; [reflexivity|eexists; split; [reflexivity|done]|apply (bool_decide_unpack _)|].
  - by intros i c _ Hc.
  - beat_at 200%Z. beat_at 250%Z. beat_at 300%Z. beat_at 360%Z. apply rtc_refl.
  - apply (bool_decide_unpack _). vm_compute. done.
Qed.

Lemma timed_run_witness :
  ∃ s', rtc (timed_step any_request any_term) example_timed s' ∧ (∃ n, leads 1 n s') ∧
    rtc step example_cluster (cluster s').
Proof.
  destruct example_timely_run as (s & _ & R & Hs & _). exists s. split; [exact R|]. split; [by exists 1%N|].
  exact (proj1 (timed_run any_request any_term example_members example_timed s example_started R)).
Defined.


Lemma silence_elects_witness :
  ∃ s', rtc (timed_step any_request any_term) example_timed s' ∧
    ∃ n, nodes (cluster s') !! 2%Z = Some n ∧ role_ n = Candidate ∧ current_term_ n = 1%N.
Proof.
  assert (R : rtc (timed_step any_request any_term) example_timed (at_time (milliseconds 300) example_timed))
    by (apply rtc_once, t_wait; done).
  destruct (silence_elects any_request any_term example_members example_timed
    (at_time (milliseconds 300) example_timed) 2 (make 2 [1; 3]%Z) (hear (at_ms 0 300) new_timer) 222
    example_started R) as (_ & s' & n' & m' & e & R' & Hx & Hr & Ht & _); [done..|].
  exists s'. split; [by etransitivity|]. exists n'. apply timed_at_Some in Hx as [Hn _]. by split_and!.
Defined.

(** ** Where the code departs from its purpose *)

(** An election starts although the leader was just heard.  The election thread
    copies [last_heard_] in one section and starts the election in another, without
    looking again.  In this run node 2 copies, then receives a heartbeat of its
    leader, and then starts an election all the same. *)
Theorem election_despite_heartbeat :
  ∃ s1 s2 s3, rtc (timed_step any_request any_term) example_timed s1 ∧
    s2 = at_time (milliseconds 460) (with_timed 2 (OnAppendEntries (at_ms 460 300) beat
           (default (make 2 [], new_timer) (timed_at s1 2))).2 s1) ∧
    timed_step any_request any_term s1 s2 ∧ timed_step any_request any_term s2 s3 ∧
    (∃ l, timed_at s2 1 = Some l ∧ role_ l.1 = Leader) ∧
    (∃ n m, timed_at s2 2 = Some (n, m) ∧ role_ n = Follower ∧ last_heard_ m = now s2) ∧
    (∃ n m, timed_at s3 2 = Some (n, m) ∧ role_ n = Candidate ∧ current_term_ n = 2%N) ∧ now s3 = now s2.
Proof.
  eexists _, _, _. split.
  - elect_first.
    timed_next ltac:(apply (t_wait _ _ _ (milliseconds 455)); done).
    timed_next ltac:(eapply (t_copy _ _ _ 2%Z); reflexivity).
    apply rtc_refl.
  - split; [reflexivity|]. split; [by eapply (t_append _ _ _ 2%Z beat _ (at_ms 460 300)); [done|reflexivity|now_reads]|].
    split; [eapply (t_start _ _ _ 2%Z _ _ (at_ms 460 300)); [reflexivity|reflexivity|reflexivity|now_reads|reflexivity|reflexivity]|].
    split_and!; repeat eexists; vm_compute; reflexivity.
Qed.

End RaftTimers.
