(* ===== verification/RaftSpec.v ===== *)
(** * Correctness of the Raft node's sections

    Vote and append handlers, replication by heartbeats, commitment, the apply
    loop against the state-machine interface, and where the code departs from
    the protocol (definitions in [Raft.v]). *)

From S2P Require Import Prelude CxxString FileSystem KVStore Raft.

(** [IRaftStateMachine]: what the apply loop needs of the store. *)
Class StateMachine (M : Type) := {
  ApplyPut : str → str → M → M;
  ApplyDel : str → M → M;
  sm_view : M → gmap str str;
  ApplyPut_view k v s : sm_view (ApplyPut k v s) = <[k := v]> (sm_view s);
  ApplyDel_view k s : sm_view (ApplyDel k s) = delete k (sm_view s);
}.

(** The store implements it. *)
#[export] Instance store_machine : StateMachine (KVStore.KVStore * World).
Proof.
  refine {| ApplyPut k v e := (KVStore.ApplyPut k v e).2;
            ApplyDel k e := (KVStore.ApplyDel k e).2;
            sm_view e := KVStore.map_ e.1 |}; done.
Defined.

Module RaftSpec.
Import Raft.

(** ** Commitment *)

Lemma sorted_tail_ge (l : list N) k x :
  StronglySorted N.le l → l !! k = Some x → Forall (λ y, x ≤ y)%N (drop k l).
Proof.
  intros S. revert k. induction S as [|y l S IH F]; intros k Hk; [done|].
  destruct k as [|k]; simpl in *; [|by apply IH].
  injection Hk as ->. by constructor.
Qed.

Lemma filter_all {A} (P : A → Prop) `{∀ x, Decision (P x)} l : Forall P l → filter P l = l.
Proof.
  induction 1 as [|x l HP _ IH]; [done|]. rewrite filter_cons_True by done. by rewrite IH.
Qed.

Lemma filter_none {A} (P : A → Prop) `{∀ x, Decision (P x)} l :
  Forall (λ x, ¬ P x) l → filter P l = [].
Proof.
  induction 1 as [|x l HP _ IH]; [done|]. by rewrite filter_cons_False by done.
Qed.

Lemma sorted_head_le (l : list N) k x :
  StronglySorted N.le l → l !! k = Some x → Forall (λ y, y ≤ x)%N (take (S k) l).
Proof.
  intros S. revert k. induction S as [|y l S IH F]; intros k Hk; [done|].
  destruct k as [|k]; simpl in *.
  - injection Hk as ->. constructor; [lia|]. by rewrite take_0.
  - constructor; [|by apply IH]. rewrite Forall_lookup in F. by apply (F k).
Qed.

#[local] Instance N_le_total : Total N.le.
Proof. intros a b. lia. Qed.
#[local] Instance N_le_trans : Transitive N.le.
Proof. intros a b c. lia. Qed.

(** At least half the values, rounded up, reach the chosen one. *)
Lemma majority_count vs :
  vs ≠ [] →
  length vs - length vs `div` 2 ≤ length (filter (λ v, majority_index vs ≤ v)%N vs).
Proof.
  intros Hne. unfold majority_index.
  set (sorted := merge_sort N.le vs).
  assert (P : sorted ≡ₚ vs) by apply merge_sort_Permutation.
  assert (Hl : length sorted = length vs) by (by rewrite P).
  assert (Hlt : length vs `div` 2 < length sorted).
  { rewrite Hl. apply Nat.div_lt; [destruct vs; [done|simpl; lia]|lia]. }
  apply lookup_lt_is_Some in Hlt as [x Hx].
  assert (Hx' : merge_sort N.le vs !! (length vs `div` 2) = Some x) by exact Hx.
  assert (E : default 0%N (sorted !! (length vs `div` 2)) = x) by (by rewrite Hx).
  assert (G : ∀ d, d = x → length vs - length vs `div` 2 ≤ length (filter (λ v, d ≤ v)%N vs)).
  { intros d ->.
    assert (length (filter (λ v, x ≤ v)%N vs) = length (filter (λ v, x ≤ v)%N sorted)) as ->.
    { apply Permutation_length. by rewrite P. }
    assert (filter (λ v, x ≤ v)%N sorted =
      filter (λ v, x ≤ v)%N (take (length vs `div` 2) sorted ++ drop (length vs `div` 2) sorted))
      as -> by (by rewrite take_drop).
    rewrite filter_app, length_app.
    assert (filter (λ v, x ≤ v)%N (drop (length vs `div` 2) sorted) = drop (length vs `div` 2) sorted) as ->.
    { apply filter_all.
      assert (Forall (λ y, x ≤ y)%N (drop (length vs `div` 2) sorted)) as F.
      { apply sorted_tail_ge; [|done]. apply StronglySorted_merge_sort; apply _. }
      exact F. }
    rewrite length_drop, Hl. lia. }
  by apply G.
Qed.

(** Conversely, a value that a strict majority reaches is at most the chosen one. *)
Lemma majority_max vs x :
  length vs `div` 2 < length (filter (λ v, x ≤ v)%N vs) → (x ≤ majority_index vs)%N.
Proof.
  intros Hc. destruct (N.le_gt_cases x (majority_index vs)) as [|Hlt]; [done|exfalso].
  unfold majority_index in Hlt. set (sorted := merge_sort N.le vs) in *.
  assert (P : sorted ≡ₚ vs) by apply merge_sort_Permutation.
  assert (Hl : length sorted = length vs) by (by rewrite P).
  assert (SS : StronglySorted N.le sorted) by (apply StronglySorted_merge_sort; apply _).
  assert (Hvs : length vs `div` 2 < length sorted).
  { pose proof (length_filter (λ v, x ≤ v)%N vs). lia. }
  apply lookup_lt_is_Some in Hvs as [y Hy].
  assert (Hyx : (y < x)%N).
  { enough (default 0%N (sorted !! (length vs `div` 2)) = y) as <- by done. by rewrite Hy. }
  assert (length (filter (λ v, x ≤ v)%N vs) = length (filter (λ v, x ≤ v)%N sorted)) as Hf.
  { apply Permutation_length. by rewrite P. }
  rewrite <-(take_drop (S (length vs `div` 2)) sorted), filter_app, length_app in Hf.
  rewrite (filter_none _ (take (S (length vs `div` 2)) sorted)) in Hf.
  - pose proof (length_filter (λ v, x ≤ v)%N (drop (S (length vs `div` 2)) sorted)) as Hd.
    rewrite length_drop in Hd. cbn [length] in Hf.
    pose proof (Nat.div_mod_eq (length vs) 2). pose proof (Nat.mod_upper_bound (length vs) 2). lia.
  - eapply Forall_impl; [by apply sorted_head_le|]. cbn. intros z Hz. lia.
Qed.

(** ** The append handler *)

Lemma append_term_log req n :
  (current_term_ n ≤ ae_term req)%N →
  let n1 := if (current_term_ n <? ae_term req)%N
            then BecomeFollowerLocked (ae_term req) (Some (ae_leader_id req)) n
            else set_election Follower (Some (ae_leader_id req)) (current_term_ n) (voted_for_ n) n in
  log_ n1 = log_ n ∧ current_term_ n1 = ae_term req ∧ commit_index_ n1 = commit_index_ n.
Proof. intros Ht. cbv zeta. destruct (N.ltb_spec (current_term_ n) (ae_term req)); cbn; split_and!; lia || done. Qed.

(** The consistency check of the handler. *)
Definition consistent (req : AppendEntriesReq) (log : list LogEntry) : bool :=
  (prev_log_index req <=? N.of_nat (length log))%N &&
  (term_at log (prev_log_index req) =? prev_log_term req)%N.

(** The log a successful append leaves. *)
Definition appended_log (req : AppendEntriesReq) (log : list LogEntry) : list LogEntry :=
  match entries req with
  | [] => log
  | es => take (N.to_nat (prev_log_index req)) log ++ es
  end.

Lemma OnAppendEntries_run req n :
  (current_term_ n ≤ ae_term req)%N →
  let '(resp, n') := OnAppendEntries req n in
  aer_term resp = ae_term req ∧ current_term_ n' = ae_term req ∧
  success resp = consistent req (log_ n) ∧
  log_ n' = (if consistent req (log_ n) then appended_log req (log_ n) else log_ n) ∧
  commit_index_ n' =
    (if consistent req (log_ n) && (commit_index_ n <? leader_commit req)%N
     then N.min (leader_commit req) (N.of_nat (length (log_ n'))) else commit_index_ n).
Proof.
  intros Ht. pose proof (append_term_log req n Ht) as H1. unfold OnAppendEntries.
  destruct (N.ltb_spec (ae_term req) (current_term_ n)); [lia|]. clear H.
  set (n1 := if (current_term_ n <? ae_term req)%N then _ else _) in *.
  destruct H1 as (Hl & Hct & Hc). unfold LastLogIndexLocked, TermAtLocked, consistent.
  rewrite Hl. rewrite N.leb_antisym.
  destruct (N.of_nat (length (log_ n)) <? prev_log_index req)%N eqn:E1; cbn [negb andb fst snd].
  { by split_and!. }
  destruct (term_at (log_ n) (prev_log_index req) =? prev_log_term req)%N eqn:E2; cbn [negb];
    [|by split_and!].
  apply N.ltb_ge in E1. unfold appended_log.
  assert (Hcut : (if (prev_log_index req <? N.of_nat (length (log_ n)))%N
                  then take (N.to_nat (prev_log_index req)) (log_ n) else log_ n)
                 = take (N.to_nat (prev_log_index req)) (log_ n)).
  { destruct (N.ltb_spec (prev_log_index req) (N.of_nat (length (log_ n)))); [done|].
    rewrite take_ge by lia. done. }
  destruct (entries req) as [|e es].
  - rewrite Hc. destruct (_ <? leader_commit req)%N; cbn; rewrite ?Hl; by split_and!.
  - cbn. rewrite Hcut, Hc. destruct (_ <? leader_commit req)%N; cbn; by split_and!.
Qed.

(** ** Replication by heartbeats *)

(** One heartbeat from leader [l] to peer [p] in state [f]. *)
Definition heartbeat (p : Z) (st : RaftNode * RaftNode) : RaftNode * RaftNode :=
  let '(l, f) := st in
  let req := BuildAppendEntriesLocked p l in
  let '(resp, f) := OnAppendEntries req f in
  (on_heartbeat_response p req resp l, f).

(** The log matching property of two logs. *)
Definition matching (log1 log2 : list LogEntry) : Prop :=
  ∀ i, i ≤ length log1 → i ≤ length log2 →
    term_at log1 (N.of_nat i) = term_at log2 (N.of_nat i) → take i log1 = take i log2.

Lemma advance_log n : log_ (AdvanceCommitIndexLocked n) = log_ n ∧
  current_term_ (AdvanceCommitIndexLocked n) = current_term_ n ∧
  next_index_ (AdvanceCommitIndexLocked n) = next_index_ n ∧
  match_index_ (AdvanceCommitIndexLocked n) = match_index_ n ∧
  role_ (AdvanceCommitIndexLocked n) = role_ n.
Proof. unfold AdvanceCommitIndexLocked. by destruct (_ <? _)%N; [destruct (_ =? _)%N|]. Qed.

(** The request for a peer whose next index is in the log. *)
Lemma build_suffix p l nx :
  next_index_ l !! p = Some nx → (1 ≤ nx ≤ N.of_nat (length (log_ l)))%N →
  let req := BuildAppendEntriesLocked p l in
  ae_term req = current_term_ l ∧ prev_log_index req = (nx - 1)%N ∧
  prev_log_term req = term_at (log_ l) (nx - 1) ∧
  entries req = drop (N.to_nat (nx - 1)) (log_ l) ∧ ∃ e es, entries req = e :: es.
Proof.
  intros Hnx Hle. unfold BuildAppendEntriesLocked. rewrite Hnx. cbn [default].
  assert ((if ((nx =? 0) || (nx =? 1))%N then 0%N else (nx - 1)%N) = (nx - 1)%N) as E.
  { destruct (N.eqb_spec nx 0), (N.eqb_spec nx 1); cbn; lia. }
  cbn. rewrite E. rewrite !(proj2 (N.leb_le _ _)) by lia. cbn [andb]. split_and!; try done.
  destruct (drop _ _) as [|e es] eqn:D; [|by eexists _, _].
  apply (f_equal length) in D. rewrite length_drop in D. simpl in D. lia.
Qed.

(** A heartbeat with entries to send either brings the follower's log to the
    leader's, or moves the peer's next index one back. *)
Lemma heartbeat_step p l f nx :
  next_index_ l !! p = Some nx → (1 ≤ nx ≤ N.of_nat (length (log_ l)))%N →
  fits 63 (N.of_nat (length (log_ l))) →
  (current_term_ f ≤ current_term_ l)%N → matching (log_ l) (log_ f) →
  let '(l', f') := heartbeat p (l, f) in
  log_ l' = log_ l ∧ current_term_ l' = current_term_ l ∧ role_ l' = role_ l ∧
  current_term_ f' = current_term_ l ∧
  ((log_ f' = log_ l ∧ match_index_ l' !! p = Some (N.of_nat (length (log_ l)))) ∨
   (1 < nx)%N ∧ log_ f' = log_ f ∧ next_index_ l' !! p = Some (nx - 1)%N).
Proof.
  intros Hnx Hle Hfit Ht LM. unfold heartbeat.
  set (req := BuildAppendEntriesLocked p l).
  pose proof (build_suffix p l nx Hnx Hle) as Hreq. fold req in Hreq.
  destruct Hreq as (R1 & R2 & R3 & R4 & e0 & es0 & Hes).
  pose proof (OnAppendEntries_run req f) as Hrun. rewrite R1 in Hrun. specialize (Hrun Ht).
  destruct (OnAppendEntries req f) as [resp f'] eqn:E.
  destruct Hrun as (H1 & H2 & H3 & H4 & _).
  unfold on_heartbeat_response. rewrite H1, N.ltb_irrefl.
  rewrite H3. destruct (consistent req (log_ f)) eqn:C.
  - unfold consistent in C. apply andb_true_iff in C as [C1 C2].
    apply N.leb_le in C1. apply N.eqb_eq in C2.
    rewrite Hes. pose proof (advance_log (set_indexes
      (<[p := wrap64 (wrap64 (prev_log_index req + N.of_nat (length (e0 :: es0))) + 1)]> (next_index_ l))
      (<[p := wrap64 (prev_log_index req + N.of_nat (length (e0 :: es0)))]> (match_index_ l)) l))
      as (A1 & A2 & _ & A4 & A5).
    cbv zeta. set (la := AdvanceCommitIndexLocked _) in *.
    cbn [log_ current_term_ set_indexes match_index_ role_] in *. unfold subscript.
    rewrite A1, A2, A4, A5. split_and!; try done. left.
    assert (Hlen : (prev_log_index req + N.of_nat (length (e0 :: es0)) = N.of_nat (length (log_ l)))%N).
    { rewrite <-Hes, R4, length_drop, R2. lia. }
    split.
    + rewrite H4. unfold appended_log. rewrite Hes, <-Hes, R4, R2.
      rewrite <-(LM (N.to_nat (nx - 1))); [apply take_drop|lia|lia|].
      rewrite N2Nat.id, <-R3, <-C2, R2. done.
    + rewrite !lookup_insert_eq, Hlen. cbn [from_option id]. f_equal. apply wrap_fits. unfold fits in *.
      apply N.lt_trans with (2 ^ 63)%N; [done|]. by apply N.pow_lt_mono_r.
  - rewrite Hnx.
    assert (1 < nx)%N as Hgt.
    { destruct (decide (nx = 1%N)) as [->|]; [|lia]. exfalso.
      unfold consistent in C. rewrite R3, R2 in C. by destruct (length (log_ f)). }
    rewrite (proj2 (N.ltb_lt _ _)) by done. cbv zeta.
    cbn [log_ current_term_ set_indexes next_index_ role_]. unfold subscript.
    split_and!; try done. right. rewrite !lookup_insert_eq. cbn [from_option id].
    split_and!; [done|done|]. f_equal. lia.
Qed.

(** ** The apply loop *)

Section Apply.
Context {M : Type} {machine : StateMachine M}.

Definition apply_entry (e : LogEntry) (s : M) : M :=
  match op e with
  | Put => ApplyPut (key e) (value e) s
  | Del => ApplyDel (key e) s
  end.

(** One iteration of [ApplyLoop]. *)
Definition apply_once (st : RaftNode * M) : RaftNode * M :=
  let '(o, n) := take_committed st.1 in
  (n, match o with Some e => apply_entry e st.2 | None => st.2 end).

(** What an entry does to the map. *)
Definition entry_effect (m : gmap str str) (e : LogEntry) : gmap str str :=
  match op e with
  | Put => <[key e := value e]> m
  | Del => delete (key e) m
  end.

Lemma apply_entry_view e s : sm_view (apply_entry e s) = entry_effect (sm_view s) e.
Proof using.
  unfold apply_entry, entry_effect. destruct (op e); [apply ApplyPut_view|apply ApplyDel_view].
Qed.

Lemma apply_n_run k n s :
  (last_applied_ n + N.of_nat k ≤ commit_index_ n)%N →
  (commit_index_ n ≤ N.of_nat (length (log_ n)))%N →
  let '(n', s') := Nat.iter k apply_once (n, s) in
  n' = set_applied (last_applied_ n + N.of_nat k) n ∧
  sm_view s' = foldl entry_effect (sm_view s) (take k (drop (N.to_nat (last_applied_ n)) (log_ n))).
Proof using.
  induction k as [|k IH]; intros Hk Hc.
  { simpl. rewrite N.add_0_r. by destruct n. }
  specialize (IH ltac:(lia) Hc). rewrite Nat.iter_succ.
  destruct (Nat.iter k apply_once (n, s)) as [n1 s1]. destruct IH as [-> Hv].
  unfold apply_once, take_committed. cbn [fst snd last_applied_ set_applied commit_index_ log_].
  rewrite (proj2 (N.ltb_lt _ _)) by lia. cbn.
  replace (N.to_nat (last_applied_ n + N.of_nat k + 1 - 1)) with (N.to_nat (last_applied_ n) + k) by lia.
  destruct (log_ n !! (N.to_nat (last_applied_ n) + k)) as [e|] eqn:E.
  - split; [unfold set_applied; cbn; f_equal; lia|]. rewrite apply_entry_view, Hv.
    rewrite (take_S_r _ _ e) by (by rewrite lookup_drop). by rewrite foldl_app.
  - apply lookup_ge_None in E. lia.
Qed.

End Apply.


(** ** Convergence *)

(** One pass of the heartbeat loop of node [i] over its peer [p]. *)
Lemma heartbeat_round i p t l f :
  i ≠ p → t !! i = Some l → t !! p = Some f → role_ l = Leader →
  (heartbeat_rounds i [p] t).2 =
    <[i := (heartbeat p (l, f)).1]> (<[p := (heartbeat p (l, f)).2]> t).
Proof.
  intros Hip Hl Hf Hr. unfold heartbeat, heartbeat_rounds. rewrite Hl.
  rewrite decide_False by (by rewrite Hr; intros []).
  unfold AppendEntries. rewrite Hf.
  destruct (OnAppendEntries _ f) as [resp f']. unfold at_node.
  rewrite lookup_insert_ne, Hl by done. cbn. by destruct (_ <=? _)%N.
Qed.

Lemma heartbeat_iterates i p nx : ∀ t l f,
  i ≠ p → t !! i = Some l → t !! p = Some f → role_ l = Leader →
  next_index_ l !! p = Some (N.of_nat nx) → 1 ≤ nx ≤ length (log_ l) →
  fits 63 (N.of_nat (length (log_ l))) →
  (current_term_ f ≤ current_term_ l)%N → matching (log_ l) (log_ f) →
  ∃ k l' f', k ≤ nx ∧
    let t' := Nat.iter k (λ t, (heartbeat_rounds i [p] t).2) t in
    t' !! i = Some l' ∧ t' !! p = Some f' ∧ log_ l' = log_ l ∧ log_ f' = log_ l ∧
    match_index_ l' !! p = Some (N.of_nat (length (log_ l))).
Proof.
  induction nx as [|nx IH]; intros t l f Hip Hl Hf Hr Hnx Hle Hfit Ht LM; [lia|].
  pose proof (heartbeat_step p l f (N.of_nat (S nx)) Hnx ltac:(lia) Hfit Ht LM) as Hs.
  pose proof (heartbeat_round i p t l f Hip Hl Hf Hr) as Hround.
  destruct (heartbeat p (l, f)) as [l1 f1]. cbn [fst snd] in Hround.
  destruct Hs as (Hlog & Hct & Hrole & Hft & [[Hfl Hm]|(Hgt & Hfl & Hn1)]).
  - exists 1, l1, f1. split; [lia|]. cbv zeta. rewrite Nat.iter_succ. cbv beta. change (Nat.iter 0 _ t) with t. rewrite Hround.
    rewrite lookup_insert_eq, lookup_insert_ne, lookup_insert_eq by done. done.
  - edestruct (IH (<[i := l1]> (<[p := f1]> t)) l1 f1) as (k & l2 & f2 & Hk & Hrun); try done.
    + by rewrite lookup_insert_eq.
    + by rewrite lookup_insert_ne, lookup_insert_eq.
    + by rewrite Hrole.
    + rewrite Hn1. f_equal. lia.
    + rewrite Hlog. lia.
    + by rewrite Hlog.
    + rewrite Hft, Hct. done.
    + by rewrite Hlog, Hfl.
    + exists (S k), l2, f2. split; [lia|]. rewrite Nat.iter_succ_r. cbv beta. rewrite Hround, <-Hlog. done.
Qed.

(** The request for a peer whose next index is behind the log has no entries. *)
Lemma build_probe p l :
  next_index_ l !! p = Some (N.of_nat (S (length (log_ l)))) →
  let req := BuildAppendEntriesLocked p l in
  ae_term req = current_term_ l ∧ prev_log_index req = N.of_nat (length (log_ l)) ∧
  prev_log_term req = term_at (log_ l) (N.of_nat (length (log_ l))) ∧ entries req = [].
Proof.
  intros Hnx. unfold BuildAppendEntriesLocked. rewrite Hnx. cbn [default]. unfold id.
  assert (E : (if (N.of_nat (S (length (log_ l))) =? 0)%N || (N.of_nat (S (length (log_ l))) =? 1)%N then 0%N
    else (N.of_nat (S (length (log_ l))) - 1)%N) = N.of_nat (length (log_ l))).
  { destruct (N.eqb_spec (N.of_nat (S (length (log_ l)))) 0), (N.eqb_spec (N.of_nat (S (length (log_ l)))) 1);
      cbn; lia. }
  cbn [ae_term prev_log_index prev_log_term entries]. rewrite E.
  rewrite (proj2 (N.leb_gt (N.of_nat (S (length (log_ l)))) _)) by lia. by rewrite andb_false_r.
Qed.

(** A heartbeat without entries changes no log, and finds out whether the
    follower's log continues the leader's, or moves the next index back. *)
Lemma probe_step p l f :
  next_index_ l !! p = Some (N.of_nat (S (length (log_ l)))) →
  (current_term_ f ≤ current_term_ l)%N → matching (log_ l) (log_ f) →
  let '(l', f') := heartbeat p (l, f) in
  log_ l' = log_ l ∧ current_term_ l' = current_term_ l ∧ role_ l' = role_ l ∧
  current_term_ f' = current_term_ l ∧ log_ f' = log_ f ∧
  (log_ l `prefix_of` log_ f ∨ 1 ≤ length (log_ l) ∧ next_index_ l' !! p = Some (N.of_nat (length (log_ l)))).
Proof.
  intros Hnx Ht LM. unfold heartbeat. set (req := BuildAppendEntriesLocked p l).
  pose proof (build_probe p l Hnx) as Hreq. fold req in Hreq. destruct Hreq as (R1 & R2 & R3 & R4).
  pose proof (OnAppendEntries_run req f) as Hrun. rewrite R1 in Hrun. specialize (Hrun Ht).
  destruct (OnAppendEntries req f) as [resp f']. destruct Hrun as (H1 & H2 & H3 & H4 & _).
  assert (Hf : log_ f' = log_ f) by (rewrite H4; unfold appended_log; rewrite R4; by destruct (consistent _ _)).
  unfold on_heartbeat_response. rewrite H1, N.ltb_irrefl, H3, R4.
  destruct (consistent req (log_ f)) eqn:C; cbv zeta.
  - pose proof (advance_log l) as (A1 & A2 & _ & _ & A5). set (la := AdvanceCommitIndexLocked l) in *.
    cbn [log_ current_term_ set_indexes role_]. rewrite A1, A2, A5. split_and!; try done. left.
    unfold consistent in C. apply andb_true_iff in C as [C1 C2]. apply N.leb_le in C1. apply N.eqb_eq in C2.
    rewrite R2, R3 in *. exists (drop (length (log_ l)) (log_ f)).
    rewrite <-(take_drop (length (log_ l)) (log_ f)) at 1. f_equal.
    rewrite <-(LM (length (log_ l))); [by apply take_ge|done|lia|done].
  - rewrite Hnx. destruct (decide (length (log_ l) = 0)) as [E0|E0].
    { exfalso. unfold consistent in C. rewrite R3, R2, E0 in C. by destruct (length (log_ f)). }
    rewrite (proj2 (N.ltb_lt _ _)) by lia. cbv zeta. cbn [log_ current_term_ set_indexes next_index_ role_].
    unfold subscript. split_and!; try done. right. split; [lia|]. rewrite !lookup_insert_eq. cbn [from_option id].
    f_equal. lia.
Qed.

(** ** Replication of a proposal *)

(** The peers in [ps] hold entry [e] at index [i] of their logs. *)
Definition hold (t : Transport) (i : nat) (e : LogEntry) (ps : list Z) : Prop :=
  Forall (λ p, ∃ n, t !! p = Some n ∧ log_ n !! i = Some e) ps.

Lemma hold_other t i e ps p n : p ∉ ps → hold t i e ps → hold (<[p := n]> t) i e ps.
Proof.
  unfold hold. rewrite !Forall_forall. intros Hp H x Hx. destruct (H x Hx) as (m & ? & ?).
  exists m. rewrite lookup_insert_ne; [done|]. by intros <-.
Qed.

Lemma hold_same_log t i e ps p n n' :
  t !! p = Some n → log_ n' = log_ n → hold t i e ps → hold (<[p := n']> t) i e ps.
Proof.
  unfold hold. rewrite !Forall_forall. intros Hp Hl H x Hx. destruct (H x Hx) as (m & Hm & He).
  destruct (decide (x = p)) as [->|Hne]; [|exists m; by rewrite lookup_insert_ne].
  exists n'. rewrite lookup_insert_eq, Hl. split; [done|]. congruence.
Qed.

(** The follower that accepts the request of a proposal holds its entry. *)
Lemma append_one req e n :
  entries req = [e] → success (OnAppendEntries req n).1 = true →
  log_ (OnAppendEntries req n).2 !! N.to_nat (prev_log_index req) = Some e.
Proof.
  intros He Hs. destruct (N.lt_ge_cases (ae_term req) (current_term_ n)) as [Hlt|Hge].
  { unfold OnAppendEntries in Hs. apply N.ltb_lt in Hlt. rewrite Hlt in Hs. done. }
  pose proof (OnAppendEntries_run req n Hge) as R.
  destruct (OnAppendEntries req n) as [resp n']. cbn [fst snd] in *.
  destruct R as (_ & _ & Hc & Hl & _). rewrite Hs in Hc. rewrite <-Hc in Hl. rewrite Hl.
  unfold appended_log. rewrite He.
  symmetry in Hc. unfold consistent in Hc. apply andb_true_iff in Hc as [Hc _]. apply N.leb_le in Hc.
  rewrite lookup_app_r by (rewrite length_take; lia).
  rewrite length_take, Nat.min_l by lia. by rewrite Nat.sub_diag.
Qed.

Lemma proposal_response_log acks resp n :
  log_ (on_proposal_response acks resp n).2 = log_ n ∧
  peers_ (on_proposal_response acks resp n).2 = peers_ n.
Proof.
  unfold on_proposal_response. destruct (negb _); [done|]. destruct (_ <? _)%N; [done|].
  by destruct (_ <=? _)%N.
Qed.

(** What the response to a proposal does to the count. *)
Lemma proposal_response_acks acks resp n s n1 a :
  on_proposal_response acks resp n = (s, n1) → s = Enough a ∨ s = Continue a →
  a = if success resp then (acks + 1)%N else acks.
Proof.
  unfold on_proposal_response. intros Hs Ha. repeat case_match; simplify_eq; destruct Ha; by simplify_eq.
Qed.

(** One round of the replication loop: the peer may join those that hold the entry. *)
Lemma replicate_one i req e p acks t Q n :
  entries req = [e] → i ≠ p → p ∉ Q → i ∉ Q → t !! i = Some n →
  acks = (N.of_nat (length Q) + 1)%N → hold t (N.to_nat (prev_log_index req)) e Q →
  let '(s, t1) := (resp ← AppendEntries p req; at_node i Fails (on_proposal_response acks resp)) t in
  ∃ Q1 n1, (Q1 = Q ∨ Q1 = p :: Q) ∧ t1 !! i = Some n1 ∧ peers_ n1 = peers_ n ∧ log_ n1 = log_ n ∧
    hold t1 (N.to_nat (prev_log_index req)) e Q1 ∧
    ∀ a, s = Enough a ∨ s = Continue a → a = (N.of_nat (length Q1) + 1)%N.
Proof.
  intros He Hip HpQ HiQ Hn -> HQ. unfold mbind, ST_bind, AppendEntries, at_node.
  destruct (t !! p) as [m|] eqn:Hm.
  - pose proof (append_one req e m He) as Hone.
    destruct (OnAppendEntries req m) as [resp m']. cbn [fst snd] in Hone.
    rewrite lookup_insert_ne, Hn by done.
    pose proof (proposal_response_log (N.of_nat (length Q) + 1) resp n) as [Hlog Hpeers].
    destruct (on_proposal_response _ resp n) as [s n1] eqn:Hs. cbn [snd] in *.
    exists (if success resp then p :: Q else Q), n1. rewrite lookup_insert_eq.
    split; [destruct (success resp); auto|]. split_and!; try done.
    + apply hold_other; [destruct (success resp); set_solver|].
      destruct (success resp); [|apply hold_other; [set_solver|done]].
      constructor; [|apply hold_other; [set_solver|done]].
      exists m'. rewrite lookup_insert_eq. split; [done|]. by apply Hone.
    + intros a Ha. rewrite (proposal_response_acks _ _ _ _ _ _ Hs Ha). destruct (success resp); cbn; lia.
  - rewrite Hn. set (resp := mkAppendResp (ae_term req) false).
    pose proof (proposal_response_log (N.of_nat (length Q) + 1) resp n) as [Hlog Hpeers].
    destruct (on_proposal_response _ resp n) as [s n1] eqn:Hs. cbn [snd] in *.
    exists Q, n1. rewrite lookup_insert_eq. split_and!; auto; [by apply hold_other|].
    intros a Ha. by rewrite (proposal_response_acks _ _ _ _ _ _ Hs Ha).
Qed.

Lemma replicate_rounds_hold i req e ps : ∀ acks t r t' Q n,
  entries req = [e] → NoDup (ps ++ Q) → i ∉ ps → i ∉ Q → t !! i = Some n →
  (N.of_nat (length Q) + 1)%N = acks → hold t (N.to_nat (prev_log_index req)) e Q →
  replicate_rounds i req acks ps t = (Some r, t') →
  ∃ Q' n', NoDup Q' ∧ Q' ⊆ ps ++ Q ∧ (N.of_nat (length Q') + 1)%N = r ∧
    t' !! i = Some n' ∧ peers_ n' = peers_ n ∧ log_ n' = log_ n ∧
    hold t' (N.to_nat (prev_log_index req)) e Q'.
Proof.
  induction ps as [|p ps IH]; intros acks t r t' Q n He ND Hi HiQ Hn Hacks HQ Hrun.
  { unfold replicate_rounds, mret, ST_ret in Hrun. simplify_eq. by exists Q, n. }
  apply not_elem_of_cons in Hi as [Hip Hips]. cbn [app] in ND. apply NoDup_cons in ND as [HpQ ND].
  pose proof (replicate_one i req e p acks t Q n He Hip ltac:(set_solver) HiQ Hn (eq_sym Hacks) HQ) as R.
  cbn [replicate_rounds] in Hrun. unfold mbind, ST_bind, mret, ST_ret in Hrun, R.
  destruct (AppendEntries p req t) as [resp t0].
  destruct (at_node i Fails (on_proposal_response acks resp) t0) as [s t1].
  destruct R as (Q1 & n1 & HQ1 & Hn1 & Hp1 & Hl1 & Hh1 & Ha).
  assert (ND1 : NoDup (ps ++ Q1)).
  { destruct HQ1 as [->| ->]; [done|]. rewrite <-Permutation_middle. by apply NoDup_cons. }
  assert (HiQ1 : i ∉ Q1) by (destruct HQ1 as [->| ->]; set_solver).
  assert (Hsub : ps ++ Q1 ⊆ (p :: ps) ++ Q) by (destruct HQ1 as [->| ->]; set_solver).
  destruct s as [|a|a]; simplify_eq.
  - exists Q1, n1. split_and!; try done; [by apply NoDup_app in ND1 as (_ & _ & ?)|set_solver|].
    symmetry. apply Ha. by left.
  - destruct (IH a t1 r t' Q1 n1) as (Q' & n' & ? & ? & ? & ? & ? & ? & ?); try done.
    { symmetry. apply Ha. by right. }
    exists Q', n'. split_and!; try done; [by etransitivity|congruence..].
Qed.

(** A request without entries keeps every log. *)
Lemma append_none_log req n : entries req = [] → log_ (OnAppendEntries req n).2 = log_ n.
Proof.
  intros He. unfold OnAppendEntries. rewrite He. repeat case_match; simplify_eq; done.
Qed.

Lemma commit_rounds_hold i req ps j e Q : ∀ t,
  entries req = [] → hold t j e Q → hold (commit_rounds i req ps t).2 j e Q.
Proof.
  induction ps as [|p ps IH]; intros t He HQ; [done|].
  cbn [commit_rounds]. unfold mbind, ST_bind, mret, ST_ret, AppendEntries, at_node.
  assert (Hresp : ∀ resp t1, hold t1 j e Q →
    hold (let '(go_on, t2) := match t1 !! i with
             | Some n => let '(a, n0) := on_commit_response resp n in (a, <[i:=n0]> t1)
             | None => (false, t1) end in
          (if (go_on : bool) then commit_rounds i req ps else λ s, ((), s)) t2).2 j e Q).
  { intros resp t1 H1. destruct (t1 !! i) as [n|] eqn:Hn; [|done].
    destruct (on_commit_response resp n) as [b n1] eqn:Hc.
    assert (hold (<[i := n1]> t1) j e Q) as H2.
    { eapply hold_same_log; [exact Hn| |done]. unfold on_commit_response in Hc.
      by destruct (_ <? _)%N; simplify_eq. }
    destruct b; [by apply IH|done]. }
  destruct (t !! p) as [m|] eqn:Hm; [|by apply Hresp].
  pose proof (append_none_log req m He) as Hl. destruct (OnAppendEntries req m) as [resp m'].
  apply Hresp. by eapply hold_same_log.
Qed.

Lemma appended_last (l : list LogEntry) e : (l ++ [e]) !! length l = Some e.
Proof. rewrite lookup_app_r, Nat.sub_diag by done. done. Qed.

Lemma proposal_request_run e n :
  let req := proposal_request e (append_proposal e n) in
  entries req = [e] ∧ prev_log_index req = N.of_nat (length (log_ n)).
Proof.
  unfold proposal_request, append_proposal, LastLogIndexLocked. cbn. split; [done|].
  rewrite length_app. cbn. destruct (decide _); lia.
Qed.

(** A proposal that runs with no other thread in between and returns true has its
    entry, at the index the leader gave it, in the logs of the leader and of enough
    distinct peers for a majority.  With other threads: [RaftConcurrent.proposal_replicated]. *)
Lemma Propose_hold id entry t t' n :
  t !! id = Some n → NoDup (id :: peers_ n) →
  Propose id entry t = (true, t') →
  ∃ Q, NoDup (id :: Q) ∧ Q ⊆ peers_ n ∧ (needed n ≤ N.of_nat (length (id :: Q)))%N ∧
    hold t' (length (log_ n)) (entry n) (id :: Q).
Proof.
  intros Hn [Hid ND]%NoDup_cons Hrun. unfold Propose in Hrun. rewrite Hn in Hrun.
  destruct (negb (IsLeaderLocked n)); [done|].
  destruct (proposal_request_run (entry n) n) as [Hent Hprev].
  cbn zeta in Hrun. set (n1 := append_proposal (entry n) n) in *.
  set (req := proposal_request (entry n) n1) in *.
  destruct (replicate_rounds id req 1 (peers_ n1) (<[id := n1]> t)) as [[r|] t1] eqn:Hr; [|done].
  destruct (replicate_rounds_hold id req (entry n) (peers_ n1) 1 (<[id := n1]> t) r t1 [] n1)
    as (Q & n2 & NDQ & HQ & Hlen & Hn2 & Hp2 & Hl2 & Hh); try done.
  { by rewrite app_nil_r. }
  { set_solver. }
  { by rewrite lookup_insert_eq. }
  { by apply Forall_nil. }
  rewrite app_nil_r in HQ. rewrite Hprev, Nat2N.id in Hh.
  destruct (N.ltb_spec r (needed n1)) as [|Hneed]; [done|]. rewrite Hn2 in Hrun.
  pose proof (commit_rounds_hold id (commit_request n2) (peers_ n2) (length (log_ n)) (entry n) (id :: Q) t1
                eq_refl) as Hc.
  destruct (commit_rounds id (commit_request n2) (peers_ n2) t1) as [u t2]. simplify_eq.
  exists Q. split_and!.
  - apply NoDup_cons. split; [|done]. intros Hin. by apply Hid, HQ.
  - done.
  - cbn. unfold needed in *. cbn in Hneed. lia.
  - apply Hc. constructor; [|done]. exists n2. rewrite Hl2. split; [done|]. apply appended_last.
Qed.

(** ** Properties *)

(** C21: The commit index.  [AdvanceCommitIndexLocked] never moves the commit
    index back; where it moves it, the new index holds an entry of the current
    term that at least half of the replicas, rounded up, have, which in a
    cluster of odd size is a majority; and when the entry at the chosen index is
    of the current term, every index a majority of replicas has reached is
    committed. *)
Theorem commit_index_majority n :
  let n' := AdvanceCommitIndexLocked n in
  let vs := match_values n in
  let have i := length (filter (λ v, i ≤ v)%N vs) in
  (commit_index_ n ≤ commit_index_ n')%N ∧
  (commit_index_ n' = commit_index_ n ∨
   TermAtLocked n (commit_index_ n') = current_term_ n ∧
   length vs ≤ 2 * have (commit_index_ n') ∧
   (Nat.Odd (length vs) → length vs < 2 * have (commit_index_ n'))) ∧
  (TermAtLocked n (majority_index vs) = current_term_ n →
     ∀ i, length vs < 2 * have i → (i ≤ commit_index_ n')%N).
Proof.
  cbv zeta. set (vs := match_values n).
  assert (Hne : vs ≠ []) by done.
  pose proof (majority_count vs Hne) as Hmaj.
  pose proof (Nat.div_mod_eq (length vs) 2). pose proof (Nat.mod_upper_bound (length vs) 2).
  assert (Hex : ∀ i, length vs < 2 * length (filter (λ v, i ≤ v)%N vs) → (i ≤ majority_index vs)%N).
  { intros i Hi. apply majority_max. lia. }
  unfold AdvanceCommitIndexLocked. fold vs. unfold TermAtLocked.
  destruct (N.ltb_spec (commit_index_ n) (majority_index vs)) as [Hlt|Hge].
  - destruct (N.eqb_spec (term_at (log_ n) (majority_index vs)) (current_term_ n)) as [Ht|Ht].
    + change (commit_index_ (set_commit (majority_index vs) n)) with (majority_index vs).
      split_and!; [lia| |by intros _ i Hi; apply Hex].
      right. split_and!; [done|lia|]. intros [q Hq]. lia.
    + split_and!; [done|by left|done].
  - split_and!; [done|by left|]. intros _ i Hi. specialize (Hex i Hi). lia.
Qed.


(** C22: The apply loop applies the committed entries to the state machine in
    log order, each exactly once.  When the commit index is within the log: run until it has caught up, it leaves the
    effect of the entries between the old and the new applied index. *)
Theorem apply_loop_in_order `{StateMachine M} n (s : M) :
  (last_applied_ n ≤ commit_index_ n ≤ N.of_nat (length (log_ n)))%N →
  let '(n', s') := Nat.iter (N.to_nat (commit_index_ n - last_applied_ n)) apply_once (n, s) in
  last_applied_ n' = commit_index_ n ∧ log_ n' = log_ n ∧
  (take_committed n').1 = None ∧
  sm_view s' = foldl entry_effect (sm_view s)
    (take (N.to_nat (commit_index_ n - last_applied_ n))
       (drop (N.to_nat (last_applied_ n)) (log_ n))).
Proof.
  intros Hle. pose proof (apply_n_run (N.to_nat (commit_index_ n - last_applied_ n)) n s) as R.
  destruct (Nat.iter _ apply_once (n, s)) as [n' s']. destruct R as [-> Hv]; [lia..|].
  cbn [last_applied_ set_applied log_]. split_and!; [lia|done| |done].
  unfold take_committed. cbn. by rewrite (proj2 (N.ltb_ge _ _)) by lia.
Qed.

(** A stale append request may remove committed entries.  A request of the
    current term that ends before the follower's commit index, such as a delayed
    one, cuts the log there, and the commit index stays above its end. *)
Theorem stale_append_truncates req n :
  ae_term req = current_term_ n → entries req ≠ [] →
  consistent req (log_ n) = true →
  (prev_log_index req + N.of_nat (length (entries req)) < commit_index_ n)%N →
  let '(resp, n') := OnAppendEntries req n in
  success resp = true ∧ (N.of_nat (length (log_ n')) < commit_index_ n ≤ commit_index_ n')%N ∨
  (commit_index_ n < leader_commit req)%N.
Proof.
  intros Ht Hne C Hend. pose proof (OnAppendEntries_run req n ltac:(lia)) as R.
  destruct (OnAppendEntries req n) as [resp n']. destruct R as (_ & _ & R1 & R2 & R3).
  rewrite C in *. cbn [andb] in R3.
  destruct (N.ltb_spec (commit_index_ n) (leader_commit req)); [by right|]. left.
  split; [done|]. rewrite R2, R3. unfold appended_log.
  destruct (entries req) as [|e es]; [done|]. split; [|done].
  rewrite length_app, length_take. lia.
Qed.

(** The contract of the vote handler.  A vote is granted exactly when the
    request's term is not old, no other candidate has this node's vote in that
    term, and the candidate's log is at least as up to date; it is recorded, and
    a refused request with a newer term still makes the node a follower of it. *)
Theorem request_vote_contract req n :
  let '(resp, n') := OnRequestVote req n in
  rvr_term resp = current_term_ n' ∧ current_term_ n' = N.max (current_term_ n) (rv_term req) ∧
  log_ n' = log_ n ∧
  (vote_granted resp = true ↔
     (current_term_ n ≤ rv_term req)%N ∧
     ((current_term_ n < rv_term req)%N ∨ voted_for_ n = None ∨
      voted_for_ n = Some (candidate_id req)) ∧
     (LastLogTermLocked n < last_log_term req ∨
      LastLogTermLocked n = last_log_term req ∧ LastLogIndexLocked n ≤ last_log_index req)%N) ∧
  (vote_granted resp = true → voted_for_ n' = Some (candidate_id req)) ∧
  ((current_term_ n < rv_term req)%N → role_ n' = Follower ∧ leader_id_ n' = None).
Proof.
  assert (Hup : ∀ m, log_ m = log_ n →
    IsUpToDateLocked (last_log_index req) (last_log_term req) m = true ↔
     (LastLogTermLocked n < last_log_term req ∨
      LastLogTermLocked n = last_log_term req ∧ LastLogIndexLocked n ≤ last_log_index req)%N).
  { intros m Hm. unfold IsUpToDateLocked, LastLogTermLocked, LastLogIndexLocked. rewrite Hm.
    destruct (N.eqb_spec (last_log_term req) (match last (log_ n) with Some e => term e | None => 0%N end));
      cbn [negb]; rewrite ?N.ltb_lt, ?N.leb_le; lia. }
  unfold OnRequestVote. destruct (N.ltb_spec (rv_term req) (current_term_ n)) as [Hlt|Hge].
  { cbn. split_and!; try done; lia. }
  destruct (N.ltb_spec (current_term_ n) (rv_term req)) as [Hgt|Heq].
  - cbn [BecomeFollowerLocked set_election voted_for_ andb].
    specialize (Hup (BecomeFollowerLocked (rv_term req) None n) eq_refl).
    unfold BecomeFollowerLocked in Hup |- *.
    destruct (IsUpToDateLocked _ _ _); cbn; split_and!; try done; try lia; naive_solver.
  - specialize (Hup n eq_refl). assert (rv_term req = current_term_ n) as -> by lia.
    destruct (voted_for_ n) as [v|] eqn:Hv.
    + case_bool_decide as Hvc; cbn [andb];
        [destruct (IsUpToDateLocked _ _ n)|]; cbn; split_and!; try done; try lia; naive_solver lia.
    + cbn [andb]. destruct (IsUpToDateLocked _ _ n); cbn; split_and!; try done; try lia; naive_solver lia.
Qed.

(** A node without peers that starts an election stays a candidate, although its
    own vote is the majority: votes are only counted after a response. *)
Theorem single_node_never_leads id t n :
  t !! id = Some n → peers_ n = [] → role_ n ≠ Leader →
  ∃ n', (run_election id t).2 !! id = Some n' ∧ role_ n' = Candidate ∧ needed n = 1%N.
Proof.
  intros Hn Hp Hr. unfold run_election. rewrite Hn, decide_False by done.
  destruct (start_election n) as [req n'] eqn:E. rewrite Hp. cbn. exists n'.
  rewrite lookup_insert_eq. unfold start_election in E. injection E as <- <-.
  unfold needed. by rewrite Hp.
Qed.

(** The vote is kept in memory only.  A node that has voted in a term refuses
    every other candidate of the term; the node that [raft_demo] makes in its place
    after a crash, with the same id and peers, grants one of them its vote. *)
Theorem restarted_node_votes_twice id peers ra rb :
  (0 < rv_term ra)%N → rv_term rb = rv_term ra → candidate_id rb ≠ candidate_id ra →
  let '(ra', n) := OnRequestVote ra (make id peers) in
  vote_granted ra' = true ∧
  vote_granted (OnRequestVote rb n).1 = false ∧
  vote_granted (OnRequestVote rb (make id peers)).1 = true.
Proof.
  intros Ht Hb Hne. destruct ra as [t a ia ta], rb as [t' b ib tb]. cbn in *. subst t'.
  assert (Hup : ∀ i j m, log_ m = [] → IsUpToDateLocked i j m = true).
  { intros i j m Hm. unfold IsUpToDateLocked, LastLogTermLocked, LastLogIndexLocked. rewrite Hm. cbn.
    destruct (N.eqb_spec j 0); cbn; [apply N.leb_le|apply N.ltb_lt]; lia. }
  unfold OnRequestVote, make, BecomeFollowerLocked, set_election. cbn.
  rewrite (proj2 (N.ltb_lt 0 t)) by done. destruct (N.ltb_spec t 0); [lia|]. cbn. rewrite !Hup by done. cbn.
  rewrite N.ltb_irrefl. cbn. rewrite (bool_decide_false (a = b)) by congruence. rewrite Hup by done. rewrite Hup by done. done.
Qed.

(** In a cluster of two nodes an entry only the leader has becomes committed. *)
Theorem even_cluster_commits_alone :
  let e := mkLogEntry 1 Put (b# "k") (b# "v") in
  let n := set_log [e] (BecomeLeaderLocked (set_election Candidate None 1 (Some 1%Z) (make 1 [2%Z]))) in
  match_index_ n !! 2%Z = Some 0%N ∧ needed n = 2%N ∧ commit_index_ n = 0%N ∧
  commit_index_ (AdvanceCommitIndexLocked n) = 1%N.
Proof. by vm_compute. Qed.

(** ** Witnesses *)

Definition example_entry (t : N) (k : str) : LogEntry := mkLogEntry t Put k (b# "v").

(** A leader of term 3 whose peer has a longer log that diverges after the first entry. *)
Definition example_leader : RaftNode :=
  set_indexes {[2%Z := 3%N]} {[2%Z := 0%N]}
    (set_log [example_entry 1 (b# "a"); example_entry 3 (b# "b"); example_entry 3 (b# "c")]
      (set_election Leader (Some 1%Z) 3 (Some 1%Z) (make 1 [2; 3]%Z))).
Definition example_follower : RaftNode :=
  set_log [example_entry 1 (b# "a"); example_entry 2 (b# "x"); example_entry 2 (b# "y");
           example_entry 2 (b# "z")]
    (set_election Follower None 2 None (make 2 [1; 3]%Z)).
Definition example_transport : Transport :=
  <[1%Z := example_leader]> (<[2%Z := example_follower]> {[3%Z := make 3 [1; 2]%Z]}).


Lemma apply_loop_in_order_witness :
  let n := set_commit 2 example_leader in
  let s := (KVStore.new_store, mkWorld ∅ []) in
  let '(n', s') := Nat.iter 2 apply_once (n, s) in
  last_applied_ n' = commit_index_ n ∧ log_ n' = log_ n ∧
  (take_committed n').1 = None ∧
  sm_view s' = foldl entry_effect (sm_view s) (take 2 (drop 0 (log_ n))).
Proof. apply (apply_loop_in_order (set_commit 2 example_leader)). cbn. lia. Defined.

Lemma restarted_node_votes_twice_witness :
  let n := (OnRequestVote (mkVoteReq 1 2 0 0) (make 1 [2; 3]%Z)).2 in
  vote_granted (OnRequestVote (mkVoteReq 1 3 0 0) n).1 = false ∧
  vote_granted (OnRequestVote (mkVoteReq 1 3 0 0) (make 1 [2; 3]%Z)).1 = true.
Proof.
  exact (proj2 (restarted_node_votes_twice 1 [2; 3]%Z (mkVoteReq 1 2 0 0) (mkVoteReq 1 3 0 0)
    ltac:(cbn; lia) eq_refl ltac:(discriminate))).
Defined.

End RaftSpec.
