(* ===== verification/RaftConcurrent.v ===== *)
(** * A proposal among the other threads

    [Raft.Propose] runs [ProposePut] and [ProposeDel] with no other thread in
    between.  Here a proposal is a thread of the cluster of [RaftElection]: between
    any two of its sections and calls the other threads of all nodes take any steps
    (elections, heartbeats, other proposals, append requests of any origin and age).
    What a proposal that returns true then guarantees is that a majority has held
    its entry ([proposal_replicated]), not that it still does. *)

From S2P Require Import Prelude CxxString Raft RaftElection RaftSpec.

Module RaftConcurrent.
Import Raft RaftElection RaftSpec.

(** ** The thread of a proposal *)

(** Where it is in [ProposePut] or [ProposeDel]. *)
Inductive Phase :=
  | Called                                              (** before the first section *)
  | Appended (e : LogEntry)                             (** before the second section *)
  | Asking (req : AppendEntriesReq) (acks : N) (rest : list Z)     (** before the next peer's call *)
  | Answered (req : AppendEntriesReq) (acks : N) (rest : list Z) (resp : AppendEntriesResp)
  | Replicated                                          (** before building the commit notice *)
  | Noticing (req : AppendEntriesReq) (rest : list Z)
  | Noticed (req : AppendEntriesReq) (rest : list Z) (resp : AppendEntriesResp)
  | Returned (ok : bool).

Section Thread.
Context (i : Z) (entry : RaftNode → LogEntry).

(** One section or call of the proposal at node [i]. *)
Inductive section (c : Cluster) : Phase → Cluster → Phase → Prop :=
  | p_refuse n :
      nodes c !! i = Some n → IsLeaderLocked n = false → section c Called c (Returned false)
  | p_append n :
      nodes c !! i = Some n → IsLeaderLocked n = true →
      section c Called (with_node i (append_proposal (entry n) n) c) (Appended (entry n))
  | p_build e n :
      nodes c !! i = Some n → section c (Appended e) c (Asking (proposal_request e n) 1 (peers_ n))
  | p_call req acks p rest m :
      nodes c !! p = Some m →
      section c (Asking req acks (p :: rest)) (with_node p (OnAppendEntries req m).2 c)
        (Answered req acks rest (OnAppendEntries req m).1)
  | p_call_down req acks p rest :
      section c (Asking req acks (p :: rest)) c (Answered req acks rest (mkAppendResp (ae_term req) false))
  | p_answer req acks rest resp n s n' :
      nodes c !! i = Some n → on_proposal_response acks resp n = (s, n') →
      section c (Answered req acks rest resp) (with_node i n' c)
        (match s with
         | Fails => Returned false
         | Enough _ => Replicated
         | Continue acks => Asking req acks rest
         end)
  | p_count req acks n :
      nodes c !! i = Some n →
      section c (Asking req acks []) c (if (acks <? needed n)%N then Returned false else Replicated)
  | p_notice n :
      nodes c !! i = Some n → section c Replicated c (Noticing (commit_request n) (peers_ n))
  | p_notify req p rest m :
      nodes c !! p = Some m →
      section c (Noticing req (p :: rest)) (with_node p (OnAppendEntries req m).2 c)
        (Noticed req rest (OnAppendEntries req m).1)
  | p_notify_down req p rest :
      section c (Noticing req (p :: rest)) c (Noticed req rest (mkAppendResp (ae_term req) false))
  | p_noticed req rest resp n go_on n' :
      nodes c !! i = Some n → on_commit_response resp n = (go_on, n') →
      section c (Noticed req rest resp) (with_node i n' c) (if go_on then Noticing req rest else Returned true)
  | p_done req : section c (Noticing req []) c (Returned true).

(** The proposal, or any other thread, takes a step. *)
Inductive run_step : Cluster * Phase → Cluster * Phase → Prop :=
  | r_section c ph c' ph' : section c ph c' ph' → run_step (c, ph) (c', ph')
  | r_other c c' ph : step c c' → run_step (c, ph) (c', ph).

(** ** Every section is a step of the cluster *)

Lemma section_step c ph c' ph' : section c ph c' ph' → rtc step c c'.
Proof using.
  intros []; try apply rtc_refl; apply rtc_once.
  - by apply step_propose.
  - by apply step_append.
  - replace n' with (on_proposal_response acks resp n).2 by (by rewrite H0). by eapply step_proposal_response.
  - by apply step_append.
  - replace n' with (on_commit_response resp n).2 by (by rewrite H0). by eapply step_commit_response.
Qed.

Lemma run_cluster x y : rtc run_step x y → rtc step x.1 y.1.
Proof using.
  induction 1 as [|x y z H1 _ IH]; [apply rtc_refl|]. etransitivity; [|exact IH].
  destruct H1; cbn; [by eapply section_step|by apply rtc_once].
Qed.

(** The peers of a node never change. *)
Lemma vote_response_peers t votes resp n : peers_ (on_vote_response t votes resp n).2 = peers_ n.
Proof using. unfold on_vote_response. by repeat case_match. Qed.

Lemma step_peers c c' j n :
  step c c' → nodes c !! j = Some n → ∃ n', nodes c' !! j = Some n' ∧ peers_ n' = peers_ n.
Proof using.
  intros Hs Hn.
  assert (Hset : ∀ k m m', nodes c !! k = Some m → peers_ m' = peers_ m →
    ∃ n', <[k := m']> (nodes c) !! j = Some n' ∧ peers_ n' = peers_ n).
  { intros k m m' Hk E. destruct (decide (k = j)) as [->|Hne].
    - rewrite lookup_insert_eq. exists m'. split; [done|]. congruence.
    - rewrite lookup_insert_ne by done. by exists n. }
  destruct Hs; cbn; try (by exists n); (eapply Hset; [eassumption|]).
  - replace n' with (start_election n0).2 by (by rewrite H3). by apply keeps_timeout.
  - replace n' with (OnRequestVote (el_req e) n0).2 by (by rewrite H3). apply keeps_vote_request.
  - replace n' with (on_vote_response (rv_term (el_req e)) (el_votes e) resp n0).2 by (by rewrite H2).
    apply vote_response_peers.
  - apply keeps_append.
  - apply keeps_heartbeat.
  - done.
  - apply keeps_proposal.
  - apply keeps_commit.
  - apply keeps_apply.
Qed.

Lemma rtc_peers c c' j n n' :
  rtc step c c' → nodes c !! j = Some n → nodes c' !! j = Some n' → peers_ n' = peers_ n.
Proof using.
  intros R. revert n. induction R as [|c1 c2 c3 H1 _ IH]; intros n Hn Hn'; [congruence|].
  destruct (step_peers _ _ _ _ H1 Hn) as (n2 & H2 & E2). rewrite (IH n2 H2 Hn'). done.
Qed.

(** ** What the acknowledgements stand for *)

(** Node [q] held entry [e] at index [k] at some moment between [c] and [c']. *)
Definition has_held (c c' : Cluster) (k : nat) (e : LogEntry) (q : Z) : Prop :=
  ∃ cq m, rtc step c cq ∧ rtc step cq c' ∧ nodes cq !! q = Some m ∧ log_ m !! k = Some e.

Lemma has_held_later c c1 c2 k e q : rtc step c1 c2 → has_held c c1 k e q → has_held c c2 k e q.
Proof using. intros R (cq & m & H1 & H2 & H3). exists cq, m. split_and!; [done|by etransitivity|apply H3..]. Qed.

(** The proposal that began in [c0] has, on the way to [c], appended its entry at
    leader [n] in [c1] and built its request from [m] in [c2]. *)
Record Begun (c0 c1 c2 c : Cluster) (n m : RaftNode) : Prop := mkBegun {
  bg_start : rtc step c0 c1;
  bg_leader : nodes c1 !! i = Some n ∧ IsLeaderLocked n = true;
  bg_append : rtc step (with_node i (append_proposal (entry n) n) c1) c2;
  bg_build : nodes c2 !! i = Some m;
  bg_now : rtc step c2 c;
}.

Definition at_index (n m : RaftNode) : nat := N.to_nat (prev_log_index (proposal_request (entry n) m)).

(** What is true of the proposal in each phase; [acked] is the set of peers whose
    answers have been counted. *)
Definition acked (c0 c : Cluster) (ok : RaftNode → RaftNode → list Z → Prop) : Prop :=
  ∃ c1 c2 n m Q, Begun c0 c1 c2 c n m ∧ ok n m Q ∧ Forall (has_held c2 c (at_index n m) (entry n)) Q.

Definition phase_ok (c0 : Cluster) (peers : list Z) (c : Cluster) (ph : Phase) : Prop :=
  rtc step c0 c ∧
  match ph with
  | Called | Returned false => True
  | Appended e => ∃ c1 n, rtc step c0 c1 ∧ nodes c1 !! i = Some n ∧ IsLeaderLocked n = true ∧
      e = entry n ∧ rtc step (with_node i (append_proposal e n) c1) c
  | Asking req acks rest => acked c0 c (λ n m Q, req = proposal_request (entry n) m ∧
      acks = (N.of_nat (length Q) + 1)%N ∧ NoDup (rest ++ Q) ∧ rest ++ Q ⊆ peers)
  | Answered req acks rest resp => acked c0 c (λ n m Q, req = proposal_request (entry n) m ∧
      (if success resp then (acks + 1)%N else acks) = (N.of_nat (length Q) + 1)%N ∧
      NoDup (rest ++ Q) ∧ rest ++ Q ⊆ peers)
  | Replicated | Noticing _ _ | Noticed _ _ _ | Returned true => acked c0 c (λ n m Q,
      NoDup Q ∧ Q ⊆ peers ∧ (needed n ≤ N.of_nat (length Q) + 1)%N)
  end.

Lemma acked_later c0 c c' (P P' : RaftNode → RaftNode → list Z → Prop) :
  rtc step c c' → (∀ n m Q, P n m Q → P' n m Q) → acked c0 c P → acked c0 c' P'.
Proof using.
  intros R HP (c1 & c2 & n & m & Q & [] & H1 & H2). exists c1, c2, n, m, Q. split_and!; [|by apply HP|].
  - constructor; [done..|by etransitivity].
  - eapply Forall_impl; [exact H2|]. intros q. by apply has_held_later.
Qed.

Lemma phase_later c0 peers c c' ph : rtc step c c' → phase_ok c0 peers c ph → phase_ok c0 peers c' ph.
Proof using.
  intros R [H0 H]. split; [by etransitivity|].
  destruct ph as [|e|req acks rest|req acks rest resp| |req rest|req rest resp|[]]; try done;
    try exact (acked_later _ _ _ _ _ R (λ _ _ _ h, h) H).
  destruct H as (c1 & n & ? & ? & ? & ? & ?). exists c1, n. split_and!; [done..|by etransitivity].
Qed.

(** A count of answers that is a majority now was one when the entry was appended. *)
Lemma needed_constant c0 c1 c2 c n m n' :
  Begun c0 c1 c2 c n m → nodes c !! i = Some n' → needed n' = needed n.
Proof using.
  intros [_ [H1 _] H2 H3 H4] Hn'. unfold needed. enough (peers_ n' = peers_ n) as -> by done.
  rewrite (rtc_peers _ _ i m n' H4 H3 Hn').
  by apply (rtc_peers _ _ i (append_proposal (entry n) n) m H2); [cbn; apply lookup_insert_eq|].
Qed.

(** A call: the peer joins those that have held the entry if it accepts it. *)
Lemma call_ok c0 peers c req acks p rest resp c' :
  phase_ok c0 peers c (Asking req acks (p :: rest)) → rtc step c c' →
  (success resp = true → ∃ m, nodes c !! p = Some m ∧ resp = (OnAppendEntries req m).1 ∧
     c' = with_node p (OnAppendEntries req m).2 c) →
  phase_ok c0 peers c' (Answered req acks rest resp).
Proof using.
  intros [H0 (c1 & c2 & n & m & Q & Bg & (-> & Ha & ND & Hsub) & HQ)] R Hresp.
  split; [by etransitivity|].
  assert (Bg' : Begun c0 c1 c2 c' n m) by (destruct Bg; constructor; [done..|by etransitivity]).
  assert (HQ' : Forall (has_held c2 c' (at_index n m) (entry n)) Q).
  { eapply Forall_impl; [exact HQ|]. intros q. by apply has_held_later. }
  cbn [app] in ND, Hsub. destruct (success resp) eqn:Hs.
  - exists c1, c2, n, m, (p :: Q). split_and!; [done|done|cbn; lia| | |].
    + by rewrite <-Permutation_middle.
    + intros q Hq. apply Hsub. set_solver.
    + constructor; [|done]. destruct (Hresp eq_refl) as (mp & Hp & -> & ->).
      exists (with_node p (OnAppendEntries (proposal_request (entry n) m) mp).2 c),
        (OnAppendEntries (proposal_request (entry n) m) mp).2.
      split_and!; [exact (bg_now _ _ _ _ _ _ Bg')|by apply rtc_refl|by apply lookup_insert_eq|].
      by apply append_one.
  - exists c1, c2, n, m, Q. split_and!; [done..| | |done].
    + by apply NoDup_cons in ND as [_ ND].
    + set_solver.
Qed.

Lemma answer_ok c0 peers c req acks rest resp n s n' :
  phase_ok c0 peers c (Answered req acks rest resp) → nodes c !! i = Some n →
  on_proposal_response acks resp n = (s, n') →
  phase_ok c0 peers (with_node i n' c)
    (match s with Fails => Returned false | Enough _ => Replicated | Continue a => Asking req a rest end).
Proof using.
  intros H Hn Hs.
  assert (R : rtc step c (with_node i n' c)).
  { apply (section_step _ (Answered req acks rest resp) _ _ (p_answer _ _ _ _ _ _ _ _ Hn Hs)). }
  destruct H as [H0 H]. split; [by etransitivity|]. destruct s as [|a|a]; [done|..].
  - destruct H as (c1 & c2 & n0 & m & Q & Bg & (-> & Ha & ND & Hsub) & HQ).
    pose proof (needed_constant _ _ _ _ _ _ _ Bg Hn) as Hneed.
    pose proof (proposal_response_acks _ _ _ _ _ _ Hs (or_introl eq_refl)) as Hacks.
    eapply (acked_later _ c _ (λ n1 m1 Q1, NoDup Q1 ∧ Q1 ⊆ peers ∧ (needed n1 ≤ N.of_nat (length Q1) + 1)%N)); [done|done|].
    exists c1, c2, n0, m, Q. split_and!; [done|by apply NoDup_app in ND as (_ & _ & ?)|set_solver| |done].
    rewrite <-Ha, <-Hacks, <-Hneed.
    unfold on_proposal_response in Hs. repeat case_match; simplify_eq.
    all: by apply N.leb_le.
  - pose proof (proposal_response_acks _ _ _ _ _ _ Hs (or_intror eq_refl)) as ->.
    exact (acked_later _ _ _ _ _ R (λ _ _ _ h, h) H).
Qed.

Lemma run_ok c0 peers c ph c' ph' :
  (∀ n, nodes c0 !! i = Some n → peers_ n = peers) → NoDup peers →
  is_Some (nodes c0 !! i) →
  run_step (c, ph) (c', ph') → phase_ok c0 peers c ph → phase_ok c0 peers c' ph'.
Proof using.
  intros Hp ND [n00 H00] Hr H. inversion Hr as [? ? ? ? Hs|? ? ? Hs]; subst; [|by apply (phase_later _ _ c); [apply rtc_once|]].
  pose proof (section_step _ _ _ _ Hs) as R.
  pose proof (phase_later _ _ _ _ _ R H) as HL.
  destruct Hs; try exact HL; try (split; [apply HL|]; done).
  - split; [apply HL|]. exists c, n. destruct H as [Hc _]. split_and!; [done..|by apply rtc_refl].
  - split; [apply HL|]. destruct H as [Hc (c1 & n1 & A1 & A2 & A3 & -> & A5)].
    exists c1, c, n1, n, []. split; [by constructor|]. split; [|by apply Forall_nil].
    assert (peers_ n = peers) as -> by (rewrite <-(Hp n00 H00); by apply (rtc_peers c0 c i)).
    rewrite app_nil_r. by split_and!.
  - eapply call_ok; [exact H|exact R|]. intros _. by exists m.
  - by eapply call_ok; [exact H|exact R|].
  - eapply answer_ok; [exact H|eassumption..].
  - split; [apply HL|]. destruct (N.ltb_spec acks (needed n)); [done|].
    destruct H as [_ (c1 & c2 & n1 & m & Q & Bg & (-> & Ha & NDQ & Hsub) & HQ)].
    exists c1, c2, n1, m, Q. split_and!; [done|done|done| |done].
    rewrite <-(needed_constant _ _ _ _ _ _ _ Bg ltac:(eassumption)). lia.
  - destruct go_on; [exact HL|]. exact HL.
Qed.

Lemma run_all_ok c0 c ph peers :
  (∀ n, nodes c0 !! i = Some n → peers_ n = peers) → NoDup peers → is_Some (nodes c0 !! i) →
  rtc run_step (c0, Called) (c, ph) → phase_ok c0 peers c ph.
Proof using.
  intros Hp ND Hi R. enough (∀ y, rtc run_step (c0, Called) y → phase_ok c0 peers y.1 y.2) as H by exact (H _ R).
  clear R. apply rtc_ind_r; [split; [apply rtc_refl|done]|].
  intros [c1 ph1] [c2 ph2] _ Hs H1. by eapply run_ok.
Qed.

(** ** A proposal without interference *)

Lemma call_run els t p req acks rest :
  let '(resp, t') := AppendEntries p req t in
  section (mkCluster t els) (Asking req acks (p :: rest)) (mkCluster t' els) (Answered req acks rest resp) ∧
  section (mkCluster t els) (Noticing req (p :: rest)) (mkCluster t' els) (Noticed req rest resp) ∧
  (is_Some (t !! i) → is_Some (t' !! i)).
Proof using.
  unfold AppendEntries. destruct (t !! p) as [m|] eqn:Hm.
  - pose proof (p_call (mkCluster t els) req acks p rest m Hm) as H1.
    pose proof (p_notify (mkCluster t els) req p rest m Hm) as H2.
    destruct (OnAppendEntries req m) as [resp m']. split_and!; [done..|].
    intros Hi. destruct (decide (p = i)) as [->|]; [by rewrite lookup_insert_eq|by rewrite lookup_insert_ne].
  - split_and!; [apply p_call_down|apply p_notify_down|done].
Qed.

Lemma asking_run els req ps : ∀ acks t r t',
  replicate_rounds i req acks ps t = (r, t') → is_Some (t !! i) →
  ∃ n', t' !! i = Some n' ∧
    rtc run_step (mkCluster t els, Asking req acks ps)
      (mkCluster t' els, match r with
                         | Some a => if (a <? needed n')%N then Returned false else Replicated
                         | None => Returned false
                         end).
Proof using.
  induction ps as [|p ps IH]; intros acks t r t' Hr Hi.
  { cbn in Hr. unfold mret, ST_ret in Hr. simplify_eq. destruct Hi as [n' Hn]. exists n'. split; [done|].
    apply rtc_once, r_section. by apply (p_count (mkCluster t' els)). }
  cbn [replicate_rounds] in Hr. unfold mbind, ST_bind, mret, ST_ret in Hr.
  pose proof (call_run els t p req acks ps) as Hc. destruct (AppendEntries p req t) as [resp t1].
  destruct Hc as (Hc & _ & Hi1). destruct (Hi1 Hi) as [n1 Hn1]. unfold at_node in Hr. rewrite Hn1 in Hr.
  destruct (on_proposal_response acks resp n1) as [s n2] eqn:Hs.
  assert (Hn2 : <[i := n2]> t1 !! i = Some n2) by apply lookup_insert_eq.
  pose proof (p_answer (mkCluster t1 els) req acks ps resp n1 s n2 Hn1 Hs) as Ha.
  destruct s as [|a|a]; simplify_eq.
  - exists n2. split; [done|]. eapply rtc_l; [apply r_section, Hc|]. by apply rtc_once, r_section.
  - exists n2. split; [done|]. eapply rtc_l; [apply r_section, Hc|]. apply rtc_once, r_section.
    enough ((a <? needed n2)%N = false) as -> by done. apply N.ltb_ge.
    unfold on_proposal_response in Hs. repeat case_match; simplify_eq. all: by apply N.leb_le.
  - destruct (IH a _ r t' Hr ltac:(by exists n2)) as (n' & Hn' & R). exists n'. split; [done|].
    eapply rtc_l; [apply r_section, Hc|]. eapply rtc_l; [by apply r_section|exact R].
Qed.

Lemma notice_run els req ps : ∀ t,
  is_Some (t !! i) →
  rtc run_step (mkCluster t els, Noticing req ps) (mkCluster (commit_rounds i req ps t).2 els, Returned true).
Proof using.
  induction ps as [|p ps IH]; intros t Hi; [apply rtc_once, r_section, p_done|].
  cbn [commit_rounds]. unfold mbind, ST_bind, mret, ST_ret.
  pose proof (call_run els t p req 0 ps) as Hc. destruct (AppendEntries p req t) as [resp t1].
  destruct Hc as (_ & Hc & Hi1). destruct (Hi1 Hi) as [n1 Hn1]. unfold at_node. rewrite Hn1.
  destruct (on_commit_response resp n1) as [b n2] eqn:Hs.
  pose proof (p_noticed (mkCluster t1 els) req ps resp n1 b n2 Hn1 Hs) as Ha.
  eapply rtc_l; [apply r_section, Hc|]. eapply rtc_l; [apply r_section, Ha|].
  destruct b; [|by apply rtc_refl]. apply IH. eexists. apply lookup_insert_eq.
Qed.

(** [Raft.Propose] is the run in which no other thread takes a step. *)
Lemma Propose_run els t ok t' n :
  t !! i = Some n → Propose i entry t = (ok, t') →
  rtc run_step (mkCluster t els, Called) (mkCluster t' els, Returned ok).
Proof using.
  intros Hn Hp. unfold Propose in Hp. rewrite Hn in Hp.
  destruct (IsLeaderLocked n) eqn:Hl; cbn [negb] in Hp.
  2:{ simplify_eq. apply rtc_once, r_section. by apply p_refuse with n. }
  cbv zeta in Hp. set (n1 := append_proposal (entry n) n) in *.
  assert (Hn1 : <[i := n1]> t !! i = Some n1) by apply lookup_insert_eq.
  eapply rtc_l; [by apply r_section, (p_append (mkCluster t els) n)|].
  eapply rtc_l; [by apply r_section, (p_build (mkCluster (<[i := n1]> t) els) (entry n) n1)|].
  destruct (replicate_rounds i (proposal_request (entry n) n1) 1 (peers_ n1) (<[i := n1]> t)) as [r t1] eqn:Hr.
  destruct (asking_run els _ _ _ _ _ _ Hr ltac:(by exists n1)) as (n2 & Hn2 & R).
  etransitivity; [exact R|].
  assert (needed n2 = needed n1) as E.
  { unfold needed. enough (peers_ n2 = peers_ n1) as -> by done.
    exact (rtc_peers _ _ i n1 n2 (run_cluster _ _ R) Hn1 Hn2). }
  destruct r as [a|]; [|simplify_eq; by apply rtc_refl]. rewrite E.
  destruct (a <? needed n1)%N; [simplify_eq; by apply rtc_refl|]. rewrite Hn2 in Hp.
  pose proof (notice_run els (commit_request n2) (peers_ n2) t1 ltac:(by exists n2)) as Hc.
  destruct (commit_rounds i (commit_request n2) (peers_ n2) t1) as [u t2]. simplify_eq.
  eapply rtc_l; [by apply r_section, (p_notice (mkCluster t1 els) n2)|exact Hc].
Qed.

End Thread.

(** ** Properties *)

(** C18: What a proposal that returns true guarantees, with every other thread of every
    node running between its sections: elections, heartbeats, other proposals, and
    append requests of any origin and age.  The entry was appended at a leader, at the
    end of its log; the request was built later, for the index that was the last of the
    leader's log then; and after that a set of distinct peers that makes a majority with
    the leader has held the entry at that index, each at some moment before the call
    returned.  If nothing was appended or removed between the two sections the index is
    the one the leader gave the entry.  That the peers still hold it when the call
    returns does not follow ([acknowledged_entry_cut]). *)
Theorem proposal_replicated i entry c c' n0 :
  nodes c !! i = Some n0 → NoDup (i :: peers_ n0) →
  rtc (run_step i entry) (c, Called) (c', Returned true) →
  ∃ c1 c2 n m Q,
    rtc step c c1 ∧ nodes c1 !! i = Some n ∧ IsLeaderLocked n = true ∧
    rtc step (with_node i (append_proposal (entry n) n) c1) c2 ∧ nodes c2 !! i = Some m ∧
    rtc step c2 c' ∧
    let k := N.to_nat (prev_log_index (proposal_request (entry n) m)) in
    (length (log_ m) = S (length (log_ n)) → k = length (log_ n)) ∧
    NoDup (i :: Q) ∧ Q ⊆ peers_ n0 ∧ (needed n0 ≤ N.of_nat (length (i :: Q)))%N ∧
    Forall (λ q, ∃ cq mq, rtc step c2 cq ∧ rtc step cq c' ∧
                   nodes cq !! q = Some mq ∧ log_ mq !! k = Some (entry n)) Q.
Proof.
  intros Hi [Hni ND]%NoDup_cons R.
  destruct (run_all_ok i entry c c' (Returned true) (peers_ n0) ltac:(congruence) ND (ex_intro _ n0 Hi) R)
    as [_ (c1 & c2 & n & m & Q & [B1 [B2 B3] B4 B5 B6] & (NDQ & Hsub & Hneed) & HQ)].
  exists c1, c2, n, m, Q. cbv zeta. split_and!; try done.
  - intros Hl. unfold proposal_request, LastLogIndexLocked. cbn. rewrite Hl. destruct (decide _); lia.
  - apply NoDup_cons. split; [|done]. intros Hin. by apply Hni, Hsub.
  - enough (needed n = needed n0) as <- by (cbn [length]; lia). unfold needed.
    by rewrite (rtc_peers _ _ i n0 n B1 Hi B2).
Qed.

(** ** An acknowledged entry that only the leader has *)

(** Node 1 is elected and stores [a] at node 2; its next index for node 2 is still 1,
    so that a heartbeat it builds now carries [a]. *)
Definition put_entry_at (k : str) : RaftNode → LogEntry := put_entry k (b# "v").
Definition node_at (i : Z) (t : Transport) : RaftNode := default (make i []) (t !! i).
Definition fresh_three : Transport :=
  <[1%Z := make 1 [2; 3]%Z]> (<[2%Z := make 2 [1; 3]%Z]> {[3%Z := make 3 [1; 2]%Z]}).
Definition stored_a : Transport := (Propose 1 (put_entry_at (b# "a")) (run_election 1 fresh_three).2).2.
Definition late_heartbeat : AppendEntriesReq := BuildAppendEntriesLocked 2 (node_at 1 stored_a).

(** The put of [k]: its entry is appended, node 2 accepts the request; then the
    heartbeat reaches node 2; then the leader counts the answer. *)
Definition appended_k : Transport :=
  <[1%Z := append_proposal (put_entry_at (b# "k") (node_at 1 stored_a)) (node_at 1 stored_a)]> stored_a.
Definition request_k : AppendEntriesReq :=
  proposal_request (put_entry_at (b# "k") (node_at 1 stored_a)) (node_at 1 appended_k).
Definition accepted_k : Transport := (AppendEntries 2 request_k appended_k).2.
Definition cut_k : Transport := (AppendEntries 2 late_heartbeat accepted_k).2.
Definition answered_k : Transport := <[1%Z := node_at 1 cut_k]> cut_k.
Definition returned_k : Transport :=
  (commit_rounds 1 (commit_request (node_at 1 answered_k)) (peers_ (node_at 1 answered_k)) answered_k).2.

Definition quiet (t : Transport) : Cluster := mkCluster t ∅.

(** An acknowledged entry may be in the log of the leader only.  A heartbeat that
    the leader built before the put of [k] reaches node 2 after node 2 has accepted
    its entry, and cuts it off; the leader then counts the answer of node 2, and
    the put returns true. *)
Theorem acknowledged_entry_cut :
  let run := rtc (run_step 1 (put_entry_at (b# "k"))) in
  ∃ waiting, run (quiet stored_a, Called) (quiet accepted_k, waiting) ∧
    step (quiet accepted_k) (quiet cut_k) ∧
    run (quiet cut_k, waiting) (quiet returned_k, Returned true) ∧
    (key <$> log_ (node_at 1 returned_k)) = [b# "a"; b# "k"] ∧
    (key <$> log_ (node_at 2 returned_k)) = [b# "a"] ∧ log_ (node_at 3 returned_k) = [].
Proof.
  cbv zeta. exists (Answered request_k 1 [3%Z] (mkAppendResp 1 true)). split_and!.
  - eapply rtc_l; [apply r_section, (p_append _ _ (quiet stored_a) (node_at 1 stored_a)); by vm_compute|].
    eapply rtc_l; [apply r_section, (p_build _ _ (quiet appended_k) _ (node_at 1 appended_k)); by vm_compute|].
    apply rtc_once, r_section.
    pose proof (call_run 1 (put_entry_at (b# "k")) ∅ appended_k 2 request_k 1 [3%Z]) as H.
    assert (E : AppendEntries 2 request_k appended_k = (mkAppendResp 1 true, accepted_k)) by by vm_compute.
    rewrite E in H. apply H.
  - assert (quiet cut_k = with_node 2 (OnAppendEntries late_heartbeat (node_at 2 accepted_k)).2 (quiet accepted_k))
      as -> by by vm_compute.
    apply step_append. by vm_compute.
  - eapply rtc_l; [apply r_section, (p_answer _ _ (quiet cut_k) request_k 1 [3%Z] _ (node_at 1 cut_k) (Enough 2)
      (node_at 1 cut_k)); by vm_compute|].
    eapply rtc_l; [apply r_section, (p_notice _ _ (quiet answered_k) (node_at 1 answered_k)); by vm_compute|].
    apply (notice_run 1 (put_entry_at (b# "k")) ∅ _ _ answered_k). apply lookup_insert_is_Some'. by left.
  - by vm_compute.
  - by vm_compute.
  - by vm_compute.
Qed.

(** ** Witnesses *)

Lemma proposal_replicated_witness :
  let '(ok, t') := Propose 1 (put_entry_at (b# "k")) stored_a in
  ok = true ∧
  ∃ c1 c2 n m Q,
    rtc step (quiet stored_a) c1 ∧ nodes c1 !! 1%Z = Some n ∧ IsLeaderLocked n = true ∧
    rtc step (with_node 1 (append_proposal (put_entry_at (b# "k") n) n) c1) c2 ∧ nodes c2 !! 1%Z = Some m ∧
    rtc step c2 (quiet t') ∧
    let k := N.to_nat (prev_log_index (proposal_request (put_entry_at (b# "k") n) m)) in
    (length (log_ m) = S (length (log_ n)) → k = length (log_ n)) ∧
    NoDup (1%Z :: Q) ∧ Q ⊆ [2; 3]%Z ∧ (2 ≤ N.of_nat (length (1%Z :: Q)))%N ∧
    Forall (λ q, ∃ cq mq, rtc step c2 cq ∧ rtc step cq (quiet t') ∧
                   nodes cq !! q = Some mq ∧ log_ mq !! k = Some (put_entry_at (b# "k") n)) Q.
Proof.
  destruct (Propose 1 (put_entry_at (b# "k")) stored_a) as [ok t'] eqn:E.
  assert (ok = true) as ->.
  { transitivity (Propose 1 (put_entry_at (b# "k")) stored_a).1; [by rewrite E|vm_compute; reflexivity]. }
  split; [reflexivity|].
  apply (proposal_replicated 1 (put_entry_at (b# "k")) (quiet stored_a) (quiet t') (node_at 1 stored_a)).
  - vm_compute. reflexivity.
  - by apply (bool_decide_unpack _); vm_compute.
  - apply (Propose_run 1 (put_entry_at (b# "k")) ∅ stored_a true t' (node_at 1 stored_a)).
    + vm_compute. reflexivity.
    + exact E.
Defined.

End RaftConcurrent.
