(* ===== verification/RaftLog.v ===== *)
(** * Log matching in a cluster of Raft nodes

    The steps of [RaftElection] with the append requests that nodes really
    build: a request is put in flight by a section of [Raft.v] and may arrive
    at any node, at any later time, any number of times.  As long as the entry
    that a proposal sends is still the last of its node's log when the request
    is built, any two logs of the cluster, at any two moments, agree up to every
    index at which their terms agree.  The code does not see to that condition:
    [ProposePut] appends in one section and builds the request in another
    (raft.cpp:220-229 and 241-247), and looks at neither its role nor its entry in
    the second.  Both another proposal of the leader and a request of a new leader
    may come between them, and either breaks log matching:
    [overlapping_proposals_diverge] here, [late_request_diverges] in [RaftDelay]. *)

From S2P Require Import Prelude CxxString FileSystem KVStore Raft RaftElection RaftSpec.

Module RaftLog.
Import Raft RaftElection RaftSpec.

(** ** The cluster with its requests in flight *)

Record Net := mkNet { cluster : Cluster; in_flight : list AppendEntriesReq }.

Definition node (s : Net) (i : Z) : option RaftNode := nodes (cluster s) !! i.
Definition send (req : AppendEntriesReq) (s : Net) : Net :=
  mkNet (cluster s) (req :: in_flight s).
Definition update (i : Z) (n : RaftNode) (s : Net) : Net :=
  mkNet (with_node i n (cluster s)) (in_flight s).

Inductive net_step (s : Net) : Net → Prop :=
  (** any section that leaves all logs as they are: elections and votes,
      responses, stepping down, the commit index, the apply loop *)
  | net_local c :
      step (cluster s) c → (∀ i, log_ <$> nodes c !! i = log_ <$> nodes (cluster s) !! i) →
      net_step s (mkNet c (in_flight s))
  (** [HeartbeatLoop] builds the request for peer [p] *)
  | net_heartbeat i p n :
      node s i = Some n → role_ n = Leader → net_step s (send (BuildAppendEntriesLocked p n) s)
  (** the first section of a proposal *)
  | net_propose i e n :
      node s i = Some n → IsLeaderLocked n = true → term e = current_term_ n →
      net_step s (update i (append_proposal e n) s)
  (** its second section, at a moment at which the entry is the last of the log: a
      condition of this relation, which the code does not check *)
  | net_request i e n :
      node s i = Some n → last (log_ n) = Some e → net_step s (send (proposal_request e n) s)
  (** the commit notice that follows a proposal *)
  | net_commit i n :
      node s i = Some n → net_step s (send (commit_request n) s)
  (** a request arrives at [p] *)
  | net_deliver p req n :
      req ∈ in_flight s → node s p = Some n →
      net_step s (update p (OnAppendEntries req n).2 s).

(** Every step is a step of the election model, or changes no node. *)
Lemma net_step_cluster s s' :
  net_step s s' → step (cluster s) (cluster s') ∨ cluster s' = cluster s.
Proof.
  intros []; cbn; auto; left.
  - by apply step_propose.
  - by apply step_append.
Qed.

(** ** What one step does to the nodes *)

Definition wins (n n' : RaftNode) : Prop := role_ n = Candidate ∧ n' = BecomeLeaderLocked n.

Definition evolves (n n' : RaftNode) : Prop := keeps n n' ∨ wins n n'.

Lemma evolves_refl n : evolves n n.
Proof. by left. Qed.

Lemma wins_spec n n' :
  wins n n' → role_ n = Candidate ∧ role_ n' = Leader ∧ current_term_ n' = current_term_ n.
Proof. by intros [? ->]. Qed.

Lemma step_evolves c c' i :
  step c c' → option_Forall2 evolves (nodes c !! i) (nodes c' !! i).
Proof.
  assert (Hsame : ∀ o, option_Forall2 evolves o o) by (intros []; constructor; apply evolves_refl).
  assert (Hone : ∀ j n n', nodes c !! j = Some n → evolves n n' →
    option_Forall2 evolves (nodes c !! i) (<[j:=n']> (nodes c) !! i)).
  { intros j n n' Hn He. destruct (decide (j = i)) as [->|]; [|by rewrite lookup_insert_ne].
    rewrite Hn, lookup_insert_eq. by constructor. }
  intros Hs. destruct Hs; cbn; try apply Hsame; (eapply Hone; [done|]).
  - left. replace n' with (start_election n).2 by (by rewrite H3). by apply keeps_timeout.
  - left. replace n' with (OnRequestVote (el_req e) n).2 by (by rewrite H3). apply keeps_vote_request.
  - apply vote_response_spec in H2 as [[K _]|[_ [K|(_ & C & _ & _ & _ & _ & _ & _ & _ & W)]]]; [by left..|by right].
  - left. apply keeps_append.
  - left. apply keeps_heartbeat.
  - left. by constructor.
  - left. apply keeps_proposal.
  - left. apply keeps_commit.
  - left. apply keeps_apply.
Qed.

(** ** Logs *)

Lemma matching_refl l : matching l l.
Proof. by intros i. Qed.

Lemma matching_sym l1 l2 : matching l1 l2 → matching l2 l1.
Proof. intros M i H1 H2 E. symmetry. by apply M. Qed.

Lemma term_at_app l1 l2 i :
  (i ≤ N.of_nat (length l1))%N → term_at (l1 ++ l2) i = term_at l1 i.
Proof.
  intros Hi. unfold term_at. destruct (N.eqb_spec i 0) as [|Hi0]; [done|].
  rewrite length_app. rewrite !(proj2 (N.ltb_ge _ _)) by lia. by rewrite lookup_app_l by lia.
Qed.

Lemma term_at_lookup l i e : l !! i = Some e → term_at l (N.of_nat (S i)) = term e.
Proof.
  intros Hi. pose proof (lookup_lt_Some _ _ _ Hi). unfold term_at.
  rewrite (proj2 (N.eqb_neq _ _)), (proj2 (N.ltb_ge _ _)) by lia.
  replace (N.to_nat (N.of_nat (S i) - 1)) with i by lia. by rewrite Hi.
Qed.

(** Extending a log by an entry that no index past its end can be confused
    with. *)
Lemma matching_snoc l e l' :
  matching l l' → (∀ k e', l' !! k = Some e' → term e' = term e → k < length l) →
  matching (l ++ [e]) l'.
Proof.
  intros M Hfresh i H1 H2. rewrite length_app in H1. cbn in H1.
  destruct (decide (i ≤ length l)) as [Hi|Hi].
  - rewrite term_at_app by lia. rewrite take_app_le by done. by apply M.
  - assert (i = S (length l)) as -> by lia. destruct (lookup_lt_is_Some_2 l' (length l)) as [e' He']; [lia|].
    rewrite (term_at_lookup _ _ _ He'), (term_at_lookup (l ++ [e]) (length l) e)
      by (by rewrite lookup_app_r, Nat.sub_diag).
    intros E. symmetry in E. specialize (Hfresh _ _ He' E). lia.
Qed.

(** The request carries the part of log [l] after an index. *)
Definition carries (req : AppendEntriesReq) (l : list LogEntry) : Prop :=
  (prev_log_index req ≤ N.of_nat (length l))%N ∧
  prev_log_term req = term_at l (prev_log_index req) ∧
  entries req = drop (N.to_nat (prev_log_index req)) l.

(** A node that accepts such a request has log [l] afterwards, if its own log
    matched. *)
Lemma append_carried req l n :
  carries req l → matching l (log_ n) →
  log_ (OnAppendEntries req n).2 = log_ n ∨ log_ (OnAppendEntries req n).2 = l.
Proof.
  intros (Hle & Ht & He) M.
  destruct (N.le_gt_cases (current_term_ n) (ae_term req)) as [Hge|Hlt]; cycle 1.
  { left. unfold OnAppendEntries. by rewrite (proj2 (N.ltb_lt _ _)). }
  pose proof (OnAppendEntries_run req n Hge) as R. destruct (OnAppendEntries req n) as [resp n'].
  destruct R as (_ & _ & _ & R & _). cbn [snd]. rewrite R.
  destruct (consistent req (log_ n)) eqn:C; [|by left]. unfold consistent in C.
  apply andb_true_iff in C as [C1%N.leb_le C2%N.eqb_eq]. unfold appended_log.
  destruct (entries req) as [|e es] eqn:E; [by left|right]. rewrite He.
  rewrite <-(take_drop (N.to_nat (prev_log_index req)) l) at 2. f_equal. symmetry.
  apply M; [lia|lia|]. rewrite N2Nat.id. congruence.
Qed.

(** A node that still leads after an append request has rejected it. *)
Lemma append_leader req n :
  role_ (OnAppendEntries req n).2 = Leader → (OnAppendEntries req n).2 = n.
Proof.
  unfold OnAppendEntries. destruct (ae_term req <? current_term_ n)%N; [done|].
  destruct (current_term_ n <? ae_term req)%N; cbv zeta;
    repeat case_match; intros; simplify_eq/=; done.
Qed.

Lemma heartbeat_carries p n :
  entries (BuildAppendEntriesLocked p n) ≠ [] → carries (BuildAppendEntriesLocked p n) (log_ n).
Proof.
  unfold BuildAppendEntriesLocked, carries. set (nx := default 1%N _).
  cbn [entries prev_log_index prev_log_term].
  destruct (N.leb_spec 1 nx); [|done]. destruct (N.leb_spec nx (N.of_nat (length (log_ n)))); [|done].
  intros _. cbn [andb]. assert ((if ((nx =? 0) || (nx =? 1))%N then 0%N else (nx - 1)%N) = (nx - 1)%N) as ->.
  { destruct (N.eqb_spec nx 0), (N.eqb_spec nx 1); cbn; lia. }
  split_and!; [lia|done|done].
Qed.

Lemma proposal_carries e n : last (log_ n) = Some e → carries (proposal_request e n) (log_ n).
Proof.
  intros (l & Hl)%last_Some. unfold proposal_request, carries, LastLogIndexLocked.
  rewrite Hl, length_app. cbn [length]. rewrite decide_False by lia.
  cbn [entries prev_log_index prev_log_term]. unfold TermAtLocked. rewrite Hl.
  split_and!; [lia|done|]. replace (N.to_nat _) with (length l) by lia. by rewrite drop_app_length.
Qed.

(** A heartbeat from next index [k + 1] brings a follower whose log agrees with
    the leader's up to [k] to the leader's log. *)
Lemma catches_up p n f k :
  next_index_ n !! p = Some (N.of_nat (S k)) → k < length (log_ n) →
  log_ f = take k (log_ n) → (current_term_ f ≤ current_term_ n)%N →
  let f' := (OnAppendEntries (BuildAppendEntriesLocked p n) f).2 in
  current_term_ f' = current_term_ n ∧ log_ f' = log_ n.
Proof.
  intros Hnx Hk Hf Ht. pose proof (build_suffix p n _ Hnx) as B. cbv zeta in B.
  destruct B as (B1 & B2 & B3 & B4 & e & es & Hes); [lia|].
  set (req := BuildAppendEntriesLocked p n) in *.
  replace (N.of_nat (S k) - 1)%N with (N.of_nat k) in * by lia. rewrite Nat2N.id in B4.
  pose proof (OnAppendEntries_run req f) as R. destruct (OnAppendEntries req f) as [resp f'].
  destruct R as (_ & R1 & _ & R2 & _); [lia|]. cbn [snd]. split; [congruence|].
  assert (consistent req (log_ f) = true) as C.
  { unfold consistent. rewrite B2, B3, Hf, length_take.
    rewrite <-(take_drop k (log_ n)) at 3. rewrite term_at_app by (rewrite length_take; lia).
    rewrite N.eqb_refl, andb_true_r. apply N.leb_le. lia. }
  rewrite R2, C. unfold appended_log. rewrite Hes, <-Hes, B4, B2, Hf, Nat2N.id.
  rewrite take_take, Nat.min_id. apply take_drop.
Qed.

(** The term at the end of a log. *)
Lemma term_at_last l e : term_at (l ++ [e]) (N.of_nat (length (l ++ [e]))) = term e.
Proof.
  rewrite length_app. cbn. rewrite Nat.add_1_r. apply term_at_lookup.
  by rewrite lookup_app_r, Nat.sub_diag.
Qed.

(** ** The invariant *)

Section Matching.
Context (members : list Z) (Hmembers : NoDup members).

(** [G]: the votes granted; [led]: the terms led so far and by whom; [pool]:
    every log there has been. *)
Record LogInv (G : gset (Z * N * Z)) (led : N → Z → Prop) (pool : list LogEntry → Prop) (s : Net)
    : Prop := mkLogInv {
  li_votes : Inv members G (cluster s);
  li_led t i : led t i → elected members G t i ∧
    ∃ n, node s i = Some n ∧ (t ≤ current_term_ n)%N ∧ (t = current_term_ n → role_ n ≠ Candidate);
  li_leader i n : node s i = Some n → role_ n = Leader → led (current_term_ n) i;
  li_node i n : node s i = Some n → pool (log_ n);
  li_flight req : req ∈ in_flight s → entries req ≠ [] → ∃ l, pool l ∧ carries req l;
  li_matching l1 l2 : pool l1 → pool l2 → matching l1 l2;
  li_terms l k e : pool l → l !! k = Some e → ∃ i, led (term e) i;
  li_leads i n l k e : node s i = Some n → role_ n = Leader → pool l → l !! k = Some e →
    term e = current_term_ n → k < length (log_ n);
}.

Lemma li_send G led pool s req :
  (entries req ≠ [] → ∃ l, pool l ∧ carries req l) →
  LogInv G led pool s → LogInv G led pool (send req s).
Proof using.
  intros Hreq [V Ld Lr Nd Fl M T Top]. constructor; try done. cbn. intros r [->|Hr]%elem_of_cons; auto.
Qed.

(** A step after which every log is one there has been, and the leaders that
    stay have theirs. *)
Lemma li_evolve G G' led pool s s' :
  LogInv G led pool s → G ⊆ G' → Inv members G' (cluster s') → in_flight s' = in_flight s →
  (∀ i, option_Forall2 evolves (node s i) (node s' i)) →
  (∀ i n, node s' i = Some n → pool (log_ n)) →
  (∀ i n n', node s i = Some n → node s' i = Some n' → role_ n' = Leader → log_ n' = log_ n) →
  ∃ led', LogInv G' led' pool s'.
Proof using Hmembers.
  intros [V Ld Lr Nd Fl M T Top] HG V' Hfl Hev Hpool Hlog.
  exists (λ t i, led t i ∨ ∃ n, node s' i = Some n ∧ role_ n = Leader ∧ current_term_ n = t).
  constructor; try done.
  - intros t i [Hled|(n & Hn & Hr & <-)].
    + destruct (Ld t i Hled) as (El & n & Hn & Ht & Hc). split; [by eapply elected_mono|].
      specialize (Hev i). rewrite Hn in Hev. inversion Hev as [? n' Hee Hx Hy|]; subst.
      exists n'. split; [done|]. destruct Hee as [K|(_ & L & E)%wins_spec]; [|rewrite E, L; by split].
      pose proof (keeps_term _ _ K). split; [lia|]. intros -> Hr'.
      assert (current_term_ n' = current_term_ n) as E by lia. apply Hc; [done|].
      by apply (keeps_candidate _ _ K).
    + split; [by eapply inv_leader|]. exists n. split; [done|]. split; [lia|]. by rewrite Hr.
  - intros i n Hn Hr. right. by exists n.
  - by rewrite Hfl.
  - intros l k e Hl He. destruct (T l k e Hl He) as [i Hi]. exists i. by left.
  - intros i n' l k e Hn' Hr Hl He Et. specialize (Hev i). rewrite Hn' in Hev.
    inversion Hev as [n ? Hee Hx Hy|]; subst. symmetry in Hx. rewrite (Hlog i n n') by done.
    destruct Hee as [K|(C & _ & E)%wins_spec].
    + apply (keeps_leader _ _ K) in Hr as [Hr E]. eapply (Top i n l k e); try done. congruence.
    + destruct (T l k e Hl He) as [j Hj]. rewrite Et in Hj. destruct (Ld _ _ Hj) as (Ej & m & Hm & _ & Hc).
      assert (j = i) as ->.
      { eapply (elected_unique members); [done|exact V'|by eapply elected_mono|by eapply inv_leader]. }
      rewrite Hx in Hm. injection Hm as <-. by destruct Hc.
Qed.

(** A leader's proposal. *)
Lemma li_propose G G' led pool s i e n :
  LogInv G led pool s → G ⊆ G' → node s i = Some n → role_ n = Leader → term e = current_term_ n →
  Inv members G' (cluster (update i (append_proposal e n) s)) →
  LogInv G' led (λ l, pool l ∨ l = log_ n ++ [e]) (update i (append_proposal e n) s).
Proof using Hmembers.
  intros [V Ld Lr Nd Fl M T Top] HG Hn Hr Et V'.
  assert (Hnode : ∀ j m, node (update i (append_proposal e n) s) j = Some m →
    ∃ m0, node s j = Some m0 ∧ role_ m = role_ m0 ∧ current_term_ m = current_term_ m0 ∧
      (j ≠ i ∧ log_ m = log_ m0 ∨ j = i ∧ m0 = n ∧ log_ m = log_ n ++ [e])).
  { intros j m. unfold node, update. cbn. destruct (decide (j = i)) as [->|].
    - rewrite lookup_insert_eq. intros [= <-]. exists n. split_and!; [done..|by right].
    - rewrite lookup_insert_ne by done. intros Hm. exists m. split_and!; [done..|by left]. }
  assert (Hfresh : ∀ l k e', pool l → l !! k = Some e' → term e' = term e → k < length (log_ n)).
  { intros l k e' Hl He' E. eapply (Top i n l k e'); try done. congruence. }
  constructor; try done.
  - intros t j Hled. destruct (Ld t j Hled) as (El & m & Hm & Hc). split; [by eapply elected_mono|].
    unfold node, update. cbn. destruct (decide (j = i)) as [->|]; [|exists m; by rewrite lookup_insert_ne].
    rewrite Hn in Hm. injection Hm as <-. exists (append_proposal e n). by rewrite lookup_insert_eq.
  - intros j m (m0 & Hm0 & -> & -> & _)%Hnode. by apply Lr.
  - intros j m (m0 & Hm0 & _ & _ & [[_ ->]|(_ & _ & ->)])%Hnode; [left; by eapply Nd|by right].
  - intros req Hreq Hne. destruct (Fl req Hreq Hne) as (l & ? & ?). exists l. auto.
  - assert (Hnew : ∀ l, pool l → matching (log_ n ++ [e]) l).
    { intros l Hl. apply matching_snoc; [by apply M; [eapply Nd|]|]. intros k e'. by apply Hfresh. }
    intros l1 l2 [H1| ->] [H2| ->]; auto using matching_refl, matching_sym.
  - intros l k e' [Hl| ->]; [by apply T|]. rewrite lookup_snoc_Some. intros [[_ He']|[_ <-]].
    + eapply T; [|exact He']. by eapply Nd.
    + exists i. rewrite Et. by eapply Lr.
  - intros j m l k e' (m0 & Hm0 & -> & -> & Hlog)%Hnode Hrj Hl He' Ej.
    assert (k < length (log_ m0) ∨ k = length (log_ n) ∧ j = i) as Hk.
    { destruct Hl as [Hl| ->]; [left; by eapply Top|].
      apply lookup_snoc_Some in He' as [[_ He']|[-> <-]]; [left; eapply Top; try done; by eapply Nd|right].
      split; [done|]. eapply (elected_unique members); [done|exact V| |].
      - apply (Ld (current_term_ m0)). by eapply Lr.
      - apply (Ld (current_term_ m0)). rewrite <-Ej, Et. by eapply Lr. }
    destruct Hlog as [[Hne ->]|(-> & -> & ->)]; [by destruct Hk as [?|[_ ?]]|].
    rewrite length_app. cbn. lia.
Qed.

Lemma li_deliver G G' led pool s p req n :
  LogInv G led pool s → G ⊆ G' → req ∈ in_flight s → node s p = Some n →
  Inv members G' (cluster (update p (OnAppendEntries req n).2 s)) →
  ∃ led', LogInv G' led' pool (update p (OnAppendEntries req n).2 s).
Proof using Hmembers.
  intros HI HG Hreq Hn V'. pose proof HI as [V Ld Lr Nd Fl M T Top].
  eapply li_evolve; [exact HI|done|exact V'|done| | |].
  - intros i. apply step_evolves. by apply step_append.
  - intros i m. unfold node, update. cbn. destruct (decide (i = p)) as [->|].
    + rewrite lookup_insert_eq. intros [= <-].
      destruct (decide (entries req = [])) as [Hnil|Hne].
      { rewrite append_none_log by done. by eapply Nd. }
      destruct (Fl req Hreq Hne) as (l & Hl & Hc).
      destruct (append_carried req l n Hc) as [->| ->]; [apply M; [done|by eapply Nd]|by eapply Nd|done].
    + rewrite lookup_insert_ne by done. by apply Nd.
  - intros i m m'. unfold node, update. cbn. destruct (decide (i = p)) as [->|].
    + unfold node in Hn. rewrite Hn, lookup_insert_eq. intros [= <-] [= <-] Hr.
      by rewrite append_leader.
    + rewrite lookup_insert_ne by done. by intros -> [= <-].
Qed.

Lemma li_step G led pool s s' :
  LogInv G led pool s → net_step s s' → ∃ G' led' (pool' : list LogEntry → Prop),
    LogInv G' led' pool' s' ∧ ∀ l, pool l → pool' l.
Proof using Hmembers.
  intros HI Hs. pose proof HI as [V Ld Lr Nd Fl M T Top].
  assert (∃ G', G ⊆ G' ∧ Inv members G' (cluster s')) as (G' & HG & V').
  { destruct (net_step_cluster _ _ Hs) as [Hc| ->]; [|by exists G]. by eapply inv_cluster_step. }
  destruct Hs as [c Hc Hlogs|i p n Hn Hr|i e n Hn Hr Et|i e n Hn He|i n Hn|p req n Hreq Hn].
  - destruct (li_evolve G G' led pool s (mkNet c (in_flight s))) as [led' HI']; try done.
    + intros i. by apply step_evolves.
    + intros i n Hn. specialize (Hlogs i). unfold node in Hn. cbn in Hn. rewrite Hn in Hlogs.
      symmetry in Hlogs. apply fmap_Some in Hlogs as (m & Hm & ->). by eapply Nd.
    + intros i n n' Hn Hn' _. specialize (Hlogs i). unfold node in Hn, Hn'. cbn in Hn'.
      rewrite Hn, Hn' in Hlogs. cbn in Hlogs. congruence.
    + by exists G', led', pool.
  - exists G, led, pool. split; [|done]. apply li_send; [|done]. intros Hne. exists (log_ n).
    split; [by eapply Nd|by apply heartbeat_carries].
  - eexists G', led, _. split; [eapply li_propose; try done; by apply bool_decide_eq_true in Hr|by left].
  - exists G, led, pool. split; [|done]. apply li_send; [|done]. intros _. exists (log_ n).
    split; [by eapply Nd|by apply proposal_carries].
  - exists G, led, pool. split; [|done]. by apply li_send.
  - destruct (li_deliver G G' led pool s p req n) as [led' HI']; try done. by exists G', led', pool.
Qed.

Lemma li_initial c : initial members c → LogInv ∅ (λ _ _, False) (λ l, l = []) (mkNet c []).
Proof using Hmembers.
  intros Hc. pose proof (inv_initial members Hmembers c Hc) as V. destruct Hc as (_ & _ & Hn).
  constructor; cbn; try done.
  - intros i n Hi Hr. unfold node in Hi. destruct (Hn i n Hi) as (ps & -> & _). done.
  - intros i n Hi. unfold node in Hi. by destruct (Hn i n Hi) as (ps & -> & _).
  - intros req Hreq. by apply not_elem_of_nil in Hreq.
  - intros l1 l2 -> ->. apply matching_refl.
  - by intros l k e ->.
  - by intros i n l k e _ _ ->.
Qed.

Lemma li_reachable G led pool s s' :
  LogInv G led pool s → rtc net_step s s' → ∃ G' led' (pool' : list LogEntry → Prop),
    LogInv G' led' pool' s' ∧ ∀ l, pool l → pool' l.
Proof using Hmembers.
  intros HI Hrtc. revert G led pool HI. induction Hrtc as [s|s1 s2 s3 Hs _ IH]; intros G led pool HI.
  { by exists G, led, pool. }
  destruct (li_step _ _ _ _ _ HI Hs) as (G2 & led2 & pool2 & HI2 & H12).
  destruct (IH _ _ _ HI2) as (G3 & led3 & pool3 & HI3 & H23). exists G3, led3, pool3. auto.
Qed.

Lemma reachable_matching c0 s1 s2 i j n m :
  initial members c0 → rtc net_step (mkNet c0 []) s1 → rtc net_step s1 s2 →
  node s1 i = Some n → node s2 j = Some m → matching (log_ n) (log_ m).
Proof using Hmembers.
  intros Hi R1 R2 Hn Hm. apply li_initial in Hi.
  destruct (li_reachable _ _ _ _ _ Hi R1) as (G1 & led1 & pool1 & I1 & _).
  destruct (li_reachable _ _ _ _ _ I1 R2) as (G2 & led2 & pool2 & I2 & H12).
  eapply (li_matching _ _ _ _ I2); [eapply H12, (li_node _ _ _ _ I1)|eapply (li_node _ _ _ _ I2)]; done.
Qed.

End Matching.
(** ** Properties *)

(** C5: Log matching.  In every run of the cluster in which the entry of every
    proposal is still the last of its node's log when its request is built (nothing
    was appended behind it and no leader's request has cut it off since it was
    appended; the code does not check this), whatever the elections, the order, the delay and the repetition of requests, the logs of
    any two nodes, at any two moments of the run, agree on all entries up to any
    index at which both have the same term. *)
Theorem log_matching members c0 s1 s2 i j n m k :
  initial members c0 → rtc net_step (mkNet c0 []) s1 → rtc net_step s1 s2 →
  node s1 i = Some n → node s2 j = Some m →
  k ≤ length (log_ n) → k ≤ length (log_ m) →
  TermAtLocked n (N.of_nat k) = TermAtLocked m (N.of_nat k) →
  take k (log_ n) = take k (log_ m).
Proof.
  intros Hi R1 R2 Hn Hm. eapply reachable_matching; try done. by destruct Hi.
Qed.

(** Overlapping proposals diverge.  When two proposals have both appended to
    the leader's log before the first one builds its request, and a heartbeat has
    brought both entries to a follower, the first proposal's request replaces the
    second entry there: the follower acknowledges it, and the two logs hold
    different entries of the same term at the same index. *)
Theorem overlapping_proposals_diverge p n f e1 e2 :
  role_ n = Leader → e1 ≠ e2 → term e1 = current_term_ n → term e2 = current_term_ n →
  log_ f = log_ n → (current_term_ f ≤ current_term_ n)%N →
  next_index_ n !! p = Some (N.of_nat (S (length (log_ n)))) →
  let n2 := append_proposal e2 (append_proposal e1 n) in
  let f1 := (OnAppendEntries (BuildAppendEntriesLocked p n2) f).2 in
  let '(resp, f2) := OnAppendEntries (proposal_request e1 n2) f1 in
  success resp = true ∧ role_ n2 = Leader ∧
  TermAtLocked n2 (LastLogIndexLocked n2) = TermAtLocked f2 (LastLogIndexLocked f2) ∧
  length (log_ f2) = length (log_ n2) ∧
  last (log_ n2) = Some e2 ∧ last (log_ f2) = Some e1 ∧ ¬ matching (log_ n2) (log_ f2).
Proof.
  intros Hr Hne T1 T2 Hlog Hterm Hnx n2 f1.
  assert (L2 : log_ n2 = (log_ n ++ [e1]) ++ [e2]) by done.
  assert (Hf1 : current_term_ f1 = current_term_ n ∧ log_ f1 = log_ n2).
  { apply (catches_up p n2 f (length (log_ n))); try done.
    - rewrite L2, !length_app. cbn. lia.
    - rewrite Hlog, L2, <-app_assoc. by rewrite take_app_length. }
  destruct Hf1 as [Tf Lf]. set (req := proposal_request e1 n2).
  assert (Hprev : prev_log_index req = N.of_nat (S (length (log_ n)))).
  { unfold req, proposal_request, LastLogIndexLocked. rewrite L2, !length_app. cbn [length].
    rewrite decide_False by lia. cbn. lia. }
  assert (Hpt : prev_log_term req = term_at (log_ n2) (prev_log_index req)) by done.
  pose proof (OnAppendEntries_run req f1) as R. destruct (OnAppendEntries req f1) as [resp f2].
  destruct R as (_ & _ & Rs & Rl & _); [by rewrite Tf|].
  assert (C : consistent req (log_ f1) = true).
  { unfold consistent. rewrite Hpt, Lf, N.eqb_refl, Hprev, L2, !length_app, andb_true_r.
    apply N.leb_le. cbn. lia. }
  rewrite C in Rs, Rl.
  assert (F2 : log_ f2 = (log_ n ++ [e1]) ++ [e1]).
  { rewrite Rl. unfold appended_log. replace (entries req) with [e1] by done. f_equal.
    rewrite Hprev, Lf, L2, Nat2N.id. apply take_app_length'. rewrite length_app. cbn. lia. }
  assert (E : length (log_ f2) = length (log_ n2)) by (by rewrite F2, L2, !length_app).
  assert (Et : TermAtLocked n2 (LastLogIndexLocked n2) = TermAtLocked f2 (LastLogIndexLocked f2)).
  { unfold TermAtLocked, LastLogIndexLocked. rewrite L2, F2, !term_at_last. congruence. }
  split_and!; try done; [by rewrite L2, last_snoc|by rewrite F2, last_snoc|].
  intros M. specialize (M (length (log_ n2)) ltac:(lia) ltac:(lia)). unfold TermAtLocked, LastLogIndexLocked in Et.
  rewrite E in Et. specialize (M Et). rewrite firstn_all, <-E, firstn_all, L2, F2 in M.
  apply app_inj_tail in M as [_ ->]. done.
Qed.

(** ** Witnesses *)

(** In the run below, node 1 wins the election, takes a proposal and sends it to
    node 2. *)
Definition example_entry : LogEntry := mkLogEntry 1 Put (b# "k") (b# "v").

Lemma same_logs (ns : gmap Z RaftNode) j n n' i :
  ns !! j = Some n → log_ n' = log_ n → log_ <$> <[j:=n']> ns !! i = log_ <$> ns !! i.
Proof.
  intros Hn Hl. destruct (decide (i = j)) as [->|]; [|by rewrite lookup_insert_ne].
  rewrite Hn, lookup_insert_eq. cbn. by rewrite Hl.
Qed.

Lemma example_run :
  ∃ s n m, rtc net_step (mkNet example_cluster []) s ∧ node s 1%Z = Some n ∧ node s 2%Z = Some m ∧
    log_ n = [example_entry] ∧ log_ m = [example_entry].
Proof.
  eexists _, _, _. split_and!.
  - eapply rtc_l.
    { apply net_local; [eapply (step_timeout _ 1%Z); [reflexivity|discriminate|reflexivity..]|].
      intros i. cbn. eapply same_logs; reflexivity. }
    eapply rtc_l.
    { apply net_local; [eapply (step_ask _ 1%Z);
        [reflexivity|reflexivity|reflexivity|reflexivity|vm_compute; reflexivity]|].
      intros i. cbn. eapply same_logs; reflexivity. }
    eapply rtc_l.
    { apply net_local; [eapply (step_collect _ 1%Z);
        [reflexivity|reflexivity|reflexivity|vm_compute; reflexivity]|].
      intros i. cbn. eapply same_logs; reflexivity. }
    eapply rtc_l; [eapply (net_propose _ 1%Z example_entry); reflexivity|].
    eapply rtc_l; [eapply (net_request _ 1%Z example_entry); reflexivity|].
    eapply rtc_once. eapply (net_deliver _ 2%Z); [apply list_elem_of_here|reflexivity].
  - vm_compute. reflexivity.
  - vm_compute. reflexivity.
  - reflexivity.
  - reflexivity.
Qed.

Lemma log_matching_witness :
  ∃ s n m, rtc net_step (mkNet example_cluster []) s ∧ node s 1%Z = Some n ∧ node s 2%Z = Some m ∧
    take 1 (log_ n) = take 1 (log_ m) ∧ log_ n ≠ [].
Proof.
  destruct example_run as (s & n & m & Hrun & Hn & Hm & En & Em). exists s, n, m.
  split; [exact Hrun|]. split; [exact Hn|]. split; [exact Hm|]. split; [|by rewrite En].
  apply (log_matching example_members example_cluster s s 1%Z 2%Z n m 1); try assumption.
  - exact example_initial.
  - apply rtc_refl.
  - rewrite En. cbn. lia.
  - rewrite Em. cbn. lia.
  - unfold TermAtLocked. rewrite En, Em. reflexivity.
Defined.

Definition example_leader : RaftNode :=
  BecomeLeaderLocked (set_election Candidate None 1 (Some 1%Z) (make 1 [2; 3]%Z)).

Lemma overlapping_proposals_diverge_witness :
  let e2 := mkLogEntry 1 Del (b# "k") [] in
  let n2 := append_proposal e2 (append_proposal example_entry example_leader) in
  let f1 := (OnAppendEntries (BuildAppendEntriesLocked 2 n2) (make 2 [1; 3]%Z)).2 in
  let f2 := (OnAppendEntries (proposal_request example_entry n2) f1).2 in
  last (log_ n2) = Some e2 ∧ last (log_ f2) = Some example_entry.
Proof.
  intros e2 n2 f1 f2.
  pose proof (overlapping_proposals_diverge 2 example_leader (make 2 [1; 3]%Z) example_entry e2) as P.
  cbv zeta in P. fold n2 f1 in P. unfold f2.
  destruct (OnAppendEntries (proposal_request example_entry n2) f1) as [resp f].
  destruct P as (_ & _ & _ & _ & P1 & P2 & _); try reflexivity; [discriminate|by cbn; lia|].
  split; [exact P1|exact P2].
Defined.

End RaftLog.
