(* ===== verification/RaftHistory.v ===== *)
(** * The history of a Raft cluster

    What the safety of commitment rests on, apart from any state: the logs with
    which nodes stood for election, the logs that leaders have had in a term, and
    the leaders' logs that nodes have acknowledged.  The record [consistent_history]
    collects what a run keeps true of them; from it follow log matching, and that
    every later leader starts with everything that a quorum acknowledged
    ([completeness]). *)

From S2P Require Import Prelude Raft RaftElection RaftSpec RaftLog.

Module RaftHistory.
Import Raft RaftElection RaftSpec RaftLog.

(** ** Histories *)

Abbreviation Log := (list LogEntry).

(** [stands h t i l]: node [i] stood for election in term [t] with log [l];
    [leads h t M]: the leader of term [t] has had log [M]; [acks h v t M]: node [v]
    has acknowledged log [M] to the leader of term [t]. *)
Record History := mkHistory {
  stands : N → Z → Log → Prop;
  leads : N → Log → Prop;
  acks : Z → N → Log → Prop;
}.

Definition last_term (l : Log) : N := match last l with Some e => term e | None => 0 end.

(** A part of an acknowledged log. *)
Definition acked (h : History) (v : Z) (t : N) (P : Log) : Prop :=
  ∃ M, acks h v t M ∧ P `prefix_of` M.

(** A part of the log of the leader of its last term. *)
Definition known (h : History) (l : Log) : Prop :=
  l = [] ∨ ∃ M, leads h (last_term l) M ∧ l `prefix_of` M.

(** A leader of term [U] that is later than [T] did not have [P]. *)
Definition overruled (h : History) (T : N) (P : Log) (U : N) : Prop :=
  (T < U)%N ∧ ∃ M, leads h U M ∧ ¬ P `prefix_of` M.

Definition up_to_date (l lv : Log) : Prop :=
  (last_term lv < last_term l)%N ∨ last_term l = last_term lv ∧ length lv ≤ length l.

Record extends (h h' : History) : Prop := mkExtends {
  ext_stands t i l : stands h t i l → stands h' t i l;
  ext_leads t M : leads h t M → leads h' t M;
  ext_acks v t M : acks h v t M → acks h' v t M;
}.

#[global] Instance extends_preorder : PreOrder extends.
Proof.
  split; [by intros h|]. intros h1 h2 h3 [S1 L1 A1] [S2 L2 A2]. constructor; auto.
Qed.

Lemma acked_mono h h' v t P : extends h h' → acked h v t P → acked h' v t P.
Proof. intros E (M & HM & HP). exists M. split; [by apply (ext_acks _ _ E)|done]. Qed.

Lemma known_mono h h' l : extends h h' → known h l → known h' l.
Proof. intros E [->|(M & HM & HP)]; [by left|right]. exists M. split; [by apply (ext_leads _ _ E)|done]. Qed.

Lemma overruled_mono h h' T P U : extends h h' → overruled h T P U → overruled h' T P U.
Proof. intros E (HT & M & HM & HP). split; [done|]. exists M. split; [by apply (ext_leads _ _ E)|done]. Qed.

Lemma acked_prefix h v t P P' : acked h v t P → P' `prefix_of` P → acked h v t P'.
Proof. intros (M & HM & HP) HP'. exists M. split; [done|]. by etransitivity. Qed.

(** ** Last terms *)

Lemma last_term_snoc l e : last_term (l ++ [e]) = term e.
Proof. unfold last_term. by rewrite last_snoc. Qed.

Lemma last_term_in l : l ≠ [] → ∃ e, e ∈ l ∧ last_term l = term e.
Proof.
  destruct l as [|e l] using rev_ind; [done|]. intros _. exists e. rewrite last_term_snoc.
  split; [|done]. apply elem_of_app. right. by apply list_elem_of_singleton.
Qed.

Lemma last_term_at l : last_term l = term_at l (N.of_nat (length l)).
Proof.
  destruct l as [|e l _] using rev_ind; [done|]. by rewrite last_term_snoc, term_at_last.
Qed.

Lemma last_term_app l l' : l' ≠ [] → last_term (l ++ l') = last_term l'.
Proof.
  destruct l' as [|e l' _] using rev_ind; [done|]. intros _. rewrite app_assoc.
  by rewrite !last_term_snoc.
Qed.

Lemma last_term_take l k : k ≤ length l → last_term (take k l) = term_at l (N.of_nat k).
Proof.
  intros Hk. rewrite last_term_at, length_take, Nat.min_l by done.
  rewrite <-(take_drop k l) at 2. rewrite term_at_app; [done|]. rewrite length_take. lia.
Qed.

(** Two parts of one log are parts of each other. *)
Lemma prefix_same_length (l1 l2 M : Log) :
  l1 `prefix_of` M → l2 `prefix_of` M → length l1 ≤ length l2 → l1 `prefix_of` l2.
Proof.
  intros H1 H2 Hl. destruct (prefix_weak_total l1 l2 M H1 H2) as [|H]; [done|].
  pose proof (prefix_length_eq _ _ H Hl) as ->. done.
Qed.

(** A part of a log followed by a tail lies in the log, or reaches into the tail. *)
Lemma prefix_app_cases (P l l' : Log) :
  P `prefix_of` l ++ l' → P `prefix_of` l ∨ ∃ q, q ≠ [] ∧ q `prefix_of` l' ∧ P = l ++ q.
Proof.
  intros HP. destruct (prefix_weak_total P l (l ++ l') HP) as [|[q ->]]; [by apply prefix_app_r|by left|].
  destruct q as [|e q]; [left; by rewrite app_nil_r|right]. exists (e :: q). split_and!; try done.
  by apply prefix_app_inv in HP.
Qed.

(** ** What a run keeps true *)

Section Histories.
Context (members : list Z) (Hmembers : NoDup members).

(** A quorum has acknowledged [P], whose last entry is of the leader's own term. *)
Definition replicated (h : History) (T : N) (P : Log) : Prop :=
  P ≠ [] ∧ last_term P = T ∧
  ∃ Q, NoDup Q ∧ Q ⊆ members ∧ (quorum members ≤ N.of_nat (length Q))%N ∧
    ∀ v, v ∈ Q → acked h v T P.

(** The vote of [v] for [i] in term [t]: [v]'s log [lv] was not ahead of [i]'s, and
    held all that [v] had acknowledged, unless a leader overruled it before. *)
Definition ballot (h : History) (G : gset (Z * N * Z)) (v : Z) (t : N) (i : Z) : Prop :=
  ∃ l lv, stands h t i l ∧ known h lv ∧ up_to_date l lv ∧
    ∀ T P, (T < t)%N → acked h v T P →
      P `prefix_of` lv ∨
      ∃ U, overruled h T P U ∧ ((U < t)%N ∨ U = t ∧ ∃ j, j ≠ i ∧ elected members G t j).

Record consistent_history (G : gset (Z * N * Z)) (h : History) : Prop := mkConsistent {
  ch_unique p t x y : (p, t, x) ∈ G → (p, t, y) ∈ G → x = y;
  ch_stands t i l l' : stands h t i l → stands h t i l' → l = l';
  ch_start t i l : stands h t i l → known h l ∧ Forall (λ e, term e < t)%N l;
  ch_leads t M : leads h t M → ∃ i l tail,
    elected members G t i ∧ stands h t i l ∧ M = l ++ tail ∧ Forall (λ e, term e = t) tail;
  ch_linear t M M' : leads h t M → leads h t M' → M `prefix_of` M' ∨ M' `prefix_of` M;
  ch_acks v t M : acks h v t M → leads h t M;
  ch_ballot v t i : (v, t, i) ∈ G → ballot h G v t i;
}.

Lemma replicated_mono h h' T P : extends h h' → replicated h T P → replicated h' T P.
Proof using.
  intros E (Hne & Hl & Q & ? & ? & ? & HQ). split; [done|]. split; [done|]. exists Q.
  split_and!; try done. intros v Hv. eapply acked_mono; [done|auto].
Qed.

Section Consistent.
Context (G : gset (Z * N * Z)) (h : History) (HC : consistent_history G h).

Lemma leads_comparable t M M' P P' :
  leads h t M → leads h t M' → P `prefix_of` M → P' `prefix_of` M' →
  P `prefix_of` P' ∨ P' `prefix_of` P.
Proof using HC.
  intros HM HM' HP HP'. destruct (ch_linear _ _ HC _ _ _ HM HM') as [H|H].
  - apply (prefix_weak_total P P' M'); [by etransitivity|done].
  - apply (prefix_weak_total P P' M); [done|by etransitivity].
Qed.

(** All terms in a leader's log are at most its own. *)
Lemma leads_terms t M : leads h t M → Forall (λ e, term e ≤ t)%N M.
Proof using HC.
  intros (i & l & tail & _ & Hs & -> & Ht)%(ch_leads _ _ HC). apply Forall_app. split.
  - eapply Forall_impl; [by apply (ch_start _ _ HC _ _ _ Hs)|]. cbn. lia.
  - eapply Forall_impl; [exact Ht|]. cbn. lia.
Qed.

Lemma known_terms l : known h l → Forall (λ e, term e ≤ last_term l)%N l.
Proof using HC.
  intros [->|(M & HM & tl & HP)]; [done|]. apply leads_terms in HM.
  rewrite HP in HM. by apply Forall_app in HM as [? _].
Qed.

Lemma known_last_le l P : known h l → P `prefix_of` l → (last_term P ≤ last_term l)%N.
Proof using HC.
  intros Hk [q ->]. destruct (decide (P = [])) as [->|Hne]; [apply N.le_0_l|].
  destruct (last_term_in P Hne) as (e & He & ->). apply known_terms in Hk.
  rewrite Forall_forall in Hk. apply Hk. apply elem_of_app. by left.
Qed.

Lemma known_stands t i l : stands h t i l → known h l ∧ (l ≠ [] → last_term l < t)%N.
Proof using HC.
  intros Hs. destruct (ch_start _ _ HC _ _ _ Hs) as [Hk Ht]. split; [done|]. intros Hne.
  destruct (last_term_in l Hne) as (e & He & ->). rewrite Forall_forall in Ht. by apply Ht.
Qed.

(** Every part of a known log is known. *)
Lemma known_prefix l P : known h l → P `prefix_of` l → known h P.
Proof using HC.
  remember (last_term l) as t eqn:Et. revert l P Et.
  induction t as [t IH] using (well_founded_ind N.lt_wf_0). intros l P -> [->|(M & HM & HlM)] HP.
  { left. by apply prefix_nil_inv in HP. }
  assert (HPM : P `prefix_of` M) by (by etransitivity).
  destruct (ch_leads _ _ HC _ _ HM) as (i & s & tail & _ & Hs & -> & Htail).
  destruct (prefix_app_cases _ _ _ HPM) as [HPs|(q & Hq & Hqt & ->)].
  - destruct (known_stands _ _ _ Hs) as [Hk Hlt]. destruct (decide (s = [])) as [->|Hne].
    + left. by apply prefix_nil_inv in HPs.
    + by apply (IH (last_term s) (Hlt Hne) s P).
  - right. exists (s ++ tail). split; [|done]. rewrite (last_term_app s q Hq).
    destruct (last_term_in q Hq) as (e & He & ->). rewrite Forall_forall in Htail.
    rewrite (Htail e); [done|]. destruct Hqt as [r ->]. apply elem_of_app. by left.
Qed.

(** Known logs match. *)
Lemma known_matching l1 l2 : known h l1 → known h l2 → matching l1 l2.
Proof using HC.
  intros K1 K2 i H1 H2 Et. rewrite <-!last_term_take in Et by done.
  pose proof (known_prefix l1 (take i l1) K1 (prefix_take _ _)) as P1.
  pose proof (known_prefix l2 (take i l2) K2 (prefix_take _ _)) as P2.
  assert (Hl : length (take i l1) = length (take i l2)) by (rewrite !length_take; lia).
  destruct P1 as [E1|(M1 & L1 & X1)].
  { rewrite E1 in Hl |- *. by destruct (take i l2). }
  destruct P2 as [E2|(M2 & L2 & X2)].
  { rewrite E2 in Hl |- *. by destruct (take i l1). }
  rewrite Et in L1. destruct (leads_comparable _ _ _ _ _ L1 L2 X1 X2) as [H|H].
  - apply prefix_length_eq; [done|lia].
  - symmetry. apply prefix_length_eq; [done|lia].
Qed.

(** ** Completeness *)

(** Whatever a quorum acknowledged in term [T] is in the log with which any later
    leader starts. *)
Lemma completeness T P U i l :
  replicated h T P → (T < U)%N → elected members G U i → stands h U i l → P `prefix_of` l.
Proof using Hmembers HC.
  intros (Hne & HlT & Q & NQ & SQ & LQ & HQ). revert i l.
  induction U as [U IH] using (well_founded_ind N.lt_wf_0). intros i l HTU Hel Hst.
  assert (Hearlier : ∀ V M, (T < V)%N → (V < U)%N → leads h V M → P `prefix_of` M).
  { intros V M H1 H2 (j & s & tail & Hj & Hs & -> & _)%(ch_leads _ _ HC).
    apply prefix_app_r. by apply (IH V H2 j s). }
  pose proof Hel as (Q' & NQ' & SQ' & LQ' & HQ').
  destruct (quorums_meet members Hmembers Q Q') as (v & Hv & Hv'); try done.
  specialize (HQ v Hv). apply HQ', (ch_ballot _ _ HC) in Hv'.
  destruct Hv' as (l0 & lv & Hst0 & Hkv & Hup & Hack).
  pose proof (ch_stands _ _ HC _ _ _ _ Hst Hst0) as <-.
  assert (HPv : P `prefix_of` lv).
  { destruct (Hack T P HTU HQ) as [|(V & (HTV & M & HM & HnP) & [HVU|(-> & j & Hji & Hj)])]; [done|..].
    - by destruct HnP; apply (Hearlier V).
    - destruct Hji. by apply (elected_once members Hmembers G U j i (λ p x y, ch_unique _ _ HC p U x y)). }
  pose proof (known_last_le lv P Hkv HPv) as HTv.
  destruct (known_stands _ _ _ Hst) as [Hk Hlt].
  destruct Hup as [Hgt|[Heq Hlen]].
  - (* the candidate's log ends in a later term *)
    destruct Hk as [->|(M & HM & HlM)]; [by apply N.nlt_0_r in Hgt|].
    assert (Hl : l ≠ []) by (by intros ->; apply N.nlt_0_r in Hgt).
    assert (HTl : (T < last_term l)%N) by lia.
    destruct (ch_leads _ _ HC _ _ HM) as (j & s & tail & Hj & Hs & -> & _).
    assert (HPs : P `prefix_of` s) by (by apply (IH (last_term l) (Hlt Hl) j s)).
    destruct (prefix_app_cases _ _ _ HlM) as [Hls|(q & _ & _ & ->)]; [|by apply prefix_app_r].
    destruct (known_stands _ _ _ Hs) as [Hks Hss].
    pose proof (known_last_le s l Hks Hls). destruct (decide (s = [])) as [->|Hsne].
    + by apply prefix_nil_inv in Hls.
    + specialize (Hss Hsne). lia.
  - (* it ends in the voter's last term, and is as long *)
    assert (Hvne : lv ≠ []) by (intros ->; by apply prefix_nil_inv in HPv).
    assert (Hlne : l ≠ []) by (by intros ->; destruct lv; [done|cbn in Hlen; lia]).
    destruct Hk as [|(M & HM & HlM)]; [done|]. destruct Hkv as [|(M' & HM' & HvM)]; [done|].
    rewrite Heq in HM. destruct (leads_comparable _ _ _ _ _ HM HM' HlM HvM) as [H|H].
    + pose proof (prefix_length_eq _ _ H Hlen) as ->. done.
    + by etransitivity.
Qed.

Lemma completeness_leads T P U M :
  replicated h T P → (T < U)%N → leads h U M → P `prefix_of` M.
Proof using Hmembers HC.
  intros HR HTU (i & l & tail & Hel & Hs & -> & _)%(ch_leads _ _ HC).
  apply prefix_app_r. by eapply completeness.
Qed.

(** A replicated log is part of its leader's. *)
Lemma replicated_leads T P : replicated h T P → ∃ M, leads h T M ∧ P `prefix_of` M.
Proof using Hmembers HC.
  intros (_ & _ & Q & NQ & _ & LQ & HQ). destruct Q as [|v Q].
  { unfold quorum in LQ. rewrite N.add_1_r in LQ. by apply N.le_0_r, N.neq_succ_0 in LQ. }
  destruct (HQ v (list_elem_of_here _ _)) as (M & HM & HP). exists M. split; [|done].
  by eapply ch_acks.
Qed.

(** Of two replicated logs one is part of the other. *)
Lemma replicated_comparable T1 P1 T2 P2 :
  replicated h T1 P1 → replicated h T2 P2 → P1 `prefix_of` P2 ∨ P2 `prefix_of` P1.
Proof using Hmembers HC.
  intros R1 R2. destruct (replicated_leads _ _ R1) as (M1 & L1 & X1).
  destruct (replicated_leads _ _ R2) as (M2 & L2 & X2).
  destruct (N.lt_trichotomy T1 T2) as [H|[<-|H]].
  - apply (prefix_weak_total P1 P2 M2); [by eapply completeness_leads|done].
  - by apply (leads_comparable T1 M1 M2).
  - apply (prefix_weak_total P1 P2 M1); [done|by eapply completeness_leads].
Qed.

End Consistent.
End Histories.

End RaftHistory.
