(* ===== verification/RaftSerial.v ===== *)
(** * Serialised exchanges in a cluster of Raft nodes

    The cluster of [RaftElection] with the append requests that nodes build, one at
    a time for each leader and peer: a request is built by a node that leads, and
    its response is processed while the node still leads in the request's term.
    The request of a proposal is built while its entry is still the last of the log.
    Requests may still be lost, delayed past elections, and answered at any time,
    and everything else interleaves freely.  The code itself does not enforce the
    discipline: heartbeats and proposals send to the same peer from different
    threads, a proposal builds its request without looking at its role or at the end
    of its log (raft.cpp:241-256), and a response is processed in whatever role and
    term the node is then; [RaftDelay] shows what is lost without it.

    This file has the step relation [serial], the invariant [SInv], which relates
    the state to a history of [RaftHistory], and its preservation by all steps that
    do not exchange requests; [RaftCommit] has the others and the theorems. *)

From S2P Require Import Prelude CxxString Raft RaftElection RaftSpec RaftLog RaftHistory.

Module RaftSerial.
Import Raft RaftElection RaftSpec RaftLog RaftHistory.

(** ** Clusters with exchanges *)

(** For a leader and a peer, the request sent and the response, once there is one. *)
Record Sys := mkSys {
  net : Cluster;
  exchanges : gmap (Z * Z) (AppendEntriesReq * option AppendEntriesResp);
}.

Definition at_ (s : Sys) (i : Z) : option RaftNode := nodes (net s) !! i.
Definition set_node (i : Z) (n : RaftNode) (s : Sys) : Sys :=
  mkSys (with_node i n (net s)) (exchanges s).
Definition set_exchange (k : Z * Z) (x : AppendEntriesReq * option AppendEntriesResp) (s : Sys) : Sys :=
  mkSys (net s) (<[k := x]> (exchanges s)).
Definition end_exchange (k : Z * Z) (s : Sys) : Sys := mkSys (net s) (delete k (exchanges s)).

(** The requests that a node sends to peer [p] in this discipline.  That the entry
    of a proposal is the last of the log is a condition of the discipline. *)
Inductive request_of (p : Z) (n : RaftNode) : AppendEntriesReq → Prop :=
  | heartbeat_request : request_of p n (BuildAppendEntriesLocked p n)
  | entry_request e : last (log_ n) = Some e → request_of p n (proposal_request e n)
  | commit_notice : request_of p n (commit_request n).

(** A section that touches neither the log nor the commit index, nor the indexes
    of the peers unless the node has just been elected. *)
Definition quiet (n n' : RaftNode) : Prop :=
  log_ n' = log_ n ∧ commit_index_ n' = commit_index_ n ∧
  (next_index_ n' = next_index_ n ∧ match_index_ n' = match_index_ n ∨
   role_ n ≠ Leader ∧ role_ n' = Leader).

Inductive serial (s : Sys) : Sys → Prop :=
  (** elections and votes, the responses to a proposal and to its commit notice,
      the apply loop *)
  | s_local c :
      step (net s) c → (∀ i, option_Forall2 quiet (at_ s i) (nodes c !! i)) →
      serial s (mkSys c (exchanges s))
  (** the first section of a proposal *)
  | s_propose i e n :
      at_ s i = Some n → role_ n = Leader → term e = current_term_ n →
      fits 63 (N.of_nat (length (log_ n) + 1)) →
      serial s (set_node i (append_proposal e n) s)
  (** a node that leads builds a request, when none is under way to the peer *)
  | s_begin i p n req :
      at_ s i = Some n → role_ n = Leader → p ∈ peers_ n → exchanges s !! (i, p) = None →
      request_of p n req →
      serial s (set_exchange (i, p) (req, None) s)
  (** the request arrives *)
  | s_deliver i p req n :
      exchanges s !! (i, p) = Some (req, None) → at_ s p = Some n →
      serial s (set_exchange (i, p) (req, Some (OnAppendEntries req n).1)
                  (set_node p (OnAppendEntries req n).2 s))
  (** the peer is not registered with the transport *)
  | s_down i p req :
      exchanges s !! (i, p) = Some (req, None) →
      serial s (set_exchange (i, p) (req, Some (mkAppendResp (ae_term req) false)) s)
  (** the leader processes the response to a heartbeat *)
  | s_finish i p req resp n :
      exchanges s !! (i, p) = Some (req, Some resp) → at_ s i = Some n →
      role_ n = Leader → current_term_ n = ae_term req →
      serial s (set_node i (on_heartbeat_response p req resp n) (end_exchange (i, p) s))
  (** the exchange ends without effect on the leader's indexes *)
  | s_drop i p x :
      exchanges s !! (i, p) = Some x → serial s (end_exchange (i, p) s).

(** The entries a node has committed. *)
Definition committed (n : RaftNode) : Log := take (N.to_nat (commit_index_ n)) (log_ n).

(** Every step of a node is one of the election model. *)
Lemma serial_cluster s s' : serial s s' → step (net s) (net s') ∨ net s' = net s.
Proof.
  intros []; cbn; auto; left; [|by eapply step_append|by eapply step_heartbeat].
  apply step_propose; [done|]. by apply bool_decide_eq_true.
Qed.

(** ** The history a state adds *)

Definition in_role (r : RaftRole) (c : Cluster) (t : N) (i : Z) (l : Log) : Prop :=
  ∃ n, nodes c !! i = Some n ∧ role_ n = r ∧ current_term_ n = t ∧ log_ n = l.

Definition observe (c : Cluster) (h : History) : History :=
  mkHistory (λ t i l, stands h t i l ∨ in_role Candidate c t i l)
    (λ t M, leads h t M ∨ ∃ i, in_role Leader c t i M)
    (λ v t M, acks h v t M ∨ in_role Leader c t v M).

Lemma extends_observe c h : extends h (observe c h).
Proof. constructor; intros; by left. Qed.

(** An acknowledgement. *)
Definition acknowledge (p : Z) (t : N) (M : Log) (h : History) : History :=
  mkHistory (stands h) (leads h) (λ v t' M', acks h v t' M' ∨ v = p ∧ t' = t ∧ M' = M).

Lemma extends_acknowledge p t M h : extends h (acknowledge p t M h).
Proof. constructor; intros; by try left. Qed.

(** Where the index maps of a new leader point. *)
Lemma foldl_insert_lookup (ps : list Z) (x : N) (m : gmap Z N) q :
  foldl (λ m p, <[p := x]> m) m ps !! q = if decide (q ∈ ps) then Some x else m !! q.
Proof.
  revert m. induction ps as [|p ps IH]; intros m; cbn; [done|]. rewrite IH.
  destruct (decide (q ∈ ps)) as [Hq|Hq].
  - by rewrite decide_True by (by apply elem_of_cons; right).
  - destruct (decide (q = p)) as [->|Hne].
    + by rewrite decide_True, lookup_insert_eq by apply list_elem_of_here.
    + rewrite decide_False, lookup_insert_ne by (done || set_solver). done.
Qed.

(** ** The invariant *)

Section Safety.
Context (members : list Z) (Hmembers : NoDup members).
Context (Hodd : Nat.Odd (length members)).

(** [P] is part of a log replicated by a leader of term at most [t]. *)
Definition settled (h : History) (t : N) (P : Log) : Prop :=
  P = [] ∨ ∃ T R, replicated members h T R ∧ (T ≤ t)%N ∧ P `prefix_of` R.

Record node_ok (h : History) (i : Z) (n : RaftNode) : Prop := mkNodeOk {
  no_known : known h (log_ n);
  no_terms : Forall (λ e, term e ≤ current_term_ n)%N (log_ n);
  no_length : fits 63 (N.of_nat (length (log_ n)));
  no_candidate : role_ n = Candidate → stands h (current_term_ n) i (log_ n);
  no_leader : role_ n = Leader →
    leads h (current_term_ n) (log_ n) ∧ acks h i (current_term_ n) (log_ n) ∧
    ∀ M, leads h (current_term_ n) M → M `prefix_of` log_ n;
  no_stands t l : stands h t i l → (t ≤ current_term_ n)%N;
  no_acks T P : acked h i T P → (T ≤ current_term_ n)%N ∧
    (P `prefix_of` log_ n ∨ ∃ U, (U ≤ current_term_ n)%N ∧ overruled h T P U);
  no_commit : (commit_index_ n ≤ N.of_nat (length (log_ n)))%N;
  no_committed : committed n = [] ∨ ∃ T R, replicated members h T R ∧ (T ≤ current_term_ n)%N ∧
    committed n `prefix_of` R ∧ (T = current_term_ n → acked h i T (committed n));
  no_keys p : is_Some (match_index_ n !! p) → p ∈ peers_ n;
  no_indexes p : role_ n = Leader → p ∈ peers_ n →
    (∃ x, next_index_ n !! p = Some x ∧ (1 ≤ x ≤ N.of_nat (length (log_ n)) + 1)%N) ∧
    ∃ x, match_index_ n !! p = Some x ∧ (x ≤ N.of_nat (length (log_ n)))%N ∧
      (x = 0%N ∨ acked h p (current_term_ n) (take (N.to_nat x) (log_ n)));
}.

(** An exchange carries a log [M] of the leader of its term. *)
Record exchange_ok (G : gset (Z * N * Z)) (h : History) (i p : Z) (req : AppendEntriesReq)
    (resp : option AppendEntriesResp) (M : Log) : Prop := mkExchangeOk {
  eo_elected : elected members G (ae_term req) i;
  eo_peer : p ≠ i;
  eo_member : p ∈ members;
  eo_leads : leads h (ae_term req) M;
  eo_length : fits 63 (N.of_nat (length M));
  eo_carries : carries req M;
  eo_commit : (leader_commit req ≤ N.of_nat (length M))%N;
  eo_settled : settled h (ae_term req) (take (N.to_nat (leader_commit req)) M);
  eo_sent P : resp = None → acked h p (ae_term req) P → P `prefix_of` M;
  eo_done r : resp = Some r → success r = true → acks h p (ae_term req) M;
}.

Definition election_known (G : gset (Z * N * Z)) (h : History) (i : Z) (e : Election) : Prop :=
  (∃ l, stands h (rv_term (el_req e)) i l ∧ last_log_index (el_req e) = N.of_nat (length l) ∧
     last_log_term (el_req e) = last_term l) ∧
  ∀ M, leads h (rv_term (el_req e)) M → ∃ j, j ≠ i ∧ elected members G (rv_term (el_req e)) j.

Record SInv (G : gset (Z * N * Z)) (h : History) (s : Sys) : Prop := mkSInv {
  si_votes : Inv members G (net s);
  si_history : consistent_history members G h;
  si_node i n : at_ s i = Some n → node_ok h i n;
  si_led t M : leads h t M → ∃ i n, elected members G t i ∧ at_ s i = Some n ∧
    (t ≤ current_term_ n)%N ∧ (t = current_term_ n → role_ n ≠ Candidate);
  si_election i e : elections (net s) !! i = Some e → election_known G h i e;
  si_exchange i p req resp : exchanges s !! (i, p) = Some (req, resp) →
    ∃ M, exchange_ok G h i p req resp M;
}.

Lemma settled_mono h h' t P : extends h h' → settled h t P → settled h' t P.
Proof.
  intros E [->|(T & R & HR & HT & HP)]; [by left|right]. exists T, R. split_and!; try done.
  by eapply replicated_mono.
Qed.

(** ** Sections that leave logs and commit indexes *)

(** An election goes on with its request, or starts with that of a new candidate. *)
Lemma election_origin c c' i e' :
  step c c' → elections c' !! i = Some e' →
  (∃ e, elections c !! i = Some e ∧ el_req e' = el_req e) ∨
  ∃ n, nodes c !! i = Some n ∧ (current_term_ n + 1 < 2 ^ 64)%N ∧
    el_req e' = (start_election n).1 ∧ nodes c' !! i = Some (start_election n).2.
Proof.
  assert (Hset : ∀ j e0 e1 (m : gmap Z Election), m !! j = Some e0 → el_req e1 = el_req e0 →
    <[j := e1]> m !! i = Some e' → ∃ e, m !! i = Some e ∧ el_req e' = el_req e).
  { intros j e0 e1 m H0 H1 [[-> <-]|[_ He]]%lookup_insert_Some; [by exists e0|by exists e']. }
  intros Hs He. destruct Hs; cbn in He; try (left; by exists e').
  - apply lookup_insert_Some in He as [[-> <-]|[_ He]]; [right|left; by exists e'].
    exists n. rewrite H3. cbn. by rewrite lookup_insert_eq.
  - left. eapply Hset; [eassumption| |exact He]; reflexivity.
  - left. eapply Hset; [eassumption| |exact He]; reflexivity.
  - left. destruct go_on; [eapply Hset; [eassumption| |exact He]; reflexivity|]. apply lookup_delete_Some in He as [_ He]. by exists e'.
  - left. apply lookup_delete_Some in He as [_ He]. by exists e'.
Qed.

(** The election of a new leader is over. *)
Lemma win_ends_election c c' i n n' :
  step c c' → nodes c !! i = Some n → nodes c' !! i = Some n' →
  role_ n = Candidate → role_ n' = Leader → elections c' !! i = None.
Proof.
  intros Hs Hn Hn' Hc Hl.
  assert (Hk : ∀ j m m', nodes c !! j = Some m → keeps m m' → nodes c' = <[j := m']> (nodes c) → False).
  { intros j m m' Hm K E. rewrite E in Hn'. apply lookup_insert_Some in Hn' as [[-> <-]|[_ Hn']]; [|congruence].
    destruct (keeps_leader _ _ K Hl). congruence. }
  destruct Hs; cbn in Hn' |- *; try congruence; 
    try lazymatch goal with
    | H : on_vote_response _ _ _ _ = _ |- _ => fail
    | _ => exfalso; simple refine (Hk _ _ _ _ _ eq_refl); [|eassumption|]
    end.
  - replace n'0 with (start_election n0).2 by (by rewrite H3). by apply keeps_timeout.
  - replace n'0 with (OnRequestVote (el_req e) n0).2 by (by rewrite H3). apply keeps_vote_request.
  - apply vote_response_spec in H2 as [[K _]|[_ [K|(-> & _)]]]; [by destruct (Hk _ _ _ H1 K)..|].
    destruct (decide (i0 = i)) as [->|Hne]; [apply lookup_delete_eq|].
    rewrite lookup_insert_ne in Hn' by done. congruence.
  - apply keeps_append.
  - apply keeps_heartbeat.
  - by constructor.
  - apply keeps_proposal.
  - apply keeps_commit.
  - apply keeps_apply.
Qed.

Section Local.
Context (G G' : gset (Z * N * Z)) (h : History) (s : Sys) (c : Cluster).
Context (HI : SInv G h s) (HS : step (net s) c).
Context (HQ : ∀ i, option_Forall2 quiet (at_ s i) (nodes c !! i)).
Context (HV : votes_cast G G' (net s) c) (HI' : Inv members G' c).

Lemma local_node i n' : nodes c !! i = Some n' → ∃ n, at_ s i = Some n ∧ evolves n n' ∧ quiet n n'.
Proof.
  intros Hn'. pose proof (step_evolves _ _ i HS) as He. specialize (HQ i). unfold at_ in *.
  rewrite Hn' in He, HQ. inversion HQ as [n ? Hq Hn|]; subst. exists n.
  rewrite <-Hn in He. inversion He; subst. done.
Qed.

Lemma local_elected t i : elected members G t i → elected members G' t i.
Proof. destruct HV as [HG _]. by eapply elected_mono. Qed.

Lemma elected_same t i j : elected members G' t i → elected members G' t j → i = j.
Proof. by eapply elected_unique. Qed.

(** A candidate of the new state stood before, or stands in a new term. *)
Lemma local_stands t i l :
  in_role Candidate c t i l →
  stands h t i l ∨ ∃ n, at_ s i = Some n ∧ (current_term_ n < t)%N ∧ log_ n = l.
Proof.
  intros (n' & Hn' & Hr & <- & <-). destruct (local_node i n' Hn') as (n & Hn & He & Hlog & _).
  destruct He as [K|(_ & Hr' & _)%wins_spec]; [|congruence].
  destruct (decide (current_term_ n' = current_term_ n)) as [Et|Et].
  - left. pose proof (keeps_candidate _ _ K Hr Et) as Hc. rewrite Et, Hlog.
    by apply (no_candidate _ _ _ (si_node _ _ _ HI i n Hn)).
  - right. exists n. pose proof (keeps_term _ _ K). split; [done|]. split; [lia|done].
Qed.

(** A leader of the new state led before, or has just won. *)
Lemma local_leads t i M :
  in_role Leader c t i M →
  leads h t M ∧ acks h i t M ∨
  ∃ n, at_ s i = Some n ∧ role_ n = Candidate ∧ current_term_ n = t ∧ log_ n = M ∧
    nodes c !! i = Some (BecomeLeaderLocked n) ∧ elected members G' t i ∧ ∀ M', ¬ leads h t M'.
Proof.
  intros (n' & Hn' & Hr & <- & <-). destruct (local_node i n' Hn') as (n & Hn & He & Hlog & _).
  pose proof (si_node _ _ _ HI i n Hn) as Ok. destruct He as [K|[Hc ->]].
  - destruct (keeps_leader _ _ K Hr) as [Hr0 Et]. left. rewrite Et, Hlog.
    by destruct (no_leader _ _ _ Ok Hr0) as (? & ? & _).
  - right. exists n. pose proof (inv_leader _ _ _ HI' i _ Hn' Hr) as El. split_and!; try done.
    intros M' HM'. destruct (si_led _ _ _ HI _ _ HM') as (j & m & Ej & Hm & _ & Hnc).
    apply local_elected in Ej. rewrite (elected_same _ j i Ej El) in Hm. rewrite Hn in Hm.
    injection Hm as <-. by apply Hnc.
Qed.

Let h' := observe c h.

Lemma local_leads' t M :
  leads h' t M → leads h t M ∨
  ∃ i n, at_ s i = Some n ∧ role_ n = Candidate ∧ current_term_ n = t ∧ log_ n = M ∧
    nodes c !! i = Some (BecomeLeaderLocked n) ∧ elected members G' t i ∧ ∀ M', ¬ leads h t M'.
Proof.
  intros [HM|[i [[HM _]|(n & Hn)]%local_leads]]; [by left|by left|right]. by exists i, n.
Qed.

(** New acknowledgements are those of a leader for itself. *)
Lemma local_acked v T P :
  acked h' v T P → acked h v T P ∨
  ∃ n', nodes c !! v = Some n' ∧ current_term_ n' = T ∧ role_ n' = Leader ∧ P `prefix_of` log_ n'.
Proof.
  intros (M & [HM|(n' & Hn' & Hr & Ht & <-)] & HP); [left; by exists M|right]. by exists n'.
Qed.

Lemma local_history_stands t i l l' : stands h' t i l → stands h' t i l' → l = l'.
Proof.
  assert (Hfresh : ∀ n l0, at_ s i = Some n → (current_term_ n < t)%N → ¬ stands h t i l0).
  { intros n l0 Hn Hlt Hst. pose proof (no_stands _ _ _ (si_node _ _ _ HI i n Hn) _ _ Hst). lia. }
  pose proof (ch_stands _ _ _ (si_history _ _ _ HI)) as HF.
  intros [H1|H1%local_stands] [H2|H2%local_stands]; destruct_or?; destruct_and?;
    try (by eapply HF); naive_solver.
Qed.

Lemma local_history_start t i l : stands h' t i l → known h' l ∧ Forall (λ e, term e < t)%N l.
Proof.
  pose proof (extends_observe c h) as HE. pose proof (ch_start _ _ _ (si_history _ _ _ HI)) as HF.
  assert (Hold : stands h t i l → known h' l ∧ Forall (λ e, term e < t)%N l).
  { intros [? ?]%HF. split; [by eapply known_mono|done]. }
  intros [H1|[H1|(n & Hn & Hlt & <-)]%local_stands]; [by apply Hold..|].
  pose proof (si_node _ _ _ HI i n Hn) as Ok. split; [eapply known_mono; [done|apply Ok]|].
  eapply Forall_impl; [apply Ok|]. cbn. lia.
Qed.

(** The ballots of the votes given before. *)
Lemma local_ballot_old v t i : (v, t, i) ∈ G → ballot members h' G' v t i.
Proof.
  intros Hg. destruct HV as [HG _]. pose proof (extends_observe c h) as HE.
  destruct (ch_ballot _ _ _ (si_history _ _ _ HI) v t i Hg) as (l & lv & Hst & Hk & Hup & Hack).
  exists l, lv. split_and!; [by left|by eapply known_mono|done|]. intros T P HT HA.
  destruct (local_acked v T P HA) as [HA'|(n' & Hn' & <- & _)].
  - destruct (Hack T P HT HA') as [|(U & HU & HUt)]; [by left|right]. exists U.
    split; [by eapply overruled_mono|]. destruct HUt as [|(-> & j & Hj & El)]; [by left|right].
    split; [done|]. exists j. split; [done|]. by apply local_elected.
  - destruct (inv_vote _ _ _ HI' v t i (HG _ Hg)) as (m & Hm & Ht & _).
    rewrite Hn' in Hm. injection Hm as <-. lia.
Qed.

(** The ballots of the votes the step gives. *)
Lemma local_ballot_new v t x : (v, t, x) ∈ G' → cast (net s) c v t x → ballot members h' G' v t x.
Proof.
  intros Hg Hc. pose proof (extends_observe c h) as HE.
  assert (Hself : ∀ n', nodes c !! v = Some n' → (t ≤ current_term_ n')%N).
  { intros n' Hn'. destruct (inv_vote _ _ _ HI' v t x Hg) as (m & Hm & Ht & _). by simplify_eq. }
  destruct Hc as [n n' Hn Hn' Hlt Et Hr Hlog|x e n He Hn Et Hgr]; subst t.
  - pose proof (si_node _ _ _ HI v n Hn) as Ok. exists (log_ n), (log_ n).
    split_and!; [right; by exists n'|eapply known_mono; [done|apply Ok]|by right|].
    intros T P HT HA. destruct (local_acked v T P HA) as [HA'|(m & Hm & <- & _)];
      [|specialize (Hself _ Hm); lia].
    destruct (no_acks _ _ _ Ok T P HA') as [_ [|(U & HU & HO)]]; [by left|right]. exists U.
    split; [by eapply overruled_mono|left; lia].
  - pose proof (si_node _ _ _ HI v n Hn) as Ok.
    destruct (si_election _ _ _ HI x e He) as ((l & Hst & Hli & Hlt) & Hrival).
    pose proof (request_vote_contract (el_req e) n) as R.
    destruct (OnRequestVote (el_req e) n) as [resp n1]. cbn in Hgr.
    destruct R as (_ & _ & _ & [R _] & _). destruct (R Hgr) as (Hle & _ & Hup).
    exists l, (log_ n). split_and!; [by left|eapply known_mono; [done|apply Ok]| |].
    { rewrite Hli, Hlt in Hup. change (LastLogTermLocked n) with (last_term (log_ n)) in Hup.
      unfold LastLogIndexLocked in Hup. unfold up_to_date. destruct Hup as [|[E Hl]]; [by left|right].
      split; [done|lia]. }
    intros T P HT HA. destruct (local_acked v T P HA) as [HA'|(m & Hm & <- & _)];
      [|specialize (Hself _ Hm); lia].
    destruct (no_acks _ _ _ Ok T P HA') as [_ [|(U & HU & HO)]]; [by left|right]. exists U.
    split; [by eapply overruled_mono|]. destruct (decide (U = rv_term (el_req e))) as [->|]; [right|left; lia].
    split; [done|]. destruct HO as (_ & M & HM & _). destruct (Hrival M HM) as (j & Hj & El).
    exists j. split; [done|]. by apply local_elected.
Qed.

Lemma local_history : consistent_history members G' h'.
Proof.
  pose proof (si_history _ _ _ HI) as HC. constructor.
  - intros p t. apply (inv_unique _ _ _ HI').
  - apply local_history_stands.
  - apply local_history_start.
  - intros t M [HM|(i & n & Hn & Hc & <- & <- & _ & El & _)]%local_leads'.
    + destruct (ch_leads _ _ _ HC t M HM) as (i & l & tail & El & Hst & HMl & Ht).
      exists i, l, tail. split_and!; [by apply local_elected|by left|done|done].
    + exists i, (log_ n), []. split_and!; [done| |by rewrite app_nil_r|done].
      left. by apply (no_candidate _ _ _ (si_node _ _ _ HI i n Hn)).
  - intros t M M' [HM|(i & n & Hn & _ & _ & <- & _ & El & Hno)]%local_leads'
      [HM'|(j & m & Hm & _ & _ & <- & _ & El' & Hno')]%local_leads'.
    + by eapply ch_linear.
    + by destruct (Hno' M).
    + by destruct (Hno M').
    + pose proof (elected_same _ _ _ El El') as <-. rewrite Hn in Hm. injection Hm as <-. by left.
  - intros v t M [HM|HM]; [left; by eapply ch_acks|right]. by exists v.
  - intros v t i Hg. destruct HV as [_ Hnew].
    destruct (Hnew v t i Hg) as [Hold|Hc]; [by apply local_ballot_old|by apply local_ballot_new].
Qed.

(** A leader of the new state. *)
Lemma local_leader i n n' :
  at_ s i = Some n → nodes c !! i = Some n' → role_ n' = Leader → evolves n n' → quiet n n' →
  role_ n = Leader ∧ current_term_ n' = current_term_ n ∧
    next_index_ n' = next_index_ n ∧ match_index_ n' = match_index_ n ∨
  role_ n = Candidate ∧ n' = BecomeLeaderLocked n.
Proof.
  intros Hn Hn' Hr He (_ & _ & Hidx). destruct He as [K|W]; [left|by right].
  destruct (keeps_leader _ _ K Hr) as [Hr0 Et]. split; [done|]. split; [done|].
  by destruct Hidx as [|[? _]].
Qed.

Lemma local_maximal i n' M :
  nodes c !! i = Some n' → role_ n' = Leader → leads h' (current_term_ n') M → M `prefix_of` log_ n'.
Proof.
  intros Hn' Hr HM. pose proof (inv_leader _ _ _ HI' i _ Hn' Hr) as El.
  destruct (local_leads' _ _ HM) as [HM0|(j & m & Hm & _ & _ & <- & Hm' & Elj & _)].
  - destruct (local_node i n' Hn') as (n & Hn & He & Hq).
    destruct (local_leader i n n' Hn Hn' Hr He Hq) as [(Hr0 & Et & _)|[Hc ->]].
    + destruct Hq as (-> & _). rewrite Et in HM0.
      by apply (no_leader _ _ _ (si_node _ _ _ HI i n Hn) Hr0).
    + destruct (si_led _ _ _ HI _ _ HM0) as (j & m & Ej & Hm & _ & Hnc). apply local_elected in Ej.
      rewrite (elected_same _ j i Ej El) in Hm. rewrite Hn in Hm. injection Hm as <-. by destruct Hnc.
  - rewrite (elected_same _ _ _ Elj El) in Hm'. rewrite Hn' in Hm'. by injection Hm' as ->.
Qed.

Lemma evolves_term n n' : evolves n n' → (current_term_ n ≤ current_term_ n')%N ∧ peers_ n' = peers_ n.
Proof. intros [K|[_ ->]]; [by destruct K|done]. Qed.

Lemma local_node_ok i n' : nodes c !! i = Some n' → node_ok h' i n'.
Proof.
  intros Hn'. pose proof (extends_observe c h) as HE.
  destruct (local_node i n' Hn') as (n & Hn & He & Hq). pose proof (si_node _ _ _ HI i n Hn) as Ok.
  destruct (evolves_term n n' He) as [Ht Hp]. pose proof Hq as (Hlog & Hci & _).
  constructor.
  - rewrite Hlog. eapply known_mono; [done|apply Ok].
  - rewrite Hlog. eapply Forall_impl; [apply Ok|]. cbn. lia.
  - rewrite Hlog. apply Ok.
  - intros Hr. right. by exists n'.
  - intros Hr. split_and!; [right; exists i|right|]; [by exists n'..|]. intros M. by eapply local_maximal.
  - intros t l [Hst|(m & Hm & _ & <- & _)].
    + pose proof (no_stands _ _ _ Ok _ _ Hst). lia.
    + by simplify_eq.
  - intros T P [HA|(m & Hm & <- & _ & HP)]%local_acked.
    + destruct (no_acks _ _ _ Ok T P HA) as [HT HP]. split; [lia|]. rewrite Hlog.
      destruct HP as [|(U & HU & HO)]; [by left|right]. exists U. split; [lia|by eapply overruled_mono].
    + simplify_eq. split; [lia|by left].
  - rewrite Hlog, Hci. apply Ok.
  - unfold committed. rewrite Hlog, Hci. destruct (no_committed _ _ _ Ok) as [|(T & R & HR & HT & HP & HA)]; [by left|right].
    exists T, R. split_and!; [by eapply replicated_mono|lia|done|]. intros ->.
    eapply acked_mono; [done|]. apply HA. lia.
  - intros p. rewrite Hp. destruct Hq as (_ & _ & [[_ ->]|[Hr Hr']]); [apply Ok|].
    destruct (local_leader i n n' Hn Hn' Hr' He ltac:(by split_and!; [..|right])) as [[? _]|[_ ->]]; [done|].
    cbn. rewrite foldl_insert_lookup. case_decide; [done|apply Ok].
  - intros p Hr Hpp. rewrite Hp in Hpp.
    destruct (local_leader i n n' Hn Hn' Hr He Hq) as [(Hr0 & Et & -> & ->)|[_ ->]].
    + rewrite Et, Hlog. destruct (no_indexes _ _ _ Ok p Hr0 Hpp) as [Hx (x & Hm & Hle & HA)].
      split; [done|]. exists x. split_and!; [done..|]. destruct HA as [|HA]; [by left|right].
      by eapply acked_mono.
    + cbn. rewrite !foldl_insert_lookup, !decide_True by done. unfold LastLogIndexLocked. cbn.
      rewrite wrap_fits.
      * split; [eexists; split; [done|lia]|]. exists 0%N. split_and!; [done|lia|by left].
      * pose proof (no_length _ _ _ Ok) as Hf. unfold fits in *.
        assert (2 ^ 63 < 2 ^ 64)%N by (by apply N.pow_lt_mono_r). lia.
Qed.

Lemma local_led t M :
  leads h' t M → ∃ i n', elected members G' t i ∧ nodes c !! i = Some n' ∧
    (t ≤ current_term_ n')%N ∧ (t = current_term_ n' → role_ n' ≠ Candidate).
Proof.
  intros [HM|(i & n & _ & _ & <- & _ & Hn' & El & _)]%local_leads'.
  - destruct (si_led _ _ _ HI _ _ HM) as (i & n & El & Hn & Ht & Hnc). exists i.
    pose proof (step_evolves _ _ i HS) as He. unfold at_ in Hn. rewrite Hn in He.
    inversion He as [? n' Hee Hx Hn'|]; subst. exists n'.
    destruct (evolves_term _ _ Hee) as [Hle _]. split_and!; [by apply local_elected|done|lia|].
    intros -> Hr. destruct Hee as [K|(_ & Hr' & _)%wins_spec]; [|congruence].
    assert (Et : current_term_ n' = current_term_ n) by lia. apply Hnc; [done|].
    by apply (keeps_candidate _ _ K).
  - exists i, (BecomeLeaderLocked n). split_and!; [done|done|done|]. intros _ [=].
Qed.

Lemma local_election i e' : elections c !! i = Some e' → election_known G' h' i e'.
Proof.
  intros He'. destruct (election_origin _ _ i e' HS He') as [(e & He & Er)|(n & Hn & Ht & Er & Hn')].
  - destruct (si_election _ _ _ HI i e He) as ((l & Hst & Hl) & Hriv). unfold election_known.
    rewrite Er. split; [exists l; split; [by left|done]|].
    intros M [HM|(j & m & Hm & Hc & Et & _ & Hm' & El & _)]%local_leads'.
    + destruct (Hriv M HM) as (j & Hj & El). exists j. split; [done|by apply local_elected].
    + exists j. split; [|done]. intros ->.
      rewrite (win_ends_election _ _ i m _ HS Hm Hm' Hc eq_refl) in He'. done.
  - unfold election_known. rewrite Er. cbn. rewrite wrap_fits by done. split.
    + exists (log_ n). split_and!; [right|done..]. exists (start_election n).2.
      cbn. rewrite wrap_fits by done. done.
    + intros M [HM|(j & m & Hm & _ & Et & _ & _ & El & _)]%local_leads'.
      * destruct (si_led _ _ _ HI _ _ HM) as (j & m & El & Hm & Hle & _). exists j.
        split; [|by apply local_elected]. intros ->. unfold at_ in Hm. rewrite Hn in Hm.
        injection Hm as <-. lia.
      * exists j. split; [|done]. intros ->. unfold at_ in Hm. rewrite Hn in Hm. injection Hm as <-. lia.
Qed.

Lemma local_exchange i p req resp :
  exchanges s !! (i, p) = Some (req, resp) → ∃ M, exchange_ok G' h' i p req resp M.
Proof.
  intros (M & [El Hp Hmem HM Hlen Hcar Hlc Hst Hsent Hdone])%(si_exchange _ _ _ HI).
  pose proof (extends_observe c h) as HE. exists M.
  apply local_elected in El as El'. constructor; try done.
  - by left.
  - by eapply settled_mono.
  - intros P -> [HA|(m & Hm & Ht & Hr & HP)]%local_acked; [by apply Hsent|].
    pose proof (inv_leader _ _ _ HI' p m Hm Hr) as Elp. rewrite Ht in Elp.
    by destruct Hp; apply (elected_same (ae_term req)).
  - intros r -> Hr. left. by eapply Hdone.
Qed.

Lemma local_inv : SInv G' h' (mkSys c (exchanges s)).
Proof.
  constructor.
  - exact HI'.
  - exact local_history.
  - exact local_node_ok.
  - exact local_led.
  - exact local_election.
  - exact local_exchange.
Qed.

End Local.
(** ** Sections of one node *)

Lemma at_set_node s i n j m :
  at_ (set_node i n s) j = Some m → j = i ∧ m = n ∨ j ≠ i ∧ at_ s j = Some m.
Proof.
  unfold at_, set_node. cbn. intros [[<- <-]|[? ?]]%lookup_insert_Some; [by left|by right].
Qed.

Lemma at_set_same s i n : at_ (set_node i n s) i = Some n.
Proof. apply lookup_insert_eq. Qed.

(** A node keeps its invariant when the history grows by other nodes' doings. *)
Lemma node_ok_mono h h' i n :
  extends h h' → (∀ T P, acked h' i T P → acked h i T P) →
  (∀ t l, stands h' t i l → stands h t i l) →
  (role_ n = Leader → ∀ M, leads h' (current_term_ n) M → M `prefix_of` log_ n) →
  node_ok h i n → node_ok h' i n.
Proof.
  intros HE Hack Hst Hmax [K T Ln Ca Le St Ac Ci Co Ke Ix]. constructor; try done.
  - by eapply known_mono.
  - intros Hr. by apply HE, Ca.
  - intros Hr. destruct (Le Hr) as (? & ? & _). split_and!; [by apply HE..|by apply Hmax].
  - intros t l Hs. by eapply St, Hst.
  - intros t P HA. destruct (Ac t P (Hack _ _ HA)) as [? [|(U & ? & ?)]]; split; try done; [by left|right].
    exists U. split; [done|by eapply overruled_mono].
  - destruct Co as [|(t & R & HR & ? & ? & HA)]; [by left|right]. exists t, R.
    split_and!; try done; [by eapply replicated_mono|]. intros Et. eapply acked_mono; [done|auto].
  - intros p Hr Hp. destruct (Ix p Hr Hp) as [? (x & ? & ? & HA)]. split; [done|]. exists x.
    split_and!; try done. destruct HA as [|HA]; [by left|right]. by eapply acked_mono.
Qed.

(** The elections and the terms led survive a change of one node that keeps its
    promises. *)
Lemma led_set_node G h s i n n' :
  SInv G h s → at_ s i = Some n → keeps n n' →
  ∀ t M, leads h t M → ∃ j m, elected members G t j ∧ at_ (set_node i n' s) j = Some m ∧
    (t ≤ current_term_ m)%N ∧ (t = current_term_ m → role_ m ≠ Candidate).
Proof.
  intros HI Hn K t M HM. destruct (si_led _ _ _ HI t M HM) as (j & m & El & Hm & Ht & Hc).
  destruct (decide (j = i)) as [->|Hne].
  - rewrite Hn in Hm. injection Hm as <-. exists i, n'. rewrite at_set_same.
    pose proof (keeps_term _ _ K). split_and!; [done|done|lia|]. intros -> Hr.
    assert (current_term_ n' = current_term_ n) as Et by lia. apply Hc; [done|].
    by apply (keeps_candidate _ _ K).
  - exists j, m. split_and!; try done. unfold at_, set_node. cbn. by rewrite lookup_insert_ne.
Qed.

(** ** A proposal *)

(** Node [i], the leader of term [t], has log [M]. *)
Definition lead (i : Z) (t : N) (M : Log) (h : History) : History :=
  mkHistory (stands h) (λ t' M', leads h t' M' ∨ t' = t ∧ M' = M)
    (λ v t' M', acks h v t' M' ∨ v = i ∧ t' = t ∧ M' = M).

Lemma extends_lead i t M h : extends h (lead i t M h).
Proof. constructor; intros; by try left. Qed.

Section Propose.
Context (G : gset (Z * N * Z)) (h : History) (s : Sys) (i : Z) (e : LogEntry) (n : RaftNode).
Context (HI : SInv G h s) (Hn : at_ s i = Some n) (Hr : role_ n = Leader).
Context (Et : term e = current_term_ n) (Hfit : fits 63 (N.of_nat (length (log_ n) + 1))).

Let h' := lead i (current_term_ n) (log_ n ++ [e]) h.
Let s' := set_node i (append_proposal e n) s.

Lemma propose_acked v T P :
  acked h' v T P → acked h v T P ∨ v = i ∧ T = current_term_ n ∧ P `prefix_of` log_ n ++ [e].
Proof. intros (M & [HM|(-> & -> & ->)] & HP); [left; by exists M|by right]. Qed.

Lemma propose_elected : elected members G (current_term_ n) i.
Proof. by eapply inv_leader; [apply HI| |]. Qed.

Lemma propose_same j : elected members G (current_term_ n) j → j = i.
Proof. intros El. eapply elected_unique; [done|apply HI|done|]. apply propose_elected. Qed.

Lemma propose_history : consistent_history members G h'.
Proof.
  pose proof (si_node _ _ _ HI i n Hn) as Ok. destruct (no_leader _ _ _ Ok Hr) as (HL & HA & Hmax).
  pose proof (extends_lead i (current_term_ n) (log_ n ++ [e]) h) as HE. fold h' in HE.
  destruct (si_history _ _ _ HI) as [U Sf St Ld Li Ak Ba]. constructor; try done.
  - intros t j l Hs. destruct (St t j l Hs). split; [by eapply known_mono|done].
  - intros t M [HM|[-> ->]]; [by apply Ld|].
    destruct (Ld _ _ HL) as (j & l & tail & El & Hs & Hlog & Ht). exists j, l, (tail ++ [e]).
    rewrite Hlog, app_assoc. split_and!; try done. apply Forall_app. split; [done|by apply Forall_singleton].
  - intros t M M' [HM|[-> ->]] [HM'|[? ->]].
    + by eapply Li.
    + subst t. left. apply prefix_app_r. by apply Hmax.
    + right. apply prefix_app_r. by apply Hmax.
    + by left.
  - intros v t M [HM|(-> & -> & ->)]; [left; by eapply Ak|by right].
  - intros v t j Hg. destruct (Ba v t j Hg) as (l & lv & ? & ? & ? & Hb). exists l, lv.
    split_and!; try done; [by eapply known_mono|]. intros T P HT [HP|(-> & -> & _)]%propose_acked.
    + destruct (Hb T P HT HP) as [|(V & HV & ?)]; [by left|right]. exists V.
      split; [by eapply overruled_mono|done].
    + destruct (inv_vote _ _ _ (si_votes _ _ _ HI) i t j Hg) as (m & Hm & Hle & _).
      unfold at_ in Hn. rewrite Hn in Hm. injection Hm as <-. lia.
Qed.

Lemma propose_node : node_ok h' i (append_proposal e n).
Proof.
  pose proof (si_node _ _ _ HI i n Hn) as Ok.
  pose proof (extends_lead i (current_term_ n) (log_ n ++ [e]) h) as HE. fold h' in HE.
  pose proof (no_commit _ _ _ Ok) as Hc.
  assert (Hcom : committed (append_proposal e n) = committed n).
  { unfold committed. cbn. rewrite take_app_le by lia. done. }
  constructor; rewrite ?Hcom; cbn [append_proposal set_log log_ role_ current_term_ commit_index_
    match_index_ next_index_ peers_].
  - right. exists (log_ n ++ [e]). split; [|done]. rewrite last_term_snoc, Et. by right.
  - apply Forall_app. split; [apply Ok|]. apply Forall_singleton. lia.
  - by rewrite length_app.
  - by rewrite Hr.
  - intros _. split_and!; [by right..|]. intros M [HM|[_ ->]]; [|done]. apply prefix_app_r.
    by apply (no_leader _ _ _ Ok Hr).
  - apply Ok.
  - intros T P [HA|(_ & -> & HP)]%propose_acked; [|split; [lia|by left]].
    destruct (no_acks _ _ _ Ok T P HA) as [? [|(U & ? & ?)]]; split; try done.
    + left. by apply prefix_app_r.
    + right. exists U. split; [done|by eapply overruled_mono].
  - rewrite length_app. cbn. lia.
  - destruct (no_committed _ _ _ Ok) as [|(T & R & ? & ? & ? & HA)]; [by left|right]. exists T, R.
    split_and!; try done; [by eapply replicated_mono|]. intros ?. eapply acked_mono; [done|auto].
  - apply Ok.
  - intros p _ Hp. destruct (no_indexes _ _ _ Ok p Hr Hp) as [(x & ? & ?) (y & ? & ? & HA)].
    rewrite length_app. cbn [length]. split; [exists x; split; [done|lia]|]. exists y.
    split_and!; [done|lia|]. rewrite take_app_le by lia. destruct HA as [|HA]; [by left|right].
    by eapply acked_mono.
Qed.

Lemma propose_inv : SInv G h' s'.
Proof.
  pose proof (extends_lead i (current_term_ n) (log_ n ++ [e]) h) as HE. fold h' in HE.
  pose proof (no_leader _ _ _ (si_node _ _ _ HI i n Hn) Hr) as (HL & _ & _).
  assert (K : keeps n (append_proposal e n)) by (by constructor).
  pose proof (led_set_node G h s i n _ HI Hn K) as Hled.
  constructor.
  - eapply inv_keeps; [done|apply HI|exact Hn|done].
  - exact propose_history.
  - intros j m [[-> ->]|[Hne Hm]]%at_set_node; [exact propose_node|].
    eapply node_ok_mono; [exact HE| |done| |by apply HI].
    + by intros T P [|[? _]]%propose_acked.
    + intros Hrm M [HM|[Ej _]]; [by apply (no_leader _ _ _ (si_node _ _ _ HI j m Hm) Hrm)|].
      destruct Hne. apply propose_same. rewrite <-Ej. eapply inv_leader; [apply HI|exact Hm|done].
  - intros t M [HM|[-> _]]; by eapply Hled.
  - intros j x Hx. destruct (si_election _ _ _ HI j x Hx) as [Hl Hriv]. split; [done|].
    intros M [HM|[Ex _]]; [by eapply Hriv|]. apply (Hriv (log_ n)). by rewrite Ex.
  - intros j p req resp (M & [El Hp ? HM ? ? ? Hst Hsent Hdone])%(si_exchange _ _ _ HI). exists M.
    constructor; try done.
    + by left.
    + by eapply settled_mono.
    + intros P Hresp [HA|(-> & Ev & _)]%propose_acked; [by apply Hsent|].
      destruct Hp. symmetry. apply propose_same. by rewrite <-Ev.
    + intros r Hresp Hs. left. by eapply Hdone.
Qed.

End Propose.

End Safety.
End RaftSerial.
