(* ===== verification/RaftCommit.v ===== *)
(** * The safety of commitment

    With serialised exchanges ([RaftSerial]), committed entries never change and an
    acknowledged proposal is never lost, whatever the elections, losses and delays. *)

From S2P Require Import Prelude CxxString Raft RaftElection RaftSpec RaftLog RaftHistory RaftSerial.

Module RaftCommit.
Import Raft RaftElection RaftSpec RaftLog RaftHistory RaftSerial.

(** ** Lists and majorities *)

Lemma majority_bound vs b : vs ≠ [] → Forall (λ v, v ≤ b)%N vs → (majority_index vs ≤ b)%N.
Proof.
  intros Hne Hall. unfold majority_index. destruct (_ !! _) as [x|] eqn:E; [|apply N.le_0_l]. cbn.
  apply list_elem_of_lookup_2 in E. rewrite merge_sort_Permutation in E.
  rewrite Forall_forall in Hall. by apply Hall.
Qed.

Lemma odd_majority k c :
  Nat.Odd k → k - k `div` 2 ≤ c → (N.of_nat k / 2 + 1 ≤ N.of_nat c)%N.
Proof.
  intros [q ->] Hc.
  rewrite <-(N.div_unique (N.of_nat (2 * q + 1)) 2 (N.of_nat q) 1) by lia.
  rewrite <-(Nat.div_unique (2 * q + 1) 2 q 1) in Hc by lia. lia.
Qed.

Lemma NoDup_fmap_fst_filter {A B} (l : list (A * B)) (P : A * B → Prop) `{∀ x, Decision (P x)} :
  NoDup l.*1 → NoDup (filter P l).*1.
Proof.
  induction l as [|[a b] l IH]; [done|]. rewrite fmap_cons. intros [Ha ND]%NoDup_cons.
  destruct (decide (P (a, b))).
  - rewrite filter_cons_True, fmap_cons by done. apply NoDup_cons. split; [|by apply IH].
    intros (x & E & [_ Hin]%list_elem_of_filter)%list_elem_of_fmap. apply Ha.
    apply list_elem_of_fmap. by exists x.
  - rewrite filter_cons_False by done. by apply IH.
Qed.

Lemma length_filter_snd {A} m (l : list (A * N)) :
  length (filter (λ kv : A * N, (m ≤ kv.2)%N) l) = length (filter (λ v, m ≤ v)%N l.*2).
Proof.
  induction l as [|[a x] l IH]; [done|]. rewrite fmap_cons. destruct (decide (m ≤ x)%N).
  - rewrite !filter_cons_True by done. cbn. by rewrite IH.
  - by rewrite !filter_cons_False by done.
Qed.

Lemma prefix_take_take {A} (l : list A) a b : a ≤ b → take a l `prefix_of` take b l.
Proof.
  intros Hab. rewrite <-(Nat.min_l a b) by done. rewrite <-take_take. apply prefix_take.
Qed.

Lemma committed_length m : (commit_index_ m ≤ N.of_nat (length (log_ m)))%N →
  length (committed m) = N.to_nat (commit_index_ m).
Proof. intros Hc. unfold committed. rewrite length_take. lia. Qed.

Section Safety.
Context (members : list Z) (Hmembers : NoDup members).
Context (Hodd : Nat.Odd (length members)).

Abbreviation SInv := (SInv members).
Abbreviation node_ok := (node_ok members).
Abbreviation exchange_ok := (exchange_ok members).

(** ** Building a request *)

Lemma leads_known G h t M : consistent_history members G h → leads h t M → known h M.
Proof.
  intros HC HM. destruct (ch_leads _ _ _ HC t M HM) as (i & l & tail & _ & Hs & E & Ht).
  destruct tail as [|e tail].
  - rewrite app_nil_r in E. subst M. by apply (ch_start _ _ _ HC t i).
  - right. exists M. split; [|done]. enough (last_term M = t) as -> by done.
    rewrite E, last_term_app by done. destruct (last_term_in (e :: tail)) as (x & Hx & ->); [done|].
    rewrite Forall_forall in Ht. by apply Ht.
Qed.

Lemma lookup_set_exchange s k x k' y :
  exchanges (set_exchange k x s) !! k' = Some y → k = k' ∧ x = y ∨ k ≠ k' ∧ exchanges s !! k' = Some y.
Proof. cbn. by rewrite lookup_insert_Some. Qed.

Lemma lookup_end_exchange s k k' y :
  exchanges (end_exchange k s) !! k' = Some y → k ≠ k' ∧ exchanges s !! k' = Some y.
Proof. cbn. by rewrite lookup_delete_Some. Qed.

(** A request carries the leader's log, and a commit index that covers settled
    entries. *)
Lemma request_carries h i p n req x :
  node_ok h i n → next_index_ n !! p = Some x → (1 ≤ x ≤ N.of_nat (length (log_ n)) + 1)%N →
  request_of p n req →
  ae_term req = current_term_ n ∧ carries req (log_ n) ∧
  (leader_commit req = 0 ∨ leader_commit req = commit_index_ n)%N.
Proof.
  intros Ok Hx Hle [|e He|].
  - split; [done|]. split; [|by right]. destruct (N.le_gt_cases x (N.of_nat (length (log_ n)))) as [Hin|Hout].
    + apply heartbeat_carries. destruct (build_suffix p n x Hx) as (_ & _ & _ & _ & e & es & ->); [lia|done].
    + assert (x = N.of_nat (length (log_ n)) + 1)%N as -> by lia.
      unfold BuildAppendEntriesLocked, carries. rewrite Hx. cbv zeta. cbn [from_option id prev_log_index prev_log_term entries].
      rewrite (proj2 (N.leb_gt (_ + 1) _)), andb_false_r by lia.
      assert ((if ((N.of_nat (length (log_ n)) + 1 =? 0) || (N.of_nat (length (log_ n)) + 1 =? 1))%N
               then 0 else N.of_nat (length (log_ n)) + 1 - 1)%N = N.of_nat (length (log_ n))) as ->.
      { destruct (N.eqb_spec (N.of_nat (length (log_ n)) + 1) 0), (N.eqb_spec (N.of_nat (length (log_ n)) + 1) 1);
          cbn; lia. }
      split_and!; [done|done|]. by rewrite Nat2N.id, drop_all.
  - split; [done|]. split; [by apply proposal_carries|by left].
  - split; [done|]. split; [|by right]. unfold carries. cbn. unfold LastLogIndexLocked.
    split_and!; [done|done|]. by rewrite Nat2N.id, drop_all.
Qed.

Lemma peer_member G c i n p :
  Inv members G c → nodes c !! i = Some n → p ∈ peers_ n ↔ p ∈ members ∧ p ≠ i.
Proof.
  intros HI Hn. destruct (inv_node _ _ _ HI i n Hn) as [_ Hp]. rewrite <-Hp, elem_of_cons.
  assert (i ∉ peers_ n).
  { pose proof Hmembers as ND. rewrite <-Hp in ND. by apply NoDup_cons in ND as [? _]. }
  split; [intros Hin; split; [by right|by intros ->]|]. by intros [[->|] ?].
Qed.

Lemma begin_inv G h s i p n req :
  SInv G h s → at_ s i = Some n → role_ n = Leader → p ∈ peers_ n → request_of p n req →
  SInv G h (set_exchange (i, p) (req, None) s).
Proof.
  intros HI Hn Hr Hp Hreq. pose proof HI as [V HC Nd Ld El Ex]. constructor; try done.
  intros i' p' req' resp' [[[= <- <-] [= <- <-]]|[_ Hx]]%lookup_set_exchange; [|by apply Ex].
  pose proof (Nd i n Hn) as Ok. destruct (no_leader _ _ _ _ Ok Hr) as (HL & _ & Hmax).
  destruct (no_indexes _ _ _ _ Ok p Hr Hp) as [(x & Hx & Hle) _].
  destruct (request_carries h i p n req x Ok Hx Hle Hreq) as (Et & Hc & Hlc).
  apply (peer_member G (net s) i n p V Hn) in Hp as [Hmem Hne].
  exists (log_ n). constructor; rewrite ?Et; try done.
  - by eapply inv_leader.
  - apply Ok.
  - pose proof (no_commit _ _ _ _ Ok). lia.
  - destruct Hlc as [->| ->]; [by left|]. destruct (no_committed _ _ _ _ Ok) as [|(T & R & ? & ? & ? & _)];
      [by left|right]. by exists T, R.
  - intros P _ (M & HM & HP). etransitivity; [exact HP|]. apply Hmax. by eapply ch_acks.
Qed.

(** ** A request arrives *)

(** What the handler leaves as it is; a request that is not old makes the node a
    follower of its term. *)
Lemma append_frame req n :
  let n' := (OnAppendEntries req n).2 in
  next_index_ n' = next_index_ n ∧ match_index_ n' = match_index_ n ∧ peers_ n' = peers_ n ∧
  ((current_term_ n ≤ ae_term req)%N → role_ n' = Follower) ∧
  (success (OnAppendEntries req n).1 = true → (current_term_ n ≤ ae_term req)%N) ∧
  (success (OnAppendEntries req n).1 = false → log_ n' = log_ n ∧ commit_index_ n' = commit_index_ n).
Proof.
  unfold OnAppendEntries. destruct (N.ltb_spec (ae_term req) (current_term_ n)) as [Hlt|Hge].
  { cbn. split_and!; try done. lia. }
  destruct (current_term_ n <? ae_term req)%N; cbv zeta; repeat case_match; by split_and!.
Qed.

(** A request that carries [M], accepted by a node with a known log, brings the
    node to a log that starts with [M]. *)
Lemma accepted_log req n M :
  carries req M → matching M (log_ n) → success (OnAppendEntries req n).1 = true →
  let n' := (OnAppendEntries req n).2 in
  current_term_ n' = ae_term req ∧ M `prefix_of` log_ n' ∧ (log_ n' = M ∨ log_ n' = log_ n) ∧
  (commit_index_ n' = commit_index_ n ∨
   commit_index_ n' = N.min (leader_commit req) (N.of_nat (length (log_ n')))).
Proof.
  intros (Hle & Ht & He) HM Hs. pose proof (append_frame req n) as (_ & _ & _ & _ & Hge & _).
  specialize (Hge Hs). pose proof (OnAppendEntries_run req n Hge) as R.
  destruct (OnAppendEntries req n) as [resp n']. cbn [fst snd] in *.
  destruct R as (_ & Ec & Es & El & Eci). rewrite Hs in Es. rewrite <-Es in El, Eci. cbn [andb] in Eci.
  symmetry in Es. unfold consistent in Es. apply andb_true_iff in Es as [E1%N.leb_le E2%N.eqb_eq].
  assert (Hcut : take (N.to_nat (prev_log_index req)) M = take (N.to_nat (prev_log_index req)) (log_ n)).
  { apply HM; [lia|lia|]. rewrite N2Nat.id. congruence. }
  split; [done|]. split; [|split].
  - rewrite El. unfold appended_log. destruct (entries req) as [|e es] eqn:Ee.
    + symmetry in He. apply (f_equal length) in He. rewrite length_drop in He. cbn in He.
      assert (Hl : length M = N.to_nat (prev_log_index req)) by lia.
      rewrite <-(firstn_all M), Hl, Hcut. apply prefix_take.
    + rewrite <-Hcut, He, take_drop. done.
  - rewrite El. unfold appended_log. destruct (entries req) as [|e es] eqn:Ee; [by right|left].
    by rewrite <-Hcut, He, take_drop.
  - rewrite Eci. destruct (commit_index_ n <? leader_commit req)%N; [by right|by left].
Qed.

(** The response to a request. *)
Lemma respond_inv G h s i p req r M :
  SInv G h s → exchange_ok G h i p req (Some r) M →
  SInv G h (set_exchange (i, p) (req, Some r) s).
Proof.
  intros [V HC Nd Ld El Ex] Ok. constructor; try done.
  intros i' p' req' resp' [[[= <- <-] [= <- <-]]|[_ Hx]]%lookup_set_exchange; [by exists M|by apply Ex].
Qed.

Lemma end_exchange_inv G h s k : SInv G h s → SInv G h (end_exchange k s).
Proof.
  intros [V HC Nd Ld El Ex]. constructor; try done.
  intros i p req resp [_ Hx]%lookup_end_exchange. by apply Ex.
Qed.

Lemma reject_inv G h s i p req r :
  SInv G h s → exchanges s !! (i, p) = Some (req, None) → success r = false →
  SInv G h (set_exchange (i, p) (req, Some r) s).
Proof.
  intros HI Hx Hr. destruct (si_exchange _ _ _ _ HI _ _ _ _ Hx) as (M & [? ? ? ? ? ? ? ? Hsent Hdone]).
  eapply respond_inv; [done|]. constructor; try done.
  intros r' [= <-]. congruence.
Qed.

Section Accept.
Context (G : gset (Z * N * Z)) (h : History) (s : Sys) (i p : Z) (req : AppendEntriesReq).
Context (n : RaftNode) (M : Log).
Context (HI : SInv G h s) (Hx : exchanges s !! (i, p) = Some (req, None)) (Hn : at_ s p = Some n).
Context (Hok : exchange_ok G h i p req None M).
Context (Hs : success (OnAppendEntries req n).1 = true).

Let n' := (OnAppendEntries req n).2.
Let t := ae_term req.
Let h' := acknowledge p t M h.

Lemma accept_acked v T P :
  acked h' v T P → acked h v T P ∨ v = p ∧ T = t ∧ P `prefix_of` M.
Proof. intros (M' & [HM|(-> & -> & ->)] & HP); [left; by exists M'|by right]. Qed.

Lemma accept_new P : P `prefix_of` M → acked h' p t P.
Proof. intros HP. exists M. split; [by right|done]. Qed.

Lemma accept_facts :
  (current_term_ n ≤ t)%N ∧ current_term_ n' = t ∧ role_ n' = Follower ∧ M `prefix_of` log_ n' ∧
  (log_ n' = M ∨ log_ n' = log_ n) ∧
  (commit_index_ n' = commit_index_ n ∨
   commit_index_ n' = N.min (leader_commit req) (N.of_nat (length (log_ n')))).
Proof.
  pose proof (append_frame req n) as (_ & _ & _ & Hf & Hge & _). specialize (Hge Hs).
  assert (HM : matching M (log_ n)).
  { apply (known_matching members G h); [apply HI| |by apply (si_node _ _ _ _ HI p n Hn)].
    eapply leads_known; [apply HI|]. by destruct Hok. }
  pose proof (accepted_log req n M (eo_carries _ _ _ _ _ _ _ _ Hok) HM Hs) as (? & ? & ? & ?).
  split_and!; try done. by apply Hf.
Qed.

(** Whatever the node acknowledged is kept, or a leader overruled it; with the
    term [t] of the request, it is kept. *)
Lemma accept_keeps T P :
  acked h p T P → (P `prefix_of` log_ n ∨ P `prefix_of` M) → (T ≤ t)%N →
  P `prefix_of` log_ n' ∨ overruled h T P t.
Proof.
  intros HA HP HT. destruct accept_facts as (_ & _ & _ & HM & Hlog & _).
  destruct (decide (P `prefix_of` M)) as [HPM|HPM]; [left; by etransitivity|].
  destruct (decide (T = t)) as [->|HTt].
  { destruct HPM. by apply (eo_sent _ _ _ _ _ _ _ _ Hok). }
  destruct Hlog as [_|Hlog]; [right|left; rewrite Hlog; by destruct HP].
  split; [lia|]. exists M. split; [apply Hok|done].
Qed.

Lemma accept_committed : committed n `prefix_of` log_ n'.
Proof.
  pose proof (si_node _ _ _ _ HI p n Hn) as Ok.
  destruct accept_facts as (Hge & _ & _ & HM & _).
  destruct (no_committed _ _ _ _ Ok) as [->|(T & R & HR & HT & HP & HA)]; [apply prefix_nil|].
  etransitivity; [|exact HM]. destruct (decide (T = t)) as [->|HTt].
  - apply (eo_sent _ _ _ _ _ _ _ _ Hok); [done|]. apply HA. unfold t in *. lia.
  - etransitivity; [exact HP|]. eapply (completeness_leads members Hmembers G h); [apply HI|done| |apply Hok].
    unfold t in *. lia.
Qed.

Lemma accept_length : fits 63 (N.of_nat (length (log_ n'))).
Proof.
  destruct accept_facts as (_ & _ & _ & _ & [->| ->] & _); [apply Hok|].
  apply (si_node _ _ _ _ HI p n Hn).
Qed.

Lemma accept_commit :
  (commit_index_ n' ≤ N.of_nat (length (log_ n')))%N ∧
  (committed n' = [] ∨ ∃ T R, replicated members h' T R ∧ (T ≤ current_term_ n')%N ∧
     committed n' `prefix_of` R ∧ (T = current_term_ n' → acked h' p T (committed n'))).
Proof.
  pose proof (si_node _ _ _ _ HI p n Hn) as Ok. pose proof (extends_acknowledge p t M h) as HE. fold h' in HE.
  destruct accept_facts as (Hge & Ht & _ & HM & _ & Hc). pose proof (no_commit _ _ _ _ Ok) as Hle.
  pose proof (committed_length n Hle) as Hlen. pose proof accept_committed as Hpre.
  pose proof (prefix_length _ _ Hpre). pose proof (prefix_length _ _ HM).
  rewrite Ht. destruct Hc as [Hc|Hc].
  - split; [lia|]. assert (Ec : committed n' = committed n).
    { unfold committed at 1. rewrite Hc, <-Hlen. destruct Hpre as [r ->]. apply take_app_length. }
    rewrite Ec. destruct (no_committed _ _ _ _ Ok) as [->|(T & R & HR & HT & HP & HA)]; [by left|right].
    exists T, R. split_and!; [by eapply replicated_mono|unfold t in *; lia|done|]. intros ->.
    eapply acked_mono; [exact HE|]. apply HA. unfold t in *. lia.
  - split; [lia|]. pose proof (eo_commit _ _ _ _ _ _ _ _ Hok) as Hlc.
    assert (Ec : committed n' = take (N.to_nat (leader_commit req)) M).
    { unfold committed. rewrite Hc, N.min_l by lia. destruct HM as [r ->]. by rewrite take_app_le by lia. }
    rewrite Ec. destruct (eo_settled _ _ _ _ _ _ _ _ Hok) as [->|(T & R & HR & HT & HP)]; [by left|right].
    exists T, R. split_and!; [by eapply replicated_mono|done|done|]. intros ->.
    apply accept_new, prefix_take.
Qed.

Lemma accept_node : node_ok h' p n'.
Proof.
  pose proof (si_node _ _ _ _ HI p n Hn) as Ok. pose proof (extends_acknowledge p t M h) as HE. fold h' in HE.
  destruct accept_facts as (Hge & Ht & Hr & HM & Hlog & _).
  pose proof (append_frame req n) as (Hnx & Hmt & Hpe & _). fold n' in Hnx, Hmt, Hpe.
  constructor; rewrite ?Ht, ?Hr; try done.
  - eapply known_mono; [exact HE|]. destruct Hlog as [->| ->]; [|apply Ok].
    eapply leads_known; apply HI || apply Hok.
  - destruct Hlog as [->| ->].
    + eapply (leads_terms members G h); apply HI || apply Hok.
    + eapply Forall_impl; [apply Ok|]. cbn. lia.
  - exact accept_length.
  - intros T l Hst. pose proof (no_stands _ _ _ _ Ok _ _ Hst). lia.
  - intros T P [HA|(_ & -> & HP)]%accept_acked.
    + destruct (no_acks _ _ _ _ Ok T P HA) as [HT HP]. split; [lia|].
      destruct HP as [HP|(U & HU & HO)].
      * destruct (accept_keeps T P HA (or_introl HP) ltac:(lia)) as [|HO]; [by left|right].
        exists t. split; [done|by eapply overruled_mono].
      * right. exists U. split; [lia|by eapply overruled_mono].
    + split; [done|left]. by etransitivity.
  - apply accept_commit.
  - pose proof (proj2 accept_commit) as Hc. by rewrite Ht in Hc.
  - rewrite Hmt, Hpe. apply Ok.
Qed.

Lemma accept_history : consistent_history members G h'.
Proof.
  pose proof (extends_acknowledge p t M h) as HE. fold h' in HE.
  destruct (si_history _ _ _ _ HI) as [U Sf St Ld Li Ak Ba]. constructor; try done.
  - intros v T M' [HM|(_ & -> & ->)]; [by eapply Ak|apply Hok].
  - intros v T j Hg. destruct (Ba v T j Hg) as (l & lv & ? & ? & ? & Hb). exists l, lv.
    split_and!; try done. intros T' P HT [HP|(-> & -> & _)]%accept_acked; [by apply Hb|].
    destruct (inv_vote _ _ _ (si_votes _ _ _ _ HI) p T j Hg) as (m & Hm & Hle & _).
    unfold at_ in Hn. rewrite Hn in Hm. injection Hm as <-.
    destruct accept_facts as (Hge & _). unfold t in *. lia.
Qed.

Lemma accept_inv :
  SInv G h' (set_exchange (i, p) (req, Some (OnAppendEntries req n).1) (set_node p n' s)).
Proof.
  pose proof (extends_acknowledge p t M h) as HE. fold h' in HE. constructor.
  - eapply inv_keeps; [done|apply HI|exact Hn|apply keeps_append].
  - exact accept_history.
  - intros j m [[-> ->]|[Hne Hm]]%at_set_node; [exact accept_node|].
    eapply node_ok_mono; [exact HE| |done| |by apply HI].
    + by intros T P [|[? _]]%accept_acked.
    + intros Hr M' HM'. by apply (no_leader _ _ _ _ (si_node _ _ _ _ HI j m Hm) Hr).
  - apply (led_set_node members G h s p n n' HI Hn). apply keeps_append.
  - apply HI.
  - intros j q req' resp' [[[= <- <-] [= <- <-]]|[Hk Hx']]%lookup_set_exchange.
    + exists M. destruct Hok. constructor; try done; [by eapply settled_mono|]. intros r [= <-] _. by right.
    + destruct (si_exchange _ _ _ _ HI _ _ _ _ Hx') as (M' & [El Hp ? HM ? ? ? Hst Hsent Hdone]).
      exists M'. constructor; try done; [by eapply settled_mono| |].
      * intros P Hr [HA|(-> & Ev & _)]%accept_acked; [by apply Hsent|]. destruct Hk. f_equal.
        eapply (elected_unique members Hmembers G (net s)); [apply HI| |exact El].
        rewrite Ev. apply Hok.
      * intros r Hr Hsr. left. by eapply Hdone.
Qed.

End Accept.

(** A request arrives at a registered node. *)
Lemma deliver_inv G h s i p req n :
  SInv G h s → exchanges s !! (i, p) = Some (req, None) → at_ s p = Some n →
  ∃ G' h', extends h h' ∧
    SInv G' h' (set_exchange (i, p) (req, Some (OnAppendEntries req n).1)
                  (set_node p (OnAppendEntries req n).2 s)).
Proof.
  intros HI Hx Hn. destruct (success (OnAppendEntries req n).1) eqn:Hs.
  - destruct (si_exchange _ _ _ _ HI _ _ _ _ Hx) as (M & Hok). exists G.
    exists (acknowledge p (ae_term req) M h). split; [apply extends_acknowledge|]. by eapply accept_inv.
  - pose proof (append_frame req n) as (Hnx & Hmt & _ & _ & _ & Hsame). destruct (Hsame Hs) as [Hl Hc].
    assert (St : step (net s) (net (set_node p (OnAppendEntries req n).2 s))) by (by apply step_append).
    destruct (inv_votes_step members Hmembers G _ _ (si_votes _ _ _ _ HI) St) as (G' & HV & HI').
    exists G', (observe (net (set_node p (OnAppendEntries req n).2 s)) h).
    split; [apply extends_observe|]. apply reject_inv; [|done|done].
    apply (local_inv members Hmembers G G' h s); try done. intros j. unfold at_. cbn.
    destruct (decide (j = p)) as [->|Hne].
    + unfold at_ in Hn. rewrite Hn, lookup_insert_eq. constructor. split_and!; [done|done|by left].
    + rewrite lookup_insert_ne by done. destruct (nodes (net s) !! j); constructor.
      split_and!; [done|done|by left].
Qed.

(** ** The leader processes a response *)

Lemma set_node_inv G h s i n n' :
  SInv G h s → at_ s i = Some n → keeps n n' → node_ok h i n' → SInv G h (set_node i n' s).
Proof.
  intros HI Hn K Ok. constructor; try apply HI.
  - eapply inv_keeps; [done|apply HI|exact Hn|done].
  - intros j m [[-> ->]|[Hne Hm]]%at_set_node; [done|by apply HI].
  - by apply (led_set_node members G h s i n n' HI Hn).
Qed.

(** Index maps for the peers of a leader. *)
Definition indexes_ok (h : History) (n : RaftNode) (nx mt : gmap Z N) : Prop :=
  (∀ p, is_Some (mt !! p) → p ∈ peers_ n) ∧
  ∀ p, p ∈ peers_ n →
    (∃ x, nx !! p = Some x ∧ (1 ≤ x ≤ N.of_nat (length (log_ n)) + 1)%N) ∧
    ∃ x, mt !! p = Some x ∧ (x ≤ N.of_nat (length (log_ n)))%N ∧
      (x = 0%N ∨ acked h p (current_term_ n) (take (N.to_nat x) (log_ n))).

Lemma node_indexes h i n : node_ok h i n → role_ n = Leader →
  indexes_ok h n (next_index_ n) (match_index_ n).
Proof. intros [] Hr. split; [done|]. intros p Hp. auto. Qed.

Lemma set_indexes_ok h i n nx mt :
  node_ok h i n → indexes_ok h n nx mt → node_ok h i (set_indexes nx mt n).
Proof. intros [] [HK HX]. constructor; try done. intros p _. apply HX. Qed.

Lemma indexes_next h n nx mt p x :
  indexes_ok h n nx mt → (1 ≤ x ≤ N.of_nat (length (log_ n)) + 1)%N →
  indexes_ok h n (<[p := x]> nx) mt.
Proof.
  intros [HK HX] Hx. split; [done|]. intros q Hq. destruct (HX q Hq) as [Hn Hm]. split; [|done].
  destruct (decide (q = p)) as [->|]; [exists x; by rewrite lookup_insert_eq|by rewrite lookup_insert_ne].
Qed.

Lemma indexes_match h n nx mt p x :
  indexes_ok h n nx mt → p ∈ peers_ n → (x ≤ N.of_nat (length (log_ n)))%N →
  acked h p (current_term_ n) (take (N.to_nat x) (log_ n)) → indexes_ok h n nx (<[p := x]> mt).
Proof.
  intros [HK HX] Hp Hx HA. split.
  - intros q [y [[-> _]|[_ Hq]]%lookup_insert_Some]; [done|]. apply HK. by exists y.
  - intros q Hq. destruct (HX q Hq) as [Hn Hm]. split; [done|].
    destruct (decide (q = p)) as [->|]; [|by rewrite lookup_insert_ne].
    exists x. rewrite lookup_insert_eq. split_and!; [done|done|by right].
Qed.

(** Reading an index that is there leaves the maps as they are. *)
Lemma indexes_subscript h n nx mt p :
  indexes_ok h n nx mt → p ∈ peers_ n → subscript p nx = nx ∧ subscript p mt = mt.
Proof.
  intros [_ HX] Hp. destruct (HX p Hp) as [(x & Hx & _) (y & Hy & _)]. unfold subscript.
  rewrite Hx, Hy. cbn. by rewrite !insert_id.
Qed.

(** The values that [AdvanceCommitIndexLocked] sorts are those of a quorum. *)
Lemma majority_quorum G c h i n :
  Inv members G c → nodes c !! i = Some n → node_ok h i n → role_ n = Leader →
  let m := majority_index (match_values n) in
  (m ≤ N.of_nat (length (log_ n)))%N ∧
  ((0 < m)%N → ∃ Q, NoDup Q ∧ Q ⊆ members ∧ (quorum members ≤ N.of_nat (length Q))%N ∧
     ∀ v, v ∈ Q → acked h v (current_term_ n) (take (N.to_nat m) (log_ n))).
Proof.
  intros HI Hn Ok Hr m. pose proof (node_indexes h i n Ok Hr) as [HK HX].
  pose proof (no_leader _ _ _ _ Ok Hr) as (_ & Hself & _).
  destruct (inv_node _ _ _ HI i n Hn) as [_ Hp].
  pose proof Hmembers as ND. rewrite <-Hp in ND. apply NoDup_cons in ND as [Hip NDp].
  set (kvs := map_to_list (match_index_ n)).
  assert (Hkv : ∀ kv, kv ∈ kvs → kv.1 ∈ peers_ n ∧ (kv.2 ≤ N.of_nat (length (log_ n)))%N ∧
    (kv.2 = 0%N ∨ acked h kv.1 (current_term_ n) (take (N.to_nat kv.2) (log_ n)))).
  { intros [k x] Hin%elem_of_map_to_list. assert (k ∈ peers_ n) as Hk by (by apply HK; exists x).
    destruct (HX k Hk) as [_ (y & Hy & ?)]. rewrite Hin in Hy. injection Hy as <-. done. }
  assert (Hkeys : kvs.*1 ≡ₚ peers_ n).
  { apply NoDup_Permutation; [apply NoDup_fst_map_to_list|done|]. intros k. split.
    - intros ([k' x] & -> & Hin)%list_elem_of_fmap. by apply Hkv in Hin as [? _].
    - intros Hk. destruct (HX k Hk) as [_ (x & Hx & _)]. apply list_elem_of_fmap. exists (k, x).
      split; [done|]. by apply elem_of_map_to_list. }
  assert (Hlen : length members = length (match_values n)).
  { rewrite <-Hp. unfold match_values. fold kvs. cbn. rewrite <-Hkeys, !length_fmap. done. }
  pose proof (majority_count (match_values n) ltac:(done)) as Hcount. fold m in Hcount.
  assert (Hm : (m ≤ N.of_nat (length (log_ n)))%N).
  { apply majority_bound; [done|]. constructor; [done|]. apply Forall_fmap, Forall_forall.
    intros kv Hin. by apply Hkv. }
  split; [done|]. intros Hpos. set (K := filter (λ kv : Z * N, (m ≤ kv.2)%N) kvs).
  exists (i :: K.*1). split_and!.
  - apply NoDup_cons. split.
    + intros ([k x] & -> & [_ Hin]%list_elem_of_filter)%list_elem_of_fmap.
      by apply Hkv in Hin as [? _].
    + apply (NoDup_fmap_fst_filter kvs). apply NoDup_fst_map_to_list.
  - intros v [->|Hv]%elem_of_cons; [rewrite <-Hp; apply list_elem_of_here|].
    apply list_elem_of_fmap in Hv as ([k x] & -> & [_ Hin]%list_elem_of_filter).
    rewrite <-Hp. apply list_elem_of_further. by apply Hkv in Hin as [? _].
  - assert (Hc : length (i :: K.*1) = length (filter (λ v, m ≤ v)%N (match_values n))).
    { unfold match_values. rewrite filter_cons_True by done. cbn. f_equal.
      rewrite length_fmap. apply length_filter_snd. }
    rewrite Hc. apply (odd_majority (length members)); [done|]. by rewrite Hlen.
  - intros v [->|Hv]%elem_of_cons.
    + exists (log_ n). split; [done|apply prefix_take].
    + apply list_elem_of_fmap in Hv as ([k x] & -> & [Hmx Hin]%list_elem_of_filter).
      apply Hkv in Hin as (_ & _ & [Hx|HA]); cbn in *; [lia|].
      eapply acked_prefix; [exact HA|]. apply prefix_take_take. lia.
Qed.

Lemma advance_ok G c h i n :
  Inv members G c → nodes c !! i = Some n → node_ok h i n → role_ n = Leader →
  node_ok h i (AdvanceCommitIndexLocked n).
Proof.
  intros HI Hn Ok Hr. destruct (majority_quorum G c h i n HI Hn Ok Hr) as [Hle HQ].
  unfold AdvanceCommitIndexLocked. set (m := majority_index (match_values n)) in *.
  destruct (N.ltb_spec (commit_index_ n) m) as [Hlt|]; [|done].
  destruct (N.eqb_spec (TermAtLocked n m) (current_term_ n)) as [Et|]; [|done].
  specialize (HQ ltac:(lia)). pose proof (no_leader _ _ _ _ Ok Hr) as (_ & Hself & _).
  pose proof Ok as []. constructor; try done. right.
  exists (current_term_ n), (take (N.to_nat m) (log_ n)). split_and!.
  - split_and!; [|rewrite last_term_take by lia; by rewrite N2Nat.id|done].
    intros E%(f_equal length). rewrite length_take in E. cbn in E. lia.
  - done.
  - done.
  - intros _. exists (log_ n). split; [done|apply prefix_take].
Qed.

Lemma finish_keep h i p n nx mt :
  node_ok h i n → indexes_ok h n nx mt → p ∈ peers_ n →
  node_ok h i (set_indexes (subscript p nx) (subscript p mt) n).
Proof.
  intros Ok HX Hp. destruct (indexes_subscript _ _ _ _ _ HX Hp) as [-> ->]. by apply set_indexes_ok.
Qed.

Section Finish.
Context (G : gset (Z * N * Z)) (c : Cluster) (h : History) (i p : Z) (n : RaftNode).
Context (HI : Inv members G c) (Hn : nodes c !! i = Some n) (Ok : node_ok h i n).
Context (Hr : role_ n = Leader) (Hp : p ∈ peers_ n).

(** The commit index advances over any index maps. *)
Lemma finish_advance nx mt :
  indexes_ok h n nx mt → let a := AdvanceCommitIndexLocked (set_indexes nx mt n) in
  node_ok h i (set_indexes (subscript p (next_index_ a)) (subscript p (match_index_ a)) a).
Proof.
  intros HX a. set (m := set_indexes nx mt n) in *.
  assert (Okm : node_ok h i m) by (by apply set_indexes_ok).
  assert (HIm : Inv members G (with_node i m c)).
  { apply (inv_keeps members Hmembers G c i n m HI Hn). by constructor. }
  pose proof (advance_ok G (with_node i m c) h i m HIm (lookup_insert_eq _ _ _) Okm Hr) as Oka.
  pose proof (advance_log m) as (_ & _ & _ & _ & Hra).
  apply finish_keep; [done|apply (node_indexes h i); [done|exact (eq_trans Hra Hr)]|].
  unfold a, AdvanceCommitIndexLocked. by destruct (_ <? _)%N; [destruct (_ =? _)%N|].
Qed.

Lemma finish_failure req resp :
  (aer_term resp ≤ current_term_ n)%N → success resp = false →
  node_ok h i (on_heartbeat_response p req resp n).
Proof.
  intros Hle Hs. pose proof (node_indexes h i n Ok Hr) as HX.
  unfold on_heartbeat_response. rewrite (proj2 (N.ltb_ge _ _)), Hs by done. cbv zeta.
  assert (Hnew : ∀ m, indexes_ok h n (next_index_ m) (match_index_ n) →
    m = set_indexes (next_index_ m) (match_index_ n) n →
    node_ok h i (set_indexes (subscript p (next_index_ m)) (match_index_ m) m)).
  { intros m HXm ->. destruct (indexes_subscript _ _ _ _ _ HXm Hp) as [E _]. cbn in *. rewrite E.
    by apply (set_indexes_ok h i n). }
  destruct (proj2 HX p Hp) as [(x & Hx & Hxl) _]. rewrite Hx.
  destruct (N.ltb_spec 1 x); apply Hnew; try done; [|by destruct n].
  apply indexes_next; [done|lia].
Qed.

Lemma finish_success req resp M :
  (aer_term resp ≤ current_term_ n)%N → success resp = true →
  current_term_ n = ae_term req → exchange_ok G h i p req (Some resp) M →
  node_ok h i (on_heartbeat_response p req resp n).
Proof.
  intros Hle Hs Et Hok. pose proof (node_indexes h i n Ok Hr) as HX.
  unfold on_heartbeat_response. rewrite (proj2 (N.ltb_ge _ _)), Hs by done. cbv zeta.
  destruct (entries req) as [|e es] eqn:Ee.
  { pose proof (finish_advance _ _ HX) as A. cbv zeta in A. by destruct n. }
  assert (Hsent : (prev_log_index req + N.of_nat (length (e :: es)) = N.of_nat (length M))%N).
  { destruct (eo_carries _ _ _ _ _ _ _ _ Hok) as (Hpl & _ & He). rewrite <-Ee, He, length_drop. lia. }
  pose proof (eo_length _ _ _ _ _ _ _ _ Hok) as Hf. unfold fits in Hf.
  assert (Hpow : (2 ^ 63 + 1 < 2 ^ 64)%N) by done.
  rewrite Hsent, (wrap_fits 64 (N.of_nat (length M))), wrap_fits by (unfold fits; lia).
  assert (HM : M `prefix_of` log_ n).
  { apply (no_leader _ _ _ _ Ok Hr). rewrite Et. apply Hok. }
  pose proof (prefix_length _ _ HM) as Hlen. apply finish_advance.
  apply indexes_match; [|done|lia|].
  - apply indexes_next; [done|lia].
  - exists M. rewrite Nat2N.id. split; [rewrite Et; by apply (eo_done _ _ _ _ _ _ _ _ Hok resp)|].
    destruct HM as [r ->]. by rewrite take_app_length.
Qed.

End Finish.

Lemma finish_inv G h s i p req resp n :
  SInv G h s → exchanges s !! (i, p) = Some (req, Some resp) → at_ s i = Some n →
  role_ n = Leader → current_term_ n = ae_term req →
  ∃ G' h', extends h h' ∧
    SInv G' h' (set_node i (on_heartbeat_response p req resp n) (end_exchange (i, p) s)).
Proof.
  intros HI Hx Hn Hr Et. destruct (si_exchange _ _ _ _ HI _ _ _ _ Hx) as (M & Hok).
  pose proof (si_node _ _ _ _ HI i n Hn) as Ok.
  apply (end_exchange_inv G h s (i, p)) in HI as HI0.
  destruct (N.le_gt_cases (aer_term resp) (current_term_ n)) as [Hle|Hgt].
  - exists G, h. split; [done|]. apply (set_node_inv G h _ i n); [done|done|apply keeps_heartbeat|].
    assert (Hp : p ∈ peers_ n).
    { apply (peer_member G (net s) i n p); [apply HI|done|]. by destruct Hok. }
    pose proof (si_votes _ _ _ _ HI) as V. destruct (success resp) eqn:Hs.
    + by apply (finish_success G (net s) h i p n V Hn Ok Hr Hp req resp M).
    + by eapply finish_failure.
  - assert (St : step (net s) (net (set_node i (on_heartbeat_response p req resp n) (end_exchange (i, p) s))))
      by (by apply step_heartbeat).
    destruct (inv_votes_step members Hmembers G _ _ (si_votes _ _ _ _ HI) St) as (G' & HV & HI').
    eexists G', (observe _ h). split; [apply extends_observe|].
    apply (local_inv members Hmembers G G' h (end_exchange (i, p) s)); try done. intros j.
    unfold at_. cbn. unfold at_ in Hn. destruct (decide (j = i)) as [->|Hne].
    + rewrite Hn, lookup_insert_eq. constructor. unfold on_heartbeat_response.
      rewrite (proj2 (N.ltb_lt _ _)) by done. split_and!; [done|done|by left].
    + rewrite lookup_insert_ne by done. destruct (nodes (net s) !! j); constructor.
      split_and!; [done|done|by left].
Qed.

(** ** Runs *)

Lemma serial_inv G h s s' :
  SInv G h s → serial s s' → ∃ G' h', extends h h' ∧ SInv G' h' s'.
Proof.
  intros HI [c Hc Hq|i e n Hn Hr Et Hf|i p n req Hn Hr Hp Hx Hreq|i p req n Hx Hn|i p req Hx
            |i p req resp n Hx Hn Hr Et|i p x Hx].
  - destruct (inv_votes_step members Hmembers G _ _ (si_votes _ _ _ _ HI) Hc) as (G' & HV & HI').
    exists G', (observe c h). split; [apply extends_observe|]. by apply (local_inv members Hmembers G).
  - exists G, (lead i (current_term_ n) (log_ n ++ [e]) h). split; [apply extends_lead|].
    by apply propose_inv.
  - exists G, h. split; [done|]. by eapply begin_inv.
  - by eapply deliver_inv.
  - exists G, h. split; [done|]. by apply reject_inv.
  - by eapply finish_inv.
  - exists G, h. split; [done|]. by apply end_exchange_inv.
Qed.

Lemma run_inv G h s s' : SInv G h s → rtc serial s s' → ∃ G' h', extends h h' ∧ SInv G' h' s'.
Proof.
  intros HI Hrtc. revert G h HI. induction Hrtc as [s|s1 s2 s3 Hs _ IH]; intros G h HI.
  { by exists G, h. }
  destruct (serial_inv _ _ _ _ HI Hs) as (G2 & h2 & E2 & HI2).
  destruct (IH _ _ HI2) as (G3 & h3 & E3 & HI3). exists G3, h3. split; [by etransitivity|done].
Qed.

(** A freshly constructed cluster without exchanges. *)
Definition start (c : Cluster) : Sys := mkSys c ∅.

Definition no_history : History := mkHistory (λ _ _ _, False) (λ _ _, False) (λ _ _ _, False).

Lemma start_inv c : initial members c → SInv ∅ no_history (start c).
Proof.
  intros Hc. pose proof (inv_initial members Hmembers c Hc) as V. destruct Hc as (_ & He & Hn).
  constructor; try done.
  - intros i n Hi. destruct (Hn i n Hi) as (ps & -> & _). constructor; try done.
    + by left.
    + by intros T P (M & [] & _).
    + by left.
    + intros p Hp. cbn in Hp. rewrite lookup_empty in Hp. by destruct Hp.
  - intros i e Hi. cbn in Hi. by rewrite He, lookup_empty in Hi.
Qed.

Lemma reachable_inv c s : initial members c → rtc serial (start c) s → ∃ G h, SInv G h s.
Proof.
  intros Hc%start_inv Hrtc. destruct (run_inv _ _ _ _ Hc Hrtc) as (G & h & _ & HI). by exists G, h.
Qed.

(** What a node has committed is part of a replicated log of its term or an
    earlier one. *)
Lemma committed_settled G h s i n :
  SInv G h s → at_ s i = Some n → settled members h (current_term_ n) (committed n).
Proof.
  intros HI Hn. destruct (no_committed _ _ _ _ (si_node _ _ _ _ HI i n Hn)) as [|(T & R & ? & ? & ? & _)];
    [by left|right]. by exists T, R.
Qed.

(** Settled logs are parts of every later leader's log. *)
Lemma settled_in_leader G h s t P j m :
  SInv G h s → settled members h t P → at_ s j = Some m → role_ m = Leader →
  (t ≤ current_term_ m)%N → P `prefix_of` log_ m.
Proof.
  intros HI [->|(T & R & HR & HT & HP)] Hm Hr Hle; [apply prefix_nil|].
  destruct (no_leader _ _ _ _ (si_node _ _ _ _ HI j m Hm) Hr) as (HL & _ & Hmax).
  etransitivity; [exact HP|]. pose proof (si_history _ _ _ _ HI) as HC.
  destruct (decide (T = current_term_ m)) as [->|Hne].
  - destruct (replicated_leads members Hmembers G h HC _ _ HR) as (M & HM & HRM).
    etransitivity; [exact HRM|]. by apply Hmax.
  - eapply (completeness_leads members Hmembers G h HC); [exact HR| |exact HL]. lia.
Qed.

Lemma settled_comparable G h t t' P P' :
  consistent_history members G h → settled members h t P → settled members h t' P' →
  P `prefix_of` P' ∨ P' `prefix_of` P.
Proof.
  intros HC [->|(T & R & HR & _ & HP)]; [left; apply prefix_nil|].
  intros [->|(T' & R' & HR' & _ & HP')]; [right; apply prefix_nil|].
  destruct (replicated_comparable members Hmembers G h HC _ _ _ _ HR HR') as [H|H].
  - apply (prefix_weak_total P P' R'); [by etransitivity|done].
  - apply (prefix_weak_total P P' R); [done|by etransitivity].
Qed.

(** ** The commit index only grows *)

Lemma commit_grows_append req n : (commit_index_ n ≤ commit_index_ (OnAppendEntries req n).2)%N ∨
  (N.of_nat (length (log_ (OnAppendEntries req n).2)) < commit_index_ n)%N.
Proof.
  destruct (N.le_gt_cases (current_term_ n) (ae_term req)) as [Hge|Hlt].
  - pose proof (OnAppendEntries_run req n Hge) as R. destruct (OnAppendEntries req n) as [r m].
    cbn [snd]. destruct R as (_ & _ & _ & _ & ->). destruct (_ && _) eqn:E; [|left; lia].
    apply andb_true_iff in E as [_ E%N.ltb_lt]. lia.
  - left. unfold OnAppendEntries. by rewrite (proj2 (N.ltb_lt _ _)).
Qed.

Lemma commit_grows_advance n : (commit_index_ n ≤ commit_index_ (AdvanceCommitIndexLocked n))%N.
Proof.
  unfold AdvanceCommitIndexLocked. destruct (N.ltb_spec (commit_index_ n) (majority_index (match_values n)));
    [|done]. destruct (_ =? _)%N; cbn; lia.
Qed.

Lemma commit_grows_heartbeat p req resp n :
  (commit_index_ n ≤ commit_index_ (on_heartbeat_response p req resp n))%N.
Proof.
  unfold on_heartbeat_response. destruct (_ <? _)%N; [done|]. destruct (success resp); cbv zeta.
  - destruct (entries req); cbn [commit_index_ set_indexes]; [apply commit_grows_advance|].
    apply (commit_grows_advance (set_indexes _ _ n)).
  - destruct (next_index_ n !! p); [|done]. by destruct (_ <? _)%N.
Qed.

(** The accepted request leaves what the node has committed. *)
Lemma commit_grows_deliver G h s i p req n :
  SInv G h s → exchanges s !! (i, p) = Some (req, None) → at_ s p = Some n →
  (commit_index_ n ≤ commit_index_ (OnAppendEntries req n).2)%N.
Proof.
  intros HI Hx Hn. destruct (commit_grows_append req n) as [|Hlt]; [done|].
  pose proof (no_commit _ _ _ _ (si_node _ _ _ _ HI p n Hn)) as Hle.
  destruct (success (OnAppendEntries req n).1) eqn:Hs.
  - destruct (si_exchange _ _ _ _ HI _ _ _ _ Hx) as (M & Hok).
    pose proof (accept_committed G h s i p req n M HI Hn Hok Hs) as Hpre%prefix_length.
    rewrite (committed_length n Hle) in Hpre. lia.
  - pose proof (append_frame req n) as (_ & _ & _ & _ & _ & Hsame). by destruct (Hsame Hs) as [_ ->].
Qed.

Lemma commit_grows G h s s' i n :
  SInv G h s → serial s s' → at_ s i = Some n →
  ∃ n', at_ s' i = Some n' ∧ (commit_index_ n ≤ commit_index_ n')%N.
Proof.
  assert (Hset : ∀ j m m' s0, at_ s0 i = Some n → at_ s0 j = Some m → (commit_index_ m ≤ commit_index_ m')%N →
    ∃ n', at_ (set_node j m' s0) i = Some n' ∧ (commit_index_ n ≤ commit_index_ n')%N).
  { intros j m m' s0 Hn Hm Hle. unfold at_, set_node. cbn. destruct (decide (i = j)) as [->|Hne].
    - exists m'. rewrite lookup_insert_eq. by simplify_eq.
    - exists n. by rewrite lookup_insert_ne. }
  intros HI [c Hc Hq|j e m Hm _ _ _|j p m req Hm|j p req m Hx Hm|j p req Hx|j p req resp m Hx Hm _ _|j p x Hx] Hn;
    try (by exists n).
  - specialize (Hq i). rewrite Hn in Hq. inversion Hq as [? n' (_ & Hci & _) Hx Hn'|]; subst.
    exists n'. split; [done|]. by rewrite Hci.
  - by apply (Hset j m).
  - apply (Hset p m); [done|done|]. by eapply commit_grows_deliver.
  - apply (Hset j m _ (end_exchange (j, p) s)); [done|done|]. apply commit_grows_heartbeat.
Qed.

(** What a node commits it keeps committed, as do all that commit as much. *)
Lemma committed_compare c s1 s2 i j n m :
  initial members c → rtc serial (start c) s1 → rtc serial s1 s2 →
  at_ s1 i = Some n → at_ s2 j = Some m →
  committed n `prefix_of` committed m ∨ committed m `prefix_of` committed n.
Proof.
  intros Hc R1 R2 Hn Hm. destruct (reachable_inv c s1 Hc R1) as (G1 & h1 & HI1).
  destruct (run_inv _ _ _ _ HI1 R2) as (G2 & h2 & HE & HI2).
  apply (settled_comparable G2 h2 (current_term_ n) (current_term_ m)); [apply HI2| |by eapply committed_settled].
  eapply settled_mono; [exact HE|]. by eapply committed_settled.
Qed.

Lemma committed_run c s1 s2 i n :
  initial members c → rtc serial (start c) s1 → rtc serial s1 s2 → at_ s1 i = Some n →
  ∃ m, at_ s2 i = Some m ∧ committed n `prefix_of` committed m.
Proof.
  intros Hc R1 R2 Hn.
  assert (Hm : ∃ m, at_ s2 i = Some m ∧ (commit_index_ n ≤ commit_index_ m)%N).
  { destruct (reachable_inv c s1 Hc R1) as (G & h & HI). clear R1. revert G h n Hn HI.
    induction R2 as [s|s1 s2 s3 Hs _ IH]; intros G h n Hn HI; [by exists n|].
    destruct (commit_grows _ _ _ _ _ _ HI Hs Hn) as (n1 & Hn1 & Hle).
    destruct (serial_inv _ _ _ _ HI Hs) as (G1 & h1 & _ & HI1).
    destruct (IH G1 h1 n1 Hn1 HI1) as (m & Hm & Hle'). exists m. split; [done|lia]. }
  destruct Hm as (m & Hm & Hle). exists m. split; [done|].
  destruct (committed_compare c s1 s2 i i n m Hc R1 R2 Hn Hm) as [|Hpre]; [done|].
  destruct (reachable_inv c s1 Hc R1) as (G1 & h1 & HI1).
  destruct (run_inv _ _ _ _ HI1 R2) as (G2 & h2 & _ & HI2).
  pose proof (committed_length n (no_commit _ _ _ _ (si_node _ _ _ _ HI1 i n Hn))) as L1.
  pose proof (committed_length m (no_commit _ _ _ _ (si_node _ _ _ _ HI2 i m Hm))) as L2.
  rewrite (prefix_length_eq _ _ Hpre) by lia. done.
Qed.

End Safety.

(** ** Properties *)

(** C3: State machine safety.  In a cluster of an odd number of nodes whose
    exchanges are serialised (one request at a time to each peer, built
    while the node leads and, for a proposal, while its entry is still the last of the
    log; each response processed by a leader of the request's term), whatever the elections, the losses, the delays and
    the order of everything else, of the entries that any two nodes have committed
    at any two moments of a run one list is a prefix of the other, so no two nodes
    ever apply different entries at the same index; a node keeps what it has
    committed; and the commit index never passes the end of the log. *)
Theorem state_machine_safety members c s1 s2 i j n m :
  initial members c → Nat.Odd (length members) →
  rtc serial (start c) s1 → rtc serial s1 s2 → at_ s1 i = Some n → at_ s2 j = Some m →
  (committed n `prefix_of` committed m ∨ committed m `prefix_of` committed n) ∧
  (i = j → committed n `prefix_of` committed m) ∧
  (commit_index_ m ≤ N.of_nat (length (log_ m)))%N.
Proof.
  intros Hc Hodd R1 R2 Hn Hm. pose proof Hc as (Hnd & _). split_and!.
  - by apply (committed_compare members Hnd Hodd c s1 s2 i j).
  - intros <-. destruct (committed_run members Hnd Hodd c s1 s2 i n Hc R1 R2 Hn) as (m' & Hm' & Hpre).
    by simplify_eq.
  - destruct (reachable_inv members Hnd Hodd c s2 Hc ltac:(by etransitivity)) as (G & h & HI).
    by apply (si_node _ _ _ _ HI j m).
Qed.

(** C6: Leader completeness.  In the runs of a cluster of an odd number of nodes whose
    exchanges are serialised (one request at a time to each peer, built
    while the node leads and, for a proposal, while its entry is still the last of the
    log; each response processed by a leader of the request's term), what a node has
    committed in or before a term is in the log of every leader of that term or a later
    one, at that moment and ever after.  The code does not keep to that discipline, and
    without it a later leader may lack a committed entry
    ([delayed_request_loses_commit] in [RaftDelay]). *)
Theorem leader_completeness members c s1 s2 i j n m :
  initial members c → Nat.Odd (length members) →
  rtc serial (start c) s1 → rtc serial s1 s2 → at_ s1 i = Some n → at_ s2 j = Some m →
  role_ m = Leader → (current_term_ n ≤ current_term_ m)%N → committed n `prefix_of` log_ m.
Proof.
  intros Hc Hodd R1 R2 Hn Hm Hr Hle. pose proof Hc as (Hnd & _).
  destruct (reachable_inv members Hnd Hodd c s1 Hc R1) as (G1 & h1 & HI1).
  destruct (run_inv members Hnd Hodd _ _ _ _ HI1 R2) as (G2 & h2 & HE & HI2).
  apply (settled_in_leader members Hnd G2 h2 s2 (current_term_ n) _ j m HI2); try done.
  eapply settled_mono; [exact HE|]. by eapply committed_settled.
Qed.

(** ** Witnesses *)

Lemma quiet_refl n : quiet n n.
Proof. split_and!; [done|done|by left]. Qed.

Lemma quiet_one (ns : gmap Z RaftNode) j n n' i :
  ns !! j = Some n → quiet n n' → option_Forall2 quiet (ns !! i) (<[j := n']> ns !! i).
Proof.
  intros Hn Hq. destruct (decide (i = j)) as [->|]; [rewrite Hn, lookup_insert_eq; by constructor|].
  rewrite lookup_insert_ne by done. destruct (ns !! i); constructor. apply quiet_refl.
Qed.

(** A local step that changes node [j] quietly. *)
Lemma s_local_one s c' j n n' :
  step (net s) c' → nodes c' = <[j := n']> (nodes (net s)) → at_ s j = Some n → quiet n n' →
  serial s (mkSys c' (exchanges s)).
Proof.
  intros Hs E Hn Hq. apply s_local; [done|]. intros i. rewrite E. unfold at_ in *.
  by apply quiet_one with (n := n).
Qed.

(** Computes the state that a step has reached. *)
Ltac compute_state :=
  match goal with |- rtc serial ?x ?y => let x' := eval vm_compute in x in change (rtc serial x' y) end.

Ltac elect j p :=
  eapply rtc_l;
  [ eapply (s_local_one _ _ j); [eapply (step_timeout _ j); [reflexivity|discriminate|reflexivity..]
      |reflexivity|reflexivity|by split_and!; [..|left]] |compute_state];
  eapply rtc_l;
  [ eapply (s_local_one _ _ p); [eapply (step_ask _ j);
        [reflexivity|reflexivity|reflexivity|reflexivity|vm_compute; reflexivity]
      |reflexivity|reflexivity|by split_and!; [..|left]] |compute_state];
  eapply rtc_l;
  [ eapply (s_local_one _ _ j); [eapply (step_collect _ j);
        [reflexivity|reflexivity|reflexivity|vm_compute; reflexivity]
      |reflexivity|reflexivity|by split_and!; [..|right]] |compute_state].

Ltac heartbeat_to i p :=
  eapply rtc_l;
  [ eapply (s_begin _ i p); [reflexivity|reflexivity|by left|reflexivity|apply heartbeat_request] |compute_state];
  eapply rtc_l; [eapply (s_deliver _ i p); reflexivity|compute_state].

(** Node 1 is elected, takes a proposal, and commits it by a heartbeat to node 2,
    which learns of it from the next one, and is elected in the next term. *)
Lemma example_commit :
  ∃ s1 s2 s3 n m m', rtc serial (start example_cluster) s1 ∧ rtc serial s1 s2 ∧ rtc serial s2 s3 ∧
    at_ s1 1%Z = Some n ∧ at_ s2 2%Z = Some m ∧ at_ s3 2%Z = Some m' ∧
    committed n = [example_entry] ∧ committed m = [example_entry] ∧
    role_ m' = Leader ∧ current_term_ n = 1%N ∧ current_term_ m' = 2%N.
Proof.
  eexists _, _, _, _, _, _. split_and!.
  - elect 1%Z 2%Z. eapply rtc_l; [eapply (s_propose _ 1%Z example_entry); reflexivity|compute_state].
    heartbeat_to 1%Z 2%Z. eapply rtc_l; [eapply (s_finish _ 1%Z 2%Z); reflexivity|compute_state].
    apply rtc_refl.
  - heartbeat_to 1%Z 2%Z. apply rtc_refl.
  - elect 2%Z 1%Z. apply rtc_refl.
  - vm_compute. reflexivity.
  - vm_compute. reflexivity.
  - vm_compute. reflexivity.
  - vm_compute. reflexivity.
  - vm_compute. reflexivity.
  - reflexivity.
  - reflexivity.
  - reflexivity.
Qed.

Lemma example_odd : Nat.Odd (length example_members).
Proof. by exists 1. Qed.

Lemma state_machine_safety_witness :
  ∃ s1 s2 n m, rtc serial (start example_cluster) s1 ∧ rtc serial s1 s2 ∧
    at_ s1 1%Z = Some n ∧ at_ s2 2%Z = Some m ∧ committed n ≠ [] ∧ committed m ≠ [] ∧
    (committed n `prefix_of` committed m ∨ committed m `prefix_of` committed n).
Proof.
  destruct example_commit as (s1 & s2 & _ & n & m & _ & R1 & R2 & _ & Hn & Hm & _ & En & Em & _).
  exists s1, s2, n, m. split; [exact R1|]. split; [exact R2|]. split; [exact Hn|]. split; [exact Hm|].
  split; [by rewrite En|]. split; [by rewrite Em|].
  refine (proj1 (state_machine_safety example_members example_cluster s1 s2 1%Z 2%Z n m
    example_initial example_odd R1 R2 Hn Hm)).
Defined.

Lemma leader_completeness_witness :
  ∃ s1 s3 n m, rtc serial (start example_cluster) s1 ∧ rtc serial s1 s3 ∧
    at_ s1 1%Z = Some n ∧ at_ s3 2%Z = Some m ∧ role_ m = Leader ∧
    (current_term_ n < current_term_ m)%N ∧ committed n ≠ [] ∧ committed n `prefix_of` log_ m.
Proof.
  destruct example_commit as (s1 & s2 & s3 & n & _ & m & R1 & R2 & R3 & Hn & _ & Hm & En & _ & Hr & Tn & Tm).
  exists s1, s3, n, m. split; [exact R1|]. split; [by etransitivity|]. split; [exact Hn|].
  split; [exact Hm|]. split; [exact Hr|]. split; [by rewrite Tn, Tm|]. split; [by rewrite En|].
  assert (R13 : rtc serial s1 s3) by (by transitivity s2).
  apply (leader_completeness example_members example_cluster s1 s3 1%Z 2%Z n m
    example_initial example_odd R1 R13 Hn Hm Hr).
  by rewrite Tn, Tm.
Defined.

End RaftCommit.
