(* ===== verification/RaftProposal.v ===== *)
(** * Acknowledged proposals

    [ProposePut] and [ProposeDel], run while no request of the leader is in flight,
    are runs of the serialised cluster ([RaftSerial]); a proposal that returns true
    has been acknowledged by a quorum and is in the log of every later leader. *)

From S2P Require Import Prelude CxxString Raft RaftElection RaftSpec RaftLog RaftHistory RaftSerial RaftCommit.

Module RaftProposal.
Import Raft RaftElection RaftSpec RaftLog RaftHistory RaftSerial RaftCommit.

(** No request of node [i] is in flight. *)
Definition idle (s : Sys) (i : Z) : Prop := ∀ p, exchanges s !! (i, p) = None.

Section Proposals.
Context (members : list Z) (Hmembers : NoDup members).
Context (Hodd : Nat.Odd (length members)).

Abbreviation SInv := (SInv members).

(** ** One request and its response *)

Lemma idle_end s s' i p :
  idle s i → (∀ k, k ≠ (i, p) → exchanges s' !! k = exchanges s !! k) →
  idle (end_exchange (i, p) s') i.
Proof.
  intros Hi Hk q. cbn. destruct (decide (q = p)) as [->|Hne]; [apply lookup_delete_eq|].
  rewrite lookup_delete_ne by congruence. rewrite Hk by congruence. apply Hi.
Qed.

(** An exchange carries the log of its leader, if it sends the last entry. *)
Lemma proposal_exchange G h s i p n e r M :
  SInv G h s → at_ s i = Some n → role_ n = Leader → last (log_ n) = Some e →
  exchange_ok members G h i p (proposal_request e n) r M → M = log_ n.
Proof.
  intros HI Hn Hr He Hok. pose proof (si_node _ _ _ _ HI i n Hn) as Ok.
  pose proof (proposal_carries e n He) as (L1 & _ & L2).
  pose proof (eo_carries _ _ _ _ _ _ _ _ Hok) as (M1 & _ & M2). rewrite L2 in M2.
  assert (Hlen : length M = length (log_ n)).
  { apply (f_equal length) in M2. rewrite !length_drop in M2. lia. }
  assert (Hpre : M `prefix_of` log_ n).
  { apply (no_leader _ _ _ _ Ok Hr). apply (eo_leads _ _ _ _ _ _ _ _ Hok). }
  apply prefix_length_eq; [done|lia].
Qed.

(** The RPC of [replicate_rounds] and [commit_rounds]. *)
Lemma request_run G h s i p n req resp t1 :
  SInv G h s → idle s i → at_ s i = Some n → role_ n = Leader → p ∈ peers_ n → request_of p n req →
  AppendEntries p req (nodes (net s)) = (resp, t1) →
  ∃ s1 G1 h1, rtc serial s s1 ∧ nodes (net s1) = t1 ∧ SInv G1 h1 s1 ∧ extends h h1 ∧ idle s1 i ∧
    at_ s1 i = Some n ∧
    (∀ e, last (log_ n) = Some e → req = proposal_request e n → success resp = true →
       acked h1 p (current_term_ n) (log_ n)).
Proof.
  intros HI Hidle Hn Hr Hp Hreq Hrpc.
  pose proof (peer_member members Hmembers G (net s) i n p (si_votes _ _ _ _ HI) Hn) as [Hpm _].
  destruct (Hpm Hp) as [_ Hne].
  set (s1 := set_exchange (i, p) (req, None) s).
  assert (S1 : serial s s1) by (by eapply s_begin).
  pose proof (begin_inv members Hmembers G h s i p n req HI Hn Hr Hp Hreq) as HI1. fold s1 in HI1.
  assert (Hx : exchanges s1 !! (i, p) = Some (req, None)) by apply lookup_insert_eq.
  (* once there is a response, the exchange ends *)
  assert (Hend : ∀ r (c : Cluster) G2 h2,
    let s2 := set_exchange (i, p) (req, Some r) (mkSys c (exchanges s1)) in
    serial s1 s2 → SInv G2 h2 s2 → extends h h2 → nodes c !! i = Some n → (r, nodes c) = (resp, t1) →
    ∃ s3 G3 h3, rtc serial s s3 ∧ nodes (net s3) = t1 ∧ SInv G3 h3 s3 ∧ extends h h3 ∧ idle s3 i ∧
      at_ s3 i = Some n ∧
      (∀ e, last (log_ n) = Some e → req = proposal_request e n → success resp = true →
         acked h3 p (current_term_ n) (log_ n))).
  { intros r c G2 h2 s2 S2 HI2 HE Hi2 [= <- <-]. exists (end_exchange (i, p) s2), G2, h2.
    assert (Hx2 : exchanges s2 !! (i, p) = Some (req, Some r)) by apply lookup_insert_eq.
    split_and!; try done.
    - eapply rtc_l; [exact S1|]. eapply rtc_l; [exact S2|]. by eapply rtc_once, s_drop.
    - by apply end_exchange_inv.
    - apply idle_end with (s := s); [done|]. intros k Hk. cbn. by rewrite !lookup_insert_ne.
    - intros e He Ereq Hs. destruct (si_exchange _ _ _ _ HI2 _ _ _ _ Hx2) as (M & Hok).
      pose proof (eo_done _ _ _ _ _ _ _ _ Hok r eq_refl Hs) as HA. rewrite Ereq in Hok, HA.
      rewrite (proposal_exchange G2 h2 s2 i p n e _ M HI2 Hi2 Hr He Hok) in HA. by exists (log_ n). }
  unfold AppendEntries in Hrpc. destruct (nodes (net s) !! p) as [m|] eqn:Hm.
  - destruct (deliver_inv members Hmembers G h s1 i p req m HI1 Hx Hm) as (G2 & h2 & HE & HI2).
    apply (Hend (OnAppendEntries req m).1 (with_node p (OnAppendEntries req m).2 (net s)) G2 h2);
      [exact (s_deliver s1 i p req m Hx Hm)|exact HI2|done| |].
    + cbn. by rewrite lookup_insert_ne.
    + by destruct (OnAppendEntries req m).
  - apply (Hend (mkAppendResp (ae_term req) false) (net s) G h);
      [exact (s_down s1 i p req Hx)|by apply reject_inv|done|done|done].
Qed.

(** ** The loops over the peers *)

Lemma proposal_goes_on acks resp n st n1 :
  on_proposal_response acks resp n = (st, n1) → st ≠ Fails → n1 = n.
Proof. unfold on_proposal_response. intros E Hne. repeat case_match; by simplify_eq. Qed.

Lemma replicate_run i n e ps : ∀ G h s acks Q r t',
  SInv G h s → idle s i → at_ s i = Some n → role_ n = Leader → ps ⊆ peers_ n →
  last (log_ n) = Some e → NoDup (ps ++ Q) → (N.of_nat (length Q) + 1)%N = acks →
  (∀ v, v ∈ Q → acked h v (current_term_ n) (log_ n)) →
  replicate_rounds i (proposal_request e n) acks ps (nodes (net s)) = (Some r, t') →
  ∃ s' G' h' Q', rtc serial s s' ∧ nodes (net s') = t' ∧ SInv G' h' s' ∧ extends h h' ∧ idle s' i ∧
    at_ s' i = Some n ∧ NoDup Q' ∧ Q' ⊆ ps ++ Q ∧ (N.of_nat (length Q') + 1)%N = r ∧
    (∀ v, v ∈ Q' → acked h' v (current_term_ n) (log_ n)).
Proof.
  induction ps as [|p ps IH]; intros G h s acks Q r t' HI Hidle Hn Hr Hps He ND Hacks HQ Hrun.
  { unfold replicate_rounds, mret, ST_ret in Hrun. simplify_eq. exists s, G, h, Q. by split_and!. }
  cbn [replicate_rounds] in Hrun. unfold mbind, ST_bind, mret, ST_ret in Hrun.
  destruct (AppendEntries p (proposal_request e n) (nodes (net s))) as [resp t1] eqn:Hrpc.
  destruct (request_run G h s i p n (proposal_request e n) resp t1)
    as (s1 & G1 & h1 & R1 & <- & HI1 & HE1 & Hidle1 & Hn1 & Hack); try done.
  { apply Hps, list_elem_of_here. }
  { by apply entry_request. }
  unfold at_node in Hrun. pose proof Hn1 as Hn1'. unfold at_ in Hn1'. rewrite Hn1' in Hrun.
  destruct (on_proposal_response acks resp n) as [st n1] eqn:Hst.
  set (Q1 := if success resp then p :: Q else Q).
  apply NoDup_cons in ND as [HpQ ND].
  assert (ND1 : NoDup (ps ++ Q1)).
  { unfold Q1. destruct (success resp); [|done]. rewrite <-Permutation_middle. by apply NoDup_cons. }
  assert (HQ1 : ∀ v, v ∈ Q1 → acked h1 v (current_term_ n) (log_ n)).
  { intros v Hv. unfold Q1 in Hv. destruct (success resp) eqn:Hs; [|by eapply acked_mono; [|auto]].
    apply elem_of_cons in Hv as [->|Hv]; [by eapply Hack|]. eapply acked_mono; [done|auto]. }
  assert (Hlen : ∀ a, st = Enough a ∨ st = Continue a → (N.of_nat (length Q1) + 1)%N = a).
  { intros a Ha. rewrite (proposal_response_acks _ _ _ _ _ _ Hst Ha). unfold Q1.
    destruct (success resp); cbn; lia. }
  assert (Hsub : ps ++ Q1 ⊆ (p :: ps) ++ Q) by (unfold Q1; destruct (success resp); set_solver).
  destruct st as [|a|a]; [done|..]; rewrite (proposal_goes_on _ _ _ _ _ Hst), insert_id in Hrun by done.
  - injection Hrun as <- <-. exists s1, G1, h1, Q1. split_and!; try done.
    + by apply NoDup_app in ND1 as (_ & _ & ?).
    + set_solver.
    + apply Hlen. by left.
  - destruct (IH G1 h1 s1 a Q1 r t') as (s2 & G2 & h2 & Q2 & R2 & ? & ? & ? & ? & ? & ? & ? & ? & ?); try done.
    { intros q Hq. apply Hps. by right. }
    { apply Hlen. by right. }
    exists s2, G2, h2, Q2. split_and!; try done; by etransitivity.
Qed.

Lemma commit_response_step G h s i resp n :
  SInv G h s → at_ s i = Some n → serial s (set_node i (on_commit_response resp n).2 s).
Proof.
  intros HI Hn. apply (s_local_one s _ i n (on_commit_response resp n).2); [|done|done|].
  - by apply step_commit_response.
  - unfold on_commit_response. destruct (_ <? _)%N; (split_and!; [done|done|by left]).
Qed.

Lemma commit_run i n ps : ∀ G h s,
  SInv G h s → idle s i → at_ s i = Some n → role_ n = Leader → ps ⊆ peers_ n →
  ∃ s', rtc serial s s' ∧ nodes (net s') = (commit_rounds i (commit_request n) ps (nodes (net s))).2.
Proof.
  induction ps as [|p ps IH]; intros G h s HI Hidle Hn Hr Hps; [by exists s|].
  cbn [commit_rounds]. unfold mbind, ST_bind, mret, ST_ret.
  destruct (AppendEntries p (commit_request n) (nodes (net s))) as [resp t1] eqn:Hrpc.
  destruct (request_run G h s i p n (commit_request n) resp t1)
    as (s1 & G1 & h1 & R1 & <- & HI1 & _ & Hidle1 & Hn1 & _); try done.
  { apply Hps, list_elem_of_here. }
  { apply commit_notice. }
  unfold at_node. pose proof Hn1 as Hn1'. unfold at_ in Hn1'. rewrite Hn1'.
  pose proof (commit_response_step G1 h1 s1 i resp n HI1 Hn1) as S2.
  unfold on_commit_response in *. destruct (current_term_ n <? aer_term resp)%N.
  - eexists. split; [eapply rtc_r; [exact R1|exact S2]|done].
  - rewrite insert_id by done. destruct (IH G1 h1 s1) as (s2 & R2 & E2); try done.
    { intros q Hq. apply Hps. by right. }
    exists s2. split; [by etransitivity|done].
Qed.

(** ** A proposal *)

Lemma propose_run G h s i n entry t' :
  SInv G h s → idle s i → at_ s i = Some n → term (entry n) = current_term_ n →
  fits 63 (N.of_nat (length (log_ n) + 1)) →
  Propose i entry (nodes (net s)) = (true, t') →
  ∃ s', rtc serial s s' ∧ nodes (net s') = t' ∧
    ∃ G' h', SInv G' h' s' ∧ replicated members h' (current_term_ n) (log_ n ++ [entry n]).
Proof.
  intros HI Hidle Hn Et Hf Hrun. unfold Propose in Hrun. pose proof Hn as Hn0. unfold at_ in Hn0.
  rewrite Hn0 in Hrun. destruct (IsLeaderLocked n) eqn:Hlead; [|done]. cbn [negb] in Hrun.
  assert (Hr : role_ n = Leader) by (by apply bool_decide_eq_true in Hlead).
  cbv zeta in Hrun. set (n1 := append_proposal (entry n) n) in *.
  pose proof (propose_inv members Hmembers G h s i (entry n) n HI Hn Hr Et Hf) as HI1.
  assert (S1 : serial s (set_node i n1 s)) by (by apply s_propose).
  fold n1 in HI1. set (h1 := lead _ _ _ h) in HI1. set (s1 := set_node i n1 s) in *.
  change (<[i:=n1]> (nodes (net s))) with (nodes (net s1)) in Hrun.
  pose proof (si_votes _ _ _ _ HI) as V. destruct (inv_node _ _ _ V i n Hn) as [_ Hperm].
  pose proof Hmembers as ND. rewrite <-Hperm in ND. apply NoDup_cons in ND as [Hip NDp].
  destruct (replicate_rounds i (proposal_request (entry n) n1) 1 (peers_ n1) (nodes (net s1)))
    as [[r|] t2] eqn:Hrep; [|done].
  destruct (replicate_run i n1 (entry n) (peers_ n1) G h1 s1 1 [] r t2)
    as (s2 & G2 & h2 & Q & R2 & <- & HI2 & _ & Hidle2 & Hn2 & NDQ & HQ & Hlen & HA); try done.
  { apply at_set_same. }
  { apply last_snoc. }
  { by rewrite app_nil_r. }
  { by intros v Hv%not_elem_of_nil. }
  rewrite app_nil_r in HQ. destruct (N.ltb_spec r (needed n1)) as [|Hneed]; [done|].
  pose proof Hn2 as Hn2'. unfold at_ in Hn2'. rewrite Hn2' in Hrun.
  assert (HR : replicated members h2 (current_term_ n) (log_ n ++ [entry n])).
  { split; [by destruct (log_ n)|]. split; [by rewrite last_term_snoc|]. exists (i :: Q). split_and!.
    - apply NoDup_cons. split; [|done]. intros Hin. by apply Hip, HQ.
    - rewrite <-Hperm. intros v [->|Hv]%elem_of_cons; [apply list_elem_of_here|].
      by apply list_elem_of_further, HQ.
    - rewrite <-(needed_quorum members Hmembers n i Hperm). cbn [length].
      change (needed n1) with (needed n) in Hneed. lia.
    - intros v [->|Hv]%elem_of_cons; [|by apply HA]. exists (log_ n1).
      split; [by apply (no_leader _ _ _ _ (si_node _ _ _ _ HI2 i n1 Hn2))|done]. }
  destruct (commit_run i n1 (peers_ n1) G2 h2 s2) as (s3 & R3 & E3); try done.
  destruct (commit_rounds i (commit_request n1) (peers_ n1) (nodes (net s2))) as [u t3].
  injection Hrun as <-. exists s3. split_and!; [|done|].
  - eapply rtc_l; [exact S1|]. by etransitivity.
  - destruct (run_inv members Hmembers Hodd _ _ _ _ HI2 R3) as (G3 & h3 & HE & HI3).
    exists G3, h3. split; [done|]. by eapply replicated_mono.
Qed.

End Proposals.

(** ** Properties *)

(** C4: An acknowledged proposal survives.  Take a cluster of an odd number of nodes
    whose exchanges, before and after the proposal, are serialised (one request at a time to each peer, built
    while the node leads and, for a proposal, while its entry is still the last of the
    log; each response processed by a leader of the request's term).  A
    proposal that returns true, at a leader that has no other request in flight and
    with no other thread in between, leaves its entry where no later event of the run
    can undo it: every leader of its term or a later one has the entry at its index,
    with all that precedes it, and no node ever commits anything else there.  The code
    enforces none of these conditions, and without them an acknowledged entry can be
    lost ([delayed_request_loses_commit] in [RaftDelay], [acknowledged_entry_cut] in
    [RaftConcurrent]). *)
Theorem acknowledged_proposal_survives members c s i n entry t' :
  initial members c → Nat.Odd (length members) → rtc serial (start c) s → idle s i →
  at_ s i = Some n → term (entry n) = current_term_ n → fits 63 (N.of_nat (length (log_ n) + 1)) →
  Propose i entry (nodes (net s)) = (true, t') →
  ∃ s', rtc serial s s' ∧ nodes (net s') = t' ∧
    ∀ s2 j m, rtc serial s' s2 → at_ s2 j = Some m →
      (role_ m = Leader → (current_term_ n ≤ current_term_ m)%N →
         log_ n ++ [entry n] `prefix_of` log_ m) ∧
      (committed m `prefix_of` log_ n ++ [entry n] ∨ log_ n ++ [entry n] `prefix_of` committed m).
Proof.
  intros Hc Hodd R Hidle Hn Et Hf Hrun. pose proof Hc as (Hnd & _).
  destruct (reachable_inv members Hnd Hodd c s Hc R) as (G & h & HI).
  destruct (propose_run members Hnd Hodd G h s i n entry t' HI Hidle Hn Et Hf Hrun)
    as (s' & R' & E' & G' & h' & HI' & HR).
  exists s'. split; [done|]. split; [done|]. intros s2 j m R2 Hm.
  destruct (run_inv members Hnd Hodd _ _ _ _ HI' R2) as (G2 & h2 & HE & HI2).
  assert (HS : settled members h2 (current_term_ n) (log_ n ++ [entry n])).
  { right. exists (current_term_ n), (log_ n ++ [entry n]). split_and!; [|done|done].
    by eapply replicated_mono. }
  split.
  - intros Hr Hle. by apply (settled_in_leader members Hnd G2 h2 s2 (current_term_ n) _ j m HI2).
  - apply (settled_comparable members Hnd G2 h2 (current_term_ m) (current_term_ n)); [apply HI2| |done].
    by eapply committed_settled.
Qed.

(** ** Witness: a put acknowledged by node 1's cluster *)

Lemma example_proposal :
  ∃ s n t', rtc serial (start example_cluster) s ∧ exchanges s = ∅ ∧ at_ s 1%Z = Some n ∧ log_ n = [] ∧
    current_term_ n = 1%N ∧ ProposePut 1 (b# "k") (b# "v") (nodes (net s)) = (true, t').
Proof.
  eexists _, _, _. split_and!.
  - elect 1%Z 2%Z. apply rtc_refl.
  - vm_compute. reflexivity.
  - vm_compute. reflexivity.
  - reflexivity.
  - reflexivity.
  - vm_compute. reflexivity.
Qed.

Lemma acknowledged_proposal_survives_witness :
  ∃ s t', ProposePut 1 (b# "k") (b# "v") (nodes (net s)) = (true, t') ∧
  ∃ s', rtc serial s s' ∧ nodes (net s') = t' ∧
    ∀ s2 j m, rtc serial s' s2 → at_ s2 j = Some m → role_ m = Leader →
      (1 ≤ current_term_ m)%N → [mkLogEntry 1 Put (b# "k") (b# "v")] `prefix_of` log_ m.
Proof.
  destruct example_proposal as (s & n & t' & R & Hx & Hn & Hl & Ht & Hrun).
  exists s, t'. split; [exact Hrun|].
  destruct (acknowledged_proposal_survives example_members example_cluster s 1%Z n
    (put_entry (b# "k") (b# "v")) t' example_initial example_odd R) as (s' & R' & E' & H); try assumption.
  - intros p. by rewrite Hx.
  - reflexivity.
  - by rewrite Hl.
  - exists s'. split; [exact R'|]. split; [exact E'|]. intros s2 j m R2 Hm Hr Hle.
    destruct (H s2 j m R2 Hm) as [H1 _]. unfold put_entry in H1. rewrite Hl, Ht in H1. by apply H1.
Defined.

End RaftProposal.
