(* ===== verification/RaftDelay.v ===== *)
(** * What a delayed request undoes

    Runs of the functions of [Raft] outside the disciplines of [RaftLog] and
    [RaftSerial].  A proposal's request that is overtaken by the heartbeats of its own
    leader truncates the follower it reaches: an entry that was committed and
    acknowledged is lost, and another one is committed at its index.  A response from
    an earlier term is counted.  A request that a deposed leader builds late puts its
    entry behind entries it never followed. *)

From S2P Require Import Prelude CxxString Raft RaftElection RaftSerial.

Module RaftDelay.
Import Raft RaftElection RaftSerial.

Definition entry_a : LogEntry := mkLogEntry 1 Put (b# "a") (b# "1").
Definition entry_b : LogEntry := mkLogEntry 1 Put (b# "b") (b# "2").
Definition entry_c : LogEntry := mkLogEntry 2 Put (b# "c") (b# "3").

Definition committed_at (t : Transport) (i : Z) : option (list LogEntry) := committed <$> t !! i.
Definition leads_at (t : Transport) (i : Z) : Prop := role_ <$> t !! i = Some Leader.

(** Node 1 leads and has appended entry a, whose proposal has built its request
    for node 2. *)
Definition elected_1 : Transport := (run_election 1 (nodes example_cluster)).2.
Definition leader_1 : RaftNode := append_proposal entry_a (default (make 1 []) (elected_1 !! 1%Z)).
Definition late_request : AppendEntriesReq := proposal_request entry_a leader_1.

(** Before it arrives, a heartbeat brings the entry to both peers, a put of b is
    acknowledged, and the next heartbeat to node 2 commits both. *)
Definition replicated_a : Transport := (heartbeat_rounds 1 [2; 3]%Z (<[1%Z := leader_1]> elected_1)).2.
Definition put_b : bool * Transport := ProposePut 1 (b# "b") (b# "2") replicated_a.
Definition committed_b : Transport := (heartbeat_rounds 1 [2]%Z put_b.2).2.

(** Now the request arrives at node 2, which is then elected by node 3, and a put
    of c is acknowledged and committed. *)
Definition truncated : Transport := (AppendEntries 2 late_request committed_b).2.
Definition elected_2 : Transport := (run_election 2 truncated).2.
Definition put_c : bool * Transport := ProposePut 2 (b# "c") (b# "3") elected_2.
Definition committed_c : Transport := (heartbeat_rounds 2 [3]%Z put_c.2).2.

(** A delayed request loses a committed entry.  The code lets the request of a
    proposal reach a follower after later entries have: the follower drops them,
    although they may be committed.  In this run the put of b is acknowledged and
    committed at index 2, and afterwards the put of c is acknowledged and committed
    at the same index. *)
Theorem delayed_request_loses_commit :
  leads_at elected_1 1 ∧ put_b.1 = true ∧
  committed_at committed_b 1 = Some [entry_a; entry_b] ∧
  (AppendEntries 2 late_request committed_b).1 = mkAppendResp 1 true ∧
  leads_at elected_2 2 ∧ put_c.1 = true ∧
  committed_at committed_c 2 = Some [entry_a; entry_c].
Proof. vm_compute. by split_and!. Qed.

(** ** A stale response *)

Definition five : Transport :=
  <[1%Z := make 1 [2; 4; 3; 5]%Z]> (<[2%Z := make 2 [1; 3; 4; 5]%Z]> (<[3%Z := make 3 [1; 2; 4; 5]%Z]>
    (<[4%Z := make 4 [1; 2; 3; 5]%Z]> {[5%Z := make 5 [1; 2; 3; 4]%Z]}))).

Definition entry_x : LogEntry := mkLogEntry 2 Put (b# "x") (b# "1").
Definition entry_y : LogEntry := mkLogEntry 3 Put (b# "y") (b# "2").
Definition entry_z : LogEntry := mkLogEntry 4 Put (b# "z") (b# "3").

(** Runs a section of node [i] whose result is not used. *)
Definition section_at (i : Z) (f : RaftNode → RaftNode) (t : Transport) : Transport :=
  (at_node i tt (λ n, (tt, f n)) t).2.

(** Node 1 leads term 1 with two entries, and has sent them to node 2. *)
Definition first_leader : Transport :=
  section_at 1 (append_proposal entry_b) (section_at 1 (append_proposal entry_a) (run_election 1 five).2).
Definition stale_request : AppendEntriesReq :=
  BuildAppendEntriesLocked 2 (default (make 1 []) (first_leader !! 1%Z)).
Definition stale_response : AppendEntriesResp := (AppendEntries 2 stale_request first_leader).1.

(** While the response is on its way, node 3, after an attempt in term 1, leads
    term 2 and replaces the two entries by x; node 1 is elected again and appends y. *)
Definition third_leads : Transport :=
  (run_election 3 (run_election 3 (AppendEntries 2 stale_request first_leader).2).2).2.
Definition replaced : Transport :=
  (heartbeat_rounds 3 [4]%Z (ProposePut 3 (b# "x") (b# "1") third_leads).2).2.
Definition second_leader : Transport :=
  section_at 1 (append_proposal entry_y) (run_election 1 replaced).2.

(** The response arrives, and the heartbeat loop goes on to node 4. *)
Definition counted : Transport :=
  (heartbeat_rounds 1 [4]%Z
    (section_at 1 (on_heartbeat_response 2 stale_request stale_response) second_leader)).2.

(** Node 2 is elected in term 4, and z is acknowledged and committed. *)
Definition put_z : bool * Transport := ProposePut 2 (b# "z") (b# "3") (run_election 2 counted).2.
Definition committed_z : Transport := (heartbeat_rounds 2 [1; 3]%Z put_z.2).2.

(** A stale response is counted.  The heartbeat loop processes a response without
    checking that the node still leads in the term of the request.  In this run of
    five nodes a response from term 1 counts in term 3 for an entry that its sender
    never had: y is committed at index 2 by two nodes of five, and later z is
    committed at the same index. *)
Theorem stale_response_loses_commit :
  stale_response = mkAppendResp 1 true ∧
  leads_at second_leader 1 ∧ log_ <$> counted !! 2%Z = Some [entry_x] ∧
  committed_at counted 1 = Some [entry_x; entry_y] ∧
  put_z.1 = true ∧ committed_at committed_z 2 = Some [entry_x; entry_z].
Proof. vm_compute. by split_and!. Qed.

(** ** A request built by a deposed leader *)

Definition five_in_order : Transport :=
  <[1%Z := make 1 [2; 3; 4; 5]%Z]> (<[2%Z := make 2 [1; 3; 4; 5]%Z]> (<[3%Z := make 3 [2; 5; 1; 4]%Z]>
    (<[4%Z := make 4 [1; 2; 3; 5]%Z]> {[5%Z := make 5 [1; 2; 3; 4]%Z]}))).

Definition entry_d : LogEntry := mkLogEntry 2 Put (b# "d") (b# "4").

(** Node 1 leads term 1 and has appended a; the proposal of b has appended its entry
    and not yet built its request; a heartbeat brings both to node 4. *)
Definition waiting_b : Transport :=
  (heartbeat_rounds 1 [4]%Z (section_at 1 (append_proposal entry_b) (section_at 1 (append_proposal entry_a)
    (run_election 1 five_in_order).2))).2.

(** Node 3 is elected in term 2, stores x at nodes 2 and 5, appends d, and replaces the
    log of node 1 by its own. *)
Definition overtaken_b : Transport :=
  (heartbeat_rounds 3 [1]%Z (section_at 3 (append_proposal entry_d)
    (ProposePut 3 (b# "x") (b# "1") (run_election 3 waiting_b).2).2)).2.

(** Now the proposal of b builds its request, at node 1, and sends it to node 2. *)
Definition deposed_request : AppendEntriesReq :=
  proposal_request entry_b (default (make 1 []) (overtaken_b !! 1%Z)).
Definition diverged : Transport := (AppendEntries 2 deposed_request overtaken_b).2.

(** A late request diverges.  The second section of a proposal checks neither that the
    node still leads nor that its log still ends with the entry.  In this run there is
    one proposal at a time at each node; the request of b carries the new term, and
    nodes 2 and 4 end up with an entry of term 1 at index 2 after different entries. *)
Theorem late_request_diverges :
  leads_at waiting_b 1 ∧ leads_at overtaken_b 3 ∧ role_ <$> overtaken_b !! 1%Z = Some Follower ∧
  (AppendEntries 2 deposed_request overtaken_b).1 = mkAppendResp 2 true ∧
  log_ <$> diverged !! 2%Z = Some [entry_x; entry_b] ∧
  log_ <$> diverged !! 4%Z = Some [entry_a; entry_b] ∧
  term entry_b = 1%N ∧ entry_x ≠ entry_a.
Proof. vm_compute. by split_and!. Qed.

End RaftDelay.
