(* ===== verification/Server.v ===== *)
(** * The line protocol

    Models the parts of the servers that are not socket calls: the loop that cuts
    a connection's bytes into lines and [handle_command] of [server_main.cpp] and
    [cluster_demo.cpp], and the redirection of [kv_client.cpp].  A chunk is what
    one [read] returns; the responses are the bytes given to [write], in order.  The
    accept loops and the mains are in [Startup]. *)

From S2P Require Import Prelude CxxString FileSystem Wal KVStore KVWrites Raft.
Import CxxString.

Module Server.

(** ** Lines of a connection *)

(** [if (!line.empty() && line.back() == '\r') line.pop_back()]. *)
Definition chomp (line : str) : str :=
  match last line with
  | Some c => if decide (c = chr 13) then take (length line - 1) line else line
  | None => line
  end.

(** The inner loop from position [pos]: the lines handled, and [pending] after
    [pending.erase(0, pos)].  A round with a newline moves [pos] beyond it. *)
Fixpoint take_lines (fuel : nat) (pending : str) (pos : nat) : list str * str :=
  match fuel with
  | O => ([], substr_from pending pos)
  | S fuel =>
      match find nl pending pos with
      | None => ([], substr_from pending pos)
      | Some i =>
          let line := chomp (substr pending pos (i - pos)) in
          let '(ls, rest) := take_lines fuel pending (i + 1) in
          (line :: ls, rest)
      end
  end.

Section Connection.
Context {St : Type} (handle : str → ST St str).

(** Handles the lines in order; the responses are written one after another. *)
Fixpoint handle_lines (ls : list str) : ST St str :=
  match ls with
  | [] => mret []
  | l :: ls' =>
      r ← handle l;
      rs ← handle_lines ls';
      mret (r ++ rs)
  end.

(** One [read] of the connection: its state is the unfinished line. *)
Definition on_read (chunk pending : str) : ST St (str * str) :=
  let pending := pending ++ chunk in
  let '(ls, rest) := take_lines (S (length pending)) pending 0 in
  rs ← handle_lines ls;
  mret (rs, rest).

(** A connection from its first read to its end of file. *)
Fixpoint serve (chunks : list str) (pending : str) : ST St str :=
  match chunks with
  | [] => mret []
  | c :: cs =>
      '(r, pending) ← on_read c pending;
      rs ← serve cs pending;
      mret (r ++ rs)
  end.

End Connection.

(** ** Commands *)

(** The server's process: its store and the nodes of the in-process cluster. *)
Record Process := mkProcess { store : KVStore.KVStore; world : World; cluster : Raft.Transport }.

Abbreviation proc := (ST Process).

Definition on_store {A} (m : ST (KVStore.KVStore * World) A) : proc A := λ p,
  let '(a, (s, w)) := m (store p, world p) in (a, mkProcess s w (cluster p)).
Definition on_cluster {A} (m : ST Raft.Transport A) : proc A := λ p,
  let '(a, t) := m (cluster p) in (a, mkProcess (store p) (world p) t).

(** [iss >> s]: the word and the unread rest; an empty word when it fails. *)
Definition next_word (s : str) : str * str := default ([], []) (read_word s).

(** The node behind the pointer to node [id], which may be null. *)
Definition this_node (raft : option Z) (t : Raft.Transport) : option Raft.RaftNode :=
  match raft with Some id => t !! id | None => None end.

(** [raft && raft->role() == RaftRole::Leader]. *)
Definition is_leader (raft : option Z) (t : Raft.Transport) : bool :=
  match this_node raft t with
  | Some n => bool_decide (Raft.role_ n = Raft.Leader)
  | None => false
  end.

Definition line (s : string) : str := list_ascii_of_string s ++ [nl].

Definition get_response (v : option str) : str :=
  match v with
  | Some v => b# "VALUE " ++ v ++ [nl]
  | None => line "NOT_FOUND"
  end.

(** *** [kv_server] *)

Module KvServer.

Definition handle_command (raft : option Z) (l : str) : proc str := λ p,
  let leads := is_leader raft (cluster p) in
  let '(cmd, iss) := next_word l in
  if decide (cmd = b# "PUT") then
    if negb leads then (line "NOT_LEADER", p)
    else
      let '(k, iss) := next_word iss in
      let '(v, _) := next_word iss in
      if bool_decide (k = []) || bool_decide (v = []) then (line "ERR usage: PUT key value", p)
      else match raft with
           | None => (line "NOT_LEADER", p)
           | Some id =>
               let '(ok, p) := on_cluster (Raft.ProposePut id k v) p in
               (if (ok : bool) then line "OK" else line "FAIL", p)
           end
  else if decide (cmd = b# "GET") then
    let '(k, _) := next_word iss in
    if bool_decide (k = []) then (line "ERR usage: GET key", p)
    else (get_response (KVStore.get k (store p)), p)
  else if decide (cmd = b# "DEL") then
    if negb leads then (line "NOT_LEADER", p)
    else
      let '(k, _) := next_word iss in
      if bool_decide (k = []) then (line "ERR usage: DEL key", p)
      else match raft with
           | None => (line "NOT_LEADER", p)
           | Some id =>
               let '(ok, p) := on_cluster (Raft.ProposeDel id k) p in
               (if (ok : bool) then line "OK" else line "NOT_FOUND", p)
           end
  else if decide (cmd = b# "SIZE") then
    (b# "SIZE " ++ dec (KVStore.size (store p)) ++ [nl], p)
  else if decide (cmd = b# "FLUSH") then
    let '(ok, p) := on_store KVStore.flush_wal p in
    (if (ok : bool) then line "FLUSH_OK" else line "FLUSH_FAIL", p)
  else if decide (cmd = b# "PING") then (line "PONG", p)
  else if decide (cmd = b# "STATUS") then
    match raft with
    | None => (line "ROLE UNKNOWN", p)
    | Some _ => (if leads then line "ROLE LEADER" else line "ROLE FOLLOWER", p)
    end
  else (line "ERR unknown command", p).

(** [main] calls it with this pointer. *)
Definition raft : option Z := None.

(** [main]'s loop over one connection. *)
Definition connection (chunks : list str) : proc str := serve (handle_command raft) chunks [].

End KvServer.

(** *** [cluster_demo] *)

Module ClusterDemo.

Definition port_for_node (node_id : Z) : Z :=
  match node_id with
  | 1 => 9101
  | 2 => 9102
  | 3 => 9103
  | _ => -1
  end%Z.

(** The answer of a node that does not lead. *)
Definition not_leader (raft : option Z) (t : Raft.Transport) : str :=
  let leader_port :=
    match this_node raft t ≫= Raft.leader_id_ with
    | Some l => port_for_node l
    | None => (-1)%Z
    end in
  if (0 <? leader_port)%Z
  then b# "NOT_LEADER " ++ dec (Z.to_N leader_port) ++ [nl]
  else line "NOT_LEADER UNKNOWN".

Definition handle_command (raft : option Z) (l : str) : proc str := λ p,
  let '(cmd, iss) := next_word l in
  let leads := is_leader raft (cluster p) in
  if decide (cmd = b# "PUT") then
    let '(k, iss) := next_word iss in
    let '(v, _) := next_word iss in
    if bool_decide (k = []) || bool_decide (v = []) then (line "ERR usage: PUT key value", p)
    else match raft, leads with
         | Some id, true =>
             let '(ok, p) := on_cluster (Raft.ProposePut id k v) p in
             (if (ok : bool) then line "OK" else line "FAIL", p)
         | _, _ => (not_leader raft (cluster p), p)
         end
  else if decide (cmd = b# "GET") then
    let '(k, _) := next_word iss in
    if bool_decide (k = []) then (line "ERR usage: GET key", p)
    else (get_response (KVStore.get k (store p)), p)
  else if decide (cmd = b# "DEL") then
    let '(k, _) := next_word iss in
    if bool_decide (k = []) then (line "ERR usage: DEL key", p)
    else match raft, leads with
         | Some id, true =>
             let '(ok, p) := on_cluster (Raft.ProposeDel id k) p in
             (if (ok : bool) then line "OK" else line "NOT_FOUND", p)
         | _, _ => (not_leader raft (cluster p), p)
         end
  else if decide (cmd = b# "SIZE") then
    (b# "SIZE " ++ dec (KVStore.size (store p)) ++ [nl], p)
  else if decide (cmd = b# "STATUS") then
    match raft with
    | None => (line "ROLE UNKNOWN", p)
    | Some _ => (if leads then line "ROLE LEADER" else line "ROLE FOLLOWER", p)
    end
  else if decide (cmd = b# "PING") then (line "PONG", p)
  else if decide (cmd = b# "KILL") then
    match raft with
    | None => (line "ERR no raft", p)
    | Some id =>
        on_cluster (Raft.at_node id (line "STOPPED") (λ n, (line "STOPPED", Raft.Stop n))) p
    end
  else (line "ERR unknown command", p).

(** The connection loop of [run_server]. *)
Definition connection (raft : option Z) (chunks : list str) : proc str :=
  serve (handle_command raft) chunks [].

(** The cluster of [main], started. *)
Definition initial_cluster : Raft.Transport :=
  Raft.Start <$> Raft.Register (Raft.make 3 [1; 2]%Z)
    (Raft.Register (Raft.make 2 [1; 3]%Z) (Raft.Register (Raft.make 1 [2; 3]%Z) ∅)).

End ClusterDemo.

(** *** [kv_client] *)

(** [iss >> n] for an [int]: 0 when no number is read, the nearest limit when it
    is out of range. *)
Definition read_int (s : str) : Z :=
  let '(neg, s1) :=
    match skip_ws s with
    | c :: s' =>
        if decide (c = "-"%char) then (true, s')
        else if decide (c = "+"%char) then (false, s') else (false, c :: s')
    | [] => (false, [])
    end in
  match read_digits s1 0 0 with
  | (O, _, _) => 0
  | (_, n, _) =>
      let z := if neg : bool then (- Z.of_N n)%Z else Z.of_N n in
      Z.max (- 2 ^ 31) (Z.min (2 ^ 31 - 1) z)
  end%Z.

(** The port the client sends its command to again, if it does. *)
Definition redirect (resp : str) : option Z :=
  if starts_with (b# "NOT_LEADER ") resp then
    let '(_, iss) := next_word resp in
    let leader_port := read_int iss in
    if (0 <? leader_port)%Z then Some leader_port else None
  else None.

(** ** Framing *)

(** The complete lines of a string and the rest: what [take_lines] computes. *)
Fixpoint complete (s : str) : list str * str :=
  match s with
  | [] => ([], [])
  | c :: s' =>
      let '(ls, rest) := complete s' in
      if decide (c = nl) then ([] :: ls, rest)
      else match ls with
           | [] => ([], c :: rest)
           | l :: ls' => ((c :: l) :: ls', rest)
           end
  end.

Lemma complete_line l s : nl ∉ l → complete (l ++ nl :: s) = (l :: (complete s).1, (complete s).2).
Proof.
  induction l as [|c l IH]; intros Hl; simpl.
  - by destruct (complete s).
  - apply not_elem_of_cons in Hl as [Hc Hl]. rewrite IH by done. by rewrite decide_False by congruence.
Qed.

Lemma complete_none s : nl ∉ s → complete s = ([], s).
Proof.
  induction s as [|c s IH]; intros Hs; [done|]. apply not_elem_of_cons in Hs as [Hc Hs]. simpl.
  rewrite IH by done. by rewrite decide_False by congruence.
Qed.

Lemma complete_app a b :
  complete (a ++ b) =
    ((complete a).1 ++ (complete ((complete a).2 ++ b)).1, (complete ((complete a).2 ++ b)).2).
Proof.
  induction a as [|c a IH]; simpl; [by destruct (complete b)|]. rewrite IH.
  destruct (complete a) as [ls rest]. cbn [fst snd].
  destruct (decide (c = nl)) as [->|Hc]; [done|].
  destruct ls as [|l ls]; cbn [fst snd app complete].
  - destruct (complete (rest ++ b)) as [[|l1 ls1] r1]; cbn [fst snd]; by rewrite decide_False by done.
  - by destruct (complete (rest ++ b)).
Qed.

Lemma complete_rest s : nl ∉ (complete s).2.
Proof.
  induction s as [|c s IH]; simpl; [apply not_elem_of_nil|]. destruct (complete s) as [ls rest].
  cbn [snd] in IH. destruct (decide (c = nl)); [done|].
  destruct ls; [|done]. apply not_elem_of_cons. split; [congruence|done].
Qed.

Lemma take_lines_run fuel : ∀ s pos,
  length s - pos < fuel →
  take_lines fuel s pos = (chomp <$> (complete (drop pos s)).1, (complete (drop pos s)).2).
Proof.
  induction fuel as [|fuel IH]; intros s pos Hf; [lia|]. cbn [take_lines].
  pose proof (find_from_split nl s 0 pos) as Hs. unfold find. rewrite Nat.sub_0_r in Hs.
  destruct (find_from nl s 0 pos) as [i|].
  - destruct Hs as (l & r & Hs & Hl & Hi & Hb). rewrite Nat.max_r in Hi by lia.
    rewrite IH by lia. unfold substr. replace (i - pos) with (length l) by lia.
    replace (drop (i + 1) s) with r.
    + rewrite Hs, complete_line by done. by rewrite take_app_length.
    + replace (i + 1) with (pos + S (length l)) by lia. rewrite <-drop_drop, Hs.
      replace (l ++ nl :: r) with ((l ++ [nl]) ++ r) by (by rewrite <-app_assoc).
      rewrite drop_app_length' by (rewrite length_app; cbn; lia). done.
  - by rewrite complete_none.
Qed.

Section Framing.
Context {St : Type} (handle : str → ST St str).

Lemma handle_lines_app ls1 ls2 st :
  handle_lines handle (ls1 ++ ls2) st =
    let '(r1, st) := handle_lines handle ls1 st in
    let '(r2, st) := handle_lines handle ls2 st in (r1 ++ r2, st).
Proof using.
  revert st. induction ls1 as [|l ls1 IH]; intros st; cbn [app handle_lines].
  - unfold_st. by destruct (handle_lines handle ls2 st).
  - unfold_st. destruct (handle l st) as [r st1]. unfold mbind, ST_bind in IH. rewrite IH.
    destruct (handle_lines handle ls1 st1) as [r1 st2].
    destruct (handle_lines handle ls2 st2) as [r2 st3]. by rewrite app_assoc.
Qed.

Lemma on_read_run chunk pending st :
  on_read handle chunk pending st =
    let '(rs, st') := handle_lines handle (chomp <$> (complete (pending ++ chunk)).1) st in
    ((rs, (complete (pending ++ chunk)).2), st').
Proof using.
  unfold on_read. rewrite take_lines_run by lia. done.
Qed.

(** With an unfinished line pending, the connection handles the complete lines
    of what follows it. *)
Lemma serve_run chunks : ∀ pending st,
  nl ∉ pending →
  serve handle chunks pending st =
    handle_lines handle (chomp <$> (complete (pending ++ concat chunks)).1) st.
Proof using.
  induction chunks as [|c cs IH]; intros pending st Hp; cbn [serve concat].
  - rewrite app_nil_r, complete_none by done. done.
  - unfold mbind, ST_bind, mret, ST_ret. rewrite on_read_run, app_assoc, (complete_app (pending ++ c)).
    cbn [fst]. rewrite fmap_app, handle_lines_app.
    destruct (handle_lines handle (chomp <$> (complete (pending ++ c)).1) st) as [r1 st1].
    cbv beta iota. rewrite IH; [done|apply complete_rest].
Qed.

End Framing.


Lemma complete_lines ls rest :
  Forall (λ l, nl ∉ l) ls → nl ∉ rest →
  complete (concat ((λ l, l ++ [nl]) <$> ls) ++ rest) = (ls, rest).
Proof.
  intros Hls Hr. induction Hls as [|l ls Hl _ IH]; [by apply complete_none|].
  rewrite fmap_cons. cbn [concat].
  rewrite <-!app_assoc. cbn [app]. rewrite complete_line by done. by rewrite IH.
Qed.

(** ** Commands as the client writes them *)

Lemma span_word_all w : word w → span_word w = (w, []).
Proof. induction 1 as [|c w Hc _ IH]; simpl; [done|]. by rewrite Hc, IH. Qed.

Lemma next_word_all w : word w → w ≠ [] → next_word w = (w, []).
Proof.
  intros Hw Hne. unfold next_word, read_word. destruct w as [|c w]; [done|].
  rewrite skip_ws_head by (by inversion Hw). by rewrite span_word_all.
Qed.

Lemma next_word_app w c r :
  word w → w ≠ [] → is_space c = true → next_word (w ++ c :: r) = (w, c :: r).
Proof. intros. unfold next_word. by rewrite read_word_app. Qed.

Lemma next_word_skip c s : is_space c = true → next_word (c :: s) = next_word s.
Proof. intros H. unfold next_word, read_word. by rewrite skip_ws_space. Qed.

Lemma word_dec w : forallb (λ c, negb (is_space c)) w = true → word w.
Proof.
  induction w as [|c w IH]; intros H; [constructor|]. cbn in H. apply andb_true_iff in H as [Hc Hw].
  constructor; [by destruct (is_space c)|by apply IH].
Qed.

Definition sp : ascii := " "%char.

(** The two arguments of a command line. *)
Lemma two_words cmd k v :
  word cmd → cmd ≠ [] → word k → k ≠ [] → word v → v ≠ [] →
  next_word (cmd ++ sp :: k ++ sp :: v) = (cmd, sp :: k ++ sp :: v) ∧
  next_word (sp :: k ++ sp :: v) = (k, sp :: v) ∧ next_word (sp :: v) = (v, []).
Proof.
  intros. split_and!.
  - by apply next_word_app.
  - rewrite next_word_skip by done. by apply next_word_app.
  - rewrite next_word_skip by done. by apply next_word_all.
Qed.

Lemma line_eq s : line s = list_ascii_of_string s ++ [nl].
Proof. done. Qed.

(** ** What the stand-alone server does to its process *)

Lemma without_raft l p :
  let p' := (KvServer.handle_command None l p).2 in
  KVStore.map_ (store p') = KVStore.map_ (store p) ∧ cluster p' = cluster p.
Proof.
  unfold KvServer.handle_command. cbn [is_leader this_node negb].
  destruct (next_word l) as [cmd iss].
  repeat case_decide; try done.
  - by destruct (next_word iss) as [k r]; case_bool_decide.
  - unfold on_store, KVStore.flush_wal. KVWrites.run_kv.
    destruct p as [s w t]. cbn [store world cluster fst snd].
    destruct (Wal.flush (KVStore.wal_ s) w) as [[b l'] w']. by destruct b.
Qed.

Lemma lines_without_raft ls p :
  let p' := (handle_lines (KvServer.handle_command None) ls p).2 in
  KVStore.map_ (store p') = KVStore.map_ (store p) ∧ cluster p' = cluster p.
Proof.
  revert p. induction ls as [|l ls IH]; intros p; [done|]. cbn [handle_lines].
  unfold mbind, ST_bind, mret, ST_ret. pose proof (without_raft l p) as H1.
  destruct (KvServer.handle_command None l p) as [r p1]. specialize (IH p1).
  destruct (handle_lines _ ls p1) as [rs p2]. cbn [snd] in *.
  destruct H1, IH. split; congruence.
Qed.

(** ** Responses *)

(** One line, with its newline at the end. *)
Definition one_line (r : str) : Prop := ∃ l, r = l ++ [nl] ∧ nl ∉ l.

Lemma one_line_lit s :
  bool_decide (nl ∈ list_ascii_of_string s) = false → one_line (line s).
Proof. intros H. exists (list_ascii_of_string s). by case_bool_decide. Qed.

Lemma one_line_app a b : nl ∉ a → nl ∉ b → one_line (a ++ b ++ [nl]).
Proof. intros Ha Hb. exists (a ++ b). rewrite <-app_assoc. split; [done|]. rewrite elem_of_app. tauto. Qed.

(** A response that is a literal line. *)
Ltac lit := apply one_line_lit; reflexivity.

Lemma not_leader_line raft t : one_line (ClusterDemo.not_leader raft t).
Proof.
  unfold ClusterDemo.not_leader. destruct (0 <? _)%Z; [|lit].
  apply one_line_app; [|apply dec_no_nl]. by apply (bool_decide_unpack _).
Qed.

Lemma get_response_line v : (∀ x, v = Some x → nl ∉ x) → one_line (get_response v).
Proof.
  intros Hv. unfold get_response. destruct v; [|lit].
  apply one_line_app; [by apply (bool_decide_unpack _)|by apply Hv].
Qed.

(** ** Properties *)

(** C38: Framing.  Whatever the reads of a connection return piecewise, the
    server handles exactly the complete lines that were sent, each once and in
    order, and answers with their responses in that order. *)
Theorem framing_ignores_chunks {St : Type} (handle : str → ST St str) chunks ls rest st :
  concat chunks = concat ((λ l, l ++ [nl]) <$> ls) ++ rest →
  Forall (λ l, nl ∉ l) ls → nl ∉ rest →
  serve handle chunks [] st = handle_lines handle (chomp <$> ls) st.
Proof.
  intros Hc Hls Hr. rewrite serve_run by apply not_elem_of_nil. cbn [app].
  by rewrite Hc, complete_lines.
Qed.

(** The stand-alone server accepts no write: its Raft pointer is null, so it
    answers every [PUT] and [DEL] with [NOT_LEADER], and no connection changes
    the map of its store. *)
Theorem stand_alone_server_is_read_only chunks p :
  (∀ args, (KvServer.handle_command KvServer.raft (b# "PUT" ++ sp :: args) p).1 = line "NOT_LEADER" ∧
           (KvServer.handle_command KvServer.raft (b# "DEL" ++ sp :: args) p).1 = line "NOT_LEADER") ∧
  KVStore.map_ (store (KvServer.connection chunks p).2) = KVStore.map_ (store p) ∧
  cluster (KvServer.connection chunks p).2 = cluster p.
Proof.
  split.
  - intros args. unfold KvServer.handle_command.
    rewrite !next_word_app by (first [by apply word_dec|done]). done.
  - unfold KvServer.connection. rewrite serve_run by apply not_elem_of_nil. apply lines_without_raft.
Qed.

(** Redirection.  A cluster node that does not lead but knows the leader
    answers a well-formed [PUT] with a redirection from which the client reads
    the leader's port, without touching the cluster; the leader itself runs the
    proposal for exactly the words of the command. *)
Theorem put_command_routed id n k v p :
  cluster p !! id = Some n → word k → k ≠ [] → word v → v ≠ [] →
  let '(resp, p') := ClusterDemo.handle_command (Some id) (b# "PUT" ++ sp :: k ++ sp :: v) p in
  (Raft.role_ n = Raft.Leader →
     p' = (on_cluster (Raft.ProposePut id k v) p).2 ∧
     resp = if (on_cluster (Raft.ProposePut id k v) p).1 then line "OK" else line "FAIL") ∧
  (∀ l, Raft.role_ n ≠ Raft.Leader → Raft.leader_id_ n = Some l → (1 ≤ l ≤ 3)%Z →
     p' = p ∧ redirect resp = Some (ClusterDemo.port_for_node l)) ∧
  (Raft.role_ n ≠ Raft.Leader → Raft.leader_id_ n = None → p' = p ∧ redirect resp = None).
Proof.
  intros Hn Hk Hkne Hv Hvne. unfold ClusterDemo.handle_command.
  destruct (two_words (b# "PUT") k v) as (-> & -> & ->); try done; [by apply word_dec|].
  rewrite decide_True by done. rewrite !bool_decide_eq_false_2 by done. cbn [orb].
  unfold is_leader, this_node. rewrite Hn. case_bool_decide as Hrole.
  - destruct (on_cluster _ p) as [ok p']. done.
  - split_and!; try done; unfold ClusterDemo.not_leader, this_node; rewrite Hn; cbn [mbind option_bind].
    + intros l _ -> Hl. split; [done|].
      assert (l = 1 ∨ l = 2 ∨ l = 3)%Z as [->|[->| ->]] by lia; vm_compute; done.
    + intros _ ->. split; [done|]. vm_compute. done.
Qed.

(** Every response of a cluster node is exactly one line, as long as no
    stored value contains a newline. *)
Theorem responses_are_lines raft l p :
  (∀ k v, KVStore.map_ (store p) !! k = Some v → nl ∉ v) →
  one_line (ClusterDemo.handle_command raft l p).1.
Proof.
  intros Hm. unfold ClusterDemo.handle_command. destruct (next_word l) as [cmd iss].
  repeat case_decide.
  - destruct (next_word iss) as [k iss']. destruct (next_word iss') as [v iss''].
    destruct (_ || _); [lit|].
    destruct raft as [id|]; [|apply not_leader_line]. destruct (is_leader _ _); [|apply not_leader_line].
    destruct (on_cluster _ p) as [[] p']; lit.
  - destruct (next_word iss) as [k iss']. case_bool_decide; [lit|].
    apply get_response_line. intros x. apply Hm.
  - destruct (next_word iss) as [k iss']. case_bool_decide; [lit|].
    destruct raft as [id|]; [|apply not_leader_line]. destruct (is_leader _ _); [|apply not_leader_line].
    destruct (on_cluster _ p) as [[] p']; lit.
  - apply one_line_app; [by apply (bool_decide_unpack _)|apply dec_no_nl].
  - destruct raft; [|lit]. destruct (is_leader _ _); lit.
  - lit.
  - destruct raft as [id|]; [|lit]. unfold on_cluster, Raft.at_node.
    destruct (cluster p !! id); lit.
  - lit.
Qed.

(** ** Witnesses *)

(** Two commands that arrive in four pieces, the second unfinished line ignored. *)
Lemma framing_ignores_chunks_witness :
  let handle (l : str) (n : N) := (l ++ [nl], (n + 1)%N) in
  serve handle [b# "PI"; b# "NG" ++ [chr 13]; [nl] ++ b# "SIZE"; [nl] ++ b# "GE"] [] 0%N =
  (b# "PING" ++ [nl] ++ b# "SIZE" ++ [nl], 2%N).
Proof.
  cbv zeta. rewrite (framing_ignores_chunks _ _ [b# "PING" ++ [chr 13]; b# "SIZE"] (b# "GE"));
    [vm_compute; reflexivity|vm_compute; reflexivity| |];
    by apply (bool_decide_unpack _).
Defined.

(** Node 2 has learnt that node 1 leads. *)
Definition example_process : Process :=
  mkProcess KVStore.new_store (mkWorld ∅ [])
    (<[2%Z := Raft.set_election Raft.Follower (Some 1%Z) 1 None (Raft.make 2 [1; 3]%Z)]>
       ClusterDemo.initial_cluster).

Lemma put_command_routed_witness :
  redirect (ClusterDemo.handle_command (Some 2%Z) (b# "PUT k v") example_process).1 = Some 9101%Z.
Proof.
  pose proof (put_command_routed 2 (Raft.set_election Raft.Follower (Some 1%Z) 1 None (Raft.make 2 [1; 3]%Z))
    (b# "k") (b# "v") example_process) as P.
  change (b# "PUT k v") with (b# "PUT" ++ sp :: b# "k" ++ sp :: b# "v").
  destruct (ClusterDemo.handle_command _ _ _) as [resp p'].
  destruct P as (_ & P & _);
    [reflexivity|repeat constructor|discriminate|repeat constructor|discriminate|].
  apply (P 1%Z); [discriminate|reflexivity|lia].
Defined.

End Server.
