(* ===== verification/Client.v ===== *)
(** * The client and the cluster's servers

    Models the rest of [kv_client.cpp], with what it meets in [cluster_demo.cpp]:
    a system of three stores, their nodes and the servers that listen for them, and
    the client that sends it a command and follows one redirection.  What the socket calls do is
    an argument: they fail, or carry some bytes of the command and of the
    answer. *)

From S2P Require Import Prelude CxxString FileSystem KVStore Raft RaftSpec Server.
Import CxxString.

Module Client.
Import Server.

(** ** The servers *)

(** The stores by node, what is outside the processes, and the nodes. *)
Record System := mkSystem { stores : gmap Z KVStore.KVStore; disk : World; nodes : Raft.Transport }.

(** The three stores and nodes of [main], started. *)
Definition initial_system (w : World) : System :=
  mkSystem (<[1 := KVStore.new_store]> (<[2 := KVStore.new_store]> {[3 := KVStore.new_store]}))%Z w
    ClusterDemo.initial_cluster.

(** The threads of [main]: the port and the node of each [run_server]. *)
Definition servers : list (Z * Z) := [(9101, 1); (9102, 2); (9103, 3)]%Z.

Definition server_on (port : Z) : option Z :=
  (λ x, x.2.2) <$> list_find (λ s, s.1 = port) servers.

(** One accepted connection of the server of node [id]: what it writes while it
    reads these chunks. *)
Definition accept (id : Z) (chunks : list str) : ST System str := λ sys,
  match stores sys !! id with
  | None => ([], sys)
  | Some s =>
      let '(out, p) := ClusterDemo.connection (Some id) chunks (mkProcess s (disk sys) (nodes sys)) in
      (out, mkSystem (<[id := store p]> (stores sys)) (world p) (cluster p))
  end.

(** ** The client *)

(** What the calls of one [send_command] do: [Talk sent received] connects, writes
    the first [sent] bytes in one call, and reads at most [received] bytes. *)
Inductive Socket := NoSocket | NoConnect | Talk (sent received : nat).

(** [std::string(buf)]: up to the first null character. *)
Definition c_string (buf : str) : str := (until (chr 0) buf).1.

Definition send_command (o : Socket) (port : Z) (cmd : str) : ST System str :=
  match o with
  | NoSocket => mret (line "ERR socket")
  | NoConnect => mret (line "ERR connect")
  | Talk sent received =>
      match server_on (port mod 2 ^ 16)%Z with     (* [static_cast<uint16_t>(port)] *)
      | None => mret (line "ERR connect")
      | Some id =>
          out ← accept id [take sent (cmd ++ [nl])];
          let buf := take (Nat.min received 4095) out in
          mret (if decide (buf = []) then line "ERR read" else c_string buf)
      end
  end.

(** Standard output, standard error and the exit status; the arguments without the
    program's name. *)
Definition main (o1 o2 : Socket) (args : list str) : ST System (str * str * Z) :=
  match args with
  | arg1 :: cmd :: _ =>
      let port := read_int arg1 in
      resp ← send_command o1 port cmd;
      let out := b# "response: " ++ resp in
      match redirect resp with
      | Some leader_port =>
          let out := out ++ b# "redirecting to " ++ dec (Z.to_N leader_port) ++ [nl] in
          resp2 ← send_command o2 leader_port cmd;
          mret (out ++ b# "response: " ++ resp2, [], 0%Z)
      | None => mret (out, [], 0%Z)
      end
  | _ => mret ([], b# "usage: kv_client <port> " ++ [chr 34] ++ b# "COMMAND" ++ [chr 34; nl], 1%Z)
  end.

(** ** Lemmas *)

Definition put_command (k v : str) : str := b# "PUT" ++ sp :: k ++ sp :: v.

Lemma put_command_line k v :
  word k → word v → v ≠ [] → nl ∉ put_command k v ∧ chomp (put_command k v) = put_command k v.
Proof.
  intros Hk Hv Hne. unfold put_command. split.
  - rewrite !elem_of_app, elem_of_cons, elem_of_app, elem_of_cons.
    pose proof (word_not_elem nl k eq_refl Hk). pose proof (word_not_elem nl v eq_refl Hv).
    intros [H1|[H1|[H1|[H1|H1]]]]; try done. revert H1. by apply (bool_decide_unpack _).
  - unfold chomp. destruct (last (b# "PUT" ++ sp :: k ++ sp :: v)) as [c|] eqn:E; [|done].
    rewrite decide_False; [done|]. intros ->.
    destruct (exists_last Hne) as (v' & c & ->).
    replace (b# "PUT" ++ sp :: k ++ sp :: v' ++ [c]) with ((b# "PUT" ++ sp :: k ++ sp :: v') ++ [c]) in E
      by (by rewrite <-!app_assoc; cbn; rewrite <-!app_assoc).
    rewrite last_snoc in E. injection E as ->. apply Forall_app in Hv as [_ Hv].
    by apply Forall_cons in Hv as [? _].
Qed.

(** A command that is carried whole, and its answer too. *)
Lemma send_put sent received port id s t r sys k v :
  word k → word v → v ≠ [] →
  server_on (port mod 2 ^ 16) = Some id → stores sys !! id = Some s →
  ClusterDemo.handle_command (Some id) (put_command k v) (mkProcess s (disk sys) (nodes sys)) =
    (r, mkProcess s (disk sys) t) →
  length (put_command k v) < sent → r ≠ [] → chr 0 ∉ r → length r ≤ Nat.min received 4095 →
  send_command (Talk sent received) port (put_command k v) sys = (r, mkSystem (stores sys) (disk sys) t).
Proof.
  intros Hk Hv Hne Hport Hs Hrun Hsent Hr H0 Hlen. unfold send_command. rewrite Hport.
  destruct (put_command_line k v) as [Hnl Hch]; try done.
  rewrite (take_ge (put_command k v ++ [nl])) by (rewrite length_app; change (length [nl]) with 1; lia).
  unfold mbind, ST_bind, accept. rewrite Hs. unfold ClusterDemo.connection.
  rewrite serve_run by apply not_elem_of_nil. cbn [concat app]. rewrite app_nil_r, complete_line by done.
  cbn [fst complete fmap list_fmap]. rewrite Hch. cbn [handle_lines].
  unfold mbind, ST_bind. rewrite Hrun. unfold mret, ST_ret. cbn [store world cluster].
  rewrite app_nil_r, take_ge by done. rewrite decide_False by done.
  unfold c_string. rewrite until_none by done. by rewrite insert_id.
Qed.

(** Node [id] has its place in the system. *)
Definition node_id (id : Z) : Prop := (1 ≤ id ≤ 3)%Z.

Lemma node_port id : node_id id →
  server_on (ClusterDemo.port_for_node id mod 2 ^ 16) = Some id ∧
  read_int (dec (Z.to_N (ClusterDemo.port_for_node id))) = ClusterDemo.port_for_node id.
Proof. intros ?. assert (id = 1 ∨ id = 2 ∨ id = 3)%Z as [->|[->| ->]] by (unfold node_id in *; lia); done. Qed.

(** Every node knows that [l] leads. *)
Record led_by (l : Z) (sys : System) : Prop := mkLed {
  led_leader : ∃ n, nodes sys !! l = Some n ∧ Raft.role_ n = Raft.Leader ∧ NoDup (l :: Raft.peers_ n);
  led_others i : node_id i → i ≠ l → ∃ n, nodes sys !! i = Some n ∧
    Raft.role_ n ≠ Raft.Leader ∧ Raft.leader_id_ n = Some l;
  led_stores i : node_id i → is_Some (stores sys !! i);
}.

Definition not_leader_response (l : Z) : str :=
  b# "NOT_LEADER " ++ dec (Z.to_N (ClusterDemo.port_for_node l)) ++ [nl].

Lemma follower_answers i l n s w t k v :
  t !! i = Some n → Raft.role_ n ≠ Raft.Leader → Raft.leader_id_ n = Some l → node_id l →
  word k → k ≠ [] → word v → v ≠ [] →
  ClusterDemo.handle_command (Some i) (put_command k v) (mkProcess s w t) =
    (not_leader_response l, mkProcess s w t).
Proof.
  intros Hn Hr Hl Hid Hk Hkne Hv Hvne. unfold ClusterDemo.handle_command, put_command.
  destruct (two_words (b# "PUT") k v) as (-> & -> & ->); try done; [by apply word_dec|].
  rewrite decide_True by done. rewrite !bool_decide_eq_false_2 by done. cbn [orb].
  unfold is_leader, this_node. cbn [cluster]. rewrite Hn, bool_decide_eq_false_2 by done.
  unfold ClusterDemo.not_leader, this_node. rewrite Hn. cbn [mbind option_bind]. rewrite Hl.
  rewrite (proj2 (Z.ltb_lt _ _)); [done|].
  assert (l = 1 ∨ l = 2 ∨ l = 3)%Z as [->|[->| ->]] by (unfold node_id in *; lia); done.
Qed.

Lemma leader_answers l n s w t k v :
  t !! l = Some n → Raft.role_ n = Raft.Leader → word k → k ≠ [] → word v → v ≠ [] →
  ClusterDemo.handle_command (Some l) (put_command k v) (mkProcess s w t) =
    (if (Raft.ProposePut l k v t).1 then line "OK" else line "FAIL",
     mkProcess s w (Raft.ProposePut l k v t).2).
Proof.
  intros Hn Hr Hk Hkne Hv Hvne. unfold ClusterDemo.handle_command, put_command.
  destruct (two_words (b# "PUT") k v) as (-> & -> & ->); try done; [by apply word_dec|].
  rewrite decide_True by done. rewrite !bool_decide_eq_false_2 by done. cbn [orb].
  unfold is_leader, this_node. cbn [cluster]. rewrite Hn, bool_decide_eq_true_2 by done.
  unfold on_cluster. cbn [cluster store world]. by destruct (Raft.ProposePut l k v t).
Qed.

Lemma redirect_of_response l : node_id l →
  redirect (not_leader_response l) = Some (ClusterDemo.port_for_node l) ∧
  chr 0 ∉ not_leader_response l ∧ length (not_leader_response l) = 16.
Proof.
  intros ?. assert (l = 1 ∨ l = 2 ∨ l = 3)%Z as [->|[->| ->]] by (unfold node_id in *; lia);
    (split; [vm_compute; reflexivity|]); (split; [by apply (bool_decide_unpack _)|reflexivity]).
Qed.

(** C39: A client's put reaches the leader.  When every node knows the leader, the
    client that is given the port of any node and a [PUT] of two words, over
    connections that carry the command and each answer whole, in one read, exits with 0 and prints the leader's answer
    after at most one redirection; the stores and the disk are as before and the
    nodes are those after the leader's proposal, which runs with no other thread in
    between; and when the answer is then OK, the entry is in the logs of a majority of
    the cluster.  An answer cut by the read may misdirect the client
    ([short_read_misdirects]), and other threads may leave less than a majority
    ([acknowledged_entry_cut] in [RaftConcurrent]). *)
Theorem client_put_replicated l i k v s1 r1 s2 r2 sys :
  node_id l → node_id i → led_by l sys → word k → k ≠ [] → word v → v ≠ [] →
  length (put_command k v) < s1 → length (put_command k v) < s2 → 16 ≤ r1 → 16 ≤ r2 →
  let t' := (Raft.ProposePut l k v (nodes sys)).2 in
  let '((out, err, status), sys') := main (Talk s1 r1) (Talk s2 r2)
    [dec (Z.to_N (ClusterDemo.port_for_node i)); put_command k v] sys in
  status = 0%Z ∧ err = [] ∧ sys' = mkSystem (stores sys) (disk sys) t' ∧
  ∃ answer, out = (if decide (i = l) then [] else
      b# "response: " ++ not_leader_response l ++
      b# "redirecting to " ++ dec (Z.to_N (ClusterDemo.port_for_node l)) ++ [nl]) ++
      b# "response: " ++ answer ∧
    (answer = line "FAIL" ∨ answer = line "OK" ∧ ∃ n Q, nodes sys !! l = Some n ∧
       NoDup (l :: Q) ∧ Q ⊆ Raft.peers_ n ∧ (Raft.needed n ≤ N.of_nat (length (l :: Q)))%N ∧
       RaftSpec.hold t' (length (Raft.log_ n)) (Raft.put_entry k v n) (l :: Q)).
Proof.
  intros Hl Hi [(n & Hn & Hrole & ND) Ho Hst] Hk Hkne Hv Hvne Hs1 Hs2 Hr1 Hr2. cbv zeta.
  set (t' := (Raft.ProposePut l k v (nodes sys)).2).
  set (answer := if (Raft.ProposePut l k v (nodes sys)).1 then line "OK" else line "FAIL").
  assert (Hsend : ∀ s r, length (put_command k v) < s → 16 ≤ r →
    send_command (Talk s r) (ClusterDemo.port_for_node l) (put_command k v) sys =
      (answer, mkSystem (stores sys) (disk sys) t')).
  { intros s r Hs Hr. destruct (Hst l Hl) as [st E]. destruct (node_port l Hl) as [Hp _].
    apply (send_put s r _ l st); try done; [by eapply leader_answers|..];
      unfold answer; destruct (Raft.ProposePut l k v (nodes sys)).1; cbn; try done;
      first [lia|by apply (bool_decide_unpack _)]. }
  assert (Hans : redirect answer = None).
  { unfold answer. destruct (Raft.ProposePut l k v (nodes sys)).1; reflexivity. }
  assert (Hfin : answer = line "FAIL" ∨ answer = line "OK" ∧ ∃ n Q, nodes sys !! l = Some n ∧
       NoDup (l :: Q) ∧ Q ⊆ Raft.peers_ n ∧ (Raft.needed n ≤ N.of_nat (length (l :: Q)))%N ∧
       RaftSpec.hold t' (length (Raft.log_ n)) (Raft.put_entry k v n) (l :: Q)).
  { unfold answer, t', Raft.ProposePut.
    destruct (Raft.Propose l (Raft.put_entry k v) (nodes sys)) as [[] t2] eqn:E; [right|by left].
    split; [done|]. destruct (RaftSpec.Propose_hold _ _ _ _ _ Hn ND E) as (Q & HQ). by exists n, Q. }
  unfold main. destruct (node_port i Hi) as [Hp ->]. unfold mbind, ST_bind, mret, ST_ret.
  destruct (decide (i = l)) as [->|Hne].
  - rewrite Hsend by done. rewrite Hans. split_and!; try done. by exists answer.
  - destruct (Ho i Hi Hne) as (f & Hf & Hfr & Hfl). destruct (Hst i Hi) as [st E].
    destruct (redirect_of_response l Hl) as (Hred & H0 & Hlen).
    rewrite (send_put s1 r1 _ i st (nodes sys) (not_leader_response l)); try done;
      [|by eapply follower_answers|lia].
    rewrite Hred. destruct sys as [sts d t]. cbn [stores disk nodes] in *.
    rewrite Hsend by done. split_and!; try done. exists answer. split; [|done].
    by rewrite <-!app_assoc.
Qed.

(** The client reads an answer with a single call.  A call that returns only a
    part of a redirection makes the client send the command to another port. *)
Theorem short_read_misdirects l sys s1 o2 k v n :
  node_id l → l ≠ 1%Z → nodes sys !! 1%Z = Some n → Raft.role_ n ≠ Raft.Leader →
  Raft.leader_id_ n = Some l → is_Some (stores sys !! 1%Z) →
  word k → k ≠ [] → word v → v ≠ [] → length (put_command k v) < s1 →
  let '((out, err, status), sys') := main (Talk s1 13) o2 [b# "9101"; put_command k v] sys in
  status = 0%Z ∧ nodes sys' = nodes sys ∧
  (b# "response: NOT_LEADER 91redirecting to 91" ++ [nl]) `prefix_of` out.
Proof.
  intros Hl Hl1 Hn Hr Hld [st Hst] Hk Hkne Hv Hvne Hs.
  assert (Hsend : send_command (Talk s1 13) 9101 (put_command k v) sys = (b# "NOT_LEADER 91", sys)).
  { unfold send_command. change (server_on (9101 mod 2 ^ 16)) with (Some 1%Z).
    destruct (put_command_line k v) as [Hnl Hch]; try done.
    rewrite (take_ge (put_command k v ++ [nl])) by (rewrite length_app; change (length [nl]) with 1; lia).
    unfold mbind, ST_bind, accept. rewrite Hst. unfold ClusterDemo.connection.
    rewrite serve_run by apply not_elem_of_nil. cbn [concat app]. rewrite app_nil_r, complete_line by done.
    cbn [fst complete fmap list_fmap]. rewrite Hch. cbn [handle_lines]. unfold mbind, ST_bind.
    rewrite (follower_answers 1 l n) by done. unfold mret, ST_ret. cbn [store world cluster].
    rewrite insert_id by done. destruct sys.
    assert (l = 2 ∨ l = 3)%Z as [->| ->] by (unfold node_id in *; lia); reflexivity. }
  unfold main. change (read_int (b# "9101")) with 9101%Z. unfold mbind, ST_bind. rewrite Hsend.
  change (redirect (b# "NOT_LEADER 91")) with (Some 91%Z). cbv beta iota zeta.
  assert (Ho2 : (send_command o2 91 (put_command k v) sys).2 = sys) by (by destruct o2).
  destruct (send_command o2 91 (put_command k v) sys) as [resp2 sys2]. cbn [snd] in Ho2. subst sys2.
  unfold mret, ST_ret. split; [done|]. split; [done|]. exists (b# "response: " ++ resp2). reflexivity.
Qed.

(** ** Witnesses *)

(** Node 1 leads in term 1 and the others have heard of it. *)
Definition example_system : System :=
  let follower id peers := Raft.set_election Raft.Follower (Some 1%Z) 1 (Some 1%Z) (Raft.make id peers) in
  mkSystem (stores (initial_system (mkWorld ∅ []))) (mkWorld ∅ [])
    (<[1 := Raft.BecomeLeaderLocked (Raft.set_election Raft.Candidate None 1 (Some 1) (Raft.make 1 [2; 3]))]>
      (<[2 := follower 2 [1; 3]]> {[3 := follower 3 [1; 2]]}))%Z.

Lemma example_led : led_by 1 example_system.
Proof.
  split.
  - eexists. split; [reflexivity|]. split; [reflexivity|]. by apply (bool_decide_unpack _).
  - intros i Hi Hne. assert (i = 2 ∨ i = 3)%Z as [->| ->] by (unfold node_id in *; lia);
      (eexists; split; [reflexivity|]; split; [discriminate|reflexivity]).
  - intros i Hi. assert (i = 1 ∨ i = 2 ∨ i = 3)%Z as [->|[->| ->]] by (unfold node_id in *; lia);
      by eexists.
Qed.

Lemma client_put_replicated_witness :
  let '((out, err, status), sys') := main (Talk 100 100) (Talk 100 100)
    [b# "9102"; b# "PUT k v"] example_system in
  status = 0%Z ∧ nodes sys' = (Raft.ProposePut 1 (b# "k") (b# "v") (nodes example_system)).2 ∧
  out = b# "response: NOT_LEADER 9101" ++ [nl] ++ b# "redirecting to 9101" ++ [nl] ++
        b# "response: OK" ++ [nl].
Proof.
  pose proof (client_put_replicated 1 2 (b# "k") (b# "v") 100 100 100 100 example_system) as P.
  assert (E : (main (Talk 100 100) (Talk 100 100) [b# "9102"; b# "PUT k v"] example_system).1.1.1 =
    b# "response: NOT_LEADER 9101" ++ [nl] ++ b# "redirecting to 9101" ++ [nl] ++
    b# "response: OK" ++ [nl]) by (vm_compute; reflexivity).
  change (dec (Z.to_N (ClusterDemo.port_for_node 2))) with (b# "9102") in P.
  change (put_command (b# "k") (b# "v")) with (b# "PUT k v") in P. cbv zeta in P.
  destruct (main _ _ _ example_system) as [[[out err] status] sys'].
  destruct P as (P1 & _ & P2 & _); try (cbn; lia); try discriminate; try (by repeat constructor).
  - exact example_led.
  - split; [exact P1|]. split; [by rewrite P2|exact E].
Defined.

Lemma short_read_misdirects_witness :
  let sys := mkSystem (stores example_system) (disk example_system)
    (<[1%Z := Raft.set_election Raft.Follower (Some 2%Z) 1 None (Raft.make 1 [2; 3]%Z)]> (nodes example_system)) in
  (main (Talk 100 13) NoConnect [b# "9101"; b# "PUT k v"] sys).1.2 = 0%Z.
Proof.
  cbv zeta. set (sys := mkSystem _ _ _).
  pose proof (short_read_misdirects 2 sys 100 NoConnect (b# "k") (b# "v")
    (Raft.set_election Raft.Follower (Some 2%Z) 1 None (Raft.make 1 [2; 3]%Z))) as P.
  change (put_command (b# "k") (b# "v")) with (b# "PUT k v") in P.
  destruct (main _ _ _ sys) as [[[out err] status] sys'].
  destruct P as (P1 & _); try (cbn; lia); try discriminate; try (by repeat constructor); reflexivity.
Defined.

End Client.
