(* ===== verification/Cli.v ===== *)
(** * The command-line program

    Models [main.cpp]: an interactive loop over one store.  Input is the text of
    standard input, output the bytes written to standard error, in order. *)

From S2P Require Import Prelude CxxString FileSystem MemTable Compactor Wal KVStore KVWrites KVRecovery KVSnapshot KVInterface Server.
Import CxxString.

Module Cli.
Import KVStore KVWrites.

Definition wal_file : str := b# "/tmp/kv.wal".

(** [std::cerr << n] for an [int]. *)
Definition print_int (n : Z) : str :=
  if decide (n < 0)%Z then "-"%char :: dec (Z.to_N (- n)) else dec (Z.to_N n).

(** [iss >> n] for an [int] that holds [n0] before: it is left alone when the
    stream is exhausted. *)
Definition extract_int (n0 : Z) (iss : str) : Z :=
  if decide (skip_ws iss = []) then n0 else Server.read_int iss.

Definition text (s : string) : str := list_ascii_of_string s.

Section Program.
Context `{Abi, SortVersions}.

(** The value of an uninitialised [int], and what [BENCH] prints of its timing
    after the number of operations. *)
Context (indeterminate : Z) (timing : Z → str).

(** [for (int i = 0; ...; i++) store.put(prefix + std::to_string(i), value)]. *)
Fixpoint put_loop (n : nat) (i : N) (prefix value : str) : kv unit :=
  match n with
  | O => mret tt
  | S n' => put (prefix ++ dec i) value ;; put_loop n' (i + 1) prefix value
  end.

(** One line: what it prints, and whether the loop goes on. *)
Definition command (line : str) : kv (str * bool) :=
  let '(cmd, iss) := Server.next_word line in
  if decide (cmd = b# "PUT") then
    let '(k, iss) := Server.next_word iss in
    let '(v, _) := Server.next_word iss in
    put k v ;; mret (Server.line "OK", true)
  else if decide (cmd = b# "BENCH") then
    let n := extract_int 100000 iss in
    put_loop 1000 0 (b# "warm") (b# "v") ;;
    flush_wal ;;
    put_loop (Z.to_nat n) 0 (b# "k") (b# "v") ;;
    flush_wal ;;
    mret (text "BENCH N=" ++ print_int n ++ timing n ++ [nl], true)
  else if decide (cmd = b# "SETBATCH") then
    let n := extract_int indeterminate iss in
    set_group_commit_every n ;; mret (text "OK batch=" ++ print_int n ++ [nl], true)
  else if decide (cmd = b# "GET") then
    let '(k, _) := Server.next_word iss in
    v ← get_st (get k);
    mret (default (text "(nil)") v ++ [nl], true)
  else if decide (cmd = b# "EXIT") then mret (Server.line "bye", false)
  else if decide (cmd = b# "SNAP") then
    ok ← checkpoint (b# "/tmp/kv.snapshot") wal_file;
    mret (if (ok : bool) then Server.line "SNAP OK" else Server.line "SNAP FAIL", true)
  else if decide (cmd = b# "FLUSH") then
    ok ← flush_wal;
    mret (if (ok : bool) then Server.line "FLUSH OK" else Server.line "FLUSH FAIL", true)
  else mret (Server.line "Unknown", true).

(** The [while (true)] loop over the lines of standard input. *)
Fixpoint repl (ls : list str) : kv str :=
  match ls with
  | [] => mret (text "kv> " ++ [nl] ++ Server.line "EOF")
  | l :: ls' =>
      '(out, go_on) ← command l;
      if (go_on : bool) then rest ← repl ls'; mret (text "kv> " ++ out ++ rest)
      else mret (text "kv> " ++ out)
  end.

(** The output and the exit status. *)
Definition main (input : str) : kv (str * Z) :=
  ok ← open wal_file;
  if negb ok then mret (Server.line "CLI started", 1%Z)
  else out ← repl (lines input); mret (Server.line "CLI started" ++ out, 0%Z).

(** ** The abstract program: a session on a map *)

Abbreviation Map := (gmap str str).

Fixpoint map_loop (n : nat) (i : N) (prefix value : str) (m : Map) : Map :=
  match n with
  | O => m
  | S n' => map_loop n' (i + 1) prefix value (<[prefix ++ dec i := value]> m)
  end.

Inductive Command :=
  | CPut (k v : str) | CBench (n : Z) | CSetBatch (n : Z) | CGet (k : str)
  | CExit | CSnap | CFlush | CUnknown.

#[global] Instance Command_eq_dec : EqDecision Command.
Proof. solve_decision. Defined.

Definition parse (line : str) : Command :=
  let '(cmd, iss) := Server.next_word line in
  let '(k, iss') := Server.next_word iss in
  if decide (cmd = b# "PUT") then CPut k (Server.next_word iss').1
  else if decide (cmd = b# "BENCH") then CBench (extract_int 100000 iss)
  else if decide (cmd = b# "SETBATCH") then CSetBatch (extract_int indeterminate iss)
  else if decide (cmd = b# "GET") then CGet k
  else if decide (cmd = b# "EXIT") then CExit
  else if decide (cmd = b# "SNAP") then CSnap
  else if decide (cmd = b# "FLUSH") then CFlush
  else CUnknown.

Definition effect (c : Command) (m : Map) : Map :=
  match c with
  | CPut k v => <[k := v]> m
  | CBench n => map_loop (Z.to_nat n) 0 (b# "k") (b# "v") (map_loop 1000 0 (b# "warm") (b# "v") m)
  | _ => m
  end.

Definition answer (c : Command) (m : Map) : str :=
  match c with
  | CPut _ _ => Server.line "OK"
  | CBench n => text "BENCH N=" ++ print_int n ++ timing n ++ [nl]
  | CSetBatch n => text "OK batch=" ++ print_int n ++ [nl]
  | CGet k => default (text "(nil)") (m !! k) ++ [nl]
  | CExit => Server.line "bye"
  | CSnap => Server.line "SNAP OK"
  | CFlush => Server.line "FLUSH OK"
  | CUnknown => Server.line "Unknown"
  end.

(** The output of a session and the map it leaves. *)
Fixpoint session (cs : list Command) (m : Map) : str * Map :=
  match cs with
  | [] => (text "kv> " ++ [nl] ++ Server.line "EOF", m)
  | CExit :: _ => (text "kv> " ++ answer CExit m, m)
  | c :: cs' =>
      let '(out, m') := session cs' (effect c m) in (text "kv> " ++ answer c m ++ out, m')
  end.

(** ** Lemmas *)

(** An open store with an open log, in a world without failures. *)
Definition calm (e : KVStore * World) : Prop := KVInterface.store_ready e ∧ faults e.2 = [].

Lemma finish_calm n e : calm e → calm (finish n e).2 ∧ map_ (finish n e).2.1 = map_ e.1.
Proof using.
  destruct e as [s w]. intros [Hr Hw]. destruct (KVInterface.finish_ready n s w Hr) as [Hr' Hm].
  split; [|done]. split; [done|]. destruct (finish n (s, w)) as [b [s' w']] eqn:E. cbn.
  revert E. unfold finish. run_kv.
  destruct (maybe_flush_memtable_unlocked (s, w)) as [b1 [s1 w1]] eqn:E1.
  apply maybe_flush_frame in E1 as [_ ->]. destruct b1; cbn [negb]; [|intros; by simplify_eq].
  intros G. apply group_commit_frame in G as (l & -> & G). case_decide; [|by destruct G as (_ & _ & ->)].
  pose proof (Wal.flush_calm (wal_ s1) w Hw) as P. by rewrite G in P.
Qed.

Lemma put_calm k v e : calm e → calm (put k v e).2 ∧ map_ (put k v e).2.1 = <[k := v]> (map_ e.1).
Proof using.
  destruct e as [s w]. intros [[Ho Hfd] Hw]. rewrite put_run by done. cbn [snd].
  destruct (finish_calm (next_seq s) (applied (put_record k v s) s, w)) as [C Hm]; [done|].
  split; [done|]. by rewrite Hm.
Qed.

Lemma flush_wal_calm e : calm e → (flush_wal e).1 = true ∧ calm (flush_wal e).2 ∧ map_ (flush_wal e).2.1 = map_ e.1.
Proof using.
  destruct e as [s w]. intros [[Ho Hfd] Hw]. cbn [fst snd] in *.
  destruct (Wal.fd_ (wal_ s)) as [pos|] eqn:Ep; [|done].
  destruct (Wal.flush_reliable (wal_ s) pos w Ep) as (l & w' & E); [unfold Wal.reliable; by rewrite Hw|].
  pose proof (KVInterface.flush_fd (wal_ s) w) as P1. pose proof (Wal.flush_calm (wal_ s) w Hw) as P2.
  unfold flush_wal. run_kv. rewrite E in *. cbn [fst snd] in *. split; [done|].
  split; [|done]. split; [|done]. split; [done|]. apply P1. congruence.
Qed.

Lemma put_loop_calm n i p v e :
  calm e → calm (put_loop n i p v e).2 ∧
  map_ (put_loop n i p v e).2.1 = map_loop n i p v (map_ e.1).
Proof using.
  revert i e. induction n as [|n IH]; intros i e He; [done|]. cbn [put_loop map_loop].
  destruct (put_calm (p ++ dec i) v e He) as [C Hm]. unfold mbind, ST_bind.
  destruct (put (p ++ dec i) v e) as [[] e1]. cbn [fst snd] in *. rewrite <-Hm. by apply IH.
Qed.

Lemma checkpoint_calm e :
  calm e → let r := checkpoint (b# "/tmp/kv.snapshot") wal_file e in
  r.1 = true ∧ calm r.2 ∧ map_ r.2.1 = map_ e.1.
Proof using.
  destruct e as [s w]. intros [[Ho Hfd] Hw].
  destruct (KVSnapshot.checkpoint_ok (b# "/tmp/kv.snapshot") wal_file s w) as (w1 & E & Hw1 & _);
    [done|done|discriminate|]. cbv zeta. by rewrite E.
Qed.

Lemma command_refines l e :
  calm e → let '(r, e') := command l e in
  r = (answer (parse l) (map_ e.1), bool_decide (parse l ≠ CExit)) ∧
  map_ e'.1 = effect (parse l) (map_ e.1) ∧ calm e'.
Proof using.
  intros He. unfold command, parse. destruct (Server.next_word l) as [cmd iss].
  destruct (Server.next_word iss) as [k iss']. cbv zeta.
  repeat (case_decide; [subst cmd|]).
  - destruct (Server.next_word iss') as [v rest]. cbn [fst]. unfold mbind, ST_bind.
    destruct (put_calm k v e He) as [C Hm]. destruct (put k v e) as [[] e1]. done.
  - set (n := extract_int _ _). unfold mbind, ST_bind.
    destruct (put_loop_calm 1000 0 (b# "warm") (b# "v") e He) as [C1 M1].
    destruct (put_loop 1000 0 _ _ e) as [[] e1]. cbn [fst snd] in *.
    destruct (flush_wal_calm e1 C1) as (_ & C2 & M2). destruct (flush_wal e1) as [b2 e2]. cbn [fst snd] in *.
    destruct (put_loop_calm (Z.to_nat n) 0 (b# "k") (b# "v") e2 C2) as [C3 M3].
    destruct (put_loop (Z.to_nat n) 0 _ _ e2) as [[] e3]. cbn [fst snd] in *.
    destruct (flush_wal_calm e3 C3) as (_ & C4 & M4). destruct (flush_wal e3) as [b4 e4]. cbn [fst snd] in *.
    split; [done|]. split; [|done]. cbn [effect]. congruence.
  - done.
  - by destruct e.
  - done.
  - unfold mbind, ST_bind. destruct (checkpoint_calm e He) as (B & C & M).
    destruct (checkpoint _ _ e) as [b e1]. cbn [fst snd] in *. by rewrite B.
  - unfold mbind, ST_bind. destruct (flush_wal_calm e He) as (B & C & M).
    destruct (flush_wal e) as [b e1]. cbn [fst snd] in *. by rewrite B.
  - done.
Qed.

(** The loop prints what the session prints and leaves its map. *)
Lemma repl_refines ls e :
  calm e → let '(out, e') := repl ls e in
  session (parse <$> ls) (map_ e.1) = (out, map_ e'.1) ∧ calm e'.
Proof using.
  revert e. induction ls as [|l ls IH]; intros e He; [done|]. cbn [repl]. rewrite fmap_cons.
  pose proof (command_refines l e He) as P. unfold mbind, ST_bind.
  destruct (command l e) as [r e1]. destruct P as (-> & M & C).
  case_bool_decide as Hx; cycle 1.
  { rewrite Hx in *. cbn [effect] in M. cbn. by rewrite M. }
  specialize (IH e1 C). destruct (repl ls e1) as [out e2]. destruct IH as [E C2].
  split; [|done]. rewrite M in E.
  destruct (parse l); try done; cbn [session]; by rewrite E.
Qed.

(** ** Properties *)

(** C32: The command-line program is a session on a map.  Started on a disk whose
    log holds whole records, that has no snapshot and fewer than four live tables, in
    a world without failures, the program exits with
    status 0 for any input; it prints exactly what the session on the recovered
    map prints and leaves the store with the session's map: a GET prints the
    value last put under the key, SNAP and FLUSH succeed, and the session ends at
    the first EXIT or at the end of the input. *)
Theorem cli_runs_session rs w input :
  KVRecovery.disk wal_file rs w →
  let '((out, status), e') := main input (new_store, w) in
  let '(printed, m) := session (parse <$> lines input) (Wal.replayed rs).1 in
  status = 0%Z ∧ out = Server.line "CLI started" ++ printed ∧ map_ e'.1 = m.
Proof using.
  intros Hd. destruct (KVRecovery.open_disk wal_file rs w Hd) as (s & w' & E & Hh & _).
  destruct Hh as (d & b & [Hw _ _ Ho Hfd _ _ _ _ _ _] & Hm & _).
  unfold main. unfold mbind, ST_bind. rewrite E. cbn [negb].
  pose proof (repl_refines (lines input) (s, w')) as P. destruct (repl (lines input) (s, w')) as [out e'].
  destruct P as [P _]; [split; [split; cbn; congruence|done]|].
  cbn [fst] in P. rewrite Hm in P. cbn in P. by rewrite P.
Qed.

(** Writes without a log are dropped in silence.  When the store has no open
    log, as after a checkpoint that failed to reopen it, a PUT line prints OK
    and leaves the map as it was. *)
Theorem put_without_log_is_silent line k v s w :
  Wal.fd_ (wal_ s) = None → parse line = CPut k v →
  let '((out, go_on), (s', w')) := command line (s, w) in
  out = Server.line "OK" ∧ go_on = true ∧ map_ s' = map_ s ∧ memtable_ s' = memtable_ s ∧ w' = w.
Proof using.
  intros Hfd. unfold parse, command. destruct (Server.next_word line) as [cmd iss].
  destruct (Server.next_word iss) as [k' iss']. cbv zeta.
  case_decide; [|repeat case_decide; done]. intros _.
  destruct (Server.next_word iss') as [v' rest]. cbn [fst]. unfold put. run_kv.
  destruct (opened_ s); [|done]. cbn [negb fst snd]. unfold Wal.append_put, Wal.write_record.
  cbn [wal_ set_seq]. by rewrite Hfd.
Qed.

End Program.

(** ** Witnesses *)

#[local] Existing Instances libstdcxx_abi merge_sort_versions.

Definition example_lines : list str :=
  [b# "PUT a 1"; b# "GET a"; b# "SNAP"; b# "GET b"; b# "BENCH 2"; b# "FLUSH"; b# "nope"; b# "EXIT"; b# "GET a"].

Lemma cli_runs_session_witness :
  let '((out, status), e') :=
    main 0 (λ _, []) (concat ((λ l, l ++ [nl]) <$> example_lines)) (new_store, mkWorld ∅ []) in
  let '(printed, m) :=
    session (λ _, []) (parse 0 <$> lines (concat ((λ l, l ++ [nl]) <$> example_lines))) ∅ in
  status = 0%Z ∧ out = Server.line "CLI started" ++ printed ∧ map_ e'.1 = m.
Proof.
  apply (cli_runs_session 0 (λ _, []) [] (mkWorld ∅ [])).
  split; [reflexivity|reflexivity|split; vm_compute; discriminate|reflexivity|constructor|vm_compute; lia].
Defined.

Lemma put_without_log_is_silent_witness :
  let s := set_opened true new_store in
  let '((out, go_on), (s', w')) := command 0 (λ _, []) (b# "PUT a 1") (s, mkWorld ∅ []) in
  out = Server.line "OK" ∧ map_ s' = map_ s.
Proof.
  pose proof (put_without_log_is_silent 0 (λ _, []) (b# "PUT a 1") (b# "a") (b# "1")
    (set_opened true new_store) (mkWorld ∅ [])) as P. cbv zeta.
  destruct (command _ _ _ _) as [[out go_on] [s' w']].
  destruct P as (P1 & _ & P2 & _); [reflexivity|vm_compute; reflexivity|]. split; [exact P1|exact P2].
Defined.
End Cli.
