(* ===== verification/StorageDemos.v ===== *)
(** * The storage demos and benchmarks

    The example programs over the storage components, as programs of the model:
    [sstable_demo.cpp], [compactor_demo.cpp], [sstable_index_demo.cpp],
    [bloom_filter_demo.cpp], [flush_worker_demo.cpp], [mvcc_demo.cpp], and the
    operation loops of [storage_benchmark.cpp] and [sstable_benchmark.cpp].  What
    they compose are whole components: what a demo prints, and what a benchmark
    counts, follows from the components' theorems. *)

From S2P Require Import Prelude CxxString OrdMap FileSystem MemTable BloomFilter SSTable SSTableIndex SSTableReader Manifest Compactor Wal FlushWorker KVStore KVWrites KVReads KVSteps KVInterface.
Import CxxString.

Module StorageDemos.

(** What a program writes to standard output and standard error, and its exit
    status. *)
Record Exit := mkExit { cout : str; cerr : str; status : Z }.

Definition line (s : string) : str := list_ascii_of_string s ++ [nl].

(** [print_result] of the SSTable and compactor demos. *)
Definition print_result (label : str) (r : LookupResult) : str :=
  label ++ b# ": " ++
  match state r with
  | Value => default [] (result r)
  | Tombstone => b# "<deleted>"
  | NotFound => b# "<not found>"
  end ++ [nl].

(** ** The SSTable demo *)

Section Tables.
Context `{Abi, SortVersions}.

Definition demo_table : MemTable.MemTable :=
  MemTable.del (b# "beta") 4 (MemTable.put (b# "beta") 3 (b# "three")
    (MemTable.put (b# "alpha") 2 (b# "two") (MemTable.put (b# "alpha") 1 (b# "one")
      MemTable.empty_table))).

Definition sstable_demo : io Exit :=
  let entries := MemTable.snapshot_entries demo_table in
  ok ← SSTable.write (b# "demo.sst") entries;
  if negb ok then mret (mkExit [] (line "failed to write SSTable") 1)
  else
    reader ← SSTableReader.make_default (b# "demo.sst");
    let alpha1 := SSTableReader.get_at (b# "alpha") 1 reader in
    let alpha2 := SSTableReader.get_at (b# "alpha") 2 reader in
    let beta3 := SSTableReader.get_at (b# "beta") 3 reader in
    let beta4 := SSTableReader.get_at (b# "beta") 4 reader in
    mret (mkExit (line "wrote demo.sst" ++ print_result (b# "alpha@1") alpha1 ++
      print_result (b# "alpha@2") alpha2 ++ print_result (b# "beta@3") beta3 ++
      print_result (b# "beta@4") beta4) [] 0).

(** ** The compactor demo *)

Definition first_table : MemTable.MemTable :=
  MemTable.put (b# "beta") 3 (b# "three") (MemTable.put (b# "alpha") 2 (b# "two")
    (MemTable.put (b# "alpha") 1 (b# "one") MemTable.empty_table)).
Definition second_table : MemTable.MemTable :=
  MemTable.put (b# "gamma") 6 (b# "six") (MemTable.del (b# "beta") 5
    (MemTable.put (b# "alpha") 4 (b# "four") MemTable.empty_table)).

Definition first_path : str := b# "/tmp/compaction-0.sst".
Definition second_path : str := b# "/tmp/compaction-1.sst".
Definition output_path : str := b# "/tmp/compacted.sst".

Definition compactor_demo : io Exit :=
  ok ← SSTable.write first_path (MemTable.snapshot_entries first_table);
  if negb ok then mret (mkExit [] [] 1)
  else
    ok ← SSTable.write second_path (MemTable.snapshot_entries second_table);
    if negb ok then mret (mkExit [] [] 1)
    else
      ok ← Compactor.compact [first_path; second_path] output_path;
      if negb ok then mret (mkExit [] (line "compaction failed") 1)
      else
        reader ← SSTableReader.make_default output_path;
        let at_ label key t := print_result label (SSTableReader.get_at key t reader) in
        mret (mkExit (at_ (b# "alpha@1") (b# "alpha") 1%N ++ at_ (b# "alpha@2") (b# "alpha") 2%N ++
          at_ (b# "alpha@4") (b# "alpha") 4%N ++ at_ (b# "beta@3") (b# "beta") 3%N ++
          at_ (b# "beta@5") (b# "beta") 5%N ++ at_ (b# "gamma@6") (b# "gamma") 6%N) [] 0).

(** ** The index demo *)

Definition index_table : MemTable.MemTable :=
  foldl (λ m '(k, t, v), MemTable.put k t v m) MemTable.empty_table
    [(b# "alpha", 1%N, b# "one"); (b# "beta", 2%N, b# "two"); (b# "delta", 3%N, b# "three");
     (b# "epsilon", 4%N, b# "four"); (b# "gamma", 5%N, b# "five"); (b# "omega", 6%N, b# "six")].

Definition sstable_index_demo : io Exit :=
  let path := b# "/tmp/sstable-index-demo.sst" in
  ok ← SSTable.write path (MemTable.snapshot_entries index_table);
  if negb ok then mret (mkExit [] (line "failed to write SSTable") 1)
  else
    '(built, index) ← SSTableIndex.build path (SSTableIndex.make 2);
    if negb built then mret (mkExit [] (line "failed to build SSTable index") 1)
    else
      mret (mkExit (concat ((λ '(key, offset), key ++ b# " -> " ++ dec offset ++ [nl]) <$>
        SSTableIndex.entries index)) [] 0).

(** ** The Bloom filter demo *)

Definition print_bool (b : bool) : str := if b then b# "1" else b# "0".

Definition bloom_filter_demo : Exit :=
  let inserted := [b# "alpha"; b# "beta"; b# "delta"; b# "gamma"] in
  let filter := foldl (λ f key, BloomFilter.add key f) (BloomFilter.make 1024 3) inserted in
  let shown key := key ++ b# ": " ++ print_bool (BloomFilter.possibly_contains key filter) ++ [nl] in
  mkExit (concat (shown <$> inserted) ++ shown (b# "missing-key")) [] 0.

(** ** The flush worker demo *)

Definition flush_worker_demo : io Exit :=
  let '(entries, memtable) := MemTable.take_entries demo_table in
  let worker := FlushWorker.start FlushWorker.empty_worker in
  let '(queued, worker) := FlushWorker.enqueue (b# "/tmp/flush-worker-demo.sst")
    (b# "/tmp/flush-worker-demo-MANIFEST") entries worker in
  if negb queued then mret (mkExit [] (line "failed to queue flush") 1)
  else
    worker ← FlushWorker.stop worker;
    '(opened, manifest) ← Manifest.open (b# "/tmp/flush-worker-demo-MANIFEST");
    files ← Manifest.load_sstables manifest;
    mret (mkExit (b# "Manifest contains " ++ dec (N.of_nat (length files)) ++ line " SSTables" ++
      line "flush worker stopped cleanly") [] 0).

(** ** The MVCC demo *)

Definition print_value (label : str) (v : option str) : str :=
  label ++ b# ": " ++ default (b# "<deleted/not found>") v ++ [nl].

(** [sleep_for]: the worker's thread takes some steps. *)
Definition sleep_for (steps : nat) : KVStore.kv unit := λ e, (tt, Nat.iter steps KVSteps.worker_step e).

(** The store's destructor stops the worker. *)
Definition destroy (e : KVStore.KVStore * World) : World :=
  (FlushWorker.stop (KVStore.flush_worker_ e.1) e.2).2.

(** The loop over [batch], with the worker's steps during each of its naps: the
    program's four batches are a list of four. *)
Fixpoint batches (naps : list nat) (batch : N) : KVStore.kv unit :=
  match naps with
  | [] => mret tt
  | nap :: naps' =>
      KVStore.put (b# "large-" ++ dec (batch * 2)) (repeat (chr (97 + batch)) 100) ;;
      KVStore.put (b# "large-" ++ dec (batch * 2 + 1)) (repeat (chr (97 + batch)) 100) ;;
      sleep_for nap ;;
      KVStore.get_at (b# "name") 3 ;;
      batches naps' (batch + 1)
  end.

(** The four lines printed before and after the restart. *)
Definition print_versions (prefix : str) : KVStore.kv str :=
  v1 ← KVStore.get_at (b# "name") 1;
  v2 ← KVStore.get_at (b# "name") 2;
  v3 ← KVStore.get_at (b# "name") 3;
  latest ← KVStore.get_st (KVStore.get (b# "name"));
  mret (print_value (prefix ++ b# " at ts=1") v1 ++ print_value (prefix ++ b# " at ts=2") v2 ++
    print_value (prefix ++ b# " at ts=3") v3 ++ print_value (prefix ++ b# " latest") latest).

(** The first block: [None] where the program returns early, with what it has
    printed. *)
Definition mvcc_first (wal_path : str) (naps : list nat) (nap : nat) : KVStore.kv (str * option str) :=
  ok ← KVStore.open wal_path;
  if negb ok then mret ([], Some (line "Failed to open store"))
  else
    KVStore.set_group_commit_every 1 ;;
    KVStore.put (b# "name") (b# "version-1") ;;
    KVStore.put (b# "name") (b# "version-2") ;;
    KVStore.del (b# "name") ;;
    batches naps 0 ;;
    sleep_for nap ;;
    KVStore.get_at (b# "name") 3 ;;
    out ← print_versions (b# "Before restart");
    flushed ← KVStore.flush_wal;
    if negb flushed then mret (out, Some (line "Failed to flush WAL")) else mret (out, None).

Definition mvcc_demo (naps : list nat) (nap : nat) : io Exit := λ w,
  let wal_path := b# "/tmp/veristore_mvcc_test.wal" in
  let w := (FileSystem.remove wal_path w).2 in
  let '((out1, error), e) := mvcc_first wal_path naps nap (KVStore.new_store, w) in
  let w := destroy e in
  match error with
  | Some msg => (mkExit out1 msg 1, w)
  | None =>
      let out1 := out1 ++ [nl] ++ line "Restarting..." ++ [nl] in
      let '(ok, e) := KVStore.open wal_path (KVStore.new_store, w) in
      if negb ok then (mkExit out1 (line "Failed to recover store") 1, destroy e)
      else
        let '(out2, e) := print_versions (b# "After restart") e in
        let w := destroy e in
        (mkExit (out1 ++ out2) [] 0, (FileSystem.remove wal_path w).2)
  end.

(** ** The benchmarks

    The operations and the counts the programs verify; [Benchmarks] has the rest:
    the timings, what is printed and the CSV files. *)

(** [for (i = 0; i < n; ++i) if (p(i)) ++count]. *)
Fixpoint count (n : nat) (i : N) (p : N → bool) : N :=
  match n with
  | O => 0
  | S n' => ((if p i then 1 else 0) + count n' (i + 1) p)%N
  end.

Definition bench_key (i : N) : str := b# "key-" ++ dec i.
Definition bench_value (i : N) : str := b# "value-" ++ dec i.
Definition missing_key (i : N) : str := b# "missing-" ++ dec i.

(** *** [storage_benchmark] *)

Fixpoint put_keys (n : nat) (i : N) : KVStore.kv unit :=
  match n with
  | O => mret tt
  | S n' => KVStore.put (bench_key i) (bench_value i) ;; put_keys n' (i + 1)
  end.

(** The puts, then [found] and [missing], on an opened store. *)
Definition storage_counts (n : nat) : KVStore.kv (N * N) :=
  KVStore.set_group_commit_every 1000 ;;
  put_keys n 0 ;;
  KVStore.flush_wal ;;
  found ← KVStore.get_st (λ s, count n 0 (λ i, bool_decide (is_Some (KVStore.get (bench_key i) s))));
  missing ← KVStore.get_st (λ s, count n 0 (λ i, bool_decide (KVStore.get (missing_key i) s = None)));
  mret (found, missing).

(** [main] with [kOperations = n]: the exit status where it returns early. *)
Definition storage_benchmark (n : nat) : io (Exit + (N * N)) := λ w,
  let wal_path := b# "/tmp/veristore-benchmark.wal" in
  let w := (FileSystem.remove wal_path w).2 in
  let w := (FileSystem.remove (b# "/tmp/veristore-MANIFEST") w).2 in
  let '(ok, e) := KVStore.open wal_path (KVStore.new_store, w) in
  if negb ok then (inl (mkExit [] (line "Failed to open store") 1), destroy e)
  else let '(counts, e) := storage_counts n e in (inr counts, destroy e).

(** *** [sstable_benchmark] *)

Fixpoint fill (n : nat) (i : N) (m : MemTable.MemTable) : MemTable.MemTable :=
  match n with
  | O => m
  | S n' => fill n' (i + 1) (MemTable.put (bench_key i) (i + 1) (bench_value i) m)
  end.

(** [bloom_false_positives], [hit_count] and [miss_count]. *)
Definition sstable_benchmark (n : nat) : io (Exit + (N * N * N)) :=
  let path := b# "/tmp/sstable-benchmark.sst" in
  FileSystem.remove path ;;
  let memtable := fill n 0 MemTable.empty_table in
  ok ← SSTable.write path (MemTable.snapshot_entries memtable);
  if negb ok then mret (inl (mkExit [] (line "Failed to write SSTable") 1))
  else
    reader ← SSTableReader.make path 4 (N.of_nat n * 10) 7;
    let bloom_false_positives := count n 0 (λ i, SSTableReader.possibly_contains (missing_key i) reader) in
    let hit_count := count n 0 (λ i,
      bool_decide (state (SSTableReader.get_at (bench_key i) (i + 1) reader) = Value)) in
    let miss_count := count n 0 (λ i,
      bool_decide (state (SSTableReader.get_at (missing_key i) (N.of_nat n + 100) reader) = NotFound)) in
    mret (inr (bloom_false_positives, hit_count, miss_count)).

(** ** Lemmas *)

Lemma count_all n i p : (∀ j, (i ≤ j < i + N.of_nat n)%N → p j = true) → count n i p = N.of_nat n.
Proof using.
  revert i. induction n as [|n IH]; intros i Hp; [done|]. cbn [count]. rewrite Hp by lia.
  rewrite IH by (intros j Hj; apply Hp; lia). lia.
Qed.

Lemma bench_key_inj i j : bench_key i = bench_key j → i = j.
Proof using. unfold bench_key. intros E%(inj _). by apply dec_inj. Qed.

Lemma missing_ne i j : bench_key i ≠ missing_key j.
Proof using. discriminate. Qed.

Lemma put_keys_map n i e :
  KVInterface.store_ready e →
  KVInterface.store_ready (put_keys n i e).2 ∧
  (∀ j, (i ≤ j < i + N.of_nat n)%N → KVStore.get (bench_key j) (put_keys n i e).2.1 = Some (bench_value j)) ∧
  (∀ k, (∀ j, (i ≤ j < i + N.of_nat n)%N → k ≠ bench_key j) →
     KVStore.get k (put_keys n i e).2.1 = KVStore.get k e.1).
Proof using.
  revert i e. induction n as [|n IH]; intros i e He.
  { cbn. split; [done|]. split; [lia|done]. }
  cbn [put_keys]. unfold mbind, ST_bind.
  destruct (KVInterface.put_ready (bench_key i) (bench_value i) e He) as [R M].
  destruct (KVStore.put (bench_key i) (bench_value i) e) as [[] e1]. cbn [snd] in *.
  destruct (IH (i + 1)%N e1 R) as (R2 & Hin & Hout). split; [done|]. unfold KVStore.get in *. split.
  - intros j Hj. destruct (decide (j = i)) as [->|]; [|apply Hin; lia].
    rewrite Hout, M, lookup_insert_eq; [done|]. intros j Hj' E%bench_key_inj. lia.
  - intros k Hk. rewrite Hout, M, lookup_insert_ne; [done| |].
    + intros E. by apply (Hk i); [lia|].
    + intros j Hj. apply Hk. lia.
Qed.

(** The benchmark's table as a log of writes. *)
Fixpoint bench_writes (n : nat) (i : N) : list MemTable.Write :=
  match n with
  | O => []
  | S n' => MemTable.mkWrite (bench_key i) (mkVersion (i + 1) (Some (bench_value i)))
            :: bench_writes n' (i + 1)
  end.

Lemma fill_writes n i m : fill n i m = foldl MemTable.apply_write m (bench_writes n i).
Proof using. revert i m. induction n as [|n IH]; intros i m; [done|]. apply IH. Qed.

Lemma bench_writes_elem n i x :
  x ∈ bench_writes n i → ∃ j, (i ≤ j < i + N.of_nat n)%N ∧
    x = MemTable.mkWrite (bench_key j) (mkVersion (j + 1) (Some (bench_value j))).
Proof using.
  revert i. induction n as [|n IH]; intros i; cbn [bench_writes]; [by intros ?%not_elem_of_nil|].
  intros [->|Hx]%elem_of_cons; [exists i; split; [lia|done]|].
  destruct (IH _ Hx) as (j & ? & ->). exists j. split; [lia|done].
Qed.

Lemma bench_writes_sorted n i :
  StronglySorted (λ x y, timestamp (MemTable.w_version x) < timestamp (MemTable.w_version y))%N
    (bench_writes n i).
Proof using.
  revert i. induction n as [|n IH]; intros i; cbn [bench_writes]; constructor; [done|].
  apply Forall_forall. intros x (j & Hj & ->)%bench_writes_elem. cbn. lia.
Qed.

Lemma bench_row_ok j : fits 64 (j + 1) → SSTable.row_ok (bench_key j, mkVersion (j + 1) (Some (bench_value j))).
Proof using.
  intros Hj. split; split; cbn [fst snd timestamp value].
  - apply Forall_app. split; [by apply (bool_decide_unpack _)|]. apply digits_word, dec_digits.
  - discriminate.
  - done.
  - split; [|reflexivity]. unfold bench_value. rewrite not_elem_of_app.
    split; [by apply (bool_decide_unpack _)|apply dec_no_nl].
Qed.

Lemma apply_writes_ok xs m :
  Forall (λ x, SSTable.row_ok (MemTable.w_key x, MemTable.w_version x)) xs →
  SSTable.entries_ok (MemTable.entries_ m) →
  SSTable.entries_ok (MemTable.entries_ (foldl MemTable.apply_write m xs)).
Proof using.
  intros Hxs. revert m. induction Hxs as [|x xs [Hk Hv] _ IH]; intros m Hm; [done|].
  cbn [foldl]. apply IH. rewrite MemTable.apply_write_entries. by apply Compactor.push_back_ok.
Qed.

Lemma fill_ok n :
  (N.of_nat n < 2 ^ 64)%N → let m := fill n 0 MemTable.empty_table in
  MemTable.wf m ∧ SSTable.entries_ok (MemTable.entries_ m) ∧
  ∀ key t, MemTable.get_at key t m = MemTable.lookup_log key t (bench_writes n 0).
Proof using.
  intros Hn m. destruct (MemTable.run_writes_log _ (bench_writes_sorted n 0)) as [W G].
  unfold m. rewrite fill_writes. split; [done|]. split; [|done].
  apply apply_writes_ok; [|constructor]. apply Forall_forall.
  intros x (j & Hj & ->)%bench_writes_elem. apply bench_row_ok. unfold fits. lia.
Qed.

Lemma bench_write_in n i j :
  (i ≤ j < i + N.of_nat n)%N →
  MemTable.mkWrite (bench_key j) (mkVersion (j + 1) (Some (bench_value j))) ∈ bench_writes n i.
Proof using.
  revert i. induction n as [|n IH]; intros i Hj; [lia|]. cbn [bench_writes].
  destruct (decide (j = i)) as [->|]; [left|right; apply IH; lia].
Qed.

Lemma lookup_log_hit n i :
  (i < N.of_nat n)%N →
  state (MemTable.lookup_log (bench_key i) (i + 1) (bench_writes n 0)) = Value.
Proof using.
  intros Hi. unfold MemTable.lookup_log. set (l := filter _ _).
  assert (Hin : MemTable.mkWrite (bench_key i) (mkVersion (i + 1) (Some (bench_value i))) ∈ l).
  { apply list_elem_of_filter. split; [done|]. apply bench_write_in. lia. }
  destruct (last l) as [x|] eqn:E; [|apply last_None in E; rewrite E in Hin; by apply not_elem_of_nil in Hin].
  apply last_Some_elem_of, list_elem_of_filter in E as [_ (j & _ & ->)%bench_writes_elem]. done.
Qed.

Lemma lookup_log_miss n i t :
  state (MemTable.lookup_log (missing_key i) t (bench_writes n 0)) = NotFound.
Proof using.
  unfold MemTable.lookup_log. destruct (last _) as [x|] eqn:E; [|done].
  apply last_Some_elem_of, list_elem_of_filter in E as [[Hk _] (j & _ & ->)%bench_writes_elem].
  cbn in Hk. by apply missing_ne in Hk.
Qed.

(** A reader of a written table answers as the table, whatever its parameters. *)
Lemma written_reader path m stride bits hashes w :
  let e := MemTable.entries_ m in
  faults w = [] → MemTable.wf_entries e → SSTable.entries_ok e → (N.max bits 8 + 7 < 2 ^ 64)%N →
  ∃ w1 r, SSTable.write path e w = (true, w1) ∧ faults w1 = [] ∧
    SSTableReader.make path stride bits hashes w1 = (r, w1) ∧
    ∀ key t, SSTableReader.get_at key t r = MemTable.get_at key t m.
Proof using.
  intros e Hw We Ok Hb. rewrite SSTable.write_table_ok by done. eexists _, _.
  split; [done|]. split; [done|].
  split; [eapply SSTableReader.make_ok; [done|cbn; apply lookup_insert_eq]|]. intros key t.
  rewrite MemTable.get_at_versions. fold e.
  by rewrite <-(SSTableReader.get_at_render key t e (if decide (stride = 0%N) then 1%N else stride) bits hashes).
Qed.

Lemma remove_calm path w : faults w = [] → faults (FileSystem.remove path w).2 = [].
Proof using.
  intros Hw. rewrite FileSystem.remove_ok by done. by destruct (files w !! path).
Qed.

(** The compactor demo's tables are well formed, and share no timestamp. *)
Lemma demo_tables_ok :
  MemTable.wf_entries (MemTable.entries_ first_table) ∧
  MemTable.wf_entries (MemTable.entries_ second_table) ∧
  Compactor.consistent (MemTable.entries_ first_table) (MemTable.entries_ second_table).
Proof using.
  split; [split; repeat constructor; done|]. split; [split; repeat constructor; done|].
  assert (B : ∀ (P : Version → Prop) e key v,
    Forall (λ b : str * list Version, Forall P b.2) e → v ∈ MemTable.versions_of key e → P v).
  { intros P e key v HP Hv. unfold MemTable.versions_of in Hv.
    destruct (OrdMap.find key e) as [vs|] eqn:F; cbn in Hv; [|by apply not_elem_of_nil in Hv].
    apply OrdMap.find_Some_elem in F. rewrite Forall_forall in HP. specialize (HP _ F).
    by rewrite Forall_forall in HP; apply HP. }
  intros key v1 v2 H1 H2 E.
  apply (B (λ v, timestamp v ≤ 3)%N) in H1; [|by apply (bool_decide_unpack _)].
  apply (B (λ v, 4 ≤ timestamp v)%N) in H2; [|by apply (bool_decide_unpack _)]. lia.
Qed.

(** ** Properties *)

(** The demo of the SSTable prints the four values, whatever is on the disk. *)
Theorem sstable_demo_prints w :
  faults w = [] →
  (sstable_demo w).1 = mkExit (line "wrote demo.sst" ++ line "alpha@1: one" ++ line "alpha@2: two" ++
    line "beta@3: three" ++ line "beta@4: <deleted>") [] 0.
Proof using.
  intros Hw. unfold sstable_demo, MemTable.snapshot_entries.
  destruct (written_reader (b# "demo.sst") demo_table 4 8192 4 w)
    as (w1 & r & E & _ & Er & Hr); [done| |by apply (bool_decide_unpack _)|done|].
  { split; repeat constructor; done. }
  unfold mbind at 1, ST_bind at 1. rewrite E. cbn [negb]. unfold SSTableReader.make_default.
  unfold mbind, ST_bind. rewrite Er, !Hr. by vm_compute.
Qed.

(** The compactor demo prints the versions of both tables and the tombstone. *)
Theorem compactor_demo_prints w :
  faults w = [] →
  (compactor_demo w).1 = mkExit (line "alpha@1: one" ++ line "alpha@2: two" ++ line "alpha@4: four" ++
    line "beta@3: three" ++ line "beta@5: <deleted>" ++ line "gamma@6: six") [] 0.
Proof using.
  intros Hw. unfold compactor_demo, MemTable.snapshot_entries. unfold mbind, ST_bind.
  rewrite SSTable.write_table_ok by done. cbn [negb]. rewrite SSTable.write_table_ok by done. cbn [negb].
  set (e1 := MemTable.entries_ first_table). set (e2 := MemTable.entries_ second_table).
  rewrite (Compactor.compact2_ok _ _ _ e1 e2); [|done|by apply (bool_decide_unpack _)..| |];
    cbn [files]; [|rewrite lookup_insert_ne by discriminate; apply lookup_insert_eq|apply lookup_insert_eq].
  cbn [negb]. unfold SSTableReader.make_default.
  set (e := Compactor.normalise (Compactor.merge_tables [e1; e2])).
  rewrite (SSTableReader.make_ok output_path (SSTable.render e)) by (done || apply lookup_insert_eq).
  assert (Hr : ∀ key t, MemTable.ordered (MemTable.versions_of key e1 ++ MemTable.versions_of key e2) →
    SSTableReader.get_at key t
      (SSTableReader.mkReader output_path (SSTableIndex.mkIndex 4
         (SSTableIndex.build_rows 4 (lines (SSTable.render e)) 0 0 [] 0 []))
       (SSTableReader.add_keys (lines (SSTable.render e)) (BloomFilter.make 8192 4)) true true
       (Some (SSTable.render e))) =
    MemTable.scan t (reverse (MemTable.versions_of key e1 ++ MemTable.versions_of key e2))).
  { intros key t Ho. rewrite <-(KVReads.scan_merged key t e1 e2) by (done || apply demo_tables_ok).
    fold e. rewrite <-(SSTableReader.get_at_render key t e 4 8192 4); [done|apply Compactor.merge2_wf| |done].
    apply Compactor.normalise_ok, Compactor.merge2_ok; by apply (bool_decide_unpack _). }
  cbn [decide]. unfold mret, ST_ret. cbn [fst]. rewrite !Hr by (repeat constructor; done).
  by vm_compute.
Qed.

(** What the SSTable benchmark verifies.  For any number of operations whose
    Bloom filter fits 64-bit indexes, in a world without failures, every lookup of
    a written key finds its value and every lookup of a missing key finds
    nothing, whatever false positives the filter has: both counts are the number
    of operations. *)
Theorem sstable_benchmark_verifies n w :
  faults w = [] → (N.max (N.of_nat n * 10) 8 + 7 < 2 ^ 64)%N →
  ∃ fp, (sstable_benchmark n w).1 = inr (fp, N.of_nat n, N.of_nat n).
Proof using.
  intros Hw Hn. unfold sstable_benchmark, MemTable.snapshot_entries.
  pose proof (remove_calm (b# "/tmp/sstable-benchmark.sst") w Hw) as Hw0.
  unfold mbind at 1, ST_bind at 1. destruct (FileSystem.remove _ w) as [b w0]. cbn [snd] in Hw0.
  destruct (fill_ok n ltac:(lia)) as ([We _] & Ok & G).
  set (m := fill n 0 MemTable.empty_table) in *.
  destruct (written_reader (b# "/tmp/sstable-benchmark.sst") m 4
    (N.of_nat n * 10) 7 w0 Hw0 We Ok Hn) as (w1 & r & E & _ & Er & Hr).
  unfold mbind, ST_bind. rewrite E. cbn [negb]. rewrite Er. cbn [fst]. eexists. unfold mret, ST_ret.
  cbn [fst]. do 2 f_equal; [f_equal|]; apply count_all; intros j Hj; apply bool_decide_eq_true_2;
    rewrite Hr, G.
  - apply lookup_log_hit. lia.
  - apply lookup_log_miss.
Qed.

(** What the storage benchmark verifies.  On an open store with an open log,
    whatever system calls fail and whatever flushes are pending, after any number
    of puts every written key is found; the keys called missing are all missing
    when the store held none of them before. *)
Theorem storage_benchmark_verifies n e :
  KVInterface.store_ready e → (∀ i, KVStore.get (missing_key i) e.1 = None) →
  (storage_counts n e).1 = (N.of_nat n, N.of_nat n).
Proof using.
  intros He Hm. unfold storage_counts. unfold mbind, ST_bind.
  assert (He1 : KVInterface.store_ready (KVStore.set_group_commit_every 1000 e).2) by (by destruct e, He).
  assert (Hm1 : KVStore.map_ (KVStore.set_group_commit_every 1000 e).2.1 = KVStore.map_ e.1) by (by destruct e).
  destruct (KVStore.set_group_commit_every 1000 e) as [[] e1]. cbn [snd] in *.
  destruct (put_keys_map n 0 e1 He1) as (He2 & Hin & Hout).
  destruct (put_keys n 0 e1) as [[] e2]. cbn [snd] in *.
  destruct (KVInterface.flush_ready e2 He2) as [_ Hm3].
  destruct (KVStore.flush_wal e2) as [b e3]. cbn [snd] in *.
  unfold KVStore.get_st, gets, mret, ST_ret. cbn [fst]. unfold KVStore.get in *. rewrite Hm3.
  f_equal; apply count_all; intros j Hj; apply bool_decide_eq_true_2.
  - rewrite Hin by lia. by eexists.
  - rewrite Hout, Hm1 by (intros i _ E; symmetry in E; by apply missing_ne in E). apply Hm.
Qed.

End Tables.

(** ** Runs *)

#[local] Existing Instances libstdcxx_abi merge_sort_versions.

(** The MVCC demo on an empty disk: before and after the restart it reads both
    versions and the deletion. *)
Example mvcc_demo_prints :
  (mvcc_demo [1; 2; 0; 3] 2 (mkWorld ∅ [])).1 =
  mkExit (line "Before restart at ts=1: version-1" ++ line "Before restart at ts=2: version-2" ++
    line "Before restart at ts=3: <deleted/not found>" ++
    line "Before restart latest: <deleted/not found>" ++ [nl] ++ line "Restarting..." ++ [nl] ++
    line "After restart at ts=1: version-1" ++ line "After restart at ts=2: version-2" ++
    line "After restart at ts=3: <deleted/not found>" ++
    line "After restart latest: <deleted/not found>") [] 0.
Proof. vm_compute. reflexivity. Qed.

(** When the log cannot be written the demo stops with its message. *)
Example mvcc_demo_fails :
  cerr (mvcc_demo [0; 0; 0; 0] 0 (mkWorld ∅ [Done; Done; Fault])).1 = line "Failed to open store".
Proof. vm_compute. reflexivity. Qed.

Example sstable_index_demo_prints :
  (sstable_index_demo (mkWorld ∅ [])).1 =
  mkExit (line "alpha -> 0" ++ line "delta -> 27" ++ line "gamma -> 60") [] 0.
Proof. vm_compute. reflexivity. Qed.

Example flush_worker_demo_prints :
  (flush_worker_demo (mkWorld ∅ [])).1 =
  mkExit (line "Manifest contains 1 SSTables" ++ line "flush worker stopped cleanly") [] 0.
Proof. vm_compute. reflexivity. Qed.

Example bloom_filter_demo_prints :
  bloom_filter_demo = mkExit (line "alpha: 1" ++ line "beta: 1" ++ line "delta: 1" ++ line "gamma: 1" ++
    line "missing-key: 0") [] 0.
Proof. vm_compute. reflexivity. Qed.

Lemma sstable_benchmark_verifies_witness :
  ∃ fp, (sstable_benchmark 20 (mkWorld ∅ [])).1 = inr (fp, 20%N, 20%N).
Proof. apply (sstable_benchmark_verifies 20 (mkWorld ∅ [])); [reflexivity|vm_compute; reflexivity]. Defined.

Lemma storage_benchmark_verifies_witness :
  (storage_counts 30 (KVWrites.example_store, KVWrites.example_world [Fault; Short 3])).1 = (30%N, 30%N).
Proof.
  apply (storage_benchmark_verifies 30).
  - split; [reflexivity|discriminate].
  - intros i. unfold KVStore.get. cbn. rewrite lookup_insert_ne by discriminate. apply lookup_empty.
Defined.

End StorageDemos.
