(* ===== verification/Benchmarks.v ===== *)
(** * The benchmark programs

    [storage_benchmark.cpp] and [sstable_benchmark.cpp] whole: the operations of
    [StorageDemos], the times they take, what is printed and the CSV files.  The
    readings of the clocks are arguments; arithmetic on [double] is that of IEEE
    binary64 ([SpecFloat]), and fixed-point printing rounds the exact binary value
    to the nearest decimal, ties to even. *)

From Stdlib Require Import SpecFloat.
From S2P Require Import Prelude CxxString FileSystem MemTable SSTable SSTableReader Compactor Wal KVStore KVInterface KVRecovery StorageDemos.
Import CxxString.

Module Benchmarks.
Import StorageDemos.

(** ** [double] *)

Abbreviation double := spec_float.

Definition of_Z (z : Z) : double := binary_normalize 53 1024 z 0 false.
Definition fmul : double → double → double := SFmul 53 1024.
Definition fdiv : double → double → double := SFdiv 53 1024.
Definition is_positive (x : double) : bool := SFltb (of_Z 0) x.

(** [m * 2^e * 10^p], rounded to an integer. *)
Definition scaled (p : N) (m : positive) (e : Z) : N :=
  (if (0 <=? e)%Z then Npos m * 2 ^ Z.to_N e * 10 ^ p
   else
     let den := 2 ^ Z.to_N (- e) in
     let num := Npos m * 10 ^ p in
     let q := num / den in
     let r := num mod den in
     if (2 * r <? den) || ((2 * r =? den) && N.even q) then q else q + 1)%N.

(** [n] with the last [p] digits behind the point. *)
Definition with_point (p n : N) : str :=
  if decide (p = 0%N) then dec n
  else
    let frac := dec (n mod 10 ^ p) in
    dec (n / 10 ^ p) ++ b# "." ++ repeat "0"%char (N.to_nat p - length frac) ++ frac.

(** [std::fixed << std::setprecision(p) << x]. *)
Definition fixed (p : N) (x : double) : str :=
  let sign (s : bool) := if s then b# "-" else [] in
  match x with
  | S754_zero s => sign s ++ with_point p 0
  | S754_infinity s => sign s ++ b# "inf"
  | S754_nan => b# "nan"
  | S754_finite s m e => sign s ++ with_point p (scaled p m e)
  end.

(** ** Clocks *)

(** The difference of two readings of the steady clock, in nanoseconds, as
    [duration<double>]. *)
Definition elapsed_seconds (start end_ : Z) : double := fdiv (of_Z (end_ - start)) (of_Z 1000000000).

(** The fields of [std::tm] that [put_time] shows, already in their printed range. *)
Record tm := mkTm { year : N; month : N; day : N; hour : N; minute : N; second : N }.

Definition two (n : N) : str := repeat "0"%char (2 - length (dec n)) ++ dec n.

Definition current_timestamp (t : tm) : str :=
  dec (year t) ++ b# "-" ++ two (month t) ++ b# "-" ++ two (day t) ++ b# "T" ++
  two (hour t) ++ b# ":" ++ two (minute t) ++ b# ":" ++ two (second t).

(** [std::left << std::setw(w) << name]. *)
Definition left_in (w : nat) (name : str) : str := name ++ repeat " "%char (w - length name).

(** What both benchmarks print of a measurement. *)
Definition result_line (w : nat) (name : str) (operations : N) (seconds ops_per_second average_us : double) : str :=
  left_in w name ++ b# " operations=" ++ dec operations ++
  b# " total_ms=" ++ fixed 2 (fmul seconds (of_Z 1000)) ++
  b# " ops_per_sec=" ++ fixed 0 ops_per_second ++ b# " avg_us=" ++ fixed 3 average_us ++ [nl].

(** The fields of a CSV row up to the verified count. *)
Definition csv_fields (stamp : tm) (benchmark : str) (operations : N)
    (seconds ops_per_second average_us : double) (verified : N) : list str :=
  [current_timestamp stamp; benchmark; dec operations; fixed 3 (fmul seconds (of_Z 1000));
   fixed 3 ops_per_second; fixed 3 average_us; dec verified].

Fixpoint comma_separated (fields : list str) : str :=
  match fields with
  | [] => [nl]
  | [f] => f ++ [nl]
  | f :: fields' => f ++ b# "," ++ comma_separated fields'
  end.

(** Appends a row to the file, after the header if the file did not exist; whether
    the file could be opened. *)
Definition append_csv (csv_path header row : str) : io bool :=
  existed ← gets (λ w, bool_decide (is_Some (files w !! csv_path)));
  out ← FileSystem.open_app csv_path;
  if negb (ofs_good out) then mret false
  else
    out ← (if (existed : bool) then mret out else FileSystem.write out header);
    FileSystem.write out row ;;
    mret true.

(** ** [storage_benchmark] *)

Module Storage.

Definition ops_per_second (operations : N) (seconds : double) : double := fdiv (of_Z (Z.of_N operations)) seconds.
Definition average_us (operations : N) (seconds : double) : double :=
  fdiv (fmul seconds (of_Z 1000000)) (of_Z (Z.of_N operations)).

Definition print_result (name : str) (operations : N) (seconds : double) : str :=
  result_line 28 name operations seconds (ops_per_second operations seconds) (average_us operations seconds).

Definition header : str :=
  comma_separated [b# "timestamp"; b# "benchmark"; b# "operations"; b# "total_ms"; b# "ops_per_sec";
    b# "avg_us"; b# "verified"].

Definition row (stamp : tm) (benchmark : str) (operations : N) (seconds : double) (verified : N) : str :=
  comma_separated (csv_fields stamp benchmark operations seconds
    (ops_per_second operations seconds) (average_us operations seconds) verified).

Definition append_csv_result (csv_path : str) (stamp : tm) (benchmark : str) (operations : N)
    (seconds : double) (verified : N) : io bool :=
  append_csv csv_path header (row stamp benchmark operations seconds verified).

(** The clock readings, and the wall-clock time of the three rows. *)
Record Readings := mkReadings {
  put_start : Z; put_end : Z; hit_start : Z; hit_end : Z; miss_start : Z; miss_end : Z;
  put_stamp : tm; hit_stamp : tm; miss_stamp : tm;
}.

Definition put_seconds (t : Readings) : double := elapsed_seconds (put_start t) (put_end t).
Definition hit_seconds (t : Readings) : double := elapsed_seconds (hit_start t) (hit_end t).
Definition miss_seconds (t : Readings) : double := elapsed_seconds (miss_start t) (miss_end t).

Definition report (n : N) (t : Readings) (found missing : N) : str :=
  [nl] ++ line "VeriStore Benchmark" ++ line "-------------------" ++
  print_result (b# "Sequential PUT") n (put_seconds t) ++
  print_result (b# "Existing-key GET") n (hit_seconds t) ++
  print_result (b# "Missing-key GET") n (miss_seconds t) ++
  b# "verified_hits=" ++ dec found ++ [nl] ++
  b# "verified_misses=" ++ dec missing ++ [nl].

Definition csv_path : str := b# "benchmarks/results.csv".

Definition write_rows (n : N) (t : Readings) (found missing : N) : io unit :=
  append_csv_result csv_path (put_stamp t) (b# "Sequential PUT") n (put_seconds t) n ;;
  append_csv_result csv_path (hit_stamp t) (b# "Existing-key GET") n (hit_seconds t) found ;;
  append_csv_result csv_path (miss_stamp t) (b# "Missing-key GET") n (miss_seconds t) missing ;;
  mret tt.

Section Main.
Context `{Abi, SortVersions}.

(** [main] with [kOperations = n]; creating the directory is left out. *)
Definition main (n : nat) (t : Readings) : io Exit := λ w,
  let wal_path := b# "/tmp/veristore-benchmark.wal" in
  let w := (FileSystem.remove wal_path w).2 in
  let w := (FileSystem.remove (b# "/tmp/veristore-MANIFEST") w).2 in
  let '(ok, e) := KVStore.open wal_path (KVStore.new_store, w) in
  if negb ok then (mkExit [] (line "Failed to open store") 1, destroy e)
  else
    let '((found, missing), (s, w)) := storage_counts n e in
    let w := (write_rows (N.of_nat n) t found missing w).2 in
    (mkExit (report (N.of_nat n) t found missing) [] 0, destroy (s, w)).

End Main.
End Storage.

(** ** [sstable_benchmark] *)

Module Table.

Definition ops_per_second (operations : N) (seconds : double) : double :=
  if is_positive seconds then fdiv (of_Z (Z.of_N operations)) seconds else of_Z 0.
Definition average_us (operations : N) (seconds : double) : double :=
  if (0 <? operations)%N then fdiv (fmul seconds (of_Z 1000000)) (of_Z (Z.of_N operations)) else of_Z 0.

Definition print_result (name : str) (operations : N) (seconds : double) : str :=
  result_line 30 name operations seconds (ops_per_second operations seconds) (average_us operations seconds).

Definition header : str :=
  comma_separated [b# "timestamp"; b# "benchmark"; b# "operations"; b# "total_ms"; b# "ops_per_sec";
    b# "avg_us"; b# "verified"; b# "false_positive_rate"].

Definition row (stamp : tm) (benchmark : str) (operations : N) (seconds : double) (verified : N)
    (false_positive_rate : double) : str :=
  comma_separated (csv_fields stamp benchmark operations seconds
    (ops_per_second operations seconds) (average_us operations seconds) verified ++ [fixed 3 false_positive_rate]).

(** What it writes to standard error. *)
Definition append_csv_result (csv_path : str) (stamp : tm) (benchmark : str) (operations : N)
    (seconds : double) (verified : N) (false_positive_rate : double) : io str :=
  opened ← append_csv csv_path header (row stamp benchmark operations seconds verified false_positive_rate);
  mret (if (opened : bool) then [] else b# "failed to open " ++ csv_path ++ [nl]).

Record Readings := mkReadings {
  hit_start : Z; hit_end : Z; miss_start : Z; miss_end : Z; hit_stamp : tm; miss_stamp : tm;
}.

Definition hit_seconds (t : Readings) : double := elapsed_seconds (hit_start t) (hit_end t).
Definition miss_seconds (t : Readings) : double := elapsed_seconds (miss_start t) (miss_end t).

Definition false_positive_rate (n bloom_false_positives : N) : double :=
  fdiv (fmul (of_Z 100) (of_Z (Z.of_N bloom_false_positives))) (of_Z (Z.of_N n)).

Definition bloom_line (n bloom_false_positives : N) : str :=
  b# "bloom_false_positives=" ++ dec bloom_false_positives ++
  b# " rate=" ++ fixed 3 (false_positive_rate n bloom_false_positives) ++ line "%".

Definition report (n : N) (t : Readings) (hit_count miss_count : N) : str :=
  [nl] ++ line "SSTable Benchmark" ++ line "-----------------" ++
  print_result (b# "SSTable Hit Lookup") n (hit_seconds t) ++
  print_result (b# "SSTable Miss Lookup") n (miss_seconds t) ++
  b# "verified_hits=" ++ dec hit_count ++ [nl] ++
  b# "verified_misses=" ++ dec miss_count ++ [nl].

Definition csv_path : str := b# "benchmarks/sstable_results.csv".

Section Main.
Context `{Abi}.

(** [main] with [kOperations = n]; creating the directory is left out. *)
Definition main (n : nat) (t : Readings) : io Exit :=
  r ← sstable_benchmark n;
  match r with
  | inl e => mret e
  | inr (bloom_false_positives, hit_count, miss_count) =>
      let k := N.of_nat n in
      let rate := false_positive_rate k bloom_false_positives in
      err1 ← append_csv_result csv_path (hit_stamp t) (b# "sstable_get_hit") k (hit_seconds t) hit_count rate;
      err2 ← append_csv_result csv_path (miss_stamp t) (b# "sstable_get_miss") k (miss_seconds t) miss_count rate;
      mret (mkExit (bloom_line k bloom_false_positives ++ report k t hit_count miss_count) (err1 ++ err2) 0)
  end.

End Main.
End Table.

(** ** Numbers *)

(** Rounding gives a nearest integer: it is off by at most one half. *)
Lemma scaled_nearest p m e :
  let den := (2 ^ Z.to_N (- e))%N in
  let exact := (Npos m * 2 ^ Z.to_N e * 10 ^ p)%N in
  (2 * (scaled p m e * den) ≤ 2 * exact + den ∧ 2 * exact ≤ 2 * (scaled p m e * den) + den)%N.
Proof.
  cbv zeta. unfold scaled. destruct (Z.leb_spec 0 e) as [He|He].
  - replace (Z.to_N (- e)) with 0%N by lia. rewrite N.pow_0_r. lia.
  - replace (Z.to_N e) with 0%N by lia. rewrite N.pow_0_r, N.mul_1_r.
    set (den := (2 ^ Z.to_N (- e))%N). set (num := (Npos m * 10 ^ p)%N).
    assert (Hden : (den ≠ 0)%N) by (by apply N.pow_nonzero).
    pose proof (N.div_mod num den Hden) as Hdm. pose proof (N.mod_lt num den Hden).
    set (q := (num / den)%N) in *. set (r := (num mod den)%N) in *.
    destruct ((2 * r <? den)%N || ((2 * r =? den)%N && N.even q)) eqn:E.
    + assert (2 * r ≤ den)%N.
      { apply orb_true_iff in E as [E%N.ltb_lt|[E%N.eqb_eq _]%andb_true_iff]; lia. }
      nia.
    + apply orb_false_iff in E as [E%N.ltb_ge _]. nia.
Qed.

Lemma zeros_digits k : digits (repeat "0"%char k).
Proof. induction k; [constructor|]. by constructor. Qed.

Lemma zeros_value k : foldl (λ a c, 10 * a + digit_val c)%N 0%N (repeat "0"%char k) = 0%N.
Proof. induction k as [|k IH]; [done|exact IH]. Qed.

(** A number printed in a field of [k] digits. *)
Lemma padded_digits k n :
  length (dec n) ≤ k →
  let f := repeat "0"%char (k - length (dec n)) ++ dec n in
  digits f ∧ length f = k ∧ foldl (λ a c, 10 * a + digit_val c)%N 0%N f = n.
Proof.
  intros Hk f. unfold f. split_and!.
  - apply Forall_app. split; [apply zeros_digits|apply dec_digits].
  - rewrite length_app, repeat_length. lia.
  - by rewrite foldl_app, zeros_value, dec_value.
Qed.

(** ** CSV files *)

(** The content of a CSV file after rows are appended. *)
Definition with_rows (header : str) (old : option str) (rows : list str) : str :=
  default header old ++ concat rows.

Lemma append_csv_ok path header row w :
  faults w = [] →
  append_csv path header row w =
    (true, mkWorld (<[path := with_rows header (files w !! path) [row]]> (files w)) []).
Proof.
  intros Hw. unfold append_csv. unfold_st. rewrite FileSystem.open_app_ok by done. cbn [negb ofs_good].
  unfold with_rows. cbn [concat]. rewrite app_nil_r.
  destruct (files w !! path) as [c|] eqn:E; cbn [is_Some_dec decide default].
  - rewrite bool_decide_eq_true_2 by (by eexists). unfold_st. rewrite FileSystem.write_ok by done.
    cbn [files]. by rewrite lookup_insert_eq, insert_insert_eq.
  - rewrite bool_decide_eq_false_2 by (by intros [? [=]]). rewrite FileSystem.write_ok by done.
    rewrite FileSystem.write_ok by done. cbn [files].
    by rewrite !lookup_insert_eq, !insert_insert_eq.
Qed.

Lemma printed_length f : ∀ n p, (0 < p)%N → (n < 10 ^ p)%N → length (print_fuel f 10 n) ≤ N.to_nat p.
Proof.
  induction f as [|f IH]; intros n p Hp Hn; cbn [print_fuel length]; [lia|].
  destruct (n <? 10)%N eqn:E; [cbn; lia|]. apply N.ltb_ge in E.
  assert (Hp1 : (1 < p)%N).
  { destruct (decide (p = 1%N)) as [->|]; [rewrite N.pow_1_r in Hn; lia|lia]. }
  rewrite length_app. cbn [length]. specialize (IH (n / 10)%N (p - 1)%N ltac:(lia)).
  enough (n / 10 < 10 ^ (p - 1))%N by (specialize (IH ltac:(done)); lia).
  apply N.Div0.div_lt_upper_bound. rewrite <-N.pow_succ_r'. by replace (N.succ (p - 1)) with p by lia.
Qed.

(** ** Properties *)

(** What a [double] looks like in fixed notation.  A finite number [m * 2^e] printed
    with [p] digits behind the point has exactly that many, and the decimal that is
    printed is off by at most half a unit of its last digit. *)
Theorem fixed_nearest p m e :
  (0 < p)%N →
  ∃ a b, fixed p (S754_finite false m e) = a ++ b# "." ++ b ∧ digits a ∧ digits b ∧
    length b = N.to_nat p ∧
    let n := (foldl (λ a c, 10 * a + digit_val c) 0 a * 10 ^ p + foldl (λ a c, 10 * a + digit_val c) 0 b)%N in
    let den := (2 ^ Z.to_N (- e))%N in
    let exact := (Npos m * 2 ^ Z.to_N e * 10 ^ p)%N in
    (2 * (n * den) ≤ 2 * exact + den ∧ 2 * exact ≤ 2 * (n * den) + den)%N.
Proof.
  intros Hp. set (n := scaled p m e). assert (Hpow : (10 ^ p ≠ 0)%N) by (by apply N.pow_nonzero).
  set (frac := (n mod 10 ^ p)%N).
  assert (Hlen : length (dec frac) ≤ N.to_nat p) by (apply printed_length; [done|by apply N.mod_lt]).
  destruct (padded_digits (N.to_nat p) frac Hlen) as (Fd & Fl & Fv).
  exists (dec (n / 10 ^ p)), (repeat "0"%char (N.to_nat p - length (dec frac)) ++ dec frac).
  split_and!; [|apply dec_digits|exact Fd|exact Fl|].
  { unfold fixed, with_point. fold n. rewrite decide_False by lia. cbn [app]. done. }
  cbv zeta. rewrite dec_value. setoid_rewrite Fv.
  assert (E : (n / 10 ^ p * 10 ^ p + frac = n)%N).
  { unfold frac. rewrite (N.div_mod n (10 ^ p)) at 3 by done. lia. }
  rewrite E. apply scaled_nearest.
Qed.

(** The CSV files.  When no call fails, a run of the storage benchmark adds its
    three rows to the end of the file, after the header if there was no file;
    nothing else changes. *)
Theorem write_rows_appends n t found missing w :
  faults w = [] →
  files (Storage.write_rows n t found missing w).2 =
    <[Storage.csv_path := with_rows Storage.header (files w !! Storage.csv_path)
       [Storage.row (Storage.put_stamp t) (b# "Sequential PUT") n (Storage.put_seconds t) n;
        Storage.row (Storage.hit_stamp t) (b# "Existing-key GET") n (Storage.hit_seconds t) found;
        Storage.row (Storage.miss_stamp t) (b# "Missing-key GET") n (Storage.miss_seconds t) missing]]>
      (files w).
Proof.
  intros Hw. unfold Storage.write_rows, Storage.append_csv_result. unfold_st.
  rewrite append_csv_ok by done. rewrite append_csv_ok by done. rewrite append_csv_ok by done.
  cbn [files snd fst]. rewrite !lookup_insert_eq, !insert_insert_eq. unfold with_rows. cbn [concat default]. unfold id.
  by rewrite !app_nil_r, <-!app_assoc.
Qed.

(** Whatever fails, appending a row keeps what the file held, and every other file. *)
Theorem append_csv_safe path header row w :
  let w' := (append_csv path header row w).2 in
  (∀ q, q ≠ path → files w' !! q = files w !! q) ∧
  ((append_csv path header row w).1 = false → files w' = files w) ∧
  ∃ added, default [] (files w' !! path) = default [] (files w !! path) ++ added.
Proof.
  unfold append_csv. unfold_st.
  destruct (FileSystem.open_app path w) as [out w1] eqn:E1. apply FileSystem.open_app_spec in E1 as [Hp Hf].
  destruct (ofs_good out) eqn:Hg; cbn [negb].
  2: { cbn. rewrite Hf. split_and!; [done|done|]. exists []. by rewrite app_nil_r. }
  assert (Hwrite : ∀ o data w2, ofs_path o = path →
    let w3 := (FileSystem.write o data w2).2 in ofs_path (FileSystem.write o data w2).1 = path ∧
    (∀ q, q ≠ path → files w3 !! q = files w2 !! q) ∧
    ∃ a, default [] (files w3 !! path) = default [] (files w2 !! path) ++ a).
  { intros o data w2 Ho. destruct (FileSystem.write o data w2) as [o3 w3] eqn:E.
    apply FileSystem.write_spec in E as (Hp3 & _ & pre & _ & _ & [Hf3|[Hf3 _]]); cbn; rewrite Hf3.
    - rewrite Ho in *. split_and!; [done| |].
      + intros q Hq. by rewrite lookup_insert_ne.
      + exists pre. by rewrite lookup_insert_eq.
    - split_and!; [congruence|done|]. exists []. by rewrite app_nil_r. }
  assert (Hrow : ∀ o w2, ofs_path o = path → (∀ q, q ≠ path → files w2 !! q = files w1 !! q) →
    (∃ a, default [] (files w2 !! path) = default [] (files w1 !! path) ++ a) →
    let w3 := (FileSystem.write o row w2).2 in
    (∀ q, q ≠ path → files w3 !! q = files w !! q) ∧ (true = false → files w3 = files w) ∧
    ∃ added, default [] (files w3 !! path) = default [] (files w !! path) ++ added).
  { intros o w2 Ho H2 [a2 Ha2]. destruct (Hwrite o row w2 Ho) as (_ & H3 & a3 & Ha3). split_and!; [|done|].
    - intros q Hq. rewrite H3, H2, Hf by done. by rewrite lookup_insert_ne.
    - exists (a2 ++ a3). rewrite Ha3, Ha2, Hf, lookup_insert_eq. cbn. by rewrite app_assoc. }
  case_bool_decide.
  - pose proof (Hrow out w1 Hp ltac:(done) ltac:(by exists []; rewrite app_nil_r)) as R.
    by destruct (FileSystem.write out row w1).
  - destruct (Hwrite out header w1 Hp) as (H1 & H2 & H3). destruct (FileSystem.write out header w1) as [o2 w2].
    pose proof (Hrow o2 w2 H1 H2 H3) as R. by destruct (FileSystem.write o2 row w2).
Qed.

Section Programs.
Context `{Abi, SortVersions}.

(** The storage benchmark on a disk without a snapshot, when no call fails: it
    exits with 0, and what it prints counts every key as found and every missing
    key as missing, whatever the clocks read. *)
Theorem storage_benchmark_prints n t w :
  faults w = [] → files w !! KVStore.snapshot_path = None →
  (Storage.main n t w).1 = mkExit (Storage.report (N.of_nat n) t (N.of_nat n) (N.of_nat n)) [] 0.
Proof using.
  intros Hw Hs. unfold Storage.main. set (wal := b# "/tmp/veristore-benchmark.wal").
  assert (Hrm : ∀ p u, faults u = [] → files u !! KVStore.snapshot_path = None → p ≠ KVStore.snapshot_path →
    faults (FileSystem.remove p u).2 = [] ∧ files (FileSystem.remove p u).2 !! KVStore.snapshot_path = None ∧
    files (FileSystem.remove p u).2 !! p = None ∧
    ∀ q, files u !! q = None → files (FileSystem.remove p u).2 !! q = None).
  { intros p u Hu Hsn Hne. rewrite FileSystem.remove_ok by done.
    destruct (files u !! p) eqn:E; cbn; [|by split_and!].
    split_and!; [done|by rewrite lookup_delete_ne|by rewrite lookup_delete_eq|].
    intros q Hq. destruct (decide (p = q)) as [->|]; [by rewrite lookup_delete_eq|by rewrite lookup_delete_ne]. }
  destruct (Hrm wal w Hw Hs ltac:(discriminate)) as (F1 & S1 & N1 & _).
  destruct (Hrm (b# "/tmp/veristore-MANIFEST") _ F1 S1 ltac:(discriminate)) as (F2 & S2 & _ & N2).
  set (w2 := (FileSystem.remove (b# "/tmp/veristore-MANIFEST") _).2) in *.
  destruct (KVRecovery.open_spec wal w2 [] []) as (s & w3 & E & Hm & _ & _ & Ho & _ & _ & _ & Hwal); try done.
  { unfold Wal.content_of. by rewrite N2. }
  rewrite E. cbn [negb].
  pose proof (storage_benchmark_verifies n (s, w3)) as V.
  destruct (storage_counts n (s, w3)) as [[found missing] [s4 w4]]. cbn [fst snd] in *.
  assert ((found, missing) = (N.of_nat n, N.of_nat n)) as [= -> ->].
  { apply V; [split; cbn; [done|by rewrite Hwal]|]. intros i. unfold KVStore.get. by rewrite Hm. }
  done.
Qed.

(** The SSTable benchmark, when no call fails and its Bloom filter fits 64-bit
    indexes: it exits with 0 and counts every hit and every miss, whatever the
    clocks read. *)
Theorem sstable_benchmark_prints n t w :
  faults w = [] → (N.max (N.of_nat n * 10) 8 + 7 < 2 ^ 64)%N →
  ∃ fp, (Table.main n t w).1.(status) = 0%Z ∧
    (Table.main n t w).1.(cout) =
      Table.bloom_line (N.of_nat n) fp ++ Table.report (N.of_nat n) t (N.of_nat n) (N.of_nat n).
Proof using.
  intros Hw Hn. destruct (sstable_benchmark_verifies n w Hw Hn) as [fp E]. exists fp. unfold Table.main.
  unfold mbind, ST_bind, mret, ST_ret.
  destruct (sstable_benchmark n w) as [r w1]. cbn [fst] in E. subst r. cbv beta iota zeta.
  destruct (Table.append_csv_result _ _ _ _ _ _ _ w1) as [e1 w2].
  by destruct (Table.append_csv_result _ _ _ _ _ _ _ w2) as [e2 w3].
Qed.

End Programs.

(** ** Runs *)

(** 100000 operations in 0.25 s and in 1.5 ms, and a time of zero. *)
Example print_result_run :
  Storage.print_result (b# "Sequential PUT") 100000 (elapsed_seconds 5000000000 5250000000) =
    line "Sequential PUT               operations=100000 total_ms=250.00 ops_per_sec=400000 avg_us=2.500".
Proof. vm_compute. reflexivity. Qed.

Example zero_time :
  Storage.print_result (b# "x") 7 (elapsed_seconds 1 1) =
    line "x                            operations=7 total_ms=0.00 ops_per_sec=inf avg_us=0.000" ∧
  Table.print_result (b# "x") 7 (elapsed_seconds 1 1) =
    line "x                              operations=7 total_ms=0.00 ops_per_sec=0 avg_us=0.000".
Proof. vm_compute. done. Qed.

Example csv_row_run :
  Storage.row (mkTm 2024 3 9 7 5 30) (b# "Missing-key GET") 100000 (elapsed_seconds 0 1500000) 99999 =
    line "2024-03-09T07:05:30,Missing-key GET,100000,1.500,66666666.667,0.015,99999".
Proof. vm_compute. reflexivity. Qed.

End Benchmarks.
