(* ===== verification/ObjectDemos.v ===== *)
(** * The object store demos

    [object_store_demo.cpp], [object_store_write_demo.cpp],
    [object_store_recover_demo.cpp], [object_store_gc_demo.cpp] and
    [object_store_list_demo.cpp] as programs of the model: each opens a
    key-value store on the disk and runs the object store on it.  The clock's
    readings are an argument. *)

From S2P Require Import Prelude CxxString FileSystem MemTable Compactor Wal FlushWorker KVStore KVWrites KVRecovery KVInterface ObjectStore ObjectSpec ObjectDurability StorageDemos.
Import CxxString.

Module ObjectDemos.
Import ObjectStore ObjectSpec KVRecovery ObjectDurability StorageDemos.

Definition photos : str := b# "photos".

(** [std::cout << label << value << "\n"]. *)
Definition field (label : string) (value : str) : str := list_ascii_of_string label ++ value ++ [nl].

Section Programs.
Context `{Abi, SortVersions, MapOrder, StdHash}.

Abbreviation DiskEnv := (@Env (KVStore.KVStore * World)).

(** The head of every [main]: the store is opened, or the program returns 1. *)
Definition with_store (path : str) (message : str) (clk : list N)
    (body : ST DiskEnv Exit) : io Exit := λ w,
  let '(ok, e) := KVStore.open path (KVStore.new_store, w) in
  if negb ok then (mkExit [] message 1, destroy e)
  else let '(r, e) := body (mkEnv e clk 0) in (r, destroy (kv_ e)).

Definition request (key data : str) : PutObjectRequest := mkPut photos key data (b# "text/plain").

(** *** The lines the demos share *)

Definition put_lines (r : PutObjectResult) : str :=
  field "  object_id   = " (put_object_id r) ++ field "  size_bytes  = " (dec (put_size_bytes r)) ++
  field "  chunk_count = " (dec (put_chunk_count r)) ++ field "  etag        = " (put_etag r).

(** [get_res.metadata] is default-constructed when there is none; the programs
    print it only of an object that was found. *)
Definition default_meta : ObjectMetadata := mkMeta [] [] [] 0 0 0 [] [] 0 0 0.

Definition get_lines (r : GetObjectResult) : str :=
  let m := default default_meta (metadata r) in
  field "  bucket       = " (bucket m) ++ field "  key          = " (key m) ++
  field "  object_id    = " (object_id m) ++ field "  size_bytes   = " (dec (size_bytes m)) ++
  field "  chunk_count  = " (dec (chunk_count m)) ++ field "  content_type = " (content_type m) ++
  field "  etag         = " (etag m) ++ field "  data         = " (data r).

(** *** [object_store_demo] *)

Definition demo_request : PutObjectRequest :=
  request (b# "trip/hello.txt") (b# "Hello from MiniS3 built on KVStore!").

Definition object_store_demo (clk : list N) : io Exit :=
  with_store (b# "/tmp/kv.wal") (line "Failed to open KVStore WAL") clk (
    let out := line "=== Mini Object Store Demo ===" in
    created ← CreateBucket photos;
    if negb created then mret (mkExit out (line "CreateBucket failed") 1)
    else
      let out := out ++ field "Created bucket: " photos in
      put_res ← PutObject 8 demo_request;
      if negb (put_ok put_res) then
        mret (mkExit out (field "PutObject failed: " (put_error put_res)) 1)
      else
        let out := out ++ line "PutObject OK" ++ put_lines put_res in
        get_res ← GetObject photos (b# "trip/hello.txt");
        if negb (found get_res) then
          mret (mkExit out (field "GetObject failed: " (get_error get_res)) 1)
        else
          let out := out ++ [nl] ++ line "GetObject OK" ++ get_lines get_res in
          del_res ← DeleteObject photos (b# "trip/hello.txt");
          if negb (del_ok del_res) then
            mret (mkExit out (field "DeleteObject failed: " (del_error del_res)) 1)
          else
            let out := out ++ [nl] ++ line "DeleteObject OK" in
            get_after ← GetObject photos (b# "trip/hello.txt");
            if found get_after then
              mret (mkExit out (line "Expected object to be deleted, but it was still found") 1)
            else
              mret (mkExit (out ++ field "Get after delete correctly failed: " (get_error get_after) ++
                [nl] ++ line "=== Demo completed successfully ===") [] 0)).

(** *** [object_store_write_demo] and [object_store_recover_demo] *)

Definition demo_wal : str := b# "/tmp/kv_object_demo.wal".
Definition recovery_request : PutObjectRequest :=
  request (b# "trip/recovery.txt") (b# "Recovered object data after restart!").

(** What the write demo does with its open store. *)
Definition write_body : ST DiskEnv Exit :=
  created ← CreateBucket photos;
  if negb created then mret (mkExit [] (line "CreateBucket failed") 1)
  else
    put_res ← PutObject 8 recovery_request;
    if negb (put_ok put_res) then
      mret (mkExit [] (field "PutObject failed: " (put_error put_res)) 1)
    else
      mret (mkExit (line "Write phase complete" ++ put_lines put_res ++
        line "Safe to terminate and restart recovery demo.") [] 0).

Definition object_store_write_demo (clk : list N) : io Exit :=
  with_store demo_wal (line "Failed to open KVStore WAL") clk write_body.

Definition object_store_recover_demo (clk : list N) : io Exit :=
  with_store demo_wal (line "Failed to open KVStore WAL") clk (
    get_res ← GetObject photos (b# "trip/recovery.txt");
    if negb (found get_res) then
      mret (mkExit [] (field "Recovery failed: " (get_error get_res)) 1)
    else mret (mkExit (line "Recovery phase successful" ++ get_lines get_res) [] 0)).

(** *** [object_store_gc_demo] *)

Definition object_store_gc_demo (clk : list N) : io Exit :=
  with_store (b# "/tmp/kv_gc_demo.wal") (line "Failed to open KVStore") clk (
    CreateBucket photos ;;
    PutObject 8 (request (b# "trip/a.txt") (b# "old-data")) ;;
    PutObject 8 (request (b# "trip/a.txt") (b# "new-data")) ;;
    get_res ← GetObject photos (b# "trip/a.txt");
    let out := if found get_res then field "Current object data: " (data get_res) else [] in
    deleted ← GarbageCollectChunks;
    mret (mkExit (out ++ field "GC deleted chunks: " (dec deleted)) [] 0)).

(** *** [object_store_list_demo] *)

Definition object_store_list_demo (clk : list N) : io Exit :=
  with_store (b# "/tmp/kv_list_demo.wal") (line "Failed to open store") clk (
    CreateBucket photos ;;
    PutObject 8 (request (b# "trip/a.txt") (b# "aaa")) ;;
    PutObject 8 (request (b# "trip/b.txt") (b# "bbb")) ;;
    PutObject 8 (request (b# "notes/c.txt") (b# "ccc")) ;;
    res ← ListObjects photos (b# "trip/");
    mret (mkExit (concat ((λ o, entry_key o ++ b# " size=" ++ dec (entry_size_bytes o) ++ [nl]) <$>
      objects res)) [] 0)).

(** ** The recovery demo after a crash of the write demo *)

Context (hash_width : ∀ s, fits 64 (hash_bytes s)).

Lemma get_lines_data r : ∃ lines, get_lines r = lines ++ field "  data         = " (data r).
Proof using. unfold get_lines. cbv zeta. rewrite !app_assoc. by eexists. Qed.

Lemma recovery_request_ok : request_ok 8 recovery_request ∧ sizes_ok recovery_request.
Proof using.
  split; constructor; try done; try (split; by apply (bool_decide_unpack _)).
  by apply (bool_decide_unpack _).
Qed.

(** The write demo runs on a disk with a log of whole records and the machine
    stops at any time after it has printed its last line: the recovery demo, run
    on the disk as it is then, finds the object and prints its data, whatever the
    clocks read. *)
Theorem recover_demo_after_crash rs w s w0 clk w3 clk' :
  KVRecovery.disk demo_wal rs w → (KVRecovery.last_seq rs + 9 < 2 ^ 64)%N →
  KVStore.open demo_wal (KVStore.new_store, w) = (true, (s, w0)) →
  let '(r, e) := write_body (mkEnv (s, w0) clk 0) in
  faults w3 = [] → files w3 !! KVStore.snapshot_path = None →
  Wal.content_of demo_wal w3 = Wal.content_of demo_wal (kv_ e).2 →
  status r = 0%Z ∧
  let r' := (object_store_recover_demo clk' w3).1 in
  status r' = 0%Z ∧ cerr r' = [] ∧ ∃ lines,
    cout r' = line "Recovery phase successful" ++ lines ++
      field "  data         = " (b# "Recovered object data after restart!").
Proof using hash_width.
  intros Hd Hseq Eo. destruct (opened_history _ _ _ _ _ Hd Eo) as [Hh Hs].
  unfold write_body. unfold mbind, ST_bind.
  pose proof (CreateBucket_history demo_wal rs [] s w0 photos clk 0 Hh) as C.
  destruct (CreateBucket photos _) as [created e1]. destruct C as (-> & Hb & Hs1 & ops1 & Hh1);
    [discriminate|done|lia|]. cbn [negb]. destruct recovery_request_ok as [Hok Hsz].
  destruct e1 as [[s1 w1] clk1 last1]. cbn [kv_ fst snd] in *.
  assert (chunks_of 8 (N.of_nat (length (req_data recovery_request))) = 5%N) as Hc by reflexivity.
  pose proof (PutObject_history hash_width demo_wal rs ops1 s1 w1 8 recovery_request clk1 last1 Hh1 Hok Hsz Hb
    ltac:(rewrite Hc; lia)) as P.
  pose proof (PutObject_get 8 recovery_request (mkEnv (s1, w1) clk1 last1)) as G.
  destruct (PutObject 8 recovery_request _) as [put_res e2]. destruct P as (-> & _ & ops2 & Hh2).
  cbn [negb]. unfold mret, ST_ret. intros Hw3 Hsn3 Hc3. split; [done|].
  destruct (flushed_reopen _ _ _ _ _ w3 Hh2 Hw3 Hsn3 Hc3) as (s4 & w4 & E4 & Hm4).
  unfold object_store_recover_demo, with_store. rewrite E4. cbn [negb].
  pose proof (same_map_reads (mkEnv (s4, w4) clk' 0) e2 photos (b# "trip/recovery.txt") Hm4) as R.
  unfold mbind, ST_bind. destruct (GetObject photos (b# "trip/recovery.txt") (mkEnv (s4, w4) clk' 0)) as [g e4].
  cbn [fst] in R.
  destruct (GetObject (req_bucket recovery_request) (req_key recovery_request) e2) as [g2 e5] eqn:E5.
  change (req_bucket recovery_request) with photos in E5.
  change (req_key recovery_request) with (b# "trip/recovery.txt") in E5. rewrite E5 in R. cbn in R. subst g2.
  destruct G as (-> & D & _); [by eapply history_ready|done|done|]. cbn [negb fst]. unfold mret, ST_ret.
  cbn [status cerr cout fst]. split; [done|]. split; [done|]. destruct (get_lines_data g) as [lines E]. rewrite E, D.
  by exists lines.
Qed.

End Programs.

(** ** Runs *)

#[local] Existing Instances libstdcxx_abi merge_sort_versions some_map_order.
#[local] Instance example_hash : StdHash := λ s, wrap64 (N.of_nat (length s)).

Example object_store_demo_completes :
  let r := (object_store_demo [1000; 1001; 1002; 1003]%N (mkWorld ∅ [])).1 in
  status r = 0%Z ∧ cerr r = [] ∧ (line "=== Demo completed successfully ===") `suffix_of` cout r.
Proof.
  set (r := (object_store_demo _ _).1). vm_compute in r. split; [done|]. split; [done|].
  by apply (bool_decide_unpack _).
Qed.

(** The two versions of the overwritten object have different identifiers when
    the clock has moved between them, and then the old chunk is collected; in
    one millisecond they share the identifier and nothing is. *)
Example object_store_gc_demo_prints :
  (object_store_gc_demo [1000; 1001; 1002; 1003; 1004]%N (mkWorld ∅ [])).1 =
    mkExit (line "Current object data: new-data" ++ line "GC deleted chunks: 1") [] 0 ∧
  (object_store_gc_demo [1000; 1001; 1001; 1001; 1001]%N (mkWorld ∅ [])).1 =
    mkExit (line "Current object data: new-data" ++ line "GC deleted chunks: 0") [] 0.
Proof. vm_compute. done. Qed.

Example object_store_list_demo_prints :
  (object_store_list_demo [1000; 1001; 1002; 1003]%N (mkWorld ∅ [])).1 =
  mkExit (line "trip/b.txt size=3" ++ line "trip/a.txt size=3") [] 0.
Proof. vm_compute. reflexivity. Qed.

Lemma recover_demo_after_crash_witness :
  let '(s, w0) := (KVStore.open demo_wal (KVStore.new_store, mkWorld ∅ [])).2 in
  let '(r, e) := write_body (mkEnv (s, w0) [1000; 1001]%N 0) in
  let w3 := mkWorld {[ demo_wal := Wal.content_of demo_wal (kv_ e).2 ]} [] in
  status (object_store_recover_demo [] w3).1 = 0%Z.
Proof.
  destruct (KVStore.open demo_wal (KVStore.new_store, mkWorld ∅ [])) as [b [s w0]] eqn:E. cbn [snd].
  assert (b = true) as ->.
  { transitivity (KVStore.open demo_wal (KVStore.new_store, mkWorld ∅ [])).1; [by rewrite E|].
    vm_compute. reflexivity. }
  pose proof (λ w3, recover_demo_after_crash (λ s, fits_wrap 64 (N.of_nat (length s))) [] (mkWorld ∅ []) s w0 [1000; 1001]%N w3 [])
    as P.
  destruct (write_body _) as [r e]. cbv zeta.
  set (w3 := mkWorld {[ demo_wal := Wal.content_of demo_wal (kv_ e).2 ]} []).
  destruct (P w3) as (_ & Hr & _).
  - split; [reflexivity|reflexivity|split; vm_compute; discriminate|reflexivity|constructor|vm_compute; lia].
  - reflexivity.
  - exact E.
  - reflexivity.
  - unfold w3. cbn [files]. rewrite lookup_singleton_ne; [reflexivity|discriminate].
  - unfold w3, Wal.content_of at 1. cbn [files]. by rewrite lookup_singleton_eq.
  - exact Hr.
Defined.

End ObjectDemos.
