(* ===== verification/RaftDemo.v ===== *)
(** * The Raft demo

    [raft_demo.cpp]: three nodes over three stores, a leader crash and a restart.
    The background threads run during the program's sleeps, one iteration of a
    loop at a time, in an order that is an argument; what the nodes write to
    standard error is left out.  Whatever the order, the stores hold nothing but
    what the program proposed ([raft_demo_values]). *)

From S2P Require Import Prelude CxxString FileSystem KVStore Raft RaftSpec StorageDemos.
Import CxxString.

Module RaftDemo.
Import Raft RaftSpec StorageDemos.

(** ** The program's state *)

(** The node objects, the ids registered with the transport, the stores, and the
    file system, which the stores of this program never touch. *)
Record Demo := mkDemo {
  objects : gmap Z RaftNode;
  registered : gset Z;
  stores : gmap Z KVStore.KVStore;
  world : World;
}.

Definition set_objects (o : gmap Z RaftNode) (d : Demo) : Demo :=
  mkDemo o (registered d) (stores d) (world d).

Definition node_of (i : Z) (d : Demo) : RaftNode := default (make i []) (objects d !! i).

(** What a node's thread does through the transport reaches the registered nodes
    and itself. *)
Definition through_transport {A} (f : ST Transport A) (d : Demo) : A * Demo :=
  let '(a, t) := f (filter (λ x, x.1 ∈ registered d) (objects d)) in
  (a, set_objects (t ∪ objects d) d).

(** One iteration of a loop of node [i]. *)
Inductive Iteration := Election (i : Z) | Heartbeat (i : Z) | Apply (i : Z).

Definition apply_at (i : Z) (d : Demo) : Demo :=
  match stores d !! i with
  | None => d
  | Some s =>
      let '(n, (s, w)) := apply_once (node_of i d, (s, world d)) in
      mkDemo (<[i := n]> (objects d)) (registered d) (<[i := s]> (stores d)) w
  end.

Definition iterate (it : Iteration) (d : Demo) : Demo :=
  let i := match it with Election i | Heartbeat i | Apply i => i end in
  if negb (running_ (node_of i d)) then d
  else
    match it with
    | Election i => (through_transport (run_election i) d).2
    | Heartbeat i => (through_transport (heartbeat_rounds i (peers_ (node_of i d))) d).2
    | Apply i => apply_at i d
    end.

(** [sleep_for]. *)
Definition sleep (its : list Iteration) (d : Demo) : Demo := foldl (λ d it, iterate it d) d its.

(** ** The program *)

Definition role_name (r : RaftRole) : str :=
  match r with Follower => b# "F" | Candidate => b# "C" | Leader => b# "L" end.

Definition status_line (d : Demo) : str :=
  let shown i := b# "n" ++ dec i ++ b# "(" ++ role_name (role_ (node_of (Z.of_N i) d)) ++ b# ",t=" ++
    dec (current_term_ (node_of (Z.of_N i) d)) ++ b# ")" in
  shown 1%N ++ b# " " ++ shown 2%N ++ b# " " ++ shown 3%N ++ [nl].

(** The three lines that show a key in each store. *)
Definition show_key (key : str) (d : Demo) : str :=
  let shown i := b# "s" ++ dec i ++ b# ".get(" ++ key ++ b# ")=" ++
    default (b# "(nil)") (s ← stores d !! Z.of_N i; KVStore.get key s) ++ [nl] in
  shown 1%N ++ shown 2%N ++ shown 3%N.

(** The first of the ids whose node leads. *)
Definition find_leader (ids : list Z) (d : Demo) : option Z :=
  head (filter (λ i, role_ (node_of i d) = Leader) ids).

(** A waiting loop: at most [left] more naps, the first of which is [naps i]. *)
Fixpoint wait_for (ids : list Z) (prefix : str) (left i : nat) (naps : nat → list Iteration) (d : Demo)
    : option Z * str * Demo :=
  match left with
  | O => (None, [], d)
  | S left' =>
      let d := sleep (naps i) d in
      let out := prefix ++ status_line d in
      match find_leader ids d with
      | Some l => (Some l, out, d)
      | None => let '(l, out', d) := wait_for ids prefix left' (S i) naps d in (l, out ++ out', d)
      end
  end.

Definition start_node (i : Z) (d : Demo) : Demo := set_objects (<[i := Start (node_of i d)]> (objects d)) d.
Definition stop_node (i : Z) (d : Demo) : Demo := set_objects (<[i := Stop (node_of i d)]> (objects d)) d.
Definition stop_all (d : Demo) : Demo := stop_node 3 (stop_node 2 (stop_node 1 d)).

Definition peers_of (i : Z) : list Z :=
  if decide (i = 1%Z) then [2; 3]%Z else if decide (i = 2%Z) then [1; 3]%Z else [1; 2]%Z.

(** Constructs node [i], registers and starts it. *)
Definition launch (i : Z) (d : Demo) : Demo :=
  start_node i (mkDemo (<[i := make i (peers_of i)]> (objects d)) ({[ i ]} ∪ registered d) (stores d) (world d)).

Definition initial_demo (w : World) : Demo :=
  launch 3 (launch 2 (launch 1
    (mkDemo ∅ ∅ (<[1%Z := KVStore.new_store]> (<[2%Z := KVStore.new_store]> {[3%Z := KVStore.new_store]})) w))).

Definition propose (i : Z) (k v : str) (d : Demo) : bool * Demo := through_transport (ProposePut i k v) d.

Definition print_ok (label : str) (ok : bool) : str :=
  label ++ b# " -> " ++ (if ok then b# "true" else b# "false") ++ [nl].

(** The order in which the threads run during the five waits. *)
Record Schedule := mkSchedule {
  before : nat → list Iteration;
  after_put : list Iteration;
  after_crash : nat → list Iteration;
  after_second_put : list Iteration;
  after_restart : list Iteration;
}.

Definition raft_demo (sched : Schedule) (w : World) : Exit * Demo :=
  let '(leader, out1, d) := wait_for [1; 2; 3]%Z [] 40 0 (before sched) (initial_demo w) in
  match leader with
  | None => (mkExit out1 (line "No leader elected") 1, stop_all d)
  | Some leader =>
      let '(ok1, d) := propose leader (b# "a") (b# "100") d in
      let d := sleep (after_put sched) d in
      let out2 := out1 ++ b# "Leader is node " ++ dec (Z.to_N leader) ++ [nl] ++
        print_ok (b# "ProposePut(a=100)") ok1 ++ show_key (b# "a") d ++
        [nl] ++ line "=== Simulating leader crash ===" in
      let d := stop_node leader d in
      let d := mkDemo (objects d) (registered d ∖ {[ leader ]}) (stores d) (world d) in
      let '(new_leader, out3, d) := wait_for (filter (λ i, i ≠ leader) [1; 2; 3]%Z) (b# "after crash: ")
        50 0 (after_crash sched) d in
      match new_leader with
      | None => (mkExit (out2 ++ out3) (line "No new leader elected after crash") 1, stop_all d)
      | Some new_leader =>
          let '(ok2, d) := propose new_leader (b# "b") (b# "200") d in
          let d := sleep (after_second_put sched) d in
          let out4 := out2 ++ out3 ++ b# "New leader is node " ++ dec (Z.to_N new_leader) ++ [nl] ++
            print_ok (b# "ProposePut(b=200)") ok2 ++ show_key (b# "b") d ++
            [nl] ++ line "=== Restarting crashed node ===" in
          let d := launch leader d in
          let d := sleep (after_restart sched) d in
          (mkExit (out4 ++ line "after restart:" ++ show_key (b# "b") d) [] 0, stop_all d)
      end
  end.

(** ** A run *)

(** Node 1 is elected, then node 2; every heartbeat is followed by the apply loops. *)
Definition beats (i : Z) : list Iteration := [Heartbeat i; Heartbeat i; Apply 1; Apply 2; Apply 3; Apply 1; Apply 2; Apply 3]%Z.
Definition fair : Schedule :=
  mkSchedule (λ i, if decide (i = 1) then [Election 1%Z] else []) (beats 1)
    (λ i, if decide (i = 2) then [Election 2%Z] else []) (beats 2) (beats 2).

Example raft_demo_prints :
  (raft_demo fair (mkWorld ∅ [])).1 =
  mkExit (line "n1(F,t=0) n2(F,t=0) n3(F,t=0)" ++ line "n1(L,t=1) n2(F,t=1) n3(F,t=0)" ++
    line "Leader is node 1" ++ line "ProposePut(a=100) -> true" ++
    line "s1.get(a)=100" ++ line "s2.get(a)=100" ++ line "s3.get(a)=100" ++ [nl] ++
    line "=== Simulating leader crash ===" ++
    line "after crash: n1(L,t=1) n2(F,t=1) n3(F,t=1)" ++
    line "after crash: n1(L,t=1) n2(F,t=1) n3(F,t=1)" ++
    line "after crash: n1(L,t=1) n2(L,t=2) n3(F,t=2)" ++
    line "New leader is node 2" ++ line "ProposePut(b=200) -> true" ++
    line "s1.get(b)=(nil)" ++ line "s2.get(b)=200" ++ line "s3.get(b)=200" ++ [nl] ++
    line "=== Restarting crashed node ===" ++ line "after restart:" ++
    line "s1.get(b)=200" ++ line "s2.get(b)=200" ++ line "s3.get(b)=200") [] 0.
Proof. vm_compute. reflexivity. Qed.

(** ** Logs hold only what was proposed *)

Section Logs.
Context (P : LogEntry → Prop).

Definition logs_ok (t : Transport) : Prop := map_Forall (λ _ n, Forall P (log_ n)) t.

Lemma logs_insert t i n : logs_ok t → Forall P (log_ n) → logs_ok (<[i := n]> t).
Proof using. intros. by apply map_Forall_insert_2. Qed.

Lemma append_entries_logs req n :
  Forall P (log_ n) → Forall P (entries req) → Forall P (log_ (OnAppendEntries req n).2).
Proof using.
  intros Hn Hr. destruct (N.le_gt_cases (current_term_ n) (ae_term req)) as [Hle|Hgt].
  - pose proof (OnAppendEntries_run req n Hle) as R. destruct (OnAppendEntries req n) as [resp n'].
    destruct R as (_ & _ & _ & El & _). cbn. rewrite El. destruct (consistent req (log_ n)); [|done].
    unfold appended_log. destruct (entries req); [done|]. apply Forall_app. split; [by apply Forall_take|done].
  - unfold OnAppendEntries. by rewrite (proj2 (N.ltb_lt _ _)).
Qed.

Lemma AppendEntries_logs p req t : logs_ok t → Forall P (entries req) → logs_ok (AppendEntries p req t).2.
Proof using.
  intros Ht Hr. unfold AppendEntries. destruct (t !! p) as [n|] eqn:Hn; [|done].
  pose proof (append_entries_logs req n (Ht p n Hn) Hr) as H.
  destruct (OnAppendEntries req n). by apply logs_insert.
Qed.

Lemma RequestVote_logs p req t : logs_ok t → logs_ok (RequestVote p req t).2.
Proof using.
  intros Ht. unfold RequestVote. destruct (t !! p) as [n|] eqn:Hn; [|done].
  pose proof (request_vote_contract req n) as R. destruct (OnRequestVote req n) as [resp n'].
  destruct R as (_ & _ & El & _). apply logs_insert; [done|]. rewrite El. by apply (Ht p).
Qed.

Lemma at_node_logs {A} i (a : A) f t :
  (∀ n, log_ (f n).2 = log_ n) → logs_ok t → logs_ok (at_node i a f t).2.
Proof using.
  intros Hf Ht. unfold at_node. destruct (t !! i) as [n|] eqn:Hn; [|done].
  specialize (Hf n). destruct (f n). apply logs_insert; [done|]. cbn in Hf. rewrite Hf. by apply (Ht i).
Qed.

Lemma vote_response_log ts votes resp n : log_ (on_vote_response ts votes resp n).2 = log_ n.
Proof using. unfold on_vote_response. repeat case_match; done. Qed.

Lemma heartbeat_response_log p req resp n : log_ (on_heartbeat_response p req resp n) = log_ n.
Proof using.
  unfold on_heartbeat_response. destruct (_ <? _)%N; [done|]. destruct (success resp); cbv zeta; cbn [log_ set_indexes].
  - destruct (entries req); exact (eq_trans (proj1 (advance_log _)) eq_refl).
  - destruct (next_index_ n !! p); [|done]. by destruct (_ <? _)%N.
Qed.

Lemma commit_response_log resp n : log_ (on_commit_response resp n).2 = log_ n.
Proof using. unfold on_commit_response. by destruct (_ <? _)%N. Qed.

Lemma election_rounds_logs i req votes ps t : logs_ok t → logs_ok (election_rounds i req votes ps t).2.
Proof using.
  revert votes t. induction ps as [|p ps IH]; intros votes t Ht; [done|].
  cbn [election_rounds]. unfold mbind, ST_bind.
  pose proof (RequestVote_logs p req t Ht) as H1. destruct (RequestVote p req t) as [resp t1]. cbn in H1.
  pose proof (at_node_logs i (false, votes) (on_vote_response (rv_term req) votes resp) t1
    (vote_response_log _ _ _) H1) as H2.
  destruct (at_node _ _ _ t1) as [[[] votes'] t2]; cbn in H2; [by apply IH|done].
Qed.

Lemma run_election_logs i t : logs_ok t → logs_ok (run_election i t).2.
Proof using.
  intros Ht. unfold run_election. destruct (t !! i) as [n|] eqn:Hn; [|done].
  destruct (decide (role_ n = Leader)); [done|]. destruct (start_election n) as [req n'] eqn:E.
  apply election_rounds_logs, logs_insert; [done|]. injection E as _ <-. by apply (Ht i n).
Qed.

Lemma built_entries p n : Forall P (log_ n) → Forall P (entries (BuildAppendEntriesLocked p n)).
Proof using.
  intros Hn. unfold BuildAppendEntriesLocked. cbv zeta. cbn [entries].
  destruct (_ && _); [by apply Forall_drop|done].
Qed.

Lemma heartbeat_rounds_logs i ps t : logs_ok t → logs_ok (heartbeat_rounds i ps t).2.
Proof using.
  revert t. induction ps as [|p ps IH]; intros t Ht; [done|]. cbn [heartbeat_rounds].
  destruct (t !! i) as [n|] eqn:Hn; [|done]. destruct (decide (role_ n ≠ Leader)); [done|]. cbv zeta.
  pose proof (AppendEntries_logs p _ t Ht (built_entries p n (Ht i n Hn))) as H1.
  destruct (AppendEntries p _ t) as [resp t1]. cbn in H1.
  match goal with |- context [at_node i false ?f t1] =>
    pose proof (at_node_logs i false f t1 (λ m, heartbeat_response_log _ _ _ m) H1) as H2;
    destruct (at_node i false f t1) as [[] t2]
  end; cbn in H2; [by apply IH|done].
Qed.

Lemma replicate_rounds_logs i req acks ps t :
  Forall P (entries req) → logs_ok t → logs_ok (replicate_rounds i req acks ps t).2.
Proof using.
  intros Hr. revert acks t. induction ps as [|p ps IH]; intros acks t Ht; [done|].
  cbn [replicate_rounds]. unfold mbind, ST_bind, mret, ST_ret.
  pose proof (AppendEntries_logs p req t Ht Hr) as H1. destruct (AppendEntries p req t) as [resp t1]. cbn in H1.
  pose proof (at_node_logs i Fails (on_proposal_response acks resp) t1
    (λ n, proj1 (proposal_response_log acks resp n)) H1) as H2.
  destruct (at_node _ _ _ t1) as [[] t2]; cbn in H2; [done|done|by apply IH].
Qed.

Lemma commit_rounds_logs i req ps t :
  Forall P (entries req) → logs_ok t → logs_ok (commit_rounds i req ps t).2.
Proof using.
  intros Hr. revert t. induction ps as [|p ps IH]; intros t Ht; [done|].
  cbn [commit_rounds]. unfold mbind, ST_bind, mret, ST_ret.
  pose proof (AppendEntries_logs p req t Ht Hr) as H1. destruct (AppendEntries p req t) as [resp t1]. cbn in H1.
  pose proof (at_node_logs i false (on_commit_response resp) t1 (commit_response_log resp) H1) as H2.
  destruct (at_node _ _ _ t1) as [[] t2]; cbn in H2; [by apply IH|done].
Qed.

Lemma Propose_logs i entry t : (∀ n, P (entry n)) → logs_ok t → logs_ok (Propose i entry t).2.
Proof using.
  intros He Ht. unfold Propose. destruct (t !! i) as [n|] eqn:Hn; [|done].
  destruct (negb (IsLeaderLocked n)); [done|]. cbv zeta.
  set (n1 := append_proposal (entry n) n). set (req := proposal_request (entry n) n1).
  assert (H0 : logs_ok (<[i := n1]> t)).
  { apply logs_insert; [done|]. apply Forall_app. split; [by apply (Ht i)|by apply Forall_singleton]. }
  assert (Hreq : Forall P (entries req)) by (by apply Forall_singleton).
  pose proof (replicate_rounds_logs i req 1 (peers_ n1) _ Hreq H0) as H1.
  destruct (replicate_rounds _ _ _ _ _) as [[acks|] t1]; cbn in H1; [|done].
  destruct (acks <? needed n1)%N; [done|]. destruct (t1 !! i) as [n2|]; [|done].
  pose proof (commit_rounds_logs i (commit_request n2) (peers_ n2) t1 (Forall_nil_2 _) H1) as H2.
  by destruct (commit_rounds _ _ _ t1).
Qed.

Lemma through_transport_logs {A} (f : ST Transport A) d :
  (∀ t, logs_ok t → logs_ok (f t).2) → logs_ok (objects d) → logs_ok (objects (through_transport f d).2).
Proof using.
  intros Hf Hd. unfold through_transport.
  assert (H0 : logs_ok (filter (λ x, x.1 ∈ registered d) (objects d))).
  { intros i n [Hi _]%map_lookup_filter_Some. by apply (Hd i). }
  specialize (Hf _ H0). destruct (f _) as [a t]. cbn in *. intros i n [Hi|[_ Hi]]%lookup_union_Some_raw;
    [by apply (Hf i)|by apply (Hd i)].
Qed.

(** ** Stores hold only what was proposed *)

Definition store_ok (s : KVStore.KVStore) : Prop :=
  ∀ k v, KVStore.get k s = Some v → ∃ e, P e ∧ op e = Put ∧ key e = k ∧ value e = v.

Record good (d : Demo) : Prop := mkGood {
  good_logs : logs_ok (objects d);
  good_stores : map_Forall (λ _ s, store_ok s) (stores d);
}.

Lemma good_objects d o : good d → logs_ok o → good (set_objects o d).
Proof using. intros [_ Hs] Ho. by constructor. Qed.

Lemma good_node d i : good d → Forall P (log_ (node_of i d)).
Proof using. intros [Hl _]. unfold node_of. destruct (objects d !! i) as [n|] eqn:Hn; [by apply (Hl i n)|done]. Qed.

Lemma good_through {A} (f : ST Transport A) d :
  (∀ t, logs_ok t → logs_ok (f t).2) → good d → good (through_transport f d).2.
Proof using.
  intros Hf Hd. pose proof (through_transport_logs f d Hf (good_logs _ Hd)) as Hl.
  unfold through_transport in *. destruct (f _) as [a t]. by apply good_objects.
Qed.

Lemma apply_entry_ok e s w :
  P e → store_ok s → store_ok (apply_entry e (s, w)).1.
Proof using.
  intros He Hs k v. unfold apply_entry, KVStore.get. destruct (op e) eqn:Ho; cbn.
  - rewrite lookup_insert_Some. intros [[<- <-]|[_ Hk]]; [by exists e|by apply Hs].
  - rewrite lookup_delete_Some. intros [_ Hk]. by apply Hs.
Qed.

Lemma good_apply i d : good d → good (apply_at i d).
Proof using.
  intros Hd. unfold apply_at. destruct (stores d !! i) as [s|] eqn:Hs; [|done].
  pose proof (good_node d i Hd) as Hn. destruct Hd as [Hl Hst]. specialize (Hst i s Hs) as Hok.
  unfold apply_once. cbn [fst snd].
  assert (Htc : ∀ o n', take_committed (node_of i d) = (o, n') →
    log_ n' = log_ (node_of i d) ∧ ∀ e, o = Some e → P e).
  { unfold take_committed. intros o n'. destruct (_ <? _)%N; intros [= <- <-]; (split; [done|]); [|done].
    intros e He. rewrite Forall_lookup in Hn. by eapply Hn. }
  destruct (take_committed (node_of i d)) as [o n'] eqn:E. destruct (Htc o n' eq_refl) as [Hlog He].
  assert (Hs' : store_ok (match o with Some e => apply_entry e (s, world d) | None => (s, world d) end).1).
  { destruct o as [e|]; [|done]. apply apply_entry_ok; [by apply He|done]. }
  destruct (match o with Some e => _ | None => _ end) as [s' w']. cbn in Hs'. constructor; cbn.
  - apply logs_insert; [done|]. by rewrite Hlog.
  - by apply map_Forall_insert_2.
Qed.

Lemma good_iterate it d : good d → good (iterate it d).
Proof using.
  intros Hd. unfold iterate. destruct (negb _); [done|]. destruct it as [i|i|i].
  - apply good_through; [|done]. intros t. apply run_election_logs.
  - apply good_through; [|done]. intros t. apply heartbeat_rounds_logs.
  - by apply good_apply.
Qed.

Lemma good_sleep its d : good d → good (sleep its d).
Proof using. revert d. induction its as [|it its IH]; intros d Hd; [done|]. apply IH, good_iterate, Hd. Qed.

Lemma good_wait ids prefix left i naps d : good d → good (wait_for ids prefix left i naps d).2.
Proof using.
  revert i d. induction left as [|left IH]; intros i d Hd; [done|]. cbn [wait_for].
  pose proof (good_sleep (naps i) d Hd) as H1. destruct (find_leader ids _); [done|].
  specialize (IH (S i) _ H1). by destruct (wait_for ids prefix left (S i) naps _) as [[l o] d'].
Qed.

End Logs.

(** ** The demo's proposals *)

Definition proposals : list (str * str) := [(b# "a", b# "100"); (b# "b", b# "200")].
Definition proposed (e : LogEntry) : Prop := op e = Put ∧ (key e, value e) ∈ proposals.

Lemma good_propose i k v d : (k, v) ∈ proposals → good proposed d → good proposed (propose i k v d).2.
Proof.
  intros Hkv Hd. apply good_through; [|done]. intros t. apply Propose_logs. intros n. by split.
Qed.

Lemma good_start i d : good proposed d → good proposed (start_node i d).
Proof. intros Hd. apply good_objects; [done|]. apply logs_insert; [by destruct Hd|]. by apply good_node. Qed.

Lemma good_stop i d : good proposed d → good proposed (stop_node i d).
Proof. intros Hd. apply good_objects; [done|]. apply logs_insert; [by destruct Hd|]. by apply good_node. Qed.

Lemma good_stop_all d : good proposed d → good proposed (stop_all d).
Proof. intros Hd. by do 3 apply good_stop. Qed.

Lemma good_launch i d : good proposed d → good proposed (launch i d).
Proof.
  intros [Hl Hs]. apply good_start. constructor; [|done]. cbn. by apply logs_insert.
Qed.

Lemma good_initial w : good proposed (initial_demo w).
Proof.
  do 3 apply good_launch. constructor; [by intros i n Hn|]. cbn. intros i s.
  assert (Hnew : store_ok proposed KVStore.new_store) by done.
  rewrite !lookup_insert_Some, lookup_singleton_Some. intros Hi.
  by destruct Hi as [[_ <-]|[_ [[_ <-]|[_ [_ <-]]]]].
Qed.

(** ** Properties *)

(** The Raft demo shows only what was proposed.  In whatever order the threads of
    the three nodes run while the program waits, whether or not the leaders it
    waits for come, at the end no store holds anything but the values 100 of a
    and 200 of b, and no log has any other entry. *)
Theorem raft_demo_values sched w :
  let d := (raft_demo sched w).2 in
  (∀ i s k v, stores d !! i = Some s → KVStore.get k s = Some v → (k, v) ∈ proposals) ∧
  (∀ i n e, objects d !! i = Some n → e ∈ log_ n → op e = Put ∧ (key e, value e) ∈ proposals).
Proof.
  enough (H : good proposed (raft_demo sched w).2).
  { destruct H as [Hl Hs]. split.
    - intros i s k v Hi Hk. by destruct (Hs i s Hi k v Hk) as (e & [_ He] & _ & <- & <-).
    - intros i n e Hi He. specialize (Hl i n Hi). rewrite Forall_forall in Hl. by apply Hl. }
  unfold raft_demo. pose proof (good_wait proposed [1; 2; 3]%Z [] 40 0 (before sched) _ (good_initial w)) as H1.
  destruct (wait_for _ _ _ _ _ _) as [[[l|] o] d1]; cbn in H1; [|by apply good_stop_all].
  pose proof (good_propose l (b# "a") (b# "100") d1 ltac:(left) H1) as H2.
  destruct (propose l _ _ d1) as [ok1 d2]. cbn in H2. apply (good_sleep proposed (after_put sched)) in H2.
  match goal with |- context [wait_for ?ids ?p 50 0 ?n ?d] =>
    assert (H3 : good proposed (wait_for ids p 50 0 n d).2); [apply good_wait|destruct (wait_for ids p 50 0 n d) as [[[l2|] o2] d3]]
  end; cbn in *.
  { apply (good_stop l) in H2. by destruct H2. }
  - pose proof (good_propose l2 (b# "b") (b# "200") d3 ltac:(by apply (bool_decide_unpack _)) H3) as H4.
    destruct (propose l2 _ _ d3) as [ok2 d4]. cbn in *. apply good_stop_all, good_sleep, good_launch.
    by apply good_sleep.
  - by apply good_stop_all.
Qed.

End RaftDemo.
