(* ===== verification/Startup.v ===== *)
(** * The servers' programs

    The rest of [server_main.cpp] and [cluster_demo.cpp]: the listening sockets,
    the accept loops, and [main].  The outcomes of the socket calls, the bytes that
    connections carry and the order in which the threads run are arguments. *)

From S2P Require Import Prelude CxxString FileSystem MemTable Compactor Wal FlushWorker KVStore KVWrites Raft RaftSpec Server Client StorageDemos RaftDemo.
Import CxxString.

Module Startup.
Import Server.

(** ** The listening socket *)

(** Which of the calls succeed. *)
Record Setup := mkSetup { socket_ok : bool; bind_ok : bool; listen_ok : bool }.

(** The calls on the descriptor, in order. *)
Inductive Call := Socket | SetReuseAddr | Bind (port : Z) | Listen (backlog : Z) | Close.

(** The port as [static_cast<uint16_t>(port)]. *)
Definition port16 (port : Z) : Z := (port mod 2 ^ 16)%Z.

(** The calls made, and the message of the one that failed. *)
Definition open_listener (o : Setup) (port : Z) : list Call * option str :=
  if negb (socket_ok o) then ([Socket], Some (b# "socket() failed"))
  else if negb (bind_ok o) then
    ([Socket; SetReuseAddr; Bind (port16 port); Close], Some (b# "bind() failed"))
  else if negb (listen_ok o) then
    ([Socket; SetReuseAddr; Bind (port16 port); Listen 16; Close], Some (b# "listen() failed"))
  else ([Socket; SetReuseAddr; Bind (port16 port); Listen 16], None).

Definition print_int (z : Z) : str :=
  if (z <? 0)%Z then b# "-" ++ dec (Z.to_N (- z)) else dec (Z.to_N z).

(** ** [kv_server] *)

Module KvServer.

(** [std::atoi] reads as [>>] does; outside the range of [int] it is undefined,
    here the nearest limit. *)
Definition port_of (args : list str) : Z :=
  match args with [] => 9000%Z | arg :: _ => read_int arg end.

(** The accept loop: the responses of each connection; [None] is an [accept] that
    fails. *)
Fixpoint accept_loop (accepts : list (option (list str))) : ST Process (list str) :=
  match accepts with
  | [] => mret []
  | None :: accepts' => accept_loop accepts'
  | Some chunks :: accepts' =>
      out ← Server.KvServer.connection chunks;
      outs ← accept_loop accepts';
      mret (out :: outs)
  end.

(** What happens: the program ends, or serves connections until it is killed. *)
Inductive Outcome :=
  | Ends (err : str) (status : Z) (calls : list Call)
  | Serves (out : str) (calls : list Call) (responses : list str) (p : Process).

Section Main.
Context `{Abi, SortVersions}.

Definition main (o : Setup) (args : list str) (accepts : list (option (list str))) (w : World)
    : Outcome * World :=
  let port := port_of args in
  let '(ok, (s, w)) := KVStore.open (b# "/tmp/kv_server.wal") (KVStore.new_store, w) in
  if negb ok then (Ends (StorageDemos.line "failed to open WAL") 1 [], StorageDemos.destroy (s, w))
  else
    match open_listener o port with
    | (calls, Some msg) => (Ends (msg ++ [nl]) 1 calls, StorageDemos.destroy (s, w))
    | (calls, None) =>
        let '(responses, p) := accept_loop accepts (mkProcess s w ∅) in
        (Serves (b# "kv_server listening on port " ++ print_int port ++ [nl]) calls responses p, world p)
    end.

End Main.

End KvServer.

(** ** [cluster_demo] *)

Module ClusterDemo.
Import RaftDemo.

(** The stores and nodes, and for each server with an open connection the
    unfinished line. *)
Record Running := mkRunning { sys : Client.System; pending : gmap Z str }.

(** A server accepts, a read returns some bytes or the end of the connection, or a
    thread of a node runs one iteration of its loop. *)
Inductive Event := Accept (id : Z) | Read (id : Z) (chunk : str) | Eof (id : Z) | Thread (it : Iteration).

(** The threads of the nodes, as in [RaftDemo]: every node is registered. *)
Definition run_thread (it : Iteration) (s : Client.System) : Client.System :=
  let d := iterate it (mkDemo (Client.nodes s) (dom (Client.nodes s)) (Client.stores s) (Client.disk s)) in
  Client.mkSystem (stores d) (RaftDemo.world d) (objects d).

(** One [read] of the connection of node [id]'s server. *)
Definition read_chunk (id : Z) (chunk line : str) (s : Client.System) : str * str * Client.System :=
  match Client.stores s !! id with
  | None => ([], line, s)
  | Some st =>
      let '(out, rest, p) := on_read (Server.ClusterDemo.handle_command (Some id)) chunk line
                               (mkProcess st (Client.disk s) (Client.nodes s)) in
      (out, rest, Client.mkSystem (<[id := store p]> (Client.stores s)) (Server.world p) (cluster p))
  end.

(** An event at the servers that listen: what is written to which connection. *)
Definition event (listening : list Z) (ev : Event) (r : Running) : option (Z * str) * Running :=
  match ev with
  | Accept id =>
      if decide (id ∈ listening ∧ pending r !! id = None)
      then (None, mkRunning (sys r) (<[id := []]> (pending r))) else (None, r)
  | Read id chunk =>
      match pending r !! id with
      | None => (None, r)
      | Some line =>
          let '(out, rest, s) := read_chunk id chunk line (sys r) in
          (Some (id, out), mkRunning s (<[id := rest]> (pending r)))
      end
  | Eof id => (None, mkRunning (sys r) (delete id (pending r)))
  | Thread it => (None, mkRunning (run_thread it (sys r)) (pending r))
  end.

Fixpoint events (listening : list Z) (evs : list Event) : ST Running (list (Z * str)) :=
  match evs with
  | [] => mret []
  | ev :: evs' =>
      o ← event listening ev;
      outs ← events listening evs';
      mret (option_list o ++ outs)
  end.

(** [run_server] up to its accept loop: the message, and whether it listens. *)
Definition run_server (o : Setup) (port : Z) : list Call * str * bool :=
  match open_listener o port with
  | (calls, Some msg) => (calls, msg ++ b# " on port " ++ print_int port ++ [nl], false)
  | (calls, None) => (calls, b# "server listening on port " ++ print_int port ++ [nl], true)
  end.

(** The nodes whose servers listen. *)
Definition listening (setups : Z → Setup) : list Z :=
  (filter (λ x, (run_server (setups x.2) x.1).2 = true) Client.servers).*2.

(** [main]: what the connections are sent, the exit status if all three threads
    end, and the state then. *)
Definition main (setups : Z → Setup) (evs : list Event) (w : World) : list (Z * str) * option Z * Running :=
  let '(outs, r) := events (listening setups) evs (mkRunning (Client.initial_system w) ∅) in
  (outs, if decide (listening setups = []) then Some 0%Z else None, r).

(** ** A run *)

Definition all_ok (id : Z) : Setup := mkSetup true true true.

(** Node 1 is elected; a put sent to node 2 is redirected, sent to node 1 in two
    pieces it is acknowledged, and after two heartbeats node 3 answers with it. *)
Definition example_events : list Event :=
  [Thread (Election 1); Thread (Heartbeat 1); Accept 2; Read 2 (b# "PUT k v" ++ [nl]); Eof 2;
   Accept 1; Read 1 (b# "PUT k"); Accept 3; Read 1 (b# " v" ++ [chr 13; nl]);
   Read 3 (b# "GET k" ++ [nl]); Thread (Heartbeat 1); Thread (Heartbeat 1); Thread (Apply 3);
   Read 3 (b# "GET k" ++ [nl])]%Z.

Example cluster_session :
  (main all_ok example_events (mkWorld ∅ [])).1 =
  ([(2%Z, StorageDemos.line "NOT_LEADER 9101"); (1%Z, []); (1%Z, StorageDemos.line "OK");
    (3%Z, StorageDemos.line "NOT_FOUND"); (3%Z, StorageDemos.line "VALUE v")], None).
Proof. vm_compute. reflexivity. Qed.

End ClusterDemo.

(** ** Lemmas *)

(** The map of the stand-alone server never changes, so every connection is
    answered from the map it started with. *)
Lemma accept_loop_run accepts p :
  let '(rs, p') := KvServer.accept_loop accepts p in
  KVStore.map_ (store p') = KVStore.map_ (store p) ∧
  ∀ j chunks, omap id accepts !! j = Some chunks → ∃ q,
    KVStore.map_ (store q) = KVStore.map_ (store p) ∧
    rs !! j = Some (Server.KvServer.connection chunks q).1.
Proof.
  revert p. induction accepts as [|[chunks|] accepts IH]; intros p; [done| |exact (IH p)].
  cbn [KvServer.accept_loop omap list_omap]. unfold mbind, ST_bind, mret, ST_ret.
  assert (Hm : KVStore.map_ (store (Server.KvServer.connection chunks p).2) = KVStore.map_ (store p)).
  { unfold Server.KvServer.connection. rewrite serve_run by apply not_elem_of_nil. apply lines_without_raft. }
  destruct (Server.KvServer.connection chunks p) as [out p1] eqn:E. cbn [snd] in Hm.
  specialize (IH p1). destruct (KvServer.accept_loop accepts p1) as [rs p2]. destruct IH as [IH1 IH2].
  split; [congruence|]. intros [|j] chunks'; cbn.
  - intros [= <-]. exists p. by rewrite E.
  - intros (q & Hq & Hr)%IH2. exists q. split; [congruence|done].
Qed.

Lemma get_answer k chunks q :
  word k → k ≠ [] → concat chunks = b# "GET" ++ sp :: k ++ [nl] →
  (Server.KvServer.connection chunks q).1 = get_response (KVStore.map_ (store q) !! k).
Proof.
  intros Hk Hne Hc. unfold Server.KvServer.connection. rewrite serve_run by apply not_elem_of_nil.
  assert (Hnl : nl ∉ b# "GET" ++ sp :: k).
  { rewrite elem_of_app, elem_of_cons. pose proof (word_not_elem nl k eq_refl Hk).
    intros [H1|[H1|H1]]; [|done|done]. revert H1. by apply (bool_decide_unpack _). }
  rewrite Hc. cbn [app]. change (b# "GET" ++ sp :: k ++ [nl]) with ((b# "GET" ++ sp :: k) ++ nl :: []).
  rewrite complete_line by done. cbn [fst complete fmap list_fmap].
  assert (Hch : chomp (b# "GET" ++ sp :: k) = b# "GET" ++ sp :: k).
  { unfold chomp. destruct (last (b# "GET" ++ sp :: k)) as [c|] eqn:E; [|done].
    rewrite decide_False; [done|]. intros ->. destruct (exists_last Hne) as (k' & c & ->).
    change (b# "GET" ++ sp :: k' ++ [c]) with ((b# "GET" ++ sp :: k') ++ [c]) in E.
    rewrite last_snoc in E. injection E as ->. apply Forall_app in Hk as [_ Hk].
    by apply Forall_cons in Hk as [? _]. }
  rewrite Hch. cbn [handle_lines]. unfold mbind, ST_bind, mret, ST_ret.
  unfold Server.KvServer.handle_command at 1.
  rewrite next_word_app by (by apply word_dec || done). cbn [is_leader this_node].
  rewrite decide_False, decide_True by done. rewrite next_word_skip, next_word_all by done.
  rewrite bool_decide_eq_false_2 by done. cbn [fst]. apply app_nil_r.
Qed.

(** ** The stand-alone server *)

Section KvServerMain.
Context `{Abi, SortVersions}.

(** What [kv_server] does.  It ends with status 1, a message and no socket left
    open when its log does not open or a socket call fails; otherwise it listens on
    the port its argument names, reduced to 16 bits, and answers every [GET], on
    whatever connection and after whatever else was sent, from the map that its
    log restored, which no client can change. *)
Theorem kv_server_main o args accepts w :
  let '(ok, e) := KVStore.open (b# "/tmp/kv_server.wal") (KVStore.new_store, w) in
  match (KvServer.main o args accepts w).1 with
  | KvServer.Ends err status calls =>
      status = 1%Z ∧ err ≠ [] ∧ (last calls = Some Close ∨ calls = [Socket] ∨ calls = []) ∧
      (ok = false ∨ socket_ok o && bind_ok o && listen_ok o = false)
  | KvServer.Serves out calls responses p =>
      ok = true ∧ socket_ok o && bind_ok o && listen_ok o = true ∧
      calls = [Socket; SetReuseAddr; Bind (port16 (KvServer.port_of args)); Listen 16] ∧
      KVStore.map_ (store p) = KVStore.map_ e.1 ∧
      ∀ j k chunks, omap id accepts !! j = Some chunks → word k → k ≠ [] →
        concat chunks = b# "GET" ++ sp :: k ++ [nl] →
        responses !! j = Some (get_response (KVStore.map_ e.1 !! k))
  end.
Proof using.
  unfold KvServer.main. destruct (KVStore.open _ _) as [ok [s w1]]. destruct ok; cbn [negb].
  - unfold open_listener. destruct (socket_ok o), (bind_ok o), (listen_ok o); cbn [negb andb fst];
      try (split_and!; [done|done|cbn; by auto|by right]).
    pose proof (accept_loop_run accepts (mkProcess s w1 ∅)) as R.
    destruct (KvServer.accept_loop accepts (mkProcess s w1 ∅)) as [rs p]. destruct R as [R1 R2].
    cbn [fst]. split_and!; [done..|]. intros j k chunks Hj Hk Hne Hc. destruct (R2 j chunks Hj) as (q & Hq & ->).
    by rewrite (get_answer k) by done; rewrite Hq.
  - split_and!; [done|done|by right; right|by left].
Qed.

End KvServerMain.

(** ** The cluster *)

Module ClusterSpec.
Import ClusterDemo RaftDemo.

(** The lines that the servers handle, in order: what [events] hands to
    [handle_command]. *)
Fixpoint handled (listening : list Z) (evs : list Event) (pending : gmap Z str) : list str :=
  match evs with
  | [] => []
  | Accept id :: evs' =>
      handled listening evs'
        (if decide (id ∈ listening ∧ pending !! id = None) then <[id := []]> pending else pending)
  | Read id chunk :: evs' =>
      match pending !! id with
      | None => handled listening evs' pending
      | Some line =>
          let '(ls, rest) := take_lines (S (length (line ++ chunk))) (line ++ chunk) 0 in
          ls ++ handled listening evs' (<[id := rest]> pending)
      end
  | Eof id :: evs' => handled listening evs' (delete id pending)
  | Thread _ :: evs' => handled listening evs' pending
  end.

(** The command line that puts [v] at [k], or deletes [k]. *)
Definition puts (l k v : str) : Prop :=
  ∃ iss iss', next_word l = (b# "PUT", iss) ∧ next_word iss = (k, iss') ∧ (next_word iss').1 = v.
Definition deletes (l k : str) : Prop :=
  ∃ iss, next_word l = (b# "DEL", iss) ∧ (next_word iss).1 = k.

(** The entry of a log comes from one of the lines. *)
Definition from_lines (ls : list str) (e : Raft.LogEntry) : Prop :=
  ∃ l, l ∈ ls ∧ (Raft.op e = Raft.Put ∧ puts l (Raft.key e) (Raft.value e) ∨
                 Raft.op e = Raft.Del ∧ deletes l (Raft.key e)).

Section Values.
Context (P : Raft.LogEntry → Prop).

Definition allows (l : str) : Prop := ∀ e, from_lines [l] e → P e.

Lemma handle_logs id l p :
  allows l → logs_ok P (cluster p) →
  let p' := (Server.ClusterDemo.handle_command (Some id) l p).2 in
  logs_ok P (cluster p') ∧ store p' = store p.
Proof using.
  intros Hl Hp. unfold Server.ClusterDemo.handle_command. destruct (next_word l) as [cmd iss] eqn:Hcmd.
  assert (Hput : ∀ k v n, cmd = b# "PUT" → (∃ iss', next_word iss = (k, iss') ∧ (next_word iss').1 = v) →
    P (Raft.put_entry k v n)).
  { intros k v n -> (iss' & H1 & H2). apply Hl. exists l. split; [left|]. left. split; [done|].
    by exists iss, iss'. }
  assert (Hdel : ∀ k n, cmd = b# "DEL" → (next_word iss).1 = k → P (Raft.del_entry k n)).
  { intros k n -> Hk. apply Hl. exists l. split; [left|]. right. split; [done|]. by exists iss. }
  assert (Hrun : ∀ (A : Type) (m : ST Raft.Transport A), logs_ok P (m (cluster p)).2 →
    logs_ok P (cluster (on_cluster m p).2) ∧ store (on_cluster m p).2 = store p).
  { intros A m Hm. unfold on_cluster. by destruct (m (cluster p)). }
  repeat case_decide; try done.
  - destruct (next_word iss) as [k iss'] eqn:Hk. destruct (next_word iss') as [v iss''] eqn:Hv.
    destruct (_ || _); [done|]. destruct (is_leader _ _); [|done].
    destruct (Hrun _ (Raft.ProposePut id k v)) as [R1 R2].
    { apply Propose_logs; [|done]. intros n. apply Hput; [done|]. exists iss'. by rewrite Hv. }
    by destruct (on_cluster (Raft.ProposePut id k v) p).
  - destruct (next_word iss) as [k iss']. by case_bool_decide.
  - destruct (next_word iss) as [k iss'] eqn:Hk. case_bool_decide; [done|].
    destruct (is_leader _ _); [|done]. destruct (Hrun _ (Raft.ProposeDel id k)) as [R1 R2].
    { apply Propose_logs; [|done]. intros n. by apply Hdel. }
    by destruct (on_cluster (Raft.ProposeDel id k) p).
  - apply Hrun. by apply at_node_logs.
Qed.

Lemma lines_logs id ls p :
  Forall allows ls → logs_ok P (cluster p) →
  let p' := (handle_lines (Server.ClusterDemo.handle_command (Some id)) ls p).2 in
  logs_ok P (cluster p') ∧ store p' = store p.
Proof using.
  intros Hls. revert p. induction Hls as [|l ls Hl _ IH]; intros p Hp; [done|]. cbn [handle_lines].
  unfold mbind, ST_bind, mret, ST_ret. pose proof (handle_logs id l p Hl Hp) as [H1 H2].
  destruct (Server.ClusterDemo.handle_command (Some id) l p) as [r p1]. cbn [snd] in *.
  specialize (IH p1 H1). destruct (handle_lines _ ls p1) as [rs p2]. cbn [snd] in *.
  destruct IH as [IH1 IH2]. split; [done|congruence].
Qed.

(** The nodes and stores of a system. *)
Record sys_good (s : Client.System) : Prop := mkSysGood {
  sg_logs : logs_ok P (Client.nodes s);
  sg_stores : map_Forall (λ _ st, store_ok P st) (Client.stores s);
}.

Lemma thread_good it s : sys_good s → sys_good (run_thread it s).
Proof using.
  intros [Hl Hs]. assert (H : good P (iterate it (mkDemo (Client.nodes s) (dom (Client.nodes s))
    (Client.stores s) (Client.disk s)))) by (by apply good_iterate; constructor).
  by destruct H; constructor.
Qed.

Lemma thread_stores it s id :
  is_Some (Client.stores s !! id) → is_Some (Client.stores (run_thread it s) !! id).
Proof using.
  intros Hs. unfold run_thread, iterate. cbn [Client.stores].
  set (d := mkDemo _ _ _ _). change (is_Some (stores d !! id)) in Hs.
  destruct (negb _); [done|]. destruct it as [i|i|i].
  - unfold through_transport. by destruct (Raft.run_election _ _).
  - unfold through_transport. by destruct (Raft.heartbeat_rounds _ _ _).
  - unfold apply_at. destruct (stores d !! i) as [st|] eqn:Hi; [|done].
    destruct (RaftSpec.apply_once _) as [n [st' w]]. cbn. rewrite lookup_insert_is_Some. by destruct (decide (i = id)); [left|right].
Qed.

Lemma read_good id chunk line s st :
  Client.stores s !! id = Some st → sys_good s →
  let ls := (take_lines (S (length (line ++ chunk))) (line ++ chunk) 0).1 in
  Forall allows ls →
  let '(out, rest, s') := read_chunk id chunk line s in
  rest = (take_lines (S (length (line ++ chunk))) (line ++ chunk) 0).2 ∧ sys_good s' ∧
  Client.stores s' = Client.stores s.
Proof using.
  intros Hst [Hl Hs] ls Hall. unfold read_chunk. rewrite Hst. unfold on_read.
  destruct (take_lines _ _ _) as [ls' rest] eqn:E. cbn [fst snd] in *. subst ls.
  unfold mbind, ST_bind, mret, ST_ret.
  pose proof (lines_logs id ls' (mkProcess st (Client.disk s) (Client.nodes s)) Hall Hl) as [H1 H2].
  destruct (handle_lines _ ls' _) as [rs p]. cbn [fst snd store] in *. rewrite H2, insert_id by done.
  split_and!; [done|by constructor|done].
Qed.

Lemma events_good listening evs r :
  (∀ l, l ∈ handled listening evs (pending r) → allows l) →
  (∀ id, is_Some (pending r !! id) → id ∈ listening) →
  (∀ id, id ∈ listening → is_Some (Client.stores (sys r) !! id)) →
  sys_good (sys r) → sys_good (sys (events listening evs r).2).
Proof using.
  revert r. induction evs as [|ev evs IH]; intros r Hh Hp Hst Hg; [done|].
  assert (Hstep : sys_good (sys (event listening ev r).2) ∧
    (∀ l, l ∈ handled listening evs (pending (event listening ev r).2) → allows l) ∧
    (∀ id, is_Some (pending (event listening ev r).2 !! id) → id ∈ listening) ∧
    (∀ id, id ∈ listening → is_Some (Client.stores (sys (event listening ev r).2) !! id))).
  { destruct ev as [id|id chunk|id|it]; cbn [handled event] in *.
    - case_decide as Hid; split_and!; try done.
      cbn. intros id' [<-|[_ ?]]%lookup_insert_is_Some; [by destruct Hid|by apply Hp].
    - destruct (pending r !! id) as [line|] eqn:Hid; [|by split_and!].
      destruct (Hst id) as [st Hs]; [by apply Hp|].
      destruct (take_lines (S (length (line ++ chunk))) (line ++ chunk) 0) as [ls rest] eqn:E.
      pose proof (read_good id chunk line (sys r) st Hs Hg) as R. rewrite E in R. cbn [fst snd] in R.
      destruct (read_chunk id chunk line (sys r)) as [[out rest'] s'].
      destruct R as (-> & Hg' & Es).
      { apply Forall_forall. intros l Hl. apply Hh. apply elem_of_app. by left. }
      cbn [snd sys pending]. rewrite Es. split_and!; [done| | |done].
      + intros l Hl. apply Hh. apply elem_of_app. by right.
      + intros id' [<-|[_ ?]]%lookup_insert_is_Some; [by apply Hp; exists line|by apply Hp].
    - cbn. split_and!; [done|done| |done]. intros id' [_ ?]%lookup_delete_is_Some. by apply Hp.
    - cbn. split_and!; [by apply thread_good|done|done|]. intros id Hid. apply thread_stores. by apply Hst. }
  cbn [events]. unfold mbind, ST_bind, mret, ST_ret.
  destruct (event listening ev r) as [o r1]. cbn [snd] in Hstep. destruct Hstep as (H1 & H2 & H3 & H4).
  specialize (IH r1 H2 H3 H4 H1). by destruct (events listening evs r1).
Qed.

End Values.

(** ** Properties *)

(** C40: What the cluster stores was sent to it.  Whichever servers listen, however the
    connections cut their bytes, and in whatever order the reads of the three
    servers and the threads of the three nodes interleave, a store holds a value at
    a key only if a server has handled the line of a [PUT] with that key and value,
    and the program ends only if no server listens. *)
Theorem cluster_values setups evs w :
  let '(outs, status, r) := main setups evs w in
  (status = Some 0%Z ↔ ∀ x, x ∈ Client.servers →
     socket_ok (setups x.2) && bind_ok (setups x.2) && listen_ok (setups x.2) = false) ∧
  ∀ id s k v, Client.stores (sys r) !! id = Some s → KVStore.get k s = Some v →
    ∃ l, l ∈ handled (listening setups) evs ∅ ∧ puts l k v.
Proof.
  unfold main. set (ls := handled (listening setups) evs ∅).
  pose proof (events_good (from_lines ls) (listening setups) evs
    (mkRunning (Client.initial_system w) ∅)) as H. cbn [pending sys] in H.
  destruct (events _ _ _) as [outs r]. cbn [snd] in H. split.
  - assert (Hrun : ∀ x, (run_server (setups x.2) x.1).2 = true ↔
      socket_ok (setups x.2) && bind_ok (setups x.2) && listen_ok (setups x.2) = true).
    { intros x. unfold run_server, open_listener.
      by destruct (socket_ok (setups x.2)), (bind_ok (setups x.2)), (listen_ok (setups x.2)). }
    unfold listening. case_decide as Hd; (split; [intros Hs x Hx|intros Hx]); try done.
    + apply fmap_nil_inv in Hd. apply not_true_iff_false. intros E%Hrun.
      enough (x ∈ ([] : list (Z * Z))) as Hn by (by apply not_elem_of_nil in Hn).
      rewrite <-Hd. by apply list_elem_of_filter.
    + destruct Hd. rewrite RaftSpec.filter_none; [done|].
      apply Forall_forall. intros x Hin Hr%Hrun. by rewrite Hx in Hr.
  - intros id s k v Hs Hk. destruct H as [_ Hst].
    + intros l Hl e (l' & ->%list_elem_of_singleton & He). by exists l.
    + intros i Hi. rewrite lookup_empty in Hi. by destruct Hi.
    + intros i ([p q] & -> & [_ Hin]%list_elem_of_filter)%list_elem_of_fmap. cbn.
      unfold Client.servers in Hin. rewrite !elem_of_cons in Hin.
      destruct Hin as [E|[E|[E|Hn]]]; [injection E as -> ->; by eexists..|by apply not_elem_of_nil in Hn].
    + constructor.
      * intros i n Hi. cbn in Hi. unfold Server.ClusterDemo.initial_cluster, Raft.Register in Hi.
        rewrite lookup_fmap, !lookup_insert in Hi. repeat case_decide; cbn in Hi; simplify_eq; done.
      * intros i st. cbn. rewrite !lookup_insert_Some, lookup_singleton_Some. intros Hi.
        by destruct Hi as [[_ <-]|[_ [[_ <-]|[_ [_ <-]]]]].
    + destruct (Hst id s Hs k v Hk) as (e & (l & Hl & He) & Ho & <- & <-). exists l. split; [done|].
      destruct He as [[_ He]|[Ho' _]]; [done|congruence].
Qed.

(** ** Witness: the run of [cluster_session] *)

Lemma cluster_values_witness :
  (∃ s, Client.stores (sys (main all_ok example_events (mkWorld ∅ [])).2) !! 3%Z = Some s ∧
     KVStore.get (b# "k") s = Some (b# "v")) ∧
  ∃ l, l ∈ handled (listening all_ok) example_events ∅ ∧ puts l (b# "k") (b# "v").
Proof.
  assert (E : (s ← Client.stores (sys (main all_ok example_events (mkWorld ∅ [])).2) !! 3%Z;
    KVStore.get (b# "k") s) = Some (b# "v")) by (vm_compute; reflexivity).
  apply bind_Some in E as (s & Es & Eg). split; [exists s; split; [exact Es|exact Eg]|].
  pose proof (cluster_values all_ok example_events (mkWorld ∅ [])) as H.
  destruct (main all_ok example_events (mkWorld ∅ [])) as [[outs st] r].
  destruct H as [_ H]. exact (H 3%Z s _ _ Es Eg).
Defined.

End ClusterSpec.

End Startup.
